(* ===== verification/_CoqProject ===== *)
-Q . S2P
Prelude.v
CLib.v
StdMap.v
StringUtil.v
UriCodec.v
Base64.v
UrlParser.v
FileUtil.v
TimeUtil.v
Http.v
Sync.v
Monitor.v
ScopedPtr.v
ScopedFile.v
Ipc.v
IpcExchange.v
ThreadPool.v
CycleThread.v
AppConfig.v
JsonUtils.v
AsrService.v
Entry.v
LogLevel.v
LogDispatch.v
LogLifecycle.v
LogDelivery.v
Token.v
Units.v
Tokenizer.v
TokenizerTotal.v
Path.v
Lexing.v
PathParse.v
ConfigTree.v
Origin.v
Exceptions.v
Value.v
ValueMerge.v
ValueEdit.v
Containers.v
ValueConcat.v
ValueHeap.v
Parser.v
ParserTotal.v
Render.v
JsonText.v
JsonRoundTrip.v
Resolve.v
ResolveParts.v
ResolveTotal.v
AnyRef.v
AnyRefExact.v
Equality.v
TypedLists.v
ConfigView.v
Include.v
IncludeTotal.v
