(* ===== verification/Prelude.v ===== *)
(** * AsrServiceProxy: a verification library

    AsrServiceProxy (src/AsrServiceProxy) is a speech-recognition proxy: it
    serves an RPC over brpc, forwards the audio to a cloud recogniser over HTTP
    and returns the text.  Its own code has four parts.

    - app/: start-up ([Pipeline::run]), the application's configuration, the
      client of the recogniser with the thread that renews its access token, and
      the RPC handler.
    - utils/: strings, URIs, base64, URLs, files, dates, JSON helpers, an HTTP
      client over libcurl, semaphores, events, sleeping, a thread pool, scoped
      pointers and files, and messages through shared memory.
    - log/: log levels, a dispatcher with reference-counted items and receiver
      threads, and a log4cpp receiver.
    - config/: a HOCON configuration library: readers, tokenizer, paths, parser,
      values, resolution and typed access.

    [Pipeline::run] loads the configuration (AppConfig), starts logging (LogLevel,
    LogDispatch, LogLifecycle), creates the service (AsrService), whose calls go through libcurl
    as in Http, and serves requests.  The utilities (StringUtil, UriCodec, Base64,
    FileUtil, Sync, ThreadPool) are called from the others; the configuration
    library stands by itself: Tokenizer over Token's readers, PathParse and Parser
    over the tokens, Parser building the values of Value, which are merged, edited
    by path (ValueEdit), resolved (Resolve) and printed again (Render); Include
    finds the documents, and the ones they include, and gives the parser its
    includer; ConfigTree is the typed view of a resolved value.

    ** Files

    Shared:
    - Prelude: notations, the result type [res] and the state-and-exception monad
      [SE], tactics, hints and generic lemmas.
    - CLib: character classes, machine integers and the conversions and string
      operations of the C, C++ and boost libraries that the sources use.
    - StdMap: [std::map] with string keys, as a sorted association list.

    utils/:
    - StringUtil, UriCodec, FileUtil: src/utils.cpp ([StringUtil::*], with
      [uri_encode] and [uri_decode] in UriCodec, and [FileUtil::*]).
    - TimeUtil: [TimeUtil::*] of src/utils.cpp over the calendar and the C library's
      [strftime] and [strptime]; Module [Clock]: include/aip_time.hpp.
    - JsonUtils: src/json_utils.cpp.  ScopedFile: include/scoped_file.hpp.
    - Base64: src/base64.cpp.  UrlParser: src/url_parser.cpp.
    - Http: src/http.cpp and include/http.hpp; [talk] keeps the request stream,
      the response object and the count of curl handles across its attempts.
    - Sync: Modules [CSemaphore], [CEvent], [CCritSec] for the pthread objects, as
      step functions on the shared state and the threads' program counters.
      Monitor: src/critsec.cpp and src/scopedlock.cpp, locking and waiting.
    - ThreadPool: include/thread_pool.hpp, one event per critical section.
    - CycleThread: src/aip_thread.cpp and src/aip_cycle_thread.cpp, one event per
      statement that touches shared state.
    - ScopedPtr: include/scoped_ptr.hpp; owners over a heap that remembers what
      made each object.
    - Ipc: src/ipc.cpp; clients and server as program counters, one event per
      statement, over the kernel's semaphore sets and the segment.  IpcExchange:
      the exchange of requests and answers.

    app/:
    - AppConfig: src/config.cpp.  AsrService: src/bd_asr_service.cpp,
      src/asr_service_factory.cpp, src/asr_proxy_impl.cpp, src/pipeline.cpp.
    - Entry: src/main.cpp, the help text and working directory of src/config.cpp, and
      [shm_getkey] of utils/src/ipc.cpp.

    log/:
    - LogLevel: src/logapi.cpp, src/log.cpp and the layout of src/log4cpp.cpp.
    - LogDispatch: src/logimpl.cpp; the heap maps live log items to their
      reference counts; Module [StopRace] is the dispatcher's loop against [stop].
    - LogLifecycle: the singletons and receivers of src/logimpl.cpp,
      src/logreceiver.cpp, src/log4cpp.cpp, include/logapi.hpp and src/log.cpp, over
      the objects that are alive, with the dispatcher's threads and process exit as
      events.  LogDelivery: a message from the call to log4cpp's receiver.

    config/ (src/detail):
    - Token: tokens.cpp, the scalar values and the two readers.
    - Tokenizer: tokenizer.cpp, method by method; TokenizerTotal: its bounds.
    - Path: path.cpp, path_builder.cpp, config_impl_util.cpp.
    - Lexing: what the tokenizer makes of given texts, used by the path proofs.
    - PathParse: the path expressions of parser.cpp (line 823 to the end).
    - Units: durations and sizes of simple_config.cpp.
    - ConfigTree: lookup, conversion, getters, entries and validation of
      simple_config.cpp, default_transformer.cpp, abstract_config_object.cpp.
    - Origin: simple_config_origin.cpp.  Exceptions: src/config_exception.cpp.
    - Value: the value classes (simple_config_object.cpp, simple_config_list.cpp,
      config_reference.cpp, config_delayed_merge.cpp,
      config_delayed_merge_object.cpp, config_concatenation.cpp and the abstract
      classes above them) as one inductive type whose constructors carry the
      object's address and origin; the constructors' checks, merging and
      concatenation.  A value is allocated by counting addresses up, and a pointer
      comparison of the code is a comparison of addresses.
    - ValueMerge: the predicate [wf] (what every constructor guarantees), the
      abstract [shape] of a value, the specification [merge] and the refinement.
    - ValueEdit: peeking, editing by path and [relativized], with their proofs.
    - Containers: lists and objects as vectors and maps, class by class
      (src/config_list.cpp, src/config_object.cpp and the classes under them).
    - ValueConcat: proofs about concatenation.
    - Parser: [ParseContext] of parser.cpp, method by method, and
      [Parseable::raw_parse_value]; ParserTotal: its totality.
    - Render: [render] of every class, config_render_options.cpp.
    - JsonText: the text and tokens of a concise rendering; JsonRoundTrip: parsing
      it again.
    - Resolve: resolve_context.cpp, resolve_source.cpp, resolve_memos.cpp,
      memo_key.cpp, resolve_replacer.cpp and [resolve_substitutions] of every class,
      with the tables of replacements and memos as state.  ValueHeap: values in a
      shared heap (one value per address); ResolveParts: lookup in partly resolved
      values, joining, sizes; ResolveTotal: resolving ends.
    - Include: src/config_parse_options.cpp, parseable.cpp, simple_includer.cpp,
      simple_include_context.cpp and [Config::parse_*] and [load] of src/config.cpp;
      [parse_stack] is an argument.  IncludeTotal: reading ends, and what a name
      without extension stands for.
    - AnyRef: values from plain data (config_impl.cpp) and [unwrapped]; AnyRefExact:
      what they hold.
    - Equality: [equals] and [hash_code] of variants (variant_utils.hpp), values,
      tokens, paths, origins and memo keys.
    - TypedLists: the getters of lists of simple_config.cpp.  ConfigView: its
      merging and editing over the wrapped object, and what the getters find then.

    ** What is proved

    - Concurrency.  Every interleaving of the thread pool runs each accepted task
      at most once, in order, and joining the pool runs all of them; the semaphore
      conserves permits; an auto-reset event releases one waiter per set; scoped
      locks exclude each other, and a second one in a thread freezes it; no
      sequence of log operations touches a freed item; a message logged at an enabled
      level reaches log4cpp's receiver within the turns its place in the queue needs; [stop] of the dispatcher
      deadlocks exactly in the states where the dispatcher still needs the lock;
      the token is available exactly while the token thread holds one; the lock of
      the shared memory excludes, whatever times out or dies; without time-outs
      every client gets the answer to its own request; a cycle thread that is told
      to stop runs at most one more cycle and exits.
    - Ownership.  Scoped pointers release every object at most once, and lose
      none; a scoped file closes what it opened and did not give away; from start-up
      to shutdown, in every order of logging, dispatching and creating receivers, the
      dispatcher calls receivers that are alive, with a host that is alive, provided
      the module is finished after its thread has come up and before the process
      exits.
    - Round trips.  A value rendered as JSON and parsed again; base64; URI
      encoding (with the exact set of strings for which it holds); values made
      from plain data and unwrapped; URLs; the UTC text of every second of four-digit
      years; a path rendered and parsed; every entry of
      a configuration found again under the text of its path; a value put at a path
      expression read back under it.
    - Equivalences.  The fast path parser agrees with the full one; the file
      reader delivers what the string reader delivers; validation finds no problem
      exactly when the configuration conforms to the reference; a getter of lists
      answers what the getter of single values answers for each item; [equals]
      decides a structural likeness of values, and where no cast confuses numbers of
      different classes equal values have equal hash codes.
    - Termination and errors.  The tokenizer delivers a finite stream with one END
      for every text, and none of its "bug" exceptions can occur; parsing any text
      in any syntax ends with a well-formed value or with an error of the document,
      and so does reading a file with includes, in any file system, even when they
      form cycles;
      resolving any configuration, with any cycles, ends with a resolved one or
      with an error of the document, and never with one of the resolver's own.
    - Refinement.  Merging two values, resolved or not, implements an abstract
      merge of their shapes, and is associative on resolved values; [relativized]
      implements a renaming of the substitutions of a shape.
    - Types.  Every operation on values returns well-formed values; concatenation
      refuses or keeps them well-formed.  Editing by path changes what is on the
      path and nothing else; a map keyed by paths becomes the object with exactly
      these paths.
    - Functional behaviour and errors.  Directory creation, path normalisation,
      the precedence of defaults, file and command line, the recognition call, the
      RPC handler, the start-up sequence, typed lookup with the errors it reports
      and their texts, what is read after a merge or an edit,
      [.conf] over [.json], removal of log receivers, which UTC texts are read and as
      what, lists and objects as read-only collections, the names of a JSON list.
    - Bounds.  The receive buffer of the recogniser's client, the configuration
      file's read buffer, durations and clocks at 64 bits.

    Several theorems state behaviour that the code cannot have been meant to have
    (the retry that resends the rest of a body, the unterminated buffer, the
    deadlock in [stop], the UTC text that is not read back, the host that exit
    deletes); they describe the code as it is.

    ** Conventions

    A [std::string] is a list of bytes; integers are [Z] with the wrap-around of
    their width written out ([wrap_u8], [wrap_u32], [wrap_u64], [to_i32], ...); a
    thrown exception is [Err] with the kind of the exception; undefined behaviour
    that the code can reach (a buffer overrun, a use after free, a null pointer,
    signed overflow) is a value of the result, never a silent default.

    Code outside the repository is a parameter: the class [FileSystem] (with
    [FileSystemLaws] and the instance [TreeFS]), [Files] (documents and boost's
    path functions, instance [disk]), [Application] (includers of an application,
    instances [no_includer] and [one_includer]), [JsonLib] and [JsonText] (jsoncpp),
    [Zone] (the rules of the local time zone, instances [fixed_zone] and
    [summer_zone]), [DoubleLib]
    ([double] and its conversions, instances [whole_doubles] and [half_doubles]),
    [HashLib] and [ObjectLib] (standard hash functions and the virtual functions of
    an object, instances [sum_hashes] and [no_objects]; [DoubleLaws] is what IEEE
    754 says of comparing doubles), and the record
    [curl_env] (what each transfer does).  Theorems with such hypotheses have a
    witness over a concrete instance.

    Fuel.  A loop over a string takes the string's length; [create_dir] the number
    of parts plus one; the merge of origins the number of origins; a loop of the
    tokenizer takes [loop_fuel], the characters left plus two, since every
    iteration reads one; [pull_next_token] takes [token_fuel], the characters left
    plus three, since a nested call follows an opening of a substitution.  That
    these are enough is proved: [tokenize_total] for the tokenizer, and for the
    others by theorems that give the result itself.  The loops of the parser take
    the tokens left plus one, and its recursion through objects and arrays
    [value_fuel], the tokens of the document plus one: each level consumes the
    bracket that opens it; [parse_total] shows that fuel is never exhausted.  The
    fuel of [resolve] bounds the depth of its calls; [resolve_total] shows that for
    every configuration some fuel is enough, and that more does not change the
    answer.  The fuel of [parse_nested] is one more than [MAX_INCLUDE_DEPTH], at
    which the code gives up; [includes_total] shows that it is enough.

    ** What is not modelled

    The exit of the server process of the shared memory, the log4cpp appenders and
    their configuration, code generated by protoc and the vendored libraries are left
    out.  What remains of the headers is declarations. *)

From Stdlib Require Export Ascii ZArith Lia.
From Stdlib Require Export Sorting.Sorted.
From stdpp Require Export base list strings gmap pretty.

(** ** Notations *)

Declare Scope src_scope.
Delimit Scope src_scope with src.

(** [std::string]: a sequence of 8-bit characters. *)
Abbreviation str := (list ascii).

(** A string literal of the source. *)
Definition lit (s : string) : str := String.list_ascii_of_string s.
Arguments lit _%_string.
Notation "$ s" := (lit s) (at level 9, s at level 0, format "$ s") : src_scope.
Open Scope src_scope.

(** ** Results: a value or the exception the source throws *)

Inductive res (E A : Type) : Type :=
| Ok (a : A)
| Err (e : E).
Arguments Ok {E A} a.
Arguments Err {E A} e.

#[export] Instance res_ret {E} : MRet (res E) := fun A a => Ok a.
#[export] Instance res_bind {E} : MBind (res E) := fun A B f m =>
  match m with Ok a => f a | Err e => Err e end.
#[export] Instance res_fmap {E} : FMap (res E) := fun A B f m =>
  match m with Ok a => Ok (f a) | Err e => Err e end.

Definition is_ok {E A} (r : res E A) : bool :=
  match r with Ok _ => true | Err _ => false end.

#[export] Instance res_eq_dec {E A} `{EqDecision E} `{EqDecision A} : EqDecision (res E A).
Proof. solve_decision. Defined.

(** ** State and exceptions: an exception keeps the state reached so far,
    because the source catches exceptions and goes on with the mutated object. *)

Definition SE (S E A : Type) : Type := S -> res E A * S.

Definition se_ret {S E A} (a : A) : SE S E A := fun s => (Ok a, s).
Definition se_throw {S E A} (e : E) : SE S E A := fun s => (Err e, s).
Definition se_get {S E} : SE S E S := fun s => (Ok s, s).
Definition se_put {S E} (s' : S) : SE S E unit := fun _ => (Ok tt, s').
Definition se_modify {S E} (f : S -> S) : SE S E unit := fun s => (Ok tt, f s).
Definition se_bind {S E A B} (m : SE S E A) (k : A -> SE S E B) : SE S E B :=
  fun s => match m s with
           | (Ok a, s') => k a s'
           | (Err e, s') => (Err e, s')
           end.

#[export] Instance SE_ret {S E} : MRet (SE S E) := fun A => se_ret.
#[export] Instance SE_bind {S E} : MBind (SE S E) := fun A B k m => se_bind m k.

Notation "'let*' x := m 'in' k" := (se_bind m (fun x => k))
  (at level 10, x name, m at level 100, k at level 200,
   format "'[v' 'let*'  x  :=  m  'in' '//' k ']'") : src_scope.
Notation "m ';;*' k" := (se_bind m (fun _ => k))
  (at level 100, right associativity, format "'[v' m ';;*' '//' k ']'") : src_scope.

(** ** Automation *)

Create HintDb src discriminated.
#[export] Hint Constants Opaque : src.

(** Split the goal's (or a hypothesis') innermost match on a non-variable. *)
Ltac case_match_eq :=
  match goal with
  | |- context [match ?x with _ => _ end] => destruct x eqn:?
  | H : context [match ?x with _ => _ end] |- _ => destruct x eqn:?
  end.

(** Turn the boolean comparisons of the source into propositions. *)
Ltac bool_to_prop :=
  repeat match goal with
  | H : (_ =? _)%Z = true |- _ => apply Z.eqb_eq in H
  | H : (_ =? _)%Z = false |- _ => apply Z.eqb_neq in H
  | H : (_ <? _)%Z = true |- _ => apply Z.ltb_lt in H
  | H : (_ <? _)%Z = false |- _ => apply Z.ltb_ge in H
  | H : (_ <=? _)%Z = true |- _ => apply Z.leb_le in H
  | H : (_ <=? _)%Z = false |- _ => apply Z.leb_gt in H
  | H : (_ && _)%bool = true |- _ => apply andb_true_iff in H; destruct H
  | H : (_ || _)%bool = false |- _ => apply orb_false_iff in H; destruct H
  | H : negb _ = true |- _ => apply negb_true_iff in H
  | H : negb _ = false |- _ => apply negb_false_iff in H
  | H : Ascii.eqb _ _ = true |- _ => apply Ascii.eqb_eq in H
  | H : Ascii.eqb _ _ = false |- _ => apply Ascii.eqb_neq in H
  | H : bool_decide _ = true |- _ => apply bool_decide_eq_true in H
  | H : bool_decide _ = false |- _ => apply bool_decide_eq_false in H
  end.

(** ** Statements over all 256 characters, decided by evaluation *)

Definition all_ascii : list ascii := map ascii_of_nat (List.seq 0 256).
Definition forall_ascii (P : ascii -> bool) : bool := forallb P all_ascii.

Lemma forall_ascii_spec P : forall_ascii P = true -> forall c, P c = true.
Proof.
  intros H c. unfold forall_ascii in H. rewrite forallb_forall in H. apply H.
  unfold all_ascii. apply in_map_iff. exists (nat_of_ascii c). split.
  - apply ascii_nat_embedding.
  - apply in_seq. pose proof (nat_ascii_bounded c). lia.
Qed.

(** [by_ascii P]: the goal follows from [P c = true], decided for every [c]. *)
Ltac by_ascii c P :=
  let H := fresh in
  pose proof (forall_ascii_spec P ltac:(vm_compute; reflexivity) c) as H; cbv beta in H.

(** ** Lists *)

(** Skip the leading elements that satisfy [p]. *)
Fixpoint drop_while {A} (p : A -> bool) (l : list A) : list A :=
  match l with
  | [] => []
  | x :: l' => if p x then drop_while p l' else l
  end.

Fixpoint take_while {A} (p : A -> bool) (l : list A) : list A :=
  match l with
  | [] => []
  | x :: l' => if p x then x :: take_while p l' else []
  end.

Definition drop_while_end {A} (p : A -> bool) (l : list A) : list A :=
  reverse (drop_while p (reverse l)).

Section Lists.
Context {A : Type}.
Implicit Types (p : A -> bool) (l : list A).

Lemma take_drop_while p l : take_while p l ++ drop_while p l = l.
Proof. induction l as [|x l IH]; simpl; [done|]. destruct (p x); simpl; by rewrite ?IH. Qed.

Lemma take_while_Forall p l : Forall (fun x => p x = true) (take_while p l).
Proof. induction l as [|x l IH]; simpl; [done|]. destruct (p x) eqn:?; auto. Qed.

Lemma drop_while_head p l x l' : drop_while p l = x :: l' -> p x = false.
Proof.
  induction l as [|y l IH]; simpl; [done|].
  destruct (p y) eqn:E; [done|]. intros. simplify_eq. done.
Qed.

Lemma drop_while_app_Forall p l1 l2 :
  Forall (fun x => p x = true) l1 -> drop_while p (l1 ++ l2) = drop_while p l2.
Proof. induction 1 as [|x l Hx _ IH]; simpl; [done|]. by rewrite Hx. Qed.

Lemma drop_while_stop p x l : p x = false -> drop_while p (x :: l) = x :: l.
Proof. intros H. simpl. by rewrite H. Qed.

Lemma take_while_app_stop p l1 x l2 :
  Forall (fun y => p y = true) l1 -> p x = false ->
  take_while p (l1 ++ x :: l2) = l1.
Proof. induction 1 as [|y l Hy _ IH]; intros Hx; simpl; [by rewrite Hx|]. by rewrite Hy, IH. Qed.

Lemma drop_while_app_stop p l1 x l2 :
  Forall (fun y => p y = true) l1 -> p x = false ->
  drop_while p (l1 ++ x :: l2) = x :: l2.
Proof. intros. rewrite drop_while_app_Forall by done. by apply drop_while_stop. Qed.

Lemma take_while_all p l : Forall (fun x => p x = true) l -> take_while p l = l.
Proof. induction 1 as [|x l Hx _ IH]; simpl; [done|]. by rewrite Hx, IH. Qed.

Lemma drop_while_all p l : Forall (fun x => p x = true) l -> drop_while p l = [].
Proof. induction 1 as [|x l Hx _ IH]; simpl; [done|]. by rewrite Hx, IH. Qed.

Lemma drop_while_length p l : length (drop_while p l) <= length l.
Proof. induction l as [|x l IH]; simpl; [done|]. destruct (p x); simpl; lia. Qed.

Lemma drop_while_nil_inv p l : drop_while p l = [] -> Forall (fun x => p x = true) l.
Proof.
  induction l as [|x l IH]; simpl; [done|]. destruct (p x) eqn:E; [|done].
  intros H. constructor; auto.
Qed.

(** Trimming from the right never touches a list whose last element stays. *)
Lemma drop_while_end_snoc_stop p l x :
  p x = false -> drop_while_end p (l ++ [x]) = l ++ [x].
Proof.
  intros H. unfold drop_while_end. rewrite reverse_app. simpl. rewrite H.
  rewrite reverse_cons, reverse_involutive. done.
Qed.

Lemma drop_while_end_all p l :
  Forall (fun x => p x = true) l -> drop_while_end p l = [].
Proof. intros H. unfold drop_while_end. rewrite drop_while_all; [done|]. by apply Forall_reverse. Qed.

Lemma drop_while_end_nil_inv p l :
  drop_while_end p l = [] -> Forall (fun x => p x = true) l.
Proof.
  unfold drop_while_end. intros H. apply Forall_reverse. apply drop_while_nil_inv.
  apply (f_equal reverse) in H. by rewrite reverse_involutive in H.
Qed.

(** A list is its right-trimmed part followed by elements that were trimmed. *)
Lemma drop_while_end_split p l :
  exists t, l = drop_while_end p l ++ t /\ Forall (fun x => p x = true) t.
Proof.
  exists (reverse (take_while p (reverse l))). split.
  - unfold drop_while_end. rewrite <- reverse_app, take_drop_while. by rewrite reverse_involutive.
  - apply Forall_reverse, take_while_Forall.
Qed.

Lemma drop_while_end_last p l l' x :
  drop_while_end p l = l' ++ [x] -> p x = false.
Proof.
  unfold drop_while_end. intros H. apply (f_equal reverse) in H.
  rewrite reverse_involutive, reverse_app in H. simpl in H. by apply drop_while_head in H.
Qed.
End Lists.

#[export] Hint Resolve take_while_Forall : src.

Lemma list_snoc_cases {A} (x : list A) : x = [] \/ exists r c, x = r ++ [c].
Proof. destruct x as [|a x] using rev_ind; [by left|right; eauto]. Qed.
