(* ===== verification/CLib.v ===== *)
(** * The parts of the C and C++ library the sources use

    Characters, character classes (POSIX locale), machine integers, the
    conversions [atoi], [strtol] and [boost::lexical_cast<int64_t>], and the
    [std::string] and [boost] string operations.  A [char] is signed, as on the
    targets the sources are built for, so a byte above 127 is negative when it
    is widened to [int]. *)

From S2P Require Import Prelude.

Open Scope Z_scope.

(** ** Characters *)

(** [static_cast<unsigned char>(c)] and [static_cast<int>(c)]. *)
Definition uchar (c : ascii) : Z := Z.of_N (N_of_ascii c).
Definition schar (c : ascii) : Z := if uchar c <? 128 then uchar c else uchar c - 256.

(** [static_cast<char>(z)]. *)
Definition chr (z : Z) : ascii := ascii_of_N (Z.to_N (z mod 256)).

(** [<cctype>] on an [int] argument: in the POSIX locale every code outside
    0..127 is in no class. *)
Definition isspace (z : Z) : bool := ((9 <=? z) && (z <=? 13)) || (z =? 32).
Definition isblank (z : Z) : bool := (z =? 9) || (z =? 32).
Definition isdigit (z : Z) : bool := (48 <=? z) && (z <=? 57).
Definition isupper (z : Z) : bool := (65 <=? z) && (z <=? 90).
Definition islower (z : Z) : bool := (97 <=? z) && (z <=? 122).
Definition isalpha (z : Z) : bool := isupper z || islower z.
Definition isalnum (z : Z) : bool := isalpha z || isdigit z.
Definition iscntrl (z : Z) : bool := ((0 <=? z) && (z <=? 31)) || (z =? 127).
Definition tolower (z : Z) : Z := if isupper z then z + 32 else z.
Definition toupper (z : Z) : Z := if islower z then z - 32 else z.

(** The same tests on a [char]. *)
Definition is_space (c : ascii) : bool := isspace (schar c).
Definition is_digit (c : ascii) : bool := isdigit (schar c).
Definition is_alpha (c : ascii) : bool := isalpha (schar c).
Definition is_alnum (c : ascii) : bool := isalnum (schar c).
Definition is_cntrl (c : ascii) : bool := iscntrl (schar c).

(** ** Machine integers *)

Definition wrap_u8 (z : Z) : Z := z mod 2 ^ 8.
Definition wrap_u32 (z : Z) : Z := z mod 2 ^ 32.
Definition wrap_u64 (z : Z) : Z := z mod 2 ^ 64.
Definition wrap_i32 (z : Z) : Z := (z + 2 ^ 31) mod 2 ^ 32 - 2 ^ 31.
Definition wrap_i64 (z : Z) : Z := (z + 2 ^ 63) mod 2 ^ 64 - 2 ^ 63.
Definition int32_min : Z := - 2 ^ 31.
Definition int32_max : Z := 2 ^ 31 - 1.
Definition int64_min : Z := - 2 ^ 63.
Definition int64_max : Z := 2 ^ 63 - 1.

(** ** C strings: what a callee of [s.c_str()] reads *)

Definition cstr (s : str) : str := take_while (fun c => negb (Ascii.eqb c "000"%char)) s.

(** ** Numbers in text *)

Definition dec_value (s : str) : Z := fold_left (fun acc c => acc * 10 + (uchar c - 48)) s 0.

Definition is_hex_digit (c : ascii) : bool :=
  is_digit c || ((97 <=? uchar c) && (uchar c <=? 102)) || ((65 <=? uchar c) && (uchar c <=? 70)).
Definition hex_digit (c : ascii) : Z :=
  if is_digit c then uchar c - 48
  else if 97 <=? uchar c then uchar c - 97 + 10 else uchar c - 65 + 10.
Definition hex_value (s : str) : Z := fold_left (fun acc c => acc * 16 + hex_digit c) s 0.

(** An optional sign: (negative?, rest). *)
Definition opt_sign (s : str) : bool * str :=
  match s with
  | c :: r => if Ascii.eqb c "-"%char then (true, r)
              else if Ascii.eqb c "+"%char then (false, r) else (false, s)
  | [] => (false, [])
  end.

Definition clamp_i64 (z : Z) : Z := Z.max int64_min (Z.min int64_max z).

(** [strtol(s, 0, 10)]: leading white space, a sign, then the longest run of
    digits; saturates. *)
Definition strtol10 (s : str) : Z :=
  let '(neg, r) := opt_sign (drop_while is_space (cstr s)) in
  let v := dec_value (take_while is_digit r) in
  clamp_i64 (if neg then - v else v).

(** [strtol(s, 0, 16)]: as above, with an optional [0x] before a hex digit. *)
Definition strip_0x (s : str) : str :=
  match s with
  | z :: x :: h :: r =>
      if Ascii.eqb z "0"%char && (Ascii.eqb x "x"%char || Ascii.eqb x "X"%char) && is_hex_digit h
      then h :: r else s
  | _ => s
  end.

Definition strtol16 (s : str) : Z :=
  let '(neg, r) := opt_sign (drop_while is_space (cstr s)) in
  let v := hex_value (take_while is_hex_digit (strip_0x r)) in
  clamp_i64 (if neg then - v else v).

(** [atoi(s)] is [(int) strtol(s, 0, 10)]. *)
Definition atoi (s : str) : Z := wrap_i32 (strtol10 s).

(** [boost::lexical_cast<int64_t>(s)]: an optional sign and at least one digit,
    nothing else, within range; [None] is [bad_lexical_cast]. *)
Definition lexical_cast_int64 (s : str) : option Z :=
  let '(neg, r) := opt_sign s in
  if bool_decide (r = []) || negb (forallb is_digit r) then None
  else let v := dec_value r in
       if neg then (if v <=? 2 ^ 63 then Some (- v) else None)
       else (if v <=? int64_max then Some v else None).

(** [boost::lexical_cast<std::string>(z)] and [stream << z]. *)
Definition dec_string (z : Z) : str := lit (pretty z).

(** ** [std::string] *)

Fixpoint find_char (c : ascii) (s : str) : option nat :=
  match s with
  | [] => None
  | d :: s' => if Ascii.eqb d c then Some 0%nat else S <$> find_char c s'
  end.

Definition starts_with (p s : str) : bool := bool_decide (take (length p) s = p).
Definition ends_with (p s : str) : bool := bool_decide (drop (length s - length p) s = p).

Fixpoint find_str (p s : str) : option nat :=
  if starts_with p s then Some 0%nat
  else match s with
       | [] => None
       | _ :: s' => S <$> find_str p s'
       end.
Definition contains (s p : str) : bool := bool_decide (is_Some (find_str p s)).

(** [s.substr(pos, n)]: throws [std::out_of_range] past the end. *)
Definition substr (s : str) (pos n : nat) : option str :=
  if bool_decide (pos <= length s)%nat then Some (take n (drop pos s)) else None.

(** [boost::trim_copy]. *)
Definition trim_copy (s : str) : str := drop_while_end is_space (drop_while is_space s).

(** ** Lemmas *)

Section Chars.
Implicit Types c : ascii.

Lemma uchar_range c : 0 <= uchar c < 256.
Proof. unfold uchar. pose proof (N_ascii_bounded c). lia. Qed.

Lemma schar_range c : -128 <= schar c < 128.
Proof. unfold schar. pose proof (uchar_range c). destruct (Z.ltb_spec (uchar c) 128); lia. Qed.

Lemma chr_uchar c : chr (uchar c) = c.
Proof.
  unfold chr. rewrite Z.mod_small by apply uchar_range. unfold uchar.
  rewrite N2Z.id. apply ascii_N_embedding.
Qed.

Lemma chr_mod z : chr (z mod 256) = chr z.
Proof. unfold chr. by rewrite Z.mod_mod. Qed.

Lemma schar_mod c : schar c mod 256 = uchar c.
Proof.
  unfold schar. pose proof (uchar_range c). destruct (Z.ltb_spec (uchar c) 128).
  - apply Z.mod_small. lia.
  - replace (uchar c - 256) with (uchar c + (-1) * 256) by lia.
    rewrite Z.mod_add by lia. apply Z.mod_small. lia.
Qed.

Lemma chr_schar c : chr (schar c) = c.
Proof. rewrite <- chr_mod, schar_mod. apply chr_uchar. Qed.

Lemma schar_inj c d : schar c = schar d -> c = d.
Proof. intros H. rewrite <- (chr_schar c), <- (chr_schar d). by rewrite H. Qed.

Lemma uchar_inj c d : uchar c = uchar d -> c = d.
Proof. intros H. rewrite <- (chr_uchar c), <- (chr_uchar d). by rewrite H. Qed.

Lemma uchar_chr z : uchar (chr z) = z mod 256.
Proof.
  unfold uchar, chr. pose proof (Z.mod_pos_bound z 256 ltac:(lia)).
  rewrite N_ascii_embedding by lia. lia.
Qed.

Lemma schar_eqb c d : (schar c =? schar d) = Ascii.eqb c d.
Proof.
  destruct (Ascii.eqb_spec c d) as [->|H].
  - apply Z.eqb_refl.
  - apply Z.eqb_neq. intros E. by apply schar_inj in E.
Qed.

Lemma is_alpha_alnum c : is_alpha c = true -> is_alnum c = true.
Proof. unfold is_alpha, is_alnum, isalnum. intros ->. done. Qed.

Lemma alnum_not_space c : is_alnum c = true -> is_space c = false.
Proof.
  intros H. by_ascii c (fun c => implb (is_alnum c) (negb (is_space c))).
  rewrite H in H0. by apply negb_true_iff.
Qed.
End Chars.

Lemma find_char_Some c s n :
  find_char c s = Some n ->
  s = take n s ++ c :: drop (S n) s /\ c ∉ take n s /\ (n < length s)%nat.
Proof.
  revert n. induction s as [|d s IH]; intros n; simpl; [done|].
  destruct (Ascii.eqb_spec d c) as [->|Hne].
  - intros [= <-]. simpl. repeat split; [set_solver|lia].
  - destruct (find_char c s) as [m|] eqn:E; simpl; [|done]. intros [= <-].
    destruct (IH m eq_refl) as (H1 & H2 & H3). simpl. split; [|split].
    + by f_equal.
    + rewrite not_elem_of_cons. by split.
    + lia.
Qed.

Lemma find_char_None c s : find_char c s = None <-> c ∉ s.
Proof.
  induction s as [|d s IH]; simpl; [set_solver|].
  destruct (Ascii.eqb_spec d c) as [->|Hne]; [set_solver|].
  rewrite not_elem_of_cons. destruct (find_char c s); simpl; naive_solver.
Qed.

Lemma starts_with_spec p s : starts_with p s = true <-> exists r, s = p ++ r.
Proof.
  unfold starts_with. rewrite bool_decide_eq_true. split.
  - intros H. exists (drop (length p) s). rewrite <- H at 1. by rewrite take_drop.
  - intros [r ->]. apply take_app_length.
Qed.

Lemma ends_with_spec p s : ends_with p s = true <-> exists r, s = r ++ p.
Proof.
  unfold ends_with. rewrite bool_decide_eq_true. split.
  - intros H. exists (take (length s - length p) s). rewrite <- H at 2. by rewrite take_drop.
  - intros [r ->]. rewrite length_app. rewrite drop_app_ge by lia.
    by replace (length r + length p - length p - length r)%nat with 0%nat by lia.
Qed.

Lemma find_str_Some p s n :
  find_str p s = Some n -> exists r, drop n s = p ++ r /\ (n <= length s)%nat.
Proof.
  revert n. induction s as [|c s IH]; intros n; cbn [find_str].
  - destruct (starts_with p []) eqn:E; [|done]. intros [= <-].
    apply starts_with_spec in E as [r Hr]. exists r. split; [done|simpl; lia].
  - destruct (starts_with p (c :: s)) eqn:E.
    + intros [= <-]. apply starts_with_spec in E as [r Hr]. exists r. split; [done|simpl; lia].
    + destruct (find_str p s) as [m|]; simpl; [|done]. intros [= <-].
      destruct (IH m eq_refl) as (r & ? & ?). exists r. split; [done|simpl; lia].
Qed.

Lemma contains_spec s p : contains s p = true <-> exists a b, s = a ++ p ++ b.
Proof.
  unfold contains. rewrite bool_decide_eq_true. split.
  - intros [n H]. apply find_str_Some in H as (r & H & _). exists (take n s), r.
    by rewrite <- H, take_drop.
  - intros (a & b & ->). induction a as [|c a IH]; simpl.
    + destruct (p ++ b) eqn:E; cbn [find_str]; rewrite <- E;
        (rewrite (proj2 (starts_with_spec p (p ++ b))); [by eexists | by exists b]).
    + cbn [find_str]. destruct (starts_with _ _); [by eexists|].
      destruct IH as [n ->]. simpl. by eexists.
Qed.

(** Trimming keeps a string that starts and ends with a character that is
    not white space, and removes all of a blank one. *)
Lemma trim_copy_blank s : Forall (fun c => is_space c = true) s -> trim_copy s = [].
Proof. intros H. unfold trim_copy. by rewrite (drop_while_all _ _ H). Qed.

Lemma trim_copy_pad a s b :
  Forall (fun c => is_space c = true) a -> Forall (fun c => is_space c = true) b ->
  trim_copy (a ++ s ++ b) = trim_copy s.
Proof.
  intros Ha Hb. unfold trim_copy. rewrite drop_while_app_Forall by done.
  destruct (drop_while is_space s) as [|c s'] eqn:E.
  - apply drop_while_nil_inv in E. rewrite drop_while_all; [done|]. by apply Forall_app.
  - assert (drop_while is_space (s ++ b) = (c :: s') ++ b) as ->.
    { rewrite <- (take_drop_while is_space s), E, <- app_assoc.
      rewrite drop_while_app_Forall by apply take_while_Forall.
      simpl. by rewrite (drop_while_head _ _ _ _ E). }
    unfold drop_while_end. rewrite reverse_app.
    rewrite drop_while_app_Forall; [done|]. by apply Forall_reverse.
Qed.

Lemma trim_copy_id s :
  (forall c r, s = c :: r -> is_space c = false) ->
  (forall c r, s = r ++ [c] -> is_space c = false) -> trim_copy s = s.
Proof.
  intros H1 H2. unfold trim_copy. destruct s as [|c s]; [done|].
  rewrite drop_while_stop by (by eapply H1).
  destruct (exists_last (l := c :: s)) as (l & x & E); [done|]. rewrite E in *.
  apply drop_while_end_snoc_stop. by eapply H2.
Qed.

Lemma dec_value_app s1 s2 :
  dec_value (s1 ++ s2) = dec_value s1 * 10 ^ Z.of_nat (length s2) + dec_value s2.
Proof.
  unfold dec_value. rewrite fold_left_app. generalize (fold_left (fun acc c => acc * 10 + (uchar c - 48)) s1 0) as a.
  induction s2 as [|c s2 IH]; intros a; cbn [fold_left length].
  - simpl Z.of_nat. rewrite Z.pow_0_r. lia.
  - rewrite (IH (a * 10 + _)), (IH (0 * 10 + _)). rewrite Nat2Z.inj_succ, Z.pow_succ_r by lia. ring.
Qed.

(** Machine integers stay in range, and wrapping is the identity there. *)
Lemma wrap_i32_range z : int32_min <= wrap_i32 z <= int32_max.
Proof. unfold wrap_i32, int32_min, int32_max. pose proof (Z.mod_pos_bound (z + 2 ^ 31) (2 ^ 32)). lia. Qed.

Lemma wrap_i32_id z : int32_min <= z <= int32_max -> wrap_i32 z = z.
Proof. unfold wrap_i32, int32_min, int32_max. intros. rewrite Z.mod_small; lia. Qed.

Lemma wrap_i64_range z : int64_min <= wrap_i64 z <= int64_max.
Proof. unfold wrap_i64, int64_min, int64_max. pose proof (Z.mod_pos_bound (z + 2 ^ 63) (2 ^ 64)). lia. Qed.

Lemma wrap_i64_id z : int64_min <= z <= int64_max -> wrap_i64 z = z.
Proof. unfold wrap_i64, int64_min, int64_max. intros. rewrite Z.mod_small; lia. Qed.

Lemma lexical_cast_int64_range s z :
  lexical_cast_int64 s = Some z -> int64_min <= z <= int64_max.
Proof.
  unfold lexical_cast_int64. destruct (opt_sign s) as [neg r].
  destruct (bool_decide (r = []) || _) eqn:E; [done|].
  assert (Hd : forallb is_digit r = true) by (apply orb_false_iff in E as [_ E]; by apply negb_false_iff in E).
  assert (0 <= dec_value r).
  { clear E. revert Hd. induction r as [|c r IH] using rev_ind; [unfold dec_value; simpl; lia|].
    rewrite forallb_app. intros [H1 H2]%andb_true_iff. rewrite dec_value_app. specialize (IH H1).
    simpl in H2. rewrite andb_true_r in H2. unfold is_digit, isdigit in H2. bool_to_prop.
    unfold schar in *. destruct (Z.ltb_spec (uchar c) 128); [|pose proof (uchar_range c); lia].
    assert (dec_value [c] = uchar c - 48) as -> by (unfold dec_value; simpl; lia).
    assert (0 <= dec_value r * 10 ^ Z.of_nat (length [c])) by (apply Z.mul_nonneg_nonneg; [done|]; apply Z.pow_nonneg; lia). lia. }
  unfold int64_min, int64_max. destruct neg.
  - destruct (Z.leb_spec (dec_value r) (2 ^ 63)); intros; simplify_eq; lia.
  - unfold int64_max. destruct (Z.leb_spec (dec_value r) (2 ^ 63 - 1)); intros; simplify_eq; lia.
Qed.

(** Printed numbers: digits only, and they read back. *)
Lemma pretty_N_char_digit x :
  (x < 10)%N -> is_digit (pretty_N_char x) = true /\ uchar (pretty_N_char x) - 48 = Z.of_N x.
Proof.
  intros H. assert (x = 0 \/ x = 1 \/ x = 2 \/ x = 3 \/ x = 4 \/ x = 5 \/ x = 6 \/ x = 7 \/ x = 8 \/ x = 9)%N
    as Hx by lia.
  repeat destruct Hx as [->|Hx]; [done..|]. by subst.
Qed.

Lemma pretty_N_go_spec x s :
  Forall (fun c => is_digit c = true) (lit s) ->
  Forall (fun c => is_digit c = true) (lit (pretty_N_go x s))
  /\ dec_value (lit (pretty_N_go x s)) =
     Z.of_N x * 10 ^ Z.of_nat (length (lit s)) + dec_value (lit s)
  /\ (length (lit s) + (if decide (x = 0)%N then 0 else 1) <= length (lit (pretty_N_go x s)))%nat.
Proof.
  revert s. induction (N.lt_wf_0 x) as [x _ IH]; intros s Hs.
  assert (x = 0 \/ 0 < x)%N as [->|Hx] by lia; [rewrite pretty_N_go_0; split; [done|split; [lia|simpl; lia]]|].
  rewrite pretty_N_go_step by done.
  destruct (pretty_N_char_digit (x mod 10)) as [Hd Hv]; [apply N.mod_lt; lia|].
  destruct (IH (x / 10)%N (N.div_lt x 10 Hx eq_refl) (String (pretty_N_char (x mod 10)) s)) as (I1 & I2 & I3).
  { by constructor. }
  split; [done|]. split.
  - rewrite I2. change (lit (String (pretty_N_char (x mod 10)) s)) with ([pretty_N_char (x mod 10)] ++ lit s).
    rewrite dec_value_app, length_app. cbn [length]. unfold dec_value at 1. cbn [fold_left].
    rewrite Hv, Nat2Z.inj_add, Z.pow_add_r by lia. rewrite N2Z.inj_div, N2Z.inj_mod.
    pose proof (Z.div_mod (Z.of_N x) 10 ltac:(lia)). change (Z.of_N 10) with 10.
    change (10 ^ Z.of_nat 1) with 10. nia.
  - change (length (lit (String (pretty_N_char (x mod 10)) s))) with (S (length (lit s))) in I3.
    repeat case_decide; lia.
Qed.

Lemma dec_string_nonneg z :
  0 <= z ->
  Forall (fun c => is_digit c = true) (dec_string z) /\ dec_value (dec_string z) = z /\ dec_string z <> [].
Proof.
  intros Hz. destruct z as [|p|p]; [by repeat constructor| |lia].
  change (dec_string (Z.pos p)) with (lit (pretty_N_go (N.pos p) EmptyString)).
  destruct (pretty_N_go_spec (N.pos p) EmptyString) as (H1 & H2 & H3); [constructor|].
  split; [done|]. split; [rewrite H2; change (dec_value (lit EmptyString)) with 0; change (Z.of_nat (length (lit EmptyString))) with 0; lia|].
  intros E. rewrite E in H3. simpl in H3. lia.
Qed.

Lemma digit_not_space c : is_digit c = true -> is_space c = false.
Proof.
  intros H. by_ascii c (fun c => implb (is_digit c) (negb (is_space c))).
  rewrite H in H0. by apply negb_true_iff.
Qed.

Lemma digit_not_special c d :
  is_digit c = true -> is_digit d = false -> Ascii.eqb c d = false.
Proof. intros Hc Hd. destruct (Ascii.eqb_spec c d); [congruence|done]. Qed.

Lemma cstr_id s : Forall (fun c => c <> "000"%char) s -> cstr s = s.
Proof.
  intros H. unfold cstr. apply take_while_all. eapply Forall_impl; [exact H|].
  intros c Hc. cbv beta in *. apply negb_true_iff. by apply Ascii.eqb_neq.
Qed.

Lemma strtol10_digits s :
  Forall (fun c => is_digit c = true) s -> strtol10 s = clamp_i64 (dec_value s).
Proof.
  intros H. unfold strtol10. rewrite cstr_id.
  2:{ eapply Forall_impl; [exact H|]. by intros c Hc ->. }
  destruct s as [|c s]; [done|]. apply Forall_cons in H as H'. destruct H' as [Hc Hs].
  rewrite drop_while_stop by (by apply digit_not_space). unfold opt_sign.
  rewrite !(digit_not_special c) by done. by rewrite take_while_all.
Qed.

(** [atoi] reads back a printed [int]. *)
Lemma atoi_dec_string z : 0 <= z <= int32_max -> atoi (dec_string z) = z.
Proof.
  intros Hz. destruct (dec_string_nonneg z) as (Hd & Hv & _); [lia|].
  unfold atoi. rewrite strtol10_digits, Hv by done. unfold clamp_i64.
  unfold int32_max, int64_max, int64_min in *. rewrite wrap_i32_id; unfold int32_min, int32_max; lia.
Qed.

Create Rewrite HintDb src.
#[export] Hint Resolve uchar_range schar_range wrap_i32_range wrap_i64_range : src.
#[export] Hint Rewrite chr_uchar chr_schar schar_mod uchar_chr : src.

(** Sanity of the conversions on concrete text. *)
Example atoi_examples :
  atoi $" 42abc" = 42 /\ atoi $"-7" = -7 /\ atoi $"x" = 0 /\ atoi $"2147483648" = -2147483648.
Proof. vm_compute. done. Qed.

Example lexical_cast_examples :
  lexical_cast_int64 $"-12" = Some (-12) /\ lexical_cast_int64 $"-" = None
  /\ lexical_cast_int64 $"9223372036854775808" = None /\ lexical_cast_int64 $" 1" = None.
Proof. vm_compute. done. Qed.
