(* ===== verification/StdMap.v ===== *)
(** * [std::map<std::string, T>]

    The sources iterate over [std::map] (query parameters, HTTP headers), so the
    order of the keys is observable.  A map is its sorted association list: keys
    in strictly increasing order of [std::string::compare], which compares bytes
    as [unsigned char].  [map_insert] is [std::map::insert] (the first value
    stays), [map_set] is [m[k] = v] (the last value wins). *)

From S2P Require Import Prelude CLib.

Open Scope Z_scope.

(** [std::string::operator<]. *)
Fixpoint str_lt (a b : str) : bool :=
  match a, b with
  | _, [] => false
  | [], _ :: _ => true
  | x :: a', y :: b' =>
      if uchar x <? uchar y then true
      else if uchar y <? uchar x then false else str_lt a' b'
  end.

Section StdMap.
Context {V : Type}.

Abbreviation stdmap := (list (str * V)).

Fixpoint map_find (k : str) (m : stdmap) : option V :=
  match m with
  | [] => None
  | (k', v) :: m' => if bool_decide (k = k') then Some v else map_find k m'
  end.

(** The node is placed before the first greater key; [keep] says which value
    survives when the key is present. *)
Fixpoint map_put (keep : bool) (k : str) (v : V) (m : stdmap) : stdmap :=
  match m with
  | [] => [(k, v)]
  | (k', v') :: m' =>
      if str_lt k k' then (k, v) :: m
      else if bool_decide (k = k') then (k', if keep then v' else v) :: m'
      else (k', v') :: map_put keep k v m'
  end.

Definition map_insert : str -> V -> stdmap -> stdmap := map_put true.
Definition map_set : str -> V -> stdmap -> stdmap := map_put false.

(** [map[k]] as an rvalue: a missing key is created with the default value. *)
Definition map_index (dflt : V) (k : str) (m : stdmap) : V * stdmap :=
  match map_find k m with
  | Some v => (v, m)
  | None => (dflt, map_insert k dflt m)
  end.

Definition map_sorted (m : stdmap) : Prop := StronglySorted (fun a b => str_lt a b = true) (map fst m).
End StdMap.

Abbreviation stdmap V := (list (str * V)).

(** ** The order *)

Lemma str_lt_irrefl a : str_lt a a = false.
Proof. induction a as [|x a IH]; simpl; [done|]. by rewrite Z.ltb_irrefl. Qed.

Lemma str_lt_trans a b c : str_lt a b = true -> str_lt b c = true -> str_lt a c = true.
Proof.
  revert b c. induction a as [|x a IH]; intros [|y b] [|z c]; simpl; try done.
  destruct (Z.ltb_spec (uchar x) (uchar y)), (Z.ltb_spec (uchar y) (uchar x)),
    (Z.ltb_spec (uchar y) (uchar z)), (Z.ltb_spec (uchar z) (uchar y)),
    (Z.ltb_spec (uchar x) (uchar z)), (Z.ltb_spec (uchar z) (uchar x)); try done; try lia.
  apply IH.
Qed.

Lemma str_lt_total a b : str_lt a b = true \/ a = b \/ str_lt b a = true.
Proof.
  revert b. induction a as [|x a IH]; intros [|y b]; simpl; auto.
  destruct (Z.ltb_spec (uchar x) (uchar y)); auto.
  destruct (Z.ltb_spec (uchar y) (uchar x)); auto.
  assert (uchar x = uchar y) as E%uchar_inj by lia. subst.
  destruct (IH b) as [?|[->|?]]; auto.
Qed.

Lemma str_lt_ne a b : str_lt a b = true -> a <> b.
Proof. intros H ->. by rewrite str_lt_irrefl in H. Qed.

(** ** The map laws *)

Section Laws.
Context {V : Type}.
Implicit Types (m : stdmap V) (k : str) (v : V).

Lemma map_put_keys_elem keep k v m k' :
  k' ∈ (map_put keep k v m).*1 <-> k' = k \/ k' ∈ m.*1.
Proof.
  induction m as [|[k1 v1] m IH]; simpl; [set_solver|].
  destruct (str_lt k k1); simpl; [set_solver|].
  case_bool_decide; subst; simpl; set_solver.
Qed.

(** Both insertions keep the keys sorted, hence without duplicates. *)
Lemma map_put_sorted keep k v m : map_sorted m -> map_sorted (map_put keep k v m).
Proof.
  unfold map_sorted. induction m as [|[k1 v1] m IH]; simpl; intros H.
  - repeat constructor.
  - apply StronglySorted_inv in H as [Hs Hf].
    destruct (str_lt k k1) eqn:E; simpl.
    + constructor; [by constructor|]. constructor; [done|].
      eapply Forall_impl; [exact Hf|]. intros ? ?. by eapply str_lt_trans.
    + case_bool_decide as Hk; simpl; [by constructor|].
      constructor; [by apply IH|]. apply list.Forall_forall. intros x Hx.
      assert (x = k \/ x ∈ m.*1) as [->|Hx'] by (by apply (map_put_keys_elem keep k v m)).
      * destruct (str_lt_total k k1) as [?|[?|?]]; congruence.
      * rewrite list.Forall_forall in Hf. by apply Hf.
Qed.

Lemma map_find_put_ne keep k k' v m :
  k <> k' -> map_find k' (map_put keep k v m) = map_find k' m.
Proof.
  intros Hne. induction m as [|[k1 v1] m IH]; simpl.
  - by rewrite bool_decide_eq_false_2 by done.
  - destruct (str_lt k k1); simpl; [by rewrite (bool_decide_eq_false_2 (k' = k)) by done|].
    case_bool_decide as Hk; simpl; [|by rewrite IH]. subst.
    by rewrite !bool_decide_eq_false_2 by done.
Qed.

Lemma map_find_sorted_lt k m :
  Forall (fun x => str_lt k x = true) (map fst m) -> map_find k m = None.
Proof.
  induction m as [|[k1 v1] m IH]; simpl; [done|]. intros [H1 H2]%Forall_cons.
  rewrite bool_decide_eq_false_2; [auto|]. by apply str_lt_ne.
Qed.

Lemma map_find_put keep k v m :
  map_sorted m ->
  map_find k (map_put keep k v m) =
  Some (match map_find k m with Some v' => if keep then v' else v | None => v end).
Proof.
  unfold map_sorted. induction m as [|[k1 v1] m IH]; simpl; intros H.
  - by rewrite bool_decide_eq_true_2 by done.
  - apply StronglySorted_inv in H as [Hs Hf].
    destruct (str_lt k k1) eqn:E; simpl.
    + rewrite bool_decide_eq_true_2 by done.
      rewrite bool_decide_eq_false_2 by (by apply str_lt_ne).
      rewrite map_find_sorted_lt; [done|].
      eapply Forall_impl; [exact Hf|]. intros ? ?. by eapply str_lt_trans.
    + case_bool_decide; simpl.
      * by rewrite bool_decide_eq_true_2 by done.
      * rewrite bool_decide_eq_false_2 by done. by apply IH.
Qed.

Lemma map_find_insert k k' v m :
  map_sorted m ->
  map_find k' (map_insert k v m) =
  if bool_decide (k' = k) then Some (default v (map_find k m)) else map_find k' m.
Proof.
  intros H. case_bool_decide; subst.
  - unfold map_insert. rewrite map_find_put by done. by destruct (map_find k m).
  - by apply map_find_put_ne.
Qed.

Lemma map_find_set k k' v m :
  map_sorted m ->
  map_find k' (map_set k v m) = if bool_decide (k' = k) then Some v else map_find k' m.
Proof.
  intros H. case_bool_decide; subst.
  - unfold map_set. rewrite map_find_put by done. by destruct (map_find k m).
  - by apply map_find_put_ne.
Qed.

Lemma map_sorted_nil : map_sorted (V := V) [].
Proof. constructor. Qed.

Lemma map_insert_sorted k v m : map_sorted m -> map_sorted (map_insert k v m).
Proof. apply map_put_sorted. Qed.

Lemma map_set_sorted k v m : map_sorted m -> map_sorted (map_set k v m).
Proof. apply map_put_sorted. Qed.

(** A sorted map is determined by its lookups: the order carries no information
    beyond the set of bindings. *)
Lemma map_find_head k v m k' :
  map_sorted ((k, v) :: m) -> is_Some (map_find k' ((k, v) :: m)) -> k' = k \/ str_lt k k' = true.
Proof.
  unfold map_sorted. intros H [v' Hv]. apply StronglySorted_inv in H as [_ Hf]. simpl in Hv.
  case_bool_decide; [by left|right]. clear -Hf Hv. simpl in Hf.
  induction m as [|[k1 v1] m IH]; simpl in *; [done|].
  apply Forall_cons in Hf as [H1 H2]. case_bool_decide; [by subst|auto].
Qed.

Lemma map_sorted_ext m1 m2 :
  map_sorted m1 -> map_sorted m2 -> (forall k, map_find k m1 = map_find k m2) -> m1 = m2.
Proof.
  revert m2. induction m1 as [|[k1 v1] m1 IH]; intros [|[k2 v2] m2] H1 H2 Hext; [done| | |].
  - specialize (Hext k2). simpl in Hext. by rewrite bool_decide_eq_true_2 in Hext by done.
  - specialize (Hext k1). simpl in Hext. by rewrite bool_decide_eq_true_2 in Hext by done.
  - assert (k1 = k2) as ->.
    { destruct (map_find_head k2 v2 m2 k1 H2) as [?|L1]; [|done|].
      { rewrite <- Hext. simpl. rewrite bool_decide_eq_true_2 by done. by eexists. }
      destruct (map_find_head k1 v1 m1 k2 H1) as [?|L2]; [|done|].
      { rewrite Hext. simpl. rewrite bool_decide_eq_true_2 by done. by eexists. }
      pose proof (str_lt_trans _ _ _ L1 L2) as C. by rewrite str_lt_irrefl in C. }
    pose proof (Hext k2) as E. simpl in E. rewrite !bool_decide_eq_true_2 in E by done.
    simplify_eq. f_equal. pose proof (proj1 (StronglySorted_inv H1)) as S1. pose proof (proj1 (StronglySorted_inv H2)) as S2.
    apply IH; [done|done|]. intros k. specialize (Hext k). simpl in Hext.
    case_bool_decide; [|done]. subst.
    apply StronglySorted_inv in H1 as [_ F1]. apply StronglySorted_inv in H2 as [_ F2].
    by rewrite !map_find_sorted_lt.
Qed.
End Laws.

#[export] Hint Resolve map_sorted_nil map_insert_sorted map_set_sorted : src.

(** Inserting the bindings of a sorted map in order rebuilds it. *)
Lemma map_put_last {V} keep k (v : V) m :
  Forall (fun x => str_lt x k = true) (map fst m) -> map_put keep k v m = m ++ [(k, v)].
Proof.
  induction m as [|[k1 v1] m IH]; simpl; [done|]. intros [H1 H2]%Forall_cons.
  destruct (str_lt k k1) eqn:E.
  { pose proof (str_lt_trans _ _ _ H1 E) as C. by rewrite str_lt_irrefl in C. }
  rewrite bool_decide_eq_false_2 by (intros ->; by rewrite str_lt_irrefl in H1).
  by rewrite IH.
Qed.

Lemma map_insert_all {V} (acc kvs : stdmap V) :
  map_sorted (acc ++ kvs) -> fold_left (fun m kv => map_insert kv.1 kv.2 m) kvs acc = acc ++ kvs.
Proof.
  revert acc. induction kvs as [|[k v] kvs IH]; intros acc H; simpl; [by rewrite app_nil_r|].
  unfold map_insert. rewrite map_put_last.
  - rewrite IH by (by rewrite <- app_assoc). by rewrite <- app_assoc.
  - unfold map_sorted in H. rewrite map_app in H. simpl in H. clear -H.
    induction (map fst acc) as [|x l IH]; simpl in *; [constructor|].
    apply StronglySorted_inv in H as [Hs Hf]. constructor; [|auto].
    by apply Forall_app in Hf as [_ [Hf _]%Forall_cons].
Qed.
