(* ===== verification/StringUtil.v ===== *)
(** * utils/src/utils.cpp: class [StringUtil]

    Splitting, trimming, case conversion and hexadecimal output.  The three
    overloads of [split] are [split_vec], [split_set] and [split_map]; a
    [std::string*] out parameter is returned.  [HMAC] of OpenSSL, which
    [sha256_hex] calls, is a parameter. *)

From S2P Require Import Prelude CLib StdMap.

Open Scope Z_scope.

(** [s.substr(pos, n)] with the [int] [n] converted to [size_t]. *)
Definition substr_int (s : str) (pos n : Z) : option str :=
  let size := Z.of_nat (length s) in
  if (0 <=? pos) && (pos <=? size)
  then Some (take (Z.to_nat (Z.min (wrap_u64 n) (size - pos))) (drop (Z.to_nat pos) s))
  else None.

(** ** split *)

(** [split(origin, ch_delimiter, std::vector<std::string>&)]: cut at the first
    delimiter, keep what is left, until there is none. *)
Fixpoint split_loop (fuel : nat) (d : ascii) (s : str) (result : list str) : list str :=
  match fuel with
  | O => result
  | S fuel' =>
      match find_char d s with
      | Some pos => split_loop fuel' d (drop (pos + 1) s) (result ++ [take pos s])
      | None => result ++ [s]
      end
  end.
Definition split_vec (s : str) (d : ascii) : list str := split_loop (S (length s)) d s [].

(** [std::getline(ss, item, delimiter)] on the characters still in the stream. *)
Definition getline (d : ascii) (ss : str) : option (str * str) :=
  match ss with
  | [] => None
  | _ => match find_char d ss with
         | Some pos => Some (take pos ss, drop (pos + 1) ss)
         | None => Some (ss, [])
         end
  end.

Fixpoint getlines (fuel : nat) (d : ascii) (ss : str) : list str :=
  match fuel with
  | O => []
  | S fuel' => match getline d ss with
               | Some (item, ss') => item :: getlines fuel' d ss'
               | None => []
               end
  end.

(** [split(str, delimiter, std::set<std::string>&)]. *)
Definition split_set (s : str) (d : ascii) : gset str := list_to_set (getlines (S (length s)) d s).

(** ** space_trim, trim, is_empty *)

Definition space_trim (src : str) : option str :=
  let lead := Z.of_nat (length (take_while is_space src)) in
  let trail := Z.of_nat (length (take_while is_space (reverse src))) in
  substr_int src lead (Z.of_nat (length src) - lead - trail).

(** [(c & 0x80) || !isspace(c)] fails: the character is trimmed. *)
Definition trim_blank (c : ascii) : bool :=
  negb (negb (Z.land (schar c) 128 =? 0) || negb (isspace (schar c))).

Definition char_at (s : str) (i : Z) : ascii := nth (Z.to_nat i) s "000"%char.

Fixpoint trim_end (fuel : nat) (s : str) (start e : Z) : Z :=
  match fuel with
  | O => e
  | S fuel' =>
      if start <=? e then
        if trim_blank (char_at s e) then trim_end fuel' s start (e - 1) else e
      else e
  end.

Definition trim (src : str) : str :=
  let start := Z.of_nat (length (take_while trim_blank src)) in
  let e := trim_end (length src) src start (Z.of_nat (length src) - 1) in
  if e <? start then []
  else take (Z.to_nat (e - start + 1)) (drop (Z.to_nat start) src).

Fixpoint is_empty_loop (idx : str) : bool :=
  match idx with
  | [] => true
  | c :: idx' => if isspace (Z.land (schar c) 127) then is_empty_loop idx' else false
  end.
Definition is_empty (src : str) : bool :=
  if bool_decide (length src = 0%nat) then true else is_empty_loop (cstr src).

(** ** split into a map *)

(** One line of [split(str, major, minor, std::map&, accept, truncate)]: the
    binding it adds, or [None] where the function returns -1. *)
Definition split_line (minor : ascii) (accept : bool) (line : str) : option (str * str) :=
  match split_vec line minor with
  | [] => None
  | [n] => name ← space_trim n; Some (name, [])
  | [n; v] => name ← space_trim n; value ← space_trim v; Some (name, value)
  | n :: _ =>
      name ← space_trim n;
      if accept then
        pos ← find_char minor line;
        value ← space_trim (drop (pos + 1) line);
        Some (name, value)
      else None
  end.

Fixpoint split_map_loop (minor : ascii) (accept : bool) (lines : list str) (m : stdmap str)
    : Z * stdmap str :=
  match lines with
  | [] => (0, m)
  | line :: lines' =>
      match split_line minor accept line with
      | None => (-1, m)
      | Some (name, value) => split_map_loop minor accept lines' (map_insert name value m)
      end
  end.

Definition split_map (s : str) (major minor : ascii) (result : stdmap str)
    (accept truncate : bool) : Z * stdmap str :=
  split_map_loop minor accept (split_vec s major) (if truncate then [] else result).

(** ** replace, case, numbers *)

Definition replace (src : str) (s d : ascii) : Z * str :=
  (Z.of_nat (length (List.filter (Ascii.eqb s) src)),
   map (fun c => if Ascii.eqb c s then d else c) src).

Definition to_lower (src : str) : str := map (fun c => chr (tolower (schar c))) src.
Definition to_upper (src : str) : str := map (fun c => chr (toupper (schar c))) src.

Definition s_trues : list str :=
  [$"yes"; $"y"; $"sure"; $"true"; $"t"; $"ok"; $"1"].

(** [None]: [space_trim] threw, which [to_bool_total] excludes. *)
Definition to_bool (sval : str) : option Z :=
  ss ← space_trim (cstr sval);
  let lval := to_lower ss in
  if existsb (fun t => bool_decide (t = cstr lval)) s_trues then Some 1
  else Some (if atoi lval =? 0 then 0 else 1).

Definition int64_to_str (z : Z) : str := dec_string z.

(** ** Hexadecimal *)

Definition hex_table : str := $"0123456789ABCDEF".
Definition to_hex_char (c : Z) : str :=
  [char_at hex_table (Z.shiftr c 4); char_at hex_table (Z.land c 15)].
Definition to_hex (src : str) : str := concat (map (fun c => to_hex_char (uchar c)) src).

Definition is_hex_char (c : Z) : bool :=
  if (48 <=? c) && (c <=? 57) then true
  else if (97 <=? c) && (c <=? 102) then true
  else if (65 <=? c) && (c <=? 70) then true else false.

Definition to_bin (c : Z) : Z :=
  if (48 <=? c) && (c <=? 57) then c - 48
  else if (97 <=? c) && (c <=? 102) then c - 97 + 10
  else if (65 <=? c) && (c <=? 70) then c - 65 + 10 else 255.

(** [sha256_hex(src, sk)] over OpenSSL's [HMAC(sk, src)]. *)
Definition sha256_hex (HMAC : str -> str -> option str) (src sk : str) : str :=
  match HMAC sk src with
  | None => []
  | Some md => to_lower (to_hex md)
  end.

Definition iconv (src from_encode to_encode : str) : Z * str := (0, src).

(** ** split and join *)

(** The reference: pieces separated by single delimiters. *)
Fixpoint join (d : ascii) (ps : list str) : str :=
  match ps with
  | [] => []
  | [p] => p
  | p :: ps' => p ++ d :: join d ps'
  end.

Lemma join_cons d p ps : ps <> [] -> join d (p :: ps) = p ++ d :: join d ps.
Proof. by destruct ps. Qed.

Lemma split_loop_acc fuel d s acc : split_loop fuel d s acc = acc ++ split_loop fuel d s [].
Proof.
  revert s acc. induction fuel as [|f IH]; intros s acc; simpl; [by rewrite app_nil_r|].
  destruct (find_char d s); [|done]. rewrite IH, (IH _ [_]). by rewrite app_assoc.
Qed.

Lemma split_loop_fuel f1 f2 d s :
  (length s < f1)%nat -> (length s < f2)%nat -> split_loop f1 d s [] = split_loop f2 d s [].
Proof.
  revert f2 s. induction f1 as [|f1 IH]; intros [|f2] s H1 H2; try lia. simpl.
  destruct (find_char d s) as [n|] eqn:E; [|done].
  apply find_char_Some in E as (_ & _ & Hn).
  rewrite split_loop_acc, (split_loop_acc f2). f_equal.
  apply IH; rewrite length_drop; lia.
Qed.

Lemma split_vec_None s d : d ∉ s -> split_vec s d = [s].
Proof. intros H. unfold split_vec. simpl. by rewrite (proj2 (find_char_None d s) H). Qed.

Lemma find_char_app d p s : d ∉ p -> find_char d (p ++ d :: s) = Some (length p).
Proof.
  induction p as [|c p IH]; simpl; intros H.
  - by rewrite Ascii.eqb_refl.
  - apply not_elem_of_cons in H as [H1 H2]. destruct (Ascii.eqb_spec c d); [by subst|].
    by rewrite IH.
Qed.

Lemma split_vec_cons p d s : d ∉ p -> split_vec (p ++ d :: s) d = p :: split_vec s d.
Proof.
  intros H. unfold split_vec at 1. cbn [split_loop]. rewrite find_char_app by done.
  rewrite split_loop_acc. simpl. rewrite take_app_length.
  replace (drop (length p + 1) (p ++ d :: s)) with s.
  2:{ rewrite drop_app_ge by lia. by replace (length p + 1 - length p)%nat with 1%nat by lia. }
  f_equal. apply split_loop_fuel; rewrite ?length_app; simpl; lia.
Qed.

Lemma split_vec_join ps d :
  ps <> [] -> Forall (fun p => d ∉ p) ps -> split_vec (join d ps) d = ps.
Proof.
  intros Hne H. induction H as [|p ps Hp Hps IH]; [done|].
  destruct ps as [|q ps]; simpl; [by apply split_vec_None|].
  rewrite split_vec_cons by done. f_equal. by apply IH.
Qed.

Lemma join_exists (d : ascii) (s : str) :
  exists ps, ps <> [] /\ Forall (fun p => d ∉ p) ps /\ join d ps = s.
Proof.
  induction s as [|c s (ps & Hne & Hf & <-)]; [by exists [[]]; repeat constructor; set_solver|].
  destruct (Ascii.eqb_spec c d) as [->|Hc].
  - exists ([] :: ps). repeat split; [done|constructor; [set_solver|done]|].
    by rewrite join_cons.
  - destruct ps as [|p ps]; [done|]. exists ((c :: p) :: ps).
    apply Forall_cons in Hf as [Hp Hf]. repeat split; [done|constructor; [set_solver|done]|].
    by destruct ps.
Qed.

(** [split] into a vector is the inverse of joining: the pieces it returns
    are the only non-empty sequence of delimiter-free strings whose join is the
    input.  In particular empty pieces are kept and nothing is lost. *)
Theorem split_vec_spec s d ps :
  split_vec s d = ps <-> ps <> [] /\ Forall (fun p => d ∉ p) ps /\ join d ps = s.
Proof.
  split.
  - intros <-. destruct (join_exists d s) as (ps & Hne & Hf & <-).
    by rewrite split_vec_join.
  - intros (Hne & Hf & <-). by apply split_vec_join.
Qed.

Lemma split_vec_join_id s d : join d (split_vec s d) = s.
Proof. destruct (join_exists d s) as (ps & Hne & Hf & <-). by rewrite split_vec_join. Qed.

Lemma split_vec_ne s d : split_vec s d <> [].
Proof. destruct (join_exists d s) as (ps & Hne & Hf & <-). by rewrite split_vec_join. Qed.

Lemma split_vec_free s d : Forall (fun p => d ∉ p) (split_vec s d).
Proof. destruct (join_exists d s) as (ps & Hne & Hf & <-). by rewrite split_vec_join. Qed.

(** [getline] drops the last piece exactly when it is empty. *)
Lemma getlines_split fuel d s :
  (length s < fuel)%nat ->
  split_vec s d = getlines fuel d s \/ split_vec s d = getlines fuel d s ++ [[]].
Proof.
  revert s. induction fuel as [|f IH]; intros s Hf; [lia|].
  destruct s as [|c s]; [by right|].
  cbn [getlines getline]. destruct (find_char d (c :: s)) as [n|] eqn:E.
  - pose proof (find_char_Some _ _ _ E) as (Hs & Hn & Hl).
    replace (drop (n + 1) (c :: s)) with (drop (S n) (c :: s)) by (f_equal; lia).
    assert (Hsp : split_vec (c :: s) d = take n (c :: s) :: split_vec (drop (S n) (c :: s)) d)
      by (rewrite Hs at 1; by apply split_vec_cons).
    rewrite Hsp. destruct (IH (drop (S n) (c :: s))) as [->| ->];
      [rewrite length_drop; lia|by left|by right].
  - left. rewrite split_vec_None by (by apply find_char_None).
    by destruct f.
Qed.

(** ** Trimming: both routines are [boost::trim_copy] *)

Lemma trim_blank_is_space c : trim_blank c = is_space c.
Proof. by_ascii c (fun c => eqb (trim_blank c) (is_space c)). by apply eqb_prop. Qed.

(** A string that is not blank is lead, core and trail; the core starts and
    ends with a character that is not a space. *)
Lemma trim_decompose s :
  Forall (fun c => is_space c = true) s \/
  exists a m b, s = a ++ m ++ b /\ Forall (fun c => is_space c = true) a
    /\ Forall (fun c => is_space c = true) b /\ trim_copy s = m
    /\ take_while is_space s = a /\ take_while is_space (reverse s) = reverse b
    /\ (1 <= length m)%nat
    /\ (exists m' x, m = m' ++ [x] /\ is_space x = false)
    /\ (exists x m', m = x :: m' /\ is_space x = false).
Proof.
  destruct (drop_while is_space s) as [|x r] eqn:E; [left; by apply drop_while_nil_inv|right].
  pose proof (drop_while_head _ _ _ _ E) as Hx.
  destruct (drop_while_end_split is_space (x :: r)) as (t & Ht & Hft).
  assert (Hne : drop_while_end is_space (x :: r) <> []).
  { intros C%drop_while_end_nil_inv. apply Forall_cons in C as [C _]. congruence. }
  destruct (exists_last Hne) as (m' & y & Hm). pose proof (drop_while_end_last _ _ _ _ Hm) as Hy.
  exists (take_while is_space s), (m' ++ [y]), t.
  assert (Hs : s = take_while is_space s ++ (m' ++ [y]) ++ t).
  { rewrite <- Hm, <- Ht, <- E. by rewrite take_drop_while. }
  assert (Hhd : exists m2, m' ++ [y] = x :: m2).
  { clear -Ht Hm. rewrite Hm in Ht. destruct m' as [|z m']; simpl in *; simplify_eq; eauto. }
  split; [done|]. split; [apply take_while_Forall|]. split; [done|].
  split; [unfold trim_copy; by rewrite E|]. split; [done|].
  split. { rewrite Hs at 1. rewrite !reverse_app. simpl.
    rewrite <- app_assoc. apply take_while_app_stop; [by apply Forall_reverse|done]. }
  split; [rewrite length_app; simpl; lia|]. split; [by exists m', y|].
  destruct Hhd as [m2 Hm2]. by exists x, m2.
Qed.

Lemma substr_int_mid a m b :
  (Z.of_nat (length (a ++ m ++ b)) < 2 ^ 63) ->
  substr_int (a ++ m ++ b) (Z.of_nat (length a)) (Z.of_nat (length m)) = Some m.
Proof.
  intros H. unfold substr_int. rewrite !length_app in *.
  destruct (Z.leb_spec 0 (Z.of_nat (length a))); [|lia].
  destruct (Z.leb_spec (Z.of_nat (length a)) (Z.of_nat (length a + (length m + length b)))); [|lia].
  cbn [andb]. f_equal. unfold wrap_u64. rewrite Z.mod_small by lia.
  rewrite Nat2Z.id, drop_app_length. replace (Z.to_nat _) with (length m) by lia.
  apply take_app_length.
Qed.

(** [int] counts the characters: the source's lengths are below 2^31. *)
Definition fits_int (s : str) : Prop := Z.of_nat (length s) < 2 ^ 31.
#[export] Instance fits_int_dec s : Decision (fits_int s) := Z_lt_dec _ _.

Lemma space_trim_copy s : fits_int s -> space_trim s = Some (trim_copy s).
Proof.
  unfold fits_int. intros Hl. unfold space_trim.
  destruct (trim_decompose s) as [Hb|(a & m & b & Hs & Ha & Hb & Ht & Hta & Htb & Hm & _)].
  - rewrite trim_copy_blank by done. rewrite !take_while_all by (done || by apply Forall_reverse).
    rewrite length_reverse. unfold substr_int.
    destruct (Z.leb_spec 0 (Z.of_nat (length s))); [|lia]. rewrite Z.leb_refl.
    cbn [andb]. rewrite Nat2Z.id, drop_all. by rewrite take_nil.
  - rewrite Hta, Htb, Ht, length_reverse.
    replace (Z.of_nat (length s) - _ - _) with (Z.of_nat (length m)).
    + rewrite Hs at 1. apply substr_int_mid. rewrite <- Hs. lia.
    + rewrite Hs at 1. rewrite !length_app. lia.
Qed.

Lemma char_at_app s1 x s2 : char_at (s1 ++ x :: s2) (Z.of_nat (length s1)) = x.
Proof. unfold char_at. rewrite Nat2Z.id. by rewrite nth_middle. Qed.

Lemma trim_end_skip fuel start m b r :
  Forall (fun c => trim_blank c = true) b ->
  (length b <= fuel)%nat -> start <= Z.of_nat (length m) ->
  trim_end fuel (m ++ b ++ r) start (Z.of_nat (length (m ++ b)) - 1) =
  trim_end (fuel - length b) (m ++ b ++ r) start (Z.of_nat (length m) - 1).
Proof.
  revert fuel r. induction b as [|x b IH] using rev_ind; intros fuel r Hb Hf Hst.
  - rewrite app_nil_r. simpl. by rewrite Nat.sub_0_r.
  - apply Forall_app in Hb as [Hb Hx]. apply Forall_cons in Hx as [Hx _].
    rewrite length_app in Hf. simpl in Hf. destruct fuel as [|f]; [lia|]. cbn [trim_end].
    rewrite app_assoc, length_app. simpl. rewrite length_app.
    destruct (Z.leb_spec start (Z.of_nat (length m + length b + 1) - 1)); [|lia].
    replace (m ++ (b ++ [x]) ++ r) with ((m ++ b) ++ x :: r) by (by rewrite <- !app_assoc).
    replace (Z.of_nat (length m + length b + 1) - 1) with (Z.of_nat (length (m ++ b)))
      by (rewrite length_app; lia).
    rewrite char_at_app, Hx. rewrite <- app_assoc, IH by (done || lia).
    f_equal. rewrite length_app. simpl. lia.
Qed.

Lemma trim_end_stop fuel s start m x r :
  s = m ++ x :: r -> trim_blank x = false ->
  trim_end fuel s start (Z.of_nat (length m)) = Z.of_nat (length m).
Proof.
  intros -> Hx. destruct fuel as [|f]; [done|]. cbn [trim_end].
  rewrite char_at_app, Hx. by destruct (_ <=? _).
Qed.

Lemma trim_is_trim_copy s : trim s = trim_copy s.
Proof.
  assert (Htw : forall l, take_while trim_blank l = take_while is_space l).
  { induction l as [|c l IH]; simpl; [done|]. by rewrite trim_blank_is_space, IH. }
  unfold trim. rewrite Htw.
  destruct (trim_decompose s) as [Hb|(a & m & b & Hs & Ha & Hb & Ht & Hta & _ & Hm & (m' & y & Hy & Hsy) & _)].
  - rewrite trim_copy_blank, take_while_all by done.
    assert (trim_end (length s) s (Z.of_nat (length s)) (Z.of_nat (length s) - 1)
            = Z.of_nat (length s) - 1) as ->.
    { destruct (length s); [done|]. cbn [trim_end]. destruct (Z.leb_spec (Z.of_nat (S n)) (Z.of_nat (S n) - 1)); [lia|done]. }
    destruct (Z.ltb_spec (Z.of_nat (length s) - 1) (Z.of_nat (length s))); [done|lia].
  - rewrite Hta, Ht.
    assert (trim_end (length s) s (Z.of_nat (length a)) (Z.of_nat (length s) - 1)
            = Z.of_nat (length (a ++ m')) ) as ->.
    { replace s with ((a ++ m) ++ b ++ []) at 2 by (by rewrite app_nil_r, <- app_assoc).
      replace (length s) with (length ((a ++ m) ++ b)) at 2 by (by rewrite <- app_assoc, <- Hs).
      rewrite trim_end_skip.
      - replace (Z.of_nat (length (a ++ m)) - 1) with (Z.of_nat (length (a ++ m')))
          by (rewrite Hy, !length_app; simpl; lia).
        eapply trim_end_stop; [|by rewrite trim_blank_is_space].
        rewrite Hy. by rewrite <- !app_assoc.
      - eapply Forall_impl; [exact Hb|]. intros c Hc. cbv beta in *. by rewrite trim_blank_is_space.
      - rewrite Hs, !length_app. lia.
      - rewrite length_app. lia. }
    rewrite length_app. destruct (Z.ltb_spec (Z.of_nat (length a + length m')) (Z.of_nat (length a))); [lia|].
    rewrite Nat2Z.id. rewrite Hs at 1. rewrite drop_app_length.
    replace (Z.to_nat _) with (length m) by (rewrite Hy, length_app; simpl; lia).
    apply take_app_length.
Qed.

(** [trim] and [space_trim], two different loops (one with a [substr] whose
    length goes negative on a blank string), compute the same string: the input
    without its leading and trailing white space, the empty string if it is
    blank; and [space_trim] never throws. *)
Theorem trims_agree s :
  fits_int s ->
  space_trim s = Some (trim s)
  /\ exists a b, s = a ++ trim s ++ b
     /\ Forall (fun c => is_space c = true) (a ++ b)
     /\ (forall c, head (trim s) = Some c -> is_space c = false)
     /\ (forall c, last (trim s) = Some c -> is_space c = false).
Proof.
  intros H. rewrite trim_is_trim_copy, space_trim_copy by done. split; [done|].
  destruct (trim_decompose s)
    as [Hb|(a & m & b & Hs & Ha & Hb & Ht & _ & _ & _ & (m' & y & Hy & Hsy) & (x & m2 & Hx & Hsx))].
  - rewrite trim_copy_blank by done. exists s, []. rewrite !app_nil_r. done.
  - exists a, b. rewrite Ht. split; [done|]. split; [by apply Forall_app|]. split.
    + rewrite Hx. intros c [= <-]. done.
    + rewrite Hy, last_snoc. intros c [= <-]. done.
Qed.

Lemma trims_agree_witness :
  fits_int $" a b " /\ space_trim $" a b " = Some (trim $" a b ").
Proof. split; [reflexivity|]. apply (trims_agree $" a b "). reflexivity. Defined.

Lemma space_trim_trim s : fits_int s -> space_trim s = Some (trim s).
Proof. intros. by rewrite space_trim_copy, trim_is_trim_copy. Qed.

(** The [substr] of [space_trim] is in range, so the callers never see it throw. *)
Lemma space_trim_total s : fits_int s -> is_Some (space_trim s).
Proof. intros. rewrite space_trim_trim by done. by eexists. Qed.

Lemma cstr_length s : (length (cstr s) <= length s)%nat.
Proof. unfold cstr. rewrite <- (take_drop_while (fun c => negb (Ascii.eqb c "000"%char)) s) at 2. rewrite length_app. lia. Qed.

Lemma to_bool_total s : fits_int s -> is_Some (to_bool s).
Proof.
  intros H. unfold to_bool. rewrite space_trim_trim; simpl.
  - case_match; by eexists.
  - unfold fits_int in *. pose proof (cstr_length s). lia.
Qed.

(** ** Maps printed as [k<minor>v<major>k<minor>v...] are read back *)

Section RoundTrip.
Variables major minor : ascii.

Definition print_binding (kv : str * str) : str := kv.1 ++ minor :: kv.2.
Definition print_map (kvs : list (str * str)) : str := join major (map print_binding kvs).

(** A binding whose text is unambiguous. *)
Definition plain_binding (kv : str * str) : Prop :=
  major ∉ kv.1 /\ minor ∉ kv.1 /\ major ∉ kv.2 /\ trim kv.1 = kv.1 /\ trim kv.2 = kv.2
  /\ fits_int kv.1 /\ fits_int kv.2.
#[export] Instance plain_binding_dec kv : Decision (plain_binding kv).
Proof. unfold plain_binding. apply _. Defined.

Lemma split_line_print kv : plain_binding kv -> split_line minor true (print_binding kv) = Some kv.
Proof.
  destruct kv as [k v]. unfold plain_binding, print_binding. simpl.
  intros (_ & Hk & _ & Tk & Tv & Fk & Fv). unfold split_line. rewrite split_vec_cons by done.
  pose proof (split_vec_ne v minor) as Hne. destruct (split_vec v minor) as [|p [|q ps]] eqn:E; [done| |].
  - assert (p = v) as -> by (rewrite <- (split_vec_join_id v minor), E; done).
    rewrite (space_trim_trim k), Tk by done. simpl. by rewrite (space_trim_trim v), Tv.
  - rewrite (space_trim_trim k), Tk by done. simpl. rewrite find_char_app by done. simpl.
    rewrite drop_app_ge by lia. replace (length k + 1 - length k)%nat with 1%nat by lia.
    rewrite skipn_cons, drop_0. by rewrite (space_trim_trim v), Tv.
Qed.

Lemma split_map_loop_print kvs m :
  Forall plain_binding kvs ->
  split_map_loop minor true (map print_binding kvs) m =
  (0, fold_left (fun m kv => map_insert kv.1 kv.2 m) kvs m).
Proof.
  intros H. revert m. induction H as [|[k v] kvs Hkv Hkvs IH]; intros m; [done|].
  simpl map. cbn [split_map_loop]. rewrite split_line_print by done. simpl. apply IH.
Qed.

(** Reading back a printed map gives the map: for unambiguous bindings (no
    delimiter in the key, no major delimiter in the value, both trimmed)
    [split] returns 0 and inserts every binding in order, the first of equal
    keys winning, even when values contain the minor delimiter. *)
Theorem split_map_roundtrip kvs old :
  major <> minor -> kvs <> [] -> Forall plain_binding kvs ->
  split_map (print_map kvs) major minor old true true =
  (0, fold_left (fun m kv => map_insert kv.1 kv.2 m) kvs []).
Proof.
  intros Hmm Hne H. unfold split_map, print_map. rewrite split_vec_join.
  - by apply split_map_loop_print.
  - by destruct kvs.
  - apply Forall_map. eapply Forall_impl; [exact H|]. intros [k v] (? & _ & ? & _). simpl in *.
    unfold print_binding. set_solver.
Qed.
End RoundTrip.

Lemma split_map_roundtrip_witness :
  split_map $"a=1;b=x=y;a=2" ";"%char "="%char [] true true
  = (0, [($"a", $"1"); ($"b", $"x=y")]).
Proof.
  apply (split_map_roundtrip ";"%char "="%char [($"a", $"1"); ($"b", $"x=y"); ($"a", $"2")] []); [done|done|].
  apply (bool_decide_unpack _). vm_compute. exact I.
Defined.

(** The lower-case digest of [sha256_hex] has two hexadecimal digits per byte. *)
Lemma to_hex_length s : length (to_hex s) = (2 * length s)%nat.
Proof. unfold to_hex. induction s as [|c s IH]; simpl; [done|]. rewrite IH. lia. Qed.

Lemma to_hex_digits s : Forall (fun c => is_hex_char (uchar c) = true) (to_hex s).
Proof.
  unfold to_hex. induction s as [|c s IH]; [done|]. cbn [map concat]. apply Forall_app. split; [|done].
  by_ascii c (fun c => forallb (fun d => is_hex_char (uchar d)) (to_hex_char (uchar c))).
  apply List.Forall_forall. by apply forallb_forall.
Qed.

(** ** Strings that trimming leaves alone *)

Lemma trim_id_iff s :
  trim s = s <->
  (forall c, head s = Some c -> is_space c = false) /\ (forall c, last s = Some c -> is_space c = false).
Proof.
  rewrite trim_is_trim_copy. split.
  - intros H. destruct (trim_decompose s)
      as [Hb|(a & m & b & _ & _ & _ & Ht & _ & _ & _ & (m' & y & Hy & Hsy) & (x & m2 & Hx & Hsx))].
    + rewrite trim_copy_blank in H by done. by subst.
    + rewrite <- H, Ht. split; [rewrite Hx|rewrite Hy, last_snoc]; intros c [= <-]; done.
  - intros [H1 H2]. apply trim_copy_id.
    + intros c r ->. by apply H1.
    + intros c r ->. apply H2. by rewrite last_snoc.
Qed.

Lemma trim_nil : trim [] = [].
Proof. reflexivity. Qed.

Lemma head_app_ne {A} (a b : list A) : a <> [] -> head (a ++ b) = head a.
Proof. by destruct a. Qed.

Lemma last_app_ne {A} (a b : list A) : b <> [] -> last (a ++ b) = last b.
Proof. intros H. destruct (exists_last H) as (l & x & ->). by rewrite app_assoc, !last_snoc. Qed.

Lemma trim_app_id a b :
  a <> [] -> (forall c, head a = Some c -> is_space c = false) -> b <> [] -> trim b = b ->
  trim (a ++ b) = a ++ b.
Proof.
  intros Ha Hh Hb Ht. apply trim_id_iff. apply trim_id_iff in Ht as [_ Ht].
  by rewrite head_app_ne, last_app_ne.
Qed.

Lemma digits_trim s : Forall (fun c => is_digit c = true) s -> trim s = s.
Proof.
  intros H. apply trim_id_iff. rewrite list.Forall_forall in H. split; intros c Hc; apply digit_not_space, H.
  - destruct s; [done|]. simpl in Hc. simplify_eq. set_solver.
  - by apply last_Some_elem_of.
Qed.
