(* ===== verification/UriCodec.v ===== *)
(** * utils/src/utils.cpp: [uri_encode] and [uri_decode]

    Percent encoding.  The decoder is the source's four-state machine; its
    accumulator [o] is declared inside the loop body, so every character starts
    with [o = 0]. *)

From S2P Require Import Prelude CLib StdMap StringUtil.

Open Scope Z_scope.

(** ** uri_encode *)

Definition uri_plain (c : Z) : bool :=
  isalnum c || (c =? 95) || (c =? 45) || (c =? 126) || (c =? 46).

Definition encode_char (encode_slash : bool) (c : ascii) : str :=
  let u := uchar c in
  if uri_plain u then [c]
  else if u =? 47 then (if encode_slash then "%"%char :: to_hex_char u else [c])
  else "%"%char :: to_hex_char u.

Definition uri_encode (input : str) (encode_slash : bool) : str :=
  concat (map (encode_char encode_slash) input).

(** ** uri_decode *)

Inductive decode_state := NORMALSTATE | PERCENTAPPEARSTATE | PERCENTANDHEXCHARAPPEARSTATE | ERRORSTATE.
#[export] Instance decode_state_eq_dec : EqDecision decode_state.
Proof. solve_decision. Defined.

(** One iteration: the state and the output stream after the character [c]. *)
Definition decode_step (state : decode_state) (ss : str) (c : Z) : decode_state * str :=
  let o := 0 in
  match state with
  | NORMALSTATE =>
      if c =? 37 then (PERCENTAPPEARSTATE, ss)
      else if isalnum c || (c =? 46) || (c =? 126) || (c =? 45) || (c =? 95) || (c =? 47)
           then (NORMALSTATE, ss ++ [chr c])
           else (ERRORSTATE, ss)
  | PERCENTAPPEARSTATE =>
      if is_hex_char c then
        let o := wrap_u8 (Z.shiftl (to_bin c) 4) in (PERCENTANDHEXCHARAPPEARSTATE, ss)
      else (ERRORSTATE, ss)
  | PERCENTANDHEXCHARAPPEARSTATE =>
      if is_hex_char c then
        let o := wrap_u8 (o + to_bin c) in (NORMALSTATE, ss ++ [chr o])
      else (ERRORSTATE, ss)
  | ERRORSTATE => (ERRORSTATE, ss)
  end.

Fixpoint decode_loop (state : decode_state) (ss : str) (input : str) : decode_state * str :=
  match input with
  | [] => (state, ss)
  | c :: input' =>
      if bool_decide (state = ERRORSTATE) then (state, ss)
      else let '(state', ss') := decode_step state ss (uchar c) in decode_loop state' ss' input'
  end.

(** The return code and the string [*out] holds afterwards. *)
Definition uri_decode (input out : str) : Z * str :=
  let '(state, ss) := decode_loop NORMALSTATE [] input in
  if bool_decide (state = NORMALSTATE) then (0, ss) else (-1, out).

(** ** The alphabet of encoded text *)

Definition uri_char (c : ascii) : bool :=
  uri_plain (uchar c) || (uchar c =? 47) || (uchar c =? 37).

Lemma encode_char_alphabet sl c : forallb uri_char (encode_char sl c) = true.
Proof.
  destruct sl.
  - by_ascii c (fun c => forallb uri_char (encode_char true c)). done.
  - by_ascii c (fun c => forallb uri_char (encode_char false c)). done.
Qed.

Lemma uri_encode_alphabet s sl : forallb uri_char (uri_encode s sl) = true.
Proof.
  unfold uri_encode. induction s as [|c s IH]; [done|]. cbn [map concat].
  rewrite forallb_app, IH, encode_char_alphabet. done.
Qed.

(** ** What decoding an encoded string returns *)

(** The byte that comes back for [c]: an escaped byte loses its high nibble. *)
Definition decoded_byte (sl : bool) (c : ascii) : ascii :=
  let u := uchar c in
  if uri_plain u || (negb sl && (u =? 47)) then c else chr (Z.land u 15).

Lemma decode_loop_error ss input : decode_loop ERRORSTATE ss input = (ERRORSTATE, ss).
Proof. by destruct input. Qed.

Lemma decode_loop_app st ss a b :
  decode_loop st ss (a ++ b) = let '(st', ss') := decode_loop st ss a in decode_loop st' ss' b.
Proof.
  revert st ss. induction a as [|c a IH]; intros st ss; [done|]. cbn [app decode_loop].
  case_bool_decide; [subst; by rewrite decode_loop_error|].
  destruct (decode_step st ss (uchar c)) as [st' ss']. apply IH.
Qed.

(** The stream only grows: decoding after [ss] appends to it. *)
Lemma decode_step_stream st ss c :
  decode_step st ss c = let '(st', o) := decode_step st [] c in (st', ss ++ o).
Proof. unfold decode_step. repeat case_match; simplify_eq; by rewrite ?app_nil_r. Qed.

Lemma decode_loop_stream st ss input :
  decode_loop st ss input = let '(st', o) := decode_loop st [] input in (st', ss ++ o).
Proof.
  revert st ss. induction input as [|c input IH]; intros st ss; simpl; [by rewrite app_nil_r|].
  case_bool_decide; [by rewrite app_nil_r|]. rewrite decode_step_stream.
  destruct (decode_step st [] (uchar c)) as [st' o]. rewrite IH, (IH _ o).
  destruct (decode_loop st' [] input). by rewrite app_assoc.
Qed.

Lemma decode_encode_char sl c :
  decode_loop NORMALSTATE [] (encode_char sl c) = (NORMALSTATE, [decoded_byte sl c]).
Proof.
  destruct sl; apply (bool_decide_eq_true_1 _).
  - by_ascii c (fun c => bool_decide
      (decode_loop NORMALSTATE [] (encode_char true c) = (NORMALSTATE, [decoded_byte true c]))). done.
  - by_ascii c (fun c => bool_decide
      (decode_loop NORMALSTATE [] (encode_char false c) = (NORMALSTATE, [decoded_byte false c]))). done.
Qed.

Lemma decode_loop_encode s sl :
  decode_loop NORMALSTATE [] (uri_encode s sl) = (NORMALSTATE, map (decoded_byte sl) s).
Proof.
  unfold uri_encode. induction s as [|c s IH]; [done|]. cbn [map concat].
  rewrite decode_loop_app, decode_encode_char, decode_loop_stream, IH. done.
Qed.

(** [uri_decode] accepts everything [uri_encode] produces, but gives every
    escaped byte back reduced to its low nibble: the round trip is the
    byte-wise map [decoded_byte], because the decoder's accumulator is reset
    between the two hexadecimal digits. *)
Theorem uri_decode_encode s sl out :
  uri_decode (uri_encode s sl) out = (0, map (decoded_byte sl) s).
Proof. unfold uri_decode. by rewrite decode_loop_encode. Qed.

Lemma map_fixpoints (f : ascii -> ascii) (s : str) :
  Forall (fun c => f c = c) s <-> (0, map f s) = (0, s).
Proof.
  split.
  - intros H. f_equal. induction H as [|c s Hc _ IH]; simpl; congruence.
  - intros H. injection H as H. induction s as [|c s IH]; [done|]. simpl in H.
    injection H as H1 H2. constructor; auto.
Qed.

Lemma decoded_byte_id sl c :
  decoded_byte sl c = c <->
  uri_plain (uchar c) = true \/ (sl = false /\ c = "/"%char) \/ uchar c < 16.
Proof.
  assert (H : bool_decide (decoded_byte sl c = c) =
    (uri_plain (uchar c) || (negb sl && Ascii.eqb c "/"%char) || (uchar c <? 16))).
  { destruct sl; apply eqb_prop.
    - by_ascii c (fun c => eqb (bool_decide (decoded_byte true c = c))
        (uri_plain (uchar c) || (negb true && Ascii.eqb c "/"%char) || (uchar c <? 16))). done.
    - by_ascii c (fun c => eqb (bool_decide (decoded_byte false c = c))
        (uri_plain (uchar c) || (negb false && Ascii.eqb c "/"%char) || (uchar c <? 16))). done. }
  rewrite <- (bool_decide_eq_true (decoded_byte sl c = c)), H.
  rewrite !orb_true_iff, andb_true_iff, negb_true_iff, Ascii.eqb_eq, Z.ltb_lt. tauto.
Qed.

(** C38: a string survives encoding and decoding exactly when each of its bytes
    is a letter, digit, one of [_-~.], an unescaped slash, or a control byte
    below 16; every other byte comes back changed. *)
Theorem uri_roundtrip_iff s sl out :
  uri_decode (uri_encode s sl) out = (0, s) <->
  Forall (fun c => uri_plain (uchar c) = true \/ (sl = false /\ c = "/"%char) \/ uchar c < 16) s.
Proof.
  unfold uri_decode. rewrite decode_loop_encode. simpl. rewrite <- map_fixpoints. split.
  - intros H. eapply Forall_impl; [exact H|]. intros c. apply decoded_byte_id.
  - intros H. eapply Forall_impl; [exact H|]. intros c. apply decoded_byte_id.
Qed.

(** An input that is not percent-encoded text is refused and leaves the output
    alone. *)
Example uri_decode_rejects : uri_decode $"a b" $"old" = (-1, $"old") /\ uri_decode $"%4" $"old" = (-1, $"old").
Proof. by vm_compute. Qed.

Example uri_roundtrip_space : uri_decode (uri_encode $"a b" true) [] = (0, [ "a"%char; "000"%char; "b"%char ]).
Proof. by vm_compute. Qed.
