(* ===== verification/Base64.v ===== *)
(** * utils/src/base64.cpp

    [base64_encode] and [base64_decode], loop by loop: the three-byte and
    four-byte buffers are arrays filled at index [i], the tail is padded with
    zero bytes.  [find] of a padding byte in the alphabet gives [npos], that is
    255 in an [unsigned char]; the tail emits only bytes that do not use it. *)

From S2P Require Import Prelude CLib StdMap StringUtil.

Open Scope Z_scope.

Definition base64_chars : str :=
  $"ABCDEFGHIJKLMNOPQRSTUVWXYZabcdefghijklmnopqrstuvwxyz0123456789+/".

(** [base64_chars.find(c)] stored in an [unsigned char]. *)
Definition find_b64 (c : Z) : Z :=
  match find_char (chr c) base64_chars with
  | Some n => wrap_u8 (Z.of_nat n)
  | None => wrap_u8 (2 ^ 64 - 1)
  end.

Definition is_base64 (c : Z) : bool := isalnum c || (c =? 43) || (c =? 47).

Definition idx (a : list Z) (i : nat) : Z := nth i a 0.

(** [char_array_4] from [char_array_3], and back. *)
Definition to_quad (a3 : list Z) : list Z :=
  [Z.shiftr (Z.land (idx a3 0) 252) 2;
   wrap_u8 (Z.shiftl (Z.land (idx a3 0) 3) 4 + Z.shiftr (Z.land (idx a3 1) 240) 4);
   wrap_u8 (Z.shiftl (Z.land (idx a3 1) 15) 2 + Z.shiftr (Z.land (idx a3 2) 192) 6);
   Z.land (idx a3 2) 63].

Definition from_quad (a4 : list Z) : list Z :=
  [wrap_u8 (Z.shiftl (idx a4 0) 2 + Z.shiftr (Z.land (idx a4 1) 48) 4);
   wrap_u8 (Z.shiftl (Z.land (idx a4 1) 15) 4 + Z.shiftr (Z.land (idx a4 2) 60) 2);
   wrap_u8 (Z.shiftl (Z.land (idx a4 2) 3) 6 + idx a4 3)].

Definition b64_char (k : Z) : ascii := char_at base64_chars k.

Fixpoint encode_loop (input : str) (i : nat) (a3 : list Z) (dst : str) : nat * list Z * str :=
  match input with
  | [] => (i, a3, dst)
  | c :: input' =>
      let a3 := <[i := uchar c]> a3 in
      if bool_decide (S i = 3%nat) then encode_loop input' 0 a3 (dst ++ map b64_char (to_quad a3))
      else encode_loop input' (S i) a3 dst
  end.

(** [for (j = i; j < n; j++) a[j] = 0]. *)
Definition zero_from (n i : nat) (a : list Z) : list Z :=
  fold_left (fun a j => <[j := 0]> a) (List.seq i (n - i)) a.

Definition base64_encode (input : str) : str :=
  let '(i, a3, dst) := encode_loop input 0 [0; 0; 0] [] in
  if bool_decide (i = 0%nat) then dst
  else let a4 := to_quad (zero_from 3 i a3) in
       dst ++ map b64_char (take (i + 1) a4) ++ repeat "="%char (3 - i).

Fixpoint decode4_loop (s : str) (i : nat) (a4 : list Z) (ret : str) : nat * list Z * str :=
  match s with
  | [] => (i, a4, ret)
  | c :: s' =>
      if negb (Ascii.eqb c "="%char) && is_base64 (uchar c) then
        let a4 := <[i := uchar c]> a4 in
        if bool_decide (S i = 4%nat) then
          let a4 := map find_b64 a4 in
          decode4_loop s' 0 a4 (ret ++ map chr (from_quad a4))
        else decode4_loop s' (S i) a4 ret
      else (i, a4, ret)
  end.

Definition base64_decode (s : str) : str :=
  let '(i, a4, ret) := decode4_loop s 0 [0; 0; 0; 0] [] in
  if bool_decide (i = 0%nat) then ret
  else let a3 := from_quad (map find_b64 (zero_from 4 i a4)) in
       ret ++ map chr (take (i - 1) a3).

(** ** Bit facts, decided over bytes and pairs of bytes *)

Definition forall2_ascii (P : ascii -> ascii -> bool) : bool := forall_ascii (fun a => forall_ascii (P a)).
Lemma forall2_ascii_spec P : forall2_ascii P = true -> forall a b, P a b = true.
Proof. intros H a b. pose proof (forall_ascii_spec _ H a) as H'. by apply (forall_ascii_spec (P a)). Qed.

Definition sextet (k : Z) : Prop := find_b64 (uchar (b64_char k)) = k /\ is_base64 (uchar (b64_char k)) = true
  /\ b64_char k <> "="%char.

Lemma sextet_range k : 0 <= k < 64 -> sextet k.
Proof.
  intros H. assert (Hn : exists n, (n < 64)%nat /\ k = Z.of_nat n) by (exists (Z.to_nat k); lia).
  destruct Hn as (n & Hn & ->). unfold sextet.
  assert (Hall : forallb (fun n => (find_b64 (uchar (b64_char (Z.of_nat n))) =? Z.of_nat n)
     && is_base64 (uchar (b64_char (Z.of_nat n))) && negb (Ascii.eqb (b64_char (Z.of_nat n)) "="%char))
     (List.seq 0 64) = true) by (vm_compute; reflexivity).
  rewrite forallb_forall in Hall. specialize (Hall n). rewrite in_seq in Hall.
  specialize (Hall ltac:(lia)). bool_to_prop. done.
Qed.

(** The second and third sextets hold the halves of two neighbouring bytes. *)
Definition mid1 (a b : ascii) : Z := wrap_u8 (Z.shiftl (Z.land (uchar a) 3) 4 + Z.shiftr (Z.land (uchar b) 240) 4).
Definition mid2 (b c : ascii) : Z := wrap_u8 (Z.shiftl (Z.land (uchar b) 15) 2 + Z.shiftr (Z.land (uchar c) 192) 6).

Lemma mid1_spec a b :
  0 <= mid1 a b < 64 /\ Z.shiftr (Z.land (mid1 a b) 48) 4 = Z.land (uchar a) 3
  /\ Z.land (mid1 a b) 15 = Z.shiftr (uchar b) 4.
Proof.
  pose proof (forall2_ascii_spec (fun a b => let m := mid1 a b in (0 <=? m) && (m <? 64)
    && (Z.shiftr (Z.land m 48) 4 =? Z.land (uchar a) 3) && (Z.land m 15 =? Z.shiftr (uchar b) 4))
    ltac:(vm_compute; reflexivity) a b) as H. cbv zeta beta in H. by bool_to_prop.
Qed.

Lemma mid2_spec b c :
  0 <= mid2 b c < 64 /\ Z.shiftr (Z.land (mid2 b c) 60) 2 = Z.land (uchar b) 15
  /\ Z.land (mid2 b c) 3 = Z.shiftr (uchar c) 6.
Proof.
  pose proof (forall2_ascii_spec (fun b c => let m := mid2 b c in (0 <=? m) && (m <? 64)
    && (Z.shiftr (Z.land m 60) 2 =? Z.land (uchar b) 15) && (Z.land m 3 =? Z.shiftr (uchar c) 6))
    ltac:(vm_compute; reflexivity) b c) as H. cbv zeta beta in H. by bool_to_prop.
Qed.

Definition first6 (a : ascii) : Z := Z.shiftr (Z.land (uchar a) 252) 2.
Definition last6 (a : ascii) : Z := Z.land (uchar a) 63.

Lemma byte_spec a :
  0 <= first6 a < 64 /\ 0 <= last6 a < 64
  /\ chr (wrap_u8 (Z.shiftl (first6 a) 2 + Z.land (uchar a) 3)) = a
  /\ chr (wrap_u8 (Z.shiftl (Z.shiftr (uchar a) 4) 4 + Z.land (uchar a) 15)) = a
  /\ chr (wrap_u8 (Z.shiftl (Z.shiftr (uchar a) 6) 6 + last6 a)) = a.
Proof.
  by_ascii a (fun a => (0 <=? first6 a) && (first6 a <? 64) && (0 <=? last6 a) && (last6 a <? 64)
   && Ascii.eqb (chr (wrap_u8 (Z.shiftl (first6 a) 2 + Z.land (uchar a) 3))) a
   && Ascii.eqb (chr (wrap_u8 (Z.shiftl (Z.shiftr (uchar a) 4) 4 + Z.land (uchar a) 15))) a
   && Ascii.eqb (chr (wrap_u8 (Z.shiftl (Z.shiftr (uchar a) 6) 6 + last6 a))) a).
  by bool_to_prop.
Qed.

Lemma to_quad_bytes a b c :
  to_quad [uchar a; uchar b; uchar c] = [first6 a; mid1 a b; mid2 b c; last6 c].
Proof. reflexivity. Qed.

(** ** The encoder as a function of whole groups of three bytes *)

Fixpoint ref_encode (s : str) : str :=
  match s with
  | [] => []
  | [a] => [b64_char (first6 a); b64_char (mid1 a "000"%char); "="%char; "="%char]
  | [a; b] => [b64_char (first6 a); b64_char (mid1 a b); b64_char (mid2 b "000"%char); "="%char]
  | a :: b :: c :: r =>
      [b64_char (first6 a); b64_char (mid1 a b); b64_char (mid2 b c); b64_char (last6 c)] ++ ref_encode r
  end.

(** Induction in steps of three elements. *)
Lemma list_ind3 {A} (P : list A -> Prop) :
  P [] -> (forall a, P [a]) -> (forall a b, P [a; b]) ->
  (forall a b c r, P r -> P (a :: b :: c :: r)) -> forall l, P l.
Proof.
  intros H0 H1 H2 H3 l. remember (length l) as n eqn:E. revert l E.
  induction n as [n IH] using lt_wf_ind. intros [|a [|b [|c r]]] E; auto.
  apply H3. eapply IH; [|reflexivity]. subst. simpl. lia.
Qed.

Definition encode_finish (st : nat * list Z * str) : str :=
  let '(i, a3, dst) := st in
  if bool_decide (i = 0%nat) then dst
  else let a4 := to_quad (zero_from 3 i a3) in
       dst ++ map b64_char (take (i + 1) a4) ++ repeat "="%char (3 - i).

Lemma encode_loop_ref s x y z dst :
  encode_finish (encode_loop s 0 [x; y; z] dst) = dst ++ ref_encode s.
Proof.
  revert x y z dst. induction s as [|a|a b|a b c r IH] using list_ind3; intros x y z dst.
  - simpl. by rewrite app_nil_r.
  - reflexivity.
  - reflexivity.
  - cbn [encode_loop]. rewrite !bool_decide_eq_false_2 by lia. rewrite bool_decide_eq_true_2 by lia.
    simpl insert. rewrite IH, <- app_assoc. reflexivity.
Qed.

Lemma base64_encode_ref s : base64_encode s = ref_encode s.
Proof. apply (encode_loop_ref s 0 0 0 []). Qed.

Lemma decode4_loop_char k s i a4 ret :
  0 <= k < 64 -> (i < 3)%nat ->
  decode4_loop (b64_char k :: s) i a4 ret = decode4_loop s (S i) (<[i := uchar (b64_char k)]> a4) ret.
Proof.
  intros H Hi. destruct (sextet_range k H) as (_ & Hb & Hne). cbn [decode4_loop].
  rewrite Hb. destruct (Ascii.eqb_spec (b64_char k) "="%char); [done|]. cbn [negb andb].
  by rewrite bool_decide_eq_false_2 by lia.
Qed.

Lemma decode4_loop_quad k1 k2 k3 k4 s w x y z ret :
  0 <= k1 < 64 -> 0 <= k2 < 64 -> 0 <= k3 < 64 -> 0 <= k4 < 64 ->
  decode4_loop (b64_char k1 :: b64_char k2 :: b64_char k3 :: b64_char k4 :: s) 0 [w; x; y; z] ret =
  decode4_loop s 0 [k1; k2; k3; k4] (ret ++ map chr (from_quad [k1; k2; k3; k4])).
Proof.
  intros H1 H2 H3 H4. rewrite !decode4_loop_char by (done || lia).
  destruct (sextet_range k4 H4) as (F4 & Hb & Hne). cbn [decode4_loop].
  rewrite Hb. destruct (Ascii.eqb_spec (b64_char k4) "="%char); [done|]. cbn [negb andb].
  rewrite bool_decide_eq_true_2 by done. simpl insert. simpl map at 1 2.
  by rewrite (proj1 (sextet_range k1 H1)), (proj1 (sextet_range k2 H2)),
    (proj1 (sextet_range k3 H3)), F4.
Qed.

Lemma from_quad_bytes a b c :
  map chr (from_quad [first6 a; mid1 a b; mid2 b c; last6 c]) = [a; b; c].
Proof.
  destruct (mid1_spec a b) as (_ & M1 & M2), (mid2_spec b c) as (_ & M3 & M4).
  destruct (byte_spec a) as (_ & _ & A & _), (byte_spec b) as (_ & _ & _ & B & _),
    (byte_spec c) as (_ & _ & _ & _ & C).
  unfold from_quad, idx. cbn [nth map]. by rewrite M1, M2, M3, M4, A, B, C.
Qed.

Definition decode_finish (st : nat * list Z * str) : str :=
  let '(i, a4, ret) := st in
  if bool_decide (i = 0%nat) then ret
  else let a3 := from_quad (map find_b64 (zero_from 4 i a4)) in
       ret ++ map chr (take (i - 1) a3).

Lemma decode_tail1 a w x y z ret :
  decode_finish (decode4_loop (ref_encode [a]) 0 [w; x; y; z] ret) = ret ++ [a].
Proof.
  cbn [ref_encode]. pose proof (byte_spec a) as (F & _ & A & _).
  pose proof (mid1_spec a "000"%char) as (M & M1 & _).
  rewrite !decode4_loop_char by (done || lia). cbn [decode4_loop].
  rewrite Ascii.eqb_refl. cbn [negb andb decode_finish]. rewrite bool_decide_eq_false_2 by lia.
  f_equal. simpl. unfold from_quad, idx. cbn [nth].
  rewrite (proj1 (sextet_range _ F)), (proj1 (sextet_range _ M)), M1. by rewrite A.
Qed.

Lemma decode_tail2 a b w x y z ret :
  decode_finish (decode4_loop (ref_encode [a; b]) 0 [w; x; y; z] ret) = ret ++ [a; b].
Proof.
  cbn [ref_encode]. pose proof (byte_spec a) as (F & _ & A & _). pose proof (byte_spec b) as (_ & _ & _ & B & _).
  pose proof (mid1_spec a b) as (M & M1 & M2). pose proof (mid2_spec b "000"%char) as (N & N1 & _).
  rewrite !decode4_loop_char by (done || lia). cbn [decode4_loop].
  rewrite Ascii.eqb_refl. cbn [negb andb decode_finish]. rewrite bool_decide_eq_false_2 by lia.
  f_equal. simpl. unfold from_quad, idx. cbn [nth].
  rewrite (proj1 (sextet_range _ F)), (proj1 (sextet_range _ M)), (proj1 (sextet_range _ N)), M1, M2, N1.
  by rewrite A, B.
Qed.

Lemma decode4_loop_ref s w x y z ret :
  decode_finish (decode4_loop (ref_encode s) 0 [w; x; y; z] ret) = ret ++ s.
Proof.
  revert w x y z ret. induction s as [|a|a b|a b c r IH] using list_ind3; intros w x y z ret.
  - simpl. by rewrite app_nil_r.
  - apply decode_tail1.
  - apply decode_tail2.
  - cbn [ref_encode app]. rewrite decode4_loop_quad, IH, from_quad_bytes, <- app_assoc;
      [done|apply byte_spec|apply mid1_spec|apply mid2_spec|apply (byte_spec c)].
Qed.


Lemma b64_char_alphabet k : 0 <= k < 64 -> is_base64 (uchar (b64_char k)) = true.
Proof. intros H. apply (sextet_range k H). Qed.

(** Encoded text has four characters per started group of three bytes; all
    are in the alphabet except the [=] padding, of which there are as many as
    bytes missing from the last group. *)
Theorem base64_encode_shape s :
  length (base64_encode s) = (4 * ((length s + 2) / 3))%nat
  /\ exists body pad, base64_encode s = body ++ repeat "="%char pad
     /\ Forall (fun c => is_base64 (uchar c) = true) body
     /\ pad = ((3 - length s mod 3) mod 3)%nat.
Proof.
  rewrite base64_encode_ref. induction s as [|a|a b|a b c r [IHl (body & pad & E & Hb & Hp)]] using list_ind3.
  - split; [done|]. by exists [], 0%nat.
  - split; [done|]. exists [b64_char (first6 a); b64_char (mid1 a "000"%char)], 2%nat.
    repeat constructor; apply b64_char_alphabet; [apply byte_spec|apply mid1_spec].
  - split; [done|]. exists [b64_char (first6 a); b64_char (mid1 a b); b64_char (mid2 b "000"%char)], 1%nat.
    repeat constructor; apply b64_char_alphabet; [apply byte_spec|apply mid1_spec|apply mid2_spec].
  - cbn [ref_encode]. split.
    + rewrite length_app, IHl. cbn [length].
      replace (S (S (S (length r))) + 2)%nat with (length r + 2 + 1 * 3)%nat by lia.
      rewrite Nat.div_add by lia. lia.
    + exists ([b64_char (first6 a); b64_char (mid1 a b); b64_char (mid2 b c); b64_char (last6 c)] ++ body), pad.
      split; [by rewrite E, app_assoc|]. split.
      * apply Forall_app. split; [|done].
        repeat constructor; apply b64_char_alphabet; [apply byte_spec|apply mid1_spec|apply mid2_spec|apply (byte_spec c)].
      * rewrite Hp. cbn [length]. replace (S (S (S (length r)))) with (length r + 1 * 3)%nat by lia.
        by rewrite Nat.Div0.mod_add.
Qed.

Example base64_examples :
  base64_encode $"Man" = $"TWFu" /\ base64_encode $"Ma" = $"TWE=" /\ base64_encode $"M" = $"TQ=="
  /\ base64_decode $"TWE=" = $"Ma".
Proof. by vm_compute. Qed.
