(* ===== verification/UrlParser.v ===== *)
(** * utils/src/url_parser.cpp: class [UrlParser] *)

From S2P Require Import Prelude CLib StdMap StringUtil.

Open Scope Z_scope.

Record UrlParser := mkUrl { _proto : str; _host : str; _uri : str; _port : Z }.

#[export] Instance UrlParser_eq_dec : EqDecision UrlParser.
Proof. solve_decision. Defined.

(** [strncasecmp(s, p, strlen(p)) == 0] for a lower-case literal [p]. *)
Definition has_prefix_nocase (p s : str) : bool := bool_decide (to_lower (take (length p) s) = p).

(** [strchr(s_pro_spl, c)] for a character [c] that is not NUL. *)
Definition s_pro_spl : str := [":"; "/"; "092"]%char.
Definition pro_spl (c : ascii) : bool := existsb (Ascii.eqb c) s_pro_spl.

Definition parse_proto (c_str : str) : str * str :=
  if has_prefix_nocase $"https" c_str then ($"https", drop 5 c_str)
  else if has_prefix_nocase $"http" c_str then ($"http", drop 4 c_str)
  else ($"http", c_str).

(** After the host: an optional [:port], whose text is scanned up to the next
    separator and reduced to its digits. *)
Definition parse_port (c_str : str) : Z * str :=
  match c_str with
  | c :: r =>
      if Ascii.eqb c ":"%char then
        let str_port := List.filter is_digit (take_while (fun c => negb (pro_spl c)) r) in
        let rest := drop_while (fun c => negb (pro_spl c)) r in
        (if bool_decide (0 < length str_port)%nat then atoi str_port else 80, rest)
      else (80, c_str)
  | [] => (80, [])
  end.

(** [UrlParser(url)]: the constructor and [parse]. *)
Definition parse (url : str) : UrlParser :=
  let c_str := cstr (trim url) in
  let '(proto, c_str) := parse_proto c_str in
  let c_str := drop_while pro_spl c_str in
  let host := trim (take_while (fun c => negb (pro_spl c)) c_str) in
  let c_str := drop_while (fun c => negb (pro_spl c)) c_str in
  let '(port, c_str) := parse_port c_str in
  mkUrl proto host (trim c_str) port.

(** ** Well-formed URLs are taken apart *)

(** A host: not empty, no separator, no NUL, no blank at either end. *)
Definition good_host (h : str) : bool :=
  bool_decide (h <> []) && forallb (fun c => negb (pro_spl c) && negb (Ascii.eqb c "000"%char)) h
  && bool_decide (trim h = h).

(** A path: empty or starting with a slash, no NUL, no trailing blank. *)
Definition good_path (u : str) : bool :=
  match u with
  | [] => true
  | c :: _ => Ascii.eqb c "/"%char && forallb (fun c => negb (Ascii.eqb c "000"%char)) u
              && bool_decide (trim u = u)
  end.

Definition print_port (p : option Z) : str :=
  match p with None => [] | Some n => ":"%char :: dec_string n end.

Definition print_url (proto host : str) (port : option Z) (path : str) : str :=
  proto ++ $"://" ++ host ++ print_port port ++ path.

Section ParsePrint.
Variables (host path : str) (port : option Z).
Hypothesis Hhost : good_host host = true.
Hypothesis Hpath : good_path path = true.
Hypothesis Hport : match port with Some n => 0 <= n <= int32_max | None => True end.

Abbreviation no_spl := (fun c => negb (pro_spl c) = true).
Abbreviation no_nul := (fun c => c <> "000"%char).

Lemma host_facts : host <> [] /\ Forall no_spl host /\ Forall no_nul host /\ trim host = host.
Proof.
  unfold good_host in Hhost. apply andb_true_iff in Hhost as [[H1 H2]%andb_true_iff H3].
  apply bool_decide_eq_true in H1, H3.
  rewrite forallb_forall in H2. split; [done|]. split; [|split; [|done]]; apply List.Forall_forall;
    intros c Hc; specialize (H2 c Hc); bool_to_prop; [by apply negb_true_iff|done].
Qed.

Lemma path_facts :
  Forall no_nul path /\ trim path = path /\ (path = [] \/ exists r, path = "/"%char :: r).
Proof.
  unfold good_path in Hpath. destruct path as [|c r]; [repeat split; [constructor|by left]|].
  apply andb_true_iff in Hpath as [[H1 H2]%andb_true_iff H3]. apply bool_decide_eq_true in H3.
  apply Ascii.eqb_eq in H1. subst. rewrite forallb_forall in H2. split; [|split; [done|right; by eexists]].
  apply List.Forall_forall. intros c Hc. specialize (H2 c Hc). by bool_to_prop.
Qed.

Lemma port_facts :
  Forall no_nul (print_port port)
  /\ (port = None \/ exists n, port = Some n /\ 0 <= n <= int32_max /\ print_port port = ":"%char :: dec_string n
        /\ Forall (fun c => is_digit c = true) (dec_string n) /\ dec_string n <> []).
Proof.
  destruct port as [n|]; simpl; [|split; [constructor|by left]].
  destruct (dec_string_nonneg n) as (H1 & H2 & H3); [lia|]. split.
  - constructor; [done|]. eapply Forall_impl; [exact H1|]. by intros c Hc ->.
  - right. by exists n.
Qed.

(** The text after the host is what [parse_port] takes apart. *)
Lemma parse_port_print :
  parse_port (print_port port ++ path) = (default 80 port, path).
Proof.
  destruct path_facts as (_ & _ & Hp). destruct port_facts as [_ [Hpo|(n & Hpo & Hn & Hpr & Hd & Hne)]].
  - rewrite Hpo. simpl. by destruct Hp as [->|[r ->]].
  - rewrite Hpr, Hpo. cbn [app parse_port]. rewrite Ascii.eqb_refl.
    assert (Hs : Forall no_spl (dec_string n)).
    { eapply Forall_impl; [exact Hd|]. intros c Hc. cbv beta in *.
      by_ascii c (fun c => implb (is_digit c) (negb (pro_spl c))). by rewrite Hc in H. }
    assert (take_while (fun c => negb (pro_spl c)) (dec_string n ++ path) = dec_string n
            /\ drop_while (fun c => negb (pro_spl c)) (dec_string n ++ path) = path) as [-> ->].
    { destruct Hp as [->|[r ->]].
      - rewrite app_nil_r. split; [by apply take_while_all|by apply drop_while_all].
      - split; [by apply take_while_app_stop|by apply drop_while_app_stop]. }
    assert (List.filter is_digit (dec_string n) = dec_string n) as ->.
    { clear -Hd. induction Hd as [|c s Hc _ IH]; simpl; [done|]. by rewrite Hc, IH. }
    rewrite bool_decide_eq_true_2 by (destruct (dec_string n); [done|simpl; lia]).
    by rewrite atoi_dec_string.
Qed.

Lemma url_trim_id (proto : str) :
  proto = $"http" \/ proto = $"https" ->
  cstr (trim (print_url proto host port path)) = print_url proto host port path.
Proof.
  intros Hproto. destruct host_facts as (Hne & _ & Hnul & Htr). destruct path_facts as (Hpn & Hpt & _).
  destruct port_facts as [Hpo Hpo']. unfold print_url.
  assert (Htail : host ++ print_port port ++ path <> [] /\ trim (host ++ print_port port ++ path) = host ++ print_port port ++ path).
  { split; [by destruct host|]. destruct (decide (path = [])) as [->|Hnp].
    - rewrite app_nil_r. destruct Hpo' as [->|(n & -> & _ & -> & Hd & Hdn)]; [by rewrite app_nil_r|].
      apply trim_app_id; [done|by apply trim_id_iff in Htr as [? _]|done|].
      apply (trim_app_id [":"%char]); [done|by intros c [= <-]|done|by apply digits_trim].
    - rewrite app_assoc. apply trim_app_id; [by destruct host| |done|done].
      rewrite head_app_ne by done. by apply trim_id_iff in Htr as [? _]. }
  destruct Htail as [Ht1 Ht2]. rewrite (app_assoc proto). 
  rewrite trim_app_id; [|by destruct Hproto as [->| ->]| |done|done].
  - rewrite <- (app_assoc proto). apply cstr_id. repeat (apply Forall_app; split); try done; [|repeat constructor; done].
    destruct Hproto as [->| ->]; repeat constructor; done.
  - destruct Hproto as [->| ->]; by intros c [= <-].
Qed.

Lemma parse_print_parts (proto : str) :
  proto = $"http" \/ proto = $"https" ->
  parse (print_url proto host port path) = mkUrl proto host path (default 80 port).
Proof.
  intros Hproto. unfold parse. rewrite url_trim_id by done.
  destruct host_facts as (Hne & Hspl & _ & Htr). destruct path_facts as (_ & Hpt & Hp).
  assert (Hpp : parse_proto (print_url proto host port path) = (proto, $"://" ++ host ++ print_port port ++ path)).
  { unfold print_url. destruct Hproto as [->| ->]; [|by vm_compute]. done. }
  rewrite Hpp. destruct host as [|h hs] eqn:Eh; [done|]. rewrite <- Eh in *.
  assert (drop_while pro_spl ($"://" ++ host ++ print_port port ++ path) = host ++ print_port port ++ path) as ->.
  { rewrite Eh at 1. rewrite Eh in Hspl. apply Forall_cons in Hspl as [Hh _].
    rewrite drop_while_app_Forall by (by repeat constructor). rewrite Eh.
    simpl. by rewrite (proj1 (negb_true_iff _) Hh). }
  assert (Hbr : take_while (fun c => negb (pro_spl c)) (host ++ print_port port ++ path) = host
       /\ drop_while (fun c => negb (pro_spl c)) (host ++ print_port port ++ path) = print_port port ++ path).
  { destruct (print_port port ++ path) as [|x r] eqn:E.
    - rewrite app_nil_r. split; [by apply take_while_all|by apply drop_while_all].
    - assert (negb (pro_spl x) = false).
      { destruct port as [n|]; simpl in E; [by simplify_eq|]. destruct Hp as [->|[? ->]]; by simplify_eq. }
      split; [by apply take_while_app_stop|by apply drop_while_app_stop]. }
  destruct Hbr as [-> ->]. rewrite parse_port_print. by rewrite Htr, Hpt.
Qed.
(** C39: a URL printed from a scheme (http or https), a host, an optional port
    and a path is parsed back into exactly these parts; without a port the
    parser answers 80 for either scheme. *)
Theorem parse_print_url (proto : str) :
  proto = $"http" \/ proto = $"https" ->
  parse (print_url proto host port path) = mkUrl proto host path (default 80 port).
Proof. apply parse_print_parts. Qed.
End ParsePrint.

Lemma parse_print_url_witness :
  parse $"https://vop.baidu.com/server_api" = mkUrl $"https" $"vop.baidu.com" $"/server_api" 80
  /\ parse $"http://localhost:8080" = mkUrl $"http" $"localhost" [] 8080.
Proof.
  split.
  - refine (parse_print_url $"vop.baidu.com" $"/server_api" None _ _ _ $"https" _);
      [reflexivity|reflexivity|exact I|by right].
  - refine (parse_print_url $"localhost" [] (Some 8080) _ _ _ $"http" _);
      [reflexivity|reflexivity|done|by left].
Defined.

(** The host never contains a separator, whatever the input. *)
Lemma parse_host_no_separator url : Forall (fun c => pro_spl c = false) (_host (parse url)).
Proof.
  unfold parse. destruct (parse_proto _) as [proto c]. destruct (parse_port _) as [po u]. simpl.
  rewrite trim_is_trim_copy. set (t := take_while _ _).
  assert (H : Forall (fun c => pro_spl c = false) t).
  { eapply Forall_impl; [apply take_while_Forall|]. intros x Hx. cbv beta in *. by apply negb_true_iff. }
  destruct (trim_decompose t) as [Hb|(a & m & b & Ht & _ & _ & -> & _)].
  - by rewrite trim_copy_blank.
  - rewrite Ht in H. apply Forall_app in H as [_ H]. by apply Forall_app in H as [H _].
Qed.

(** The parser has one default port for both schemes. *)
Example parse_https_default_port : _port (parse $"https://host/x") = 80.
Proof. reflexivity. Qed.
