(* ===== verification/FileUtil.v ===== *)
(** * utils/src/utils.cpp: class [FileUtil]

    Path normalisation, and creation of directories and files over a file
    system.  The operating system is an interface: [stat], [mkdir] and
    [fopen(path, "w+")] on an abstract file-system state, with the documented
    behaviour the proofs use as class laws; [TreeFS] at the end is a concrete
    instance.  The loop that rebuilds a path from its parts occurs three times in
    the source; it is [join_parts] here. *)

From S2P Require Import Prelude CLib StdMap StringUtil.

Open Scope Z_scope.

Inductive file_kind := S_DIR | S_REG.
#[export] Instance file_kind_eq_dec : EqDecision file_kind.
Proof. solve_decision. Defined.

Class FileSystem (F : Type) := {
  stat : F -> str -> option file_kind;
  mkdir : F -> str -> bool * F;
  fopen_w : F -> str -> bool * F;
}.

(** A successful call makes the object exist and removes nothing; a failed one
    changes nothing. *)
Class FileSystemLaws (F : Type) `{FileSystem F} := {
  mkdir_ok : forall f p f', mkdir f p = (true, f') -> stat f' p = Some S_DIR;
  mkdir_keeps : forall f p f' q k, mkdir f p = (true, f') -> stat f q = Some k -> stat f' q = Some k;
  mkdir_fails : forall f p f', mkdir f p = (false, f') -> f' = f;
  fopen_ok : forall f p f', fopen_w f p = (true, f') -> stat f' p = Some S_REG;
  fopen_keeps : forall f p f' q k, fopen_w f p = (true, f') -> stat f q = Some k -> stat f' q = Some k;
  fopen_fails : forall f p f', fopen_w f p = (false, f') -> f' = f;
}.

(** ** Paths *)

Definition path_parts (path : str) : list str := split_vec (snd (replace (cstr path) "092"%char "/"%char)) "/"%char.

(** [dir += *it; dir += "/"] over the parts, skipping empty parts after the
    first. *)
Fixpoint join_parts (first_part : bool) (parts : list str) (dir : str) : str :=
  match parts with
  | [] => dir
  | p :: parts' =>
      if negb first_part && bool_decide (length p = 0%nat) then join_parts false parts' dir
      else join_parts false parts' (dir ++ p ++ $"/")
  end.

Definition normalize_file_path (path : str) : str :=
  let dir := join_parts true (path_parts path) [] in
  if bool_decide (0 < length dir)%nat then take (length dir - 1) dir else dir.

(** [while (results.size() > 0 && is_empty(results.back())) results.pop_back()]. *)
Definition pop_blank (results : list str) : list str := drop_while_end is_empty results.

(** ** Operations on the file system *)

Section FileUtil.
Context {F : Type} `{FileSystem F}.

Definition exists_ (f : F) (path : str) : bool := bool_decide (is_Some (stat f path)).
Definition is_dir (f : F) (path : str) : bool := bool_decide (stat f path = Some S_DIR).
Definition is_file (f : F) (path : str) : bool := bool_decide (stat f path = Some S_REG).

Fixpoint create_dir_if_not_exist (fuel : nat) (f : F) (path : str) : bool * F :=
  if exists_ f path then (is_dir f path, f)
  else
    match fuel with
    | O => (false, f)
    | S fuel' =>
        match reverse (pop_blank (path_parts path)) with
        | [] => (true, f)
        | dir_name :: rest =>
            let dir := join_parts true (reverse rest) [] in
            let '(ok, f1) := if bool_decide (0 < length dir)%nat
                             then create_dir_if_not_exist fuel' f dir else (true, f) in
            if ok then mkdir f1 (dir ++ dir_name) else (false, f1)
        end
    end.

Definition dir_fuel (path : str) : nat := S (length (path_parts path)).

Definition touch (f : F) (path : str) : bool * F :=
  let results := path_parts path in
  match reverse results with
  | [] => (false, f)
  | name :: rest =>
      if is_empty name then (false, f)
      else
        let dir := join_parts true (reverse rest) [] in
        let '(ok, f1) := if bool_decide (0 < length dir)%nat
                         then create_dir_if_not_exist (dir_fuel dir) f dir else (true, f) in
        if ok then fopen_w f1 (dir ++ name) else (false, f1)
  end.
End FileUtil.

(** ** Normalisation *)

Definition keep_nonempty (parts : list str) : list str := List.filter (fun p => negb (bool_decide (length p = 0%nat))) parts.

Lemma join_parts_false parts dir :
  join_parts false parts dir = dir ++ concat (map (fun p => p ++ $"/") (keep_nonempty parts)).
Proof.
  revert dir. induction parts as [|p ps IH]; intros dir; [by rewrite app_nil_r|]. simpl.
  case_bool_decide; simpl; rewrite IH; [done|]. by rewrite !app_assoc.
Qed.

Lemma join_parts_true p ps :
  join_parts true (p :: ps) [] = concat (map (fun p => p ++ $"/") (p :: keep_nonempty ps)).
Proof. simpl. by rewrite join_parts_false. Qed.

Lemma concat_join (ps : list str) :
  ps <> [] -> concat (map (fun p => p ++ $"/") ps) = join "/"%char ps ++ $"/".
Proof.
  induction ps as [|p ps IH]; [done|]. intros _. destruct (decide (ps = [])) as [->|Hne].
  - simpl. by rewrite app_nil_r.
  - rewrite join_cons by done. cbn [map concat]. rewrite IH by done. by rewrite <- !app_assoc.
Qed.

(** The parts of a normalised path: the first one, then the non-empty ones. *)
Definition norm_parts (parts : list str) : list str :=
  match parts with [] => [] | p :: ps => p :: keep_nonempty ps end.

Lemma path_parts_ne path : path_parts path <> [].
Proof. apply split_vec_ne. Qed.

Lemma normalize_join path : normalize_file_path path = join "/"%char (norm_parts (path_parts path)).
Proof.
  unfold normalize_file_path. pose proof (path_parts_ne path). destruct (path_parts path) as [|p ps]; [done|].
  rewrite join_parts_true, concat_join by done. simpl norm_parts.
  rewrite length_app. rewrite bool_decide_eq_true_2 by (simpl; lia).
  replace (length _ + length ($"/") - 1)%nat with (length (join "/"%char (p :: keep_nonempty ps))) by (simpl; lia).
  apply take_app_length.
Qed.

Lemma replace_none s d : Forall (fun c => c <> "092"%char) s -> snd (replace s "092"%char d) = s.
Proof.
  intros H. unfold replace. simpl. induction H as [|c s Hc _ IH]; simpl; [done|].
  rewrite IH. by destruct (Ascii.eqb_spec c "092"%char).
Qed.

Lemma replace_free s : Forall (fun c => c <> "092"%char) (snd (replace s "092"%char "/"%char)).
Proof.
  unfold replace. simpl. induction s as [|c s IH]; simpl; constructor; [|done].
  by destruct (Ascii.eqb_spec c "092"%char).
Qed.

Lemma join_Forall (P : ascii -> Prop) d (ps : list str) :
  P d -> Forall (Forall P) ps -> Forall P (join d ps).
Proof.
  intros Hd H. induction H as [|p ps Hp Hps IH]; [constructor|].
  destruct ps; [done|]. rewrite join_cons by done. apply Forall_app. split; [done|by constructor].
Qed.

Lemma join_Forall_inv (P : ascii -> Prop) d (ps : list str) :
  Forall P (join d ps) -> Forall (Forall P) ps.
Proof.
  induction ps as [|p ps IH]; [constructor|]. destruct ps as [|q ps]; [by repeat constructor|].
  rewrite join_cons by done. intros [H1 H2]%Forall_app. apply Forall_cons in H2 as [_ H2].
  constructor; auto.
Qed.

Lemma keep_nonempty_Forall (P : str -> Prop) ps : Forall P ps -> Forall P (keep_nonempty ps).
Proof. induction 1 as [|p ps Hp _ IH]; simpl; [constructor|]. case_bool_decide; simpl; auto. Qed.

Lemma keep_nonempty_idem ps : keep_nonempty (keep_nonempty ps) = keep_nonempty ps.
Proof.
  induction ps as [|p ps IH]; simpl; [done|]. case_bool_decide as E; simpl; [done|].
  rewrite bool_decide_eq_false_2 by done. simpl. by rewrite IH.
Qed.

Lemma norm_parts_Forall (P : str -> Prop) ps : Forall P ps -> Forall P (norm_parts ps).
Proof. destruct 1; simpl; constructor; auto using keep_nonempty_Forall. Qed.

Lemma path_parts_chars path :
  Forall (Forall (fun c => c <> "092"%char /\ c <> "000"%char)) (path_parts path).
Proof.
  apply (join_Forall_inv _ "/"%char). unfold path_parts. rewrite split_vec_join_id.
  assert (Hn : Forall (fun c => c <> "000"%char) (cstr path)).
  { eapply Forall_impl; [apply take_while_Forall|]. intros c Hc. cbv beta in *. by bool_to_prop. }
  unfold replace. simpl. induction Hn as [|c s Hc _ IH]; simpl; constructor; [|done].
  by destruct (Ascii.eqb_spec c "092"%char).
Qed.

(** Splitting a normalised path gives its parts back. *)
Lemma path_parts_normalize path : path_parts (normalize_file_path path) = norm_parts (path_parts path).
Proof.
  rewrite normalize_join. unfold path_parts at 1.
  pose proof (norm_parts_Forall _ _ (path_parts_chars path)) as Hc.
  assert (Hj : Forall (fun c => c <> "092"%char /\ c <> "000"%char) (join "/"%char (norm_parts (path_parts path))))
    by (by apply join_Forall).
  rewrite cstr_id by (eapply Forall_impl; [exact Hj|]; naive_solver).
  rewrite replace_none by (eapply Forall_impl; [exact Hj|]; naive_solver).
  apply split_vec_join.
  - pose proof (path_parts_ne path). by destruct (path_parts path).
  - apply norm_parts_Forall, split_vec_free.
Qed.

(** Normalising a path is idempotent, and a normalised path has no
    backslash and no empty part after the first. *)
Theorem normalize_idempotent path :
  normalize_file_path (normalize_file_path path) = normalize_file_path path
  /\ Forall (fun c => c <> "092"%char) (normalize_file_path path)
  /\ Forall (fun p => p <> []) (tail (path_parts (normalize_file_path path))).
Proof.
  split; [|split].
  - rewrite (normalize_join (normalize_file_path path)), path_parts_normalize, (normalize_join path).
    f_equal. destruct (path_parts path); simpl; [done|]. by rewrite keep_nonempty_idem.
  - rewrite normalize_join. apply join_Forall; [done|]. apply norm_parts_Forall.
    eapply Forall_impl; [apply path_parts_chars|]. intros p Hp. eapply Forall_impl; [exact Hp|]. naive_solver.
  - rewrite path_parts_normalize. destruct (path_parts path) as [|p ps]; simpl; [constructor|].
    clear. induction ps as [|q ps IH]; simpl; [constructor|]. case_bool_decide as E; simpl; [done|].
    constructor; [by destruct q|done].
Qed.

(** The root directory is normalised to the empty path. *)
Example normalize_root : normalize_file_path $"/" = [].
Proof. reflexivity. Qed.

(** ** Directory creation *)

(** The parts that decide how deep the recursion goes. *)
Definition depth (path : str) : nat := length (pop_blank (path_parts path)).

Lemma pop_blank_length ps : (length (pop_blank ps) <= length ps)%nat.
Proof.
  unfold pop_blank, drop_while_end. rewrite length_reverse.
  etransitivity; [apply drop_while_length|]. by rewrite length_reverse.
Qed.

Lemma pop_blank_snoc_nil ps : pop_blank (ps ++ [[]]) = pop_blank ps.
Proof. unfold pop_blank, drop_while_end. by rewrite reverse_app. Qed.

Lemma pop_blank_Forall (P : str -> Prop) ps : Forall P ps -> Forall P (pop_blank ps).
Proof.
  intros H. destruct (drop_while_end_split is_empty ps) as (t & Ht & _).
  rewrite Ht in H. by apply Forall_app in H as [H _].
Qed.

Lemma path_parts_join ps :
  ps <> [] -> Forall (Forall (fun c => c <> "092"%char /\ c <> "000"%char)) ps ->
  Forall (fun p => "/"%char ∉ p) ps ->
  path_parts (join "/"%char ps) = ps.
Proof.
  intros Hne Hc Hs. unfold path_parts.
  assert (Hj : Forall (fun c => c <> "092"%char /\ c <> "000"%char) (join "/"%char ps)) by (by apply join_Forall).
  rewrite cstr_id by (eapply Forall_impl; [exact Hj|]; naive_solver).
  rewrite replace_none by (eapply Forall_impl; [exact Hj|]; naive_solver).
  by apply split_vec_join.
Qed.

Lemma join_snoc_nil d ps : ps <> [] -> join d (ps ++ [[]]) = join d ps ++ [d].
Proof.
  induction ps as [|p ps IH]; [done|]. intros _. destruct ps as [|q ps]; [done|].
  change ((p :: q :: ps) ++ [[]]) with (p :: ((q :: ps) ++ [[]])).
  rewrite (join_cons d p (q :: ps)), (join_cons d p ((q :: ps) ++ [[]])), IH by done.
  by rewrite <- app_assoc.
Qed.

Lemma keep_nonempty_length ps : (length (keep_nonempty ps) <= length ps)%nat.
Proof. induction ps as [|p ps IH]; simpl; [done|]. case_bool_decide; simpl; lia. Qed.

(** The parent path is strictly less deep. *)
Lemma parent_depth path name rest :
  reverse (pop_blank (path_parts path)) = name :: rest ->
  (depth (join_parts true (reverse rest) []) < depth path)%nat.
Proof.
  intros E. apply (f_equal reverse) in E. rewrite reverse_involutive, reverse_cons in E.
  unfold depth at 2. rewrite E, length_app. simpl. set (ps := reverse rest) in *.
  destruct ps as [|p qs] eqn:Eps; [by vm_compute|].
  pose proof (pop_blank_Forall _ _ (path_parts_chars path)) as Hc.
  pose proof (pop_blank_Forall _ _ (split_vec_free (snd (replace (cstr path) "092"%char "/"%char)) "/"%char)) as Hs.
  fold (path_parts path) in Hs. rewrite E in Hc, Hs. apply Forall_app in Hc as [Hc _], Hs as [Hs _].
  rewrite join_parts_true, concat_join by done. change (p :: keep_nonempty qs) with (norm_parts (p :: qs)).
  change ($"/") with ["/"%char]. rewrite <- join_snoc_nil by done.
  unfold depth. rewrite path_parts_join; [|by destruct qs| |].
  - rewrite pop_blank_snoc_nil. pose proof (pop_blank_length (norm_parts (p :: qs))) as Hl.
    pose proof (keep_nonempty_length qs). cbn [norm_parts length] in *. lia.
  - apply Forall_app. split; [by apply norm_parts_Forall|by repeat constructor].
  - apply Forall_app. split; [by apply norm_parts_Forall|repeat constructor; set_solver].
Qed.

Section CreateDir.
Context {F : Type} `{FileSystemLaws F}.
Implicit Types f : F.

Lemma create_dir_fuel n1 n2 f path :
  (depth path < n1)%nat -> (depth path < n2)%nat ->
  create_dir_if_not_exist n1 f path = create_dir_if_not_exist n2 f path.
Proof.
  revert n2 f path. induction n1 as [|n1 IH]; intros [|n2] f path H1 H2; try lia.
  cbn [create_dir_if_not_exist]. destruct (exists_ f path); [done|].
  destruct (reverse (pop_blank (path_parts path))) as [|name rest] eqn:E; [done|].
  pose proof (parent_depth _ _ _ E). case_bool_decide; [|done].
  rewrite (IH n2) by lia. done.
Qed.

(** Nothing that existed is removed or changed. *)
Lemma create_dir_keeps n f path ok f' q k :
  create_dir_if_not_exist n f path = (ok, f') -> stat f q = Some k -> stat f' q = Some k.
Proof.
  revert f path ok f'. induction n as [|n IH]; intros f path ok f'; cbn [create_dir_if_not_exist];
    (destruct (exists_ f path); [by intros [= _ <-]|]); [by intros [= _ <-]|].
  destruct (reverse _) as [|name rest]; [by intros [= _ <-]|].
  set (dir := join_parts true (reverse rest) []). case_bool_decide.
  - destruct (create_dir_if_not_exist n f dir) as [[] f1] eqn:E1; intros E Hq;
      pose proof (IH _ _ _ _ E1 Hq) as Hq1; [|by simplify_eq].
    destruct ok; [by eapply mkdir_keeps|]. apply mkdir_fails in E. by subst.
  - intros E Hq. destruct ok; [by eapply mkdir_keeps|]. apply mkdir_fails in E. by subst.
Qed.

(** The path [mkdir] is finally asked for. *)
Definition dir_target (path : str) : option str :=
  match reverse (pop_blank (path_parts path)) with
  | [] => None
  | name :: rest => Some (join_parts true (reverse rest) [] ++ name)
  end.

(** [create_dir_if_not_exist] terminates (any fuel above the number of path
    parts gives the same result), removes nothing, and when it returns true the
    path is a directory, or its normalised form was made a directory, or the
    path consists of blank parts only. *)
Theorem create_dir_correct f path ok f' :
  create_dir_if_not_exist (dir_fuel path) f path = (ok, f') ->
  (forall fuel, (dir_fuel path <= fuel)%nat -> create_dir_if_not_exist fuel f path = (ok, f'))
  /\ (forall q k, stat f q = Some k -> stat f' q = Some k)
  /\ (ok = true -> stat f' path = Some S_DIR \/ dir_target path = None
        \/ exists t, dir_target path = Some t /\ stat f' t = Some S_DIR).
Proof.
  intros E. assert (Hd : (depth path < dir_fuel path)%nat)
    by (unfold dir_fuel, depth; pose proof (pop_blank_length (path_parts path)); lia).
  split; [|split].
  - intros fuel Hf. rewrite <- E. apply create_dir_fuel; lia.
  - intros q k. by eapply create_dir_keeps.
  - intros ->. unfold dir_fuel in E. cbn [create_dir_if_not_exist] in E. unfold dir_target.
    destruct (exists_ f path); [left; unfold is_dir in E; simplify_eq; by bool_to_prop|right].
    destruct (reverse _) as [|name rest]; [by left|right]. eexists. split; [done|].
    destruct (if bool_decide _ then _ else _) as [[] f1]; [|done]. by apply mkdir_ok in E.
Qed.

(** When [touch] succeeds the file exists as a regular file, every directory
    and file that existed before still does. *)
Theorem touch_correct f path f' :
  touch f path = (true, f') ->
  (exists p, stat f' p = Some S_REG) /\ (forall q k, stat f q = Some k -> stat f' q = Some k).
Proof.
  unfold touch. destruct (reverse (path_parts path)) as [|name rest]; [done|].
  destruct (is_empty name); [done|]. set (dir := join_parts true (reverse rest) []).
  destruct (if bool_decide (0 < length dir)%nat then _ else _) as [ok f1] eqn:E1. destruct ok; [|done].
  intros E. split; [eexists; by eapply fopen_ok|]. intros q k Hq. eapply fopen_keeps; [done|].
  case_bool_decide; simplify_eq; [|done]. by eapply create_dir_keeps.
Qed.
End CreateDir.

(** ** A concrete file system: a finite map from path text to kind, in which the
    parent of a new object need not exist *)

Abbreviation TreeFS := (gmap str file_kind).

#[export] Instance TreeFS_ops : FileSystem TreeFS := {|
  stat f p := f !! p;
  mkdir f p := match f !! p with None => (true, <[p := S_DIR]> f) | Some _ => (false, f) end;
  fopen_w f p := match f !! p with
                 | None => (true, <[p := S_REG]> f)
                 | Some S_REG => (true, f)
                 | Some S_DIR => (false, f)
                 end;
|}.

#[export] Instance TreeFS_laws : FileSystemLaws TreeFS.
Proof.
  constructor; simpl; unfold stat, mkdir, fopen_w; simpl; intros f p f'.
  - destruct (f !! p); intros; simplify_eq. apply lookup_insert_eq.
  - intros q k. destruct (f !! p) eqn:E; intros; simplify_eq. rewrite lookup_insert_ne; [done|congruence].
  - destruct (f !! p); intros; by simplify_eq.
  - destruct (f !! p) as [[]|] eqn:E; intros; simplify_eq; [done|apply lookup_insert_eq].
  - intros q k. destruct (f !! p) as [[]|] eqn:E; intros; simplify_eq; [done|].
    rewrite lookup_insert_ne; [done|congruence].
  - destruct (f !! p) as [[]|]; intros; by simplify_eq.
Qed.

Definition mk_ab : bool * TreeFS := create_dir_if_not_exist (dir_fuel $"a//b/") (∅ : TreeFS) $"a//b/".
Definition touch_x : bool * TreeFS := touch (∅ : TreeFS) $"d\x.log".

Lemma create_dir_correct_witness :
  fst mk_ab = true /\ stat (snd mk_ab) $"a/b" = Some S_DIR.
Proof.
  split; [vm_compute; reflexivity|].
  assert (E : create_dir_if_not_exist (dir_fuel $"a//b/") (∅ : TreeFS) $"a//b/" = (true, snd mk_ab))
    by (vm_compute; reflexivity).
  destruct (create_dir_correct _ _ _ _ E) as (_ & _ & Hx).
  destruct (Hx eq_refl) as [C|[C|(t & [= <-] & Ht)]]; [discriminate C|discriminate C|exact Ht].
Defined.

Lemma touch_correct_witness :
  fst touch_x = true /\ exists p, stat (snd touch_x) p = Some S_REG.
Proof.
  split; [vm_compute; reflexivity|].
  assert (E : touch (∅ : TreeFS) $"d\x.log" = (true, snd touch_x)) by (vm_compute; reflexivity).
  exact (proj1 (touch_correct _ _ _ E)).
Defined.
