(* ===== verification/TimeUtil.v ===== *)
(** * utils/src/utils.cpp: class [TimeUtil]

    Time stamps and their UTC text.  The C library's calendar ([gmtime_r]), its
    [strftime] and [strptime] for the conversions of the two formats, and
    [mktime] are written out; the rules of the local time zone are data of the
    host and a parameter ([Zone]).  A [struct tm] that the source does not
    initialise is an argument [g] of the operation: [strptime] overwrites the
    fields of the format and leaves the others, [tm_isdst] among them. *)

From S2P Require Import Prelude CLib.

Open Scope Z_scope.

(** ** utils.hpp: the formats *)

Definition kAipUtcTimeFormat : str := $"%Y-%m-%d %H:%M:%S".
Definition kAipUtcTimeFormatLength : nat := 20.
Definition kAipUtcTimeAnoFormat : str := $"%Y%m%d%H%M%S".

(** ** The calendar *)

(** Days since 1970-01-01 of a date of the proleptic Gregorian calendar; the
    year starts in March, so that a leap day is its last day.  A day past the end
    of its month counts on, which is what [mktime] does with it. *)
Definition days_from_civil (y m d : Z) : Z :=
  let y := if m <=? 2 then y - 1 else y in
  365 * y + y / 4 - y / 100 + y / 400 + (153 * ((m + 9) mod 12) + 2) / 5 + d - 1 - 719468.

Definition civil_from_days (z : Z) : Z * Z * Z :=
  let z := z + 719468 in
  let era := z / 146097 in
  let doe := z mod 146097 in
  let yoe := (doe - doe / 1460 + doe / 36524 - doe / 146096) / 365 in
  let doy := doe - (365 * yoe + yoe / 4 - yoe / 100) in
  let mp := (5 * doy + 2) / 153 in
  let m := if mp <? 10 then mp + 3 else mp - 9 in
  (yoe + era * 400 + (if m <=? 2 then 1 else 0), m, doy - (153 * mp + 2) / 5 + 1).

Definition leap (y : Z) : bool := (y mod 4 =? 0) && (negb (y mod 100 =? 0) || (y mod 400 =? 0)).
Definition days_in_month (y m : Z) : Z :=
  if m =? 2 then (if leap y then 29 else 28)
  else if (m =? 4) || (m =? 6) || (m =? 9) || (m =? 11) then 30 else 31.

(** [struct tm]. *)
Record tm := mkTm {
  tm_sec : Z; tm_min : Z; tm_hour : Z; tm_mday : Z; tm_mon : Z; tm_year : Z;
  tm_wday : Z; tm_yday : Z; tm_isdst : Z }.

(** The seconds a [struct tm] counts when it is read as UTC. *)
Definition tm_seconds (x : tm) : Z :=
  days_from_civil (tm_year x + 1900) (tm_mon x + 1) (tm_mday x) * 86400
  + tm_hour x * 3600 + tm_min x * 60 + tm_sec x.

Definition tm_of_seconds (isdst t : Z) : tm :=
  let days := t / 86400 in
  let s := t mod 86400 in
  let '(y, m, d) := civil_from_days days in
  mkTm (s mod 60) (s / 60 mod 60) (s / 3600) d (m - 1) (y - 1900)
    ((days + 4) mod 7) (days - days_from_civil y 1 1) isdst.

(** [gmtime_r] fails, and leaves the [struct tm] as it is, when the year does
    not fit an [int]. *)
Definition gmtime_r (t : Z) : option tm :=
  let x := tm_of_seconds 0 t in
  if (int32_min <=? tm_year x) && (tm_year x <=? int32_max) then Some x else None.

(** ** The local time zone *)

(** [utoff t] and [dst t] are the zone's offset east of UTC and its [tm_isdst] at
    the instant [t]; [local_instant l isdst] is the instant [mktime] picks for the
    wall clock reading [l] (in seconds) with that [tm_isdst]. *)
Class Zone := { utoff : Z -> Z; dst : Z -> Z; local_instant : Z -> Z -> Z }.

(** A zone without daylight saving, [z] seconds east of UTC. *)
#[export] Instance fixed_zone (z : Z) : Zone | 100 :=
  {| utoff _ := z; dst _ := 0; local_instant l _ := l - z |}.

(** ** strftime *)

Definition digit (z : Z) : ascii := chr (48 + z).
Definition two_digits (z : Z) : str := [digit (z / 10); digit (z mod 10)].

Definition strftime_conv (c : ascii) (x : tm) : str :=
  if Ascii.eqb c "Y" then dec_string (tm_year x + 1900)
  else if Ascii.eqb c "m" then two_digits (tm_mon x + 1)
  else if Ascii.eqb c "d" then two_digits (tm_mday x)
  else if Ascii.eqb c "H" then two_digits (tm_hour x)
  else if Ascii.eqb c "M" then two_digits (tm_min x)
  else if Ascii.eqb c "S" then two_digits (tm_sec x)
  else ["%"%char; c].

Fixpoint strftime_text (fmt : str) (x : tm) : str :=
  match fmt with
  | [] => []
  | f :: fmt' =>
      if Ascii.eqb f "%" then
        match fmt' with
        | [] => [f]
        | c :: fmt'' => strftime_conv c x ++ strftime_text fmt'' x
        end
      else f :: strftime_text fmt' x
  end.

(** [std::string(buffer, strftime(buffer, max, fmt, x))]: nothing when the text
    and its terminator do not fit. *)
Definition strftime (max : nat) (fmt : str) (x : tm) : str :=
  let text := strftime_text fmt x in
  if decide (length text < max)%nat then text else [].

(** ** strptime *)

(** A number of at most [n] digits between [from] and [to]: blanks are skipped,
    and no digit is read that could only take the value past [to]. *)
Fixpoint get_digits (n : nat) (to val : Z) (s : str) : Z * str :=
  match n, s with
  | S n', c :: s' =>
      if (val * 10 <=? to) && is_digit c then get_digits n' to (val * 10 + (uchar c - 48)) s' else (val, s)
  | _, _ => (val, s)
  end.

Definition get_number (from to : Z) (n : nat) (s : str) : option (Z * str) :=
  match drop_while (Ascii.eqb " ") s with
  | c :: s' =>
      if is_digit c then
        let '(val, rest) := get_digits (n - 1) to (uchar c - 48) s' in
        if (from <=? val) && (val <=? to) then Some (val, rest) else None
      else None
  | [] => None
  end.

Definition set_year (v : Z) (x : tm) : tm :=
  mkTm (tm_sec x) (tm_min x) (tm_hour x) (tm_mday x) (tm_mon x) (v - 1900) (tm_wday x) (tm_yday x) (tm_isdst x).
Definition set_mon (v : Z) (x : tm) : tm :=
  mkTm (tm_sec x) (tm_min x) (tm_hour x) (tm_mday x) (v - 1) (tm_year x) (tm_wday x) (tm_yday x) (tm_isdst x).
Definition set_mday (v : Z) (x : tm) : tm :=
  mkTm (tm_sec x) (tm_min x) (tm_hour x) v (tm_mon x) (tm_year x) (tm_wday x) (tm_yday x) (tm_isdst x).
Definition set_hour (v : Z) (x : tm) : tm :=
  mkTm (tm_sec x) (tm_min x) v (tm_mday x) (tm_mon x) (tm_year x) (tm_wday x) (tm_yday x) (tm_isdst x).
Definition set_min (v : Z) (x : tm) : tm :=
  mkTm (tm_sec x) v (tm_hour x) (tm_mday x) (tm_mon x) (tm_year x) (tm_wday x) (tm_yday x) (tm_isdst x).
Definition set_sec (v : Z) (x : tm) : tm :=
  mkTm v (tm_min x) (tm_hour x) (tm_mday x) (tm_mon x) (tm_year x) (tm_wday x) (tm_yday x) (tm_isdst x).

(** The bounds and the field of a conversion. *)
Definition strptime_conv (c : ascii) : option (Z * Z * nat * (Z -> tm -> tm)) :=
  if Ascii.eqb c "Y" then Some (0, 9999, 4%nat, set_year)
  else if Ascii.eqb c "m" then Some (1, 12, 2%nat, set_mon)
  else if Ascii.eqb c "d" then Some (1, 31, 2%nat, set_mday)
  else if Ascii.eqb c "H" then Some (0, 23, 2%nat, set_hour)
  else if Ascii.eqb c "M" then Some (0, 59, 2%nat, set_min)
  else if Ascii.eqb c "S" then Some (0, 61, 2%nat, set_sec)
  else None.

Fixpoint strptime_fields (fmt s : str) (x : tm) : option (tm * str) :=
  match fmt with
  | [] => Some (x, s)
  | f :: fmt' =>
      if Ascii.eqb f "%" then
        match fmt' with
        | [] => None
        | c :: fmt'' =>
            '(from, to, n, set) ← strptime_conv c;
            '(v, rest) ← get_number from to n s;
            strptime_fields fmt'' rest (set v x)
        end
      else if is_space f then strptime_fields fmt' (drop_while is_space s) x
      else match s with
           | c :: s' => if Ascii.eqb c f then strptime_fields fmt' s' x else None
           | [] => None
           end
  end.

(** The day of the week and of the year follow from the date that was read. *)
Definition set_xday (x : tm) : tm :=
  let y := tm_year x + 1900 in
  let days := days_from_civil y (tm_mon x + 1) (tm_mday x) in
  mkTm (tm_sec x) (tm_min x) (tm_hour x) (tm_mday x) (tm_mon x) (tm_year x)
    ((days + 4) mod 7) (days - days_from_civil y 1 1) (tm_isdst x).

(** The fields and the number of characters read, or [NULL]. *)
Definition strptime (s fmt : str) (g : tm) : option (tm * nat) :=
  '(x, rest) ← strptime_fields fmt (cstr s) g;
  Some (set_xday x, (length (cstr s) - length rest)%nat).

(** ** TimeUtil *)

Section TimeUtil.
Context {zone : Zone}.

(** [mktime]; the years [strptime] can read are all representable. *)
Definition mktime (x : tm) : Z := local_instant (tm_seconds x) (tm_isdst x).

Definition localtime (t : Z) : option tm :=
  x ← gmtime_r (t + utoff t);
  Some (mkTm (tm_sec x) (tm_min x) (tm_hour x) (tm_mday x) (tm_mon x) (tm_year x) (tm_wday x) (tm_yday x) (dst t)).

Definition timestamp_to_utc_time (timestamp : Z) : option str :=
  x ← gmtime_r timestamp;
  Some (strftime 128 kAipUtcTimeFormat x).

(** [init] run at the instant [now]: the value of
    [_s_utc_local_time_offset_in_seconds].  [None]
    is a [gmtime_r] or [strptime] that fails, after which the source goes on with
    an uninitialised structure. *)
Definition init (g : tm) (now : Z) : option Z :=
  match gmtime_r now with
  | Some utc_now_tm =>
      match strptime (strftime 128 kAipUtcTimeFormat utc_now_tm) kAipUtcTimeFormat g with
      | Some (local_now_tm, _) => Some (wrap_i32 (mktime local_now_tm - now))
      | None => None
      end
  | None => None
  end.

(** [now] and [now_ms] over what [time] and [gettimeofday] return. *)
Definition now (clock : Z) : Z := clock.
Definition now_ms (tv_sec tv_usec : Z) : Z := tv_sec * 1000 + tv_usec / 1000.

Definition now_utc_time (clock : Z) : option str := timestamp_to_utc_time (now clock).
Definition now_local_time (clock : Z) : option str :=
  x ← localtime (now clock); Some (strftime 128 kAipUtcTimeFormat x).
Definition now_local_datetime (clock : Z) : option str :=
  x ← localtime (now clock); Some (strftime 128 kAipUtcTimeAnoFormat x).

(** [offset] is [_s_utc_local_time_offset_in_seconds]. *)
Definition utc_time_to_timestamp (offset : Z) (g : tm) (utc_time : str) : Z :=
  match strptime utc_time kAipUtcTimeFormat g with
  | Some (result_tm, n) =>
      if bool_decide (n = kAipUtcTimeFormatLength) then mktime result_tm - offset else -1
  | None => -1
  end.

(** The result code and [*_tm]; the outer [option] is [gmtime_r]'s failure. *)
Definition utc_time_to_tm (offset : Z) (g : tm) (utc_time : str) : option (Z * tm) :=
  match strptime utc_time kAipUtcTimeFormat g with
  | Some (x, n) =>
      if bool_decide (n = kAipUtcTimeFormatLength) then
        x ← gmtime_r (mktime x - offset); Some (1, x)
      else Some (0, mkTm 0 0 0 0 0 0 0 0 0)
  | None => Some (0, mkTm 0 0 0 0 0 0 0 0 0)
  end.
End TimeUtil.

(** ** The calendar is the Gregorian one *)

Ltac calendar := zify; Z.div_mod_to_equations; lia.

(** Split a goal about [x], known to lie between 0 and 12, by its value. *)
Ltac each_value k n :=
  lazymatch n with
  | O => exfalso; lia
  | S ?n' => destruct k as [|k]; [try (exfalso; lia); simpl in *|each_value k n']
  end.
Ltac by_value x :=
  let k := fresh "k" in let E := fresh "E" in
  assert (exists i, (i <= 12)%nat /\ x = Z.of_nat i) as [k [E ->]] by (exists (Z.to_nat x); lia);
  each_value k 13%nat.

Lemma era_year doe :
  0 <= doe < 146097 ->
  let yoe := (doe - doe / 1460 + doe / 36524 - doe / 146096) / 365 in
  0 <= yoe <= 399 /\ 0 <= doe - (365 * yoe + yoe / 4 - yoe / 100) <= 365.
Proof. intros H. cbv zeta. calendar. Qed.

Lemma era_month doy :
  0 <= doy <= 365 ->
  let mp := (5 * doy + 2) / 153 in 0 <= mp <= 11 /\ 1 <= doy - (153 * mp + 2) / 5 + 1 <= 31.
Proof. intros H. cbv zeta. calendar. Qed.

(** What [civil_from_days] computes: the year of the era and the day of that
    year, which starts in March. *)
Lemma civil_spec z :
  exists Y doy, 0 <= doy <= 365
    /\ z = 365 * Y + Y / 4 - Y / 100 + Y / 400 + doy - 719468
    /\ (doy = 365 -> (Y + 1) mod 4 = 0 /\ ((Y + 1) mod 100 <> 0 \/ (Y + 1) mod 400 = 0))
    /\ let mp := (5 * doy + 2) / 153 in
       let m := if mp <? 10 then mp + 3 else mp - 9 in
       civil_from_days z = (Y + (if m <=? 2 then 1 else 0), m, doy - (153 * mp + 2) / 5 + 1).
Proof.
  unfold civil_from_days. pose proof (Z.mod_pos_bound (z + 719468) 146097 ltac:(lia)) as Hd.
  pose proof (Z.div_mod (z + 719468) 146097 ltac:(lia)) as Hz.
  set (doe := (z + 719468) mod 146097) in *. set (era := (z + 719468) / 146097) in *.
  pose proof (era_year doe Hd) as [Hy Hdoy]. cbv zeta in *.
  set (yoe := (doe - doe / 1460 + doe / 36524 - doe / 146096) / 365) in *.
  exists (yoe + era * 400), (doe - (365 * yoe + yoe / 4 - yoe / 100)). split; [done|].
  assert (E4 : (yoe + era * 400) / 4 = yoe / 4 + era * 100) by calendar.
  assert (E100 : (yoe + era * 400) / 100 = yoe / 100 + era * 4) by calendar.
  assert (E400 : (yoe + era * 400) / 400 = era) by calendar.
  split; [rewrite E4, E100, E400; lia|]. split; [|done].
  intros H365. clear E4 E100 E400 Hz. subst yoe. clearbody doe era. clear z. calendar.
Qed.

Lemma days_civil z :
  let '(y, m, d) := civil_from_days z in days_from_civil y m d = z.
Proof.
  destruct (civil_spec z) as (Y & doy & Hdoy & Hz & _ & E). cbv zeta in E.
  pose proof (era_month doy Hdoy) as [Hmp Hd]. cbv zeta in *. rewrite E. unfold days_from_civil.
  set (mp := (5 * doy + 2) / 153) in *. clearbody mp. clear E.
  destruct (Z.ltb_spec mp 10).
  - destruct (Z.leb_spec (mp + 3) 2); [lia|]. replace ((mp + 3 + 9) mod 12) with mp by calendar.
    rewrite Z.add_0_r. lia.
  - destruct (Z.leb_spec (mp - 9) 2); [|lia]. replace ((mp - 9 + 9) mod 12) with mp by calendar.
    replace (Y + 1 - 1) with Y by lia. lia.
Qed.

Lemma leap_spec y : leap y = true <-> y mod 4 = 0 /\ (y mod 100 <> 0 \/ y mod 400 = 0).
Proof. unfold leap. rewrite andb_true_iff, orb_true_iff, negb_true_iff, !Z.eqb_eq, Z.eqb_neq. done. Qed.

Lemma civil_valid z :
  let '(y, m, d) := civil_from_days z in 1 <= m <= 12 /\ 1 <= d <= days_in_month y m.
Proof.
  destruct (civil_spec z) as (Y & doy & Hdoy & _ & Hl & E). cbv zeta in E.
  pose proof (era_month doy Hdoy) as [Hmp Hd]. cbv zeta in *. rewrite E. clear E.
  rewrite <- leap_spec in Hl.
  set (mp := (5 * doy + 2) / 153) in *. assert (Hmp' : 153 * mp <= 5 * doy + 2 < 153 * mp + 153) by (subst mp; calendar).
  clearbody mp. unfold days_in_month.
  by_value mp; try calendar.
  destruct (leap (Y + 1)); [calendar|]. destruct (decide (doy = 365)) as [Hq|]; [by specialize (Hl Hq)|calendar].
Qed.

Lemma era_inverse yoe doy :
  0 <= yoe <= 399 -> 0 <= doy <= 365 -> (doy = 365 -> leap (yoe + 1) = true) ->
  let doe := 365 * yoe + yoe / 4 - yoe / 100 + doy in
  0 <= doe < 146097 /\ (doe - doe / 1460 + doe / 36524 - doe / 146096) / 365 = yoe.
Proof. intros Hy Hd Hl. rewrite leap_spec in Hl. cbv zeta. calendar. Qed.

(** The month of a day of the year that starts in March. *)
Lemma month_of_day mp d len :
  0 <= mp <= 11 -> 1 <= d <= len -> len <= (if mp =? 11 then 29 else if (mp =? 1) || (mp =? 3) || (mp =? 6) || (mp =? 8) then 30 else 31) ->
  let doy := (153 * mp + 2) / 5 + d - 1 in 0 <= doy <= 365 /\ (5 * doy + 2) / 153 = mp /\ (doy = 365 -> mp = 11 /\ d = 29).
Proof.
  intros Hmp Hd. cbv zeta.
  intros Hlen. by_value mp; calendar.
Qed.

Lemma leap_shift y k : leap (y + k * 400) = leap y.
Proof. apply eq_iff_eq_true. rewrite !leap_spec. calendar. Qed.

(** The day number determines the date. *)
Lemma civil_days y m d :
  1 <= m <= 12 -> 1 <= d <= days_in_month y m -> civil_from_days (days_from_civil y m d) = (y, m, d).
Proof.
  intros Hm Hd. set (Y := if m <=? 2 then y - 1 else y). set (mp := (m + 9) mod 12).
  assert (Hmp : 0 <= mp <= 11 /\ (m <= 2 -> mp = m + 9) /\ (2 < m -> mp = m - 3)) by (subst mp; calendar).
  destruct (month_of_day mp d (days_in_month y m)) as (Hdoy & Emp & Hlast); [tauto|done| |].
  { subst mp. clear - Hm. unfold days_in_month.
    by_value m; destruct (leap y); by vm_compute. }
  cbv zeta in *. set (doy := (153 * mp + 2) / 5 + d - 1) in *.
  destruct (era_inverse (Y mod 400) doy) as [Hdoe Eyoe]; [calendar|done| |].
  { intros H. destruct (Hlast H) as [H11 H29]. assert (Em : m = 2) by (clear - Hmp H11 Hm; lia).
    replace (Y mod 400 + 1) with (y + - (Y / 400) * 400) by (subst Y; rewrite Em; simpl; calendar).
    rewrite leap_shift. clear - Hd H29 Em. subst. unfold days_in_month in Hd. simpl in Hd. destruct (leap y); [done|lia]. }
  cbv zeta in *. set (doe := 365 * (Y mod 400) + Y mod 400 / 4 - Y mod 400 / 100 + doy) in *.
  assert (Ez : days_from_civil y m d + 719468 = Y / 400 * 146097 + doe).
  { unfold days_from_civil. fold Y mp. subst doe doy. clearbody Y mp. clear. calendar. }
  unfold civil_from_days. rewrite Ez.
  rewrite (Z.add_comm _ doe), Z.div_add, Z.mod_add, (Z.div_small doe), (Z.mod_small doe) by lia.
  rewrite Eyoe. replace (doe - (365 * (Y mod 400) + Y mod 400 / 4 - Y mod 400 / 100)) with doy by (subst doe; lia).
  rewrite Emp. assert (Em : (if mp <? 10 then mp + 3 else mp - 9) = m) by (clear - Hmp Hm; destruct (Z.ltb_spec mp 10); lia).
  rewrite Em. f_equal; [f_equal|subst doy; lia].
  subst Y. clear. destruct (Z.leb_spec m 2); calendar.
Qed.

(** ** Texts *)

Lemma pretty_digit n : (n < 10)%N -> pretty_N_char n = digit (Z.of_N n).
Proof.
  intros H. rewrite <- (N2Nat.id n). assert (Hk : (N.to_nat n < 10)%nat) by lia. revert Hk. generalize (N.to_nat n). intros k Hk.
  do 10 (destruct k as [|k]; [done|]). lia.
Qed.

Definition year_digits (y : Z) : str := [digit (y / 1000); digit (y / 100 mod 10); digit (y / 10 mod 10); digit (y mod 10)].

Lemma year_text y : 1000 <= y <= 9999 -> dec_string y = year_digits y.
Proof.
  intros Hy. destruct y as [|p|p]; [lia| |lia]. unfold dec_string, year_digits.
  change (pretty (Z.pos p)) with (pretty (N.pos p)). unfold pretty at 1, pretty_N. rewrite decide_False by done.
  set (n := N.pos p). assert (En : Z.of_N n = Z.pos p) by done. rewrite <- En in *. clearbody n. clear En p.
  do 4 (rewrite pretty_N_go_step by calendar).
  replace (((((n `div` 10) `div` 10) `div` 10) `div` 10)%N) with 0%N by calendar.
  rewrite pretty_N_go_0. rewrite !pretty_digit by (by apply N.mod_lt). rewrite !N2Z.inj_mod, !N2Z.inj_div, !Z.div_div by lia.
  by rewrite (Z.mod_small (Z.of_N n `div` (_ * (_ * _)))) by calendar.
Qed.

Lemma uchar_digit d : 0 <= d <= 9 -> uchar (digit d) = 48 + d.
Proof. intros H. unfold digit. rewrite uchar_chr, Z.mod_small; lia. Qed.

Lemma digit_is d : 0 <= d <= 9 -> is_digit (digit d) = true.
Proof.
  intros H. unfold is_digit, schar, isdigit. rewrite uchar_digit by done.
  destruct (Z.ltb_spec (48 + d) 128); [|lia]. apply andb_true_iff. rewrite !Z.leb_le. lia.
Qed.

Lemma digit_ne d c : 0 <= d <= 9 -> is_digit c = false -> Ascii.eqb c (digit d) = false.
Proof. intros Hd Hc. apply Ascii.eqb_neq. intros ->. by rewrite digit_is in Hc. Qed.

Lemma get_two from to v s :
  from <= v <= to -> 0 <= v <= 99 -> get_number from to 2 (two_digits v ++ s) = Some (v, s).
Proof.
  intros Hb Hv. unfold get_number, two_digits. cbn [drop_while app Nat.sub get_digits]. rewrite digit_ne by (done || calendar).
  rewrite !digit_is, !uchar_digit by calendar. replace (48 + v / 10 - 48) with (v / 10) by lia.
  destruct (Z.leb_spec (v / 10 * 10) to); [|calendar]. simpl.
  replace (v / 10 * 10 + (48 + v mod 10 - 48)) with v by calendar.
  destruct (Z.leb_spec from v), (Z.leb_spec v to); simpl; by (done || lia).
Qed.

Lemma get_year y s : 1000 <= y <= 9999 -> get_number 0 9999 4 (year_digits y ++ s) = Some (y, s).
Proof.
  intros Hy. unfold get_number, year_digits. cbn [drop_while app Nat.sub get_digits]. rewrite digit_ne by (done || calendar).
  rewrite !digit_is, !uchar_digit by calendar.
  destruct (Z.leb_spec ((48 + y / 1000 - 48) * 10) 9999); [|calendar]. simpl.
  destruct (Z.leb_spec (((48 + y / 1000 - 48) * 10 + (48 + y / 100 mod 10 - 48)) * 10) 9999); [|calendar]. simpl.
  destruct (Z.leb_spec ((((48 + y / 1000 - 48) * 10 + (48 + y / 100 mod 10 - 48)) * 10 + (48 + y / 10 mod 10 - 48)) * 10) 9999); [|calendar].
  simpl. match goal with |- context [0 <=? ?v] => replace v with y by calendar end.
  destruct (Z.leb_spec 0 y), (Z.leb_spec y 9999); simpl; by (done || lia).
Qed.

(** The text of a time with [k] blanks between the date and the time of day. *)
Definition spaced_text (k : nat) (x : tm) : str :=
  year_digits (tm_year x + 1900) ++ "-"%char :: two_digits (tm_mon x + 1) ++ "-"%char :: two_digits (tm_mday x)
  ++ replicate k " "%char ++ two_digits (tm_hour x) ++ ":"%char :: two_digits (tm_min x) ++ ":"%char :: two_digits (tm_sec x).

(** The fields are in the ranges the text can show. *)
Definition tm_ok (x : tm) : Prop :=
  1000 <= tm_year x + 1900 <= 9999 /\ 1 <= tm_mon x + 1 <= 12 /\ 1 <= tm_mday x <= 31
  /\ 0 <= tm_hour x <= 23 /\ 0 <= tm_min x <= 59 /\ 0 <= tm_sec x <= 59.

Lemma strftime_spaced x : tm_ok x -> strftime 128 kAipUtcTimeFormat x = spaced_text 1 x.
Proof.
  intros (Hy & _). unfold strftime, kAipUtcTimeFormat. simpl. unfold strftime_conv. simpl.
  rewrite year_text by done. by rewrite decide_True by (simpl; lia).
Qed.

Lemma cstr_clean s : Forall (fun c => Ascii.eqb c "000" = false) s -> cstr s = s.
Proof. induction 1 as [|c s Hc _ IH]; [done|]. unfold cstr in *. simpl. by rewrite Hc, IH. Qed.

Lemma spaced_clean k x : tm_ok x -> cstr (spaced_text k x) = spaced_text k x.
Proof.
  intros H. apply cstr_clean. unfold spaced_text, year_digits, two_digits. destruct H as (? & ? & ? & ? & ? & ?).
  assert (D : forall d, 0 <= d <= 9 -> Ascii.eqb (digit d) "000" = false)
    by (intros d Hd; rewrite Ascii.eqb_sym; by apply digit_ne).
  repeat first [apply Forall_cons_2; [first [done|apply D; calendar]|] | apply Forall_app_2 | apply Forall_nil_2].
  by apply Forall_replicate.
Qed.

Lemma fields_conv c from to n set fmt s v rest x :
  strptime_conv c = Some (from, to, n, set) -> get_number from to n s = Some (v, rest) ->
  strptime_fields ("%"%char :: c :: fmt) s x = strptime_fields fmt rest (set v x).
Proof. intros Hc Hn. simpl. by rewrite Hc; simpl; rewrite Hn. Qed.

Lemma fields_lit f fmt s x :
  Ascii.eqb f "%" = false -> is_space f = false -> strptime_fields (f :: fmt) (f :: s) x = strptime_fields fmt s x.
Proof. intros H1 H2. cbn [strptime_fields]. by rewrite H1, H2, Ascii.eqb_refl. Qed.

Lemma fields_blank k fmt v s x :
  0 <= v <= 99 ->
  strptime_fields (" "%char :: fmt) (replicate k " "%char ++ two_digits v ++ s) x = strptime_fields fmt (two_digits v ++ s) x.
Proof.
  intros Hv. cbn [strptime_fields]. change (is_space " ") with true. change (Ascii.eqb " " "%") with false.
  cbv iota. rewrite drop_while_app_Forall by (by apply Forall_replicate). unfold two_digits. cbn [drop_while app].
  rewrite (alnum_not_space (digit _)); [done|]. unfold is_alnum, isalnum. rewrite orb_true_iff. right. apply digit_is. calendar.
Qed.

(** [strptime] reads the text back whatever the number of blanks; what it does
    not set comes from the [struct tm] it was given. *)
Lemma strptime_spaced k x g :
  tm_ok x ->
  strptime (spaced_text k x) kAipUtcTimeFormat g =
  Some (set_xday (mkTm (tm_sec x) (tm_min x) (tm_hour x) (tm_mday x) (tm_mon x) (tm_year x) (tm_wday g) (tm_yday g) (tm_isdst g)),
        (18 + k)%nat).
Proof.
  intros H. unfold strptime. rewrite spaced_clean by done. destruct H as (Hy & Hm & Hd & Hh & Hi & Hs).
  assert (E : strptime_fields kAipUtcTimeFormat (spaced_text k x) g =
    Some (mkTm (tm_sec x) (tm_min x) (tm_hour x) (tm_mday x) (tm_mon x) (tm_year x) (tm_wday g) (tm_yday g) (tm_isdst g), [])).
  { unfold kAipUtcTimeFormat, spaced_text, lit. cbn [String.list_ascii_of_string].
    erewrite fields_conv by (reflexivity || by apply get_year). rewrite fields_lit by done.
    erewrite fields_conv by (reflexivity || apply get_two; lia). rewrite fields_lit by done.
    erewrite fields_conv by (reflexivity || apply get_two; lia). rewrite fields_blank by lia.
    erewrite fields_conv by (reflexivity || apply get_two; lia). rewrite fields_lit by done.
    erewrite fields_conv by (reflexivity || apply get_two; lia). rewrite fields_lit by done.
    rewrite <- (app_nil_r (two_digits (tm_sec x))). erewrite fields_conv by (reflexivity || apply get_two; lia).
    unfold set_sec, set_min, set_hour, set_mday, set_mon, set_year. simpl. do 3 f_equal; lia. }
  rewrite E. simpl. do 2 f_equal. unfold spaced_text, year_digits, two_digits.
  repeat (rewrite ?length_app, ?length_replicate; simpl). lia.
Qed.

(** ** Time stamps *)

(** 1000-01-01 00:00:00 and 9999-12-31 23:59:59: the years the text shows with
    four digits. *)
Definition first_text : Z := -30610224000.
Definition last_text : Z := 253402300799.

Lemma civil_year z : first_text / 86400 <= z <= last_text / 86400 -> 1000 <= fst (fst (civil_from_days z)) <= 9999.
Proof.
  intros Hz. destruct (civil_spec z) as (Y & doy & Hdoy & Ez & _ & E). cbv zeta in E. rewrite E. simpl. clear E.
  assert (Hm : (if (5 * doy + 2) / 153 <? 10 then (5 * doy + 2) / 153 + 3 else (5 * doy + 2) / 153 - 9) <= 2 <-> 306 <= doy).
  { destruct (Z.ltb_spec ((5 * doy + 2) / 153) 10); calendar. }
  revert Hm. generalize (if (5 * doy + 2) / 153 <? 10 then (5 * doy + 2) / 153 + 3 else (5 * doy + 2) / 153 - 9).
  intros m Hm. change (first_text / 86400) with (-354285) in Hz. change (last_text / 86400) with 2932896 in Hz.
  assert (Hlo : 999 <= Y) by calendar. assert (Hhi : Y <= 9999) by calendar.
  assert (H0 : Y = 999 -> 306 <= doy) by (intros ->; calendar).
  assert (H9 : Y = 9999 -> doy < 306) by (intros ->; calendar).
  destruct (Z.leb_spec m 2); lia.
Qed.

Lemma tm_of_ok i t : first_text <= t <= last_text -> tm_ok (tm_of_seconds i t).
Proof.
  intros Ht. pose proof (civil_year (t / 86400)) as Hy. pose proof (civil_valid (t / 86400)) as Hv.
  unfold tm_of_seconds. destruct (civil_from_days (t / 86400)) as [[y m] d]. simpl in Hy.
  destruct Hv as [Hm Hd]. assert (d <= 31).
  { unfold days_in_month in Hd. destruct (m =? 2), (leap y), ((m =? 4) || (m =? 6) || (m =? 9) || (m =? 11)); lia. }
  destruct Hy as [Hy1 Hy2]; [split; apply Z.div_le_mono; lia|].
  pose proof (Z.mod_pos_bound t 86400 ltac:(lia)). set (s := t mod 86400) in *. clearbody s.
  unfold tm_ok. simpl. clear Ht. repeat split; calendar.
Qed.

Lemma tm_seconds_of i t : tm_seconds (tm_of_seconds i t) = t.
Proof.
  unfold tm_seconds, tm_of_seconds. pose proof (days_civil (t / 86400)) as H.
  destruct (civil_from_days (t / 86400)) as [[y m] d]. simpl.
  replace (y - 1900 + 1900) with y by lia. replace (m - 1 + 1) with m by lia. rewrite H. clear. calendar.
Qed.

Lemma gmtime_ok t : first_text <= t <= last_text -> gmtime_r t = Some (tm_of_seconds 0 t).
Proof.
  intros Ht. destruct (tm_of_ok 0 t Ht) as (Hy & _). unfold gmtime_r.
  by destruct (Z.leb_spec int32_min (tm_year (tm_of_seconds 0 t))), (Z.leb_spec (tm_year (tm_of_seconds 0 t)) int32_max);
    unfold int32_min, int32_max in *; try lia.
Qed.

(** What [strptime] makes of the text of [t]: the calendar's fields, with the
    [tm_isdst] of the [struct tm] it was given. *)
Lemma strptime_of k g t :
  first_text <= t <= last_text ->
  strptime (spaced_text k (tm_of_seconds 0 t)) kAipUtcTimeFormat g = Some (tm_of_seconds (tm_isdst g) t, (18 + k)%nat).
Proof.
  intros Ht. rewrite strptime_spaced by (by apply tm_of_ok). do 2 f_equal. unfold set_xday, tm_of_seconds.
  pose proof (days_civil (t / 86400)) as H. destruct (civil_from_days (t / 86400)) as [[y m] d]. simpl.
  replace (y - 1900 + 1900) with y by lia. replace (m - 1 + 1) with m by lia. by rewrite H.
Qed.

Lemma utc_text t : first_text <= t <= last_text -> timestamp_to_utc_time t = Some (spaced_text 1 (tm_of_seconds 0 t)).
Proof. intros Ht. unfold timestamp_to_utc_time. rewrite gmtime_ok by done. simpl. by rewrite strftime_spaced by (by apply tm_of_ok). Qed.

Section Zones.
Context {zone : Zone}.

Lemma mktime_of i t : mktime (tm_of_seconds i t) = local_instant t i.
Proof. unfold mktime. by rewrite tm_seconds_of. Qed.

Lemma init_unfold g now x y n :
  gmtime_r now = Some x -> strptime (strftime 128 kAipUtcTimeFormat x) kAipUtcTimeFormat g = Some (y, n) ->
  init g now = Some (wrap_i32 (mktime y - now)).
Proof. intros H1 H2. unfold init. by rewrite H1, H2. Qed.

Lemma init_of g now :
  first_text <= now <= last_text -> init g now = Some (wrap_i32 (local_instant now (tm_isdst g) - now)).
Proof.
  intros H. assert (E : strptime (strftime 128 kAipUtcTimeFormat (tm_of_seconds 0 now)) kAipUtcTimeFormat g
    = Some (tm_of_seconds (tm_isdst g) now, 19%nat)).
  { rewrite (strftime_spaced _ (tm_of_ok 0 now H)). exact (strptime_of 1 g now H). }
  rewrite (init_unfold g now _ _ _ (gmtime_ok now H) E), mktime_of. done.
Qed.

Lemma read_of k off g t :
  first_text <= t <= last_text ->
  utc_time_to_timestamp off g (spaced_text k (tm_of_seconds 0 t)) =
    (if bool_decide (k = 2%nat) then local_instant t (tm_isdst g) - off else -1)
  /\ utc_time_to_tm off g (spaced_text k (tm_of_seconds 0 t)) =
    (if bool_decide (k = 2%nat) then x ← gmtime_r (local_instant t (tm_isdst g) - off); Some (1, x)
     else Some (0, mkTm 0 0 0 0 0 0 0 0 0)).
Proof.
  intros Ht. unfold utc_time_to_timestamp, utc_time_to_tm, kAipUtcTimeFormatLength. rewrite strptime_of, mktime_of by done.
  rewrite (bool_decide_ext ((18 + k)%nat = 20%nat) (k = 2%nat)) by lia. by case_bool_decide.
Qed.
End Zones.

(** ** Properties *)

(** C36: The UTC text loses nothing.  For every second of the years 1000 to 9999 the
    text has 19 characters, and reading it with the same format gives the calendar
    fields [gmtime_r] computed (with the [tm_isdst] of the caller's uninitialised
    [struct tm]), whose seconds are the time stamp; so two time stamps with one
    text are equal. *)
Theorem utc_text_lossless t g :
  first_text <= t <= last_text ->
  exists text, timestamp_to_utc_time t = Some text /\ length text = 19%nat
    /\ strptime text kAipUtcTimeFormat g = Some (tm_of_seconds (tm_isdst g) t, 19%nat)
    /\ tm_seconds (tm_of_seconds (tm_isdst g) t) = t
    /\ forall t', first_text <= t' <= last_text -> timestamp_to_utc_time t' = Some text -> t' = t.
Proof.
  intros Ht. exists (spaced_text 1 (tm_of_seconds 0 t)). rewrite utc_text by done. split; [done|]. split; [done|].
  split; [by apply strptime_of|]. split; [apply tm_seconds_of|].
  intros t' Ht'. rewrite utc_text by done. intros E%(inj Some).
  pose proof (strptime_of 1 g t' Ht') as P. rewrite E, strptime_of in P by done.
  apply (inj Some), (f_equal fst) in P. cbn [fst] in P.
  by rewrite <- (tm_seconds_of (tm_isdst g) t'), <- P, tm_seconds_of.
Qed.

Lemma utc_text_lossless_witness :
  exists text, timestamp_to_utc_time 951827696 = Some text /\ text = $"2000-02-29 12:34:56".
Proof.
  destruct (utc_text_lossless 951827696 (mkTm 0 0 0 0 0 0 0 0 7)) as (text & E & _); [unfold first_text, last_text; lia|].
  exists text. split; [exact E|]. vm_compute in E. by injection E as <-.
Defined.

(** C37: Reading UTC text.  When the zone reads the wall clock at start-up and the
    one of the text with the same offset, a text whose date and time are two blanks
    apart (20 characters, the length the code asks for) is read as its time stamp
    and as the fields of [gmtime_r]; every other number of blanks, the single one
    [timestamp_to_utc_time] writes included, is refused with [-1], or with 0 and
    cleared fields. *)
Theorem utc_text_read {zone : Zone} now t g0 g k :
  first_text <= now <= last_text -> first_text <= t <= last_text ->
  local_instant t (tm_isdst g) - t = local_instant now (tm_isdst g0) - now ->
  int32_min <= local_instant now (tm_isdst g0) - now <= int32_max ->
  exists off, init g0 now = Some off
    /\ utc_time_to_timestamp off g (spaced_text k (tm_of_seconds 0 t)) = (if bool_decide (k = 2%nat) then t else -1)
    /\ utc_time_to_tm off g (spaced_text k (tm_of_seconds 0 t)) =
         Some (if bool_decide (k = 2%nat) then (1, tm_of_seconds 0 t) else (0, mkTm 0 0 0 0 0 0 0 0 0)).
Proof.
  intros Hn Ht Ez Hoff. exists (local_instant now (tm_isdst g0) - now). rewrite init_of by done. split.
  { f_equal. unfold wrap_i32, int32_min, int32_max in *. rewrite Z.mod_small; lia. }
  destruct (read_of k (local_instant now (tm_isdst g0) - now) g t Ht) as [-> ->].
  replace (local_instant t (tm_isdst g) - (local_instant now (tm_isdst g0) - now)) with t by lia.
  case_bool_decide; [|done]. by rewrite gmtime_ok.
Qed.

Lemma leap_day_text : spaced_text 2 (tm_of_seconds 0 951827696) = $"2000-02-29  12:34:56".
Proof. by vm_compute. Qed.

Lemma utc_text_read_witness :
  exists off, @init (fixed_zone 28800) (mkTm 0 0 0 0 0 0 0 0 1) 1700000000 = Some off
    /\ @utc_time_to_timestamp (fixed_zone 28800) off (mkTm 1 2 3 4 5 6 7 8 0) $"2000-02-29  12:34:56" = 951827696.
Proof.
  destruct (@utc_text_read (fixed_zone 28800) 1700000000 951827696 (mkTm 0 0 0 0 0 0 0 0 1) (mkTm 1 2 3 4 5 6 7 8 0) 2)
    as (off & E & H & _); [unfold first_text, last_text; lia|unfold first_text, last_text; lia|simpl; lia|by vm_compute|].
  exists off. split; [exact E|]. rewrite <- leap_day_text. exact H.
Defined.

(** Every date of the calendar is the text of a time stamp: for fields in range,
    with the day within its month, the second they count prints as them. *)
Theorem every_date_printed x :
  tm_ok x -> tm_mday x <= days_in_month (tm_year x + 1900) (tm_mon x + 1) ->
  first_text <= tm_seconds x <= last_text /\ timestamp_to_utc_time (tm_seconds x) = Some (spaced_text 1 x).
Proof.
  intros Hok Hd. assert (Hb : first_text <= tm_seconds x <= last_text).
  { destruct Hok as (Hy & Hm & Hd' & Hh & Hi & Hs). unfold tm_seconds, first_text, last_text, days_from_civil. clear Hd.
    destruct (Z.leb_spec (tm_mon x + 1) 2); calendar. }
  split; [done|]. rewrite utc_text by done. f_equal. destruct Hok as (Hy & Hm & Hd' & Hh & Hi & Hs).
  assert (E1 : tm_seconds x / 86400 = days_from_civil (tm_year x + 1900) (tm_mon x + 1) (tm_mday x)) by (unfold tm_seconds; clear Hb; calendar).
  assert (E2 : tm_seconds x mod 86400 = tm_hour x * 3600 + tm_min x * 60 + tm_sec x) by (unfold tm_seconds; clear Hb E1; calendar).
  unfold tm_of_seconds. rewrite E1, E2, civil_days by lia. clear - Hh Hi Hs.
  set (s := tm_hour x * 3600 + tm_min x * 60 + tm_sec x).
  assert (F : s mod 60 = tm_sec x /\ s / 60 mod 60 = tm_min x /\ s / 3600 = tm_hour x) by (subst s; calendar).
  destruct F as (-> & -> & ->). unfold spaced_text. cbn [tm_sec tm_min tm_hour tm_mday tm_mon tm_year].
  replace (tm_year x + 1900 - 1900) with (tm_year x) by lia. replace (tm_mon x + 1 - 1) with (tm_mon x) by lia. done.
Qed.

(** [utc_time_to_timestamp] does not read what [timestamp_to_utc_time] writes: the
    format is 19 characters long, [kAipUtcTimeFormatLength] is 20. *)
Theorem own_text_rejected {zone : Zone} t off g :
  first_text <= t <= last_text ->
  exists text, timestamp_to_utc_time t = Some text /\ utc_time_to_timestamp off g text = -1.
Proof. intros Ht. eexists. split; [by apply utc_text|]. by destruct (read_of 1 off g t Ht) as [-> _]. Qed.

(** A zone one hour further east from the instant [cut] on, with [mktime] reading
    the wall clock of each side of it. *)
Definition summer_zone (cut : Z) : Zone :=
  {| utoff t := if t <? cut then 0 else 3600; dst t := if t <? cut then 0 else 1;
     local_instant l _ := if l <? cut then l else l - 3600 |}.

(** The offset is measured once: a process started in winter reads the text of a
    summer instant an hour early. *)
Theorem offset_not_updated :
  exists off, @init (summer_zone 1711846800) (mkTm 0 0 0 0 0 0 0 0 0) 1700000000 = Some off
    /\ @utc_time_to_timestamp (summer_zone 1711846800) off (mkTm 0 0 0 0 0 0 0 0 0)
         (spaced_text 2 (tm_of_seconds 0 1720000000)) = 1720000000 - 3600.
Proof. exists 0. split; by vm_compute. Qed.

(** ** aip_time.hpp: clocks in nanoseconds to seconds *)
Module Clock.

(** [struct timespec] and [struct timeval], as [clock_gettime] and
    [gettimeofday] fill them. *)
Record timespec := mkSpec { tv_sec : Z; tv_nsec : Z }.
Record timeval := mkVal { tv_sec_ : Z; tv_usec : Z }.

(** A 64-bit signed result: [None] is an overflow, which is undefined. *)
Definition i64 (z : Z) : option Z := if (int64_min <=? z) && (z <=? int64_max) then Some z else None.

Definition process_time_ns (now : timespec) : option Z := p ← i64 (tv_sec now * 1000000000); i64 (p + tv_nsec now).
Definition process_time_us (now : timespec) : option Z := p ← i64 (tv_sec now * 1000000); i64 (p + Z.quot (tv_nsec now) 1000).
Definition process_time_ms (now : timespec) : option Z := n ← process_time_ns now; Some (Z.quot n 1000000).
Definition process_time_s (now : timespec) : option Z := n ← process_time_ns now; Some (Z.quot n 1000000000).

Definition monotonic_time_ns (now : timespec) : option Z := p ← i64 (tv_sec now * 1000000000); i64 (p + tv_nsec now).
Definition monotonic_time_us (now : timespec) : option Z := n ← monotonic_time_ns now; Some (Z.quot n 1000).
Definition monotonic_time_ms (now : timespec) : option Z := n ← monotonic_time_ns now; Some (Z.quot n 1000000).
Definition monotonic_time_s (now : timespec) : option Z := n ← monotonic_time_ns now; Some (Z.quot n 1000000000).

Definition gettimeofday_us (now : timeval) : option Z := p ← i64 (tv_sec_ now * 1000000); i64 (p + tv_usec now).
Definition gettimeofday_ms (now : timeval) : option Z := p ← i64 (tv_sec_ now * 1000); i64 (p + Z.quot (tv_usec now) 1000).
Definition gettimeofday_s (now : timeval) : option Z := i64 (tv_sec_ now + Z.quot (tv_usec now) 1000000).

Lemma i64_spec z : i64 z = Some z /\ int64_min <= z <= int64_max \/ i64 z = None /\ ~ (int64_min <= z <= int64_max).
Proof. unfold i64. destruct (Z.leb_spec int64_min z), (Z.leb_spec z int64_max); simpl; [left|right..]; split; try done; lia. Qed.

Lemma i64_sum a b :
  0 <= a -> 0 <= b -> (p ← i64 a; i64 (p + b)) = if a + b <=? int64_max then Some (a + b) else None.
Proof.
  intros Ha Hb. assert (int64_min < 0) by done. destruct (i64_spec a) as [[-> ?]|[-> ?]]; simpl.
  - destruct (i64_spec (a + b)) as [[-> ?]|[-> ?]], (Z.leb_spec (a + b) int64_max); (done || lia).
  - destruct (Z.leb_spec (a + b) int64_max); (done || lia).
Qed.

(** A clock reading in nanoseconds is defined exactly up to 2^63 - 1
    nanoseconds, 292 years; then the coarser readings are the whole microseconds,
    milliseconds and seconds of the same instant, and [process_time_us], which
    does not go through nanoseconds, is defined later and agrees where both are. *)
Theorem clock_units now :
  0 <= tv_sec now -> 0 <= tv_nsec now < 1000000000 ->
  let n := tv_sec now * 1000000000 + tv_nsec now in
  (is_Some (process_time_ns now) <-> n <= int64_max)
  /\ (n <= int64_max ->
      process_time_ns now = Some n /\ process_time_us now = Some (n / 1000)
      /\ process_time_ms now = Some (n / 1000000) /\ process_time_s now = Some (tv_sec now)
      /\ monotonic_time_us now = process_time_us now /\ monotonic_time_ms now = process_time_ms now
      /\ monotonic_time_s now = process_time_s now).
Proof.
  intros Hs Hn n. assert (E : process_time_ns now = if n <=? int64_max then Some n else None).
  { unfold process_time_ns. rewrite i64_sum by lia. done. }
  split.
  - rewrite E. destruct (Z.leb_spec n int64_max); split; [done|eauto|by intros []|lia].
  - intros Hmax. destruct (Z.leb_spec n int64_max); [|lia].
    assert (Eu : process_time_us now = Some (n / 1000)).
    { unfold process_time_us. rewrite Z.quot_div_nonneg by lia. rewrite i64_sum; [|lia|apply Z.div_pos; lia].
      assert (Ed : tv_sec now * 1000000 + tv_nsec now / 1000 = n / 1000) by (subst n; clear; calendar).
      rewrite Ed. destruct (Z.leb_spec (n / 1000) int64_max); [done|]. pose proof (Z.div_le_upper_bound n 1000 n). lia. }
    assert (Es : n / 1000000000 = tv_sec now) by (subst n; clear - Hn; calendar).
    unfold monotonic_time_us, monotonic_time_ms, monotonic_time_s, process_time_ms, process_time_s.
    change (monotonic_time_ns now) with (process_time_ns now). rewrite E, Eu. simpl.
    rewrite !Z.quot_div_nonneg, Es by lia. done.
Qed.

Lemma clock_units_witness :
  process_time_us (mkSpec 9223372036 854775807) = Some 9223372036854775 /\ process_time_ns (mkSpec 9223372036 854775808) = None.
Proof.
  split; [|by vm_compute].
  destruct (clock_units (mkSpec 9223372036 854775807)) as [_ H]; [by vm_compute|by vm_compute|].
  destruct H as (_ & H & _); [by vm_compute|]. exact H.
Defined.
End Clock.
