(* ===== verification/Http.v ===== *)
(** * utils/src/http.cpp and utils/include/http.hpp

    HTTP messages, query strings, header parsing and the two clients.  libcurl
    is a parameter: a record of what each [curl_easy_perform] does through the
    registered callbacks (how much of the request body it reads, which header
    and body chunks it delivers, which code it returns) and of the HTTP code it
    reports.  The model keeps the request-body stream, the response object and
    the number of live curl handles, all of which outlive a failed attempt. *)

From S2P Require Import Prelude CLib StdMap StringUtil UriCodec.

Open Scope Z_scope.

(** ** Messages *)

Inductive HttpMethod :=
  METHOD_GET | METHOD_POST | METHOD_PUT | METHOD_DELETE | METHOD_PATCH | METHOD_HEAD | UNKNOWN.
#[export] Instance HttpMethod_eq_dec : EqDecision HttpMethod.
Proof. solve_decision. Defined.

Abbreviation HttpHeaders := (stdmap str).
Abbreviation HttpParams := (stdmap str).

Record HttpRequest := mkRequest {
  rq_headers : HttpHeaders; rq_body : str;
  host : str; port : Z; uri : str; method : HttpMethod; params : HttpParams }.

Record HttpResponse := mkResponse {
  rs_headers : HttpHeaders; rs_body : str; code : Z; status : str; str_headers : str }.

Definition new_request : HttpRequest := mkRequest [] [] $"localhost" 80 $"/" METHOD_GET [].
Definition new_response : HttpResponse := mkResponse [] [] 0 [] [].

Definition add_header (r : HttpRequest) (name value : str) : HttpRequest :=
  mkRequest (map_set name value (rq_headers r)) (rq_body r) (host r) (port r) (uri r) (method r) (params r).
Definition add_param (r : HttpRequest) (name value : str) : HttpRequest :=
  mkRequest (rq_headers r) (rq_body r) (host r) (port r) (uri r) (method r) (map_set name value (params r)).
Definition set_content_length (r : HttpRequest) (size : Z) : HttpRequest :=
  add_header r $"Content-Length" (dec_string size).
(** [set_content_length(body.size())]: the size is converted to [int]. *)
Definition set_body (r : HttpRequest) (body : str) : HttpRequest :=
  set_content_length
    (mkRequest (rq_headers r) body (host r) (port r) (uri r) (method r) (params r))
    (wrap_i32 (Z.of_nat (length body))).
Definition set_content_type_json (r : HttpRequest) : HttpRequest :=
  add_header r $"Content-Type" $"application/json; charset=utf-8".
Definition set_accept_json (r : HttpRequest) : HttpRequest := add_header r $"Accept" $"application/json".

Definition method_str (m : HttpMethod) : str :=
  match m with
  | METHOD_GET => $"GET" | METHOD_POST => $"POST" | METHOD_PUT => $"PUT" | METHOD_PATCH => $"PATCH"
  | METHOD_DELETE => $"DELETE" | METHOD_HEAD => $"HEAD" | UNKNOWN => $"UNKNOWN"
  end.

Definition str_to_method (s : str) : HttpMethod :=
  if bool_decide (s = $"GET") then METHOD_GET
  else if bool_decide (s = $"POST") then METHOD_POST
  else if bool_decide (s = $"PUT") then METHOD_PUT
  else if bool_decide (s = $"PATCH") then METHOD_PATCH
  else if bool_decide (s = $"DELETE") then METHOD_DELETE
  else if bool_decide (s = $"HEAD") then METHOD_HEAD
  else UNKNOWN.

(** ** Text *)

Definition param_text (kv : str * str) : str :=
  if is_empty kv.2 then kv.1 else kv.1 ++ $"=" ++ uri_encode kv.2 true.

Fixpoint join_params_loop (params : HttpParams) (joined : str) : str :=
  match params with
  | [] => joined
  | kv :: params' =>
      let joined := if bool_decide (joined = []) then joined else joined ++ $"&" in
      join_params_loop params' (joined ++ param_text kv)
  end.
Definition join_params (params : HttpParams) : str := join_params_loop params [].

(** [None]: an exception of [space_trim], excluded by [build_headers_total]. *)
Definition build_headers_from_str (s : str) : option HttpHeaders :=
  t ← space_trim s;
  let '(ret, headers) := split_map t "010"%char ":"%char [] true true in
  if ret <? 0 then Some []
  else Some (List.filter (fun kv => negb (contains kv.1 $"HTTP/1.1")) headers).

Definition crlf : str := ["013"; "010"]%char.

(** [str.substr(startpos, endpos)]: the second argument is a length; [npos] for
    the first is out of range, [npos] for the second is everything. *)
Definition get_statusline_from_str (s : str) : option str :=
  startpos ← find_str $"HTTP" s;
  t ← substr s startpos (match find_str crlf s with Some endpos => endpos | None => length s end);
  space_trim t.

(** ** libcurl *)

Inductive CURLcode :=
  CURLE_OK | CURLE_COULDNT_RESOLVE_HOST | CURLE_COULDNT_CONNECT | CURLE_SEND_ERROR
| CURLE_RECV_ERROR | CURLE_OTHER (n : Z).
#[export] Instance CURLcode_eq_dec : EqDecision CURLcode.
Proof. solve_decision. Defined.

(** One [curl_easy_perform]: the buffer sizes of its read callbacks, the header
    and body chunks it delivers, its result. *)
Record attempt := mkAttempt {
  at_reads : list nat; at_headers : list str; at_body : list str; at_code : CURLcode }.

Record curl_env := mkCurl {
  easy_init_ok : bool; perform : nat -> attempt; response_code : Z }.

(** The options set on the handle. *)
Record curl_opts := mkOpts {
  opt_url : str; opt_post : bool; opt_put : bool; opt_custom : option str;
  opt_headers : list str; opt_verify_ssl : bool }.

(** The callbacks. *)
Definition write_body (n : nat) (stream : str) : str * str := (take n stream, drop n stream).
Definition read_body (buffer response : str) : str := response ++ buffer.
Definition read_headers (buffer headers : str) : str := headers ++ buffer.

Fixpoint run_reads (ns : list nat) (stream sent : str) : str * str :=
  match ns with
  | [] => (sent, stream)
  | n :: ns' => let '(chunk, stream') := write_body n stream in run_reads ns' stream' (sent ++ chunk)
  end.

(** What one perform does to the stream and the response. *)
Definition run_attempt (a : attempt) (stream : str) (r : HttpResponse) : str * str * HttpResponse :=
  let '(sent, stream') := run_reads (at_reads a) stream [] in
  (sent, stream',
   mkResponse (rs_headers r) (fold_left (fun b c => read_body c b) (at_body a) (rs_body r))
     (code r) (status r) (fold_left (fun h c => read_headers c h) (at_headers a) (str_headers r))).

Inductive exn := out_of_range.
#[export] Instance exn_eq_dec : EqDecision exn.
Proof. solve_decision. Defined.

(** [response->set_headers(...); response->set_status(...)]. *)
Definition store_head (r : HttpResponse) : res exn unit * HttpResponse :=
  match build_headers_from_str (str_headers r) with
  | None => (Err out_of_range, r)
  | Some h =>
      let r := mkResponse h (rs_body r) (code r) (status r) (str_headers r) in
      match get_statusline_from_str (str_headers r) with
      | None => (Err out_of_range, r)
      | Some s => (Ok tt, mkResponse (rs_headers r) (rs_body r) (code r) s (str_headers r))
      end
  end.

(** What a client leaves behind: the returned value or exception, the response,
    the bytes sent by each attempt, the curl handles not cleaned up. *)
Record talk_result := mkTalk {
  t_ret : res exn Z; t_resp : HttpResponse; t_sent : list str; t_live : Z; t_opts : option curl_opts }.

Definition GENERAL_ERROR : Z := -1.
Definition COULDNT_RESOLVE_HOST : Z := -2.
Definition COULDNT_CONNECT : Z := -3.
Definition SEND_ERROR : Z := -4.
Definition RECV_ERROR : Z := -5.

Definition request_url (prefix : str) (rq : HttpRequest) : str :=
  let url := prefix ++ host rq ++ $":" ++ dec_string (port rq) ++ uri rq in
  if bool_decide (params rq = []) then url else url ++ $"?" ++ join_params (params rq).

(** The [switch (request.method())]: [None] is an early return, before any
    cleanup. *)
Definition method_opts (rq : HttpRequest) : option (bool * bool * option str) :=
  match method rq with
  | METHOD_POST => Some (true, false, None)
  | METHOD_PUT => Some (false, true, None)
  | METHOD_PATCH => None
  | METHOD_DELETE => Some (false, false, Some $"DELETE")
  | METHOD_HEAD => None
  | METHOD_GET => Some (false, false, None)
  | UNKNOWN => None
  end.

Definition header_lines (rq : HttpRequest) : list str := map (fun kv => kv.1 ++ $":" ++ kv.2) (rq_headers rq).

Definition make_opts (url : str) (rq : HttpRequest) (verify : bool) : option curl_opts :=
  match method_opts rq with
  | None => None
  | Some (post, put, custom) => Some (mkOpts url post put custom (header_lines rq) verify)
  end.

(** [for (int i = 0; i < 3; ++i)]: the last code, what was sent, the response. *)
Fixpoint perform_loop (env : curl_env) (n i : nat) (ret : CURLcode) (stream : str)
    (r : HttpResponse) (sent : list str) : res exn CURLcode * HttpResponse * list str :=
  match n with
  | O => (Ok ret, r, sent)
  | S n' =>
      let a := perform env i in
      let '(out, stream, r) := run_attempt a stream r in
      let sent := sent ++ [out] in
      if bool_decide (at_code a = CURLE_OK) then
        match store_head r with
        | (Ok _, r) => (Ok CURLE_OK, r, sent)
        | (Err e, r) => (Err e, r, sent)
        end
      else perform_loop env n' (S i) (at_code a) stream r sent
  end.

Definition error_code (c : CURLcode) : Z :=
  match c with
  | CURLE_COULDNT_RESOLVE_HOST => COULDNT_RESOLVE_HOST
  | CURLE_COULDNT_CONNECT => COULDNT_CONNECT
  | CURLE_SEND_ERROR => SEND_ERROR
  | CURLE_RECV_ERROR => RECV_ERROR
  | _ => GENERAL_ERROR
  end.

(** [HttpClient::talk]; [long http_code] is returned as [int]. *)
Definition talk (env : curl_env) (rq : HttpRequest) (r : HttpResponse) : talk_result :=
  let url := request_url [] rq in
  if negb (easy_init_ok env) then mkTalk (Ok GENERAL_ERROR) r [] 0 None
  else
    match make_opts url rq true with
    | None => mkTalk (Ok GENERAL_ERROR) r [] 1 None
    | Some o =>
        match perform_loop env 3 0 CURLE_OK (rq_body rq) r [] with
        | (Err e, r, sent) => mkTalk (Err e) r sent 1 (Some o)
        | (Ok c, r, sent) =>
            mkTalk (Ok (if bool_decide (c = CURLE_OK) then wrap_i32 (response_code env) else error_code c))
              r sent 0 (Some o)
        end
    end.

(** [HttpsClient::talk]: one attempt, no peer verification. *)
Definition https_talk (env : curl_env) (rq : HttpRequest) (r : HttpResponse) : talk_result :=
  let url := request_url $"https://" rq in
  if negb (easy_init_ok env) then mkTalk (Ok (-1)) r [] 0 None
  else
    match make_opts url rq false with
    | None => mkTalk (Ok (-1)) r [] 1 None
    | Some o =>
        let a := perform env 0 in
        let '(out, _, r) := run_attempt a (rq_body rq) r in
        if bool_decide (at_code a = CURLE_OK) then
          match store_head r with
          | (Ok _, r) => mkTalk (Ok (wrap_i32 (response_code env))) r [out] 0 (Some o)
          | (Err e, r) => mkTalk (Err e) r [out] 1 (Some o)
          end
        else mkTalk (Ok (-1)) r [out] 0 (Some o)
    end.

(** [HttpClient::global_init] and [global_cleanup]: the flag and the number of
    times curl was initialised minus cleaned up. *)
Definition global_init (st : Z * Z) : Z * Z :=
  let '(flag, live) := st in if flag =? 0 then (1, live + 1) else (flag, live).
Definition global_cleanup (st : Z * Z) : Z * Z :=
  let '(flag, live) := st in if flag =? 1 then (0, live - 1) else (flag, live).

(** ** Query strings *)

Lemma method_roundtrip m : str_to_method (method_str m) = m.
Proof. by destruct m. Qed.

Lemma join_params_loop_join ps joined :
  joined <> [] ->
  join_params_loop ps joined = join "&"%char (joined :: map param_text ps).
Proof.
  revert joined. induction ps as [|kv ps IH]; intros joined Hj; [done|]. cbn [join_params_loop map].
  rewrite bool_decide_eq_false_2 by done. rewrite IH by (by destruct joined).
  rewrite (join_cons _ joined) by done. destruct ps as [|kv' ps]; simpl.
  - by rewrite <- app_assoc.
  - by rewrite <- !app_assoc.
Qed.

Lemma param_text_ne kv : kv.1 <> [] -> param_text kv <> [].
Proof. unfold param_text. destruct (is_empty kv.2); [done|]. by destruct kv.1. Qed.

Lemma join_params_join ps :
  Forall (fun kv => kv.1 <> []) ps -> join_params ps = join "&"%char (map param_text ps).
Proof.
  unfold join_params. destruct 1 as [|kv ps Hk _]; [done|]. cbn [join_params_loop map].
  rewrite bool_decide_eq_true_2 by done. by apply join_params_loop_join, param_text_ne.
Qed.

(** Encoded text contains neither delimiter nor white space. *)
Lemma uri_encode_not_in s sl c : uri_char c = false -> c ∉ uri_encode s sl.
Proof.
  intros Hc Hin. pose proof (uri_encode_alphabet s sl) as H. rewrite forallb_forall in H.
  rewrite H in Hc; [done|]. by apply list_elem_of_In.
Qed.

Lemma uri_encode_trim s sl : trim (uri_encode s sl) = uri_encode s sl.
Proof.
  apply trim_id_iff.
  assert (H : forall c, c ∈ uri_encode s sl -> is_space c = false).
  { intros c Hc. destruct (is_space c) eqn:E; [|done]. exfalso. revert Hc. apply uri_encode_not_in.
    by_ascii c (fun c => implb (is_space c) (negb (uri_char c))). rewrite E in H. by apply negb_true_iff. }
  split; intros c Hc; apply H.
  - destruct (uri_encode s sl); simpl in Hc; simplify_eq. set_solver.
  - by apply last_Some_elem_of.
Qed.

(** A parameter name that cannot be confused with the query syntax (the source
    does not encode names). *)
Definition plain_key (k : str) : Prop :=
  k <> [] /\ "&"%char ∉ k /\ "="%char ∉ k /\ trim k = k /\ fits_int k.
Definition plain_param (kv : str * str) : Prop :=
  plain_key kv.1 /\ fits_int (uri_encode kv.2 true).

#[export] Instance plain_param_dec kv : Decision (plain_param kv).
Proof. unfold plain_param, plain_key. apply _. Defined.

Definition sent_param (kv : str * str) : str * str :=
  (kv.1, if is_empty kv.2 then [] else uri_encode kv.2 true).

Lemma split_line_param kv : plain_param kv -> split_line "="%char false (param_text kv) = Some (sent_param kv).
Proof.
  destruct kv as [k v]. intros [(Hne & _ & He & Ht & Hf) Hv]. simpl in *. unfold param_text, sent_param. simpl.
  unfold split_line. destruct (is_empty v).
  - rewrite split_vec_None by done. by rewrite space_trim_trim, Ht.
  - simpl. rewrite split_vec_cons by done. rewrite split_vec_None by (by apply uri_encode_not_in).
    rewrite (space_trim_trim k), Ht by done. simpl. by rewrite space_trim_trim, uri_encode_trim.
Qed.

Lemma param_text_no_amp kv : plain_param kv -> "&"%char ∉ param_text kv.
Proof.
  intros [(_ & Ha & _) _]. unfold param_text. destruct (is_empty kv.2); [done|].
  rewrite !not_elem_of_app. repeat split; [done|simpl; set_solver|by apply uri_encode_not_in].
Qed.

(** A query string splits back into the parameters in the map's order: each
    name with its percent-encoded value, a blank value as the empty string.
    Values may hold any bytes; names are not encoded by the source, hence the
    side condition on them. *)
Theorem join_params_read ps :
  ps <> [] -> map_sorted ps -> Forall plain_param ps ->
  split_map (join_params ps) "&"%char "="%char [] false true = (0, map sent_param ps).
Proof.
  intros Hne Hs Hp. rewrite join_params_join.
  2:{ eapply Forall_impl; [exact Hp|]. by intros kv [(H & _) _]. }
  unfold split_map. rewrite split_vec_join.
  - assert (Hl : forall m, split_map_loop "="%char false (map param_text ps) m =
        (0, fold_left (fun m kv => map_insert kv.1 kv.2 m) (map sent_param ps) m)).
    { clear Hs Hne. induction Hp as [|kv ps Hkv _ IH]; intros m; [done|]. cbn [map split_map_loop].
      rewrite split_line_param by done. simpl. apply IH. }
    rewrite Hl. f_equal. apply (map_insert_all []). unfold map_sorted in *. simpl.
    by rewrite map_map.
  - by destruct ps.
  - apply Forall_map. eapply Forall_impl; [exact Hp|]. apply param_text_no_amp.
Qed.

Lemma join_params_read_witness :
  join_params [($"k", $"a b"); ($"z", [])] = $"k=a%20b&z"
  /\ split_map $"k=a%20b&z" "&"%char "="%char [] false true = (0, [($"k", $"a%20b"); ($"z", [])]).
Proof.
  split; [reflexivity|].
  refine (join_params_read [($"k", $"a b"); ($"z", [])] _ _ _); [done|repeat constructor|].
  apply (bool_decide_unpack _). vm_compute. exact I.
Defined.

(** ** Header text *)

Lemma build_headers_total s : fits_int s -> is_Some (build_headers_from_str s).
Proof.
  intros H. unfold build_headers_from_str. rewrite space_trim_trim by done. simpl.
  destruct (split_map _ _ _ _ _ _) as [ret h]. destruct (ret <? 0); by eexists.
Qed.

(** Parsed headers never contain the status line: no name of the result
    contains [HTTP/1.1]. *)
Lemma build_headers_no_status s h :
  build_headers_from_str s = Some h -> Forall (fun kv => contains kv.1 $"HTTP/1.1" = false) h.
Proof.
  unfold build_headers_from_str. destruct (space_trim s) as [t|]; [|done]. simpl.
  destruct (split_map _ _ _ _ _ _) as [ret h']. destruct (ret <? 0); intros [= <-]; [constructor|].
  induction h' as [|kv h' IH]; simpl; [constructor|]. destruct (contains kv.1 _) eqn:E; simpl; auto.
Qed.

Lemma find_str_head p s r : s = p ++ r -> find_str p s = Some 0%nat.
Proof.
  intros Hs. assert (starts_with p s = true) as E by (apply starts_with_spec; by exists r).
  destruct s; cbn [find_str]; by rewrite E.
Qed.

(** The first CR LF of a text whose first line has no CR. *)
Lemma find_str_crlf line r :
  "013"%char ∉ line -> find_str crlf (line ++ crlf ++ r) = Some (length line).
Proof.
  induction line as [|c line IH]; intros H; [by apply (find_str_head _ _ r)|].
  apply not_elem_of_cons in H as [Hc H]. cbn [app find_str].
  destruct (starts_with crlf (c :: line ++ crlf ++ r)) eqn:E.
  - apply starts_with_spec in E as [r' E]. unfold crlf in E at 2. simpl in E. congruence.
  - rewrite IH by done. done.
Qed.

(** When the response head starts with the status line, the stored status is
    that line, trimmed. *)
Theorem statusline_first_line line rest :
  starts_with $"HTTP" line = true -> "013"%char ∉ line -> fits_int line ->
  get_statusline_from_str (line ++ crlf ++ rest) = Some (trim line).
Proof.
  intros Hs Hc Hf. unfold get_statusline_from_str. apply starts_with_spec in Hs as [l' Hl].
  rewrite (find_str_head $"HTTP" _ (l' ++ crlf ++ rest)) by (by rewrite Hl, <- app_assoc).
  rewrite find_str_crlf by done. 
  assert (substr (line ++ crlf ++ rest) 0 (length line) = Some line) as E.
  { unfold substr. rewrite bool_decide_eq_true_2 by lia. by rewrite drop_0, take_app_length. }
  cbn [mbind option_bind]. rewrite E. cbn [mbind option_bind]. by apply space_trim_trim.
Qed.

Lemma statusline_first_line_witness :
  get_statusline_from_str ($"HTTP/1.1 200 OK" ++ crlf ++ $"A: b") = Some $"HTTP/1.1 200 OK".
Proof.
  refine (statusline_first_line $"HTTP/1.1 200 OK" $"A: b" _ _ _); [reflexivity| |reflexivity].
  by apply (bool_decide_unpack _).
Defined.

(** The end position is used as a length: with text before the status line the
    result runs past the end of that line. *)
Example statusline_overrun :
  get_statusline_from_str ($"ab HTTP" ++ crlf ++ $"X") = Some ($"HTTP" ++ crlf ++ $"X").
Proof. reflexivity. Qed.

(** Without [HTTP] in the head, [substr(npos, ...)] throws. *)
Example statusline_throws : get_statusline_from_str $"nothing" = None.
Proof. reflexivity. Qed.

(** ** Retries *)

Lemma run_reads_split ns stream sent out stream' :
  run_reads ns stream sent = (out, stream') -> out ++ stream' = sent ++ stream.
Proof.
  revert stream sent. induction ns as [|n ns IH]; intros stream sent; simpl; [by intros [= <- <-]|].
  intros H. rewrite (IH _ _ H), <- app_assoc. by rewrite take_drop.
Qed.

Lemma fold_append cs b : fold_left (fun b c => read_body c b) cs b = b ++ concat cs.
Proof.
  revert b. induction cs as [|c cs IH]; intros b; simpl; [by rewrite app_nil_r|].
  rewrite IH. unfold read_body. by rewrite app_assoc.
Qed.

Lemma store_head_body r x r' : store_head r = (x, r') -> rs_body r' = rs_body r.
Proof. unfold store_head. repeat case_match; intros; by simplify_eq. Qed.

(** Everything the attempts [0..k-1] delivered. *)
Definition delivered (env : curl_env) (i k : nat) : str :=
  concat (map (fun j => concat (at_body (perform env j))) (List.seq i k)).

Lemma perform_loop_spec env n i ret stream r sent x r' sent' :
  perform_loop env n i ret stream r sent = (x, r', sent') ->
  exists k rest, (k <= n)%nat /\ length sent' = (length sent + k)%nat
  /\ rs_body r' = rs_body r ++ delivered env i k
  /\ concat sent' ++ rest = concat sent ++ stream
  /\ (forall j, (i <= j)%nat -> (j + 1 < i + k)%nat -> at_code (perform env j) <> CURLE_OK)
  /\ ((0 < k)%nat /\ at_code (perform env (i + k - 1)) = CURLE_OK /\ (x = Ok CURLE_OK \/ x = Err out_of_range)
      \/ k = n /\ x = Ok (if bool_decide (k = 0)%nat then ret else at_code (perform env (i + k - 1)))
         /\ (forall j, (i <= j)%nat -> (j < i + k)%nat -> at_code (perform env j) <> CURLE_OK)).
Proof.
  revert i ret stream r sent. induction n as [|n IH]; intros i ret stream r sent; cbn [perform_loop].
  { intros [= <- <- <-]. exists 0%nat, stream. unfold delivered. simpl.
    rewrite app_nil_r. repeat split; try lia. right. repeat split; lia. }
  destruct (run_attempt (perform env i) stream r) as [[out stream1] r1] eqn:Ea.
  assert (Hb : rs_body r1 = rs_body r ++ concat (at_body (perform env i)) /\ out ++ stream1 = stream).
  { unfold run_attempt in Ea. destruct (run_reads _ _ _) as [o s1] eqn:Er. simplify_eq. simpl.
    apply run_reads_split in Er. by rewrite fold_append. }
  destruct Hb as [Hb Hst].
  assert (Hc : concat (sent ++ [out]) = concat sent ++ out) by (by rewrite concat_app; simpl; rewrite app_nil_r).
  case_bool_decide as Ek.
  - destruct (store_head r1) as [y r2] eqn:Es. pose proof (store_head_body _ _ _ Es) as Hsb.
    assert (HH : match (y, r2) with (Ok _, r) => (Ok CURLE_OK, r, sent ++ [out])
                 | (Err e, r) => (Err e, r, sent ++ [out]) end = (x, r', sent') ->
       r' = r2 /\ sent' = sent ++ [out] /\ (x = Ok CURLE_OK \/ x = Err out_of_range)).
    { destruct y as [|[]]; intros; simplify_eq; auto. }
    intros H'. apply HH in H' as (-> & -> & Hx). exists 1%nat, stream1.
    rewrite Hsb, Hb, Hc, length_app. unfold delivered. simpl. rewrite app_nil_r, <- app_assoc, Hst.
    repeat split; try lia. left. replace (i + 1 - 1)%nat with i by lia. auto with lia.
  - intros (k & rest & Hk & Hl & Hbody & Hsent & Hfail & Hend)%IH. exists (S k), rest.
    rewrite Hbody, Hb, Hsent, Hc, Hl, length_app, <- !app_assoc, Hst. simpl length.
    replace (delivered env i (S k)) with (concat (at_body (perform env i)) ++ delivered env (S i) k) by done.
    repeat split; try lia.
    + intros j Hj1 Hj2. destruct (decide (j = i)) as [->|]; [done|]. apply Hfail; lia.
    + destruct Hend as [(Hk0 & Hok & Hx)|(-> & Hx & Hall)].
      * left. split; [lia|]. split; [|done]. by replace (i + S k - 1)%nat with (S i + k - 1)%nat by lia.
      * right. split; [done|]. split.
        { rewrite Hx. f_equal. rewrite (bool_decide_eq_false_2 (S n = 0)%nat) by lia.
          case_bool_decide; [subst; by replace (i + 1 - 1)%nat with i by lia|].
          by replace (i + S n - 1)%nat with (S i + n - 1)%nat by lia. }
        intros j Hj1 Hj2. destruct (decide (j = i)) as [->|]; [done|]. apply Hall; lia.
Qed.


(** A first attempt that reads the whole body and fails, a second that succeeds. *)
Definition flaky : curl_env := mkCurl true
  (fun i => match i with
            | O => mkAttempt [16]%nat [] [$"par"] CURLE_RECV_ERROR
            | _ => mkAttempt [16]%nat [$"HTTP/1.1 200 OK" ++ crlf] [$"full"] CURLE_OK
            end) 200.
Definition post_hello : HttpRequest := mkRequest [] $"hello" $"h" 80 $"/" METHOD_POST [].


(** The curl handle is released exactly when [talk] returns a value after
    performing: an unsupported method returns before the cleanup and leaks the
    handle, and so does an exception of the header parsing. *)
Theorem talk_handle_released env rq r :
  t_live (talk env rq r) = 0 <->
  easy_init_ok env = false
  \/ (method rq ∉ [METHOD_PATCH; METHOD_HEAD; UNKNOWN] /\ is_ok (t_ret (talk env rq r)) = true).
Proof.
  unfold talk. destruct (easy_init_ok env); cbn [negb]; [|simpl; tauto].
  unfold make_opts, method_opts.
  destruct (perform_loop env 3 0 CURLE_OK (rq_body rq) r []) as [[x r'] sent'].
  destruct (method rq) eqn:Em; destruct x; simpl; rewrite ?list_elem_of_In; simpl; intuition (discriminate || lia).
Qed.
