(* ===== verification/Sync.v ===== *)
(** * utils/src/{semaphore,event,critsec,aip_sleeper}.cpp

    The pthread-based synchronisation objects.  Each method body runs with the
    object's mutex held, so it is atomic up to the point where it blocks in
    [pthread_cond_wait]; a blocked thread holds nothing and is woken by a signal,
    a timeout or spuriously.  The models are transition functions on the shared
    state and the threads' program counters; [None] means that the event is not
    possible in the state (or that [int] overflows). *)

From S2P Require Import Prelude CLib.

Open Scope Z_scope.

(** C integer division and remainder truncate toward zero. *)
Abbreviation cdiv := Z.quot.
Abbreviation crem := Z.rem.

(** An absolute deadline. *)
Record timespec := mkTs { tv_sec : Z; tv_nsec : Z }.

Definition ts_ns (t : timespec) : Z := tv_sec t * 10 ^ 9 + tv_nsec t.
Definition ts_valid (t : timespec) : Prop := 0 <= tv_nsec t < 10 ^ 9.

(** The deadline [CSemaphore::wait] and [CEvent::wait] compute: the clock is
    [time(NULL)], whole seconds. *)
Definition wait_deadline (now_s time_out : Z) : timespec :=
  mkTs (now_s + cdiv time_out 1000) (crem time_out 1000 * 1000000).

(** A thread inside [wait]. *)
Inductive pc := Outside | Blocked (timed : bool).
#[export] Instance pc_eq_dec : EqDecision pc.
Proof. solve_decision. Defined.

(** What an event returned to its caller. *)
Inductive outcome := Silent | Returns (z : Z).
#[export] Instance outcome_eq_dec : EqDecision outcome.
Proof. solve_decision. Defined.

(** Executions of a transition function, with the outcomes of their events. *)
Section Runs.
Context {S E : Type} (step : S -> E -> option (S * outcome)).

Inductive run : S -> list (E * outcome) -> S -> Prop :=
| run_nil s : run s [] s
| run_snoc s tr s1 e s2 o : run s tr s1 -> step s1 e = Some (s2, o) -> run s (tr ++ [(e, o)]) s2.

Fixpoint exec (s : S) (es : list E) : option (S * list (E * outcome)) :=
  match es with
  | [] => Some (s, [])
  | e :: es' => '(s1, o) ← step s e; '(s2, tr) ← exec s1 es'; Some (s2, (e, o) :: tr)
  end.

Lemma run_cons s e s1 o tr s2 : step s e = Some (s1, o) -> run s1 tr s2 -> run s ((e, o) :: tr) s2.
Proof.
  intros He Hr. induction Hr as [s1|s1 tr s2 e2 s3 o2 Hr IH Hs]; [apply (run_snoc s [] s); [constructor|done]|].
  change ((e, o) :: tr ++ [(e2, o2)]) with (((e, o) :: tr) ++ [(e2, o2)]).
  by eapply run_snoc; [apply IH|].
Qed.

Lemma exec_run s es s' tr : exec s es = Some (s', tr) -> run s tr s'.
Proof.
  revert s s' tr. induction es as [|e es IH]; intros s s' tr; simpl; [intros; simplify_eq; constructor|].
  destruct (step s e) as [[s1 o]|] eqn:E1; simpl; [|done].
  destruct (exec s1 es) as [[s2 tr2]|] eqn:E2; simpl; [|done]. intros. simplify_eq.
  eapply run_cons; eauto.
Qed.
End Runs.

(** The number of waits that returned 1, and of events of a kind. *)
Definition count_if {A} (p : A -> bool) (l : list A) : Z := Z.of_nat (length (List.filter p l)).

Lemma count_if_snoc {A} (p : A -> bool) l x : count_if p (l ++ [x]) = count_if p l + (if p x then 1 else 0).
Proof. unfold count_if. rewrite List.filter_app, length_app. simpl. destruct (p x); simpl; lia. Qed.

Lemma count_if_nonneg {A} (p : A -> bool) l : 0 <= count_if p l.
Proof. unfold count_if. lia. Qed.

(** ** CSemaphore *)
Module CSemaphore.

Record sem := mkSem { _count : Z; _max_count : Z; threads : list pc }.

Definition init (l_init_count max_count : Z) (n : nat) : sem :=
  mkSem (wrap_i32 l_init_count) (wrap_i32 max_count) (repeat Outside n).

Inductive event := Signal (t : nat) | Wait (t : nat) (time_out : Z) | Wake (t : nat).

Definition step (s : sem) (e : event) : option (sem * outcome) :=
  match e with
  | Signal t =>
      match threads s !! t with
      | Some Outside =>
          if _count s =? int32_max then None
          else Some (mkSem (_count s + 1) (_max_count s) (threads s), Returns (_count s + 1))
      | _ => None
      end
  | Wait t time_out =>
      match threads s !! t with
      | Some Outside =>
          if 0 <? _count s then Some (mkSem (_count s - 1) (_max_count s) (threads s), Returns 1)
          else Some (mkSem (_count s) (_max_count s) (<[t := Blocked (0 <=? time_out)]> (threads s)), Silent)
      | _ => None
      end
  | Wake t =>
      match threads s !! t with
      | Some (Blocked _) =>
          let th := <[t := Outside]> (threads s) in
          if 0 <? _count s then Some (mkSem (_count s - 1) (_max_count s) th, Returns 1)
          else Some (mkSem (_count s) (_max_count s) th, Returns 0)
      | _ => None
      end
  end.

Definition is_signal (x : event * outcome) : bool := match x.1 with Signal _ => true | _ => false end.
Definition is_grant (x : event * outcome) : bool :=
  match x with (Signal _, _) => false | (_, Returns 1) => true | _ => false end.

(** The semaphore neither loses nor invents permits: in every execution,
    with any interleaving of threads, timeouts and spurious wake-ups, the count
    is the initial count plus the signals minus the waits that returned 1, and
    it is never negative. *)
Theorem permits_conserved c m n tr s :
  0 <= c <= int32_max -> run step (init c m n) tr s ->
  _count s = c + count_if is_signal tr - count_if is_grant tr /\ 0 <= _count s <= int32_max.
Proof.
  intros Hc Hr. remember (init c m n) as s0 eqn:E0. induction Hr as [s|s tr s1 e s2 o Hr IH Hs].
  { subst. unfold init, count_if. simpl. rewrite wrap_i32_id by (unfold int32_min, int32_max in *; lia). lia. }
  specialize (IH E0) as [IHc IHp]. rewrite !count_if_snoc. unfold step in Hs.
  destruct e as [t|t to|t]; destruct (threads s1 !! t) as [[|b]|]; try done.
  - destruct (Z.eqb_spec (_count s1) int32_max); simplify_eq. simpl. lia.
  - destruct (Z.ltb_spec 0 (_count s1)); simplify_eq; simpl; lia.
  - destruct (Z.ltb_spec 0 (_count s1)); simplify_eq; simpl; lia.
Qed.

(** Two signals for a semaphore declared with a maximum of 1. *)
Definition over_max : option (sem * list (event * outcome)) :=
  exec step (init 0 1 1) [Signal 0; Signal 0].

Lemma permits_conserved_witness :
  exists s tr, over_max = Some (s, tr) /\ _count s = 2 /\ _max_count s = 1.
Proof.
  eexists _, _. split; [vm_compute; reflexivity|]. split; [|reflexivity].
  refine (proj1 (permits_conserved 0 1 1 _ _ _ (exec_run _ _ _ _ _ (eq_refl : over_max = Some _)))).
  unfold int32_max. lia.
Defined.

(** The maximum given to the constructor is not enforced by [signal]: every
    count up to [INT_MAX] is reachable, whatever the maximum. *)
Theorem max_not_enforced m k :
  Z.of_nat k <= int32_max ->
  exists tr s, run step (init 0 m 1) tr s /\ _count s = Z.of_nat k.
Proof.
  intros Hk.
  assert (H : exists tr, run step (init 0 m 1) tr (mkSem (Z.of_nat k) (wrap_i32 m) [Outside])).
  { induction k as [|k IH]; [exists []; constructor|]. destruct IH as [tr Hr]; [lia|].
    exists (tr ++ [(Signal 0, Returns (Z.of_nat (S k)))]). econstructor; [exact Hr|]. unfold step. simpl.
    destruct (Z.eqb_spec (Z.of_nat k) int32_max); [lia|]. by replace (Z.of_nat k + 1) with (Z.of_nat (S k)) by lia. }
  destruct H as [tr Hr]. eauto.
Qed.

Lemma max_not_enforced_witness :
  exists tr s, run step (init 0 1 1) tr s /\ _count s = 5.
Proof. apply (max_not_enforced 1 5). unfold int32_max. lia. Defined.
End CSemaphore.

(** ** CEvent *)
Module CEvent.

Record ev := mkEv { _setted : bool; _manual : bool; threads : list pc }.

Definition init (initially_own manual_reset : bool) (n : nat) : ev :=
  mkEv initially_own manual_reset (repeat Outside n).

Inductive event := Set_event (t : nat) | Reset_event (t : nat) | Wait (t : nat) (time_out : Z) | Wake (t : nat).

(** [if (!_manual) _setted = false]. *)
Definition consume (s : ev) (th : list pc) : ev :=
  mkEv (if _manual s then _setted s else false) (_manual s) th.

Definition step (s : ev) (e : event) : option (ev * outcome) :=
  match e with
  | Set_event t =>
      match threads s !! t with
      | Some Outside => Some (mkEv true (_manual s) (threads s), Silent)
      | _ => None
      end
  | Reset_event t =>
      match threads s !! t with
      | Some Outside => Some (mkEv false (_manual s) (threads s), Silent)
      | _ => None
      end
  | Wait t time_out =>
      match threads s !! t with
      | Some Outside =>
          if _setted s then Some (consume s (threads s), Returns 1)
          else Some (mkEv (_setted s) (_manual s) (<[t := Blocked (0 <=? time_out)]> (threads s)), Silent)
      | _ => None
      end
  | Wake t =>
      match threads s !! t with
      | Some (Blocked _) =>
          let th := <[t := Outside]> (threads s) in
          if _setted s then Some (consume s th, Returns 1)
          else Some (mkEv (_setted s) (_manual s) th, Returns 0)
      | _ => None
      end
  end.

Definition is_set (x : event * outcome) : bool := match x.1 with Set_event _ => true | _ => false end.
Definition is_reset (x : event * outcome) : bool := match x.1 with Reset_event _ => true | _ => false end.
Definition is_grant (x : event * outcome) : bool := match x.2 with Returns 1 => true | _ => false end.

Definition b2z (b : bool) : Z := if b then 1 else 0.

(** An auto-reset event releases at most one waiter per [set_event], under
    every interleaving: the waits that returned 1, plus one if the event is
    still set, never exceed the initial state plus the sets. *)
Theorem auto_reset_releases_one own n tr s :
  run step (init own false n) tr s ->
  count_if is_grant tr + b2z (_setted s) <= b2z own + count_if is_set tr.
Proof.
  intros Hr. remember (init own false n) as s0 eqn:E0.
  assert (Hm : _manual s0 = false) by (by subst).
  enough (H : _manual s = false /\ count_if is_grant tr + b2z (_setted s) <= b2z own + count_if is_set tr) by tauto.
  induction Hr as [s|s tr s1 e s2 o Hr IH Hs]; [subst; unfold count_if; simpl; split; [done|lia]|].
  specialize (IH E0 Hm) as [IHm IHc]. rewrite !count_if_snoc. unfold step, consume in Hs.
  destruct e as [t|t|t to|t]; destruct (CEvent.threads s1 !! t) as [[|b]|]; try done;
    destruct (_setted s1); rewrite ?IHm in Hs; simplify_eq; simpl in *; split; try done; lia.
Qed.

Lemma auto_reset_releases_one_witness :
  exists s tr, exec step (init false false 2) [Wait 0 (-1); Wait 1 (-1); Set_event 0] = None
    /\ exec step (init false false 3) [Wait 0 (-1); Wait 1 (-1); Set_event 2; Wake 0; Wake 1] = Some (s, tr)
    /\ count_if is_grant tr + b2z (_setted s) <= 1.
Proof.
  eexists _, _. split; [reflexivity|]. split; [vm_compute; reflexivity|].
  refine (auto_reset_releases_one false 3 _ _ (exec_run _ _ [Wait 0 (-1); Wait 1 (-1); Set_event 2; Wake 0; Wake 1] _ _ _)).
  vm_compute; reflexivity.
Defined.

(** A manual-reset event that is set lets every waiter through until it is
    reset: no wait changes it. *)
Lemma manual_reset_stays s e s' o :
  _manual s = true -> _setted s = true -> step s e = Some (s', o) ->
  (forall t, e <> Reset_event t) ->
  _setted s' = true /\ _manual s' = true /\ (forall t to, e = Wait t to \/ e = Wake t -> o = Returns 1).
Proof.
  intros Hm Hs Hst He. unfold step, consume in Hst. destruct e as [t|t|t to|t];
    destruct (threads s !! t) as [[|b]|]; try done; rewrite ?Hm, ?Hs in Hst; simplify_eq; simpl;
    try (by destruct (He t)); repeat split; try done; intros ? ? [?|?]; done.
Qed.
End CEvent.

(** ** CCritSec::timewait *)
Module CCritSec.

(** [nsec] is an [int]; [now] is the [gettimeofday] clock. *)
Definition timewait_deadline (now_sec now_usec timeout_ms : Z) : timespec :=
  let nsec := wrap_i32 (now_usec * 1000 + crem timeout_ms 1000 * 1000000) in
  mkTs (now_sec + cdiv nsec 1000000000 + cdiv timeout_ms 1000) (crem nsec 1000000000).
End CCritSec.

Lemma quot_rem_split a b : 0 < b -> a = b * cdiv a b + crem a b.
Proof. intros. pose proof (Z.quot_rem' a b). lia. Qed.

(** The deadline of [CCritSec::timewait] is exact: for every non-negative
    [int] timeout the nanosecond sum fits an [int], the timespec is normalised,
    and it lies exactly [timeout_ms] after the current time. *)
Theorem timewait_exact sec usec timeout_ms :
  0 <= usec < 1000000 -> 0 <= timeout_ms <= int32_max ->
  let d := CCritSec.timewait_deadline sec usec timeout_ms in
  ts_valid d /\ ts_ns d = sec * 10 ^ 9 + usec * 1000 + timeout_ms * 1000000.
Proof.
  intros Hu Ht. unfold CCritSec.timewait_deadline, ts_valid, ts_ns. cbv zeta. simpl tv_sec. simpl tv_nsec.
  pose proof (quot_rem_split timeout_ms 1000 ltac:(lia)) as E1.
  pose proof (Z.rem_bound_pos timeout_ms 1000 ltac:(lia) ltac:(lia)) as B1.
  set (nsec := usec * 1000 + crem timeout_ms 1000 * 1000000) in *.
  assert (Hn : 0 <= nsec < 2000000000) by lia.
  rewrite wrap_i32_id by (unfold int32_min, int32_max; lia).
  pose proof (quot_rem_split nsec 1000000000 ltac:(lia)) as E2.
  pose proof (Z.rem_bound_pos nsec 1000000000 ltac:(lia) ltac:(lia)) as B2.
  split; lia.
Qed.

Lemma timewait_exact_witness :
  ts_ns (CCritSec.timewait_deadline 10 999999 1500) = 12499999000.
Proof. refine (proj2 (timewait_exact 10 999999 1500 _ _)); unfold int32_max; lia. Defined.

(** The deadline of [CSemaphore::wait] and [CEvent::wait] is taken from a
    clock of whole seconds: it is a valid timespec, but earlier than asked for
    by the elapsed part of the current second, so a timeout below one second
    can expire before the wait starts. *)
Theorem wait_deadline_early now_ms time_out :
  0 <= now_ms -> 0 <= time_out ->
  let d := wait_deadline (now_ms / 1000) time_out in
  ts_valid d /\ ts_ns d = (now_ms + time_out - now_ms mod 1000) * 1000000.
Proof.
  intros Hn Ht. unfold wait_deadline, ts_valid, ts_ns. simpl.
  pose proof (quot_rem_split time_out 1000 ltac:(lia)).
  pose proof (Z.rem_bound_pos time_out 1000 ltac:(lia) ltac:(lia)).
  pose proof (Z.div_mod now_ms 1000 ltac:(lia)). split; lia.
Qed.

Lemma wait_deadline_early_witness :
  ts_ns (wait_deadline (1700 / 1000) 500) = 1500 * 1000000.
Proof. refine (proj2 (wait_deadline_early 1700 500 _ _)); lia. Defined.

(** ** Sleeper *)
Module Sleeper.

(** [int64_t] multiplication; [None] is signed overflow. *)
Definition mul_i64 (a b : Z) : option Z :=
  if bool_decide (int64_min <= a * b <= int64_max) then Some (a * b) else None.

(** The timespec handed to [nanosleep], or the error return -1. *)
Definition _sleep (n_seconds : Z) : res Z timespec :=
  if n_seconds <? 0 then Err (-1)
  else Ok (mkTs (cdiv n_seconds 1000000000) (crem n_seconds 1000000000)).

Definition sleep_s (seconds : Z) : res Z timespec :=
  if seconds <? 0 then Err (-1) else Ok (mkTs seconds 0).
Definition sleep_ms (m_seconds : Z) : option (res Z timespec) :=
  a ← mul_i64 m_seconds 1000; b ← mul_i64 a 1000; Some (_sleep b).
Definition sleep_us (u_seconds : Z) : option (res Z timespec) :=
  a ← mul_i64 u_seconds 1000; Some (_sleep a).
Definition sleep_ns (n_seconds : Z) : res Z timespec := _sleep n_seconds.

Lemma _sleep_exact n t : _sleep n = Ok t -> ts_valid t /\ ts_ns t = n.
Proof.
  unfold _sleep, ts_valid, ts_ns. destruct (Z.ltb_spec n 0); intros; simplify_eq. simpl.
  pose proof (quot_rem_split n 1000000000 ltac:(lia)).
  pose proof (Z.rem_bound_pos n 1000000000 ltac:(lia) ltac:(lia)). split; lia.
Qed.

(** [sleep_ms] asks [nanosleep] for exactly the requested time with a valid
    timespec, and refuses negative times, for every argument whose nanoseconds
    fit an [int64_t] (about 292 years). *)
Theorem sleep_ms_exact ms :
  int64_min <= ms * 1000000 <= int64_max ->
  exists r, sleep_ms ms = Some r /\
  (ms < 0 -> r = Err (-1)) /\
  (0 <= ms -> exists t, r = Ok t /\ ts_valid t /\ ts_ns t = ms * 1000000).
Proof.
  intros H. unfold sleep_ms, mul_i64.
  rewrite bool_decide_eq_true_2 by (unfold int64_min, int64_max in *; lia). simpl.
  rewrite bool_decide_eq_true_2 by (unfold int64_min, int64_max in *; lia). simpl. eexists. split; [done|]. split.
  - intros Hm. unfold _sleep. by destruct (Z.ltb_spec (ms * 1000 * 1000) 0); [|lia].
  - intros Hm. destruct (_sleep (ms * 1000 * 1000)) as [t|e] eqn:E.
    + exists t. apply _sleep_exact in E as [? ?]. split; [done|]. split; [done|lia].
    + unfold _sleep in E. destruct (Z.ltb_spec (ms * 1000 * 1000) 0); [lia|done].
Qed.

Lemma sleep_ms_exact_witness :
  exists t, sleep_ms 1500 = Some (Ok t) /\ ts_ns t = 1500000000.
Proof.
  destruct (sleep_ms_exact 1500) as (r & Hr & _ & H); [unfold int64_min, int64_max; lia|].
  destruct H as (t & -> & _ & Ht); [lia|]. eauto.
Defined.
End Sleeper.
