(* ===== verification/Monitor.v ===== *)
(** * utils/src/{critsec,scopedlock}.cpp

    [CCritSec] is a mutex with a condition, [CScopedLock] holds it from its
    construction to its destruction.  Threads are program counters; one event is the
    part of a method up to where it blocks.  A condition wait gives the mutex back
    and takes it again before it returns, after a signal, a timeout or spuriously.
    [None] means that the event is not possible in the state. *)

From S2P Require Import Prelude CLib Sync.

Open Scope Z_scope.

(** ** State *)

Definition ETIMEDOUT : Z := 110.

Inductive mpc :=
| Free                       (* no scope *)
| Locking                    (* in the constructor, the mutex not yet taken *)
| Holding                    (* inside a scope *)
| Nested                     (* in the constructor of a second scope of the same thread *)
| Waiting (timed : bool)     (* in [wait] or [timewait] *)
| Relocking (ret : Z).       (* woken, the mutex not yet taken again *)
#[export] Instance mpc_eq_dec : EqDecision mpc.
Proof. solve_decision. Defined.

Record monitor := mkMonitor { owner : option nat; threads : list mpc }.

Definition new_monitor (n : nat) : monitor := mkMonitor None (replicate n Free).

Definition at_pc (i : nat) (c : mpc) (m : monitor) : monitor := mkMonitor (owner m) (<[i := c]> (threads m)).
Definition is_at (i : nat) (c : mpc) (m : monitor) : bool := bool_decide (threads m !! i = Some c).

(** ** Methods *)

(** [CScopedLock::CScopedLock]: the call of [lock]; the thread's own scope makes it
    wait for itself. *)
Definition construct (i : nat) (m : monitor) : option monitor :=
  if is_at i Free m then Some (at_pc i Locking m)
  else if is_at i Holding m then Some (at_pc i Nested m)
  else None.

(** The mutex is given to a thread that asks for it, when nobody holds it. *)
Definition acquire (i : nat) (m : monitor) : option (monitor * outcome) :=
  match owner m, threads m !! i with
  | None, Some Locking => Some (mkMonitor (Some i) (<[i := Holding]> (threads m)), Silent)
  | None, Some (Relocking ret) => Some (mkMonitor (Some i) (<[i := Holding]> (threads m)), Returns ret)
  | _, _ => None
  end.

(** [CScopedLock::~CScopedLock]. *)
Definition destruct_ (i : nat) (m : monitor) : option monitor :=
  if is_at i Holding m then Some (mkMonitor None (<[i := Free]> (threads m))) else None.

(** [cscopedlock_wait] and [cscopedlock_timewait]. *)
Definition wait (i : nat) (timed : bool) (m : monitor) : option monitor :=
  if is_at i Holding m then Some (mkMonitor None (<[i := Waiting timed]> (threads m))) else None.

Definition is_waiting (c : mpc) : bool := match c with Waiting _ => true | _ => false end.

(** [cscopedlock_signal]: a thread that waits is woken, if there is one. *)
Definition signal (i : nat) (woken : option nat) (m : monitor) : option monitor :=
  if is_at i Holding m then
    match woken with
    | Some j => match threads m !! j with
                | Some (Waiting _) => Some (at_pc j (Relocking 0) m)
                | _ => None
                end
    | None => if existsb is_waiting (threads m) then None else Some m
    end
  else None.

(** A wait ends without a signal. *)
Definition wake (j : nat) (timeout : bool) (m : monitor) : option monitor :=
  match threads m !! j with
  | Some (Waiting timed) =>
      if timeout && negb timed then None else Some (at_pc j (Relocking (if timeout then ETIMEDOUT else 0)) m)
  | _ => None
  end.

Inductive mevent :=
| Construct (i : nat) | Acquire (i : nat) | Destruct (i : nat) | Wait (i : nat) (timed : bool)
| Signal (i : nat) (woken : option nat) | Wake (j : nat) (timeout : bool).

Definition silent (m : option monitor) : option (monitor * outcome) := m' ← m; Some (m', Silent).

Definition monitor_step (m : monitor) (e : mevent) : option (monitor * outcome) :=
  match e with
  | Construct i => silent (construct i m)
  | Acquire i => acquire i m
  | Destruct i => silent (destruct_ i m)
  | Wait i timed => silent (wait i timed m)
  | Signal i woken => silent (signal i woken m)
  | Wake j timeout => silent (wake j timeout m)
  end.

(** ** Mutual exclusion *)

(** Inside a scope, or waiting there for itself. *)
Definition inside (c : mpc) : bool := match c with Holding | Nested => true | _ => false end.

Definition monitor_inv (m : monitor) : Prop :=
  forall i, owner m = Some i <-> exists c, threads m !! i = Some c /\ inside c = true.

(** A thread moves between two places, and the owner with it. *)
Lemma inv_move m j c c' o :
  monitor_inv m -> threads m !! j = Some c ->
  match inside c, inside c' with
  | true, true | false, false => o = owner m
  | true, false => o = None
  | false, true => owner m = None /\ o = Some j
  end -> monitor_inv (mkMonitor o (<[j := c']> (threads m))).
Proof.
  intros Hinv Hj Ho i. simpl. pose proof (lookup_lt_Some _ _ _ Hj) as Hlt. pose proof (Hinv j) as Hinvj.
  specialize (Hinv i). destruct (decide (i = j)) as [->|Hne].
  - rewrite list_lookup_insert_eq by done. destruct (inside c) eqn:Ec, (inside c') eqn:Ec'; subst.
    + split; [by exists c'|]. intros _. apply Hinv. by exists c.
    + split; [done|]. intros (? & [= <-] & ?). congruence.
    + destruct Ho as [_ ->]. split; [by exists c'|done].
    + rewrite Hinv. split; intros (d & Hd & ?); simplify_eq; congruence.
  - rewrite list_lookup_insert_ne by done. destruct (inside c) eqn:Ec, (inside c') eqn:Ec'; subst; try done.
    + split; [done|]. intros Hi. apply Hinv in Hi. assert (owner m = Some j) by (apply Hinvj; by exists c). congruence.
    + destruct Ho as [Hn ->]. split; [congruence|]. intros Hi. apply Hinv in Hi. congruence.
Qed.

Lemma monitor_inv_step m e m' o : monitor_step m e = Some (m', o) -> monitor_inv m -> monitor_inv m'.
Proof.
  intros E Hinv. destruct m as [ow ts]. destruct e as [i|i|i|i timed|i woken|j timeout]; simpl in E;
    unfold silent, construct, acquire, destruct_, wait, signal, wake, is_at in E; simpl in E.
  - case_bool_decide as Hi; [|case_bool_decide as Hi'; [|done]]; simplify_eq/=;
      (eapply (inv_move (mkMonitor ow ts)); [done..|done]).
  - destruct ow as [k|]; [done|]. destruct (ts !! i) as [[]|] eqn:Hi; simplify_eq/=;
      (eapply (inv_move (mkMonitor None ts)); [done..|done]).
  - case_bool_decide as Hi; simplify_eq/=. by eapply (inv_move (mkMonitor ow ts)).
  - case_bool_decide as Hi; simplify_eq/=. by eapply (inv_move (mkMonitor ow ts)).
  - case_bool_decide as Hi; [|done]. destruct woken as [j|].
    + destruct (ts !! j) as [[]|] eqn:Hj; simplify_eq/=. by eapply (inv_move (mkMonitor ow ts)).
    + destruct (existsb is_waiting ts); by simplify_eq/=.
  - destruct (ts !! j) as [[| | | |timed|]|] eqn:Hj; try done.
    destruct (timeout && negb timed); simplify_eq/=. by eapply (inv_move (mkMonitor ow ts)).
Qed.

Lemma monitor_inv_run n tr m : run monitor_step (new_monitor n) tr m -> monitor_inv m.
Proof.
  intros Hr. remember (new_monitor n) as m0 eqn:E0. induction Hr as [m|m tr m1 e m2 o _ IH Hs]; subst.
  - intros i. simpl. split; [done|]. intros (c & Hc & Hin). apply lookup_replicate_1 in Hc as [-> _]. done.
  - eapply monitor_inv_step; [done|]. by apply IH.
Qed.

(** At most one thread is inside a scope, whatever waits, signals and timeouts
    happen; in particular a wait returns with the mutex held. *)
Theorem scopes_exclude n tr m i j c d :
  run monitor_step (new_monitor n) tr m ->
  threads m !! i = Some c -> threads m !! j = Some d -> inside c = true -> inside d = true -> i = j.
Proof.
  intros Hr%monitor_inv_run Hi Hj Hc Hd. assert (owner m = Some i) by (apply Hr; by exists c).
  assert (owner m = Some j) by (apply Hr; by exists d). congruence.
Qed.

(** A signal while somebody waits ends exactly one wait. *)
Theorem signal_wakes_one n tr m i woken m' :
  run monitor_step (new_monitor n) tr m -> signal i woken m = Some m' -> existsb is_waiting (threads m) = true ->
  exists j timed, woken = Some j /\ threads m !! j = Some (Waiting timed)
    /\ threads m' = <[j := Relocking 0]> (threads m) /\ owner m' = Some i.
Proof.
  intros Hr%monitor_inv_run Hs Hw. unfold signal, is_at in Hs. case_bool_decide as Hi; [|done].
  assert (Ho : owner m = Some i) by (apply Hr; by exists Holding).
  destruct woken as [j|]; [|by rewrite Hw in Hs]. destruct (threads m !! j) as [[| | | |timed|]|] eqn:Hj; simplify_eq.
  by exists j, timed.
Qed.

(** ** Two scopes in one thread *)

(** A thread that makes a second scope inside its first never gets on, and from
    then on no thread enters a scope. *)
Theorem nested_scope_freezes m tr m' i :
  monitor_inv m -> threads m !! i = Some Nested -> run monitor_step m tr m' ->
  threads m' !! i = Some Nested /\ owner m' = Some i
  /\ forall j c, threads m' !! j = Some c -> inside c = true -> j = i.
Proof.
  intros Hinv Hi Hr.
  assert (monitor_inv m' /\ threads m' !! i = Some Nested) as [Hinv' Hi'].
  { induction Hr as [m|m tr m1 e m2 o _ IH E]; [done|]. destruct (IH Hinv Hi) as [Hinv1 Hi1]. clear IH Hinv Hi.
    split; [by eapply monitor_inv_step|].
    assert (Ho : owner m1 = Some i) by (apply Hinv1; by exists Nested).
    assert (Hkeep : forall k c, threads m1 !! k <> Some Nested -> <[k := c]> (threads m1) !! i = Some Nested).
    { intros k c Hk. rewrite list_lookup_insert_ne; [done|]. congruence. }
    destruct e as [k|k|k|k timed|k woken|k timeout]; simpl in E;
      unfold silent, construct, acquire, destruct_, wait, signal, wake, is_at in E; rewrite ?Ho in E; try done;
      repeat (case_bool_decide || case_match); simplify_eq/=; auto with congruence; apply Hkeep; congruence. }
  assert (Ho : owner m' = Some i) by (apply Hinv'; by exists Nested). split_and!; [done|done|].
  intros j c Hj Hc. assert (owner m' = Some j) by (apply Hinv'; by exists c). congruence.
Qed.

(** ** Concrete runs *)

(** Thread 0 waits with a timeout, thread 1 signals it; the wait returns 0 once the
    signaller has left its scope. *)
Example wait_and_signal :
  match exec monitor_step (new_monitor 2)
    [Construct 0; Acquire 0; Wait 0 true; Construct 1; Acquire 1; Signal 1 (Some 0%nat); Destruct 1; Acquire 0; Destruct 0] with
  | Some (m, tr) => owner m = None /\ threads m = [Free; Free] /\ tr !! 7%nat = Some (Acquire 0, Returns 0)
  | None => False
  end.
Proof. vm_compute. split_and!; reflexivity. Qed.
