(* ===== verification/ScopedPtr.v ===== *)
(** * utils/include/scoped_ptr.hpp

    [ScopedPtr], [ScopedArray] and [ScopedPtrMalloc]: owners of an object made by
    [new], [new[]] or [malloc].  The methods act on the held pointer and on the
    heap; releasing an object that is not there, or with the wrong one of the three
    operators, is undefined behaviour, here [None].  Proved: a program that hands
    every pointer to one owner only never gets there, nothing is released twice,
    and nothing is lost. *)

From S2P Require Import Prelude.

(** ** The heap *)

Inductive allocator := New | NewArray | Malloc.
#[export] Instance allocator_eq_dec : EqDecision allocator.
Proof. solve_decision. Defined.

Abbreviation pointer := (option nat).   (* [None] is [NULL] *)

(** The objects there are, with what made them, and the ones that were. *)
Record heap := mkHeap { objects : gmap nat allocator; released : list nat }.

(** [delete], [delete[]] and [free]: nothing for [NULL]. *)
Definition dispose (k : allocator) (p : pointer) (h : heap) : option heap :=
  match p with
  | None => Some h
  | Some a =>
      match objects h !! a with
      | Some k' => if bool_decide (k = k') then Some (mkHeap (delete a (objects h)) (released h ++ [a])) else None
      | None => None
      end
  end.

(** ** The three classes *)

(** What differs is the operator. *)
Section Methods.
Variable k : allocator.

Definition destructor (ptr : pointer) (h : heap) : option heap := dispose k ptr h.

Definition reset (ptr p : pointer) (h : heap) : option (pointer * heap) :=
  if bool_decide (p = ptr) then Some (ptr, h)
  else h' ← dispose k ptr h; Some (p, h').
End Methods.

(** [release]: what is returned, and what is held after. *)
Definition release (ptr : pointer) : pointer * pointer := (ptr, None).

Definition swap (ptr1 ptr2 : pointer) : pointer * pointer := (ptr2, ptr1).

Definition pointer_equals (ptr p : pointer) : bool := bool_decide (ptr = p).

(** [operator*], [operator->]: an assertion, [None], on [NULL]. *)
Definition dereference (ptr : pointer) : option nat := ptr.

(** [operator[]]: two assertions, then the element. *)
Definition index (ptr : pointer) (i : Z) : option (nat * Z) :=
  if (0 <=? i)%Z then a ← ptr; Some (a, i) else None.

Module ScopedPtr.
Definition ptr_destructor := destructor New.
Definition ptr_reset := reset New.
End ScopedPtr.

Module ScopedArray.
Definition array_destructor := destructor NewArray.
Definition array_reset := reset NewArray.
End ScopedArray.

Module ScopedPtrMalloc.
Definition malloc_destructor := destructor Malloc.
Definition malloc_reset := reset Malloc.
End ScopedPtrMalloc.

(** ** Programs *)

(** What a program does with owners, which it names by numbers.  [loose] are the
    objects no owner holds; the operations do not look at it. *)
Inductive action :=
| Allocate (k : allocator)
| Construct (x : nat) (k : allocator) (p : pointer)
| Destroy (x : nat)
| Reset (x : nat) (p : pointer)
| Release (x : nat)
| Swap (x y : nat).

Record program := mkProgram {
  memory : heap;
  fresh_object : nat;
  owners : gmap nat (allocator * pointer);
  loose : gset nat }.

Definition start : program := mkProgram (mkHeap ∅ []) 0 ∅ ∅.

Definition pointer_set (p : pointer) : gset nat := match p with Some a => {[a]} | None => ∅ end.

Definition perform (s : program) (c : action) : option program :=
  match c with
  | Allocate k =>
      Some (mkProgram (mkHeap (<[fresh_object s := k]> (objects (memory s))) (released (memory s)))
              (S (fresh_object s)) (owners s) ({[fresh_object s]} ∪ loose s))
  | Construct x k p =>
      Some (mkProgram (memory s) (fresh_object s) (<[x := (k, p)]> (owners s)) (loose s ∖ pointer_set p))
  | Destroy x =>
      '(k, ptr) ← owners s !! x;
      h ← destructor k ptr (memory s);
      Some (mkProgram h (fresh_object s) (delete x (owners s)) (loose s))
  | Reset x p =>
      '(k, ptr) ← owners s !! x;
      '(ptr', h) ← reset k ptr p (memory s);
      Some (mkProgram h (fresh_object s) (<[x := (k, ptr')]> (owners s)) (loose s ∖ pointer_set p))
  | Release x =>
      '(k, ptr) ← owners s !! x;
      let '(result, ptr') := release ptr in
      Some (mkProgram (memory s) (fresh_object s) (<[x := (k, ptr')]> (owners s)) (pointer_set result ∪ loose s))
  | Swap x y =>
      '(k, ptr) ← owners s !! x;
      '(k', ptr') ← owners s !! y;
      let '(new, new') := swap ptr ptr' in
      Some (mkProgram (memory s) (fresh_object s) (<[y := (k', new')]> (<[x := (k, new)]> (owners s))) (loose s))
  end.

Fixpoint perform_all (s : program) (l : list action) : option program :=
  match l with [] => Some s | c :: l' => s' ← perform s c; perform_all s' l' end.

(** A pointer that may be handed over: [NULL], or a loose object of the right kind. *)
Definition may_hand (s : program) (k : allocator) (p : pointer) : bool :=
  match p with
  | None => true
  | Some a => bool_decide (a ∈ loose s) && bool_decide (objects (memory s) !! a = Some k)
  end.

(** What the comments of the classes ask for: the operator fits, an object has one
    owner, a name is used for one owner; [reset(get())] is allowed. *)
Definition may_perform (s : program) (c : action) : bool :=
  match c with
  | Allocate _ => true
  | Construct x k p => bool_decide (owners s !! x = None) && may_hand s k p
  | Destroy x | Release x => bool_decide (is_Some (owners s !! x))
  | Reset x p => match owners s !! x with Some (k, ptr) => bool_decide (p = ptr) || may_hand s k p | None => false end
  | Swap x y =>
      match owners s !! x, owners s !! y with Some (k, _), Some (k', _) => bool_decide (k = k') | _, _ => false end
  end.

Fixpoint may_perform_all (s : program) (l : list action) : bool :=
  match l with
  | [] => true
  | c :: l' => may_perform s c && match perform s c with Some s' => may_perform_all s' l' | None => false end
  end.

(** ** Ownership *)

Definition held (s : program) (x a : nat) : Prop := exists k, owners s !! x = Some (k, Some a).

Record owned (s : program) : Prop := mkOwned {
  owned_object : forall x k a, owners s !! x = Some (k, Some a) -> objects (memory s) !! a = Some k;
  owned_once : forall x y a, held s x a -> held s y a -> x = y;
  owned_not_loose : forall x a, held s x a -> a ∉ loose s;
  owned_loose : forall a, a ∈ loose s -> is_Some (objects (memory s) !! a);
  owned_all : forall a, is_Some (objects (memory s) !! a) -> a ∈ loose s \/ exists x, held s x a;
  owned_released : NoDup (released (memory s));
  owned_partition : forall a, (a < fresh_object s)%nat <-> is_Some (objects (memory s) !! a) \/ a ∈ released (memory s);
  owned_disjoint : forall a, a ∈ released (memory s) -> objects (memory s) !! a = None }.

Lemma start_owned : owned start.
Proof.
  split; unfold held, start; cbn [owners memory loose objects released fresh_object];
    try setoid_rewrite lookup_empty; try set_solver.
  - constructor.
  - intros a. split; [lia|]. intros [[k Hk]|Ha]; [done|set_solver].
Qed.

(** Giving up an object: the owner of [p] is gone. *)
Lemma dispose_ok k p h :
  (forall a, p = Some a -> objects h !! a = Some k) ->
  exists h', dispose k p h = Some h' /\ objects h' = match p with Some a => delete a (objects h) | None => objects h end
    /\ released h' = released h ++ match p with Some a => [a] | None => [] end.
Proof.
  intros Hp. destruct p as [a|]; simpl; [|exists h; by rewrite app_nil_r].
  rewrite (Hp a eq_refl), bool_decide_true by done. by eexists.
Qed.

(** ** Every action keeps ownership *)

Lemma allocate_owned s k : owned s -> exists s', perform s (Allocate k) = Some s' /\ owned s'.
Proof.
  intros [Ho Hone Hnl Hl Hall Hnd Hpart Hdis]. eexists. split; [done|].
  assert (Hnew : objects (memory s) !! fresh_object s = None).
  { apply eq_None_not_Some. intros E. assert (fresh_object s < fresh_object s)%nat by (apply Hpart; by left). lia. }
  split; unfold held; simpl.
  - intros x j a E. rewrite lookup_insert_ne; [by apply (Ho x)|]. intros <-. apply Ho in E. congruence.
  - done.
  - intros x a Hx [->%elem_of_singleton|Ha]%elem_of_union; [|by apply (Hnl x a)].
    destruct Hx as (j & E). apply Ho in E. congruence.
  - intros a [->%elem_of_singleton|Ha]%elem_of_union; [by rewrite lookup_insert_eq|]. apply lookup_insert_is_Some'. auto.
  - intros a [<-|Ha]%lookup_insert_is_Some'; [left; apply elem_of_union; left; by apply elem_of_singleton|].
    destruct (Hall a Ha) as [?|?]; [left; apply elem_of_union; by right|by right].
  - done.
  - intros a. rewrite lookup_insert_is_Some'. specialize (Hpart a).
    destruct (decide (a = fresh_object s)) as [->|Hne]; [split; [by left; left|lia]|]. split.
    + intros Ha. destruct (proj1 Hpart) as [?|?]; [lia|by left; right|by right].
    + intros [[?|?]|?]; [done|apply Nat.lt_lt_succ_r, Hpart; by left|apply Nat.lt_lt_succ_r, Hpart; by right].
  - intros a Ha. rewrite lookup_insert_ne; [by apply Hdis|]. intros <-.
    assert (fresh_object s < fresh_object s)%nat by (apply Hpart; by right). lia.
Qed.

(** The steps the others are made of: an owner without object appears or goes; its
    object is disposed of; it takes a loose one; it lets go of one. *)
Definition with_owner (x : nat) (o : allocator * pointer) (s : program) : program :=
  mkProgram (memory s) (fresh_object s) (<[x := o]> (owners s)) (loose s).

Lemma held_with_owner x k p s y a :
  held (with_owner x (k, p) s) y a <-> (x = y /\ p = Some a) \/ (x <> y /\ held s y a).
Proof.
  unfold held. simpl. setoid_rewrite lookup_insert_Some. split.
  - intros (j & [[-> [= -> ->]]|[? ?]]); [by left|right; eauto].
  - intros [[-> ->]|[? [j ?]]]; eauto.
Qed.

Lemma add_owner s x k : owned s -> owners s !! x = None -> owned (with_owner x (k, None) s).
Proof.
  intros [Ho Hone Hnl Hl Hall Hnd Hpart Hdis] Hx.
  assert (Hheld : forall y a, held (with_owner x (k, None) s) y a <-> held s y a).
  { intros y a. rewrite held_with_owner. split; [by intros [[? ?]|[_ ?]]|]. intros Hy. right. split; [|done].
    intros <-. destruct Hy as [j Hj]. congruence. }
  split; simpl; try done.
  - intros y j a [[_ ?]|[_ ?]]%lookup_insert_Some; [congruence|eauto].
  - intros y z a. rewrite !Hheld. apply Hone.
  - intros y a. rewrite Hheld. apply Hnl.
  - intros a Ha. setoid_rewrite Hheld. auto.
Qed.

Lemma drop_owner s x k : owned s -> owners s !! x = Some (k, None) ->
  owned (mkProgram (memory s) (fresh_object s) (delete x (owners s)) (loose s)).
Proof.
  intros [Ho Hone Hnl Hl Hall Hnd Hpart Hdis] Hx.
  assert (Hheld : forall y a, held (mkProgram (memory s) (fresh_object s) (delete x (owners s)) (loose s)) y a <-> held s y a).
  { intros y a. unfold held. simpl. setoid_rewrite lookup_delete_Some. split; [naive_solver|]. intros [j Hj]. exists j.
    split; [|done]. intros <-. congruence. }
  split; simpl; try done.
  - intros y j a [_ ?]%lookup_delete_Some. eauto.
  - intros y z a. rewrite !Hheld. apply Hone.
  - intros y a. rewrite Hheld. apply Hnl.
  - intros a Ha. setoid_rewrite Hheld. auto.
Qed.

Lemma let_go s x k a : owned s -> owners s !! x = Some (k, Some a) ->
  owned (mkProgram (memory s) (fresh_object s) (<[x := (k, None)]> (owners s)) ({[a]} ∪ loose s)).
Proof.
  intros [Ho Hone Hnl Hl Hall Hnd Hpart Hdis] Hx. assert (Hxa : held s x a) by (by exists k).
  set (s' := mkProgram _ _ _ _). assert (Hheld : forall y b, held s' y b <-> x <> y /\ held s y b).
  { intros y b. etrans; [apply (held_with_owner x k None s y b)|]. naive_solver. }
  split; simpl; try done.
  - intros y j b [[_ ?]|[_ ?]]%lookup_insert_Some; [congruence|eauto].
  - intros y z b. rewrite !Hheld. intros [_ ?] [_ ?]. eauto.
  - intros y b [Hne Hy]%Hheld [->%elem_of_singleton|Hb]%elem_of_union; [|by eapply Hnl]. apply Hne. eauto.
  - intros b [->%elem_of_singleton|Hb]%elem_of_union; [eauto|auto].
  - intros b Hb. destruct (Hall b Hb) as [?|[y Hy]]; [left; apply elem_of_union; by right|].
    destruct (decide (x = y)) as [<-|]; [|right; exists y; by apply Hheld]. left. apply elem_of_union. left.
    apply elem_of_singleton. destruct Hy as [j Hj]. congruence.
Qed.

Lemma take_up s x k a : owned s -> owners s !! x = Some (k, None) -> a ∈ loose s -> objects (memory s) !! a = Some k ->
  owned (mkProgram (memory s) (fresh_object s) (<[x := (k, Some a)]> (owners s)) (loose s ∖ {[a]})).
Proof.
  intros [Ho Hone Hnl Hl Hall Hnd Hpart Hdis] Hx Ha Hk.
  set (s' := mkProgram _ _ _ _). assert (Hheld : forall y b, held s' y b <-> (x = y /\ a = b) \/ (x <> y /\ held s y b)).
  { intros y b. etrans; [apply (held_with_owner x k (Some a) s y b)|]. naive_solver. }
  split; simpl; try done.
  - intros y j b [[_ [= <- <-]]|[_ ?]]%lookup_insert_Some; [done|eauto].
  - intros y z b. rewrite !Hheld. intros [[<- <-]|[? Hy]] [[<- ?]|[? Hz]]; subst; [done| | |by eapply Hone].
    + by destruct (Hnl z a).
    + by destruct (Hnl y b).
  - intros y b [[_ <-]|[_ Hy]]%Hheld [Hb Hb']%elem_of_difference; [by apply Hb', elem_of_singleton|by eapply Hnl].
  - intros b [Hb _]%elem_of_difference. auto.
  - intros b Hb. destruct (decide (a = b)) as [<-|Hne]; [right; exists x; apply Hheld; by left|].
    destruct (Hall b Hb) as [?|[y Hy]]; [left; apply elem_of_difference; split; [done|]; by intros ->%elem_of_singleton|].
    right. exists y. apply Hheld. right. split; [|done]. intros <-. destruct Hy as [j Hj]. congruence.
Qed.

(** The heap without a loose object. *)
Lemma dispose_loose s a h : owned s -> a ∈ loose s ->
  objects h = delete a (objects (memory s)) -> released h = released (memory s) ++ [a] ->
  owned (mkProgram h (fresh_object s) (owners s) (loose s ∖ {[a]})).
Proof.
  intros [Ho Hone Hnl Hl Hall Hnd Hpart Hdis] Ha Eo Er. pose proof (Hl a Ha) as Hsome.
  split; simpl; rewrite ?Eo, ?Er.
  - intros x k b E. rewrite lookup_delete_ne; [eauto|]. intros <-. apply (Hnl x a); [by exists k|done].
  - done.
  - intros x b Hx [Hb _]%elem_of_difference. by eapply Hnl.
  - intros b [Hb Hne]%elem_of_difference. rewrite lookup_delete_ne; [auto|]. intros <-. by apply Hne, elem_of_singleton.
  - intros b [Hne Hb]%lookup_delete_is_Some. destruct (Hall b Hb) as [?|?]; [|by right]. left. apply elem_of_difference.
    split; [done|]. by intros ->%elem_of_singleton.
  - apply NoDup_app. split; [done|]. split; [|apply NoDup_singleton]. intros b Hb ->%list_elem_of_singleton.
    apply Hdis in Hb. rewrite Hb in Hsome. by destruct Hsome.
  - intros b. rewrite (Hpart b), lookup_delete_is_Some, elem_of_app, list_elem_of_singleton.
    destruct (decide (a = b)) as [<-|]; naive_solver.
  - intros b [Hb| ->%list_elem_of_singleton]%elem_of_app; [|apply lookup_delete_eq].
    destruct (decide (a = b)) as [<-|]; [apply lookup_delete_eq|]. rewrite lookup_delete_ne by done. auto.
Qed.

(** An owner lets its object go and the object is disposed of. *)
Lemma empty_owner s x k ptr : owned s -> owners s !! x = Some (k, ptr) ->
  exists h, dispose k ptr (memory s) = Some h
    /\ owned (mkProgram h (fresh_object s) (<[x := (k, None)]> (owners s)) (loose s)).
Proof.
  intros Hs Hx. destruct (dispose_ok k ptr (memory s)) as (h & E & Eo & Er).
  { intros a ->. by eapply owned_object. }
  exists h. split; [done|]. destruct ptr as [a|].
  - pose proof (dispose_loose _ a h (let_go s x k a Hs Hx)) as Hd. simpl in Hd.
    replace (loose s) with (({[a]} ∪ loose s) ∖ {[a]}); [apply Hd; [apply elem_of_union; left; by apply elem_of_singleton|done|done]|].
    pose proof (owned_not_loose s Hs x a ltac:(by exists k)). set_solver.
  - rewrite insert_id by done. destruct s as [m f os l], m as [m r], h as [m' r']. simpl in *. subst. by rewrite app_nil_r.
Qed.

Lemma may_hand_owned s x k p : owned s -> owners s !! x = Some (k, None) -> may_hand s k p = true ->
  owned (mkProgram (memory s) (fresh_object s) (<[x := (k, p)]> (owners s)) (loose s ∖ pointer_set p)).
Proof.
  intros Hs Hx Hp. destruct p as [a|]; simpl in *.
  - apply andb_true_iff in Hp as [Ha%bool_decide_eq_true Hk%bool_decide_eq_true]. by apply take_up.
  - rewrite difference_empty_L, insert_id by done. by destruct s.
Qed.

Lemma swap_owned s x y k p q : owned s -> owners s !! x = Some (k, p) -> owners s !! y = Some (k, q) ->
  owned (mkProgram (memory s) (fresh_object s) (<[y := (k, p)]> (<[x := (k, q)]> (owners s))) (loose s)).
Proof.
  intros Hs Hx Hy. set (s' := mkProgram _ _ _ _). pose proof Hs as [Ho Hone Hnl Hl Hall Hnd Hpart Hdis].
  set (other := fun z => if decide (z = x) then y else if decide (z = y) then x else z).
  assert (Hlook : forall z, owners s' !! z = owners s !! other z).
  { intros z. unfold other, s'. simpl. destruct (decide (z = x)) as [->|Hzx].
    - destruct (decide (y = x)) as [->|]; [by rewrite lookup_insert_eq, Hx|by rewrite lookup_insert_ne, lookup_insert_eq].
    - destruct (decide (z = y)) as [->|]; [by rewrite lookup_insert_eq|by rewrite !lookup_insert_ne]. }
  assert (Hinv : forall z, other (other z) = z) by (intros z; unfold other; repeat case_decide; congruence).
  assert (Hheld : forall z a, held s' z a <-> held s (other z) a) by (intros z a; unfold held; by rewrite Hlook).
  split; try done.
  - intros z j a. rewrite Hlook. apply Ho.
  - intros z w a. rewrite !Hheld. intros Hz Hw. rewrite <- (Hinv z), <- (Hinv w). f_equal. eauto.
  - intros z a. rewrite Hheld. apply Hnl.
  - intros a Ha. destruct (Hall a Ha) as [?|[z Hz]]; [by left|right]. exists (other z). by rewrite Hheld, Hinv.
Qed.

Lemma perform_owned s c : owned s -> may_perform s c = true -> exists s', perform s c = Some s' /\ owned s'.
Proof.
  intros Hs Hc. destruct c as [k|x k p|x|x p|x|x y]; [by apply allocate_owned| | | | |]; cbn [may_perform perform] in *.
  - apply andb_true_iff in Hc as [Hx%bool_decide_eq_true Hp]. eexists. split; [done|].
    pose proof (may_hand_owned (with_owner x (k, None) s) x k p (add_owner s x k Hs Hx)) as Hm. simpl in Hm.
    rewrite insert_insert_eq in Hm. apply Hm; [apply lookup_insert_eq|done].
  - apply bool_decide_eq_true in Hc as [[k ptr] Hx]. rewrite Hx. destruct (empty_owner s x k ptr Hs Hx) as (h & E & Ho).
    cbn [mbind option_bind]. unfold destructor. rewrite E. eexists. split; [done|].
    pose proof (drop_owner _ x k Ho) as Hd. simpl in Hd. rewrite delete_insert_eq in Hd. apply Hd. apply lookup_insert_eq.
  - destruct (owners s !! x) as [[k ptr]|] eqn:Hx; [|done]. cbn [mbind option_bind]. unfold reset.
    case_bool_decide as Ep; cbn [mbind option_bind orb] in *.
    + subst. eexists. split; [done|]. rewrite insert_id by done. destruct s as [m f os l]. simpl in *.
      destruct ptr as [a|]; simpl; [|by rewrite difference_empty_L].
      pose proof (owned_not_loose _ Hs x a ltac:(by exists k)) as Hn. simpl in Hn.
      by replace (l ∖ {[a]}) with l by set_solver.
    + destruct (empty_owner s x k ptr Hs Hx) as (h & E & Ho). rewrite E. eexists. split; [done|].
      pose proof (may_hand_owned _ x k p Ho (lookup_insert_eq _ _ _)) as Hm. simpl in Hm. rewrite insert_insert_eq in Hm. apply Hm.
      destruct p as [a|]; [|done]. simpl in Hc |- *. apply andb_true_iff in Hc as [Ha Hk]. rewrite Ha. simpl.
      apply bool_decide_eq_true in Ha, Hk. apply bool_decide_eq_true.
      destruct (dispose_ok k ptr (memory s)) as (h' & E' & Eo & _); [intros b ->; by eapply owned_object|].
      assert (h' = h) as -> by congruence. rewrite Eo. destruct ptr as [b|]; [|done]. by rewrite lookup_delete_ne by congruence.
  - apply bool_decide_eq_true in Hc as [[k ptr] Hx]. rewrite Hx. cbn [mbind option_bind release]. eexists. split; [done|].
    destruct ptr as [a|]; simpl; [by apply let_go|]. rewrite insert_id, union_empty_l_L by done. by destruct s.
  - destruct (owners s !! x) as [[k p]|] eqn:Hx; [|done]. destruct (owners s !! y) as [[k' q]|] eqn:Hy; [|done].
    apply bool_decide_eq_true in Hc as <-. cbn [mbind option_bind swap]. eexists. split; [done|]. by apply swap_owned.
Qed.

Lemma perform_all_owned l : forall s, owned s -> may_perform_all s l = true -> exists s', perform_all s l = Some s' /\ owned s'.
Proof.
  induction l as [|c l IH]; intros s Hs Hl; [by exists s|]. cbn [may_perform_all perform_all] in *.
  apply andb_true_iff in Hl as [Hc Hl]. destruct (perform_owned s c Hs Hc) as (s' & E & Hs'). rewrite E in *. simpl. by apply IH.
Qed.


(** The usage example of the header, and an object handed on. *)
Definition wee : list action :=
  [Construct 0 New None; Allocate New; Reset 0 (Some 0); Allocate New; Reset 0 (Some 1); Reset 0 (Some 1); Release 0;
   Construct 1 New (Some 1); Swap 0 1; Allocate Malloc; Construct 2 Malloc (Some 2); Destroy 2; Destroy 1; Destroy 0]%nat.


(** An array in a [ScopedPtr], and an object in two owners. *)
Example wrong_operator : perform_all start [Allocate NewArray; Construct 0 New (Some 0); Destroy 0]%nat = None.
Proof. vm_compute. reflexivity. Qed.
Example two_owners :
  perform_all start [Allocate New; Construct 0 New (Some 0); Construct 1 New (Some 0); Destroy 0; Destroy 1]%nat = None.
Proof. vm_compute. reflexivity. Qed.
