(* ===== verification/ScopedFile.v ===== *)
(** * utils/include/scoped_file.hpp: class [ScopedFILE]

    An owner of a [FILE]: the files that are open are a set, [fclose] of a file
    that is not open is undefined and gives [None].  [fopen] is given by what it
    returned: a file that was not open, or a null pointer. *)

From S2P Require Import Prelude.

(** The files open, and those [release] handed to the caller. *)
Record files := mkFiles { open_files : gset nat; released : gset nat }.

Definition fopened (r : option nat) (f : files) : files :=
  match r with
  | Some fp => mkFiles ({[ fp ]} ∪ open_files f) (released f ∖ {[ fp ]})
  | None => f
  end.

Definition fclose (fp : nat) (f : files) : option files :=
  if bool_decide (fp ∈ open_files f) then Some (mkFiles (open_files f ∖ {[ fp ]}) (released f)) else None.

(** [_fp]. *)
Abbreviation scoped := (option nat).

Definition scoped_new : scoped := None.
Definition scoped_open (r : option nat) (f : files) : scoped * files := (r, fopened r f).

Definition scoped_destroy (o : scoped) (f : files) : option files :=
  match o with
  | Some fp => fclose fp f
  | None => Some f
  end.

(** The old file is closed before the new one is opened. *)
Definition scoped_reset (r : option nat) (o : scoped) (f : files) : option (scoped * files) :=
  f ← match o with Some fp => fclose fp f | None => Some f end;
  Some (r, fopened r f).

Definition scoped_release (o : scoped) (f : files) : option nat * scoped * files :=
  match o with
  | Some fp => (Some fp, None, mkFiles (open_files f) ({[ fp ]} ∪ released f))
  | None => (None, None, f)
  end.

(** ** A life of one owner *)

Inductive scoped_op := Reset (r : option nat) | Release.

Definition scoped_step (x : scoped * files) (op : scoped_op) : option (scoped * files) :=
  match op with
  | Reset r => scoped_reset r x.1 x.2
  | Release => let '(_, o, f) := scoped_release x.1 x.2 in Some (o, f)
  end.

(** [fopen] returns a file that is not open, except one that the owner closes first. *)
Definition fopen_ok (x : scoped * files) (op : scoped_op) : Prop :=
  match op with
  | Reset (Some fp) => fp ∉ open_files x.2 \/ x.1 = Some fp
  | _ => True
  end.

Fixpoint scoped_run (x : scoped * files) (ops : list scoped_op) : option (scoped * files) :=
  match ops with
  | [] => Some x
  | op :: ops' => x ← scoped_step x op; scoped_run x ops'
  end.

Fixpoint fopen_run (x : scoped * files) (ops : list scoped_op) : Prop :=
  match ops with
  | [] => True
  | op :: ops' => fopen_ok x op /\ match scoped_step x op with Some x' => fopen_run x' ops' | None => True end
  end.

(** The owner's file is open and is not one it gave away; every other open file
    was open before or was given away. *)
Definition owns (f0 : gset nat) (x : scoped * files) : Prop :=
  open_files x.2 ≡ f0 ∪ released x.2 ∪ (match x.1 with Some fp => {[ fp ]} | None => ∅ end)
  /\ (forall fp, x.1 = Some fp -> fp ∉ f0 /\ fp ∉ released x.2).

Lemma owns_reset f0 x r : owns f0 x -> fopen_ok x (Reset r) -> exists x', scoped_step x (Reset r) = Some x' /\ owns f0 x'.
Proof.
  intros [Ho Hf] Hr. destruct x as [o f]. simpl in *. unfold scoped_reset, fclose.
  assert (Hclose : exists f', match o with Some fp => if bool_decide (fp ∈ open_files f) then Some (mkFiles (open_files f ∖ {[ fp ]}) (released f)) else None | None => Some f end = Some f'
    /\ open_files f' ≡ f0 ∪ released f /\ released f' = released f).
  { destruct o as [fp|]; [|exists f; split; [done|]; split; [set_solver|done]].
    rewrite bool_decide_eq_true_2 by set_solver. eexists. split; [done|]. simpl. destruct (Hf fp eq_refl). split; [set_solver|done]. }
  destruct Hclose as (f' & -> & Ho' & Hr'). simpl. eexists. split; [done|]. destruct r as [fp|]; simpl; [|split; simpl; [set_solver|done]].
  assert (Hnew : fp ∉ f0 /\ fp ∉ released f) by (destruct Hr as [Hr|Hr]; [set_solver|by apply Hf]).
  split; simpl.
  - rewrite Ho', Hr'. set_solver.
  - intros ? [= <-]. set_solver.
Qed.

(** A scoped file never closes a file that is not open; when it is destroyed, the
    files open are those that were open at the start and those the caller took with
    [release]: whatever else it opened is closed. *)
Theorem scoped_file_closes f0 r ops :
  (forall fp, r = Some fp -> fp ∉ f0) ->
  fopen_run (scoped_open r (mkFiles f0 ∅)) ops ->
  exists o f f', scoped_run (scoped_open r (mkFiles f0 ∅)) ops = Some (o, f) /\ scoped_destroy o f = Some f'
    /\ open_files f' ≡ f0 ∪ released f'.
Proof.
  intros Hr. assert (H0 : owns f0 (scoped_open r (mkFiles f0 ∅))).
  { unfold owns, scoped_open. destruct r as [fp|]; simpl; [|split; [set_solver|done]]. split; [set_solver|].
    intros ? [= <-]. split; [by apply Hr|set_solver]. }
  revert H0. generalize (scoped_open r (mkFiles f0 ∅)). induction ops as [|op ops IH]; intros x Hx Hrun.
  - destruct x as [o f], Hx as [Ho Hf]. simpl in *. exists o, f. destruct o as [fp|]; simpl; [|exists f; repeat split; set_solver].
    unfold fclose. rewrite bool_decide_eq_true_2 by set_solver. eexists. do 2 (split; [done|]). simpl. destruct (Hf fp eq_refl). set_solver.
  - destruct Hrun as [Hop Hrest]. cbn [scoped_run].
    assert (Hstep : exists x', scoped_step x op = Some x' /\ owns f0 x').
    { destruct op as [r'|]; [by apply owns_reset|]. destruct x as [[fp|] f], Hx as [Ho Hf]; simpl in *; eexists; (split; [done|]);
        split; simpl; (done || set_solver). }
    destruct Hstep as (x' & E & Hx'). rewrite E in *. simpl. by apply IH.
Qed.

Lemma scoped_file_closes_witness :
  exists o f f', scoped_run (scoped_open (Some 5) (mkFiles {[ 1 ]} ∅)) [Reset (Some 6); Release; Reset (Some 7)] = Some (o, f)
    /\ scoped_destroy o f = Some f' /\ open_files f' ≡ {[ 1 ]} ∪ released f'.
Proof.
  apply (scoped_file_closes {[ 1 ]} (Some 5) [Reset (Some 6); Release; Reset (Some 7)]).
  - intros fp [= <-]. set_solver.
  - simpl. split; [left; set_solver|]. split; [done|]. split; [left; set_solver|done].
Defined.
