(* ===== verification/Ipc.v ===== *)
(** * utils/src/ipc.cpp, utils/include/ipc.hpp

    Messages through a shared memory segment guarded by three semaphores.  A process
    runs one statement of the source at a time: clients in [pst_msg] and [snd_msg],
    one server in [rec_msg] and [ack_msg], interleaved in any order by a list of
    events.  An event also says what the system decides: whether a wait times out,
    whether memory can be allocated.  A copy beyond the segment is an overrun.
    Identifiers of segments and semaphore sets are what the kernel returns. *)

From S2P Require Import Prelude.

Open Scope Z_scope.

(** ** Semaphores *)

Inductive semnum := SEM_LOCK | SEM_CLIENT_MSG | SEM_SERVER_MSG.
Record semset := mkSems { lock : Z; client_msg : Z; server_msg : Z }.

Definition sem_get (num : semnum) (v : semset) : Z :=
  match num with SEM_LOCK => lock v | SEM_CLIENT_MSG => client_msg v | SEM_SERVER_MSG => server_msg v end.
Definition sem_add (num : semnum) (d : Z) (v : semset) : semset :=
  match num with
  | SEM_LOCK => mkSems (lock v + d) (client_msg v) (server_msg v)
  | SEM_CLIENT_MSG => mkSems (lock v) (client_msg v + d) (server_msg v)
  | SEM_SERVER_MSG => mkSems (lock v) (client_msg v) (server_msg v + d)
  end.

(** What is undone when a process exits, added to each value; a value does not
    become negative. *)
Definition sem_undo (u v : semset) : semset :=
  mkSems (Z.max 0 (lock v + lock u)) (Z.max 0 (client_msg v + client_msg u)) (Z.max 0 (server_msg v + server_msg u)).

Abbreviation semsets := (gmap Z semset).

(** [semp]: 0 or -1, and the sets; [None] while it waits.  There may be no set with
    that identifier. *)
Definition semp (sets : semsets) (semid : Z) (num : semnum) (nowait : bool) (timeout : Z) (expired : bool)
    : option (Z * semsets) :=
  match sets !! semid with
  | None => Some (-1, sets)
  | Some v =>
      if 0 <? sem_get num v then Some (0, <[semid := sem_add num (-1) v]> sets)
      else if nowait then Some (-1, sets)
      else if (0 <? timeout) && expired then Some (-1, sets)
      else None
  end.

(** [semv]; its result is not looked at. *)
Definition semv (sets : semsets) (semid : Z) (num : semnum) : semsets :=
  match sets !! semid with None => sets | Some v => <[semid := sem_add num 1 v]> sets end.

(** ** Messages and the segment *)

Inductive shm_msg_type := TYPE_SEND | TYPE_POST.
#[export] Instance shm_msg_type_eq_dec : EqDecision shm_msg_type.
Proof. solve_decision. Defined.

Record msg_header := mkHeader { msg_id : str; type : shm_msg_type; size : Z }.

(** [sizeof(msg_header_t)]: 37 bytes, padding, two words. *)
Definition header_size : Z := 48.

(** [body]: what lies behind the header, up to the end of the segment. *)
Record segment := mkSegment { capacity : Z; header : msg_header; body : str }.

Definition write_header (h : msg_header) (g : segment) : option segment :=
  if header_size <=? capacity g then Some (mkSegment (capacity g) h (body g)) else None.
Definition write_body (data : str) (g : segment) : option segment :=
  if header_size + Z.of_nat (length data) <=? capacity g then
    Some (mkSegment (capacity g) (header g) (data ++ drop (length data) (body g)))
  else None.
Definition read_body (n : Z) (g : segment) : option str :=
  if (0 <=? n) && (header_size + n <=? capacity g) then Some (take (Z.to_nat n) (body g)) else None.

(** ** Handles *)

Inductive ipc_role := ROLE_SERVER | ROLE_CLIENT.

Record shm_ipc := mkIpc { shm_size : Z; sem_id : Z; shm_id : Z; snd_timeout_in_ms : Z; rec_timeout_in_ms : Z }.

Definition DEFAULT_SHM_TIMEOUT : Z := 1000.

(** [init_shm_ipc], given what [shmget], [shmat] and [semget] return: the result, the
    handle as far as it is filled in, and the sets. *)
Definition init_shm_ipc (role : ipc_role) (size : Z) (shmget_result : Z) (attached : bool) (semget_result : Z) (sets : semsets)
    : Z * option shm_ipc * semsets :=
  let size := match role with ROLE_SERVER => size | ROLE_CLIENT => 0 end in
  if shmget_result <? 0 then (-1, None, sets)
  else if negb attached then (-1, None, sets)
  else
    let h := mkIpc size semget_result shmget_result DEFAULT_SHM_TIMEOUT DEFAULT_SHM_TIMEOUT in
    match sets !! semget_result with
    | None => (-1, Some h, sets)
    | Some v =>
        let sets := <[semget_result := mkSems 1 (client_msg v) (server_msg v)]> sets in
        if semget_result <? 0 then (-1, Some h, sets) else (0, Some h, sets)
    end.

Definition set_shm_ipc_timeout (h : shm_ipc) (snd_timeout rec_timeout : Z) : shm_ipc :=
  mkIpc (shm_size h) (sem_id h) (shm_id h) snd_timeout rec_timeout.

(** ** Clients *)

(** A call of [pst_msg] or [snd_msg]; [uuid] is what [random_uuid] makes. *)
Record request := mkRequest { sends : bool; uuid : str; data : str }.

(** The header that is written.  In [pst_msg] the initialiser [{TYPE_POST, msg_size}]
    fills the first two characters of [msg_id], which is then overwritten; the
    other members are zero. *)
Definition request_header (r : request) : msg_header :=
  if sends r then mkHeader (uuid r) TYPE_SEND (Z.of_nat (length (data r))) else mkHeader (uuid r) TYPE_SEND 0.

Inductive client_pc :=
| Locking (r : request)
| Draining (r : request)
| WritingHeader (r : request)
| WritingData (r : request)
| Telling (r : request)
| Waiting (r : request)
| ReadingHeader (r : request)
| ReadingData (r : request) (n : Z)
| Unlocking (r : request) (ret : Z) (response : option str)
| Returned (r : request) (ret : Z) (response : option str).

(** [undo]: what the kernel will undo for this process. *)
Record client := mkClient { pc : client_pc; undo : semset }.

(** ** The server *)

Inductive server_pc :=
| ServerIdle (received : option (msg_header * str))   (* not in a call; what [rec_msg] returned *)
| Receiving
| ReceivingHeader
| ReceivingData (h : msg_header)
| Confirming (h : msg_header) (request : option str)
| AckHeader (h : msg_header) (response : str)
| AckData (h : msg_header) (response : str)
| AckTelling (h : msg_header) (response : str).

Record system := mkSystem {
  handle : shm_ipc;
  sets : semsets;
  shared : segment;
  clients : gmap nat client;
  server : server_pc }.

Definition with_sets (x : semsets) (s : system) : system := mkSystem (handle s) x (shared s) (clients s) (server s).
Definition with_segment (g : segment) (s : system) : system := mkSystem (handle s) (sets s) g (clients s) (server s).
Definition with_client (c : nat) (cl : client) (s : system) : system :=
  mkSystem (handle s) (sets s) (shared s) (<[c := cl]> (clients s)) (server s).
Definition with_server (p : server_pc) (s : system) : system := mkSystem (handle s) (sets s) (shared s) (clients s) p.

(** A step is not possible now, runs beyond the segment, or leads on. *)
Inductive outcome := Blocked | Overrun | Next (s : system).

Definition or_overrun (o : option system) : outcome := match o with Some s => Next s | None => Overrun end.

(** The semaphore set the calls use is the one with the identifier of the segment. *)
Definition call_set (s : system) : Z := shm_id (handle s).

(** One statement of [pst_msg] or [snd_msg]. *)
Definition client_step (c : nat) (cl : client) (expired alloc_ok : bool) (s : system) : outcome :=
  let semid := call_set s in
  let goto p u s := Next (with_client c (mkClient p u) s) in
  let u := undo cl in
  match pc cl with
  | Locking r =>
      match semp (sets s) semid SEM_LOCK false (snd_timeout_in_ms (handle s)) expired with
      | None => Blocked
      | Some (ret, x) => if ret =? 0 then goto (Draining r) (sem_add SEM_LOCK 1 u) (with_sets x s)
                         else goto (Returned r (-1) None) u s
      end
  | Draining r =>
      match semp (sets s) semid SEM_SERVER_MSG true (-1) expired with
      | None => Blocked
      | Some (ret, x) => if ret =? 0 then goto (Draining r) u (with_sets x s) else goto (WritingHeader r) u s
      end
  | WritingHeader r =>
      or_overrun (g ← write_header (request_header r) (shared s);
                  Some (with_client c (mkClient (WritingData r) u) (with_segment g s)))
  | WritingData r =>
      or_overrun (g ← write_body (data r) (shared s);
                  Some (with_client c (mkClient (Telling r) u) (with_segment g s)))
  | Telling r => goto (Waiting r) (sem_add SEM_CLIENT_MSG (-1) u) (with_sets (semv (sets s) semid SEM_CLIENT_MSG) s)
  | Waiting r =>
      match semp (sets s) semid SEM_SERVER_MSG false (rec_timeout_in_ms (handle s)) expired with
      | None => Blocked
      | Some (ret, x) =>
          if ret =? 0 then
            goto (if sends r then ReadingHeader r else Unlocking r 0 None) u (with_sets x s)
          else goto (Unlocking r (-1) None) u s
      end
  | ReadingHeader r =>
      let h := header (shared s) in
      if negb (header_size <=? capacity (shared s)) then Overrun
      else if bool_decide (msg_id h = uuid r) then
        if alloc_ok then goto (ReadingData r (size h)) u s else goto (Unlocking r (-1) None) u s
      else goto (Waiting r) u s
  | ReadingData r n =>
      or_overrun (d ← read_body n (shared s); Some (with_client c (mkClient (Unlocking r 0 (Some d)) u) s))
  | Unlocking r ret d =>
      goto (Returned r ret d) (sem_add SEM_LOCK (-1) u) (with_sets (semv (sets s) semid SEM_LOCK) s)
  | Returned _ _ _ => Blocked
  end.

(** One statement of [rec_msg] or [ack_msg]. *)
Definition server_step (expired alloc_ok : bool) (s : system) : outcome :=
  let semid := call_set s in
  match server s with
  | ServerIdle _ => Blocked
  | Receiving =>
      match semp (sets s) semid SEM_CLIENT_MSG false (rec_timeout_in_ms (handle s)) expired with
      | None => Blocked
      | Some (ret, x) => if ret =? 0 then Next (with_server ReceivingHeader (with_sets x s))
                         else Next (with_server (ServerIdle None) s)
      end
  | ReceivingHeader =>
      if negb (header_size <=? capacity (shared s)) then Overrun
      else let h := header (shared s) in
           Next (with_server (if alloc_ok then ReceivingData h else Confirming h None) s)
  | ReceivingData h => or_overrun (d ← read_body (size h) (shared s); Some (with_server (Confirming h (Some d)) s))
  | Confirming h d =>
      let x := if bool_decide (type h = TYPE_POST) then semv (sets s) semid SEM_SERVER_MSG else sets s in
      Next (with_server (ServerIdle (match d with Some d => Some (h, d) | None => None end)) (with_sets x s))
  | AckHeader h d => or_overrun (g ← write_header h (shared s); Some (with_server (AckData h d) (with_segment g s)))
  | AckData h d => or_overrun (g ← write_body d (shared s); Some (with_server (AckTelling h d) (with_segment g s)))
  | AckTelling h d => Next (with_server (ServerIdle None) (with_sets (semv (sets s) semid SEM_SERVER_MSG) s))
  end.

Inductive event :=
| Call (c : nat) (r : request)                      (* a client calls [pst_msg] or [snd_msg] *)
| ClientStep (c : nat) (expired alloc_ok : bool)
| Exit (c : nat)                                    (* the client's process ends *)
| Receive                                           (* the server calls [rec_msg] *)
| Ack (h : msg_header) (response : str)             (* the server calls [ack_msg] *)
| ServerStep (expired alloc_ok : bool).

Definition busy (p : client_pc) : bool := match p with Returned _ _ _ => false | _ => true end.

Definition step (s : system) (e : event) : outcome :=
  match e with
  | Call c r =>
      match clients s !! c with
      | None => Next (with_client c (mkClient (Locking r) (mkSems 0 0 0)) s)
      | Some cl => if busy (pc cl) then Blocked else Next (with_client c (mkClient (Locking r) (undo cl)) s)
      end
  | ClientStep c expired alloc_ok =>
      match clients s !! c with Some cl => client_step c cl expired alloc_ok s | None => Blocked end
  | Exit c =>
      match clients s !! c with
      | None => Blocked
      | Some cl =>
          Next (mkSystem (handle s)
                  (match sets s !! call_set s with
                   | Some v => <[call_set s := sem_undo (undo cl) v]> (sets s) | None => sets s end)
                  (shared s) (delete c (clients s)) (server s))
      end
  | Receive => match server s with ServerIdle _ => Next (with_server Receiving s) | _ => Blocked end
  | Ack h d => match server s with ServerIdle _ => Next (with_server (AckHeader h d) s) | _ => Blocked end
  | ServerStep expired alloc_ok => server_step expired alloc_ok s
  end.

Fixpoint steps (s : system) (l : list event) : outcome :=
  match l with
  | [] => Next s
  | e :: l' => match step s e with Next s' => steps s' l' | o => o end
  end.

(** ** Mutual exclusion *)

(** Between taking and giving back the lock. *)
Definition inside (p : client_pc) : bool := match p with Locking _ | Returned _ _ _ => false | _ => true end.

Definition holds (m : gmap nat client) (c : nat) : Prop := exists cl, m !! c = Some cl /\ inside (pc cl) = true.

(** The lock is free and nobody is inside, or it is taken and exactly one client is;
    the kernel would give it back for that one. *)
Record lock_state (v : Z) (m : gmap nat client) : Prop := mkLockState {
  lock_undo : forall c cl, m !! c = Some cl -> lock (undo cl) = if inside (pc cl) then 1 else 0;
  lock_holder : v = 1 /\ (forall c, ~ holds m c) \/ v = 0 /\ exists c, holds m c /\ forall c', holds m c' -> c' = c }.

Definition lock_inv (s : system) : Prop := exists v, sets s !! call_set s = Some v /\ lock_state (lock v) (clients s).

Lemma holds_insert m c cl c' :
  holds (<[c := cl]> m) c' <-> (c = c' /\ inside (pc cl) = true) \/ (c <> c' /\ holds m c').
Proof.
  unfold holds. setoid_rewrite lookup_insert_Some. split.
  - intros (x & [[-> ->]|[? ?]] & ?); [by left|right; eauto].
  - intros [[-> ?]|[? (x & ? & ?)]]; eauto.
Qed.

Lemma holds_inside m c cl : m !! c = Some cl -> (holds m c <-> inside (pc cl) = true).
Proof. intros E. split; [intros (x & E' & ?); congruence|by exists cl]. Qed.

(** A step of a client that stays where it is. *)
Lemma lock_same v m c cl :
  lock_state v m -> lock (undo cl) = (if inside (pc cl) then 1 else 0) -> (inside (pc cl) = true <-> holds m c) ->
  lock_state v (<[c := cl]> m).
Proof.
  intros [Hu Hh] Hcl Hc. assert (Hsame : forall c', holds (<[c := cl]> m) c' <-> holds m c').
  { intros c'. rewrite holds_insert. destruct (decide (c = c')) as [<-|]; naive_solver. }
  split; [intros c' x [[_ <-]|[_ ?]]%lookup_insert_Some; [done|eauto]|]. setoid_rewrite Hsame. exact Hh.
Qed.

Lemma lock_enter m c cl cl' :
  lock_state 1 m -> m !! c = Some cl -> inside (pc cl) = false -> inside (pc cl') = true -> lock (undo cl') = lock (undo cl) + 1 ->
  lock_state 0 (<[c := cl']> m).
Proof.
  intros [Hu Hh] E Ho Hi Hl. pose proof (Hu c cl E) as Hlock. rewrite Ho in Hlock. destruct Hh as [[_ Hnone]|[? _]]; [|done].
  split; [intros c' x [[_ <-]|[_ ?]]%lookup_insert_Some; [rewrite Hi; lia|eauto]|]. right. split; [done|]. exists c.
  split; [apply holds_insert; by left|]. intros c' [[? _]|[_ Hc']]%holds_insert; [done|]. by destruct (Hnone c').
Qed.

Lemma lock_leave v m c cl cl' :
  lock_state v m -> m !! c = Some cl -> inside (pc cl) = true -> inside (pc cl') = false -> lock (undo cl') = lock (undo cl) - 1 ->
  lock_state (v + 1) (<[c := cl']> m).
Proof.
  intros [Hu Hh] E Hi Ho Hl. pose proof (Hu c cl E) as Hlock. rewrite Hi in Hlock.
  destruct Hh as [[_ Hnone]|(-> & c0 & _ & Hone)]; [destruct (Hnone c); by exists cl|].
  split; [intros c' x [[_ <-]|[_ ?]]%lookup_insert_Some; [rewrite Ho; lia|eauto]|]. left. split; [done|].
  intros c' [[_ ?]|[Hne Hc']]%holds_insert; [congruence|]. apply Hne. rewrite (Hone c'), (Hone c); [done|by exists cl|done].
Qed.

Lemma lock_exit v m c cl :
  lock_state v m -> m !! c = Some cl -> lock_state (Z.max 0 (v + lock (undo cl))) (delete c m).
Proof.
  intros [Hu Hh] E. pose proof (Hu c cl E) as Hlock.
  assert (Hd : forall c', holds (delete c m) c' <-> c <> c' /\ holds m c').
  { intros c'. unfold holds. setoid_rewrite lookup_delete_Some. naive_solver. }
  split; [intros c' x [_ ?]%lookup_delete_Some; eauto|]. setoid_rewrite Hd. rewrite Hlock.
  destruct (inside (pc cl)) eqn:Hi; destruct Hh as [[-> Hnone]|(-> & c0 & Hc0 & Hone)].
  - destruct (Hnone c). by exists cl.
  - left. split; [done|]. intros c' [Hne Hc']. apply Hne. rewrite (Hone c'), (Hone c); [done|by exists cl|done].
  - left. split; [lia|]. intros c' [_ ?]. by apply (Hnone c').
  - right. split; [done|]. exists c0. split; [split; [|done]|intros c' [_ ?]; auto].
    intros <-. destruct Hc0 as (x & ? & ?). congruence.
Qed.

Lemma semp_lookup x id num nowait timeout expired v ret x' :
  x !! id = Some v -> semp x id num nowait timeout expired = Some (ret, x') ->
  (ret = 0 /\ 0 < sem_get num v /\ x' = <[id := sem_add num (-1) v]> x) \/ (ret = -1 /\ x' = x).
Proof.
  intros E. unfold semp. rewrite E. destruct (0 <? sem_get num v) eqn:Hv; [intros [= <- <-]; left; split_and!; [done|lia|done]|].
  destruct nowait; [|destruct (_ && _)]; intros [=]; subst; by right.
Qed.

Lemma semv_lookup x id num v : x !! id = Some v -> semv x id num = <[id := sem_add num 1 v]> x.
Proof. intros E. unfold semv. by rewrite E. Qed.

(** [s'] has the same handle, a set that agrees on the lock, and client [c] moved
    without crossing the lock. *)
Lemma lock_moved s s' c cl cl' v v' :
  handle s' = handle s -> clients s' = <[c := cl']> (clients s) -> lock_state (lock v) (clients s) ->
  clients s !! c = Some cl -> inside (pc cl') = inside (pc cl) -> lock (undo cl') = lock (undo cl) ->
  sets s' !! call_set s = Some v' -> lock v' = lock v -> lock_inv s'.
Proof.
  intros Hh Hc Hs E Hi Hu Hv Hl. exists v'. unfold call_set in *. rewrite Hh. split; [done|]. rewrite Hl, Hc. apply lock_same; [done| |].
  - rewrite Hi, Hu. by apply (lock_undo _ _ Hs c).
  - rewrite Hi. symmetry. by apply holds_inside.
Qed.

Lemma client_step_lock s c cl expired alloc_ok s' :
  lock_inv s -> clients s !! c = Some cl -> client_step c cl expired alloc_ok s = Next s' -> lock_inv s'.
Proof.
  intros (v & Ev & Hs) Hc. unfold client_step. cbv zeta.
  assert (Hstay : forall p u x g, inside p = inside (pc cl) -> lock u = lock (undo cl) ->
    (exists v', x !! call_set s = Some v' /\ lock v' = lock v) ->
    lock_inv (with_client c (mkClient p u) (with_segment g (with_sets x s)))).
  { intros p u x g Hp Hu (v' & Ex & Hl). by apply (lock_moved s _ c cl (mkClient p u) v v'). }
  assert (Hsame : exists v', sets s !! call_set s = Some v' /\ lock v' = lock v) by eauto.
  assert (Hadd : forall num d, num <> SEM_LOCK -> exists v', <[call_set s := sem_add num d v]> (sets s) !! call_set s = Some v' /\ lock v' = lock v).
  { intros num d Hn. rewrite lookup_insert_eq. eexists. split; [done|]. by destruct num. }
  destruct (pc cl) as [r|r|r|r|r|r|r|r n|r ret d|r ret d] eqn:Ep; intros Hst.
  - destruct (semp _ _ _ _ _ _) as [[ret x]|] eqn:Es; [|done].
    destruct (semp_lookup _ _ _ _ _ _ _ _ _ Ev Es) as [(-> & Hpos & ->)|[-> ->]]; injection Hst as <-.
    + eexists. split; [apply lookup_insert_eq|]. simpl in *.
      assert (Hl : lock v = 1) by (destruct (lock_holder _ _ Hs) as [[? _]|[? _]]; lia). rewrite Hl in *.
      apply (lock_enter _ c cl); [done|done|by rewrite Ep|done|done].
    + by apply (Hstay (Returned r (-1) None) (undo cl) (sets s) (shared s)).
  - destruct (semp _ _ _ _ _ _) as [[ret x]|] eqn:Es; [|done].
    destruct (semp_lookup _ _ _ _ _ _ _ _ _ Ev Es) as [(-> & _ & ->)|[-> ->]]; injection Hst as <-.
    + apply (Hstay (Draining r) (undo cl) (<[call_set s := sem_add SEM_SERVER_MSG (-1) v]> (sets s)) (shared s)); [done|done|by apply Hadd].
    + by apply (Hstay (WritingHeader r) (undo cl) (sets s) (shared s)).
  - destruct (write_header _ _) as [g|]; [|done]. injection Hst as <-. by apply (Hstay (WritingData r) (undo cl) (sets s) g).
  - destruct (write_body _ _) as [g|]; [|done]. injection Hst as <-. by apply (Hstay (Telling r) (undo cl) (sets s) g).
  - injection Hst as <-. rewrite (semv_lookup _ _ _ _ Ev). apply (Hstay (Waiting r) (sem_add SEM_CLIENT_MSG (-1) (undo cl)) (<[call_set s := sem_add SEM_CLIENT_MSG 1 v]> (sets s)) (shared s));
      [done|done|by apply Hadd].
  - destruct (semp _ _ _ _ _ _) as [[ret x]|] eqn:Es; [|done].
    destruct (semp_lookup _ _ _ _ _ _ _ _ _ Ev Es) as [(-> & _ & ->)|[-> ->]]; injection Hst as <-.
    + apply (Hstay (if sends r then ReadingHeader r else Unlocking r 0 None) (undo cl)
        (<[call_set s := sem_add SEM_SERVER_MSG (-1) v]> (sets s)) (shared s)); [by destruct (sends r)|done|by apply Hadd].
    + by apply (Hstay (Unlocking r (-1) None) (undo cl) (sets s) (shared s)).
  - destruct (negb _); [done|]. case_bool_decide; [destruct alloc_ok|]; injection Hst as <-;
      by eapply (Hstay _ (undo cl) (sets s) (shared s)).
  - destruct (read_body _ _) as [d|]; [|done]. injection Hst as <-. by apply (Hstay _ (undo cl) (sets s) (shared s)).
  - injection Hst as <-. rewrite (semv_lookup _ _ _ _ Ev). eexists. split; [apply lookup_insert_eq|].
    apply (lock_leave _ _ c cl); [done|done|by rewrite Ep|done|simpl; lia].
  - done.
Qed.

Lemma server_lock s x p g v :
  lock_state (lock v) (clients s) -> (exists v', x !! call_set s = Some v' /\ lock v' = lock v) ->
  lock_inv (with_server p (with_segment g (with_sets x s))).
Proof. intros Hs (v' & E & Hl). exists v'. split; [done|]. by rewrite Hl. Qed.

Lemma server_step_lock s expired alloc_ok s' : lock_inv s -> server_step expired alloc_ok s = Next s' -> lock_inv s'.
Proof.
  intros (v & Ev & Hs) Hst. unfold server_step in Hst. cbv zeta in Hst.
  assert (Hsame : exists v', sets s !! call_set s = Some v' /\ lock v' = lock v) by eauto.
  assert (Hadd : forall num d, num <> SEM_LOCK -> exists v', <[call_set s := sem_add num d v]> (sets s) !! call_set s = Some v' /\ lock v' = lock v).
  { intros num d Hn. rewrite lookup_insert_eq. eexists. split; [done|]. by destruct num. }
  destruct (server s) as [| | |h|h d|h d|h d|h d]; [done|..].
  - destruct (semp _ _ _ _ _ _) as [[ret x]|] eqn:Es; [|done].
    destruct (semp_lookup _ _ _ _ _ _ _ _ _ Ev Es) as [(-> & _ & ->)|[-> ->]]; injection Hst as <-.
    + apply (server_lock s (<[call_set s := sem_add SEM_CLIENT_MSG (-1) v]> (sets s)) _ (shared s) v); [done|by apply Hadd].
    + by apply (server_lock s (sets s) _ (shared s) v).
  - destruct (negb _); [done|]. injection Hst as <-. by apply (server_lock s (sets s) _ (shared s) v).
  - destruct (read_body _ _); [|done]. injection Hst as <-. by apply (server_lock s (sets s) _ (shared s) v).
  - injection Hst as <-. rewrite (semv_lookup _ _ _ _ Ev). case_bool_decide.
    + apply (server_lock s (<[call_set s := sem_add SEM_SERVER_MSG 1 v]> (sets s)) _ (shared s) v); [done|by apply Hadd].
    + by apply (server_lock s (sets s) _ (shared s) v).
  - destruct (write_header _ _) as [g|]; [|done]. injection Hst as <-. by apply (server_lock s (sets s) _ g v).
  - destruct (write_body _ _) as [g|]; [|done]. injection Hst as <-. by apply (server_lock s (sets s) _ g v).
  - injection Hst as <-. rewrite (semv_lookup _ _ _ _ Ev). 
    apply (server_lock s (<[call_set s := sem_add SEM_SERVER_MSG 1 v]> (sets s)) _ (shared s) v); [done|by apply Hadd].
Qed.

Lemma step_lock s e s' : lock_inv s -> step s e = Next s' -> lock_inv s'.
Proof.
  intros Hi Hst. pose proof Hi as (v & Ev & Hs). destruct e as [c r|c expired ok|c| |h d|expired ok]; cbn [step] in Hst.
  - destruct (clients s !! c) as [cl|] eqn:Ec.
    + destruct (busy (pc cl)) eqn:Eb; [done|]. injection Hst as <-.
      apply (lock_moved s _ c cl (mkClient (Locking r) (undo cl)) v v); try done. by destruct (pc cl).
    + injection Hst as <-. exists v. split; [done|]. apply lock_same; [done|done|]. split; [done|]. intros (x & ? & _). congruence.
  - destruct (clients s !! c) as [cl|] eqn:Ec; [|done]. by eapply client_step_lock.
  - destruct (clients s !! c) as [cl|] eqn:Ec; [|done]. rewrite Ev in Hst. injection Hst as <-.
    eexists. split; [apply lookup_insert_eq|]. simpl. by apply lock_exit.
  - destruct (server s); try done. injection Hst as <-. apply (server_lock s (sets s) _ (shared s) v); eauto.
  - destruct (server s); try done. injection Hst as <-. apply (server_lock s (sets s) _ (shared s) v); eauto.
  - by eapply server_step_lock.
Qed.

Lemma steps_lock l : forall s s', lock_inv s -> steps s l = Next s' -> lock_inv s'.
Proof.
  induction l as [|e l IH]; intros s s' Hi Hst; [by injection Hst as <-|]. cbn [steps] in Hst.
  destruct (step s e) as [| |s1] eqn:E; try done. eapply IH; [|exact Hst]. by eapply step_lock.
Qed.

(** A system after [init_shm_ipc] and before any call. *)
Definition initial (h : shm_ipc) (x : semsets) (g : segment) : system := mkSystem h x g ∅ (ServerIdle None).

(** C27: the lock of the shared memory excludes: from a set whose lock is 1, through any
    interleaving of calls, time-outs, failed allocations and clients that die at any
    point, at most one client is between taking and giving back the lock, and the
    lock is free exactly when there is none; one that dies inside gives it back. *)
Theorem lock_exclusive h x g v l s :
  x !! shm_id h = Some v -> lock v = 1 -> steps (initial h x g) l = Next s ->
  (forall c c', holds (clients s) c -> holds (clients s) c' -> c = c')
  /\ exists v', sets s !! call_set s = Some v' /\ (lock v' = 0 \/ lock v' = 1)
       /\ (lock v' = 1 <-> forall c, ~ holds (clients s) c).
Proof.
  intros Ex Hl Hst. assert (Hi : lock_inv (initial h x g)).
  { exists v. split; [done|]. rewrite Hl. split; [intros c cl; simpl; by rewrite lookup_empty|]. left. split; [done|].
    intros c (cl & E & _). simpl in E. by rewrite lookup_empty in E. }
  destruct (steps_lock l _ _ Hi Hst) as (v' & Ev & [_ Hh]). destruct Hh as [[E Hnone]|(E & c0 & Hc0 & Hone)].
  - split; [intros c c' Hc; by destruct (Hnone c)|]. exists v'. split_and!; [done|by right|done].
  - split; [intros c c' Hc Hc'; by rewrite (Hone c), (Hone c')|]. exists v'. split_and!; [done|by left|].
    split; [lia|]. intros Hn. by destruct (Hn c0).
Qed.
