(* ===== verification/IpcExchange.v ===== *)
(** * Requests and answers through shared memory

    One server that answers everything it receives, any number of clients that post
    and send, no time-outs and no failed allocations: every call returns the answer
    to its own request, no copy leaves the segment, and while a call is under way
    some process can go on. *)

From S2P Require Import Prelude Ipc.

Open Scope Z_scope.

#[export] Instance msg_header_eq_dec : EqDecision msg_header.
Proof. solve_decision. Defined.

Section Exchange.
(** What the server makes of a header and a request. *)
Variable service : msg_header -> str -> str.
Variable room : Z.

Definition fits (d : str) : bool := header_size + Z.of_nat (length d) <=? room.

Definition reply_header (h : msg_header) (d : str) : msg_header :=
  mkHeader (msg_id h) (type h) (Z.of_nat (length (service h d))).

(** The events of such an execution; a request is not dropped unanswered. *)
Definition calm (s : system) (e : event) : bool :=
  match e with
  | Call _ r => fits (data r)
  | ClientStep _ expired alloc_ok | ServerStep expired alloc_ok => negb expired && alloc_ok
  | Exit _ => false
  | Receive => match server s with ServerIdle (Some _) => false | _ => true end
  | Ack h d =>
      match server s with
      | ServerIdle (Some (h0, d0)) => bool_decide (h = reply_header h0 d0) && bool_decide (d = service h0 d0)
      | _ => false
      end
  end.

Fixpoint calm_all (s : system) (l : list event) : bool :=
  match l with
  | [] => true
  | e :: l' => calm s e && match step s e with Next s' => calm_all s' l' | _ => true end
  end.

(** What reaches the server: nothing of what is posted. *)
Definition received (r : request) : str := if sends r then data r else [].
Definition answer_to (r : request) : str := service (request_header r) (received r).
Definition result_of (r : request) : option str := if sends r then Some (answer_to r) else None.

(** ** The phases of an exchange *)

Definition quiet (p : server_pc) : bool := match p with ServerIdle None | Receiving => true | _ => false end.

Definition holds_request (r : request) (g : segment) : Prop :=
  header g = request_header r /\ exists rest, body g = data r ++ rest.
Definition reply_of (r : request) : msg_header := reply_header (request_header r) (received r).
Definition holds_reply (r : request) (g : segment) : Prop :=
  header g = reply_of r /\ exists rest, body g = answer_to r ++ rest.

Definition serving (r : request) (p : server_pc) (g : segment) : Prop :=
  match p with
  | ReceivingHeader => holds_request r g
  | ReceivingData h => h = request_header r /\ holds_request r g
  | Confirming h d => h = request_header r /\ d = Some (received r)
  | ServerIdle (Some (h, d)) => h = request_header r /\ d = received r
  | AckHeader h d => h = reply_of r /\ d = answer_to r
  | AckData h d => h = reply_of r /\ d = answer_to r /\ header g = h
  | AckTelling h d => h = reply_of r /\ d = answer_to r /\ holds_reply r g
  | _ => False
  end.

(** The client inside, the message semaphores, the segment and the server. *)
Definition active (p : client_pc) (cm sm : Z) (g : segment) (q : server_pc) : Prop :=
  match p with
  | Draining _ | WritingHeader _ => cm = 0 /\ sm = 0 /\ quiet q = true
  | WritingData r => cm = 0 /\ sm = 0 /\ quiet q = true /\ header g = request_header r
  | Telling r => cm = 0 /\ sm = 0 /\ quiet q = true /\ holds_request r g
  | Waiting r =>
      (cm = 1 /\ sm = 0 /\ quiet q = true /\ holds_request r g) \/ (cm = 0 /\ sm = 0 /\ serving r q g)
      \/ (cm = 0 /\ sm = 1 /\ quiet q = true /\ holds_reply r g)
  | ReadingHeader r => sends r = true /\ cm = 0 /\ sm = 0 /\ quiet q = true /\ holds_reply r g
  | ReadingData r n => sends r = true /\ n = Z.of_nat (length (answer_to r)) /\ cm = 0 /\ sm = 0 /\ quiet q = true /\ holds_reply r g
  | Unlocking r ret d => ret = 0 /\ d = result_of r /\ cm = 0 /\ sm = 0 /\ quiet q = true
  | _ => False
  end.

Definition request_of (p : client_pc) : request :=
  match p with
  | Locking r | Draining r | WritingHeader r | WritingData r | Telling r | Waiting r | ReadingHeader r
  | ReadingData r _ | Unlocking r _ _ | Returned r _ _ => r
  end.

Definition client_ok (p : client_pc) : Prop :=
  fits (data (request_of p)) = true /\ match p with Returned r ret d => ret = 0 /\ d = result_of r | _ => True end.

(** Everyone outside, or one inside. *)
Definition phase (v : semset) (m : gmap nat client) (g : segment) (q : server_pc) : Prop :=
  (lock v = 1 /\ client_msg v = 0 /\ server_msg v = 0 /\ quiet q = true
   /\ map_Forall (fun _ cl => inside (pc cl) = false) m)
  \/ (lock v = 0 /\ exists c cl, m !! c = Some cl /\ active (pc cl) (client_msg v) (server_msg v) g q
      /\ forall c' cl', c' <> c -> m !! c' = Some cl' -> inside (pc cl') = false).

Record exchanging (s : system) : Prop := mkExchanging {
  ex_room : capacity (shared s) = room;
  ex_clients : map_Forall (fun _ cl => client_ok (pc cl)) (clients s);
  ex_phase : exists v, sets s !! call_set s = Some v /\ phase v (clients s) (shared s) (server s) }.

Hypothesis replies_fit : forall h d, fits (service h d) = true.

Lemma active_inside p cm sm g q : active p cm sm g q -> inside p = true.
Proof. by destruct p. Qed.

(** ** Copies *)

Lemma room_header g : capacity g = room -> (header_size <=? capacity g) = true.
Proof. intros ->. pose proof (replies_fit (mkHeader [] TYPE_SEND 0) []) as Hr. apply Z.leb_le in Hr. apply Z.leb_le. lia. Qed.

Lemma write_header_ok h g : capacity g = room -> write_header h g = Some (mkSegment (capacity g) h (body g)).
Proof. intros E. unfold write_header. by rewrite room_header. Qed.

Lemma write_body_ok d g : capacity g = room -> fits d = true ->
  write_body d g = Some (mkSegment (capacity g) (header g) (d ++ drop (length d) (body g))).
Proof. intros E Hd. unfold write_body. unfold fits in Hd. by rewrite E, Hd. Qed.

Lemma read_body_ok d rest g : capacity g = room -> fits d = true -> body g = d ++ rest ->
  read_body (Z.of_nat (length d)) g = Some d.
Proof.
  intros E Hd Hb. unfold read_body. unfold fits in Hd. rewrite E, Hd, Hb.
  rewrite (proj2 (Z.leb_le 0 (Z.of_nat (length d)))) by lia. cbn [andb]. by rewrite Nat2Z.id, take_app_length.
Qed.

Lemma read_request r g : capacity g = room -> fits (data r) = true -> holds_request r g ->
  read_body (size (request_header r)) g = Some (received r).
Proof.
  intros E Hf [_ [rest Hb]]. unfold request_header, received. destruct (sends r); [by eapply read_body_ok|].
  change 0 with (Z.of_nat (length ([] : str))). eapply read_body_ok; [done| |done].
  apply Z.leb_le in Hf. apply Z.leb_le. cbn [length]. lia.
Qed.

(** ** Steps of the server *)

(** The server while client [c] waits for it. *)
Lemma serving_step s r : capacity (shared s) = room -> fits (data r) = true -> serving r (server s) (shared s) ->
  match server_step false true s with
  | Overrun => False
  | Blocked => exists h d, server s = ServerIdle (Some (h, d))
  | Next s' => exists q g, capacity g = room
      /\ ((s' = with_server q (with_segment g s) /\ serving r q g)
          \/ (s' = with_server q (with_sets (semv (sets s) (call_set s) SEM_SERVER_MSG) s) /\ q = ServerIdle None
              /\ holds_reply r (shared s)))
  end.
Proof.
  intros Hroom Hf Hs. unfold server_step. cbv zeta. destruct (server s) as [[[h d]|]| | |h|h d|h d|h d|h d] eqn:Eq; try done; simpl in Hs.
  - eauto.
  - rewrite room_header by done. cbn [negb]. exists (ReceivingData (header (shared s))), (shared s).
    split; [done|]. left. split; [by destruct s|]. split; [apply Hs|done].
  - destruct Hs as [-> Hs]. rewrite (read_request r) by done. cbn [mbind option_bind or_overrun].
    exists (Confirming (request_header r) (Some (received r))), (shared s). split; [done|]. left. by split; [destruct s|].
  - destruct Hs as [-> ->]. assert (Ht : type (request_header r) = TYPE_SEND) by (unfold request_header; by destruct (sends r)).
    rewrite Ht, bool_decide_false by done. exists (ServerIdle (Some (request_header r, received r))), (shared s).
    split; [done|]. left. by split; [destruct s|].
  - destruct Hs as [-> ->]. rewrite write_header_ok by done. cbn [mbind option_bind or_overrun]. eexists _, _.
    split; [|left; split; [reflexivity|done]]. done.
  - destruct Hs as (-> & -> & Hh). rewrite write_body_ok by (done || apply replies_fit). cbn [mbind option_bind or_overrun]. eexists _, _.
    split; [|left; split; [reflexivity|]]; [done|]. split_and!; [done|done|split; [done|by eexists]].
  - destruct Hs as (-> & -> & Hh). exists (ServerIdle None), (shared s). split; [done|]. by right.
Qed.

(** ** Every step keeps the exchange *)

Definition others_outside (c : nat) (m : gmap nat client) : Prop :=
  forall c' cl', c' <> c -> m !! c' = Some cl' -> inside (pc cl') = false.

Lemma exchanging_inside s c p u x v g q :
  exchanging s -> capacity g = room -> client_ok p -> x !! call_set s = Some v -> lock v = 0 ->
  active p (client_msg v) (server_msg v) g q -> others_outside c (clients s) ->
  exchanging (mkSystem (handle s) x g (<[c := mkClient p u]> (clients s)) q).
Proof.
  intros [Hroom Hcl _] Hg Hp Hx Hl Ha Ho. split; [done|simpl; by apply map_Forall_insert_2|]. exists v. split; [done|]. right.
  split; [done|]. exists c, (mkClient p u). simpl. rewrite lookup_insert_eq. split_and!; [done|done|].
  intros c' cl' Hne E. rewrite lookup_insert_ne in E by done. by eapply Ho.
Qed.

(** The server moves while the client inside stays. *)
Lemma exchanging_server s c cl x v g q :
  exchanging s -> capacity g = room -> clients s !! c = Some cl -> x !! call_set s = Some v -> lock v = 0 ->
  active (pc cl) (client_msg v) (server_msg v) g q -> others_outside c (clients s) ->
  exchanging (mkSystem (handle s) x g (clients s) q).
Proof.
  intros Hs Hg Ec Hx Hl Ha Ho. replace (clients s) with (<[c := mkClient (pc cl) (undo cl)]> (clients s)).
  - apply (exchanging_inside s c _ _ x v); try done. by apply (ex_clients _ Hs c cl).
  - apply insert_id. rewrite Ec. by destruct cl.
Qed.

Lemma semp_wait x id num timeout v :
  x !! id = Some v -> semp x id num false timeout false =
    if 0 <? sem_get num v then Some (0, <[id := sem_add num (-1) v]> x) else None.
Proof. intros E. unfold semp. rewrite E. destruct (0 <? _); [done|]. by rewrite andb_false_r. Qed.

Lemma inside_step s c cl v :
  exchanging s -> sets s !! call_set s = Some v -> lock v = 0 -> clients s !! c = Some cl ->
  active (pc cl) (client_msg v) (server_msg v) (shared s) (server s) -> others_outside c (clients s) ->
  match client_step c cl false true s with
  | Overrun => False
  | Blocked => exists r, pc cl = Waiting r /\ server_msg v = 0
  | Next s' => exchanging s'
  end.
Proof.
  intros Hs Ev Hl Ec Ha Ho. pose proof (ex_room _ Hs) as Hroom. pose proof (ex_clients _ Hs c cl Ec) as [Hfit Hok].
  unfold client_step. cbv zeta. destruct (pc cl) as [r|r|r|r|r|r|r|r n|r ret d|r ret d] eqn:Ep; try done; simpl in Ha, Hfit.
  - destruct Ha as (Hc & Hm & Hq). unfold semp. rewrite Ev. cbn [sem_get]. rewrite Hm. simpl.
    by apply (exchanging_inside s c _ _ (sets s) v).
  - destruct Ha as (Hc & Hm & Hq). rewrite write_header_ok by done. cbn [mbind option_bind or_overrun].
    by apply (exchanging_inside s c _ _ (sets s) v).
  - destruct Ha as (Hc & Hm & Hq & Hh). rewrite write_body_ok by done. cbn [mbind option_bind or_overrun].
    apply (exchanging_inside s c _ _ (sets s) v); try done. split_and!; [done|done|done|split; [done|by eexists]].
  - destruct Ha as (Hc & Hm & Hq & Hh). rewrite (semv_lookup _ _ _ _ Ev).
    apply (exchanging_inside s c _ _ _ (sem_add SEM_CLIENT_MSG 1 v)); try done; [apply lookup_insert_eq|].
    left. split_and!; [simpl; lia|done|done|done].
  - rewrite (semp_wait _ _ _ _ v) by done. cbn [sem_get]. destruct (Z.ltb_spec 0 (server_msg v)) as [Hpos|Hpos].
    + destruct Ha as [(_ & ? & _)|[(_ & ? & _)|(Hc & Hm & Hq & Hrep)]]; [lia|lia|]. simpl.
      apply (exchanging_inside s c _ _ _ (sem_add SEM_SERVER_MSG (-1) v)); try done; [by destruct (sends r)|apply lookup_insert_eq|].
      destruct (sends r) eqn:Es; simpl; [|unfold result_of; rewrite Es]; split_and!; try done; lia.
    + exists r. split; [done|]. destruct Ha as [(_ & ? & _)|[(_ & ? & _)|(_ & ? & _)]]; lia.
  - destruct Ha as (Hsend & Hc & Hm & Hq & Hrep). rewrite room_header by done. cbn [negb].
    destruct Hrep as [Hh Hb]. rewrite bool_decide_true.
    2: { rewrite Hh. unfold reply_of, reply_header, request_header. by destruct (sends r). }
    apply (exchanging_inside s c _ _ (sets s) v); try done. split_and!; try done. by rewrite Hh.
  - destruct Ha as (Hsend & -> & Hc & Hm & Hq & Hh & rest & Hb). rewrite (read_body_ok (answer_to r) rest) by (done || apply replies_fit).
    cbn [mbind option_bind or_overrun]. apply (exchanging_inside s c _ _ (sets s) v); try done.
    split_and!; try done. unfold result_of. by rewrite Hsend.
  - destruct Ha as (-> & -> & Hc & Hm & Hq). rewrite (semv_lookup _ _ _ _ Ev).
    split; [done|simpl; apply map_Forall_insert_2; [by split|apply Hs]|].
    exists (sem_add SEM_LOCK 1 v). split; [apply lookup_insert_eq|]. left. split_and!; [simpl; lia|done|done|done|].
    intros c' cl'. simpl. intros [[_ <-]|[Hne E]]%lookup_insert_Some; [done|]. by apply (Ho c').
Qed.

Lemma quiet_step s v : sets s !! call_set s = Some v -> quiet (server s) = true ->
  match server_step false true s with
  | Overrun => False
  | Blocked => client_msg v <= 0 \/ server s = ServerIdle None
  | Next s' => 0 < client_msg v /\ s' = with_server ReceivingHeader (with_sets (<[call_set s := sem_add SEM_CLIENT_MSG (-1) v]> (sets s)) s)
  end.
Proof.
  intros Ev Hq. unfold server_step. cbv zeta. destruct (server s) as [[[]|]| | | | | | |]; try done; [by right|].
  rewrite (semp_wait _ _ _ _ v) by done. cbn [sem_get]. by destruct (Z.ltb_spec 0 (client_msg v)); [|left].
Qed.

Lemma server_exchanging s s' : exchanging s -> server_step false true s = Next s' -> exchanging s'.
Proof.
  intros Hs Hst. pose proof (ex_room _ Hs) as Hroom. destruct (ex_phase _ Hs) as (v & Ev & [(Hl & Hc & Hm & Hq & Ho)|(Hl & c & cl & Ec & Ha & Ho)]).
  - pose proof (quiet_step s v Ev Hq) as Hstep. rewrite Hst in Hstep. lia.
  - assert (Hquiet : quiet (server s) = true -> exists r, pc cl = Waiting r /\ client_msg v = 1 /\ server_msg v = 0 /\ holds_request r (shared s)).
    { intros Hq. pose proof (quiet_step s v Ev Hq) as Hstep. rewrite Hst in Hstep. destruct Hstep as [Hpos _].
      destruct (pc cl) as [r|r|r|r|r|r|r|r n|r ret d|r ret d]; simpl in Ha; try (exfalso; naive_solver lia).
      exists r. destruct Ha as [(? & ? & _ & ?)|[(? & _)|(? & _)]]; [done|lia|lia]. }
    destruct (quiet (server s)) eqn:Hq.
    + destruct (Hquiet eq_refl) as (r & Ep & Hc & Hm & Hr). pose proof (quiet_step s v Ev Hq) as Hstep. rewrite Hst in Hstep.
      destruct Hstep as [_ ->]. apply (exchanging_server s c cl _ (sem_add SEM_CLIENT_MSG (-1) v)); try done; [apply lookup_insert_eq|].
      rewrite Ep. right. left. split_and!; [simpl; lia|done|done].
    + assert (Hserv : exists r, pc cl = Waiting r /\ client_msg v = 0 /\ server_msg v = 0 /\ serving r (server s) (shared s)).
      { destruct (pc cl) as [r|r|r|r|r|r|r|r n|r ret d|r ret d]; simpl in Ha; try (exfalso; naive_solver congruence).
        exists r. destruct Ha as [(_ & _ & ? & _)|[?|(_ & _ & ? & _)]]; [congruence|done|congruence]. }
      destruct Hserv as (r & Ep & Hc & Hm & Hr). pose proof (ex_clients _ Hs c cl Ec) as [Hfit _]. rewrite Ep in Hfit.
      pose proof (serving_step s r Hroom Hfit Hr) as Hstep. rewrite Hst in Hstep.
      destruct Hstep as (q & g & Hg & [[-> Hq']|(-> & -> & Hrep)]).
      * apply (exchanging_server s c cl (sets s) v); try done. rewrite Ep. right. by left.
      * rewrite (semv_lookup _ _ _ _ Ev). apply (exchanging_server s c cl _ (sem_add SEM_SERVER_MSG 1 v)); try done; [apply lookup_insert_eq|].
        rewrite Ep. right. right. split_and!; [done|simpl; lia|done|done].
Qed.

(** The server is quiet, or it serves the client that waits. *)
Lemma server_side s : exchanging s ->
  exists v, sets s !! call_set s = Some v /\
    (quiet (server s) = true
     \/ exists c cl r, clients s !! c = Some cl /\ pc cl = Waiting r /\ fits (data r) = true /\ serving r (server s) (shared s)).
Proof.
  intros Hs. destruct (ex_phase _ Hs) as (v & Ev & [(_ & _ & _ & Hq & _)|(_ & c & cl & Ec & Ha & _)]); exists v; (split; [done|]); [by left|].
  pose proof (ex_clients _ Hs c cl Ec) as [Hfit _].
  destruct (pc cl) as [r|r|r|r|r|r|r|r n|r ret d|r ret d] eqn:Ep; simpl in Ha; try (left; naive_solver).
  destruct Ha as [(_ & _ & ? & _)|[(_ & _ & Hsv)|(_ & _ & ? & _)]]; [by left| |by left]. right. by exists c, cl, r.
Qed.

Lemma server_no_overrun s : exchanging s -> server_step false true s <> Overrun.
Proof.
  intros Hs E. destruct (server_side s Hs) as (v & Ev & [Hq|(c & cl & r & _ & _ & Hfit & Hsv)]).
  - pose proof (quiet_step s v Ev Hq) as Hstep. by rewrite E in Hstep.
  - pose proof (serving_step s r (ex_room _ Hs) Hfit Hsv) as Hstep. by rewrite E in Hstep.
Qed.

Lemma client_exchanging s c cl : exchanging s -> clients s !! c = Some cl ->
  match client_step c cl false true s with Overrun => False | Blocked => True | Next s' => exchanging s' end.
Proof.
  intros Hs Ec. pose proof (ex_clients _ Hs c cl Ec) as [Hfit _]. pose proof (ex_room _ Hs) as Hroom.
  destruct (ex_phase _ Hs) as (v & Ev & [(Hl & Hc & Hm & Hq & Ho)|(Hl & c0 & cl0 & E0 & Ha & Ho)]).
  - pose proof (Ho c cl Ec) as Hout. simpl in Hout. unfold client_step. cbv zeta. destruct (pc cl); try done.
    rewrite (semp_wait _ _ _ _ v) by done. cbn [sem_get]. rewrite Hl. simpl.
    apply (exchanging_inside s c _ _ _ (sem_add SEM_LOCK (-1) v)); try done; [apply lookup_insert_eq|simpl; lia|].
    intros c' cl' _ E'. by apply (Ho c').
  - destruct (decide (c = c0)) as [->|Hne].
    + assert (cl0 = cl) as -> by congruence. pose proof (inside_step s c0 cl v Hs Ev Hl Ec Ha Ho) as Hst.
      by destruct (client_step c0 cl false true s).
    + pose proof (Ho c cl Hne Ec) as Hout. unfold client_step. cbv zeta. destruct (pc cl); try done.
      rewrite (semp_wait _ _ _ _ v) by done. cbn [sem_get]. by rewrite Hl.
Qed.

Lemma step_exchanging s e : exchanging s -> calm s e = true ->
  match step s e with Overrun => False | Blocked => True | Next s' => exchanging s' end.
Proof.
  intros Hs Hcalm. pose proof (ex_room _ Hs) as Hroom. destruct e as [c r|c expired ok|c| |h d|expired ok]; cbn [step calm] in *.
  - assert (Hnew : forall u, (forall cl, clients s !! c = Some cl -> inside (pc cl) = false) ->
      exchanging (with_client c (mkClient (Locking r) u) s)).
    { intros u Hout. split; [done|simpl; apply map_Forall_insert_2; [by split|apply Hs]|].
      destruct (ex_phase _ Hs) as (v & Ev & [(Hl & Hc & Hm & Hq & Ho)|(Hl & c0 & cl0 & E0 & Ha & Ho)]); exists v; (split; [done|]).
      - left. split_and!; try done. simpl. by apply map_Forall_insert_2.
      - right. split; [done|]. exists c0, cl0. assert (c <> c0) by (intros <-; pose proof (active_inside _ _ _ _ _ Ha); by rewrite Hout in *).
        simpl. rewrite lookup_insert_ne by done. split_and!; [done|done|].
        intros c' cl' Hne [[_ <-]|[_ E']]%lookup_insert_Some; [done|]. by eapply Ho. }
    destruct (clients s !! c) as [cl|] eqn:Ec; [|apply Hnew; by intros ? ?].
    destruct (busy (pc cl)) eqn:Eb; [done|]. apply Hnew. intros ? [= <-]. by destruct (pc cl).
  - destruct expired, ok; try done. destruct (clients s !! c) as [cl|] eqn:Ec; [|done]. by apply client_exchanging.
  - done.
  - destruct (server s) as [[[]|]| | | | | | |] eqn:Eq; try done. destruct s as [h x g m q]. simpl in *. subst q.
    destruct Hs as [? ? (v & Ev & Hp)]. split; [done|done|]. exists v. split; [done|].
    destruct Hp as [(? & ? & ? & _ & ?)|(? & c & cl & Ec & Ha & Ho)]; [by left|]. right. split; [done|]. exists c, cl.
    split_and!; [done| |done]. destruct (pc cl); simpl in *; try naive_solver.
  - destruct (server s) as [[[h0 d0]|]| | | | | | |] eqn:Eq; try done.
    apply andb_true_iff in Hcalm as [->%bool_decide_eq_true ->%bool_decide_eq_true].
    destruct (ex_phase _ Hs) as (v & Ev & [(_ & _ & _ & Hq & _)|(Hl & c & cl & Ec & Ha & Ho)]); [by rewrite Eq in Hq|].
    apply (exchanging_server s c cl (sets s) v); try done. rewrite Eq in Ha.
    destruct (pc cl) as [r|r|r|r|r|r|r|r n|r ret d|r ret d]; simpl in Ha |- *; try naive_solver.
  - destruct expired, ok; try done. pose proof (server_no_overrun s Hs). destruct (server_step false true s) eqn:Est; try done.
    by eapply server_exchanging.
Qed.

(** Someone can go on while a client is in a call. *)
Lemma exchange_goes_on s c cl : exchanging s -> clients s !! c = Some cl -> busy (pc cl) = true ->
  exists e s', calm s e = true /\ step s e = Next s' /\ match e with Call _ _ => False | _ => True end.
Proof.
  intros Hs Ec Hb. destruct (ex_phase _ Hs) as (v & Ev & [(Hl & Hc & Hm & Hq & Ho)|(Hl & c0 & cl0 & E0 & Ha & Ho)]).
  - pose proof (Ho c cl Ec) as Hout. simpl in Hout. exists (ClientStep c false true). cbn [step calm]. rewrite Ec.
    unfold client_step. cbv zeta. destruct (pc cl); try done. rewrite (semp_wait _ _ _ _ v) by done. cbn [sem_get]. rewrite Hl. simpl. by eexists.
  - pose proof (inside_step s c0 cl0 v Hs Ev Hl E0 Ha Ho) as Hst.
    destruct (client_step c0 cl0 false true s) as [| |s'] eqn:Est; [|done|exists (ClientStep c0 false true), s'; cbn [step]; by rewrite E0].
    destruct Hst as (r & Ep & Hm). rewrite Ep in Ha. destruct Ha as [(Hc & _ & Hq & _)|[(_ & _ & Hsv)|(_ & ? & _)]]; [| |lia].
    + pose proof (quiet_step s v Ev Hq) as Hstep. destruct (server_step false true s) as [| |s'] eqn:Es; [|done|].
      * destruct Hstep as [?|Hidle]; [lia|]. exists Receive. cbn [step calm]. rewrite Hidle. by eexists.
      * by exists (ServerStep false true), s'.
    + pose proof (ex_clients _ Hs c0 cl0 E0) as [Hfit _]. rewrite Ep in Hfit.
      pose proof (serving_step s r (ex_room _ Hs) Hfit Hsv) as Hstep. destruct (server_step false true s) as [| |s'] eqn:Es; [|done|].
      * destruct Hstep as (h & d & Hidle). exists (Ack (reply_header h d) (service h d)). cbn [step calm]. rewrite Hidle.
        rewrite !bool_decide_true by done. by eexists.
      * by exists (ServerStep false true), s'.
Qed.

Lemma steps_exchanging l : forall s, exchanging s -> calm_all s l = true ->
  match steps s l with Overrun => False | Blocked => True | Next s' => exchanging s' end.
Proof.
  induction l as [|e l IH]; intros s Hs Hl; [done|]. cbn [steps calm_all] in *. apply andb_true_iff in Hl as [He Hl].
  pose proof (step_exchanging s e Hs He) as Hst. destruct (step s e) as [| |s']; [done|done|]. by apply IH.
Qed.

Lemma initial_exchanging h x g : x !! shm_id h = Some (mkSems 1 0 0) -> capacity g = room -> exchanging (initial h x g).
Proof. intros Hx Hg. split; [done|apply map_Forall_empty|]. exists (mkSems 1 0 0). split; [done|]. left. by split_and!. Qed.
End Exchange.


(** ** Concrete runs *)

(** A segment of 64 bytes behind the header, and a server that echoes. *)
Definition echo (h : msg_header) (d : str) : str := take 60 d.
Definition demo_ipc : shm_ipc := mkIpc 112 7 7 1000 1000.
Definition demo_sets : semsets := {[7 := mkSems 1 0 0]}.
Definition demo_segment : segment := mkSegment 112 (mkHeader [] TYPE_SEND 0) [].
Definition demo : system := initial demo_ipc demo_sets demo_segment.

Definition hello : request := mkRequest true $"id-1" $"hello".
Definition note : request := mkRequest false $"id-2" $"note".
Definition go (c : nat) : event := ClientStep c false true.
Definition serve : event := ServerStep false true.

(** One client sends, the other waits for the lock, then posts. *)
Definition two_calls : list event :=
  [Call 1 hello; Call 2 note; Receive; go 1; go 1; go 1; go 1; go 1; serve; serve; serve; serve;
   Ack (mkHeader $"id-1" TYPE_SEND 5) $"hello"; serve; serve; serve; go 1; go 1; go 1; go 1;
   go 2; go 2; go 2; go 2; go 2; Receive; serve; serve; serve; serve;
   Ack (mkHeader $"id-2" TYPE_SEND 0) []; serve; serve; serve; go 2; go 2]%nat.

Definition finished (o : outcome) (c : nat) : option client_pc :=
  match o with Next s => cl ← clients s !! c; Some (pc cl) | _ => None end.

Lemma echo_fits hd d : fits 112 (echo hd d) = true.
Proof. unfold fits, echo, header_size. rewrite length_take. apply Z.leb_le. lia. Qed.

Lemma two_calls_end : finished (steps demo two_calls) 1 = Some (Returned hello 0 (Some $"hello"))
  /\ finished (steps demo two_calls) 2 = Some (Returned note 0 None).
Proof. vm_compute. by split. Qed.


Lemma lock_exclusive_witness :
  exists s v, steps demo [Call 1 hello; Call 2 note; go 1; Exit 1; go 2]%nat = Next s
    /\ sets s !! call_set s = Some v /\ lock v = 0 /\ holds (clients s) 2.
Proof.
  destruct (steps demo [Call 1 hello; Call 2 note; go 1; Exit 1; go 2]%nat) as [| |s] eqn:E; [discriminate E|discriminate E|].
  destruct (lock_exclusive demo_ipc demo_sets demo_segment (mkSems 1 0 0) _ s eq_refl eq_refl E) as [_ (v & Ev & [Hv|Hv] & Hiff)];
    vm_compute in E; injection E as <-.
  - eexists _, v. split; [reflexivity|]. split; [exact Ev|]. split; [exact Hv|].
    exists (mkClient (Draining note) (mkSems 1 0 0)). split; reflexivity.
  - vm_compute in Ev. injection Ev as <-. discriminate Hv.
Defined.

(** What is posted arrives as an empty message of the other type. *)
Example post_arrives_empty :
  match steps demo [Call 2 note; Receive; go 2; go 2; go 2; go 2; go 2; serve; serve; serve; serve]%nat with
  | Next s => server s = ServerIdle (Some (mkHeader $"id-2" TYPE_SEND 0, []))
  | _ => False
  end.
Proof. vm_compute. reflexivity. Qed.

(** A server that confirms posts only, as the type says it should, leaves the client
    waiting. *)
Example post_not_confirmed :
  match steps demo [Call 2 note; Receive; go 2; go 2; go 2; go 2; go 2; serve; serve; serve; serve]%nat with
  | Next s => step s (go 2) = Blocked
  | _ => False
  end.
Proof. vm_compute. reflexivity. Qed.

(** The calls use the identifier of the segment: when no semaphore set has it, they
    fail at once. *)
Example other_identifier :
  finished (steps (initial (mkIpc 112 7 3 1000 1000) demo_sets demo_segment) [Call 1 hello; go 1]%nat) 1 = Some (Returned hello (-1) None).
Proof. vm_compute. reflexivity. Qed.

(** A message longer than the segment is copied beyond its end. *)
Example long_message :
  steps demo [Call 1 (mkRequest true $"id-3" (replicate 65 "x"%char)); go 1; go 1; go 1; go 1]%nat = Overrun.
Proof. vm_compute. reflexivity. Qed.

(** A client that initialises its handle resets the lock another one holds. *)
Example init_breaks_lock :
  match steps demo [Call 1 hello; Call 2 note; go 1]%nat with
  | Next s =>
      let '(ret, _, x) := init_shm_ipc ROLE_CLIENT 0 7 true 7 (sets s) in
      ret = 0 /\ match step (with_sets x s) (go 2) with
                 | Next s' => finished (Next s') 1 = Some (Draining hello) /\ finished (Next s') 2 = Some (Draining note)
                 | _ => False
                 end
  | _ => False
  end.
Proof. vm_compute. by repeat split. Qed.

(** After a time-out the answer to an old message overwrites the next one: the second
    client reads an answer that is not its own, and its message is lost. *)
Example late_answer :
  match steps demo [Call 1 hello; Receive; go 1; go 1; go 1; go 1; go 1; serve; serve; serve; serve;
                    ClientStep 1 true true; go 1; Call 2 (mkRequest true $"id-4" $"other"); go 2; go 2; go 2; go 2; go 2;
                    Ack (mkHeader $"id-1" TYPE_SEND 5) $"hello"; serve; serve; serve; go 2; go 2; Receive; serve; serve; serve; serve]%nat with
  | Next s => finished (Next s) 1 = Some (Returned hello (-1) None)
              /\ finished (Next s) 2 = Some (Waiting (mkRequest true $"id-4" $"other"))
              /\ server s = ServerIdle (Some (mkHeader $"id-1" TYPE_SEND 5, $"hello"))
  | _ => False
  end.
Proof. vm_compute. by repeat split. Qed.
