(* ===== verification/ThreadPool.v ===== *)
(** * utils/include/thread_pool.hpp: class [ThreadPool]

    A transition system: producers enqueue, workers take the front task and run
    it outside the lock, the destructor sets [stop] and joins.  Every block that
    holds [queue_mutex] is one atomic event.  A worker whose wait predicate is
    false stays in [Idle]; since the predicate is re-evaluated on every wake-up,
    notifications need not be modelled for safety properties.  Tasks are named by
    numbers. *)

From S2P Require Import Prelude CLib Sync.

Open Scope Z_scope.

Inductive worker := Idle | Running (task : nat) | Exited.
#[export] Instance worker_eq_dec : EqDecision worker.
Proof. solve_decision. Defined.

Record ThreadPool := mkPool {
  _queue_size : Z;               (* int *)
  workers : list worker;
  tasks : list nat;
  stop : bool;
  accepted : list nat;           (* tasks [enqueue] accepted, in order *)
  started : list nat;            (* tasks taken by workers, in order *)
  finished : list nat }.         (* tasks whose call returned *)

Definition new_pool (threads : nat) (queue_size : Z) : ThreadPool :=
  mkPool queue_size (repeat Idle threads) [] false [] [] [].

Inductive pool_error := EnqueueOnStopped | QueueFull.
#[export] Instance pool_error_eq_dec : EqDecision pool_error.
Proof. solve_decision. Defined.

(** [enqueue]: [tasks.size() < _queue_size] compares a [size_t] with an [int],
    which is converted to [size_t]. *)
Definition enqueue (p : ThreadPool) (t : nat) : res pool_error ThreadPool :=
  if stop p then Err EnqueueOnStopped
  else if Z.of_nat (length (tasks p)) <? wrap_u64 (_queue_size p) then
    Ok (mkPool (_queue_size p) (workers p) (tasks p ++ [t]) (stop p) (accepted p ++ [t]) (started p) (finished p))
  else Err QueueFull.

Definition set_queue_size (p : ThreadPool) (x : Z) : ThreadPool :=
  mkPool x (workers p) (tasks p) (stop p) (accepted p) (started p) (finished p).

(** The worker's critical section: wait for [stop || !tasks.empty()], leave when
    stopped and empty, else take the front task.  [None]: still waiting. *)
Definition worker_turn (p : ThreadPool) (w : nat) : option ThreadPool :=
  match workers p !! w with
  | Some Idle =>
      match tasks p with
      | [] => if stop p then
                Some (mkPool (_queue_size p) (<[w := Exited]> (workers p)) [] (stop p)
                        (accepted p) (started p) (finished p))
              else None
      | t :: rest =>
          Some (mkPool (_queue_size p) (<[w := Running t]> (workers p)) rest (stop p)
                  (accepted p) (started p ++ [t]) (finished p))
      end
  | _ => None
  end.

(** [task()] returns and the loop starts over. *)
Definition worker_done (p : ThreadPool) (w : nat) : option ThreadPool :=
  match workers p !! w with
  | Some (Running t) =>
      Some (mkPool (_queue_size p) (<[w := Idle]> (workers p)) (tasks p) (stop p)
              (accepted p) (started p) (finished p ++ [t]))
  | _ => None
  end.

(** The destructor's first half; it then joins: it returns once all exited. *)
Definition set_stop (p : ThreadPool) : ThreadPool :=
  mkPool (_queue_size p) (workers p) (tasks p) true (accepted p) (started p) (finished p).
Definition joined (p : ThreadPool) : bool := forallb (fun w => bool_decide (w = Exited)) (workers p).

Inductive pool_event := Enqueue (t : nat) | SetQueueSize (x : Z) | Turn (w : nat) | Done (w : nat) | Stop.

Definition pool_step (p : ThreadPool) (e : pool_event) : option (ThreadPool * outcome) :=
  match e with
  | Enqueue t => match enqueue p t with
                 | Ok p' => Some (p', Returns 1)
                 | Err EnqueueOnStopped => Some (p, Returns (-1))
                 | Err QueueFull => Some (p, Returns (-2))
                 end
  | SetQueueSize x => Some (set_queue_size p x, Silent)
  | Turn w => p' ← worker_turn p w; Some (p', Silent)
  | Done w => p' ← worker_done p w; Some (p', Silent)
  | Stop => Some (set_stop p, Silent)
  end.

(** ** The invariant *)

Definition running_tasks (ws : list worker) : list nat :=
  omap (fun w => match w with Running t => Some t | _ => None end) ws.

Record pool_inv (n : nat) (p : ThreadPool) : Prop := {
  inv_fifo : started p ++ tasks p = accepted p;
  inv_split : started p ≡ₚ finished p ++ running_tasks (workers p);
  inv_exit : Exited ∈ workers p -> stop p = true /\ tasks p = [];
  inv_size : length (workers p) = n;
}.

Lemma running_insert ws w t :
  ws !! w = Some Idle -> running_tasks (<[w := Running t]> ws) ≡ₚ t :: running_tasks ws.
Proof.
  intros H. rewrite insert_take_drop by (by apply lookup_lt_Some in H).
  rewrite <- (take_drop_middle ws w Idle H) at 3. unfold running_tasks.
  rewrite !omap_app. simpl. by rewrite Permutation_middle.
Qed.

Lemma running_remove ws w t x :
  ws !! w = Some (Running t) -> x <> Running t -> (forall t', x <> Running t') ->
  running_tasks ws ≡ₚ t :: running_tasks (<[w := x]> ws).
Proof.
  intros H _ Hx. rewrite insert_take_drop by (by apply lookup_lt_Some in H).
  rewrite <- (take_drop_middle ws w (Running t) H) at 1. unfold running_tasks.
  rewrite !omap_app. simpl. rewrite Permutation_middle.
  destruct x as [|t'|]; simpl; try done. by destruct (Hx t').
Qed.

Lemma running_exit ws w : ws !! w = Some Idle -> running_tasks (<[w := Exited]> ws) = running_tasks ws.
Proof.
  intros H. rewrite insert_take_drop by (by apply lookup_lt_Some in H).
  rewrite <- (take_drop_middle ws w Idle H) at 3. unfold running_tasks. by rewrite !omap_app.
Qed.

Lemma elem_of_insert_ne (ws : list worker) w x y :
  y ∈ <[w := x]> ws -> y <> x -> y ∈ ws.
Proof.
  rewrite !list_elem_of_lookup. intros [i Hi] Hne. exists i.
  apply list_lookup_insert_Some in Hi as [(_ & ? & _)|[_ Hi]]; [by subst|done].
Qed.

Lemma pool_inv_step n p e p' o : pool_inv n p -> pool_step p e = Some (p', o) -> pool_inv n p'.
Proof.
  intros Hi. pose proof Hi as [F S X L]. unfold pool_step. destruct e as [t|x|w|w|].
  - unfold enqueue. destruct (stop p) eqn:Es; [by intros [= <- <-]|].
    destruct (Z.of_nat (length (tasks p)) <? wrap_u64 (_queue_size p)); intros [= <- <-]; [|done].
    constructor; simpl; [by rewrite app_assoc, F|done|intros Hx; by destruct (X Hx)|done].
  - intros. simplify_eq. by constructor.
  - unfold worker_turn. destruct (workers p !! w) as [[]|] eqn:Ew; try done.
    destruct (tasks p) as [|t rest] eqn:Et.
    + destruct (stop p) eqn:Es; [|done]. simpl. intros. simplify_eq.
      constructor; simpl; [done|by rewrite running_exit|done|by rewrite length_insert].
    + simpl. intros. simplify_eq. constructor; simpl.
      * by rewrite <- app_assoc.
      * rewrite running_insert by done. rewrite S. solve_Permutation.
      * intros Hx. apply elem_of_insert_ne in Hx; [|done]. by destruct (X Hx).
      * by rewrite length_insert.
  - unfold worker_done. destruct (workers p !! w) as [[|t|]|] eqn:Ew; try done. simpl. intros. simplify_eq.
    constructor; simpl; [done| | |by rewrite length_insert].
    + rewrite S. rewrite (running_remove _ w t Idle) by done. solve_Permutation.
    + intros Hx. apply elem_of_insert_ne in Hx; [auto|done].
  - intros. simplify_eq. constructor; simpl; [done|done|intros Hx; by destruct (X Hx)|done].
Qed.

Lemma pool_inv_run n qs tr p : run pool_step (new_pool n qs) tr p -> pool_inv n p.
Proof.
  intros Hr. remember (new_pool n qs) as p0 eqn:E0. induction Hr as [p|p tr p1 e p2 o Hr IH Hs].
  - subst. constructor; simpl; [done| | |by rewrite repeat_length].
    + clear. induction n; simpl; done.
    + intros Hx. exfalso. clear -Hx. induction n; simpl in Hx; set_solver.
  - by eapply pool_inv_step; [apply IH|].
Qed.

(** C3: in every execution tasks are started in the order they were accepted
    (FIFO), and each accepted task is, exactly once, queued, running or
    finished: none is lost or run twice, under any interleaving of producers,
    workers, resizing and shutdown. *)
Theorem pool_fifo_exactly_once n qs tr p :
  run pool_step (new_pool n qs) tr p ->
  started p ++ tasks p = accepted p
  /\ accepted p ≡ₚ finished p ++ running_tasks (workers p) ++ tasks p.
Proof.
  intros [F S X L]%pool_inv_run. split; [done|]. rewrite <- F at 1. rewrite S. by rewrite app_assoc.
Qed.

Definition demo_events : list pool_event :=
  [Enqueue 7; Enqueue 8; Enqueue 9; Turn 0; Turn 1; Done 1; Stop; Enqueue 10; Done 0; Turn 0; Turn 1].
Definition demo : option (ThreadPool * list (pool_event * outcome)) := exec pool_step (new_pool 2 2) demo_events.

Lemma pool_fifo_exactly_once_witness :
  exists p tr, demo = Some (p, tr) /\ started p = [7; 8]%nat /\ finished p = [8; 7]%nat
    /\ started p ++ tasks p = accepted p /\ joined p = true.
Proof.
  eexists _, _. split; [vm_compute; reflexivity|]. do 2 (split; [reflexivity|]). split; [|reflexivity].
  refine (proj1 (pool_fifo_exactly_once 2 2 _ _ (exec_run _ _ demo_events _ _ _))).
  vm_compute; reflexivity.
Defined.

(** C25: when the destructor's joins have returned (every worker exited, and there
    is at least one), every task that was ever accepted has been run to the
    end. *)
Theorem join_runs_everything n qs tr p :
  (0 < n)%nat -> run pool_step (new_pool n qs) tr p -> joined p = true ->
  tasks p = [] /\ stop p = true /\ accepted p ≡ₚ finished p.
Proof.
  intros Hn [F S X L]%pool_inv_run Hj. unfold joined in Hj. rewrite forallb_forall in Hj.
  assert (Hall : forall w, w ∈ workers p -> w = Exited).
  { intros w Hw. apply list_elem_of_In in Hw. specialize (Hj w Hw). by bool_to_prop. }
  destruct (workers p) as [|w ws] eqn:Ew; [simpl in L; lia|].
  destruct X as [Hst Ht]; [rewrite (Hall w); set_solver|]. split; [done|]. split; [done|].
  rewrite <- F, Ht, app_nil_r, S.
  assert (running_tasks (w :: ws) = []) as ->; [|by rewrite app_nil_r].
  clear -Hall. unfold running_tasks. revert Hall. generalize (w :: ws) as l. induction l as [|x l IH]; [done|].
  intros H. cbn [omap list_omap]. rewrite (H x) by set_solver. apply IH. set_solver.
Qed.

Lemma join_runs_everything_witness :
  exists p tr, demo = Some (p, tr) /\ tasks p = [] /\ stop p = true /\ accepted p ≡ₚ finished p.
Proof.
  eexists _, _. split; [vm_compute; reflexivity|].
  refine (join_runs_everything 2 2 _ _ _ (exec_run _ _ demo_events _ _ _) _); [lia|vm_compute; reflexivity|reflexivity].
Defined.

(** While its size is not changed, the queue never holds more tasks than
    [_queue_size] (for a non-negative size), and a task is refused, with the
    pool unchanged, exactly when the pool is stopped or the queue is full. *)
Theorem queue_bounded n qs tr p :
  0 <= qs <= int32_max ->
  run pool_step (new_pool n qs) tr p ->
  (forall x, x ∈ tr -> forall y, x.1 <> SetQueueSize y) ->
  Z.of_nat (length (tasks p)) <= qs
  /\ forall t, match enqueue p t with
     | Err EnqueueOnStopped => stop p = true
     | Err QueueFull => stop p = false /\ Z.of_nat (length (tasks p)) = qs
     | Ok p' => stop p = false /\ Z.of_nat (length (tasks p)) < qs /\ tasks p' = tasks p ++ [t]
     end.
Proof.
  intros Hq Hr Hns.
  assert (Hb : _queue_size p = qs /\ Z.of_nat (length (tasks p)) <= qs).
  { remember (new_pool n qs) as p0 eqn:E0. induction Hr as [p|p tr p1 e p2 o Hr IH Hs]; [subst; simpl; lia|].
    destruct IH as [IH1 IH2]; [done|intros x Hx; apply Hns; set_solver|].
    specialize (Hns (e, o) ltac:(set_solver)). simpl in Hns. unfold pool_step in Hs.
    destruct e as [t|x|w|w|]; [|by destruct (Hns x)| | |by simplify_eq].
    - unfold enqueue in Hs. destruct (stop p1); [by simplify_eq|].
      destruct (Z.ltb_spec (Z.of_nat (length (tasks p1))) (wrap_u64 (_queue_size p1))) as [Hlt|]; [|by simplify_eq].
      rewrite IH1 in *. unfold wrap_u64 in Hlt. rewrite Z.mod_small in Hlt by (unfold int32_max in *; lia).
      simplify_eq. simpl. rewrite length_app. simpl. lia.
    - unfold worker_turn in Hs. repeat case_match; simplify_eq/=; lia.
    - unfold worker_done in Hs. repeat case_match; simplify_eq/=; lia. }
  destruct Hb as [Hqs Hlen]. split; [done|]. intros t. unfold enqueue. rewrite Hqs.
  unfold wrap_u64. rewrite Z.mod_small by (unfold int32_max in *; lia).
  destruct (stop p); [done|]. destruct (Z.ltb_spec (Z.of_nat (length (tasks p))) qs); simpl; [done|]. split; [done|lia].
Qed.

Lemma queue_bounded_witness :
  exists p tr, demo = Some (p, tr) /\ Z.of_nat (length (tasks p)) <= 2.
Proof.
  eexists _, _. split; [vm_compute; reflexivity|].
  refine (proj1 (queue_bounded 2 2 _ _ _ (exec_run _ _ demo_events _ _ _) _));
    [unfold int32_max; lia|vm_compute; reflexivity|].
  intros x Hx y. apply list_elem_of_In in Hx. simpl in Hx. naive_solver.
Defined.
