(* ===== verification/CycleThread.v ===== *)
(** * utils/src/{aip_thread,aip_cycle_thread}.cpp

    A thread that runs a cycle until it is told to stop, and the callers of its
    methods.  One event is one statement that touches shared state: the flag
    [_stop], the mutex, or [_tid], which [pthread_create] may store after the new
    thread has begun to run.  The flag is read and written as if it were atomic.
    [None] means that the thread cannot move: a taken mutex, [get_tid] before there
    is an id, [pthread_join] of a running thread. *)

From S2P Require Import Prelude CLib Sync.

Open Scope Z_scope.

(** ** State *)

(** [run]: in [on_start], at the test of [_stop], in [run_one_cycle], in [on_stop],
    in [get_tid] of the notice, after [pthread_exit]. *)
Inductive runner_pc := Unborn | Starting | Testing | Cycling | Stopping | Naming | Exited.
#[export] Instance runner_pc_eq_dec : EqDecision runner_pc.
Proof. solve_decision. Defined.

(** A caller: before a method, inside [start], [stop] and [signal], [detach] and
    [join], or returned. *)
Inductive caller_pc :=
| AtCreate | AtStoreTid | AtSetStop | AtLock | AtSignal | AtUnlock (ret : Z)
| AtGetTid (detaching : bool) | AtDetach | AtJoin | Back (ret : Z).

Inductive callback := On_start | Run_one_cycle | On_stop.
#[export] Instance callback_eq_dec : EqDecision callback.
Proof. solve_decision. Defined.

Record thread := mkThread {
  _tid : Z;
  _stop : bool;
  _lock : option nat;        (* the caller that holds it *)
  runner : runner_pc;
  callers : list caller_pc;
  calls : list callback }.   (* made by [run], the latest last *)

Definition new_thread (cs : list caller_pc) : thread := mkThread 0 false None Unborn cs [].

Definition set_runner (r : runner_pc) (t : thread) : thread := mkThread (_tid t) (_stop t) (_lock t) r (callers t) (calls t).
Definition called (c : callback) (r : runner_pc) (t : thread) : thread :=
  mkThread (_tid t) (_stop t) (_lock t) r (callers t) (calls t ++ [c]).
Definition set_caller (i : nat) (c : caller_pc) (t : thread) : thread :=
  mkThread (_tid t) (_stop t) (_lock t) (runner t) (<[i := c]> (callers t)) (calls t).
Definition with_lock (l : option nat) (t : thread) : thread :=
  mkThread (_tid t) (_stop t) l (runner t) (callers t) (calls t).

(** ** Steps *)

(** [CycleThread::run]. *)
Definition runner_step (t : thread) : option thread :=
  match runner t with
  | Unborn | Exited => None
  | Starting => Some (called On_start Testing t)
  | Testing => Some (set_runner (if _stop t then Stopping else Cycling) t)
  | Cycling => Some (called Run_one_cycle Testing t)
  | Stopping => Some (called On_stop Naming t)
  | Naming => if _tid t =? 0 then None else Some (set_runner Exited t)
  end.

(** [IThread::start]: [err] is what [pthread_create] returns; [id] is the id of the
    thread it creates. *)
Definition create (i : nat) (err : Z) (t : thread) : option thread :=
  if err =? 0 then
    match runner t with
    | Unborn => Some (set_caller i AtStoreTid (set_runner Starting t))
    | _ => None
    end
  else Some (set_caller i (Back (-1)) t).
Definition store_tid (i : nat) (id : Z) (t : thread) : option thread :=
  if id =? 0 then None
  else Some (set_caller i (Back 0) (mkThread id (_stop t) (_lock t) (runner t) (callers t) (calls t))).

(** [CycleThread::stop] sets the flag, then signals. *)
Definition set_stop (i : nat) (t : thread) : thread :=
  set_caller i AtLock (mkThread (_tid t) true (_lock t) (runner t) (callers t) (calls t)).

(** [CycleThread::signal]; nobody ever waits for the condition. *)
Definition lock (i : nat) (t : thread) : option thread :=
  match _lock t with None => Some (set_caller i AtSignal (with_lock (Some i) t)) | Some _ => None end.

(** [IThread::get_tid], [detach] and [join]. *)
Definition get_tid (i : nat) (detaching : bool) (t : thread) : option thread :=
  if _tid t =? 0 then None else Some (set_caller i (if detaching then AtDetach else AtJoin) t).
Definition done_or_minus_one (err : Z) : Z := if err =? 0 then 0 else -1.
Definition join (i : nat) (err : Z) (t : thread) : option thread :=
  if (err =? 0) && negb (bool_decide (runner t = Exited)) then None
  else Some (set_caller i (Back (done_or_minus_one err)) t).

(** The caller [i] moves; [answer] is what the library function returns (the id, in
    the store of [pthread_create]). *)
Definition caller_step (i : nat) (answer : Z) (t : thread) : option thread :=
  match callers t !! i with
  | Some AtCreate => create i answer t
  | Some AtStoreTid => store_tid i answer t
  | Some AtSetStop => Some (set_stop i t)
  | Some AtLock => lock i t
  | Some AtSignal => Some (set_caller i (AtUnlock answer) t)
  | Some (AtUnlock ret) => Some (set_caller i (Back ret) (with_lock None t))
  | Some (AtGetTid d) => get_tid i d t
  | Some AtDetach => Some (set_caller i (Back (done_or_minus_one answer)) t)
  | Some AtJoin => join i answer t
  | Some (Back _) | None => None
  end.

(** [IThread::set_thread_name]: [snprintf] into 256 bytes; a null pointer is refused. *)
Definition MAX_NAME : nat := 256.
Definition set_thread_name (thread_name : option str) (_thread_name : str) : Z * str :=
  match thread_name with
  | None => (-1, _thread_name)
  | Some s => (0, take (MAX_NAME - 1) (cstr s))
  end.

Inductive event := Runner | Caller (i : nat) (answer : Z).

Definition thread_step (t : thread) (e : event) : option (thread * outcome) :=
  match e with
  | Runner => t' ← runner_step t; Some (t', Silent)
  | Caller i answer => t' ← caller_step i answer t; Some (t', Silent)
  end.

(** ** The order of the callbacks *)

Definition cycles (t : thread) : nat := length (List.filter (fun c => bool_decide (c = Run_one_cycle)) (calls t)).

(** What [run] has called, by where it is. *)
Definition expected_calls (r : runner_pc) (n : nat) : list callback :=
  match r with
  | Unborn | Starting => []
  | Testing | Cycling | Stopping => On_start :: repeat Run_one_cycle n
  | Naming | Exited => On_start :: repeat Run_one_cycle n ++ [On_stop]
  end.

Definition leaving (r : runner_pc) : bool := match r with Stopping | Naming | Exited => true | _ => false end.

Definition cycle_inv (t : thread) : Prop :=
  (exists n, calls t = expected_calls (runner t) n) /\ (leaving (runner t) = true -> _stop t = true).

Lemma caller_keeps i answer t t' : caller_step i answer t = Some t' ->
  calls t' = calls t /\ (_stop t = true -> _stop t' = true)
  /\ (runner t' = runner t \/ runner t = Unborn /\ runner t' = Starting).
Proof.
  unfold caller_step, create, store_tid, lock, get_tid, join.
  destruct (callers t !! i) as [[]|]; intros E; repeat (case_match || case_bool_decide); simplify_eq/=; auto.
Qed.

Lemma repeat_snoc n : repeat Run_one_cycle n ++ [Run_one_cycle] = repeat Run_one_cycle (S n).
Proof. induction n as [|n IH]; [done|]. simpl. by rewrite IH. Qed.

Lemma cycle_inv_step t e t' o : thread_step t e = Some (t', o) -> cycle_inv t -> cycle_inv t'.
Proof.
  intros E [[n Hc] Hs]. destruct e as [|i answer]; simpl in E.
  - destruct (runner_step t) as [t1|] eqn:E1; simpl in E; [|done]. injection E as <- _.
    unfold runner_step in E1. unfold cycle_inv. destruct (runner t) eqn:Er; simplify_eq/=; rewrite ?Hc; simpl.
    + split; [by exists 0%nat|done].
    + destruct (_stop t); simpl; (split; [by exists n|done]).
    + split; [exists (S n); by rewrite <- repeat_snoc|done].
    + split; [by exists n|auto].
    + destruct (_tid t =? 0); simplify_eq. simpl. split; [by exists n|auto].
  - destruct (caller_step i answer t) as [t1|] eqn:E1; simpl in E; [|done]. injection E as <- _.
    destruct (caller_keeps _ _ _ _ E1) as (Hc1 & Hs1 & Hr). unfold cycle_inv. rewrite Hc1.
    destruct Hr as [Hr|[Hr1 Hr2]]; [rewrite Hr; split; [by exists n|auto]|].
    rewrite Hr1 in Hc. rewrite Hr2. split; [by exists n|done].
Qed.

Lemma cycle_inv_run cs tr t : run thread_step (new_thread cs) tr t -> cycle_inv t.
Proof.
  intros Hr. remember (new_thread cs) as t0 eqn:E0. induction Hr as [t|t tr t1 e t2 o _ IH Hs]; subst.
  - split; [by exists 0%nat|done].
  - eapply cycle_inv_step; [done|]. by apply IH.
Qed.

(** In every interleaving the thread calls [on_start] once, then cycles, then
    [on_stop] once, and it leaves the loop only after [stop] has been called. *)
Theorem callbacks_in_order cs tr t :
  run thread_step (new_thread cs) tr t ->
  (exists n, calls t = expected_calls (runner t) n) /\ (leaving (runner t) = true -> _stop t = true).
Proof. apply cycle_inv_run. Qed.

(** ** Stopping *)

(** The cycles that may still be run once the flag is set. *)
Definition left_over (r : runner_pc) : nat := match r with Cycling => 1 | _ => 0 end.

Lemma cycles_snoc l c : length (List.filter (fun c => bool_decide (c = Run_one_cycle)) (l ++ [c]))
  = (length (List.filter (fun c => bool_decide (c = Run_one_cycle)) l) + if bool_decide (c = Run_one_cycle) then 1 else 0)%nat.
Proof. rewrite List.filter_app, length_app. simpl. by case_bool_decide. Qed.

Lemma stop_step t e t' o :
  thread_step t e = Some (t', o) -> _stop t = true ->
  _stop t' = true /\ (cycles t' + left_over (runner t') = cycles t + left_over (runner t))%nat.
Proof.
  intros E Hs. destruct e as [|i answer]; simpl in E.
  - destruct (runner_step t) as [t1|] eqn:E1; simpl in E; [|done]. injection E as <- _. unfold runner_step in E1.
    rewrite Hs in E1. unfold cycles. destruct (runner t) eqn:Er; simplify_eq/=; rewrite ?cycles_snoc; simpl; auto with lia.
    destruct (_tid t =? 0); simplify_eq. auto.
  - destruct (caller_step i answer t) as [t1|] eqn:E1; simpl in E; [|done]. injection E as <- _.
    destruct (caller_keeps _ _ _ _ E1) as (Hc1 & Hs1 & Hr). split; [auto|]. unfold cycles. rewrite Hc1.
    destruct Hr as [->|[-> ->]]; done.
Qed.

(** Once the flag is set no new cycle begins: at most the one that the thread has
    already chosen to run is run, whatever the callers do. *)
Theorem at_most_one_more t tr t' :
  run thread_step t tr t' -> _stop t = true -> (cycles t' <= cycles t + 1)%nat.
Proof.
  intros Hr Hs. assert (_stop t' = true /\ (cycles t' + left_over (runner t') = cycles t + left_over (runner t))%nat) as [_ Hc].
  { induction Hr as [t|t tr t1 e t2 o _ IH E]; [done|]. destruct (IH Hs) as [Hs1 Hc1].
    destruct (stop_step _ _ _ _ E Hs1) as [Hs2 Hc2]. split; [done|lia]. }
  destruct (runner t); simpl in Hc; lia.
Qed.

(** The steps the thread still needs. *)
Definition to_exit (r : runner_pc) : nat :=
  match r with Starting => 4 | Cycling => 4 | Testing => 3 | Stopping => 2 | Naming => 1 | Unborn | Exited => 0 end.

(** Once it is told to stop, a thread whose id is stored exits after at most four
    steps of its own, and [join] returns 0. *)
Theorem stops_soon t :
  runner t <> Unborn -> _stop t = true -> _tid t <> 0 ->
  exists tr t', exec thread_step t (repeat Runner (to_exit (runner t))) = Some (t', tr)
    /\ runner t' = Exited /\ callers t' = callers t /\ (length tr <= 4)%nat
    /\ forall i, callers t !! i = Some AtJoin -> exists t'', caller_step i 0 t' = Some t'' /\ callers t'' !! i = Some (Back 0).
Proof.
  intros Hu Hs Ht%Z.eqb_neq. destruct t as [tid st l r cs cl]; simpl in *. subst st.
  assert (Hj : forall cl', (forall i, cs !! i = Some AtJoin -> exists t'',
    caller_step i 0 (mkThread tid true l Exited cs cl') = Some t'' /\ callers t'' !! i = Some (Back 0))).
  { intros cl' i Hi. unfold caller_step. simpl. rewrite Hi. unfold join. simpl. eexists. split; [done|]. simpl.
    apply list_lookup_insert_eq. by eapply lookup_lt_Some. }
  destruct r; try done; unfold thread_step, runner_step; simpl; rewrite ?Ht; simpl;
    eexists _, _; split_and!; try done; try (simpl; lia); simpl; apply Hj.
Qed.

(** ** Before there is an id *)

(** Without a call of [start] under way nobody gets past [get_tid]: [join] and
    [detach] of a thread that was never started, or whose creation failed, spin for
    ever. *)
Theorem get_tid_spins t tr t' i d :
  Forall (fun c => c <> AtCreate /\ c <> AtStoreTid) (callers t) -> _tid t = 0 ->
  run thread_step t tr t' -> callers t !! i = Some (AtGetTid d) -> callers t' !! i = Some (AtGetTid d).
Proof.
  intros Hc Ht Hr Hi.
  assert (Forall (fun c => c <> AtCreate /\ c <> AtStoreTid) (callers t') /\ _tid t' = 0 /\ callers t' !! i = Some (AtGetTid d))
    as (_ & _ & ?); [|done].
  induction Hr as [t|t tr t1 e t2 o _ IH E]; [done|]. destruct (IH Hc Ht Hi) as (Hc1 & Ht1 & Hi1). clear IH Hc Ht Hi.
  destruct e as [|j answer]; simpl in E.
  - destruct (runner_step t1) as [t3|] eqn:E1; simpl in E; [|done]. injection E as <- _. unfold runner_step in E1.
    destruct (runner t1); simplify_eq/=; auto. rewrite Ht1 in E1. done.
  - destruct (caller_step j answer t1) as [t3|] eqn:E1; simpl in E; [|done]. injection E as <- _.
    unfold caller_step in E1. destruct (callers t1 !! j) as [c|] eqn:Ej; [|done].
    assert (Hc' := Hc1). rewrite Forall_forall in Hc1. destruct (Hc1 c) as [Hn1 Hn2]; [by eapply list_elem_of_lookup_2|].
    assert (Hkeep : forall c', c' <> AtCreate -> c' <> AtStoreTid -> c <> AtGetTid d ->
      Forall (fun c => c <> AtCreate /\ c <> AtStoreTid) (<[j := c']> (callers t1)) /\ <[j := c']> (callers t1) !! i = Some (AtGetTid d)).
    { intros c' H1 H2 Hne. split; [by apply Forall_insert|]. rewrite list_lookup_insert_ne; [done|]. intros ->. congruence. }
    unfold lock, get_tid, join in E1. rewrite Ht1 in E1. simpl in E1.
    destruct c; try done; repeat (case_match || case_bool_decide); simplify_eq/=;
      (edestruct Hkeep as [? ?]; [..|split_and!; [eassumption|done|eassumption]]; done).
Qed.

(** The name and its terminator fit into the buffer, whatever is set. *)
Lemma thread_name_fits names :
  (length (fold_left (fun n name => (set_thread_name name n).2) names $"IThread") < MAX_NAME)%nat.
Proof.
  assert (Hall : forall n, (length n < MAX_NAME)%nat ->
    (length (fold_left (fun n name => (set_thread_name name n).2) names n) < MAX_NAME)%nat).
  { induction names as [|[s|] names IH]; intros n Hn; simpl; [done| |by apply IH].
    apply IH. simpl. rewrite length_take. unfold MAX_NAME. lia. }
  apply Hall. unfold MAX_NAME. simpl. lia.
Qed.

(** ** Concrete runs *)

(** Started by caller 0, stopped by caller 1, joined by caller 2; the id is stored
    after the first cycle. *)
Definition thread_callers : list caller_pc := [AtCreate; AtSetStop; AtGetTid false].

Example started_and_stopped :
  match exec thread_step (new_thread thread_callers)
    [Caller 0 0; Runner; Runner; Runner; Caller 0 77; Caller 2 0; Runner; Caller 1 0; Caller 1 0; Runner; Caller 1 0;
     Caller 1 0; Runner; Runner; Runner; Caller 2 0] with
  | Some (t, _) => runner t = Exited /\ calls t = [On_start; Run_one_cycle; Run_one_cycle; On_stop]
                   /\ callers t = [Back 0; Back 0; Back 0]
  | None => False
  end.
Proof. vm_compute. split_and!; reflexivity. Qed.
