(* ===== verification/AppConfig.v ===== *)
(** * app/src/config.cpp: class [Config]

    Defaults, the JSON configuration file and the command line.  jsoncpp,
    [getopt_long_only] and the file system are parameters: [JsonLib] is the part
    of jsoncpp the code calls, a command line is the sequence of options
    [getopt_long_only] reports, a file is its content and what the heap holds
    behind the read buffer. *)

From S2P Require Import Prelude CLib StdMap StringUtil UrlParser.

Open Scope Z_scope.

(** ** Interfaces *)

(** jsoncpp: conversions throw ([Json::LogicError]) on a value of another kind. *)
Inductive json_exn := LogicError.
#[export] Instance json_exn_eq_dec : EqDecision json_exn.
Proof. solve_decision. Defined.

Class JsonLib := {
  Json : Type;
  json_parse : str -> option Json;           (* Json::Reader::parse *)
  isNull : Json -> bool;
  json_member : Json -> str -> res json_exn Json; (* operator[](key) *)
  json_at : Json -> Z -> res json_exn Json;       (* operator[](ArrayIndex) *)
  asString : Json -> res json_exn str;
  asBool : Json -> res json_exn bool;
}.

(** ** State *)

Record Config := mkConfig {
  _asr_api_source : str; _app_key : str; _app_secret_key : str; _asr_server : str;
  _audio_format : str; _audio_type : Z; _capacity_scope : str; _concurrent_number : Z;
  _enable_asr_service : bool; _log_off_ms : Z; _server_port : Z; _working_dir : str }.

#[export] Instance Config_eq_dec : EqDecision Config.
Proof. solve_decision. Defined.

(** [init_default] on an object whose members have their in-class initialisers. *)
Definition init_default (c : Config) : Config :=
  mkConfig $"baidu" $"kVcnfD9iW2XVZSMaLMrtLYIz" $"O9o1O213UgG5LFn0bDGNtoRN3VWl2du6"
    $"http://vop.baidu.com/server_api" $"pcm" 1537 $"audio_voice_assistant_get" 2
    (_enable_asr_service c) 2000 8005 (_working_dir c).

Definition blank_config : Config := mkConfig [] [] [] [] [] 1537 [] 2 true 2000 8005 [].

(** The configurable members, named as in [opt_id_t]. *)
Inductive field :=
  OPT_ASRAPI_SOURCE | OPT_APP_KEY | OPT_APP_SECRETKEY | OPT_ASR_SERVER | OPT_AUDIO_FORMAT
| OPT_AUDIO_TYPE | OPT_CAPACITY_SCOPE | OPT_CONCURRENT_NUMBER | OPT_ENABLE_ASR_SERVICE
| OPT_LOG_OFF_MS | OPT_SERVER_PORT.
#[export] Instance field_eq_dec : EqDecision field.
Proof. solve_decision. Defined.

Definition string_to_int (input : str) : Z := atoi input.

(** The eleven setters; a [const char*] argument is read up to its NUL. *)
Definition set_enable_asr_service (b : bool) (c : Config) : Config :=
  mkConfig (_asr_api_source c) (_app_key c) (_app_secret_key c) (_asr_server c) (_audio_format c)
    (_audio_type c) (_capacity_scope c) (_concurrent_number c) b (_log_off_ms c) (_server_port c) (_working_dir c).

Definition set_field (f : field) (optarg : str) (c : Config) : Config :=
  let s := cstr optarg in
  match f with
  | OPT_ASRAPI_SOURCE =>
      mkConfig s (_app_key c) (_app_secret_key c) (_asr_server c) (_audio_format c) (_audio_type c)
        (_capacity_scope c) (_concurrent_number c) (_enable_asr_service c) (_log_off_ms c) (_server_port c) (_working_dir c)
  | OPT_APP_KEY =>
      mkConfig (_asr_api_source c) s (_app_secret_key c) (_asr_server c) (_audio_format c) (_audio_type c)
        (_capacity_scope c) (_concurrent_number c) (_enable_asr_service c) (_log_off_ms c) (_server_port c) (_working_dir c)
  | OPT_APP_SECRETKEY =>
      mkConfig (_asr_api_source c) (_app_key c) s (_asr_server c) (_audio_format c) (_audio_type c)
        (_capacity_scope c) (_concurrent_number c) (_enable_asr_service c) (_log_off_ms c) (_server_port c) (_working_dir c)
  | OPT_ASR_SERVER =>
      mkConfig (_asr_api_source c) (_app_key c) (_app_secret_key c) s (_audio_format c) (_audio_type c)
        (_capacity_scope c) (_concurrent_number c) (_enable_asr_service c) (_log_off_ms c) (_server_port c) (_working_dir c)
  | OPT_AUDIO_FORMAT =>
      mkConfig (_asr_api_source c) (_app_key c) (_app_secret_key c) (_asr_server c) s (_audio_type c)
        (_capacity_scope c) (_concurrent_number c) (_enable_asr_service c) (_log_off_ms c) (_server_port c) (_working_dir c)
  | OPT_AUDIO_TYPE =>
      mkConfig (_asr_api_source c) (_app_key c) (_app_secret_key c) (_asr_server c) (_audio_format c) (string_to_int optarg)
        (_capacity_scope c) (_concurrent_number c) (_enable_asr_service c) (_log_off_ms c) (_server_port c) (_working_dir c)
  | OPT_CAPACITY_SCOPE =>
      mkConfig (_asr_api_source c) (_app_key c) (_app_secret_key c) (_asr_server c) (_audio_format c) (_audio_type c)
        s (_concurrent_number c) (_enable_asr_service c) (_log_off_ms c) (_server_port c) (_working_dir c)
  | OPT_CONCURRENT_NUMBER =>
      mkConfig (_asr_api_source c) (_app_key c) (_app_secret_key c) (_asr_server c) (_audio_format c) (_audio_type c)
        (_capacity_scope c) (string_to_int optarg) (_enable_asr_service c) (_log_off_ms c) (_server_port c) (_working_dir c)
  | OPT_ENABLE_ASR_SERVICE =>
      set_enable_asr_service (negb (default 0 (to_bool optarg) =? 0)) c
  | OPT_LOG_OFF_MS =>
      mkConfig (_asr_api_source c) (_app_key c) (_app_secret_key c) (_asr_server c) (_audio_format c) (_audio_type c)
        (_capacity_scope c) (_concurrent_number c) (_enable_asr_service c) (string_to_int optarg) (_server_port c) (_working_dir c)
  | OPT_SERVER_PORT =>
      mkConfig (_asr_api_source c) (_app_key c) (_app_secret_key c) (_asr_server c) (_audio_format c) (_audio_type c)
        (_capacity_scope c) (_concurrent_number c) (_enable_asr_service c) (_log_off_ms c) (string_to_int optarg) (_working_dir c)
  end.

(** ** The configuration file *)

(** [read_file_content]: [None] is a file that cannot be opened.  The buffer is
    [length] bytes with no terminator; [result.assign(buffer)] reads on into
    [heap], the bytes that follow it. *)
Definition read_file_content (file : option str) (heap : str) : Z * str :=
  match file with
  | None => (0, [])
  | Some content =>
      let length := wrap_i32 (Z.of_nat (length content)) in
      if length <=? 0 then (0, [])
      else if Z.quot int32_max 4 <? length then (0, [])
      else (length, cstr (content ++ heap))
  end.

(** The keys of the file, in the order they are read. *)
Definition file_fields : list (field * str) :=
  [(OPT_ENABLE_ASR_SERVICE, $"enable_asr_service"); (OPT_ASRAPI_SOURCE, $"asr_api_source");
   (OPT_APP_KEY, $"app_key"); (OPT_APP_SECRETKEY, $"app_secret_key"); (OPT_ASR_SERVER, $"asr_server");
   (OPT_AUDIO_FORMAT, $"audio_format"); (OPT_AUDIO_TYPE, $"audio_type");
   (OPT_CAPACITY_SCOPE, $"capacity_scope"); (OPT_CONCURRENT_NUMBER, $"concurrent_number");
   (OPT_LOG_OFF_MS, $"log_off_ms"); (OPT_SERVER_PORT, $"server_port")].

Section File.
Context `{JsonLib}.

(** [Json::Value& v = conf[key]; if (!v.isNull()) set(trim(v.asString()))]; the
    boolean member uses [asBool].  An exception leaves what was set so far. *)
Definition load_field (conf : Json) (fk : field * str) : SE Config json_exn unit := fun c =>
  match json_member conf fk.2 with
  | Err e => (Err e, c)
  | Ok v =>
      if isNull v then (Ok tt, c)
      else if bool_decide (fk.1 = OPT_ENABLE_ASR_SERVICE) then
        match asBool v with
        | Err e => (Err e, c)
        | Ok b => (Ok tt, set_enable_asr_service b c)
        end
      else
        match asString v with
        | Err e => (Err e, c)
        | Ok s => (Ok tt, set_field fk.1 (trim s) c)
        end
  end.

Fixpoint load_fields (conf : Json) (fks : list (field * str)) : SE Config json_exn unit :=
  match fks with
  | [] => se_ret tt
  | fk :: fks' => load_field conf fk ;;* load_fields conf fks'
  end.

(** [load_from_file] always returns 0 unless jsoncpp throws. *)
Definition load_from_file (file : option str) (heap : str) : SE Config json_exn Z := fun c =>
  let '(len, content) := read_file_content file heap in
  if len =? 0 then (Ok 0, c)
  else
    match json_parse content with
    | None => (Ok 0, c)
    | Some json =>
        if isNull json then (Ok 0, c)
        else
          match json_member json $"configuration" with
          | Err e => (Err e, c)
          | Ok conf =>
              if isNull conf then (Ok 0, c)
              else (load_fields conf file_fields ;;* se_ret 0) c
          end
    end.

(** The constructor [Config::Config()]. *)
Definition new_config (working_dir : str) (file : option str) (heap : str) : res json_exn Z * Config :=
  load_from_file file heap (init_default (mkConfig [] [] [] [] [] 1537 [] 2 true 2000 8005 working_dir)).
End File.

(** ** The command line *)

(** What [getopt_long_only] reports: [-h] or [--help], one of the long options
    with its argument, or anything else. *)
Inductive opt := OptHelp | OptField (f : field) (optarg : str) | OptOther (optarg : option str).

Definition junk (c : ascii) : bool :=
  isspace (schar c) || isblank (schar c) || Ascii.eqb c "034"%char || Ascii.eqb c "'"%char.

(** [clean_opt]: skip leading junk, then move [end] left while it is past the
    first character, and terminate there. *)
Fixpoint clean_end (fuel : nat) (opt : str) (e : Z) : Z :=
  match fuel with
  | O => e
  | S fuel' => if (0 <? e) && junk (char_at opt e) then clean_end fuel' opt (e - 1) else e
  end.

Definition clean_opt (opt : str) : str :=
  let opt := drop_while junk (cstr opt) in
  let e := clean_end (length opt) opt (Z.of_nat (length opt) - 1) in
  take (Z.to_nat (e + 1)) opt.

Fixpoint load_command_line (opts : list opt) (c : Config) : Z * Config :=
  match opts with
  | [] => (0, c)
  | OptHelp :: _ => (1, c)
  | OptField f optarg :: opts' => load_command_line opts' (set_field f (clean_opt optarg) c)
  | OptOther _ :: opts' => load_command_line opts' c
  end.

(** ** Small operations *)

Definition ensure_valid_string (input : str) : str :=
  map (fun c => if isalnum (schar c) || Ascii.eqb c "_"%char || Ascii.eqb c "-"%char then c else "_"%char)
    (cstr input).

Definition parse_range (input : str) : option (Z * Z) :=
  match split_vec (cstr input) ","%char with
  | [lo; hi] => Some (atoi (trim lo), atoi (trim hi))
  | _ => None
  end.

Definition endl : str := ["010"%char].
Definition config_to_string (c : Config) : str :=
  $"app key:              " ++ _app_key c ++ endl
  ++ $"app secret key:       " ++ _app_secret_key c ++ endl
  ++ $"asr api source:       " ++ _asr_api_source c ++ endl
  ++ $"audio format:         " ++ _audio_format c ++ endl
  ++ $"audio type:           " ++ dec_string (_audio_type c) ++ endl
  ++ $"asr server:           " ++ _asr_server c ++ endl
  ++ $"concurrent number:    " ++ dec_string (_concurrent_number c) ++ endl
  ++ $"server port:    " ++ dec_string (_server_port c) ++ endl.

Definition check_server_uri (c : Config) : Z :=
  if _enable_asr_service c then
    if bool_decide (_uri (parse (_asr_server c)) = []) then -1 else 0
  else 0.

(** The option table of the help text and the names [getopt] knows. *)
Definition s_options : list (str * str) :=
  [($"--api-belong-to", $"baidu"); ($"--app-key", $"kVcnfD9iW2XVZSMaLMrtLYIz");
   ($"--app-secret-key", $"O9o1O213UgG5LFn0bDGNtoRN3VWl2du6"); ($"--asr-server", $"http://vop.baidu.com/server_api");
   ($"--audio-format", $"pcm"); ($"--audio-type", $"1537"); ($"--capacity-scope", $"audio_voice_assistant_get");
   ($"--concurrent-number", $"2"); ($"--enable-asr-service", $"true"); ($"--log-off-ms", $"2000");
   ($"--server-port", $"8005")].

Definition s_long_options : list (str * field) :=
  [($"asr-api-source", OPT_ASRAPI_SOURCE); ($"app-key", OPT_APP_KEY); ($"app-secret-key", OPT_APP_SECRETKEY);
   ($"asr-server", OPT_ASR_SERVER); ($"audio-format", OPT_AUDIO_FORMAT); ($"audio-type", OPT_AUDIO_TYPE);
   ($"capacity-scope", OPT_CAPACITY_SCOPE); ($"concurrent-number", OPT_CONCURRENT_NUMBER);
   ($"enable-asr-service", OPT_ENABLE_ASR_SERVICE); ($"log-off-ms", OPT_LOG_OFF_MS);
   ($"server-port", OPT_SERVER_PORT)].

(** ** clean_opt strips blanks and quotes *)

Lemma clean_end_skip fuel x m b r :
  Forall (fun c => junk c = true) b -> (length b <= fuel)%nat ->
  clean_end fuel (x :: m ++ b ++ r) (Z.of_nat (length (m ++ b))) =
  clean_end (fuel - length b) (x :: m ++ b ++ r) (Z.of_nat (length m)).
Proof.
  revert fuel r. induction b as [|y b IH] using rev_ind; intros fuel r Hb Hf.
  - rewrite app_nil_r. simpl. by rewrite Nat.sub_0_r.
  - apply Forall_app in Hb as [Hb Hy]. apply Forall_cons in Hy as [Hy _].
    rewrite length_app in Hf. simpl in Hf. destruct fuel as [|f]; [lia|]. cbn [clean_end].
    replace (x :: m ++ (b ++ [y]) ++ r) with ((x :: m ++ b) ++ y :: r) by (simpl; by rewrite <- !app_assoc).
    replace (Z.of_nat (length (m ++ b ++ [y]))) with (Z.of_nat (length (x :: m ++ b)))
      by (simpl; rewrite !length_app; simpl; lia).
    rewrite char_at_app, Hy. destruct (Z.ltb_spec 0 (Z.of_nat (length (x :: m ++ b)))); [|simpl in *; lia].
    cbn [andb]. replace (Z.of_nat (length (x :: m ++ b)) - 1) with (Z.of_nat (length (m ++ b))) by (simpl; lia).
    replace ((x :: m ++ b) ++ y :: r) with (x :: m ++ b ++ (y :: r)) by (simpl; by rewrite <- !app_assoc).
    rewrite IH by (done || lia). f_equal. rewrite length_app. simpl. lia.
Qed.

Lemma clean_end_stop fuel x m r :
  (exists y m', m = m' ++ [y] /\ junk y = false) \/ m = [] ->
  clean_end fuel (x :: m ++ r) (Z.of_nat (length m)) = Z.of_nat (length m).
Proof.
  intros H. destruct fuel as [|f]; [done|]. cbn [clean_end].
  destruct H as [(y & m' & -> & Hy)| ->]; [|done].
  replace (x :: (m' ++ [y]) ++ r) with ((x :: m') ++ y :: r) by (simpl; by rewrite <- app_assoc).
  replace (Z.of_nat (length (m' ++ [y]))) with (Z.of_nat (length (x :: m'))) by (rewrite length_app; simpl; lia).
  rewrite char_at_app, Hy. by rewrite andb_false_r.
Qed.

Lemma clean_opt_eq s : clean_opt s = drop_while_end junk (drop_while junk (cstr s)).
Proof.
  unfold clean_opt. destruct (drop_while junk (cstr s)) as [|x o] eqn:E; [done|].
  pose proof (drop_while_head _ _ _ _ E) as Hx. clear E.
  destruct (drop_while_end_split junk (x :: o)) as (t & Ht & Hft).
  assert (Hne : exists o', drop_while_end junk (x :: o) = x :: o').
  { destruct (drop_while_end junk (x :: o)) as [|z o'] eqn:E2.
    - apply drop_while_end_nil_inv, Forall_cons in E2 as [C _]. congruence.
    - simpl in Ht. exists o'. by simplify_eq. }
  destruct Hne as [o' Ho']. rewrite Ho' in *. simpl in Ht. injection Ht as ->.
  replace (Z.of_nat (length (x :: o' ++ t)) - 1) with (Z.of_nat (length (o' ++ t))) by (simpl; lia).
  pose proof (clean_end_skip (length (x :: o' ++ t)) x o' t []) as Hs. rewrite !app_nil_r in Hs.
  rewrite Hs by (try done; simpl; rewrite length_app; lia). rewrite clean_end_stop.
  - replace (Z.to_nat (Z.of_nat (length o') + 1)) with (length (x :: o')) by (simpl; lia).
    exact (take_app_length (x :: o') t).
  - destruct (decide (o' = [])) as [|Hne]; [by right|left]. destruct (exists_last Hne) as (m & y & ->).
    exists y, m. split; [done|]. exact (drop_while_end_last junk _ (x :: m) y Ho').
Qed.

(** [clean_opt] returns the argument without leading and trailing blanks and
    quotes, also for empty and all-junk arguments; cleaning twice changes
    nothing. *)
Theorem clean_opt_spec s :
  clean_opt s = drop_while_end junk (drop_while junk (cstr s))
  /\ clean_opt (clean_opt s) = clean_opt s.
Proof.
  split; [apply clean_opt_eq|]. rewrite (clean_opt_eq (clean_opt s)), (clean_opt_eq s).
  set (t := drop_while junk (cstr s)).
  assert (Hnul : Forall (fun c => c <> "000"%char) t).
  { assert (Hc : Forall (fun c => c <> "000"%char) (cstr s)).
    { eapply Forall_impl; [apply take_while_Forall|]. intros c Hc. cbv beta in *. by bool_to_prop. }
    rewrite <- (take_drop_while junk (cstr s)) in Hc. by apply Forall_app in Hc as [_ Hc]. }
  destruct (drop_while_end_split junk t) as (u & Hu & Hfu).
  assert (Hnul' : Forall (fun c => c <> "000"%char) (drop_while_end junk t)).
  { rewrite Hu in Hnul. by apply Forall_app in Hnul as [? _]. }
  rewrite cstr_id by done.
  destruct (drop_while_end junk t) as [|x o] eqn:E; [done|].
  rewrite drop_while_stop.
  - destruct (exists_last (l := x :: o)) as (m & y & Em); [done|]. rewrite Em in *.
    apply drop_while_end_snoc_stop. by apply drop_while_end_last in E.
  - rewrite Hu in *. apply (drop_while_head junk (cstr s) x (o ++ u)). done.
Qed.

(** ** Fields *)

Inductive value := VStr (s : str) | VInt (z : Z) | VBool (b : bool).

Definition get_field (f : field) (c : Config) : value :=
  match f with
  | OPT_ASRAPI_SOURCE => VStr (_asr_api_source c) | OPT_APP_KEY => VStr (_app_key c)
  | OPT_APP_SECRETKEY => VStr (_app_secret_key c) | OPT_ASR_SERVER => VStr (_asr_server c)
  | OPT_AUDIO_FORMAT => VStr (_audio_format c) | OPT_AUDIO_TYPE => VInt (_audio_type c)
  | OPT_CAPACITY_SCOPE => VStr (_capacity_scope c) | OPT_CONCURRENT_NUMBER => VInt (_concurrent_number c)
  | OPT_ENABLE_ASR_SERVICE => VBool (_enable_asr_service c) | OPT_LOG_OFF_MS => VInt (_log_off_ms c)
  | OPT_SERVER_PORT => VInt (_server_port c)
  end.

(** What a textual setting means for a field. *)
Definition read_value (f : field) (s : str) : value :=
  match f with
  | OPT_AUDIO_TYPE | OPT_CONCURRENT_NUMBER | OPT_LOG_OFF_MS | OPT_SERVER_PORT => VInt (atoi s)
  | OPT_ENABLE_ASR_SERVICE => VBool (negb (default 0 (to_bool s) =? 0))
  | _ => VStr (cstr s)
  end.

Lemma get_set_same f s c : get_field f (set_field f s c) = read_value f s.
Proof. by destruct f. Qed.

Lemma get_set_other f g s c : f <> g -> get_field g (set_field f s c) = get_field g c.
Proof. by destruct f, g. Qed.

Lemma get_enable_other g b c : g <> OPT_ENABLE_ASR_SERVICE -> get_field g (set_enable_asr_service b c) = get_field g c.
Proof. by destruct g. Qed.

(** The settings of a command line for a field, first to last. *)
Definition cli_settings (f : field) (opts : list opt) : list str :=
  omap (fun o => match o with OptField g s => if bool_decide (g = f) then Some s else None | _ => None end) opts.

Lemma cli_last opts c f :
  OptHelp ∉ opts ->
  fst (load_command_line opts c) = 0
  /\ get_field f (snd (load_command_line opts c)) =
     match last (cli_settings f opts) with
     | Some s => read_value f (clean_opt s)
     | None => get_field f c
     end.
Proof.
  revert c. induction opts as [|o opts IH]; intros c Hh; [done|].
  apply not_elem_of_cons in Hh as [Ho Hh]. destruct o as [|g s|a]; [done| |by apply IH].
  cbn [load_command_line]. destruct (IH (set_field g (clean_opt s) c) Hh) as [H1 H2]. split; [done|].
  rewrite H2. unfold cli_settings. cbn [omap list_omap]. case_bool_decide as Hg.
  - subst. fold (cli_settings f opts). rewrite last_cons.
    destruct (last (cli_settings f opts)); [done|]. apply get_set_same.
  - fold (cli_settings f opts). destruct (last (cli_settings f opts)); [done|]. by apply get_set_other.
Qed.

(** On a command line without a help option every field ends with its last
    setting, cleaned and converted, and a field that is not mentioned keeps its
    value; a help option stops the processing with code 1. *)
Theorem command_line_last_wins opts c f :
  (OptHelp ∉ opts ->
   fst (load_command_line opts c) = 0
   /\ get_field f (snd (load_command_line opts c)) =
      match last (cli_settings f opts) with
      | Some s => read_value f (clean_opt s)
      | None => get_field f c
      end)
  /\ (OptHelp ∈ opts -> fst (load_command_line opts c) = 1).
Proof.
  split; [apply cli_last|].
  revert c. induction opts as [|o opts IH]; intros c Hh; [set_solver|].
  destruct o as [|g s|a]; [done| |]; cbn [load_command_line]; apply IH; set_solver.
Qed.

(** ** The file *)

(** The text handed to the JSON parser is the file's content followed by
    whatever the heap holds after the buffer up to the next zero byte: it is the
    content alone exactly when the byte after the unterminated buffer is zero. *)
Theorem read_file_overread content heap :
  content <> [] -> Forall (fun c => c <> "000"%char) content -> Z.of_nat (length content) <= Z.quot int32_max 4 ->
  read_file_content (Some content) heap = (Z.of_nat (length content), content ++ cstr heap)
  /\ (snd (read_file_content (Some content) heap) = content <-> cstr heap = []).
Proof.
  intros Hne Hnul Hlen.
  assert (E : read_file_content (Some content) heap = (Z.of_nat (length content), content ++ cstr heap)).
  { unfold read_file_content. change (Z.quot int32_max 4) with 536870911 in *.
    rewrite wrap_i32_id by (unfold int32_min, int32_max; lia).
    destruct content as [|c content]; [done|].
    destruct (Z.leb_spec (Z.of_nat (length (c :: content))) 0); [simpl in *; lia|].
    destruct (Z.ltb_spec 536870911 (Z.of_nat (length (c :: content)))); [lia|]. f_equal.
    generalize (c :: content) Hnul. clear. intros l H. unfold cstr. induction H as [|c l Hc _ IH]; [done|].
    cbn [app take_while]. rewrite IH. by destruct (Ascii.eqb_spec c "000"%char). }
  split; [done|]. rewrite E. simpl. split.
  - intros H. apply (app_inv_head content). by rewrite H, app_nil_r.
  - intros ->. by rewrite app_nil_r.
Qed.

Lemma read_file_overread_witness :
  read_file_content (Some $"{}") $"junk" = (2, $"{}junk").
Proof.
  refine (proj1 (read_file_overread $"{}" $"junk" _ _ _)); [done|by repeat constructor|vm_compute; discriminate].
Defined.

Section FileLaws.
Context `{JsonLib}.

(** What the file says about a field: nothing (null), a value, or a conversion
    that throws. *)
Definition file_setting (conf : Json) (fk : field * str) : res json_exn (option value) :=
  v ← json_member conf fk.2;
  if isNull v then Ok None
  else if bool_decide (fk.1 = OPT_ENABLE_ASR_SERVICE) then b ← asBool v; Ok (Some (VBool b))
  else s ← asString v; Ok (Some (read_value fk.1 (trim s))).

Lemma load_field_spec conf fk c r c' :
  load_field conf fk c = (r, c') ->
  match file_setting conf fk with
  | Err e => r = Err e /\ c' = c
  | Ok None => r = Ok tt /\ c' = c
  | Ok (Some v) => r = Ok tt /\ get_field fk.1 c' = v /\ (forall g, g <> fk.1 -> get_field g c' = get_field g c)
  end.
Proof.
  unfold load_field, file_setting. destruct fk as [f k]. simpl.
  destruct (json_member conf k) as [v|e]; simpl; [|by intros [= <- <-]].
  destruct (isNull v); [by intros [= <- <-]|]. case_bool_decide as Hf.
  - subst. destruct (asBool v) as [b|e]; simpl; [|by intros [= <- <-]]. intros [= <- <-].
    repeat split; try done. intros g Hg. by apply get_enable_other.
  - destruct (asString v) as [s|e]; simpl; [|by intros [= <- <-]]. intros [= <- <-].
    split; [done|]. split; [apply get_set_same|]. intros g Hg. by apply get_set_other.
Qed.

Lemma load_fields_spec conf fks c c' :
  NoDup fks.*1 -> load_fields conf fks c = (Ok tt, c') ->
  forall f k, (f, k) ∈ fks ->
  exists o, file_setting conf (f, k) = Ok o /\ get_field f c' = default (get_field f c) o.
Proof.
  revert c. induction fks as [|[f0 k0] fks IH]; intros c Hnd Hl f k Hin; [set_solver|].
  apply NoDup_cons in Hnd as [Hn Hnd]. cbn [load_fields] in Hl. unfold se_bind in Hl.
  destruct (load_field conf (f0, k0) c) as [r1 c1] eqn:E1. apply load_field_spec in E1. simpl in E1.
  destruct r1 as [[]|e]; [|done].
  assert (Hkeep : forall g, g ∉ fks.*1 -> get_field g c' = get_field g c1).
  { clear -Hl. revert c1 Hl. induction fks as [|[f1 k1] fks IH]; intros c1 Hl g Hg.
    - by injection Hl as ->.
    - cbn [load_fields] in Hl. unfold se_bind in Hl.
      destruct (load_field conf (f1, k1) c1) as [[[]|e] c2] eqn:E1; [|done].
      apply load_field_spec in E1. simpl in Hg, E1. apply not_elem_of_cons in Hg as [Hg1 Hg2].
      rewrite (IH _ Hl g Hg2). destruct (file_setting conf (f1, k1)) as [[v|]|]; [|by destruct E1 as [_ ->]|by destruct E1].
      destruct E1 as (_ & _ & E1). by apply E1. }
  apply elem_of_cons in Hin as [Hin|Hin].
  - simplify_eq. destruct (file_setting conf (f0, k0)) as [[v|]|]; [| |by destruct E1].
    + destruct E1 as (_ & E1 & _). exists (Some v). split; [done|]. simpl. by rewrite Hkeep.
    + destruct E1 as (_ & ->). exists None. split; [done|]. simpl. by rewrite Hkeep.
  - destruct (IH c1 Hnd Hl f k Hin) as (o & Ho & Hg). exists o. split; [done|]. rewrite Hg.
    destruct o; [done|]. simpl.
    assert (f <> f0). { intros ->. apply Hn. by apply (list_elem_of_fmap_2 fst _ (f0, k)). }
    destruct (file_setting conf (f0, k0)) as [[v|]|]; [|by destruct E1 as [_ ->]|by destruct E1].
    destruct E1 as (_ & _ & E1). by apply E1.
Qed.
End FileLaws.

Definition default_config (working_dir : str) : Config :=
  init_default (mkConfig [] [] [] [] [] 1537 [] 2 true 2000 8005 working_dir).

Section Startup.
Context `{JsonLib}.
Variables (wd : str) (content heap : str) (json conf : Json).
Hypothesis Hread : fst (read_file_content (Some content) heap) <> 0.
Hypothesis Hparse : json_parse (snd (read_file_content (Some content) heap)) = Some json.
Hypothesis Hjson : isNull json = false.
Hypothesis Hconf : json_member json $"configuration" = Ok conf.
Hypothesis Hconf_null : isNull conf = false.

Lemma new_config_fields :
  new_config wd (Some content) heap = (load_fields conf file_fields ;;* se_ret 0) (default_config wd).
Proof.
  unfold new_config, load_from_file. destruct (read_file_content (Some content) heap) as [len txt]. simpl in *.
  destruct (Z.eqb_spec len 0); [done|]. by rewrite Hparse, Hjson, Hconf, Hconf_null.
Qed.

Lemma file_fields_nodup : NoDup file_fields.*1.
Proof. apply (bool_decide_unpack _). vm_compute. exact I. Qed.


(** If the value of [enable_asr_service] is one [asBool] refuses (a string,
    as in the shipped conf/default.json), the constructor throws before it has
    read any other key: the object keeps the built-in defaults. *)
Theorem enable_key_not_bool v e :
  json_member conf $"enable_asr_service" = Ok v -> isNull v = false -> asBool v = Err e ->
  new_config wd (Some content) heap = (Err e, default_config wd).
Proof.
  intros Hm Hn Hb. rewrite new_config_fields. unfold se_bind, file_fields. cbn [load_fields].
  unfold se_bind, load_field at 1. cbn [fst snd]. rewrite Hm, Hn.
  rewrite bool_decide_eq_true_2 by done. by rewrite Hb.
Qed.
End Startup.

(** ** A concrete JSON library: objects of scalars, two known texts *)

Inductive mini_json := MNull | MBool (b : bool) | MInt (z : Z) | MStr (s : str) | MObj (l : list (str * mini_json)).

Definition mini_get (k : str) (l : list (str * mini_json)) : mini_json := default MNull (map_find k l).

Definition port_conf : mini_json := MObj [($"server_port", MInt 9000); ($"app_key", MStr $" k ")].
Definition shipped_conf : mini_json := MObj [($"enable_asr_service", MStr $"true"); ($"server_port", MInt 9000)].

#[export] Instance MiniJson : JsonLib := {|
  Json := mini_json;
  json_parse s := if bool_decide (s = $"port") then Some (MObj [($"configuration", port_conf)])
                  else if bool_decide (s = $"shipped") then Some (MObj [($"configuration", shipped_conf)])
                  else None;
  isNull v := match v with MNull => true | _ => false end;
  json_member v k := match v with MNull => Ok MNull | MObj l => Ok (mini_get k l) | _ => Err LogicError end;
  json_at v i := match v with MNull => Ok MNull | _ => Err LogicError end;
  asString v := match v with
                | MNull => Ok [] | MStr s => Ok s | MInt z => Ok (dec_string z)
                | MBool b => Ok (if b then $"true" else $"false") | MObj _ => Err LogicError end;
  asBool v := match v with
              | MNull => Ok false | MBool b => Ok b | MInt z => Ok (negb (z =? 0))
              | MStr _ | MObj _ => Err LogicError end;
|}.

Definition port_config : Config := snd (new_config [] (Some $"port") []).


Lemma enable_key_not_bool_witness :
  new_config [] (Some $"shipped") [] = (Err LogicError, default_config []).
Proof.
  refine (enable_key_not_bool [] $"shipped" [] (MObj [($"configuration", shipped_conf)]) shipped_conf
    _ _ _ _ _ (MStr $"true") LogicError _ _ _); try reflexivity. vm_compute. discriminate.
Defined.

(** ** The server URL check *)

(** [check_server_uri] accepts a server URL with a path and refuses a bare
    [http://host], and accepts anything when the service is disabled. *)
Theorem check_server_uri_spec c host port path proto :
  good_host host = true -> good_path path = true ->
  match port with Some n => 0 <= n <= int32_max | None => True end ->
  proto = $"http" \/ proto = $"https" -> _asr_server c = print_url proto host port path ->
  check_server_uri c = if _enable_asr_service c && bool_decide (path = []) then -1 else 0.
Proof.
  intros Hh Hp Ho Hpr Hs. unfold check_server_uri. destruct (_enable_asr_service c); [|done].
  rewrite Hs, parse_print_parts by done. simpl. by case_bool_decide.
Qed.

Lemma check_server_uri_spec_witness :
  check_server_uri (default_config []) = 0
  /\ check_server_uri (set_field OPT_ASR_SERVER $"http://vop.baidu.com" (default_config [])) = -1.
Proof.
  split.
  - refine (check_server_uri_spec _ $"vop.baidu.com" None $"/server_api" $"http" _ _ _ _ _);
      [reflexivity|reflexivity|exact I|by left|reflexivity].
  - refine (check_server_uri_spec _ $"vop.baidu.com" None [] $"http" _ _ _ _ _);
      [reflexivity|reflexivity|exact I|by left|reflexivity].
Defined.

(** The help text advertises an option [getopt] does not know. *)
Example help_option_unknown :
  ($"--api-belong-to") ∈ s_options.*1 /\ ($"api-belong-to") ∉ s_long_options.*1.
Proof. split; apply (bool_decide_unpack _); vm_compute; exact I. Qed.
