(* ===== verification/JsonUtils.v ===== *)
(** * utils/src/json_utils.cpp: class [JsonUtils]

    jsoncpp is a parameter: [JsonLib] of AppConfig, and the writers, the size of
    an array and the reader's error text here.  An exception of jsoncpp leaves
    what was inserted before it. *)

From S2P Require Import Prelude CLib StdMap StringUtil UrlParser AppConfig.

Open Scope Z_scope.

Class JsonText `{JsonLib} := {
  formatted_errors : str -> str;        (* Json::Reader::getFormattedErrorMessages after parsing a text *)
  styled_write : Json -> str;           (* Json::StyledWriter::write *)
  fast_write : Json -> str;             (* Json::FastWriter::write *)
  json_size : Json -> nat;              (* Json::Value::size *)
}.

Section JsonUtils.
Context `{JsonText}.

(** The result, [json] when it was parsed, and [msg]. *)
Definition load_json (raw msg : str) : bool * option Json * str :=
  match json_parse raw with
  | Some json => (true, Some json, msg)
  | None => (false, None, formatted_errors raw)
  end.

Definition parse_to_string (root : Json) (styled : bool) : str :=
  if styled then styled_write root else fast_write root.

(** [service_list[i]["name"].asString()]. *)
Definition service_name (service_list : Json) (i : nat) : res json_exn str :=
  entry ← json_at service_list (Z.of_nat i); name ← json_member entry $"name"; asString name.

(** The loop from [i] on, with [n] entries to go. *)
Fixpoint extract_loop (service_list : Json) (i n : nat) : SE (gset str) json_exn unit :=
  match n with
  | O => se_ret tt
  | S n' => fun services =>
      match service_name service_list i with
      | Ok name => extract_loop service_list (S i) n' ({[ name ]} ∪ services)
      | Err e => (Err e, services)
      end
  end.

Definition extract_services (raw : str) : SE (gset str) json_exn bool := fun services =>
  match json_parse raw with
  | None => (Ok false, services)
  | Some json =>
      match json_member json $"services" with
      | Err e => (Err e, services)
      | Ok service_list =>
          match extract_loop service_list 0 (json_size service_list) services with
          | (Ok _, services) => (Ok true, services)
          | (Err e, services) => (Err e, services)
          end
      end
  end.

Lemma extract_loop_spec service_list i n services :
  exists k, (k <= n)%nat
    /\ (forall j, (i <= j < i + k)%nat -> is_ok (service_name service_list j) = true)
    /\ (forall x, x ∈ snd (extract_loop service_list i n services)
          <-> x ∈ services \/ exists j, (i <= j < i + k)%nat /\ service_name service_list j = Ok x)
    /\ ((fst (extract_loop service_list i n services) = Ok tt /\ k = n)
        \/ exists e, fst (extract_loop service_list i n services) = Err e /\ (k < n)%nat /\ service_name service_list (i + k) = Err e).
Proof.
  revert i services. induction n as [|n IH]; intros i services; simpl.
  { exists 0%nat. split; [lia|]. split; [lia|]. split; [|by left]. intros x. split; [by left|]. intros [?|(j & ? & _)]; [done|lia]. }
  destruct (service_name service_list i) as [name|e] eqn:E.
  - destruct (IH (S i) ({[name]} ∪ services)) as (k & Hk & H1 & H2 & H3). exists (S k). split; [lia|]. split; [|split].
    + intros j Hj. destruct (decide (j = i)) as [->|]; [by rewrite E|]. apply H1. lia.
    + intros x. rewrite H2. split.
      * intros [Hx|(j & Hj & Ej)]; [|right; exists j; split; [lia|done]].
        apply elem_of_union in Hx as [Hx|Hx]; [|by left]. apply elem_of_singleton in Hx as ->. right. exists i. split; [lia|done].
      * intros [Hx|(j & Hj & Ej)]; [left; set_solver|]. destruct (decide (j = i)) as [->|].
        -- left. rewrite E in Ej. injection Ej as ->. set_solver.
        -- right. exists j. split; [lia|done].
    + destruct H3 as [[H3 ->]|(e & H3 & Hlt & He)]; [by left|]. right. exists e. split; [done|]. split; [lia|].
      by replace (i + S k)%nat with (S i + k)%nat by lia.
  - exists 0%nat. split; [lia|]. split; [lia|]. split; [|right; exists e; rewrite Nat.add_0_r; split; [done|split; [lia|done]]].
    intros x. simpl. split; [by left|]. intros [?|(j & ? & _)]; [done|lia].
Qed.

(** [extract_services] adds to the set exactly the names of the entries: all of
    them when it returns true, those before the first entry without a readable name
    when that entry makes jsoncpp throw, and none when the text is not JSON. *)
Theorem extract_services_names raw services json service_list :
  json_parse raw = Some json -> json_member json $"services" = Ok service_list ->
  exists k, (k <= json_size service_list)%nat
    /\ (forall x, x ∈ snd (extract_services raw services)
          <-> x ∈ services \/ exists j, (j < k)%nat /\ service_name service_list j = Ok x)
    /\ ((fst (extract_services raw services) = Ok true /\ k = json_size service_list)
        \/ exists e, fst (extract_services raw services) = Err e /\ service_name service_list k = Err e).
Proof.
  intros Hp Hm. destruct (extract_loop_spec service_list 0 (json_size service_list) services) as (k & Hk & _ & H2 & H3).
  exists k. split; [done|]. unfold extract_services. rewrite Hp, Hm.
  destruct (extract_loop service_list 0 (json_size service_list) services) as [r s]. simpl in *. split.
  - intros x. transitivity (x ∈ s); [by destruct r|]. rewrite H2. split; (intros [?|(j & Hj & E)]; [by left|right; exists j; split; [lia|done]]).
  - destruct H3 as [[-> ->]|(e & -> & _ & E)]; [by left|]. right. exists e. by split.
Qed.
End JsonUtils.
