(* ===== verification/AsrService.v ===== *)
(** * app/src/{bd_asr_service,asr_service_factory,asr_proxy_impl,pipeline}.cpp

    The speech-recognition client with its token thread, the factory, the RPC
    handler and the start-up sequence.  libcurl and jsoncpp are parameters
    ([attempt] of Http.v for a transfer, [JsonLib] of AppConfig.v); brpc is the
    return code of its calls.  A C buffer is its bytes, its allocated size and
    whether a write ever went past that size. *)

From S2P Require Import Prelude CLib StdMap StringUtil UriCodec UrlParser Http Sync AppConfig.

Open Scope Z_scope.

(** ** The libcurl write callback *)

Record cbuf := mkBuf { bytes : str; cap : Z; overflow : bool }.

Definition NUL : ascii := "000"%char.

(** [writefunc(ptr, size, nmemb, &result)]; allocation succeeds. *)
Definition writefunc (result : option cbuf) (chunk : str) : cbuf :=
  let result_len := Z.of_nat (length chunk) in
  match result with
  | None => mkBuf (chunk ++ [NUL]) (result_len + 1) false
  | Some b =>
      let old := cstr (bytes b) in
      let old_size := Z.of_nat (length old) in
      let cap' := result_len + old_size in
      mkBuf (old ++ chunk ++ [NUL]) cap' (overflow b || (cap' <=? result_len + old_size))
  end.

Definition write_all (chunks : list str) : option cbuf :=
  fold_left (fun b c => Some (writefunc b c)) chunks None.

(** The C string a callee reads from the buffer. *)
Definition buf_str (b : cbuf) : str := cstr (bytes b).

(** ** Responses *)

Definition RETURN_OK : Z := 0.
Definition RETURN_ERROR : Z := 1.
Definition ERROR_TOKEN_CURL : Z := 13.
Definition ERROR_TOKEN_PARSE_ACCESS_TOKEN : Z := 15.
Definition ERROR_TOKEN_PARSE_SCOPE : Z := 16.
Definition ERROR_ASR_CURL : Z := 102.

(** Exceptions that leave a function of the service. *)
Inductive svc_exn := JsonError | NullString.
#[export] Instance svc_exn_eq_dec : EqDecision svc_exn.
Proof. solve_decision. Defined.

Definition lift_json {A} (r : res json_exn A) : res svc_exn A :=
  match r with Ok a => Ok a | Err _ => Err JsonError end.

Section Responses.
Context `{JsonLib}.

(** [handle_asr_result(response, asr_result)]: the code and the new
    [asr_result].  A null [response] cannot become a [std::string]. *)
Definition handle_asr_result (response : option cbuf) (asr_result : str) : res svc_exn (Z * str) :=
  match response with
  | None => Err NullString
  | Some b =>
      match json_parse (buf_str b) with
      | None => Ok (RETURN_ERROR, asr_result)
      | Some root =>
          r ← lift_json (json_member root $"result");
          r0 ← lift_json (json_at r 0);
          s ← lift_json (asString r0);
          Ok (if bool_decide (s = []) then RETURN_ERROR else RETURN_OK, s)
      end
  end.

(** [handle_response(response, token, scopes)]. *)
Definition handle_response (response : option cbuf) (token scopes : str) : res svc_exn (Z * str * str) :=
  match response with
  | None => Err NullString
  | Some b =>
      match json_parse (buf_str b) with
      | None => Ok (RETURN_ERROR, token, scopes)
      | Some root =>
          t ← lift_json (json_member root $"access_token");
          token ← lift_json (asString t);
          if bool_decide (token = []) then Ok (ERROR_TOKEN_PARSE_ACCESS_TOKEN, token, scopes)
          else
            s ← lift_json (json_member root $"scope");
            scopes ← lift_json (asString s);
            if bool_decide (scopes = []) then Ok (ERROR_TOKEN_PARSE_ACCESS_TOKEN, token, scopes)
            else Ok (RETURN_OK, token, scopes)
      end
  end.

(** ** BdAsrService::call *)

(** [snprintf(buf, n, ...)] keeps the first [n - 1] characters. *)
Definition snprintf (n : nat) (s : str) : str := take (n - 1) s.

Definition call_url (conf : Config) (cuid token : str) : str :=
  snprintf 300 (cstr (_asr_server conf) ++ $"?cuid=" ++ cuid ++ $"&token=" ++ cstr token
                ++ $"&dev_pid=" ++ dec_string (_audio_type conf)).
Definition call_header (conf : Config) : str :=
  snprintf 50 ($"Content-Type: audio/" ++ cstr (_audio_format conf) ++ $"; rate=" ++ dec_string 16000).

Record call_result := mkCall {
  c_ret : res svc_exn Z; c_asr : str; c_url : str; c_live : Z (* curl handles not released *) }.

(** [call(audio, size, asr_result)] with the current token; [curl] is the one
    transfer. *)
Definition call (conf : Config) (token : str) (curl : attempt) (asr_result : str) : call_result :=
  if bool_decide (token = []) then mkCall (Ok (-1)) asr_result [] 1
  else
    let url := call_url conf $"1234567C" token in
    let result := write_all (at_body curl) in
    if bool_decide (at_code curl <> CURLE_OK) then mkCall (Ok ERROR_ASR_CURL) asr_result url 0
    else
      match handle_asr_result result asr_result with
      | Err e => mkCall (Err e) asr_result url 1
      | Ok (code, asr) => mkCall (Ok (if code =? RETURN_OK then RETURN_OK else RETURN_ERROR)) asr url 0
      end.

(** ** The token thread *)

Definition api_token_url : str := $"http://openapi.baidu.com/oauth/2.0/token".
Definition token_url (conf : Config) : str :=
  snprintf 200 (api_token_url ++ $"?grant_type=client_credentials&client_id=" ++ cstr (_app_key conf)
                ++ $"&client_secret=" ++ cstr (_app_secret_key conf)).

(** Where [get_token] is: about to request, in the one-second pause, in the
    fifteen-day pause. *)
Inductive token_pc := Requesting | Retrying | Holding | Crashed.
#[export] Instance token_pc_eq_dec : EqDecision token_pc.
Proof. solve_decision. Defined.

Record token_state := mkToken { t_pc : token_pc; _asr_token : str }.

Inductive token_event := Transfer (curl : attempt) | PauseOver.

Definition sleep_seconds : Z := 15 * 3600 * 24.

Definition token_step (s : token_state) (e : token_event) : option (token_state * outcome) :=
  match t_pc s, e with
  | Requesting, Transfer curl =>
      if bool_decide (at_code curl <> CURLE_OK) then Some (mkToken Retrying (_asr_token s), Returns ERROR_TOKEN_CURL)
      else
        match handle_response (write_all (at_body curl)) [] [] with
        | Err _ => Some (mkToken Crashed (_asr_token s), Silent)
        | Ok (code, token, _) =>
            if code =? RETURN_OK then Some (mkToken Holding token, Returns RETURN_OK)
            else Some (mkToken Retrying (_asr_token s), Returns code)
        end
  | Retrying, PauseOver => Some (mkToken Requesting (_asr_token s), Silent)
  | Holding, PauseOver => Some (mkToken Requesting [], Silent)
  | _, _ => None
  end.

(** [init]: the thread's start result is stored in [ret] and not returned. *)
Definition svc_init (thread_started : bool) : bool * option token_state :=
  (true, if thread_started then Some (mkToken Requesting []) else None).
End Responses.

(** ** Factory *)

Inductive ASR_SOURCE_TYPE := BAIDU_ASR | NONE.
#[export] Instance ASR_SOURCE_TYPE_eq_dec : EqDecision ASR_SOURCE_TYPE.
Proof. solve_decision. Defined.

Definition get_asr_sourcetype (s : str) : ASR_SOURCE_TYPE :=
  if bool_decide (s = $"baidu") then BAIDU_ASR else NONE.

(** The factory holds its last service ([None] is [nullptr]); services are
    numbered by creation. *)
Record factory := mkFactory { f_service : option nat; f_made : nat }.
Definition new_factory : factory := mkFactory None 0.

Definition get_asr_service (f : factory) (t : ASR_SOURCE_TYPE) : option nat * factory :=
  match t with
  | BAIDU_ASR => (Some (f_made f), mkFactory (Some (f_made f)) (S (f_made f)))
  | NONE => (f_service f, f)
  end.

(** ** AsrProxyImpl::asr *)

Record AsrResponse := mkAsrResponse { rsp_code : Z; rsp_msg : str }.

(** [service]: [None] for a null pointer, else what its [call] returns. *)
Definition proxy_asr (service : option call_result) : res svc_exn AsrResponse :=
  match service with
  | None => Ok (mkAsrResponse (-1) $"asr service is nullptr!")
  | Some r =>
      ret ← c_ret r;
      if bool_decide (ret <> RETURN_OK) then Ok (mkAsrResponse (-1) $"asr call failed!")
      else Ok (mkAsrResponse 0 (cstr (c_asr r)))
  end.

(** ** Pipeline *)

Inductive run_outcome :=
| Exits (code : Z)
| NullDereference      (* [_asr_service->init] on a null pointer *)
| ServesForever (listening : bool). (* the loop [while (!_stop)]; nothing sets [_stop] *)
#[export] Instance run_outcome_eq_dec : EqDecision run_outcome.
Proof. solve_decision. Defined.

(** The calls [run] makes before its loop. *)
Inductive action := PrintHelp | MkLogDir (p : str) | Chdir (p : str) | LogInit | IgnoreSigpipe
  | MakeService (s : option nat) | AddService | StartServer (port max_concurrency : Z).

Definition pipeline_run (conf : Config) (f : factory) (opts : list opt) (thread_started add_ok start_ok : bool)
    : run_outcome * list action :=
  let '(help, conf) := load_command_line opts conf in
  if help =? 1 then (Exits 1, [PrintHelp])
  else if negb (check_server_uri conf =? 0) then (Exits 1, [])
  else
    let path := _working_dir conf ++ $"/log" in
    let acts := [MkLogDir path; Chdir path; LogInit; Chdir (_working_dir conf); IgnoreSigpipe] in
    let '(svc, _) := get_asr_service f (get_asr_sourcetype (_asr_api_source conf)) in
    match svc with
    | None => (NullDereference, acts ++ [MakeService None])
    | Some n =>
        let '(init_ok, _) := svc_init thread_started in
        if negb init_ok then (Exits (-1), acts ++ [MakeService svc])
        else if negb add_ok then (ServesForever false, acts ++ [MakeService svc; AddService])
        else (ServesForever start_ok,
              acts ++ [MakeService svc; AddService; StartServer (_server_port conf) (_concurrent_number conf)])
    end.

(** [stop_brpc_server]: the code and whether the server was told to stop. *)
Definition stop_brpc_server (log_off_ms : Z) : Z * bool :=
  if 0 <? log_off_ms then (0, true) else (-1, false).

(** ** The callback's buffer *)

Lemma cstr_app_nul s : Forall (fun c => c <> NUL) s -> cstr (s ++ [NUL]) = s.
Proof. intros H. unfold cstr. induction H as [|c s Hc _ IH]; [done|]. simpl. rewrite IH. by destruct (Ascii.eqb_spec c "000"%char). Qed.

Definition no_nul (s : str) : Prop := Forall (fun c => c <> NUL) s.

Lemma write_all_snoc chunks c : write_all (chunks ++ [c]) = Some (writefunc (write_all chunks) c).
Proof. unfold write_all. by rewrite fold_left_app. Qed.

(** The callback accumulates the body: after any sequence of chunks without
    zero bytes the buffer holds their concatenation, terminated; but from the
    second chunk on the terminator is written one byte past the reallocated
    block. *)
Theorem writefunc_accumulates chunks b :
  Forall no_nul chunks -> write_all chunks = Some b ->
  buf_str b = concat chunks /\ (overflow b = true <-> (2 <= length chunks)%nat).
Proof.
  intros Hn. revert b. induction chunks as [|c chunks IH] using rev_ind; intros b; [done|].
  apply Forall_app in Hn as [Hn [Hc _]%Forall_cons]. specialize (IH Hn).
  rewrite write_all_snoc. intros [= <-]. rewrite concat_app, length_app. simpl. rewrite app_nil_r.
  destruct (write_all chunks) as [b0|] eqn:E.
  - destruct (IH b0 eq_refl) as [Hb _]. unfold buf_str, writefunc. simpl. fold (buf_str b0). rewrite Hb.
    rewrite app_assoc, cstr_app_nul by (apply Forall_app; split; [by apply Forall_concat|done]). split; [done|].
    rewrite Z.leb_refl, orb_true_r. split; [|done]. intros _.
    destruct chunks; [done|]. simpl. lia.
  - assert (chunks = []) as ->.
    { destruct chunks as [|c0 chunks] using rev_ind; [done|]. by rewrite write_all_snoc in E. }
    unfold buf_str, writefunc. simpl. rewrite cstr_app_nul by done. split; [done|]. split; [done|lia].
Qed.

Lemma writefunc_accumulates_witness :
  exists b, write_all [$"ab"; $"cd"] = Some b /\ buf_str b = $"abcd" /\ overflow b = true /\ cap b = 4.
Proof.
  eexists. split; [reflexivity|].
  pose proof (writefunc_accumulates [$"ab"; $"cd"] _ ltac:(repeat constructor; discriminate) eq_refl) as [H1 H2].
  split; [exact H1|]. split; [apply H2; simpl; lia|reflexivity].
Defined.

(** ** Results of a recognition call *)

Section Service.
Context `{JsonLib}.

(** A recognition call reports success only for a non-empty result obtained
    by a successful transfer under a non-empty token; otherwise it returns a
    non-zero code (or jsoncpp threw).  Without a token nothing is transferred
    and the handle it has already created is not released. *)
Theorem call_success conf token curl old :
  let r := call conf token curl old in
  (c_ret r = Ok RETURN_OK ->
     token <> [] /\ at_code curl = CURLE_OK /\ c_asr r <> [] /\ c_live r = 0)
  /\ (token = [] -> c_ret r = Ok (-1) /\ c_live r = 1 /\ c_asr r = old).
Proof.
  cbv zeta. unfold call. case_bool_decide as Ht; [done|]. split; [|done].
  case_bool_decide as Hc; [done|].
  unfold handle_asr_result. destruct (write_all (at_body curl)) as [b|]; [|done].
  destruct (json_parse (buf_str b)) as [root|]; [|done].
  destruct (lift_json (json_member root _)) as [r|]; [|done]. simpl.
  destruct (lift_json (json_at r 0)) as [r0|]; [|done]. simpl.
  destruct (lift_json (asString r0)) as [s|]; [|done]. simpl. by case_bool_decide.
Qed.

Lemma handle_response_ok resp token scopes code t s :
  handle_response resp token scopes = Ok (code, t, s) ->
  (code = RETURN_OK -> t <> [] /\ s <> []) /\ code <> ERROR_TOKEN_PARSE_SCOPE.
Proof.
  unfold handle_response, lift_json, RETURN_OK, RETURN_ERROR, ERROR_TOKEN_PARSE_ACCESS_TOKEN, ERROR_TOKEN_PARSE_SCOPE.
  unfold mbind, res_bind. intros E.
  repeat (case_match; try discriminate E); injection E as <- <- <-; bool_to_prop; split; (lia || done).
Qed.


(** A missing scope is reported with the code of a missing access token:
    [handle_response] never returns [ERROR_TOKEN_PARSE_SCOPE]. *)
Theorem scope_error_not_reported resp token scopes code t s :
  handle_response resp token scopes = Ok (code, t, s) -> code <> ERROR_TOKEN_PARSE_SCOPE.
Proof. intros H'. exact (proj2 (handle_response_ok _ _ _ _ _ _ H')). Qed.


(** [AsrProxyImpl::asr] answers every request whose [call] returns: code 0
    and the recognised text exactly on success, code -1 with a message
    otherwise, also for a null service. *)
Theorem proxy_answers service :
  (forall r e, service = Some r -> c_ret r <> Err e) ->
  exists rsp, proxy_asr service = Ok rsp
  /\ (rsp_code rsp = 0 <-> exists r, service = Some r /\ c_ret r = Ok RETURN_OK)
  /\ (rsp_code rsp = 0 \/ rsp_code rsp = -1)
  /\ (forall r, service = Some r -> rsp_code rsp = 0 -> rsp_msg rsp = cstr (c_asr r)).
Proof.
  intros Hne. destruct service as [r|]; simpl.
  - destruct (c_ret r) as [z|e] eqn:Er; [|by destruct (Hne r e)]. simpl. case_bool_decide as Hz; eexists; split; try done; simpl.
    + split; [split; [done|intros (r' & [= <-] & Hr'); rewrite Er in Hr'; by injection Hr']|].
      split; [by right|done].
    + subst. split; [|split; [by left|by intros ? [= <-]]].
      split; [by exists r|done].
  - eexists. split; [done|]. simpl. repeat split; try done; [|by right]. by intros (? & ? & _).
Qed.
End Service.

Definition hello_env : attempt := mkAttempt [] [] [$"shipped"] CURLE_OK.

Lemma scope_error_not_reported_witness :
  exists t s, handle_response (write_all [$"shipped"]) [] [] = Ok (ERROR_TOKEN_PARSE_ACCESS_TOKEN, t, s)
    /\ ERROR_TOKEN_PARSE_ACCESS_TOKEN <> ERROR_TOKEN_PARSE_SCOPE.
Proof.
  eexists _, _. split; [vm_compute; reflexivity|].
  eapply (scope_error_not_reported (write_all [$"shipped"]) [] []). vm_compute. reflexivity.
Defined.


Lemma proxy_answers_witness :
  exists rsp, proxy_asr None = Ok rsp /\ rsp_code rsp = -1.
Proof.
  destruct (proxy_answers None) as (rsp & E & _ & [H|H] & _); [discriminate| |eauto].
  exists rsp. split; [exact E|]. injection E as <-. reflexivity.
Defined.

(** ** Start-up *)

(** [Pipeline::run] returns 1 on a help option or an unusable server URL; with
    an unknown [asr_api_source] it dereferences a null service; otherwise it
    enters its service loop, whether or not the token thread or the RPC server
    started, and it never returns 0 because nothing sets [_stop]. *)
Theorem pipeline_outcomes conf opts thr add_ok start_ok :
  let c := snd (load_command_line opts conf) in
  fst (pipeline_run conf new_factory opts thr add_ok start_ok) =
    if fst (load_command_line opts conf) =? 1 then Exits 1
    else if negb (check_server_uri c =? 0) then Exits 1
    else if bool_decide (_asr_api_source c <> $"baidu") then NullDereference
    else ServesForever (add_ok && start_ok).
Proof.
  cbv zeta. unfold pipeline_run. destruct (load_command_line opts conf) as [h c]. simpl.
  destruct (h =? 1); [done|]. destruct (check_server_uri c =? 0); simpl; [|done].
  unfold get_asr_sourcetype. case_bool_decide as Hs; simpl.
  - rewrite bool_decide_eq_false_2 by (by intros C). by destruct add_ok.
  - by rewrite bool_decide_eq_true_2.
Qed.

(** The default token URL fits its 200-byte buffer; the recognition URL fits its
    300-byte buffer for tokens of up to 200 characters. *)
Example token_url_default_fits : (length (token_url (default_config [])) < 199)%nat.
Proof. vm_compute. lia. Qed.
