(* ===== verification/Entry.v ===== *)
(** * app/src/main.cpp, and what start-up reads from its surroundings

    [main], the working directory and the help text of app/src/config.cpp, and
    [shm_getkey] of utils/src/ipc.cpp.  [getcwd], [realpath] and [ftok] are
    arguments. *)

From S2P Require Import Prelude CLib StdMap StringUtil UrlParser FileUtil AppConfig AsrService.

Open Scope Z_scope.

(** ** config.cpp *)

(** [init_dir]: without a current directory the member stays as it is. *)
Definition init_dir (getcwd : option str) (realpath : str -> str) (c : Config) : Config :=
  match getcwd with
  | None => c
  | Some buffer =>
      mkConfig (_asr_api_source c) (_app_key c) (_app_secret_key c) (_asr_server c) (_audio_format c) (_audio_type c)
        (_capacity_scope c) (_concurrent_number c) (_enable_asr_service c) (_log_off_ms c) (_server_port c)
        (cstr (realpath buffer))
  end.

(** The descriptions of [s_options], in its order. *)
Definition option_descriptions : list str :=
  [$"the asr api of which company"; $"the key of asr app"; $"the secret key of asr app"; $"the url of asr server";
   $"the format of input audio data"; $"the type of input audio data"; $"the flag of audio capacity, for bd asr api";
   $"the concurrent number of calling asr service"; $"enable asr service";
   $"the waiting time of connection disconnected"; $"the server port"].

Definition tab : str := ["009"%char].
Definition newline : str := ["010"%char].

(** The loop over the table: [example] and [help_string]. *)
Fixpoint help_loop (entries : list (str * str * str)) (example help_string : str) : str * str :=
  match entries with
  | [] => (example, help_string)
  | (opt_name, opt_description, opt_default) :: entries' =>
      help_loop entries' (example ++ opt_name ++ $" " ++ opt_default ++ $" ")
        (help_string ++ tab ++ opt_name ++ $": " ++ opt_description ++ newline)
  end.

Definition help_entries : list (str * str * str) :=
  zip_with (fun o d => (fst o, d, snd o)) s_options option_descriptions.

Definition get_command_line_help : str :=
  let '(example, help_string) :=
    help_loop help_entries ($"example:" ++ newline ++ tab ++ $"facetracer ") ($"command details:" ++ newline) in
  example ++ newline ++ newline ++ help_string.

(** ** main.cpp *)

(** The exit code and what is printed; [run] need not return. *)
Definition main_ (run : run_outcome) : option (Z * str) :=
  match run with
  | Exits ret => Some (ret, if ret =? 0 then $"main ret is " ++ dec_string ret ++ $"." ++ newline else [])
  | _ => None
  end.

(** ** ipc.cpp *)

Definition shm_getkey {F} `{FileSystem F} (ftok : str -> Z -> Z) (f : F) (keyname : str) (idx : Z) : Z * F :=
  let key_path := $"./keys/" ++ cstr keyname in
  let '(ok, f) := touch f key_path in
  if ok then (ftok key_path idx, f) else (-1, f).

(** ** Theorems *)

Lemma help_loop_acc entries example help_string :
  help_loop entries example help_string =
  (example ++ concat (map (fun '(n, _, d) => n ++ $" " ++ d ++ $" ") entries),
   help_string ++ concat (map (fun '(n, d, _) => tab ++ n ++ $": " ++ d ++ newline) entries)).
Proof.
  revert example help_string. induction entries as [|[[n d] v] es IH]; intros e h; cbn [help_loop map concat].
  - by rewrite !app_nil_r.
  - rewrite IH, <- !app_assoc. done.
Qed.

(** The help text is true of the program's defaults: the value it shows for an
    option is what the option's setter reads as the built-in default, whatever the
    configuration was before; options are described in the order of the table, one
    line each.  (The first name it shows is not one [getopt] knows.) *)
Theorem help_shows_defaults wd :
  Forall2 (fun '(_, shown) '(_, f) => forall c, get_field f (set_field f shown c) = get_field f (default_config wd))
    s_options s_long_options
  /\ length help_entries = length s_options
  /\ snd (help_loop help_entries [] []) = concat (map (fun '(n, d, _) => tab ++ n ++ $": " ++ d ++ newline) help_entries).
Proof.
  split; [|split; [done|by rewrite help_loop_acc]].
  repeat (apply Forall2_cons_2; [intros c; vm_compute; reflexivity|]). apply Forall2_nil_2.
Qed.

(** The process never exits with 0, and [main] never prints: [Pipeline::run]
    returns only for a help option, an unusable server or a service that does not
    start, and then not 0. *)
Theorem main_never_succeeds conf f opts thread_started add_ok start_ok :
  match main_ (fst (pipeline_run conf f opts thread_started add_ok start_ok)) with
  | Some (code, out) => code <> 0 /\ out = []
  | None => True
  end.
Proof.
  unfold pipeline_run. destruct (load_command_line opts conf) as [help c]. destruct (help =? 1); [done|].
  destruct (negb _); [done|]. destruct (get_asr_service _ _) as [[n|] ?]; [|done].
  destruct (svc_init thread_started) as [ok ?]. destruct (negb ok); [done|]. by destruct (negb add_ok).
Qed.

(** A key is asked for only once its file exists, and making it removes nothing. *)
Theorem shm_getkey_file {F} `{FileSystemLaws F} ftok f keyname idx k f' :
  shm_getkey ftok f keyname idx = (k, f') ->
  k = -1 \/ (k = ftok ($"./keys/" ++ cstr keyname) idx
             /\ (exists p, stat f' p = Some S_REG) /\ forall q x, stat f q = Some x -> stat f' q = Some x).
Proof.
  unfold shm_getkey. destruct (touch f _) as [[] f1] eqn:E; intros [= <- <-]; [right|by left].
  split; [done|]. by eapply touch_correct.
Qed.
