(* ===== verification/LogLevel.v ===== *)
(** * log/src/{logapi,log4cpp,log}.cpp: levels, message layout, module start-up

    The level flags of the log API, the functions that filter and format a
    message, the log4cpp receiver's line layout, and the start and stop sequence
    of the module.  [vsnprintf] is a parameter: the formatted text. *)

From S2P Require Import Prelude CLib StdMap StringUtil.

Open Scope Z_scope.

Inductive LogLevel := NOT_SET | DEBUG | INFO | NOTICE | WARNING | ERROR | FATAL | NOTIFY.
#[export] Instance LogLevel_eq_dec : EqDecision LogLevel.
Proof. solve_decision. Defined.

Definition level_bits (l : LogLevel) : Z :=
  match l with
  | NOT_SET => 0 | DEBUG => 1 | INFO => 2 | NOTICE => 4 | WARNING => 8 | ERROR => 16 | FATAL => 32 | NOTIFY => 64
  end.

(** ** logapi.cpp *)

Record log_state := mkLog { s_log_level : LogLevel; s_log_flags : Z; s_default_log_level : LogLevel }.

(** The loop of [check_level]: [i] is incremented by the test, also by the one
    that ends the loop; [~((1 << i) - 1)] is an [int] converted to 64 bits. *)
Fixpoint check_level_loop (fuel : nat) (level i chk : Z) : Z :=
  match fuel with
  | O => chk
  | S fuel' =>
      if (i <? 16) && (Z.land level (Z.shiftl 1 i) =? 0)
      then let i := i + 1 in
           check_level_loop fuel' level i (Z.land chk (wrap_u64 (Z.lnot (Z.shiftl 1 i - 1))))
      else chk
  end.
Definition check_level (level : LogLevel) : Z := check_level_loop 17 (level_bits level) 0 65535.

Definition log_init_state : log_state := mkLog INFO (check_level INFO) INFO.

Definition set_default_log_level (l : LogLevel) (s : log_state) : LogLevel * log_state :=
  (s_default_log_level s, mkLog (s_log_level s) (s_log_flags s) l).
Definition set_log_level (l : LogLevel) (s : log_state) : LogLevel * log_state :=
  (s_log_level s, mkLog l (check_level l) (s_default_log_level s)).
Definition get_log_level (s : log_state) : LogLevel := s_log_level s.
Definition reset_log_level (s : log_state) : LogLevel * log_state :=
  let s := mkLog (s_default_log_level s) (check_level (s_default_log_level s)) (s_default_log_level s) in
  (get_log_level s, s).

Definition is_log_level_enabled (l : LogLevel) (s : log_state) : bool :=
  bool_decide (l = NOTIFY) || negb (Z.land (s_log_flags s) (level_bits l) =? 0).

(** A message handed to the implementation. *)
Record log_msg := mkMsg { m_level : LogLevel; m_module : str; m_title : str; m_log : str }.

Definition report_log (s : log_state) (l : LogLevel) (module title log : str) : option log_msg :=
  if is_log_level_enabled l s then Some (mkMsg l module title (cstr log)) else None.

(** [vsnprintf] into a zeroed buffer of 4096 bytes; [text] is the formatted
    text. *)
Definition v_log_log (s : log_state) (l : LogLevel) (module title text : str) : option log_msg :=
  if is_log_level_enabled l s then report_log s l module title (take 4095 (cstr text)) else None.
Definition log_log (s : log_state) (l : LogLevel) (module title text : str) : option log_msg :=
  if is_log_level_enabled l s then v_log_log s l module title text else None.

Definition log_debug (s : log_state) (module title text : str) : option log_msg :=
  if is_log_level_enabled DEBUG s then v_log_log s DEBUG module title text else None.
Definition log_info (s : log_state) (module title text : str) : option log_msg :=
  if is_log_level_enabled INFO s then v_log_log s INFO module title text else None.
Definition log_notice (s : log_state) (module title text : str) : option log_msg :=
  if is_log_level_enabled NOTICE s then v_log_log s NOTICE module title text else None.
Definition log_warning (s : log_state) (module title text : str) : option log_msg :=
  if is_log_level_enabled WARNING s then v_log_log s WARNING module title text else None.
Definition log_error (s : log_state) (module title text : str) : option log_msg :=
  if is_log_level_enabled ERROR s then v_log_log s ERROR module title text else None.
Definition log_fatal (s : log_state) (module title text : str) : option log_msg :=
  if is_log_level_enabled FATAL s then v_log_log s FATAL module title text else None.
Definition log_notify (s : log_state) (module title text : str) : option log_msg :=
  if is_log_level_enabled NOTIFY s then v_log_log s NOTIFY module title text else None.

(** ** log4cpp.cpp *)

Definition align_string (msg : str) (align : Z) : str :=
  if align <=? 0 then msg
  else
    let align := if 8 <? align then 8 else align in
    let append := align - Z.rem (Z.of_nat (length msg)) align in
    msg ++ repeat " "%char (Z.to_nat append).

(** The line [on_receive_log] composes: thread id, module, title, text. *)
Definition layout (thrd_id : Z) (module title log : str) : str :=
  let msg := take 31 (dec_string thrd_id) in
  let msg := align_string (msg ++ $" ") 4 ++ cstr module in
  let msg := align_string (msg ++ $" ") 4 ++ cstr title in
  align_string (msg ++ $" ") 4 ++ cstr log.

Inductive priority := P_NOTSET | P_DEBUG | P_INFO | P_NOTICE | P_WARN | P_ERROR | P_CRIT | P_FATAL.
Definition from_log_level (l : LogLevel) : priority :=
  match l with
  | NOT_SET => P_NOTSET | DEBUG => P_DEBUG | INFO => P_INFO | NOTICE => P_NOTICE | WARNING => P_WARN
  | ERROR => P_ERROR | FATAL => P_FATAL | NOTIFY => P_CRIT
  end.

(** Where the line goes: the callback if one is set, else the category of that
    name, else the root category. *)
Inductive sink := ToCallback (l : LogLevel) (msg : str) | ToCategory (name : option str) (p : priority) (msg : str).

Definition on_receive_log (callback : bool) (categories : list str) (l : LogLevel)
    (module title log : str) (thrd_id : Z) : Z * sink :=
  let msg := layout thrd_id module title log in
  (0, if callback then ToCallback l (cstr msg)
      else ToCategory (if bool_decide (cstr title ∈ categories) then Some (cstr title) else None)
             (from_log_level l) (cstr msg)).

(** The default configuration file. *)
Definition default_cfg (cwd : str) : list str :=
  [$"rootCategory=DEBUG, rootAppender";
   $"appender.rootAppender=RollingFileAppender";
   $"appender.rootAppender.maxFileSize=10485760";
   $"appender.rootAppender.append=true";
   $"appender.rootAppender.dailyRolling=true";
   $"appender.rootAppender.maxBackupDays=180";
   $"appender.rootAppender.maxBackupIndex=100";
   $"appender.rootAppender.layout=PatternLayout";
   $"appender.rootAppender.layout.ConversionPattern=%d" ++ ["009"%char] ++ $"[%t]" ++ ["009"%char] ++ $"%p"
     ++ ["009"%char] ++ $"%m%n";
   $"appender.rootAppender.fileName=" ++ cwd ++ $"/log/log.log"].

(** ** log.cpp *)

Inductive log_action := InitLog4cpp | LogInit | RegLog4cpp | UnregLog4cpp | LogTerm | TermLog4cpp.

Record module_state := mkModule { s_module_log_initialized : Z; actions : list log_action }.

Definition module_log_init (m : module_state) : module_state :=
  if s_module_log_initialized m =? 1 then m
  else mkModule 1 (actions m ++ [InitLog4cpp; LogInit; RegLog4cpp]).
Definition module_log_fini (m : module_state) : module_state :=
  if s_module_log_initialized m =? 0 then m
  else mkModule 0 (actions m ++ [UnregLog4cpp; LogTerm; TermLog4cpp]).

(** ** Theorems *)

(** The flags always belong to the current level. *)
Definition log_inv (s : log_state) : Prop := s_log_flags s = check_level (s_log_level s).

Inductive log_op := OpSet (l : LogLevel) | OpReset | OpSetDefault (l : LogLevel).
Definition run_op (s : log_state) (o : log_op) : log_state :=
  match o with
  | OpSet l => snd (set_log_level l s)
  | OpReset => snd (reset_log_level s)
  | OpSetDefault l => snd (set_default_log_level l s)
  end.

Lemma log_inv_run ops : log_inv (fold_left run_op ops log_init_state).
Proof.
  assert (H : forall s, log_inv s -> log_inv (fold_left run_op ops s)); [|by apply H].
  induction ops as [|o ops IH]; intros s Hs; [done|]. simpl. apply IH. by destruct o.
Qed.

(** The order of the severities. *)
Definition severe (cur l : LogLevel) : bool :=
  negb (bool_decide (cur = NOT_SET)) && negb (bool_decide (l = NOT_SET)) && (level_bits cur <=? level_bits l).

(** After any sequence of level changes a message is enabled exactly when
    it is a notification or its level is at least the current level; with the
    level NOT_SET only notifications are enabled. *)
Theorem enabled_iff_severe ops l :
  let s := fold_left run_op ops log_init_state in
  is_log_level_enabled l s = bool_decide (l = NOTIFY) || severe (get_log_level s) l.
Proof.
  cbv zeta. pose proof (log_inv_run ops) as H. unfold log_inv in H.
  set (s := fold_left run_op ops log_init_state) in *. unfold is_log_level_enabled, get_log_level. rewrite H.
  by destruct (s_log_level s), l.
Qed.

(** Every logging function reports a message exactly when its level is
    enabled, with the text cut to the 4095 characters of the buffer. *)
Theorem log_functions_filter s l module title text :
  log_log s l module title text =
    (if is_log_level_enabled l s then Some (mkMsg l module title (take 4095 (cstr text))) else None)
  /\ match l with
     | DEBUG => log_debug s module title text = log_log s l module title text
     | INFO => log_info s module title text = log_log s l module title text
     | NOTICE => log_notice s module title text = log_log s l module title text
     | WARNING => log_warning s module title text = log_log s l module title text
     | ERROR => log_error s module title text = log_log s l module title text
     | FATAL => log_fatal s module title text = log_log s l module title text
     | NOTIFY => log_notify s module title text = log_log s l module title text
                 /\ log_log s l module title text <> None
     | NOT_SET => log_log s l module title text = None
     end.
Proof.
  assert (Hc : cstr (take 4095 (cstr text)) = take 4095 (cstr text)).
  { apply cstr_id, Forall_take. eapply Forall_impl; [apply take_while_Forall|].
    intros c Hx. cbv beta in *. by bool_to_prop. }
  unfold log_debug, log_info, log_notice, log_warning, log_error, log_fatal, log_notify, log_log, v_log_log, report_log.
  rewrite Hc. split; [by destruct (is_log_level_enabled l s)|].
  destruct l; try done. unfold is_log_level_enabled. simpl. by rewrite Z.land_0_r.
Qed.

(** [align_string] pads with spaces to a multiple of the alignment (capped at
    8), adding at least one and at most [align] of them: a string that is
    already aligned gets a whole further column. *)
Theorem align_string_spec msg align :
  0 < align ->
  let a := Z.min align 8 in
  exists n, align_string msg align = msg ++ repeat " "%char n
  /\ 1 <= Z.of_nat n <= a
  /\ Z.of_nat (length (align_string msg align)) mod a = 0
  /\ (Z.of_nat (length msg) mod a = 0 -> Z.of_nat n = a).
Proof.
  intros Ha. cbv zeta. unfold align_string.
  destruct (Z.leb_spec align 0); [lia|].
  assert (Hmin : (if 8 <? align then 8 else align) = Z.min align 8) by (destruct (Z.ltb_spec 8 align); lia).
  rewrite Hmin. set (a := Z.min align 8). assert (0 < a) by lia.
  rewrite Z.rem_mod_nonneg by lia. pose proof (Z.mod_pos_bound (Z.of_nat (length msg)) a ltac:(lia)).
  eexists. split; [done|]. split; [lia|]. split; [|lia].
  rewrite length_app, repeat_length, Nat2Z.inj_add, Z2Nat.id by lia.
  replace (Z.of_nat (length msg) + (a - Z.of_nat (length msg) mod a))
    with ((Z.of_nat (length msg) - Z.of_nat (length msg) mod a) + 1 * a) by lia.
  rewrite Z.mod_add by lia. rewrite Zminus_mod, Z.mod_mod, Z.sub_diag by lia. by apply Z.mod_0_l; lia.
Qed.

Lemma align_string_spec_witness :
  exists n, align_string $"abc " 4 = $"abc " ++ repeat " "%char n /\ Z.of_nat n = 4.
Proof. destruct (align_string_spec $"abc " 4) as (n & H1 & _ & _ & H4); [lia|]. exists n. split; [exact H1|by apply H4]. Defined.

(** The module starts and stops its parts in strict alternation: whatever the
    sequence of [module_log_init] and [module_log_fini] calls, log4cpp is
    configured before the dispatcher starts, the receiver is removed before the
    dispatcher stops, and nothing is started or stopped twice. *)
Theorem module_alternates (calls : list bool) :
  let step m c := if (c : bool) then module_log_init m else module_log_fini m in
  let m := fold_left step calls (mkModule 0 []) in
  exists n, actions m =
    concat (repeat [InitLog4cpp; LogInit; RegLog4cpp; UnregLog4cpp; LogTerm; TermLog4cpp] n)
    ++ (if s_module_log_initialized m =? 0 then [] else [InitLog4cpp; LogInit; RegLog4cpp])
  /\ (s_module_log_initialized m = 0 \/ s_module_log_initialized m = 1).
Proof.
  cbv zeta. set (step := fun m c => if (c : bool) then module_log_init m else module_log_fini m).
  induction calls as [|c calls IH] using rev_ind; [exists 0%nat; split; [done|by left]|].
  rewrite fold_left_app. simpl. destruct IH as (n & Ha & Hs).
  set (m := fold_left step calls (mkModule 0 [])) in *. destruct c; simpl.
  - unfold module_log_init. destruct (Z.eqb_spec (s_module_log_initialized m) 1) as [E|E]; [by exists n; split|].
    destruct Hs as [Hs|Hs]; [|lia]. exists n. simpl. rewrite Ha, Hs. simpl. rewrite app_nil_r. split; [done|by right].
  - unfold module_log_fini. destruct (Z.eqb_spec (s_module_log_initialized m) 0) as [E|E].
    + exists n. rewrite E in *. by split.
    + exists (S n). simpl. rewrite app_nil_r, Ha.
      replace (s_module_log_initialized m =? 0) with false by (symmetry; by apply Z.eqb_neq).
      split; [|by left]. rewrite <- app_assoc. simpl.
      clear. induction n as [|n IHn]; [done|]. simpl. by rewrite IHn.
Qed.
