(* ===== verification/LogDispatch.v ===== *)
(** * log/src/logimpl.cpp: receivers, queues and the dispatcher threads

    [CLogImpl] is itself a [CLogThread] (the shared one) with a list of dedicated
    threads.  Log items are reference counted objects: the heap maps the items
    that are alive to their counters; an operation on an item that is not alive
    is a use after free and gives [None].  POSIX regular expressions and the
    receivers' callbacks are parameters.  The second half of the file models the
    threads themselves: the dispatcher's loop against [stop]. *)

From S2P Require Import Prelude CLib StdMap StringUtil Sync LogLevel.

Open Scope Z_scope.

(** [log_receiver_t]: a callback and its user data, compared by [memcmp]. *)
Definition log_receiver_t : Type := (nat * nat).

Record LogReceiver := mkReceiver {
  _recv : log_receiver_t; _b_dedicated_thread : bool; _str_title : str }.

(** An item is named by a number; [_logs] holds names. *)
Record CLogThread := mkThread {
  _log_receivers : list LogReceiver; _logs : list nat; _n_thrd_started : bool }.

Abbreviation heap := (gmap nat (Z * log_msg)).

Record CLogImpl := mkImpl {
  main : CLogThread; _thrds : list CLogThread; items : heap;
  delivered : list (log_receiver_t * nat) (* callbacks made, oldest first *) }.

Definition new_impl (started : bool) : CLogImpl := mkImpl (mkThread [] [] started) [] ∅ [].

(** ** Reference counting *)

Definition add_ref (h : heap) (li : nat) : option heap :=
  '(n, m) ← h !! li; Some (<[li := (n + 1, m)]> h).
Definition release (h : heap) (li : nat) : option heap :=
  '(n, m) ← h !! li; Some (if n - 1 =? 0 then delete li h else <[li := (n - 1, m)]> h).

Fixpoint release_all (h : heap) (lis : list nat) : option heap :=
  match lis with
  | [] => Some h
  | li :: lis' => h ← release h li; release_all h lis'
  end.

(** ** Receivers of one thread *)

Definition check_recv (t : CLogThread) (r : log_receiver_t) : bool :=
  existsb (fun lr => bool_decide (r = _recv lr)) (_log_receivers t).

Definition thread_register (t : CLogThread) (lr : LogReceiver) : Z * CLogThread :=
  if check_recv t (_recv lr) then (1, t)
  else (0, mkThread (lr :: _log_receivers t) (_logs t) (_n_thrd_started t)).

Fixpoint erase_first (r : log_receiver_t) (l : list LogReceiver) : bool * list LogReceiver :=
  match l with
  | [] => (false, [])
  | lr :: l' => if bool_decide (r = _recv lr) then (true, l')
                else let '(b, l'') := erase_first r l' in (b, lr :: l'')
  end.

Definition thread_unregister (t : CLogThread) (r : log_receiver_t) : Z * CLogThread :=
  let '(b, l) := erase_first r (_log_receivers t) in
  (if b then 1 else 0, mkThread l (_logs t) (_n_thrd_started t)).

Section Dispatch.
Variable re_match : str -> str -> bool.                       (* regexec *)
Variable receive_log : log_receiver_t -> log_msg -> Z.        (* the callbacks *)

(** [CLogThread::match] and [LogReceiver::match]. *)
Definition thread_match (t : CLogThread) (m : log_msg) : bool :=
  existsb (fun lr => re_match (_str_title lr) (m_title m)) (_log_receivers t).

(** [do_dispatch]: the receivers in order, until one returns non-zero. *)
Fixpoint do_dispatch (rs : list LogReceiver) (li : nat) (m : log_msg) : list (log_receiver_t * nat) :=
  match rs with
  | [] => []
  | lr :: rs' => (_recv lr, li) :: (if receive_log (_recv lr) m =? 0 then do_dispatch rs' li m else [])
  end.

(** [CLogThread::append_log]. *)
Definition thread_append (t : CLogThread) (h : heap) (li : nat)
    : option (CLogThread * heap * list (log_receiver_t * nat)) :=
  if _n_thrd_started t then
    h ← add_ref h li;
    Some (mkThread (_log_receivers t) (_logs t ++ [li]) (_n_thrd_started t), h, [])
  else
    '(_, m) ← h !! li;
    Some (t, h, do_dispatch (_log_receivers t) li m).

(** [CLogImpl::append_log(item)]: dedicated threads that match, then the
    shared one. *)
Fixpoint append_threads (ts : list CLogThread) (h : heap) (li : nat)
    : option (list CLogThread * heap * list (log_receiver_t * nat)) :=
  match ts with
  | [] => Some ([], h, [])
  | t :: ts' =>
      '(_, m) ← h !! li;
      '(t, h, d1) ← (if thread_match t m then thread_append t h li else Some (t, h, []));
      '(ts', h, d2) ← append_threads ts' h li;
      Some (t :: ts', h, d1 ++ d2)
  end.

(** [CLogImpl::append_log(level, module, title, log)]: [li] is the address of the
    new item. *)
Definition impl_append (s : CLogImpl) (li : nat) (m : log_msg) : option CLogImpl :=
  let h := <[li := (1, m)]> (items s) in
  '(ts, h, d1) ← append_threads (_thrds s) h li;
  '(t, h, d2) ← thread_append (main s) h li;
  h ← release h li;
  Some (mkImpl t ts h (delivered s ++ d1 ++ d2)).

(** One turn of a dispatcher that found the semaphore signalled: take the front
    item, dispatch it, release it. *)
Definition thread_turn (t : CLogThread) (h : heap) : option (CLogThread * heap * list (log_receiver_t * nat)) :=
  match _logs t with
  | [] => Some (t, h, [])
  | li :: rest =>
      '(_, m) ← h !! li;
      h ← release h li;
      Some (mkThread (_log_receivers t) rest (_n_thrd_started t), h, do_dispatch (_log_receivers t) li m)
  end.

Definition main_turn (s : CLogImpl) : option CLogImpl :=
  '(t, h, d) ← thread_turn (main s) (items s);
  Some (mkImpl t (_thrds s) h (delivered s ++ d)).

Definition dedicated_turn (s : CLogImpl) (i : nat) : option CLogImpl :=
  match _thrds s !! i with
  | None => Some s
  | Some t =>
      '(t, h, d) ← thread_turn t (items s);
      Some (mkImpl (main s) (<[i := t]> (_thrds s)) h (delivered s ++ d))
  end.

(** [CLogThread::stop]: the queued items are released, not dispatched. *)
Definition thread_stop (t : CLogThread) (h : heap) : option (CLogThread * heap) :=
  h ← release_all h (_logs t);
  Some (mkThread (_log_receivers t) [] (_n_thrd_started t), h).

(** ** CLogImpl *)

Definition impl_register (s : CLogImpl) (lr : LogReceiver) : Z * CLogImpl :=
  if existsb (fun t => check_recv t (_recv lr)) (_thrds s) then (1, s)
  else if _b_dedicated_thread lr then
    (0, mkImpl (main s) (_thrds s ++ [mkThread [lr] [] true]) (items s) (delivered s))
  else
    let '(r, t) := thread_register (main s) lr in
    (r, mkImpl t (_thrds s) (items s) (delivered s)).

(** The loop of [CLogImpl::unregister_receiver]: [continue] inside the
    [do ... while (0)] only leaves that block, so after an erase the thread that
    moved into the erased place is skipped. *)
Fixpoint unregister_threads (ts : list CLogThread) (r : log_receiver_t) (h : heap)
    : option (list CLogThread * heap) :=
  match ts with
  | [] => Some ([], h)
  | t :: ts' =>
      let '(b, t') := thread_unregister t r in
      if b =? 1 then
        '(_, h) ← thread_stop t' h;
        match ts' with
        | [] => Some ([], h)
        | t2 :: ts'' => '(ts'', h) ← unregister_threads ts'' r h; Some (t2 :: ts'', h)
        end
      else '(ts', h) ← unregister_threads ts' r h; Some (t' :: ts', h)
  end.

Definition impl_unregister (s : CLogImpl) (r : log_receiver_t) : option (Z * CLogImpl) :=
  '(ts, h) ← unregister_threads (_thrds s) r (items s);
  let '(z, t) := thread_unregister (main s) r in
  Some (z, mkImpl t ts h (delivered s)).

Fixpoint stop_threads (ts : list CLogThread) (h : heap) : option heap :=
  match ts with
  | [] => Some h
  | t :: ts' => '(_, h) ← thread_stop t h; stop_threads ts' h
  end.

Definition impl_stop (s : CLogImpl) : option (Z * CLogImpl) :=
  h ← stop_threads (_thrds s) (items s);
  '(t, h) ← thread_stop (main s) h;
  Some (1, mkImpl t [] h (delivered s)).

(** All operations as one step; [LApp] carries the address of a new item. *)
Inductive log_event :=
| LReg (lr : LogReceiver) | LUnreg (r : log_receiver_t) | LApp (li : nat) (m : log_msg)
| LMain | LDed (i : nat) | LStop.

Definition log_step (s : CLogImpl) (e : log_event) : option CLogImpl :=
  match e with
  | LReg lr => Some (snd (impl_register s lr))
  | LUnreg r => snd <$> impl_unregister s r
  | LApp li m => impl_append s li m
  | LMain => main_turn s
  | LDed i => dedicated_turn s i
  | LStop => snd <$> impl_stop s
  end.
End Dispatch.

(** ** Registration *)

Definition recvs (t : CLogThread) : list log_receiver_t := map _recv (_log_receivers t).
Definition dedicated_recvs (s : CLogImpl) : list log_receiver_t := concat (map recvs (_thrds s)).

(** No receiver is registered twice in the shared thread, nor twice among the
    dedicated ones. *)
Definition reg_inv (s : CLogImpl) : Prop := NoDup (recvs (main s)) /\ NoDup (dedicated_recvs s).

Lemma check_recv_spec t r : check_recv t r = true <-> r ∈ recvs t.
Proof.
  unfold check_recv, recvs. rewrite existsb_exists. rewrite list_elem_of_In, in_map_iff. split.
  - intros (lr & Hin & H). bool_to_prop. subst. eauto.
  - intros (lr & <- & Hin). exists lr. split; [done|]. by apply bool_decide_eq_true.
Qed.

Lemma erase_first_spec r l :
  let '(b, l') := erase_first r l in
  if b then exists l1 lr l2, l = l1 ++ lr :: l2 /\ _recv lr = r /\ l' = l1 ++ l2 /\ r ∉ map _recv l1
  else l' = l /\ r ∉ map _recv l.
Proof.
  induction l as [|lr l IH]; simpl; [split; [done|set_solver]|]. case_bool_decide as E.
  - exists [], lr, l. repeat split; [done|set_solver].
  - destruct (erase_first r l) as [b l']. destruct b.
    + destruct IH as (l1 & lr' & l2 & -> & Hr & -> & Hn). exists (lr :: l1), lr', l2.
      repeat split; [done|]. simpl. set_solver.
    + destruct IH as [-> Hn]. split; [done|]. simpl. set_solver.
Qed.

Lemma thread_unregister_spec t r z t' :
  NoDup (recvs t) -> thread_unregister t r = (z, t') ->
  r ∉ recvs t' /\ (forall r', r' <> r -> (r' ∈ recvs t' <-> r' ∈ recvs t)) /\ NoDup (recvs t')
  /\ _logs t' = _logs t /\ (z = 1 <-> r ∈ recvs t) /\ (z = 0 \/ z = 1).
Proof.
  intros Hnd. unfold thread_unregister, recvs. pose proof (erase_first_spec r (_log_receivers t)) as H.
  destruct (erase_first r (_log_receivers t)) as [b l]. destruct b; intros [= <- <-]; simpl.
  - destruct H as (l1 & lr & l2 & E & Hr & -> & Hn). unfold recvs in Hnd. rewrite E in *. rewrite !map_app in *. simpl in *.
    apply NoDup_app in Hnd as (N1 & N2 & N3). apply NoDup_cons in N3 as [N4 N5]. subst r.
    split; [set_solver|]. split; [set_solver|]. split; [|split; [done|split; [set_solver|by right]]].
    apply NoDup_app. split; [done|]. split; [set_solver|done].
  - destruct H as [-> Hn]. do 4 (split; [done|]). split; [|by left]. split; [done|by intros C; destruct (Hn C)].
Qed.

Lemma impl_register_inv s lr : reg_inv s -> reg_inv (snd (impl_register s lr)).
Proof.
  intros [Hm Hd]. unfold impl_register. destruct (existsb _ (_thrds s)) eqn:E; [by split|].
  assert (Hnd : _recv lr ∉ dedicated_recvs s).
  { intros Hin. unfold dedicated_recvs in Hin. apply list_elem_of_In, in_concat in Hin as (l & Hl & Hin).
    apply in_map_iff in Hl as (t & <- & Ht). apply list_elem_of_In, check_recv_spec in Hin.
    assert (existsb (fun t => check_recv t (_recv lr)) (_thrds s) = true) by (apply existsb_exists; eauto). congruence. }
  destruct (_b_dedicated_thread lr); simpl.
  - split; [done|]. unfold dedicated_recvs in *. simpl. rewrite map_app, concat_app. simpl.
    apply NoDup_app. split; [done|]. split; [set_solver|]. by repeat constructor; set_solver.
  - unfold thread_register. destruct (check_recv (main s) (_recv lr)) eqn:Ec; simpl; [by split|].
    split; [|done]. unfold recvs in *. simpl. apply NoDup_cons. split; [|done].
    intros Hin. apply (check_recv_spec (main s)) in Hin. congruence.
Qed.

Lemma unregister_threads_spec ts r h ts' h' :
  NoDup (concat (map recvs ts)) -> unregister_threads ts r h = Some (ts', h') ->
  r ∉ concat (map recvs ts') /\ NoDup (concat (map recvs ts'))
  /\ (forall r', (forall t, t ∈ ts -> r ∈ recvs t -> recvs t = [r]) -> r' <> r ->
        (r' ∈ concat (map recvs ts') <-> r' ∈ concat (map recvs ts)))
  /\ (forall r', r' ∈ concat (map recvs ts') -> r' ∈ concat (map recvs ts)).
Proof.
  remember (length ts) as n eqn:En. revert ts ts' h h' En.
  induction n as [n IH] using lt_wf_ind. intros [|t ts] ts' h h' En Hnd; cbn [unregister_threads].
  { intros [= <- <-]. simpl. repeat split; auto. set_solver. }
  destruct (thread_unregister t r) as [z t'] eqn:Eu. simpl in Hnd. apply NoDup_app in Hnd as (N1 & N2 & N3).
  apply thread_unregister_spec in Eu as (U1 & U2 & U3 & U4 & U5 & U6); [|done].
  destruct (Z.eqb_spec z 1) as [->|Hz].
  - destruct (thread_stop t' h) as [[t1 h1]|]; simpl; [|done]. assert (Hrt : r ∈ recvs t) by (by apply U5).
    destruct ts as [|t2 ts].
    + intros [= <- <-]. simpl. split; [set_solver|]. split; [constructor|]. split; [|set_solver].
      intros r' Hone Hne. rewrite (Hone t) by (done || set_solver). set_solver.
    + destruct (unregister_threads ts r h1) as [[ts2 h2]|] eqn:E2; simpl; [|done]. intros [= <- <-].
      simpl in N3, N2. apply NoDup_app in N3 as (M1 & M2 & M3).
      destruct (IH (length ts) ltac:(simpl in En; lia) ts ts2 h1 h2 eq_refl M3 E2) as (I1 & I2 & I3 & I4).
      simpl. split; [specialize (N2 r Hrt); set_solver|]. split.
      { apply NoDup_app. split; [done|]. split; [|done]. intros x Hx Hy. apply (M2 x Hx). by apply I4. }
      split; [|set_solver]. intros r' Hone Hne. rewrite (Hone t) by (done || set_solver).
      rewrite !elem_of_app, (I3 r') by (try done; intros t0 Ht0; apply Hone; set_solver). set_solver.
  - destruct (unregister_threads ts r h) as [[ts2 h2]|] eqn:E2; simpl; [|done]. intros [= <- <-].
    assert (Hrt : r ∉ recvs t) by (intros C; apply Hz; by apply U5).
    assert (Heq : forall x, x ∈ recvs t' <-> x ∈ recvs t).
    { intros x. destruct (decide (x = r)) as [->|]; [by split|by apply U2]. }
    destruct (IH (length ts) ltac:(simpl in En; lia) ts ts2 h h2 eq_refl N3 E2) as (I1 & I2 & I3 & I4).
    simpl. split; [set_solver|]. split.
    { apply NoDup_app. split; [done|]. split; [|done]. intros x Hx Hy. apply (N2 x); [by apply Heq|by apply I4]. }
    split.
    + intros r' Hone Hne. rewrite !elem_of_app, Heq, (I3 r') by (try done; intros t0 Ht0; apply Hone; set_solver). done.
    + intros r'. rewrite !elem_of_app, Heq. specialize (I4 r'). tauto.
Qed.

(** Every dedicated thread serves one receiver. *)
Definition one_each (s : CLogImpl) : Prop := forall t, t ∈ _thrds s -> exists r, recvs t = [r].

(** ** Reference counts *)

(** [hinv f h]: an item is alive exactly when [f] counts a reference to it, and
    its counter is that count. *)
Definition hinv (f : nat -> nat) (h : heap) : Prop :=
  forall li, match h !! li with
             | Some (n, _) => n = Z.of_nat (f li) /\ 0 < n
             | None => f li = 0%nat
             end.

Lemma hinv_ext f g h : (forall x, f x = g x) -> hinv f h -> hinv g h.
Proof. intros E H li. rewrite <- E. apply H. Qed.

Lemma hinv_alive f h li : hinv f h -> (0 < f li)%nat -> exists m, h !! li = Some (Z.of_nat (f li), m).
Proof. intros H Hf. specialize (H li). destruct (h !! li) as [[n m]|]; [|lia]. destruct H as [-> _]. eauto. Qed.

Definition bump (li : nat) (f : nat -> nat) : nat -> nat := fun x => if bool_decide (x = li) then S (f x) else f x.

Lemma add_ref_ok f h li :
  hinv f h -> (0 < f li)%nat -> exists h', add_ref h li = Some h' /\ hinv (bump li f) h'.
Proof.
  intros H Hf. destruct (hinv_alive _ _ _ H Hf) as [m E]. unfold add_ref. rewrite E. simpl. eexists. split; [done|].
  intros x. unfold bump. case_bool_decide as Hx.
  - subst. rewrite lookup_insert_eq. lia.
  - rewrite lookup_insert_ne by done. apply H.
Qed.

Lemma release_ok f h li :
  hinv (bump li f) h -> exists h', release h li = Some h' /\ hinv f h'.
Proof.
  intros H. assert (Hb : bump li f li = S (f li)) by (unfold bump; by rewrite bool_decide_eq_true_2).
  destruct (hinv_alive _ _ li H) as [m E]; [lia|]. unfold release. rewrite E, Hb. simpl. eexists. split; [done|].
  intros x. specialize (H x). unfold bump in H. case_bool_decide as Hx.
  - subst. destruct (Z.eqb_spec (Z.of_nat (S (f li)) - 1) 0).
    + rewrite lookup_delete_eq. lia.
    + rewrite lookup_insert_eq. lia.
  - destruct (Z.of_nat (S (f li)) - 1 =? 0).
    + by rewrite lookup_delete_ne by done.
    + by rewrite lookup_insert_ne by done.
Qed.

Definition cnt (li : nat) (l : list nat) : nat := length (List.filter (Nat.eqb li) l).
Definition total (li : nat) (ts : list CLogThread) : nat := sum_list_with (fun t => cnt li (_logs t)) ts.

Lemma cnt_cons x y l : cnt x (y :: l) = ((if bool_decide (x = y) then 1 else 0) + cnt x l)%nat.
Proof. unfold cnt. simpl. destruct (Nat.eqb_spec x y); [by rewrite bool_decide_eq_true_2|by rewrite bool_decide_eq_false_2]. Qed.

Lemma cnt_snoc x y l : cnt x (l ++ [y]) = ((if bool_decide (x = y) then 1 else 0) + cnt x l)%nat.
Proof. unfold cnt. rewrite List.filter_app, length_app. simpl. destruct (Nat.eqb_spec x y); simpl; [rewrite bool_decide_eq_true_2 by done|rewrite bool_decide_eq_false_2 by done]; lia. Qed.

Lemma release_all_ok g h lis :
  hinv (fun x => cnt x lis + g x)%nat h -> exists h', release_all h lis = Some h' /\ hinv g h'.
Proof.
  revert h. induction lis as [|li lis IH]; intros h H; simpl; [eauto|].
  destruct (release_ok (fun x => cnt x lis + g x)%nat h li) as (h1 & -> & H1).
  { eapply hinv_ext; [|exact H]. intros x. unfold bump. rewrite cnt_cons. case_bool_decide; lia. }
  simpl. by apply IH.
Qed.

Section Memory.
Variable re_match : str -> str -> bool.
Variable receive_log : log_receiver_t -> log_msg -> Z.

Lemma thread_append_ok g t h li :
  hinv (fun x => cnt x (_logs t) + g x)%nat h -> (0 < g li)%nat ->
  exists t' h' d, thread_append receive_log t h li = Some (t', h', d)
  /\ hinv (fun x => cnt x (_logs t') + g x)%nat h' /\ recvs t' = recvs t.
Proof.
  intros H Hg. unfold thread_append. destruct (_n_thrd_started t).
  - destruct (add_ref_ok _ _ li H) as (h' & -> & H'); [simpl; lia|]. simpl. do 3 eexists. split; [done|].
    split; [|done]. simpl. eapply hinv_ext; [|exact H']. intros x. unfold bump. rewrite cnt_snoc. case_bool_decide; lia.
  - destruct (hinv_alive _ _ li H) as [m E]; [simpl; lia|]. rewrite E. simpl. do 3 eexists. split; [done|]. by split.
Qed.

Lemma append_threads_ok g ts h li :
  hinv (fun x => total x ts + g x)%nat h -> (0 < g li)%nat ->
  exists ts' h' d, append_threads re_match receive_log ts h li = Some (ts', h', d)
  /\ hinv (fun x => total x ts' + g x)%nat h' /\ map recvs ts' = map recvs ts.
Proof.
  revert g h. induction ts as [|t ts IH]; intros g h H Hg; simpl; [by exists [], h, []|].
  destruct (hinv_alive _ _ li H) as [m E]; [simpl; lia|]. rewrite E. simpl.
  assert (H0 : hinv (fun x => cnt x (_logs t) + (total x ts + g x))%nat h).
  { eapply hinv_ext; [|exact H]. intros x. simpl. lia. }
  assert (Hstep : exists t' h' d, (if thread_match re_match t m then thread_append receive_log t h li else Some (t, h, [])) = Some (t', h', d)
     /\ hinv (fun x => cnt x (_logs t') + (total x ts + g x))%nat h' /\ recvs t' = recvs t).
  { destruct (thread_match re_match t m); [apply thread_append_ok; [done|lia]|]. by exists t, h, []. }
  destruct Hstep as (t' & h' & d & -> & H' & Hr). simpl.
  destruct (IH (fun x => cnt x (_logs t') + g x)%nat h') as (ts' & h2 & d2 & -> & H2 & Hr2).
  { eapply hinv_ext; [|exact H']. intros x. simpl. lia. }
  { simpl. lia. }
  simpl. do 3 eexists. split; [done|]. split; [|simpl; by rewrite Hr, Hr2].
  eapply hinv_ext; [|exact H2]. intros x. simpl. lia.
Qed.

Definition queued (s : CLogImpl) (li : nat) : nat := (cnt li (_logs (main s)) + total li (_thrds s))%nat.
Definition mem_inv (s : CLogImpl) : Prop := hinv (queued s) (items s).

Lemma impl_append_ok s li m :
  mem_inv s -> items s !! li = None ->
  exists s', impl_append re_match receive_log s li m = Some s' /\ mem_inv s'
    /\ recvs (main s') = recvs (main s) /\ map recvs (_thrds s') = map recvs (_thrds s).
Proof.
  intros H Hf. unfold impl_append.
  assert (H1 : hinv (fun x => total x (_thrds s) + bump li (fun x => cnt x (_logs (main s))) x)%nat (<[li := (1, m)]> (items s))).
  { intros x. specialize (H x) as Hx. unfold bump. destruct (decide (x = li)) as [->|Hne].
    - rewrite lookup_insert_eq, bool_decide_eq_true_2 by done. rewrite Hf in Hx. unfold queued in Hx. lia.
    - rewrite lookup_insert_ne, bool_decide_eq_false_2 by done. unfold queued in Hx. by rewrite Nat.add_comm. }
  destruct (append_threads_ok _ _ _ li H1) as (ts & h2 & d1 & -> & H2 & Hr2).
  { unfold bump. rewrite bool_decide_eq_true_2 by done. lia. }
  simpl.
  destruct (thread_append_ok (bump li (fun x => total x ts)) (main s) h2 li) as (t & h3 & d2 & -> & H3 & Hr3).
  { eapply hinv_ext; [|exact H2]. intros x. unfold bump. case_bool_decide; lia. }
  { unfold bump. rewrite bool_decide_eq_true_2 by done. lia. }
  simpl. destruct (release_ok (fun x => cnt x (_logs t) + total x ts)%nat h3 li) as (h4 & -> & H4).
  { eapply hinv_ext; [|exact H3]. intros x. unfold bump. case_bool_decide; lia. }
  simpl. eexists. split; [done|]. by repeat split.
Qed.

Lemma thread_turn_ok g t h :
  hinv (fun x => cnt x (_logs t) + g x)%nat h ->
  exists t' h' d, thread_turn receive_log t h = Some (t', h', d)
  /\ hinv (fun x => cnt x (_logs t') + g x)%nat h' /\ recvs t' = recvs t.
Proof.
  intros H. unfold thread_turn. destruct (_logs t) as [|li rest] eqn:El.
  { do 3 eexists. split; [done|]. rewrite El. by split. }
  destruct (hinv_alive _ _ li H) as [m E]; [rewrite cnt_cons, bool_decide_eq_true_2 by done; simpl; lia|].
  rewrite E. simpl. destruct (release_ok (fun x => cnt x rest + g x)%nat h li) as (h' & -> & H').
  { eapply hinv_ext; [|exact H]. intros x. unfold bump. rewrite cnt_cons. case_bool_decide; lia. }
  simpl. do 3 eexists. split; [done|]. by split.
Qed.

End Memory.

Lemma total_insert ts i t t' li :
  ts !! i = Some t -> (total li (<[i := t']> ts) + cnt li (_logs t) = total li ts + cnt li (_logs t'))%nat.
Proof.
  intros H. rewrite insert_take_drop by (by apply lookup_lt_Some in H).
  rewrite <- (take_drop_middle ts i t H) at 3. unfold total. rewrite !sum_list_with_app. simpl. lia.
Qed.

Lemma recvs_insert ts i t t' :
  ts !! i = Some t -> recvs t' = recvs t -> map recvs (<[i := t']> ts) = map recvs ts.
Proof.
  intros H Hr. rewrite insert_take_drop by (by apply lookup_lt_Some in H).
  rewrite <- (take_drop_middle ts i t H) at 3. rewrite !map_app. simpl. by rewrite Hr.
Qed.

Lemma thread_stop_ok g t h :
  hinv (fun x => cnt x (_logs t) + g x)%nat h ->
  exists h', thread_stop t h = Some (mkThread (_log_receivers t) [] (_n_thrd_started t), h') /\ hinv g h'.
Proof.
  intros H. unfold thread_stop. destruct (release_all_ok _ _ _ H) as (h' & -> & H'). simpl. eauto.
Qed.

Lemma unregister_logs t r z t' : thread_unregister t r = (z, t') -> _logs t' = _logs t.
Proof. unfold thread_unregister. destruct (erase_first _ _). by intros [= _ <-]. Qed.

Lemma unregister_threads_ok g ts r h :
  hinv (fun x => total x ts + g x)%nat h ->
  exists ts' h', unregister_threads ts r h = Some (ts', h') /\ hinv (fun x => total x ts' + g x)%nat h'
  /\ (forall t', t' ∈ ts' -> exists t, t ∈ ts /\ (recvs t' = recvs t \/ thread_unregister t r = (0, t'))).
Proof.
  remember (length ts) as n eqn:En. revert ts g h En.
  induction n as [n IH] using lt_wf_ind. intros [|t ts] g h En H; cbn [unregister_threads].
  { exists [], h. split; [done|]. split; [done|set_solver]. }
  destruct (thread_unregister t r) as [z t'] eqn:Eu. pose proof (unregister_logs _ _ _ _ Eu) as El.
  destruct (Z.eqb_spec z 1) as [->|Hz].
  - destruct (thread_stop_ok (fun x => total x ts + g x)%nat t' h) as (h1 & -> & H1).
    { rewrite El. eapply hinv_ext; [|exact H]. intros x. simpl. lia. }
    simpl. destruct ts as [|t2 ts].
    + exists [], h1. split; [done|]. split; [done|set_solver].
    + destruct (IH (length ts) ltac:(simpl in En; lia) ts (fun x => cnt x (_logs t2) + g x)%nat h1 eq_refl)
        as (ts2 & h2 & -> & H2 & Hs2).
      { eapply hinv_ext; [|exact H1]. intros x. simpl. lia. }
      simpl. do 2 eexists. split; [done|]. split.
      * eapply hinv_ext; [|exact H2]. intros x. simpl. lia.
      * intros x. rewrite elem_of_cons. intros [->|Hx]; [exists t2; split; [set_solver|by left]|].
        destruct (Hs2 x Hx) as (u & Hu & Hor). exists u. split; [set_solver|done].
  - destruct (IH (length ts) ltac:(simpl in En; lia) ts (fun x => cnt x (_logs t) + g x)%nat h eq_refl)
      as (ts2 & h2 & -> & H2 & Hs2).
    { eapply hinv_ext; [|exact H]. intros x. simpl. lia. }
    simpl. do 2 eexists. split; [done|]. split.
    + eapply hinv_ext; [|exact H2]. intros x. simpl. rewrite El. lia.
    + intros x. rewrite elem_of_cons. intros [->|Hx].
      * exists t. split; [set_solver|]. right. rewrite Eu. f_equal.
        unfold thread_unregister in Eu. destruct (erase_first _ _) as [[] ?]; simplify_eq; lia.
      * destruct (Hs2 x Hx) as (u & Hu & Hor). exists u. split; [set_solver|done].
Qed.

Lemma stop_threads_ok g ts h :
  hinv (fun x => total x ts + g x)%nat h -> exists h', stop_threads ts h = Some h' /\ hinv g h'.
Proof.
  revert h. induction ts as [|t ts IH]; intros h H; simpl; [eauto|].
  destruct (thread_stop_ok (fun x => total x ts + g x)%nat t h) as (h1 & -> & H1).
  { eapply hinv_ext; [|exact H]. intros x. simpl. lia. }
  simpl. by apply IH.
Qed.
(** ** Reachable states *)

Section Reach.
Variable re_match : str -> str -> bool.
Variable receive_log : log_receiver_t -> log_msg -> Z.

(** The allocator returns an address no live item has. *)
Definition fresh (s : CLogImpl) (e : log_event) : Prop :=
  match e with LApp li _ => items s !! li = None | _ => True end.

Inductive log_reach (started : bool) : CLogImpl -> Prop :=
| reach_new : log_reach started (new_impl started)
| reach_step s e s' :
    log_reach started s -> fresh s e -> log_step re_match receive_log s e = Some s' -> log_reach started s'.

Definition all_inv (s : CLogImpl) : Prop := reg_inv s /\ one_each s /\ mem_inv s.

(** Registration facts depend on the receivers only. *)
Lemma reg_same s s' :
  recvs (main s') = recvs (main s) -> map recvs (_thrds s') = map recvs (_thrds s) ->
  reg_inv s -> one_each s -> reg_inv s' /\ one_each s'.
Proof.
  intros Hm Ht [R1 R2] O. unfold reg_inv, dedicated_recvs, one_each in *. rewrite Hm, Ht. repeat split; try done.
  intros t Hin. assert (Hr : recvs t ∈ map recvs (_thrds s')) by (by apply list_elem_of_fmap_2).
  rewrite Ht in Hr. apply list_elem_of_fmap_1 in Hr as (u & Hu & Hin'). rewrite Hu. by apply O.
Qed.

Lemma dedicated_turn_inv s i :
  all_inv s -> exists s', dedicated_turn receive_log s i = Some s' /\ all_inv s'.
Proof.
  intros (R & O & M). unfold dedicated_turn. destruct (_thrds s !! i) as [t|] eqn:E; [|by exists s].
  set (g x := (cnt x (_logs (main s)) + (total x (_thrds s) - cnt x (_logs t)))%nat).
  assert (Hle : forall x, (cnt x (_logs t) <= total x (_thrds s))%nat).
  { intros x. pose proof (total_insert (_thrds s) i t (mkThread [] [] true) x E). unfold cnt in *. simpl in *. lia. }
  destruct (thread_turn_ok receive_log g t (items s)) as (t' & h' & d & -> & H' & Hr).
  { eapply hinv_ext; [|exact M]. intros x. unfold queued, g. specialize (Hle x). lia. }
  simpl. eexists. split; [done|].
  destruct (reg_same s (mkImpl (main s) (<[i := t']> (_thrds s)) h' (delivered s ++ d))) as [R' O'];
    [done|by apply recvs_insert with t|done|done|]. split; [done|]. split; [done|].
  eapply hinv_ext; [|exact H']. intros x. unfold queued, g. simpl.
  pose proof (total_insert _ _ _ t' x E). specialize (Hle x). lia.
Qed.

Lemma impl_unregister_inv s r :
  all_inv s -> exists z s', impl_unregister s r = Some (z, s') /\ all_inv s'
  /\ r ∉ recvs (main s') /\ r ∉ dedicated_recvs s'
  /\ (forall r', r' <> r -> (r' ∈ recvs (main s') <-> r' ∈ recvs (main s))
        /\ (r' ∈ dedicated_recvs s' <-> r' ∈ dedicated_recvs s))
  /\ (z = 1 <-> r ∈ recvs (main s)).
Proof.
  intros ([R1 R2] & O & M). unfold impl_unregister.
  destruct (unregister_threads_ok (fun x => cnt x (_logs (main s))) (_thrds s) r (items s)) as (ts & h & Eu & H & Hs).
  { eapply hinv_ext; [|exact M]. intros x. unfold queued. lia. }
  rewrite Eu. simpl. destruct (unregister_threads_spec _ _ _ _ _ R2 Eu) as (U1 & U2 & U3 & U4).
  destruct (thread_unregister (main s) r) as [z t] eqn:Et.
  pose proof (unregister_logs _ _ _ _ Et) as El.
  destruct (thread_unregister_spec _ _ _ _ R1 Et) as (T1 & T2 & T3 & T4 & T5 & T6).
  do 2 eexists. split; [done|]. split; [|split; [done|split; [done|split; [|done]]]].
  - split; [by split|]. split.
    + intros t' Ht'. destruct (Hs t' Ht') as (u & Hu & [Hr|Hr]); [rewrite Hr; by apply O|].
      destruct (O u Hu) as [r0 Hr0]. unfold thread_unregister in Hr.
      pose proof (erase_first_spec r (_log_receivers u)) as He. destruct (erase_first r (_log_receivers u)) as [[] l]; [done|].
      destruct He as [-> _]. injection Hr as <-. by exists r0.
    + unfold mem_inv. simpl. eapply hinv_ext; [|exact H]. intros x. unfold queued. simpl. rewrite El. lia.
  - intros r' Hne. split; [by apply T2|]. apply U3; [|done].
    intros t0 Ht0 Hr0. destruct (O t0 Ht0) as [r0 E0]. rewrite E0 in *. f_equal. set_solver.
Qed.

Lemma log_step_inv s e :
  all_inv s -> fresh s e -> exists s', log_step re_match receive_log s e = Some s' /\ all_inv s'.
Proof.
  intros (R & O & M) Hf. destruct e as [lr|r|li m| |i|]; simpl.
  - eexists. split; [done|]. split; [by apply impl_register_inv|]. unfold impl_register.
    destruct (existsb _ _); [by split|]. destruct (_b_dedicated_thread lr); simpl.
    + split; [|].
      * intros t. simpl. rewrite elem_of_app. intros [Ht|Ht]; [by apply O|]. apply list_elem_of_singleton in Ht as ->.
        by exists (_recv lr).
      * unfold mem_inv, queued in *. simpl. eapply hinv_ext; [|exact M]. intros x. simpl.
        unfold total. rewrite sum_list_with_app. simpl. unfold cnt. simpl. lia.
    + unfold thread_register. destruct (check_recv _ _); simpl; by split.
  - destruct (impl_unregister_inv s r) as (z & s' & E & H & _); [done|]. exists s'. by rewrite E.
  - destruct (impl_append_ok re_match receive_log s li m M Hf) as (s' & E & M' & R1 & R2). exists s'.
    split; [done|]. destruct (reg_same s s' R1 R2 R O). by split.
  - unfold main_turn.
    destruct (thread_turn_ok receive_log (fun x => total x (_thrds s)) (main s) (items s) M) as (t' & h' & d & -> & H' & Hr).
    simpl. eexists. split; [done|]. destruct (reg_same s (mkImpl t' (_thrds s) h' (delivered s ++ d)) Hr eq_refl R O).
    split; [done|]. split; [done|exact H'].
  - by apply dedicated_turn_inv.
  - unfold impl_stop. destruct (stop_threads_ok (fun x => cnt x (_logs (main s)) + 0)%nat (_thrds s) (items s)) as (h1 & -> & H1).
    { eapply hinv_ext; [|exact M]. intros x. unfold queued. lia. }
    simpl. destruct (thread_stop_ok (fun _ => 0%nat) (main s) h1 H1) as (h2 & -> & H2). simpl. eexists. split; [done|].
    destruct R as [R1 _]. split; [split; [done|constructor]|]. split; [intros t; simpl; set_solver|exact H2].
Qed.

Lemma log_reach_inv started s : log_reach started s -> all_inv s.
Proof.
  induction 1 as [|s e s' _ IH Hf Hs].
  - split; [split; constructor|]. split; [unfold one_each; simpl; set_solver|]. by intros li.
  - destruct (log_step_inv s e IH Hf) as (s2 & E & H). by simplify_eq.
Qed.


(** [unregister_receiver] removes a receiver from the shared thread and from
    every dedicated thread, in spite of the loop skipping the thread after an
    erased one, and leaves all other receivers registered; its return value
    tells only about the shared thread. *)
Theorem unregister_complete started s r :
  log_reach started s ->
  exists z s', impl_unregister s r = Some (z, s')
  /\ r ∉ recvs (main s') /\ r ∉ dedicated_recvs s'
  /\ (forall r', r' <> r -> (r' ∈ recvs (main s') <-> r' ∈ recvs (main s))
        /\ (r' ∈ dedicated_recvs s' <-> r' ∈ dedicated_recvs s))
  /\ (z = 1 <-> r ∈ recvs (main s)).
Proof.
  intros Hr. destruct (impl_unregister_inv s r (log_reach_inv _ _ Hr)) as (z & s' & E & _ & H). eauto.
Qed.

(** The title filter is applied to dedicated threads only: once the shared
    dispatcher runs, every message is queued for the shared receivers whatever
    their titles and the regular expressions say. *)
Theorem shared_receivers_unfiltered started s li m s' :
  log_reach started s -> items s !! li = None -> _n_thrd_started (main s) = true ->
  impl_append re_match receive_log s li m = Some s' ->
  _logs (main s') = _logs (main s) ++ [li] /\ _log_receivers (main s') = _log_receivers (main s).
Proof.
  intros _ _ Hst. unfold impl_append. destruct (append_threads _ _ _ _ _) as [[[ts h] d1]|]; simpl; [|done].
  unfold thread_append. rewrite Hst. destruct (add_ref h li) as [h1|]; simpl; [|done].
  destruct (release h1 li) as [h2|]; simpl; [|done]. by intros [= <-].
Qed.
End Reach.

(** ** A concrete use *)

Definition always : str -> str -> bool := fun _ _ => true.
Definition quiet : log_receiver_t -> log_msg -> Z := fun _ _ => 0.
Definition rcv (n : nat) (d : bool) : LogReceiver := mkReceiver (n, n) d $"*".
Definition hello : log_msg := mkMsg INFO $"m" $"t" $"hello".

Fixpoint log_exec (s : CLogImpl) (es : list log_event) : option CLogImpl :=
  match es with
  | [] => Some s
  | e :: es' => match e with LApp li _ => if bool_decide (items s !! li = None) then s' ← log_step always quiet s e; log_exec s' es' else None
                | _ => s' ← log_step always quiet s e; log_exec s' es' end
  end.

Lemma log_exec_reach started s es s' :
  log_reach always quiet started s -> log_exec s es = Some s' -> log_reach always quiet started s'.
Proof.
  revert s. induction es as [|e es IH]; intros s Hr; simpl; [by intros [= <-]|].
  assert (Hgo : fresh s e -> (s1 ← log_step always quiet s e; log_exec s1 es) = Some s' -> log_reach always quiet started s').
  { intros Hf. destruct (log_step always quiet s e) as [s1|] eqn:E; simpl; [|done]. apply IH. by eapply reach_step. }
  destruct e; try (by apply Hgo). case_bool_decide; [by apply Hgo|done].
Qed.

Definition demo_log : list log_event :=
  [LReg (rcv 1 false); LReg (rcv 2 true); LReg (rcv 3 true); LApp 0 hello; LMain; LDed 0].
Definition demo_state : CLogImpl := default (new_impl true) (log_exec (new_impl true) demo_log).

Lemma demo_reach : log_reach always quiet true demo_state.
Proof. apply (log_exec_reach true (new_impl true) demo_log); [constructor|]. vm_compute. reflexivity. Defined.


Lemma unregister_complete_witness :
  exists z s', impl_unregister demo_state (2, 2)%nat = Some (z, s') /\ (2, 2)%nat ∉ dedicated_recvs s'.
Proof.
  destruct (unregister_complete always quiet true demo_state (2, 2)%nat demo_reach) as (z & s' & E & _ & H & _).
  eauto.
Defined.

Lemma shared_receivers_unfiltered_witness :
  exists s', impl_append (fun _ _ => false) quiet (new_impl true) 5 hello = Some s' /\ _logs (main s') = [5]%nat.
Proof.
  eexists. split; [vm_compute; reflexivity|].
  eapply (shared_receivers_unfiltered (fun _ _ => false) quiet true (new_impl true) 5 hello);
    [constructor|reflexivity|reflexivity|vm_compute; reflexivity].
Defined.

(** ** The dispatcher thread against [stop] *)
Module StopRace.

Inductive who := Dispatcher | Stopper.
Inductive dpc := D_Test | D_Sync | D_Lock | D_Dispatch | D_End.
Inductive spc := S_Start | S_Wait | S_Done.
#[export] Instance who_eq_dec : EqDecision who. Proof. solve_decision. Defined.
#[export] Instance dpc_eq_dec : EqDecision dpc. Proof. solve_decision. Defined.
#[export] Instance spc_eq_dec : EqDecision spc. Proof. solve_decision. Defined.

Record state := mkState {
  lock_logs : option who; ev_quit : bool; ev_stopped : bool; log_sync : nat; logs : nat; d : dpc; s : spc }.

Definition init : state := mkState None false false 0 0 D_Test S_Start.

Inductive event := Append | DStep | SStep.

(** [dispatch()] while the thread is running, [stop()] on Linux (the lock is held
    while waiting for [_ev_stopped]), and a producer.  [None]: blocked. *)
Definition step (x : state) (e : event) : option (state * outcome) :=
  match e with
  | Append =>
      match lock_logs x with
      | None => Some (mkState None (ev_quit x) (ev_stopped x) (S (log_sync x)) (S (logs x)) (d x) (s x), Silent)
      | Some _ => None
      end
  | DStep =>
      match d x with
      | D_Test => if ev_quit x
                  then Some (mkState (lock_logs x) (ev_quit x) true (log_sync x) (logs x) D_End (s x), Silent)
                  else Some (mkState (lock_logs x) (ev_quit x) (ev_stopped x) (log_sync x) (logs x) D_Sync (s x), Silent)
      | D_Sync => match log_sync x with
                  | O => Some (mkState (lock_logs x) (ev_quit x) (ev_stopped x) 0 (logs x) D_Test (s x), Silent)
                  | S n => Some (mkState (lock_logs x) (ev_quit x) (ev_stopped x) n (logs x) D_Lock (s x), Silent)
                  end
      | D_Lock => match lock_logs x with
                  | None => Some (mkState None (ev_quit x) (ev_stopped x) (log_sync x) (Nat.pred (logs x))
                                    (if bool_decide (logs x = 0%nat) then D_Test else D_Dispatch) (s x), Silent)
                  | Some _ => None
                  end
      | D_Dispatch => Some (mkState (lock_logs x) (ev_quit x) (ev_stopped x) (log_sync x) (logs x) D_Test (s x), Silent)
      | D_End => None
      end
  | SStep =>
      match s x with
      | S_Start => match lock_logs x with
                   | None => Some (mkState (Some Stopper) true (ev_stopped x) (log_sync x) (logs x) (d x) S_Wait, Silent)
                   | Some _ => None
                   end
      | S_Wait => if ev_stopped x
                  then Some (mkState None false (ev_stopped x) 0 0 (d x) S_Done, Returns 1)
                  else None
      | S_Done => None
      end
  end.

Record inv (x : state) : Prop := {
  i_wait : s x = S_Wait -> lock_logs x = Some Stopper /\ ev_quit x = true;
  i_free : s x <> S_Wait -> lock_logs x = None;
  i_end : d x = D_End -> ev_stopped x = true;
  i_stopped : ev_stopped x = true -> d x = D_End;
}.

Lemma inv_step x e y o : inv x -> step x e = Some (y, o) -> inv y.
Proof.
  intros [I1 I2 I3 I4]. unfold step. destruct e; intros Hs; repeat (case_match; try discriminate Hs);
    injection Hs as <- <-; constructor; simpl; try case_bool_decide; naive_solver congruence.
Qed.

Lemma inv_run tr x : run step init tr x -> inv x.
Proof.
  intros Hr. remember init as x0 eqn:E0. induction Hr as [x|x tr y e z o _ IH Hs]; [subst; by constructor|].
  eapply inv_step; eauto.
Qed.

(** C24: [stop] can deadlock with its dispatcher: it waits for the dispatcher to
    end while it holds the queue lock.  While [stop] is waiting, no thread can
    take a step exactly when the dispatcher has taken a semaphore permit and is
    about to lock the queue. *)
Theorem stop_deadlock_iff tr x :
  run step init tr x -> s x = S_Wait ->
  ((forall e, step x e = None) <-> d x = D_Lock).
Proof.
  intros Hr Hw. destruct (inv_run _ _ Hr) as [I1 I2 I3 I4]. destruct (I1 Hw) as [Hl Hq]. split.
  - intros Hn. pose proof (Hn DStep) as H1. pose proof (Hn SStep) as H2. unfold step in H1, H2. rewrite Hw, ?Hq in *.
    destruct (d x) eqn:Ed; try done; [by destruct (log_sync x)|]. by rewrite I3 in H2.
  - intros Hd [| |]; unfold step; rewrite ?Hl, ?Hd, ?Hw; try done.
    destruct (ev_stopped x) eqn:Ev; [|done]. by rewrite I4 in Hd.
Qed.

(** One queued message is enough. *)
Definition race : list event := [Append; DStep; DStep; SStep].

Lemma stop_deadlock_iff_witness :
  exists x tr, exec step init race = Some (x, tr) /\ s x = S_Wait /\ (forall e, step x e = None).
Proof.
  eexists _, _. split; [vm_compute; reflexivity|]. split; [reflexivity|].
  apply (stop_deadlock_iff _ _ (exec_run step init race _ _ eq_refl) eq_refl). reflexivity.
Defined.
End StopRace.
