(* ===== verification/LogLifecycle.v ===== *)
(** * log/: the life of the logger's objects

    [CLogImpl] and [CLogReceiver_log4cpp] are singletons created on first use;
    a [CLogReceiver] registers itself with the dispatcher when it is built and
    takes itself off when it is destroyed; [module_log_init] and
    [module_log_fini] (log.cpp) bring them up and down.  The world holds the
    objects that are alive: a callback into a receiver, or into the host of a
    receiver, that is not alive is a use after free and gives [None].  Addresses
    are not reused.  The dispatcher (LogDispatch) is used as it is; log4cpp's
    appenders and regular expressions are third-party code. *)

From S2P Require Import Prelude CLib StdMap StringUtil Sync LogLevel LogDispatch.

Open Scope Z_scope.

(** ** regmatch.cpp, over [regcomp] and [regexec] *)

Definition reg_match {R : Type} (regcomp : str -> option R) (regexec : R -> str -> bool) (s rule : str) : Z :=
  match regcomp (cstr rule) with
  | None => 0
  | Some reg => if regexec reg (cstr s) then 1 else 0
  end.

(** ** logapi.cpp: [log_set_callback] returns the callback it replaces *)

Definition log_set_callback {C : Type} (callback : C) (g_callback : C) : C * C := (g_callback, callback).

(** ** logapi.hpp: CLogReceiver and CLogNotify *)

(** [set_filter]: a null or empty title stands for every title. *)
Definition set_filter (title : option str) : str :=
  match title with
  | Some (c :: s) => c :: s
  | _ => $"*"
  end.

(** [CLogNotify::on_receive_log] over the subclass's [on_notify]. *)
Definition notify_receive (on_notify : str -> str -> Z) (m : log_msg) : Z :=
  match m_level m with
  | NOTIFY => on_notify (m_module m) (m_log m)
  | _ => 0
  end.

(** A receiver that is alive: the [_host] of a [CReceiver] of log4cpp.cpp, none
    for another subclass, its filter and [_n_dedicated_thread]. *)
Record robj := mkObj { o_host : option nat; o_title : str; o_dedicated : bool }.

(** The thread [start] creates, up to the point where [dispatch] has set
    [_b_started]. *)
Inductive thread_state := NoThread | Starting | Running.
#[export] Instance thread_state_eq_dec : EqDecision thread_state.
Proof. solve_decision. Defined.

Record world := mkWorld {
  w_impl : option CLogImpl;           (* CLogImpl::_s_instance *)
  w_thread : thread_state;            (* its _p_thread and _b_started *)
  w_orphans : nat;                    (* threads whose CLogImpl was deleted before they ran *)
  w_objs : gmap nat robj;             (* the CLogReceiver objects alive *)
  w_inst : option nat;                (* CLogReceiver_log4cpp::_instance *)
  w_hosts : gmap nat (option nat);    (* the CLogReceiver_log4cpp objects alive, with _receiver *)
  w_next : nat;                       (* the allocator *)
  w_atexit : nat;                     (* atexit(&CLogReceiver_log4cpp::release) *)
  w_initialized : Z;                  (* s_module_log_initialized *)
  w_cfg : option (list str) }.        (* the configuration file *)

Definition start_world (cfg : option (list str)) : world := mkWorld None NoThread 0 ∅ None ∅ 0 0 0 cfg.

Definition with_impl (s : option CLogImpl) (w : world) : world :=
  mkWorld s (w_thread w) (w_orphans w) (w_objs w) (w_inst w) (w_hosts w) (w_next w) (w_atexit w) (w_initialized w) (w_cfg w).
Definition with_thread (t : thread_state) (n : nat) (w : world) : world :=
  mkWorld (w_impl w) t n (w_objs w) (w_inst w) (w_hosts w) (w_next w) (w_atexit w) (w_initialized w) (w_cfg w).
Definition with_objs (o : gmap nat robj) (w : world) : world :=
  mkWorld (w_impl w) (w_thread w) (w_orphans w) o (w_inst w) (w_hosts w) (w_next w) (w_atexit w) (w_initialized w) (w_cfg w).
Definition with_hosts (i : option nat) (h : gmap nat (option nat)) (w : world) : world :=
  mkWorld (w_impl w) (w_thread w) (w_orphans w) (w_objs w) i h (w_next w) (w_atexit w) (w_initialized w) (w_cfg w).
Definition with_next (n a : nat) (w : world) : world :=
  mkWorld (w_impl w) (w_thread w) (w_orphans w) (w_objs w) (w_inst w) (w_hosts w) n a (w_initialized w) (w_cfg w).
Definition with_module (z : Z) (cfg : option (list str)) (w : world) : world :=
  mkWorld (w_impl w) (w_thread w) (w_orphans w) (w_objs w) (w_inst w) (w_hosts w) (w_next w) (w_atexit w) z cfg.

(** [_receiver] of the object at [a]: [receive_log_thunk] and [this]. *)
Definition thunk : nat := 0.
Definition receiver_of (a : nat) : log_receiver_t := (thunk, a).

(** The object the thunk calls, and the host its [on_receive_log] calls. *)
Definition callable (w : world) (r : log_receiver_t) : bool :=
  match w_objs w !! snd r with
  | Some o => match o_host o with Some h => bool_decide (is_Some (w_hosts w !! h)) | None => true end
  | None => false
  end.

Section Life.
Variable re_match : str -> str -> bool.
Variable receive_log : log_receiver_t -> log_msg -> Z.

(** ** logimpl.cpp: the singleton *)

Definition instance (create : bool) (w : world) : option CLogImpl * world :=
  match w_impl w with
  | Some s => (Some s, w)
  | None => if create then (Some (new_impl false), with_impl (Some (new_impl false)) w) else (None, w)
  end.

Definition is_log_valid (w : world) : bool := bool_decide (is_Some (fst (instance false w))).

(** [CLogThread::start] of the shared thread. *)
Definition impl_start (s : CLogImpl) (w : world) : Z * world :=
  match w_thread w with
  | NoThread =>
      let main' := mkThread (_log_receivers (main s)) (_logs (main s)) false in
      (1, with_thread Starting (w_orphans w) (with_impl (Some (mkImpl main' (_thrds s) (items s) (delivered s))) w))
  | _ => (1, w)
  end.

Definition log_init (w : world) : Z * world :=
  match instance true w with
  | (Some s, w) => impl_start s w
  | (None, w) => (0, w)
  end.

(** [CLogImpl::release]: [~CLogThread] stops once more and deletes the entries of
    the receivers.  A dispatcher that had not come up is left behind by [stop]. *)
Definition impl_release (w : world) : option world :=
  match w_impl w with
  | Some s =>
      '(_, _) ← impl_stop s;
      Some (with_thread NoThread (w_orphans w + (if decide (w_thread w = Starting) then 1 else 0))%nat (with_impl None w))
  | None => Some w
  end.

Definition log_term (w : world) : option (Z * world) :=
  if is_log_valid w then
    match instance true w with
    | (Some s, w) => '(n_ret, s) ← impl_stop s; w ← impl_release (with_impl (Some s) w); Some (n_ret, w)
    | (None, w) => Some (0, w)
    end
  else Some (1, w).

(** The callbacks [impl_append], [main_turn] and [dedicated_turn] made. *)
Definition with_dispatch (w : world) (s : CLogImpl) (r : option CLogImpl) : option world :=
  s' ← r;
  if forallb (fun d => callable w (fst d)) (drop (length (delivered s)) (delivered s'))
  then Some (with_impl (Some s') w) else None.

Definition append_log (li : nat) (m : log_msg) (w : world) : option world :=
  match instance true w with
  | (Some s, w) => with_dispatch w s (impl_append re_match receive_log s li m)
  | (None, w) => Some w
  end.

(** ** logreceiver.cpp *)

Definition register_log_receiver (r : log_receiver_t) (title : str) (dedicated : bool) (w : world) : Z * world :=
  match instance true w with
  | (Some s, w) =>
      let title := match title with [] => $"*" | _ => title end in
      let '(z, s) := impl_register s (mkReceiver r dedicated title) in (z, with_impl (Some s) w)
  | (None, w) => (1, w)
  end.

Definition unregister_log_receiver (r : log_receiver_t) (w : world) : option (Z * world) :=
  match instance true w with
  | (Some s, w) => '(z, s) ← impl_unregister s r; Some (z, with_impl (Some s) w)
  | (None, w) => Some (1, w)
  end.

(** [new CLogReceiver(dedicated, filter)] and its subclasses: the object, then
    [init]. *)
Definition new_receiver (host : option nat) (dedicated : bool) (filter : option str) (w : world) : nat * world :=
  let a := w_next w in
  let o := mkObj host (set_filter filter) dedicated in
  let w := with_objs (<[a := o]> (w_objs w)) (with_next (S a) (w_atexit w) w) in
  (a, snd (register_log_receiver (receiver_of a) (o_title o) dedicated w)).

(** [~CLogReceiver]: [term], then the memory goes. *)
Definition delete_receiver (a : nat) (w : world) : option world :=
  _ ← w_objs w !! a;
  '(_, w) ← unregister_log_receiver (receiver_of a) w;
  Some (with_objs (delete a (w_objs w)) w).

(** ** log4cpp.cpp *)

Definition log4cpp_instance (create : bool) (w : world) : option nat * world :=
  match w_inst w with
  | Some h => (Some h, w)
  | None =>
      if create then
        let h := w_next w in
        (Some h, with_next (S h) (S (w_atexit w)) (with_hosts (Some h) (<[h := None]> (w_hosts w)) w))
      else (None, w)
  end.

Definition log4cpp_release (w : world) : option world :=
  match w_inst w with
  | Some h => _ ← w_hosts w !! h; Some (with_hosts None (delete h (w_hosts w)) w)
  | None => Some w
  end.

Definition attach_to_log (h : nat) (w : world) : option (Z * world) :=
  r ← w_hosts w !! h;
  match r with
  | Some _ => Some (1, w)
  | None =>
      let '(a, w) := new_receiver (Some h) false (Some $"*") w in
      Some (1, with_hosts (w_inst w) (<[h := Some a]> (w_hosts w)) w)
  end.

Definition detach_from_log (h : nat) (w : world) : option (Z * world) :=
  r ← w_hosts w !! h;
  match r with
  | Some a => w ← delete_receiver a w; Some (1, with_hosts (w_inst w) (<[h := None]> (w_hosts w)) w)
  | None => Some (1, w)
  end.

Definition get_config_file (cwd : str) : str := cwd ++ $"/config.properties".

(** The configuration file is written when [stat] does not find it. *)
Definition init_log4cpp (cwd : str) (w : world) : world :=
  match w_cfg w with
  | Some _ => w
  | None => with_module (w_initialized w) (Some (default_cfg cwd)) w
  end.

Definition term_log4cpp (w : world) : option world := log4cpp_release w.

Definition reg_log4cpp (w : world) : option (Z * world) :=
  match log4cpp_instance true w with
  | (Some h, w) => attach_to_log h w
  | (None, w) => Some (-1, w)
  end.

Definition unreg_log4cpp (w : world) : option (Z * world) :=
  match log4cpp_instance false w with
  | (Some h, w) => detach_from_log h w
  | (None, w) => Some (1, w)
  end.

(** ** log.cpp *)

Definition life_init (cwd : str) (w : world) : option world :=
  if w_initialized w =? 1 then Some w
  else
    let w := init_log4cpp cwd (with_module 1 (w_cfg w) w) in
    let '(_, w) := log_init w in
    '(_, w) ← reg_log4cpp w;
    Some w.

Definition life_fini (w : world) : option world :=
  if w_initialized w =? 0 then Some w
  else
    '(_, w) ← unreg_log4cpp w;
    '(_, w) ← log_term w;
    w ← term_log4cpp w;
    Some (with_module 0 (w_cfg w) w).

(** ** The process *)

(** [exit]: the handlers, one for each [CLogReceiver_log4cpp] ever created. *)
Fixpoint run_atexit (n : nat) (w : world) : option world :=
  match n with
  | O => Some w
  | S n' => w ← log4cpp_release w; run_atexit n' w
  end.

Inductive life_event :=
| EInit (cwd : str) | EFini
| ELog (li : nat) (m : log_msg)            (* a thread logs *)
| EUp                                      (* the dispatcher thread enters [dispatch] *)
| EOrphan                                  (* so does one that was left behind *)
| EMain | EDed (i : nat)                   (* a dispatcher takes an item *)
| ENew (dedicated : bool) (filter : option str) | EDelete (a : nat)   (* a client's own receiver *)
| EExit.

Definition life_step (w : world) (e : life_event) : option world :=
  match e with
  | EInit cwd => life_init cwd w
  | EFini => life_fini w
  | ELog li m => append_log li m w
  | EUp =>
      match w_impl w, w_thread w with
      | Some s, Starting =>
          let main' := mkThread (_log_receivers (main s)) (_logs (main s)) true in
          Some (with_thread Running (w_orphans w) (with_impl (Some (mkImpl main' (_thrds s) (items s) (delivered s))) w))
      | _, _ => Some w
      end
  | EOrphan => match w_orphans w with O => Some w | S _ => None end
  | EMain =>
      match w_impl w, w_thread w with
      | Some s, Running => with_dispatch w s (main_turn receive_log s)
      | _, _ => Some w
      end
  | EDed i =>
      match w_impl w with
      | Some s => with_dispatch w s (dedicated_turn receive_log s i)
      | None => Some w
      end
  | ENew dedicated filter => Some (snd (new_receiver None dedicated filter w))
  | EDelete a =>
      match w_objs w !! a with
      | Some o => match o_host o with None => delete_receiver a w | Some _ => Some w end
      | None => Some w
      end
  | EExit => run_atexit (w_atexit w) w
  end.

Fixpoint life_run (w : world) (es : list life_event) : option world :=
  match es with
  | [] => Some w
  | e :: es' => w ← life_step w e; life_run w es'
  end.
End Life.

(** ** Who is called *)

Definition registered (s : CLogImpl) : list log_receiver_t := recvs (main s) ++ dedicated_recvs s.

Section Deliveries.
Variable re_match : str -> str -> bool.
Variable receive_log : log_receiver_t -> log_msg -> Z.

(** [calls d rs]: the callbacks [d] go to receivers among [rs]. *)
Definition calls (d : list (log_receiver_t * nat)) (rs : list log_receiver_t) : Prop := forall x, x ∈ d -> fst x ∈ rs.

Lemma calls_nil rs : calls [] rs.
Proof. intros x. set_solver. Qed.

Lemma calls_app d1 d2 rs1 rs2 : calls d1 rs1 -> calls d2 rs2 -> calls (d1 ++ d2) (rs1 ++ rs2).
Proof. intros H1 H2 x. rewrite !elem_of_app. intros [H|H]; [left; by apply H1|right; by apply H2]. Qed.

Lemma do_dispatch_calls rs li m : calls (do_dispatch receive_log rs li m) (map _recv rs).
Proof.
  induction rs as [|lr rs IH]; [apply calls_nil|]. intros x. simpl. rewrite elem_of_cons. intros [->|Hx]; [by left|].
  right. destruct (_ =? 0); [by apply IH|set_solver].
Qed.

Lemma thread_append_calls t h li t' h' d :
  thread_append receive_log t h li = Some (t', h', d) -> calls d (recvs t) /\ recvs t' = recvs t.
Proof.
  unfold thread_append. destruct (_n_thrd_started t).
  - destruct (add_ref h li); simpl; [|done]. intros [= <- <- <-]. split; [apply calls_nil|done].
  - destruct (h !! li) as [[n m]|]; simpl; [|done]. intros [= <- <- <-]. split; [apply do_dispatch_calls|done].
Qed.

Lemma append_threads_calls ts h li ts' h' d :
  append_threads re_match receive_log ts h li = Some (ts', h', d) ->
  calls d (concat (map recvs ts)) /\ map recvs ts' = map recvs ts.
Proof.
  revert h ts' h' d. induction ts as [|t ts IH]; intros h ts' h' d; simpl.
  { intros [= <- <- <-]. split; [apply calls_nil|done]. }
  destruct (h !! li) as [[n m]|]; simpl; [|done].
  destruct (if thread_match re_match t m then thread_append receive_log t h li else Some (t, h, [])) as [[[t1 h1] d1]|] eqn:E1; simpl; [|done].
  destruct (append_threads re_match receive_log ts h1 li) as [[[ts2 h2] d2]|] eqn:E2; simpl; [|done].
  intros [= <- <- <-]. destruct (IH _ _ _ _ E2) as [C2 R2].
  assert (C1 : calls d1 (recvs t) /\ recvs t1 = recvs t).
  { destruct (thread_match re_match t m); [by eapply thread_append_calls|]. injection E1 as <- <- <-. split; [apply calls_nil|done]. }
  destruct C1 as [C1 R1]. split; [by apply calls_app|]. simpl. by rewrite R1, R2.
Qed.

Lemma thread_turn_calls t h t' h' d :
  thread_turn receive_log t h = Some (t', h', d) -> calls d (recvs t) /\ recvs t' = recvs t.
Proof.
  unfold thread_turn. destruct (_logs t) as [|li rest]; [intros [= <- <- <-]; split; [apply calls_nil|done]|].
  destruct (h !! li) as [[n m]|]; simpl; [|done]. destruct (release h li); simpl; [|done].
  intros [= <- <- <-]. split; [apply do_dispatch_calls|done].
Qed.

(** An operation that only dispatches: it calls registered receivers and leaves
    the registrations as they are. *)
Definition dispatches (s s' : CLogImpl) : Prop :=
  recvs (main s') = recvs (main s) /\ registered s' = registered s
  /\ exists d, delivered s' = delivered s ++ d /\ calls d (registered s).

Lemma calls_swap d1 d2 rs1 rs2 : calls d1 rs2 -> calls d2 rs1 -> calls (d1 ++ d2) (rs1 ++ rs2).
Proof. intros H1 H2 x. rewrite !elem_of_app. intros [H|H]; [right; by apply H1|left; by apply H2]. Qed.

Lemma append_dispatches s li m s' : impl_append re_match receive_log s li m = Some s' -> dispatches s s'.
Proof.
  unfold impl_append. destruct (append_threads _ _ _ _ _) as [[[ts h] d1]|] eqn:E1; simpl; [|done].
  destruct (thread_append _ _ _ _) as [[[t h1] d2]|] eqn:E2; simpl; [|done]. destruct (release h1 li); simpl; [|done].
  intros [= <-]. apply append_threads_calls in E1 as [C1 R1]. apply thread_append_calls in E2 as [C2 R2].
  unfold dispatches, registered, dedicated_recvs. simpl. rewrite R1, R2. split; [done|]. split; [done|]. eexists. split; [done|]. by apply calls_swap.
Qed.

Lemma main_dispatches s s' : main_turn receive_log s = Some s' -> dispatches s s'.
Proof.
  unfold main_turn. destruct (thread_turn _ _ _) as [[[t h] d]|] eqn:E; simpl; [|done]. intros [= <-].
  apply thread_turn_calls in E as [C R]. unfold dispatches, registered, dedicated_recvs. simpl. rewrite R. split; [done|]. split; [done|].
  eexists. split; [done|]. intros x Hx. apply elem_of_app. left. by apply C.
Qed.

Lemma dedicated_dispatches s i s' : dedicated_turn receive_log s i = Some s' -> dispatches s s'.
Proof.
  unfold dedicated_turn. destruct (_thrds s !! i) as [t|] eqn:Et; cycle 1.
  { intros [= <-]. split; [done|]. split; [done|]. exists []. rewrite app_nil_r. split; [done|apply calls_nil]. }
  destruct (thread_turn _ _ _) as [[[t' h] d]|] eqn:E; simpl; [|done]. intros [= <-].
  apply thread_turn_calls in E as [C R]. unfold dispatches, registered, dedicated_recvs. simpl.
  rewrite (recvs_insert _ _ t) by done. split; [done|]. split; [done|]. eexists. split; [done|]. intros x Hx. apply elem_of_app. right.
  apply list_elem_of_In, in_concat. exists (recvs t). split; [|by apply list_elem_of_In, C].
  apply in_map, list_elem_of_In. by eapply list_elem_of_lookup_2.
Qed.
End Deliveries.

(** ** The invariant *)

(** The dispatcher holds entries of receivers that are alive. *)
Definition dinv (w : world) : Prop :=
  forall s, w_impl w = Some s ->
    all_inv s /\ forall r, r ∈ registered s -> is_Some (w_objs w !! snd r) /\ fst r = thunk.

(** A [CReceiver] and its host point at each other, the only host alive is the
    singleton, and the allocator's addresses are free. *)
Record oinv (w : world) : Prop := {
  wi_obj a o h : w_objs w !! a = Some o -> o_host o = Some h -> w_hosts w !! h = Some (Some a);
  wi_host h r : w_hosts w !! h = Some r -> w_inst w = Some h /\ (forall a, r = Some a -> exists o, w_objs w !! a = Some o /\ o_host o = Some h);
  wi_inst h : w_inst w = Some h -> is_Some (w_hosts w !! h);
  wi_fresh a : (w_next w <= a)%nat -> w_objs w !! a = None /\ w_hosts w !! a = None;
}.

Definition winv (w : world) : Prop := dinv w /\ oinv w.

Lemma callable_registered w s r : winv w -> w_impl w = Some s -> r ∈ registered s -> callable w r = true.
Proof.
  intros [D O] Hs Hr. destruct (D s Hs) as [_ Hreg]. destruct (Hreg r Hr) as [[o Ho] _]. unfold callable. rewrite Ho.
  destruct (o_host o) as [h|] eqn:Eh; [|done]. apply bool_decide_eq_true. rewrite (wi_obj w O _ _ _ Ho Eh). eauto.
Qed.

(** Replacing the dispatcher's state. *)
Lemma dinv_impl w s :
  all_inv s -> (forall r, r ∈ registered s -> is_Some (w_objs w !! snd r) /\ fst r = thunk) -> dinv (with_impl (Some s) w).
Proof. by intros Hi Hr s' [= <-]. Qed.

Lemma oinv_ext w w' :
  w_objs w' = w_objs w -> w_inst w' = w_inst w -> w_hosts w' = w_hosts w -> w_next w' = w_next w -> oinv w -> oinv w'.
Proof. intros E1 E2 E3 E4 [W1 W2 W3 W4]. constructor; rewrite ?E1, ?E2, ?E3, ?E4; done. Qed.

Lemma oinv_impl w s : oinv w -> oinv (with_impl s w).
Proof. by apply oinv_ext. Qed.

Lemma winv_thread w t n : winv w -> winv (with_thread t n w).
Proof. intros [D O]. split; [exact D|]. by eapply oinv_ext, O. Qed.

Lemma winv_module w z c : winv w -> winv (with_module z c w).
Proof. intros [D O]. split; [exact D|]. by eapply oinv_ext, O. Qed.

Lemma new_impl_inv b : all_inv (new_impl b).
Proof. split; [split; constructor|]. split; [unfold one_each; simpl; set_solver|]. by intros li. Qed.

(** [instance()] gives the dispatcher there is, or a new one. *)
Lemma instance_inv w :
  dinv w -> exists s, instance true w = (Some s, with_impl (Some s) w) /\ dinv (with_impl (Some s) w)
    /\ forall s0, w_impl w = Some s0 -> s = s0.
Proof.
  intros H. unfold instance. destruct (w_impl w) as [s|] eqn:E.
  - exists s. assert (Ew : with_impl (Some s) w = w) by (destruct w; simpl in *; by subst). rewrite Ew. split; [done|]. split; [done|]. by intros s0 [= <-].
  - eexists. split; [done|]. split; [|done]. apply dinv_impl; [apply new_impl_inv|]. intros r. unfold registered, dedicated_recvs, recvs. simpl. set_solver.
Qed.

Lemma with_dispatch_ok w s r s' :
  winv w -> w_impl w = Some s -> r = Some s' -> all_inv s' -> dispatches s s' ->
  with_dispatch w s r = Some (with_impl (Some s') w) /\ winv (with_impl (Some s') w).
Proof.
  intros H Hs -> Hi (_ & Hreg & d & Hd & Hc). split.
  - unfold with_dispatch. simpl. rewrite Hd, drop_app_length.
    replace (forallb _ d) with true; [done|]. symmetry. apply forallb_forall. intros x Hx.
    eapply callable_registered; [done..|]. apply Hc. by apply list_elem_of_In.
  - destruct H as [D O]. split; [|by apply oinv_impl]. apply dinv_impl; [done|]. rewrite Hreg. by apply D.
Qed.

(** ** Registration *)

Section Registration.
Variable re_match : str -> str -> bool.
Variable receive_log : log_receiver_t -> log_msg -> Z.

Lemma registered_register s lr r :
  r ∈ registered (snd (impl_register s lr)) <-> r ∈ registered s \/ r = _recv lr.
Proof.
  unfold impl_register. destruct (existsb _ _) eqn:Ex.
  - simpl. split; [by left|]. intros [Hr| ->]; [done|]. apply existsb_exists in Ex as (t & Ht & Hc).
    apply check_recv_spec in Hc. unfold registered, dedicated_recvs. apply elem_of_app. right.
    apply list_elem_of_In, in_concat. exists (recvs t). split; [by apply in_map|by apply list_elem_of_In].
  - destruct (_b_dedicated_thread lr).
    + unfold registered, dedicated_recvs. simpl. rewrite map_app, concat_app. simpl. set_solver.
    + unfold thread_register. destruct (check_recv (main s) (_recv lr)) eqn:Ec.
      * apply check_recv_spec in Ec. unfold registered, dedicated_recvs. simpl. set_solver.
      * unfold registered, dedicated_recvs, recvs. simpl. set_solver.
Qed.

(** The receivers of the shared thread: they stay, and a receiver that is new and
    asks for no thread of its own is among them. *)
Lemma shared_register s lr :
  (forall r, r ∈ recvs (main s) -> r ∈ recvs (main (snd (impl_register s lr))))
  /\ (_b_dedicated_thread lr = false -> _recv lr ∉ dedicated_recvs s -> _recv lr ∈ recvs (main (snd (impl_register s lr)))).
Proof.
  unfold impl_register. destruct (existsb _ _) eqn:Ex.
  - split; [done|]. intros _ Hn. destruct Hn. apply existsb_exists in Ex as (t & Ht & Hc). apply check_recv_spec in Hc.
    apply list_elem_of_In, in_concat. exists (recvs t). split; [by apply in_map|by apply list_elem_of_In].
  - destruct (_b_dedicated_thread lr); [done|]. unfold thread_register. destruct (check_recv (main s) (_recv lr)) eqn:Ec; simpl.
    + split; [done|]. intros _ _. by apply check_recv_spec.
    + unfold recvs. simpl. split; [intros r; by right|]. intros _ _. by left.
Qed.

Lemma register_ok a title ded w :
  dinv w -> is_Some (w_objs w !! a) ->
  exists s', snd (register_log_receiver (receiver_of a) title ded w) = with_impl (Some s') w
    /\ dinv (with_impl (Some s') w)
    /\ (ded = false -> (forall s0, w_impl w = Some s0 -> receiver_of a ∉ registered s0) -> receiver_of a ∈ recvs (main s'))
    /\ (forall s0 r, w_impl w = Some s0 -> r ∈ recvs (main s0) -> r ∈ recvs (main s')).
Proof.
  intros H Ha. unfold register_log_receiver. destruct (instance_inv w H) as (s & Ei & H' & Hs0).
  assert (Hnone : w_impl w = None -> s = new_impl false).
  { intros En. unfold instance in Ei. rewrite En in Ei. by injection Ei as <-. }
  rewrite Ei. clear Ei. set (lr := mkReceiver _ _ _). destruct (H' s eq_refl) as [Hi Hreg].
  destruct (log_step_inv re_match receive_log s (LReg lr) Hi Logic.I) as (s2 & E & Hi2). simpl in E.
  pose proof (registered_register s lr) as Hr. pose proof (shared_register s lr) as [Hk Hnew].
  destruct (impl_register s lr) as [z s1] eqn:Er. simpl in *. injection E as ->.
  exists s2. split; [done|]. split; [|split].
  2: { intros Hd Hn. apply Hnew; [done|]. intros Hin. destruct (w_impl w) as [s0|] eqn:E0.
    - apply (Hn s0 eq_refl). rewrite <- (Hs0 s0 eq_refl). unfold registered. apply elem_of_app. by right.
    - rewrite (Hnone eq_refl) in Hin. unfold dedicated_recvs in Hin. simpl in Hin. set_solver. }
  2: { intros s0 r E0 Hin. apply Hk. by rewrite (Hs0 s0 E0). }
  apply dinv_impl; [done|].
  intros r [Hin| ->]%Hr; [by apply Hreg|done].
Qed.

Lemma unregister_ok a w :
  dinv w ->
  exists z s', unregister_log_receiver (receiver_of a) w = Some (z, with_impl (Some s') w)
    /\ dinv (with_impl (Some s') w) /\ receiver_of a ∉ registered s'
    /\ (forall s0 r, w_impl w = Some s0 -> r ∈ recvs (main s0) -> r <> receiver_of a -> r ∈ recvs (main s')).
Proof.
  intros H. unfold unregister_log_receiver. destruct (instance_inv w H) as (s & -> & H' & Hs0).
  destruct (H' s eq_refl) as [Hi Hreg].
  destruct (impl_unregister_inv receive_log s (receiver_of a) Hi) as (z & s' & -> & Hi' & N1 & N2 & Hother & _). simpl.
  exists z, s'. split; [done|]. split; [|split; [unfold registered; set_solver|]].
  2: { intros s0 r E0 Hin Hne. rewrite <- (Hs0 s0 E0) in Hin. by apply (Hother r Hne). }
  apply dinv_impl; [done|].
  intros r Hr. apply Hreg. destruct (decide (r = receiver_of a)) as [->|Hne]; [unfold registered in *; set_solver|].
  destruct (Hother r Hne) as [O1 O2].
  unfold registered in *. apply elem_of_app in Hr as [?|?]; apply elem_of_app; [left; by apply O1|right; by apply O2].
Qed.
End Registration.

(** ** The objects *)

(** What the operations on receivers leave alone. *)
Definition frame (w w' : world) : Prop :=
  w_inst w' = w_inst w /\ w_thread w' = w_thread w /\ w_orphans w' = w_orphans w /\ w_initialized w' = w_initialized w.

(** log4cpp's receiver is alive and registered. *)
Definition attached (w : world) : Prop :=
  exists h a s, w_inst w = Some h /\ w_hosts w !! h = Some (Some a) /\ w_impl w = Some s /\ receiver_of a ∈ recvs (main s).

Section Objects.
Variable re_match : str -> str -> bool.
Variable receive_log : log_receiver_t -> log_msg -> Z.

Lemma new_receiver_ok host ded filter w :
  winv w -> (forall h, host = Some h -> w_hosts w !! h = Some None) ->
  exists w', new_receiver host ded filter w = (w_next w, w') /\ frame w w' /\ dinv w' /\ w_hosts w' = w_hosts w
    /\ w_objs w' = <[w_next w := mkObj host (set_filter filter) ded]> (w_objs w) /\ w_next w' = S (w_next w)
    /\ exists s', w_impl w' = Some s' /\ (ded = false -> receiver_of (w_next w) ∈ recvs (main s'))
         /\ forall s0 r, w_impl w = Some s0 -> r ∈ recvs (main s0) -> r ∈ recvs (main s').
Proof.
  intros [D O] Hh. unfold new_receiver. set (a := w_next w). set (o := mkObj host (set_filter filter) ded).
  set (w1 := with_objs _ _).
  assert (D1 : dinv w1).
  { intros s Hs. destruct (D s Hs) as [Hi Hr]. split; [done|]. intros r Hin. destruct (Hr r Hin) as [[x Hx] Ht]. split; [|done].
    simpl. destruct (decide (a = snd r)) as [->|Hne]; [rewrite lookup_insert_eq; eauto|rewrite lookup_insert_ne by done; eauto]. }
  destruct (register_ok re_match receive_log a (o_title o) ded w1 D1) as (s' & E & D' & R1 & R2).
  { simpl. rewrite lookup_insert_eq. eauto. }
  rewrite E. eexists. do 6 (split; [done|]). exists s'. split; [done|]. split; [|done].
  intros Hd. apply R1; [done|]. intros s0 Hs0 Hin. destruct (D s0 Hs0) as [_ Hr]. destruct (Hr _ Hin) as [[x Hx] _].
  destruct (wi_fresh w O a ltac:(lia)) as [F _]. simpl in Hx. congruence.
Qed.

Lemma new_client_inv ded filter w : winv w -> let w' := snd (new_receiver None ded filter w) in winv w' /\ frame w w' /\ (attached w -> attached w').
Proof.
  intros H. cbv zeta. destruct (new_receiver_ok None ded filter w H) as (w' & -> & F & D & Eh & Eo & En & s' & Es & _ & Hr); [done|]. simpl.
  split; [|split; [done|]].
  2: { destruct F as (Ei & _). intros (h & a & s0 & A1 & A2 & A3 & A4). exists h, a, s'. rewrite Ei, Eh. naive_solver. }
  destruct H as [_ O], F as (Ei & _). split; [done|].
  destruct (wi_fresh w O (w_next w) ltac:(lia)) as [F1 F2]. constructor; rewrite ?Eh, ?Eo, ?Ei, ?En.
  - intros a o h. rewrite lookup_insert_Some. intros [[<- <-]|[Hne Ho]] Hoh; [done|]. by eapply wi_obj.
  - intros h r Hr0. destruct (wi_host w O h r Hr0) as [? Ha]. split; [done|]. intros a ->. destruct (Ha a eq_refl) as (x & Hx & Hxh).
    exists x. rewrite lookup_insert_ne by congruence. done.
  - apply O.
  - intros a Ha. rewrite lookup_insert_ne by lia. apply O. lia.
Qed.

Lemma attach_ok h w :
  winv w -> w_inst w = Some h -> exists w', attach_to_log h w = Some (1, w') /\ winv w' /\ frame w w'
    /\ (w_hosts w !! h = Some None -> attached w').
Proof.
  intros H Hi. destruct (wi_inst w (proj2 H) h Hi) as [r Hr]. unfold attach_to_log. rewrite Hr. cbn [mbind option_bind].
  destruct r as [a|]; [by exists w|].
  destruct (new_receiver_ok (Some h) false (Some $"*") w H) as (w' & -> & F & D & Eh & Eo & En & s' & Es & Hin & _); [by intros ? [= <-]|].
  eexists. split; [done|]. split; [|split; [by destruct F|]].
  2: { intros _. exists h, (w_next w), s'. simpl. destruct F as (Ei & _). rewrite Ei, lookup_insert_eq. by eauto. } destruct H as [_ O], F as (Ei & _).
  destruct (wi_fresh w O (w_next w) ltac:(lia)) as [F1 F2]. split; [exact D|].
  constructor; simpl; rewrite ?Eh, ?Eo, ?Ei, ?En.
  - intros a o h'. rewrite lookup_insert_Some. intros [[<- <-]|[Hne Ho]] Hoh; simpl in *.
    + simplify_eq. by rewrite lookup_insert_eq.
    + pose proof (wi_obj w O _ _ _ Ho Hoh) as Ho'. rewrite lookup_insert_ne; [done|]. congruence.
  - intros h' r. rewrite lookup_insert_Some. intros [[<- <-]|[Hne Hr']].
    + split; [done|]. intros a [= <-]. eexists. by rewrite lookup_insert_eq.
    + destruct (wi_host w O h' r Hr') as [? Ha]. congruence.
  - intros h' Hh'. rewrite Hi in Hh'. injection Hh' as <-. rewrite lookup_insert_eq. eauto.
  - intros a Ha. rewrite !lookup_insert_ne; [apply O; lia| |lia].
    intros <-. destruct (wi_fresh w O h ltac:(lia)). congruence.
Qed.

Lemma delete_receiver_ok a o w :
  dinv w -> w_objs w !! a = Some o ->
  exists w', delete_receiver a w = Some w' /\ dinv w' /\ frame w w' /\ w_hosts w' = w_hosts w
    /\ w_objs w' = delete a (w_objs w) /\ w_next w' = w_next w
    /\ exists s', w_impl w' = Some s' /\ forall s0 r, w_impl w = Some s0 -> r ∈ recvs (main s0) -> r <> receiver_of a -> r ∈ recvs (main s').
Proof.
  intros D Ho. unfold delete_receiver. rewrite Ho. simpl.
  destruct (unregister_ok receive_log a w D) as (z & s' & -> & D' & Hn & Hk). simpl. eexists. split; [done|]. split; [|do 4 (split; [done|]); by eauto].
  intros s Hs. simpl in Hs. injection Hs as <-. destruct (D' s' eq_refl) as [Hi Hr]. split; [done|]. intros r Hin.
  destruct (Hr r Hin) as [Hx Ht]. split; [|done]. simpl in *. rewrite lookup_delete_ne; [done|].
  intros ->. apply Hn. destruct r. simpl in *. by subst.
Qed.

Lemma detach_ok h w :
  winv w -> w_inst w = Some h ->
  exists w', detach_from_log h w = Some (1, w') /\ winv w' /\ frame w w' /\ w_hosts w' !! h = Some None.
Proof.
  intros H Hi. destruct (wi_inst w (proj2 H) h Hi) as [r Hr]. unfold detach_from_log. rewrite Hr. simpl.
  destruct r as [a|]; [|by exists w]. destruct H as [D O]. destruct (wi_host w O h _ Hr) as [_ Ha].
  destruct (Ha a eq_refl) as (o & Ho & _). destruct (delete_receiver_ok a o w D Ho) as (w' & -> & D' & F & Eh & Eo & En & _). simpl.
  eexists. split; [done|]. split; [|split; [by destruct F|by simpl; rewrite lookup_insert_eq]]. destruct F as (Ei & _). split; [exact D'|].
  constructor; simpl; rewrite ?Eh, ?Eo, ?Ei, ?En.
  - intros b o' h'. rewrite lookup_delete_Some. intros [Hne Hb] Hoh. pose proof (wi_obj w O _ _ _ Hb Hoh) as Hb'.
    rewrite lookup_insert_ne; [done|]. congruence.
  - intros h' r. rewrite lookup_insert_Some. intros [[<- <-]|[Hne Hr']]; [by split|].
    destruct (wi_host w O h' r Hr') as [? _]. congruence.
  - intros h' Hh'. rewrite Hi in Hh'. injection Hh' as <-. rewrite lookup_insert_eq. eauto.
  - intros b Hb. rewrite lookup_delete_None, lookup_insert_ne; [split; [right|]; apply O; lia|].
    intros <-. destruct (wi_fresh w O h ltac:(lia)). congruence.
Qed.

Lemma client_delete_inv a o w :
  winv w -> w_objs w !! a = Some o -> o_host o = None -> exists w', delete_receiver a w = Some w' /\ winv w' /\ frame w w' /\ (attached w -> attached w').
Proof.
  intros [D O] Ho Hh. destruct (delete_receiver_ok a o w D Ho) as (w' & E & D' & F & Eh & Eo & En & s' & Es & Hk). exists w'.
  split; [done|]. split; [|split; [done|]].
  2: { destruct F as (Ei & _). intros (h & b & s0 & A1 & A2 & A3 & A4). exists h, b, s'. rewrite Ei, Eh.
    do 3 (split; [done|]). apply (Hk s0); [done..|]. destruct (wi_host w O _ _ A2) as [_ Hb]. destruct (Hb b eq_refl) as (x & Hx & Hxh).
    unfold receiver_of. congruence. } destruct F as (Ei & _). split; [exact D'|]. constructor; rewrite ?Eh, ?Eo, ?Ei, ?En.
  - intros b o' h'. rewrite lookup_delete_Some. intros [Hne Hb]. by eapply wi_obj.
  - intros h r Hr0. destruct (wi_host w O h r Hr0) as [? Ha]. split; [done|]. intros b ->. destruct (Ha b eq_refl) as (x & Hx & Hxh).
    exists x. rewrite lookup_delete_ne; [done|]. congruence.
  - apply O.
  - intros b Hb. rewrite lookup_delete_None. split; [right|]; apply O; lia.
Qed.
End Objects.

(** ** Bringing the logger up and down *)

(** The events a program that ends the logger properly can cause: it does not
    call [module_log_fini] before the dispatcher thread has come up, and calls
    it instead of leaving the objects to [exit]; a new item has a free address. *)
Definition calm (w : world) (e : life_event) : Prop :=
  match e with
  | EFini => w_thread w <> Starting
  | EExit => w_inst w = None
  | ELog li _ => match w_impl w with Some s => items s !! li = None | None => True end
  | _ => True
  end.

Definition linv (w : world) : Prop :=
  winv w /\ w_orphans w = 0%nat
  /\ (w_initialized w = 0 /\ w_inst w = None \/ w_initialized w = 1 /\ attached w).

Section Life_safe.
Variable re_match : str -> str -> bool.
Variable receive_log : log_receiver_t -> log_msg -> Z.

(** The started flag of the shared thread is no part of the invariant. *)
Lemma set_started_inv s b :
  all_inv s ->
  let s' := mkImpl (mkThread (_log_receivers (main s)) (_logs (main s)) b) (_thrds s) (items s) (delivered s) in
  all_inv s' /\ registered s' = registered s.
Proof. done. Qed.

Lemma winv_started w s b t n :
  winv w -> w_impl w = Some s ->
  winv (with_thread t n (with_impl (Some (mkImpl (mkThread (_log_receivers (main s)) (_logs (main s)) b) (_thrds s) (items s) (delivered s))) w)).
Proof.
  intros [D O] Hs. apply winv_thread. split; [|by apply oinv_impl]. destruct (D s Hs) as [Hi Hr].
  by apply dinv_impl.
Qed.

Lemma log_init_ok w :
  winv w -> winv (snd (log_init w)) /\ w_inst (snd (log_init w)) = w_inst w /\ w_orphans (snd (log_init w)) = w_orphans w
    /\ w_initialized (snd (log_init w)) = w_initialized w.
Proof.
  intros [D O]. unfold log_init. destruct (instance_inv w D) as (s & -> & D' & _). unfold impl_start. simpl.
  assert (H : winv (with_impl (Some s) w)) by (split; [done|by apply oinv_impl]).
  destruct (w_thread w); simpl; [|by split..]. split; [|done]. by apply (winv_started (with_impl (Some s) w) s).
Qed.

Lemma stop_inv s : all_inv s -> exists z s', impl_stop s = Some (z, s') /\ all_inv s'.
Proof.
  intros Hi. destruct (log_step_inv re_match receive_log s LStop Hi Logic.I) as (s' & E & Hi'). simpl in E.
  destruct (impl_stop s) as [[z s1]|]; simpl in E; [|done]. injection E as ->. eauto.
Qed.

Lemma log_term_ok w :
  winv w -> w_thread w <> Starting ->
  exists z w', log_term w = Some (z, w') /\ winv w' /\ w_impl w' = None
    /\ w_inst w' = w_inst w /\ w_hosts w' = w_hosts w /\ w_objs w' = w_objs w /\ w_orphans w' = w_orphans w
    /\ w_initialized w' = w_initialized w.
Proof.
  intros [D O] Ht. unfold log_term, is_log_valid, instance. destruct (w_impl w) as [s|] eqn:Es; simpl; [|by exists 1, w].
  destruct (stop_inv s) as (z & s1 & -> & H1); [by apply D|]. simpl. unfold impl_release. simpl.
  destruct (stop_inv s1 H1) as (z2 & s2 & -> & H2). simpl. do 2 eexists. split; [done|].
  rewrite decide_False by done. rewrite Nat.add_0_r. split; [|done]. apply winv_thread. split; [done|]. by do 2 apply oinv_impl.
Qed.

Lemma release_host_ok h w :
  winv w -> w_inst w = Some h -> w_hosts w !! h = Some None ->
  exists w', log4cpp_release w = Some w' /\ winv w' /\ w_inst w' = None /\ w_hosts w' = ∅ /\ w_objs w' = w_objs w
    /\ w_impl w' = w_impl w /\ w_orphans w' = w_orphans w.
Proof.
  intros [D O] Hi Hh. unfold log4cpp_release. rewrite Hi, Hh. simpl.
  assert (E : delete h (w_hosts w) = ∅).
  { apply map_empty. intros h'. apply lookup_delete_None. destruct (decide (h = h')) as [|Hne]; [by left|]. right.
    destruct (w_hosts w !! h') as [r|] eqn:Er; [|done]. destruct (wi_host w O _ _ Er) as [E _]. congruence. }
  rewrite E. eexists. split; [done|]. split; [|done]. split; [exact D|]. constructor; simpl.
  - intros a o h' Ho Hoh. pose proof (wi_obj w O _ _ _ Ho Hoh) as P. destruct (wi_host w O _ _ P) as [P' _]. congruence.
  - intros h' r. by rewrite lookup_empty.
  - done.
  - intros a Ha. split; [by apply O|apply lookup_empty].
Qed.

Lemma reg_ok w : winv w -> exists z w', reg_log4cpp w = Some (z, w') /\ winv w' /\ w_orphans w' = w_orphans w /\ w_initialized w' = w_initialized w
    /\ (w_inst w = None -> attached w').
Proof.
  intros H. unfold reg_log4cpp, log4cpp_instance. destruct (w_inst w) as [h|] eqn:Ei.
  - destruct (attach_ok re_match receive_log h w H Ei) as (w' & -> & H' & F & _). destruct F as (_ & _ & ? & ?). exists 1, w'. do 4 (split; [done|]). done.
  - set (w1 := with_next _ _ _).
    assert (H1 : winv w1).
    { destruct H as [D O]. split; [exact D|]. destruct (wi_fresh w O (w_next w) ltac:(lia)) as [F1 F2].
      assert (Hno : forall h, w_hosts w !! h = None).
      { intros h. destruct (w_hosts w !! h) as [r|] eqn:Er; [|done]. destruct (wi_host w O _ _ Er). congruence. }
      constructor; simpl.
      - intros a o h Ho Hoh. pose proof (wi_obj w O _ _ _ Ho Hoh). by rewrite Hno in *.
      - intros h r. rewrite lookup_insert_Some. intros [[<- <-]|[_ Hr]]; [done|by rewrite Hno in Hr].
      - intros h [= <-]. rewrite lookup_insert_eq. eauto.
      - intros a Ha. rewrite lookup_insert_ne by lia. apply O. lia. }
    destruct (attach_ok re_match receive_log (w_next w) w1 H1 eq_refl) as (w' & -> & H' & F & Ha). destruct F as (_ & _ & ? & ?).
    exists 1, w'. do 4 (split; [done|]). intros _. apply Ha. simpl. by rewrite lookup_insert_eq.
Qed.

Lemma life_init_ok cwd w : linv w -> exists w', life_init cwd w = Some w' /\ linv w' /\ w_initialized w' = 1.
Proof.
  intros (H & Ho & Hm). unfold life_init. destruct (Z.eqb_spec (w_initialized w) 1) as [E|E]; [by exists w|].
  destruct Hm as [[_ Hn]|[? _]]; [|done]. set (w1 := init_log4cpp cwd (with_module 1 (w_cfg w) w)).
  assert (H1 : winv w1 /\ w_orphans w1 = 0%nat /\ w_initialized w1 = 1 /\ w_inst w1 = None).
  { subst w1. unfold init_log4cpp. simpl. destruct (w_cfg w); (split; [by repeat apply winv_module|done]). }
  destruct H1 as (H1 & Ho1 & Hi1 & Hn1). destruct (log_init_ok w1 H1) as (H2 & Hn2 & Ho2 & Hi2).
  destruct (log_init w1) as [z w2]. simpl in *. destruct (reg_ok w2 H2) as (z3 & w3 & -> & H3 & Ho3 & Hi3 & Ha). simpl.
  exists w3. split; [done|]. split; [|congruence]. split; [done|]. split; [congruence|]. right. split; [congruence|].
  apply Ha. congruence.
Qed.

(** Without the singleton there is no host and no [CReceiver]. *)
Lemma no_host_left w :
  winv w -> w_inst w = None -> w_hosts w = ∅ /\ (forall a o, w_objs w !! a = Some o -> o_host o = None).
Proof.
  intros [_ O] Hi. assert (Hno : forall h, w_hosts w !! h = None).
  { intros h. destruct (w_hosts w !! h) as [r|] eqn:Er; [|done]. destruct (wi_host w O _ _ Er). congruence. }
  split; [by apply map_empty|]. intros a o Hao. destruct (o_host o) as [h|] eqn:Eh; [|done].
  pose proof (wi_obj w O _ _ _ Hao Eh). by rewrite Hno in *.
Qed.

(** [module_log_fini] leaves nothing of the logger behind. *)
Lemma life_fini_ok w :
  linv w -> w_thread w <> Starting ->
  exists w', life_fini w = Some w' /\ linv w'
    /\ (w_initialized w <> 0 -> w_impl w' = None)
    /\ w_hosts w' = ∅ /\ (forall a o, w_objs w' !! a = Some o -> o_host o = None).
Proof.
  intros (H & Ho & Hm) Ht. unfold life_fini.
  destruct (Z.eqb_spec (w_initialized w) 0) as [E|E].
  { exists w. do 3 (split; [done|]). apply no_host_left; [done|]. destruct Hm as [[_ ?]|[? _]]; [done|lia]. }
  assert (Hu : exists z w1, unreg_log4cpp w = Some (z, w1) /\ winv w1 /\ frame w w1
    /\ (forall h, w_inst w1 = Some h -> w_hosts w1 !! h = Some None)).
  { unfold unreg_log4cpp, log4cpp_instance. destruct (w_inst w) as [h|] eqn:Ei; [|exists 1, w; do 3 (split; [done|]); intros h; congruence].
    destruct (detach_ok receive_log h w H Ei) as (w1 & E1 & H1 & F & Hd). exists 1, w1. do 3 (split; [done|]).
    intros h' Hh'. destruct F as (F & _). by rewrite F, Ei in Hh'; injection Hh' as <-. }
  destruct Hu as (z & w1 & -> & H1 & F & Hh). simpl. destruct F as (Ei & Et & Eo & Em).
  destruct (log_term_ok w1 H1) as (z2 & w2 & -> & H2 & Hn & Ei2 & Eh2 & _ & Eo2 & Em2); [congruence|]. simpl. unfold term_log4cpp.
  destruct (w_inst w2) as [h|] eqn:Hi2.
  - destruct (release_host_ok h w2 H2 Hi2) as (w3 & -> & H3 & Hi3 & Hh3 & _ & Hn3 & Ho3); [rewrite Eh2; apply Hh; congruence|].
    simpl. eexists. split; [done|]. pose proof (no_host_left w3 H3 Hi3). split; [|simpl; intuition congruence].
    split; [by apply winv_module|]. simpl. split; [congruence|by left].
  - unfold log4cpp_release. rewrite Hi2. simpl. eexists. split; [done|]. pose proof (no_host_left w2 H2 Hi2).
    split; [|simpl; intuition congruence]. split; [by apply winv_module|]. simpl. split; [congruence|by left].
Qed.
Lemma linv_frame w w' : linv w -> winv w' -> frame w w' -> (attached w -> attached w') -> linv w'.
Proof.
  intros (_ & Ho & Hm) H' (F1 & F2 & F3 & F4) Ha. split; [done|]. split; [congruence|].
  destruct Hm as [[? ?]|[? ?]]; [left|right]; split; try congruence; auto.
Qed.

Lemma attached_impl w s s' :
  w_impl w = Some s -> (forall r, r ∈ recvs (main s) -> r ∈ recvs (main s')) -> attached w -> attached (with_impl (Some s') w).
Proof. intros Hs Hr (h & a & s0 & A1 & A2 & A3 & A4). exists h, a, s'. rewrite Hs in A3. injection A3 as <-. simpl. auto. Qed.

(** Dispatching in a state of the world. *)
Lemma dispatch_linv w s r s' :
  linv w -> w_impl w = Some s -> r = Some s' -> all_inv s' -> dispatches s s' ->
  exists w', with_dispatch w s r = Some w' /\ linv w'.
Proof.
  intros H Hs Hr Hi Hd. destruct (with_dispatch_ok w s r s') as [E Hw]; [by destruct H|done..|].
  eexists. split; [exact E|]. apply (linv_frame w); [done|done|done|]. apply (attached_impl w s s' Hs).
  destruct Hd as [-> _]. done.
Qed.

Lemma append_log_ok li m w :
  linv w -> calm w (ELog li m) -> exists w', append_log re_match receive_log li m w = Some w' /\ linv w'.
Proof.
  intros H Hc. unfold append_log. destruct (instance_inv w) as (s & E & D & Hs0); [by destruct H as [[? _] _]|].
  assert (Hf : items s !! li = None).
  { unfold instance in E. simpl in Hc. destruct (w_impl w) as [s0|] eqn:E0; [by rewrite (Hs0 s0 eq_refl)|]. by injection E as <-. }
  rewrite E. clear E.
  assert (H1 : linv (with_impl (Some s) w)).
  { apply (linv_frame w); [done| |done|].
    - split; [done|]. apply oinv_impl. by destruct H as [[_ ?] _].
    - intros A. pose proof A as (h & a & s0 & _ & _ & A3 & _). apply (attached_impl w s0 s A3); [|done].
      by rewrite (Hs0 s0 A3). }
  destruct (log_step_inv re_match receive_log s (LApp li m)) as (s' & E & Hi); [by apply (D s)|done|]. simpl in E.
  eapply dispatch_linv; [exact H1|done|exact E|done|by eapply append_dispatches].
Qed.
Lemma run_atexit_none n w : w_inst w = None -> run_atexit n w = Some w.
Proof. intros H. induction n as [|n IH]; simpl; [done|]. unfold log4cpp_release. by rewrite H. Qed.

Lemma life_step_ok w e :
  linv w -> calm w e -> exists w', life_step re_match receive_log w e = Some w' /\ linv w'.
Proof.
  intros H Hc. destruct e as [cwd| |li m| | | |i|ded filter|a|]; simpl in *.
  - destruct (life_init_ok cwd w H) as (w' & E & H' & _). eauto.
  - destruct (life_fini_ok w H Hc) as (w' & E & H' & _). eauto.
  - by apply append_log_ok.
  - destruct (w_impl w) as [s|] eqn:Es; [|by eauto]. destruct (w_thread w); [by eauto| |by eauto]. eexists. split; [done|].
    apply (linv_frame (with_thread Running (w_orphans w) w)); [by destruct H as (? & ? & ?); split; [by apply winv_thread|]|by apply winv_started; [destruct H|]|done|].
    intros A. by apply (attached_impl (with_thread Running (w_orphans w) w) s).
  - destruct H as (H & Ho & Hm). rewrite Ho. by exists w.
  - destruct (w_impl w) as [s|] eqn:Es; [|by eauto]. destruct (w_thread w); [by eauto..|].
    destruct (log_step_inv re_match receive_log s LMain) as (s' & E & Hi); [by apply (proj1 (proj1 H))|done|].
    eapply dispatch_linv; [done|done|exact E|done|by eapply main_dispatches].
  - destruct (w_impl w) as [s|] eqn:Es; [|by eauto].
    destruct (log_step_inv re_match receive_log s (LDed i)) as (s' & E & Hi); [by apply (proj1 (proj1 H))|done|].
    eapply dispatch_linv; [done|done|exact E|done|by eapply dedicated_dispatches].
  - eexists. split; [done|]. destruct (new_client_inv re_match receive_log ded filter w) as (H' & F & A); [by destruct H|].
    by apply (linv_frame w).
  - destruct (w_objs w !! a) as [o|] eqn:Eo; [|by eauto]. destruct (o_host o) eqn:Eh; [by eauto|].
    destruct (client_delete_inv receive_log a o w) as (w' & E & H' & F & A); [by destruct H|done|done|].
    exists w'. split; [done|]. by apply (linv_frame w).
  - exists w. split; [by apply run_atexit_none|done].
Qed.

(** Every event of the run is calm where it happens. *)
Fixpoint calm_run (w : world) (es : list life_event) : Prop :=
  match es with
  | [] => True
  | e :: es' => calm w e /\ match life_step re_match receive_log w e with Some w' => calm_run w' es' | None => True end
  end.

Lemma life_run_inv w es :
  linv w -> calm_run w es -> exists w', life_run re_match receive_log w es = Some w' /\ linv w'.
Proof.
  revert w. induction es as [|e es IH]; intros w H Hc; simpl in *; [by eauto|]. destruct Hc as [Hc Hr].
  destruct (life_step_ok w e H Hc) as (w' & E & H'). rewrite E in *. simpl. by apply IH.
Qed.

Lemma start_linv cfg : linv (start_world cfg).
Proof.
  split; [split|by split; [|left]].
  - done.
  - constructor; simpl; try done.
Qed.

End Life_safe.

(** ** Runs *)

Definition demo_life : list life_event :=
  [ELog 7 hello; EInit $"/srv"; EUp; ENew true (Some $"net"); ELog 0 hello; EMain; EDed 0; EFini;
   ELog 1 hello; EInit $"/srv"; EUp; EDelete 2; ELog 2 hello; EMain].

Lemma demo_life_calm : calm_run always quiet (start_world None) demo_life.
Proof. vm_compute. repeat split; done. Qed.


(** [exit] with the module initialised: the handler deletes the host of a
    receiver that is still registered, and the dispatcher's next item calls it. *)
Theorem exit_leaves_dangling_host :
  life_run always quiet (start_world None) [EInit $"/srv"; EUp; ELog 0 hello; EExit; EMain] = None
  /\ is_Some (life_run always quiet (start_world None) [EInit $"/srv"; EUp; ELog 0 hello; EExit]).
Proof. split; [by vm_compute|]. eexists. by vm_compute. Qed.

(** [module_log_fini] before the dispatcher thread has run: [stop] does not wait
    for a thread that has not set [_b_started], and the thread then finds its
    object deleted. *)
Theorem early_fini_orphans_thread :
  life_run always quiet (start_world None) [EInit $"/srv"; EFini; EOrphan] = None
  /\ exists w, life_run always quiet (start_world None) [EInit $"/srv"; EFini] = Some w /\ w_orphans w = 1%nat.
Proof. split; [by vm_compute|]. eexists. split; by vm_compute. Qed.

(** Logging after [module_log_fini] builds a new dispatcher that nothing starts or
    deletes, and a client's receiver that outlives [module_log_fini] is alive but
    no longer registered after the next [module_log_init]. *)
Theorem late_log_recreates_instance :
  (exists w s, life_run always quiet (start_world None) [EInit $"/srv"; EUp; EFini; ELog 0 hello] = Some w
     /\ w_initialized w = 0 /\ w_impl w = Some s /\ registered s = [])
  /\ (exists w s o, life_run always quiet (start_world None)
        [EInit $"/srv"; EUp; ENew false None; EFini; EInit $"/srv"; EUp] = Some w
     /\ w_impl w = Some s /\ w_objs w !! 2%nat = Some o /\ receiver_of 2 ∉ registered s).
Proof.
  split; [do 2 eexists|do 3 eexists]; (split; [by vm_compute|]).
  - done.
  - split; [by vm_compute|]. split; [by vm_compute|]. vm_compute. set_solver.
Qed.
