(* ===== verification/LogDelivery.v ===== *)
(** * log/: a message from the caller to log4cpp

    LogLevel decides whether a call logs at all, LogLifecycle holds the objects
    and the dispatcher's queue; here a message is followed through both, from the
    call to the callback of log4cpp.cpp's receiver. *)

From S2P Require Import Prelude CLib StdMap StringUtil Sync LogLevel LogDispatch LogLifecycle.

Open Scope Z_scope.

(** ** A message on its way *)

Section Delivery.
Variable re_match : str -> str -> bool.
Variable receive_log : log_receiver_t -> log_msg -> Z.

(** The shared thread's started flag is up exactly while its thread runs. *)
Definition finv (w : world) : Prop :=
  match w_impl w with
  | Some s => _n_thrd_started (main s) = bool_decide (w_thread w = Running)
  | None => w_thread w <> Running
  end.

Definition same_flag (s s' : CLogImpl) : Prop := _n_thrd_started (main s') = _n_thrd_started (main s).

Lemma thread_unregister_flag t r z t' : thread_unregister t r = (z, t') -> _n_thrd_started t' = _n_thrd_started t.
Proof. unfold thread_unregister. destruct (erase_first _ _). by intros [= _ <-]. Qed.

Lemma register_flag s lr : same_flag s (snd (impl_register s lr)).
Proof.
  unfold impl_register, thread_register, same_flag. destruct (existsb _ _); [done|].
  destruct (_b_dedicated_thread lr); [done|]. by destruct (check_recv _ _).
Qed.

Lemma unregister_flag s r z s' : impl_unregister s r = Some (z, s') -> same_flag s s'.
Proof.
  unfold impl_unregister. destruct (unregister_threads _ _ _) as [[ts h]|]; simpl; [|done].
  destruct (thread_unregister (main s) r) as [z' t] eqn:E. intros [= _ <-]. by apply thread_unregister_flag in E.
Qed.

Lemma thread_append_flag t h li t' h' d :
  thread_append receive_log t h li = Some (t', h', d) -> _n_thrd_started t' = _n_thrd_started t.
Proof.
  unfold thread_append. destruct (_n_thrd_started t) eqn:E.
  - destruct (add_ref h li); simpl; [|done]. by intros [= <- _ _].
  - destruct (h !! li) as [[? ?]|]; simpl; [|done]. by intros [= <- _ _].
Qed.

Lemma append_flag s li m s' : impl_append re_match receive_log s li m = Some s' -> same_flag s s'.
Proof.
  unfold impl_append. destruct (append_threads _ _ _ _ _) as [[[ts h] d1]|]; simpl; [|done].
  destruct (thread_append _ _ _ _) as [[[t h1] d2]|] eqn:E; simpl; [|done]. destruct (release h1 li); simpl; [|done].
  intros [= <-]. by eapply thread_append_flag.
Qed.

Lemma main_turn_flag s s' : main_turn receive_log s = Some s' -> same_flag s s'.
Proof.
  unfold main_turn, thread_turn. destruct (_logs (main s)) as [|li rest] eqn:E; simpl; [by intros [= <-]|].
  destruct (items s !! li) as [[? ?]|]; simpl; [|done]. destruct (release _ _); simpl; [|done]. by intros [= <-].
Qed.

Lemma dedicated_turn_flag s i s' : dedicated_turn receive_log s i = Some s' -> same_flag s s'.
Proof.
  unfold dedicated_turn. destruct (_thrds s !! i); [|by intros [= <-]].
  destruct (thread_turn _ _ _) as [[[? ?] ?]|]; simpl; [|done]. by intros [= <-].
Qed.

(** The flag survives what keeps the dispatcher's thread. *)
Lemma finv_impl w s s' : finv w -> w_impl w = Some s -> same_flag s s' -> finv (with_impl (Some s') w).
Proof. unfold finv, same_flag. intros Hf Hs E. rewrite Hs in Hf. simpl. congruence. Qed.

Lemma finv_instance w s w1 : finv w -> instance true w = (Some s, w1) -> finv w1 /\ w_impl w1 = Some s.
Proof.
  unfold instance. destruct (w_impl w) as [s0|] eqn:E; intros Hf [= <- <-]; [done|]. split; [|done].
  unfold finv in *. rewrite E in Hf. simpl. by rewrite bool_decide_eq_false_2.
Qed.

Lemma with_dispatch_flag w s r w' :
  finv w -> w_impl w = Some s -> with_dispatch w s r = Some w' -> (forall s', r = Some s' -> same_flag s s') -> finv w'.
Proof.
  intros Hf Hs E Hr. unfold with_dispatch in E. destruct r as [s'|]; simpl in E; [|done].
  destruct (forallb _ _); [|done]. injection E as <-. eapply finv_impl; [done..|by apply Hr].
Qed.

Lemma register_finv r title ded w : finv w -> finv (snd (register_log_receiver r title ded w)).
Proof.
  intros Hf. unfold register_log_receiver. destruct (instance true w) as [[s|] w1] eqn:E; cycle 1.
  { unfold instance in E. destruct (w_impl w); by simplify_eq. }
  destruct (finv_instance w s w1 Hf E) as [Hf1 Hs]. set (lr := mkReceiver _ _ _).
  pose proof (register_flag s lr) as Hr. destruct (impl_register s lr) as [z s']. simpl in *. by eapply finv_impl.
Qed.

Lemma unregister_finv r w z w' : finv w -> unregister_log_receiver r w = Some (z, w') -> finv w'.
Proof.
  intros Hf. unfold unregister_log_receiver. destruct (instance true w) as [[s|] w1] eqn:E; cycle 1.
  { unfold instance in E. destruct (w_impl w); by simplify_eq. }
  destruct (finv_instance w s w1 Hf E) as [Hf1 Hs]. destruct (impl_unregister s r) as [[z' s']|] eqn:Eu; simpl; [|done].
  intros [= <- <-]. eapply finv_impl; [done..|]. by eapply unregister_flag.
Qed.

Lemma new_receiver_finv host ded filter w : finv w -> finv (snd (new_receiver host ded filter w)).
Proof. intros Hf. unfold new_receiver. simpl. by apply register_finv. Qed.

Lemma delete_receiver_finv a w w' : finv w -> delete_receiver a w = Some w' -> finv w'.
Proof.
  intros Hf. unfold delete_receiver. destruct (w_objs w !! a); simpl; [|done].
  destruct (unregister_log_receiver _ w) as [[z w1]|] eqn:E; simpl; [|done]. intros [= <-].
  by apply unregister_finv in E.
Qed.

Lemma attach_finv h w z w' : finv w -> attach_to_log h w = Some (z, w') -> finv w'.
Proof.
  intros Hf. unfold attach_to_log. destruct (w_hosts w !! h) as [[a|]|]; cbn [mbind option_bind]; [by intros [= <- <-]| |done].
  pose proof (new_receiver_finv (Some h) false (Some $"*") w Hf) as Hn. destruct (new_receiver _ _ _ w) as [a w1].
  by intros [= <- <-].
Qed.

Lemma detach_finv h w z w' : finv w -> detach_from_log h w = Some (z, w') -> finv w'.
Proof.
  intros Hf. unfold detach_from_log. destruct (w_hosts w !! h) as [[a|]|]; cbn [mbind option_bind]; [|by intros [= <- <-]|done].
  destruct (delete_receiver a w) as [w1|] eqn:E; cbn [mbind option_bind]; [|done]. intros [= <- <-].
  by apply delete_receiver_finv in E.
Qed.

Lemma finv_ext w w' : w_impl w' = w_impl w -> w_thread w' = w_thread w -> finv w -> finv w'.
Proof. unfold finv. by intros -> ->. Qed.

Lemma log_init_finv w : finv w -> finv (snd (log_init w)).
Proof.
  intros Hf. unfold log_init. destruct (instance true w) as [[s|] w1] eqn:E; cycle 1.
  { unfold instance in E. destruct (w_impl w); by simplify_eq. }
  destruct (finv_instance w s w1 Hf E) as [Hf1 Hs]. unfold impl_start. by destruct (w_thread w1).
Qed.

Lemma release_finv w w' : finv w -> log4cpp_release w = Some w' -> finv w'.
Proof.
  intros Hf. unfold log4cpp_release. destruct (w_inst w) as [h|]; [|by intros [= <-]].
  destruct (w_hosts w !! h); simpl; [|done]. by intros [= <-].
Qed.

Lemma log_term_finv w z w' : finv w -> log_term w = Some (z, w') -> finv w'.
Proof.
  intros Hf. unfold log_term, is_log_valid, instance. destruct (w_impl w) as [s|] eqn:E; simpl; [|by intros [= <- <-]].
  destruct (impl_stop s) as [[n s1]|]; simpl; [|done]. unfold impl_release. simpl.
  destruct (impl_stop s1) as [[n2 s2]|]; simpl; [|done]. by intros [= <- <-].
Qed.

Lemma reg_finv w z w' : finv w -> reg_log4cpp w = Some (z, w') -> finv w'.
Proof.
  intros Hf. unfold reg_log4cpp, log4cpp_instance. destruct (w_inst w); by apply attach_finv.
Qed.

Lemma unreg_finv w z w' : finv w -> unreg_log4cpp w = Some (z, w') -> finv w'.
Proof.
  intros Hf. unfold unreg_log4cpp, log4cpp_instance. destruct (w_inst w); [by apply detach_finv|by intros [= <- <-]].
Qed.

Lemma life_init_finv cwd w w' : finv w -> life_init cwd w = Some w' -> finv w'.
Proof.
  intros Hf. unfold life_init. destruct (_ =? 1); [by intros [= <-]|].
  set (w1 := init_log4cpp cwd _). assert (H1 : finv w1).
  { subst w1. unfold init_log4cpp. simpl. by destruct (w_cfg w). }
  pose proof (log_init_finv w1 H1) as H2. destruct (log_init w1) as [z w2]. simpl in H2.
  destruct (reg_log4cpp w2) as [[z3 w3]|] eqn:E; cbn [mbind option_bind]; [|done]. intros [= <-]. by eapply reg_finv.
Qed.

Lemma life_fini_finv w w' : finv w -> life_fini w = Some w' -> finv w'.
Proof.
  intros Hf. unfold life_fini. destruct (_ =? 0); [by intros [= <-]|].
  destruct (unreg_log4cpp w) as [[z w1]|] eqn:E1; cbn [mbind option_bind]; [|done].
  destruct (log_term w1) as [[z2 w2]|] eqn:E2; cbn [mbind option_bind]; [|done].
  destruct (term_log4cpp w2) as [w3|] eqn:E3; cbn [mbind option_bind]; [|done]. intros [= <-].
  apply (finv_ext w3); [done..|]. eapply release_finv, E3. eapply log_term_finv, E2. by eapply unreg_finv.
Qed.

Lemma run_atexit_finv n w w' : finv w -> run_atexit n w = Some w' -> finv w'.
Proof.
  revert w. induction n as [|n IH]; intros w Hf; simpl; [by intros [= <-]|].
  destruct (log4cpp_release w) as [w1|] eqn:E; simpl; [|done]. apply IH. by eapply release_finv.
Qed.

Lemma life_step_finv w e w' : finv w -> life_step re_match receive_log w e = Some w' -> finv w'.
Proof.
  intros Hf. destruct e as [cwd| |li m| | | |i|ded filter|a|]; cbn [life_step].
  - by apply life_init_finv.
  - by apply life_fini_finv.
  - unfold append_log. destruct (instance true w) as [[s|] w1] eqn:E; cycle 1.
    { unfold instance in E. destruct (w_impl w); by simplify_eq. }
    destruct (finv_instance w s w1 Hf E) as [Hf1 Hs]. intros Ed. eapply with_dispatch_flag; [done|done|exact Ed|].
    intros s'. by apply append_flag.
  - destruct (w_impl w) as [s|] eqn:Es; [|by intros [= <-]]. destruct (w_thread w); by intros [= <-].
  - destruct (w_orphans w); [by intros [= <-]|done].
  - destruct (w_impl w) as [s|] eqn:Es; [|by intros [= <-]]. destruct (w_thread w); [by intros [= <-]..|].
    intros Ed. eapply with_dispatch_flag; [done|done|exact Ed|]. intros s'. by apply main_turn_flag.
  - destruct (w_impl w) as [s|] eqn:Es; [|by intros [= <-]].
    intros Ed. eapply with_dispatch_flag; [done|done|exact Ed|]. intros s'. by apply dedicated_turn_flag.
  - intros [= <-]. by apply new_receiver_finv.
  - destruct (w_objs w !! a) as [o|]; [|by intros [= <-]]. destruct (o_host o); [by intros [= <-]|]. by apply delete_receiver_finv.
  - by apply run_atexit_finv.
Qed.

Lemma life_run_finv w es w' : finv w -> life_run re_match receive_log w es = Some w' -> finv w'.
Proof.
  revert w. induction es as [|e es IH]; intros w Hf; simpl; [by intros [= <-]|].
  destruct (life_step re_match receive_log w e) as [w1|] eqn:E; simpl; [|done]. apply IH. by eapply life_step_finv.
Qed.

(** Receivers that let the others see a message too, as log4cpp.cpp's does. *)
Hypothesis polite : forall r m, receive_log r m = 0.

Lemma dispatch_all rs li m : do_dispatch receive_log rs li m = map (fun lr => (_recv lr, li)) rs.
Proof. induction rs as [|lr rs IH]; simpl; [done|]. by rewrite polite, IH. Qed.

Lemma append_queues s li m s' :
  _n_thrd_started (main s) = true -> impl_append re_match receive_log s li m = Some s' ->
  _logs (main s') = _logs (main s) ++ [li].
Proof.
  intros Hst. unfold impl_append. destruct (append_threads _ _ _ _ _) as [[[ts h] d1]|]; simpl; [|done].
  unfold thread_append. rewrite Hst. destruct (add_ref h li) as [h1|]; simpl; [|done].
  destruct (release h1 li); simpl; [|done]. by intros [= <-].
Qed.

Lemma turn_takes_front s li rest s' :
  _logs (main s) = li :: rest -> main_turn receive_log s = Some s' ->
  _logs (main s') = rest /\ forall r, r ∈ recvs (main s) -> (r, li) ∈ delivered s'.
Proof.
  intros El. unfold main_turn, thread_turn. rewrite El. destruct (items s !! li) as [[n m]|]; simpl; [|done].
  destruct (release _ _); simpl; [|done]. intros [= <-]. simpl. split; [done|]. intros r Hr. rewrite dispatch_all.
  apply elem_of_app. right. unfold recvs in Hr. apply list_elem_of_fmap in Hr as (lr & -> & Hlr).
  apply list_elem_of_fmap. by exists lr.
Qed.

(** [EMain] with a running thread is a turn of the dispatcher. *)
Lemma main_event w s :
  linv w -> w_impl w = Some s -> w_thread w = Running ->
  exists s', life_step re_match receive_log w EMain = Some (with_impl (Some s') w) /\ linv (with_impl (Some s') w)
    /\ main_turn receive_log s = Some s' /\ recvs (main s') = recvs (main s).
Proof.
  intros H Hs Ht. destruct (life_step_ok re_match receive_log w EMain H Logic.I) as (w1 & E & H1). revert E. cbn [life_step].
  rewrite Hs, Ht. unfold with_dispatch. destruct (main_turn receive_log s) as [s'|] eqn:Em; simpl; [|done].
  destruct (forallb _ _); [|done]. intros [= <-]. exists s'. split; [done|]. split; [done|]. split; [done|].
  by apply main_dispatches in Em as [? _].
Qed.

Lemma queue_turns pre : forall w s li post r,
  linv w -> w_impl w = Some s -> w_thread w = Running -> r ∈ recvs (main s) -> _logs (main s) = pre ++ li :: post ->
  exists s', life_run re_match receive_log w (replicate (S (length pre)) EMain) = Some (with_impl (Some s') w)
    /\ (r, li) ∈ delivered s'.
Proof.
  induction pre as [|x pre IH]; intros w s li post r H Hs Ht Hr El;
    destruct (main_event w s H Hs Ht) as (s1 & E1 & H1 & Em & Er); cbn [length replicate life_run]; rewrite E1; cbn [mbind option_bind].
  - exists s1. split; [done|]. by destruct (turn_takes_front s li post s1 El Em) as [_ Hd]; apply Hd.
  - destruct (turn_takes_front s x (pre ++ li :: post) s1 El Em) as [El1 _].
    destruct (IH (with_impl (Some s1) w) s1 li post r) as (s' & E' & Hd); [done|done|done|by rewrite Er|done|].
    exists s'. split; [exact E'|done].
Qed.

(** A call of the logging functions, as events: nothing below the level. *)
Definition log_call (ls : log_state) (l : LogLevel) (module title text : str) (li : nat) : list life_event :=
  match log_log ls l module title text with
  | Some m => [ELog li m]
  | None => []
  end.

End Delivery.

Definition ready_life : list life_event := [EInit $"/srv"; EUp; ENew false (Some $"net"); ELog 7 hello; ELog 8 hello].
Definition ready_world : world := default (start_world None) (life_run always quiet (start_world None) ready_life).
Definition ready_impl : CLogImpl := default (new_impl false) (w_impl ready_world).

Lemma ready_calm : calm_run always quiet (start_world None) ready_life.
Proof. vm_compute. repeat split; done. Qed.
Lemma ready_runs : life_run always quiet (start_world None) ready_life = Some ready_world.
Proof. by vm_compute. Qed.
Lemma ready_state : w_impl ready_world = Some ready_impl /\ items ready_impl !! 9%nat = None
  /\ length (_logs (main ready_impl)) = 2%nat /\ w_thread ready_world = Running /\ w_initialized ready_world = 1.
Proof. by vm_compute. Qed.

