(* ===== verification/Token.v ===== *)
(** * config/src/detail/{token,tokens,token_type,config_number,config_int,config_int64,
    config_double,config_string,config_null,config_boolean,string_reader,file_reader}.cpp

    Scalar configuration values, tokens and character readers.  A [double] and
    [boost::lexical_cast<double>] are an interface, [DoubleLib]; an origin is the
    line number it carries (the description is the same for a whole stream). *)

From S2P Require Import Prelude CLib.

Open Scope Z_scope.

(** ** Scalar values *)

Class DoubleLib := {
  double : Type;
  double_eq_dec :: EqDecision double;
  lexical_cast_double : str -> option double;
  (* [static_cast<int64_t>(d)], and whether it equals [d] *)
  double_to_int64 : double -> Z;
  double_is_int64 : double -> bool;
  int64_to_double : Z -> double;
  double_to_string : double -> str;
  (* [static_cast<int64_t>(d * n)] for an unsigned [n] *)
  double_scale : double -> Z -> Z;
}.

Inductive ConfigValueType := OBJECT | LIST | NUMBER | BOOLEAN | NONE_TYPE | STRING.
#[export] Instance ConfigValueType_eq_dec : EqDecision ConfigValueType.
Proof. solve_decision. Defined.

Section Scalars.
Context `{DoubleLib}.

Inductive scalar :=
| ConfigString (value : str)
| ConfigInt (value : Z) (original_text : str)
| ConfigInt64 (value : Z) (original_text : str)
| ConfigDouble (value : double) (original_text : str)
| ConfigBoolean (value : bool)
| ConfigNull.

#[export] Instance scalar_eq_dec : EqDecision scalar.
Proof. solve_decision. Defined.

Definition scalar_type (v : scalar) : ConfigValueType :=
  match v with
  | ConfigString _ => STRING
  | ConfigInt _ _ | ConfigInt64 _ _ | ConfigDouble _ _ => NUMBER
  | ConfigBoolean _ => BOOLEAN
  | ConfigNull => NONE_TYPE
  end.

Definition transform_to_string (v : scalar) : str :=
  match v with
  | ConfigString s => s
  | ConfigInt n t | ConfigInt64 n t => if bool_decide (t = []) then dec_string n else t
  | ConfigDouble d t => if bool_decide (t = []) then double_to_string d else t
  | ConfigBoolean b => if b then $"true" else $"false"
  | ConfigNull => $"null"
  end.

(** [ConfigNumber::new_number]. *)
Definition new_number_int64 (number : Z) (text : str) : scalar :=
  if (number <=? int32_max) && (int32_min <=? number) then ConfigInt number text else ConfigInt64 number text.
Definition new_number_double (number : double) (text : str) : scalar :=
  if double_is_int64 number then new_number_int64 (double_to_int64 number) text else ConfigDouble number text.

Definition int64_value (v : scalar) : option Z :=
  match v with
  | ConfigInt n _ | ConfigInt64 n _ => Some n
  | ConfigDouble d _ => Some (double_to_int64 d)
  | _ => None
  end.
Definition double_value (v : scalar) : option double :=
  match v with
  | ConfigInt n _ | ConfigInt64 n _ => Some (int64_to_double n)
  | ConfigDouble d _ => Some d
  | _ => None
  end.

(** [int_value_range_checked]: [None] is [ConfigExceptionWrongType]. *)
Definition int_value_range_checked (v : scalar) : option Z :=
  l ← int64_value v;
  if (l <? int32_min) || (int32_max <? l) then None else Some l.

(** ** Tokens *)

Inductive token :=
| T_START | T_END | T_COMMA | T_EQUALS | T_COLON | T_OPEN_CURLY | T_CLOSE_CURLY
| T_OPEN_SQUARE | T_CLOSE_SQUARE | T_PLUS_EQUALS
| ValueToken (value : scalar) (line : Z)
| LineToken (line : Z)
| UnquotedTextToken (value : str) (line : Z)
| ProblemToken (what message : str) (suggest_quotes : bool) (line : Z)
| CommentToken (text : str) (line : Z)
| SubstitutionToken (optional : bool) (expression : list token) (line : Z).

Definition is_value (t : token) : bool := match t with ValueToken _ _ => true | _ => false end.
Definition is_newline (t : token) : bool := match t with LineToken _ => true | _ => false end.
Definition is_problem (t : token) : bool := match t with ProblemToken _ _ _ _ => true | _ => false end.
Definition is_comment (t : token) : bool := match t with CommentToken _ _ => true | _ => false end.
Definition is_unquoted_text (t : token) : bool := match t with UnquotedTextToken _ _ => true | _ => false end.
Definition is_substitution (t : token) : bool := match t with SubstitutionToken _ _ _ => true | _ => false end.
Definition is_end (t : token) : bool := match t with T_END => true | _ => false end.

(** The getters throw on a token of another class ([None]). *)
Definition get_value (t : token) : option scalar := match t with ValueToken v _ => Some v | _ => None end.
Definition get_unquoted_text (t : token) : option str := match t with UnquotedTextToken s _ => Some s | _ => None end.
Definition get_problem_what (t : token) : option str := match t with ProblemToken w _ _ _ => Some w | _ => None end.
Definition get_problem_message (t : token) : option str := match t with ProblemToken _ m _ _ => Some m | _ => None end.
Definition get_problem_suggest_quotes (t : token) : option bool :=
  match t with ProblemToken _ _ q _ => Some q | _ => None end.
Definition get_comment_text (t : token) : option str := match t with CommentToken s _ => Some s | _ => None end.
Definition get_substitution_path_expression (t : token) : option (list token) :=
  match t with SubstitutionToken _ e _ => Some e | _ => None end.
Definition get_substitution_optional (t : token) : option bool :=
  match t with SubstitutionToken o _ _ => Some o | _ => None end.
Definition is_value_with_type (t : token) (vt : ConfigValueType) : bool :=
  match t with ValueToken v _ => bool_decide (scalar_type v = vt) | _ => false end.

(** [Token::line_number]: -1 for the tokens without an origin. *)
Definition token_line (t : token) : Z :=
  match t with
  | ValueToken _ l | LineToken l | UnquotedTextToken _ l | ProblemToken _ _ _ l
  | CommentToken _ l | SubstitutionToken _ _ l => l
  | _ => -1
  end.

(** [ConfigValueTypeEnum::name]. *)
Definition type_name (vt : ConfigValueType) : str :=
  match vt with
  | OBJECT => $"OBJECT" | LIST => $"LIST" | NUMBER => $"NUMBER" | BOOLEAN => $"BOOLEAN"
  | NONE_TYPE => $"NONE" | STRING => $"STRING"
  end.

(** [variant_string] of what [unwrapped] returns. *)
Definition unwrapped_string (v : scalar) : str :=
  match v with
  | ConfigString s => s
  | ConfigInt n _ | ConfigInt64 n _ => dec_string n
  | ConfigDouble d _ => double_to_string d
  | ConfigBoolean b => if b then $"true" else $"false"
  | ConfigNull => $"null"
  end.

(** [to_string] of every token class. *)
Fixpoint token_to_string (t : token) : str :=
  match t with
  | T_START => $"start of file" | T_END => $"end of file" | T_COMMA => $"','" | T_EQUALS => $"'='"
  | T_COLON => $"':'" | T_OPEN_CURLY => $"'{'" | T_CLOSE_CURLY => $"'}'" | T_OPEN_SQUARE => $"'['"
  | T_CLOSE_SQUARE => $"']'" | T_PLUS_EQUALS => $"'+='"
  | ValueToken v _ => $"'" ++ unwrapped_string v ++ $"' (" ++ type_name (scalar_type v) ++ $")"
  | LineToken l => $"'\n'@" ++ dec_string l
  | UnquotedTextToken s _ => $"'" ++ s ++ $"'"
  | ProblemToken w m _ _ => $"'" ++ w ++ $"' (" ++ m ++ $")"
  | CommentToken s _ => $"'#" ++ s ++ $"' (comment)"
  | SubstitutionToken _ ts _ =>
      $"'${" ++ (fix go (ts : list token) : str :=
                   match ts with [] => [] | t :: ts' => token_to_string t ++ go ts' end) ts ++ $"}'"
  end.
End Scalars.

(** ** Readers *)

Definition READER_EOF : Z := -1.

(** [StringReader::read]: a [char] widened to [int32_t]. *)
Definition string_read (s : str) : Z * str :=
  match s with
  | [] => (READER_EOF, [])
  | c :: s' => (schar c, s')
  end.

(** [FileReader]: a buffer of [BUFFER_SIZE] bytes over a stream; [eof] is the
    stream's end-of-file flag, set by a read that comes up short. *)
Definition BUFFER_SIZE : nat := Z.to_nat 8096.

Lemma BUFFER_SIZE_pos : (0 < BUFFER_SIZE)%nat.
Proof. unfold BUFFER_SIZE. lia. Qed.

#[global] Opaque BUFFER_SIZE.

Record FileReader := mkFileReader { f_rest : str; f_eof : bool; f_buffer : str; f_position : nat }.

Definition open_file (content : str) : FileReader := mkFileReader content false [] BUFFER_SIZE.

(** [fill_buffer]: at end of file it returns [READER_EOF], which is [true]. *)
Definition fill_buffer (f : FileReader) : bool * FileReader :=
  if f_eof f then (true, f)
  else
    let got := take BUFFER_SIZE (f_rest f) in
    (bool_decide (0 < length got)%nat,
     mkFileReader (drop BUFFER_SIZE (f_rest f)) (bool_decide (length got < BUFFER_SIZE)%nat) got 0).

Definition file_read (f : FileReader) : Z * FileReader :=
  let '(ok, f) := if bool_decide (BUFFER_SIZE <= f_position f)%nat then fill_buffer f else (true, f) in
  if negb ok then (READER_EOF, f)
  else
    match f_buffer f !! f_position f with
    | None => (READER_EOF, f)
    | Some c => (schar c, mkFileReader (f_rest f) (f_eof f) (f_buffer f) (S (f_position f)))
    end.

(** ** The file reader is the string reader *)

(** The characters a file reader has still to deliver. *)
Definition file_view (f : FileReader) : str := drop (f_position f) (f_buffer f) ++ f_rest f.

Record file_inv (f : FileReader) : Prop := {
  fi_len : (length (f_buffer f) <= BUFFER_SIZE)%nat;
  fi_eof : f_eof f = true -> f_rest f = [];
  fi_part : (length (f_buffer f) < BUFFER_SIZE)%nat -> (f_position f < BUFFER_SIZE)%nat -> f_rest f = [];
  fi_pos : (f_position f <= BUFFER_SIZE)%nat;
}.

Lemma open_file_inv content : file_inv (open_file content) /\ file_view (open_file content) = content.
Proof. split; [|done]. pose proof BUFFER_SIZE_pos. constructor; simpl; [lia|done|lia|done]. Qed.

Lemma fill_buffer_inv f :
  file_inv f -> (BUFFER_SIZE <= f_position f)%nat ->
  let '(ok, f') := fill_buffer f in
  file_inv f' /\ file_view f' = file_view f
  /\ (ok = false -> file_view f = []) /\ (ok = true -> f_position f' < BUFFER_SIZE \/ file_view f = [])%nat.
Proof.
  intros [L E P Q] Hp. pose proof BUFFER_SIZE_pos. unfold fill_buffer. destruct (f_eof f) eqn:Ef.
  { split; [by constructor; rewrite ?Ef|]. split; [done|]. split; [done|]. intros _. right.
    unfold file_view. rewrite E by done. rewrite app_nil_r, drop_ge by lia. done. }
  assert (Hv : file_view f = f_rest f) by (unfold file_view; by rewrite drop_ge by lia).
  rewrite Hv. split; [|split; [|split]].
  - constructor; simpl.
    + rewrite length_take. lia.
    + rewrite bool_decide_eq_true, length_take. intros. apply drop_ge. lia.
    + rewrite length_take. intros ? _. apply drop_ge. lia.
    + lia.
  - unfold file_view. simpl. rewrite drop_0. apply take_drop.
  - rewrite bool_decide_eq_false, length_take. intros Hl.
    destruct (f_rest f); [done|simpl in Hl; lia].
  - intros _. left. simpl. lia.
Qed.

(** One read delivers the first remaining character, or end of file if there is
    none. *)
Lemma file_read_view f :
  file_inv f ->
  let '(c, f') := file_read f in
  let '(c2, rest) := string_read (file_view f) in
  c = c2 /\ file_view f' = rest /\ file_inv f'.
Proof.
  intros Hi. unfold file_read.
  assert (H : let '(ok, f1) := if bool_decide (BUFFER_SIZE <= f_position f)%nat then fill_buffer f else (true, f) in
      file_inv f1 /\ file_view f1 = file_view f /\ (ok = false -> file_view f = [])
      /\ (ok = true -> f_position f1 < BUFFER_SIZE \/ file_view f = [])%nat).
  { case_bool_decide as Hp; [by apply fill_buffer_inv|].
    split; [done|]. split; [done|]. split; [done|]. left. lia. }
  destruct (if bool_decide (BUFFER_SIZE <= f_position f)%nat then fill_buffer f else (true, f)) as [ok f1].
  destruct H as (Hi1 & Hv & Hf & Hp). destruct ok; simpl.
  - destruct (f_buffer f1 !! f_position f1) as [c|] eqn:El.
    + rewrite <- Hv. unfold file_view at 1. rewrite (drop_S _ _ _ El). simpl. split; [done|]. split; [done|].
      destruct Hi1 as [L E P Q]. apply lookup_lt_Some in El. constructor; simpl; auto; [|lia].
      intros. apply P; lia.
    + assert (file_view f = []) as ->; [|simpl; split; [done|]; split; [|done]].
      * destruct (Hp eq_refl) as [Hlt|]; [|done]. rewrite <- Hv. apply lookup_ge_None in El. unfold file_view.
        rewrite drop_ge by done. simpl. apply (fi_part f1); [done|lia|done].
      * rewrite Hv. destruct (Hp eq_refl) as [Hlt|]; [|done]. rewrite <- Hv. apply lookup_ge_None in El. unfold file_view.
        rewrite drop_ge by done. simpl. apply (fi_part f1); [done|lia|done].
  - rewrite Hf by done. simpl. by rewrite Hv, Hf.
Qed.

Fixpoint reads {S} (read : S -> Z * S) (n : nat) (s : S) : list Z :=
  match n with
  | O => []
  | S n' => let '(c, s') := read s in c :: reads read n' s'
  end.

Lemma reads_view n f : file_inv f -> reads file_read n f = reads string_read n (file_view f).
Proof.
  revert f. induction n as [|n IH]; intros f Hi; [done|]. simpl. pose proof (file_read_view f Hi) as H.
  destruct (file_read f) as [c f']. destruct (string_read (file_view f)) as [c2 rest].
  destruct H as (-> & Hv & Hi'). f_equal. rewrite IH by done. by rewrite Hv.
Qed.

(** The buffered file reader delivers exactly the characters of the file in
    order and then end of file for ever, like a string reader over the content,
    for every file length, also at multiples of the buffer size and in spite of
    [fill_buffer] answering true at the end of the file. *)
Theorem file_reader_equiv content n :
  reads file_read n (open_file content) = reads string_read n content.
Proof. destruct (open_file_inv content) as [Hi Hv]. by rewrite reads_view, Hv. Qed.

(** ** Doubles that are integers, for concrete runs *)

Definition whole_doubles : DoubleLib :=
  {| double := Z; double_eq_dec := Z.eq_dec;
     lexical_cast_double := fun _ => None; double_to_int64 := fun z => z; double_is_int64 := fun _ => true;
     int64_to_double := fun z => z; double_to_string := fun _ => []; double_scale := fun z n => z * n |}.
