(* ===== verification/Units.v ===== *)
(** * config/src/detail/simple_config.cpp, sizes and durations

    [get_units], [parse_duration], the table of memory units and [parse_bytes],
    at the width of the source's integers: products are [uint64_t] and wrap. *)

From S2P Require Import Prelude CLib Token.

Open Scope Z_scope.

Section Units.
Context `{DoubleLib}.

(** [ConfigExceptionBadValue], by the message it carries. *)
Inductive bad_value := NoNumber | BadUnit | BadNumber.

(** The longest suffix of letters. *)
Definition get_units (s : str) : str := reverse (take_while is_alpha (reverse s)).

(** The number before the unit, and the unit. *)
Definition cut_units (input : str) : str * str :=
  let s := trim_copy input in
  let unit_string := get_units s in
  (trim_copy (take (length s - length unit_string) s), unit_string).

(** The number times the unit, "as an integer to avoid possible precision loss;
    otherwise as a double". *)
Definition scale (number_string : str) (units : Z) : res bad_value Z :=
  if forallb is_digit number_string then
    match lexical_cast_int64 number_string with
    | Some n => Ok (wrap_u64 (n * units))
    | None => Err BadNumber
    end
  else
    match lexical_cast_double number_string with
    | Some d => Ok (wrap_u64 (double_scale d units))
    | None => Err BadNumber
    end.

(** ** Durations, in nanoseconds *)

Definition time_unit (unit_string : str) : option Z :=
  let eq s := bool_decide (unit_string = s) in
  if eq [] || eq $"ms" || eq $"milliseconds" then Some 1000000
  else if eq $"us" || eq $"microseconds" then Some 1000
  else if eq $"ns" || eq $"nanoseconds" then Some 1
  else if eq $"d" || eq $"days" then Some 86400000000000
  else if eq $"h" || eq $"hrs" || eq $"hours" then Some 3600000000000
  else if eq $"s" || eq $"secs" || eq $"seconds" then Some 1000000000
  else if eq $"m" || eq $"mins" || eq $"minutes" then Some 60000000000
  else None.

Definition plural (unit_string : str) : str :=
  if bool_decide (2 < length unit_string)%nat && negb (ends_with $"s" unit_string)
  then unit_string ++ $"s" else unit_string.

Definition parse_duration (input : str) : res bad_value Z :=
  let '(number_string, unit_string) := cut_units input in
  if bool_decide (number_string = []) then Err NoNumber
  else match time_unit (plural unit_string) with
       | None => Err BadUnit
       | Some units => scale number_string units
       end.

(** ** Sizes *)

Record MemoryUnit := mkUnit { prefix : str; power_of : Z; power : Z; bytes : Z }.

Fixpoint unit_bytes (power : nat) (power_of bytes : Z) : Z :=
  match power with O => bytes | S i => unit_bytes i power_of (wrap_u64 (bytes * power_of)) end.

Definition new_unit (p : str) (power_of : Z) (power : nat) : MemoryUnit :=
  mkUnit p power_of (Z.of_nat power) (unit_bytes power power_of 1).

Definition null_unit : MemoryUnit := new_unit [] 0 0.

Definition units : list MemoryUnit :=
  [new_unit [] 1024 0;
   new_unit $"kilo" 1000 1; new_unit $"mega" 1000 2; new_unit $"giga" 1000 3; new_unit $"tera" 1000 4;
   new_unit $"peta" 1000 5; new_unit $"exa" 1000 6; new_unit $"zetta" 1000 7; new_unit $"yotta" 1000 8;
   new_unit $"kibi" 1024 1; new_unit $"mebi" 1024 2; new_unit $"gibi" 1024 3; new_unit $"tebi" 1024 4;
   new_unit $"pebi" 1024 5; new_unit $"exbi" 1024 6; new_unit $"zebi" 1024 7; new_unit $"yobi" 1024 8].

(** The keys one unit is entered under, in order; [None] is the "broken
    MemoryUnit enum" exception. *)
Definition unit_keys (u : MemoryUnit) : option (list str) :=
  let names := [prefix u ++ $"byte"; prefix u ++ $"bytes"] in
  match prefix u with
  | [] => Some (names ++ [$"b"; $"_b"; []])
  | c :: _ =>
      let first := [c] in
      let first_upper := [chr (toupper (schar c))] in
      if power_of u =? 1024 then
        Some (names ++ [first; first_upper; first_upper ++ $"i"; first_upper ++ $"i_b"])
      else if power_of u =? 1000 then
        Some (names ++ [(if power u =? 1 then first else first_upper) ++ $"_b"])
      else None
  end.

(** [make_units_map]: later entries overwrite earlier ones. *)
Fixpoint make_units_map (us : list MemoryUnit) (m : gmap str MemoryUnit) : option (gmap str MemoryUnit) :=
  match us with
  | [] => Some m
  | u :: us' =>
      keys ← unit_keys u;
      make_units_map us' (fold_left (fun m k => <[k := u]> m) keys m)
  end.

Definition units_map : gmap str MemoryUnit := from_option id ∅ (make_units_map units ∅).

Definition parse_unit (unit : str) : MemoryUnit := from_option id null_unit (units_map !! unit).

Definition is_null (u : MemoryUnit) : bool := (power u =? 0) && (power_of u =? 0).

Definition parse_bytes (input : str) : res bad_value Z :=
  let '(number_string, unit_string) := cut_units input in
  if bool_decide (number_string = []) then Err NoNumber
  else
    let units := parse_unit unit_string in
    if is_null units then Err BadUnit else scale number_string (bytes units).

(** ** Cutting the unit off *)

Abbreviation spaces := (Forall (fun c => is_space c = true)).
Abbreviation digits := (Forall (fun c => is_digit c = true)).
Abbreviation letters := (Forall (fun c => is_alpha c = true)).

Lemma get_units_letters x u :
  letters u -> (forall c r, x = r ++ [c] -> is_alpha c = false) -> get_units (x ++ u) = u.
Proof.
  intros Hu Hx. unfold get_units. rewrite reverse_app.
  destruct (list_snoc_cases x) as [->|(r & c & ->)].
  - rewrite app_nil_r, take_while_all by (by apply Forall_reverse). by rewrite reverse_involutive.
  - rewrite reverse_app. cbn [reverse rev_append app]. rewrite take_while_app_stop;
      [by rewrite reverse_involutive|by apply Forall_reverse|by eapply Hx].
Qed.

Definition char_classes (c : ascii) : bool :=
  implb (is_alpha c) (negb (is_space c)) && implb (is_digit c) (negb (is_space c) && negb (is_alpha c))
  && implb (is_space c) (negb (is_alpha c)).

Lemma char_classes_ok c : char_classes c = true.
Proof. by_ascii c char_classes. done. Qed.

Lemma alpha_not_space c : is_alpha c = true -> is_space c = false.
Proof. pose proof (char_classes_ok c) as Hc. unfold char_classes in Hc. by destruct (is_alpha c), (is_space c). Qed.
Lemma digit_not_alpha c : is_digit c = true -> is_alpha c = false.
Proof.
  pose proof (char_classes_ok c) as Hc. unfold char_classes in Hc.
  by destruct (is_alpha c), (is_digit c), (is_space c).
Qed.
Lemma space_not_alpha c : is_space c = true -> is_alpha c = false.
Proof. pose proof (char_classes_ok c) as Hc. unfold char_classes in Hc. by destruct (is_alpha c), (is_space c). Qed.

Lemma last_of (p : ascii -> bool) x c r : Forall (fun c => p c = true) x -> x = r ++ [c] -> p c = true.
Proof. intros Hx ->. apply Forall_app in Hx as [_ Hc]. by inversion Hc. Qed.

Lemma trim_digits d : digits d -> trim_copy d = d.
Proof.
  intros Hd. apply trim_copy_id.
  - intros c r ->. inversion Hd; subst. by apply digit_not_space.
  - intros c r E. apply digit_not_space. by apply (last_of is_digit d _ r).
Qed.

(** Number, blanks and unit come apart, whatever blanks surround them. *)
Lemma cut_units_spec a d sp u b :
  spaces a -> digits d -> d <> [] -> spaces sp -> letters u -> spaces b ->
  cut_units (a ++ (d ++ sp ++ u) ++ b) = (d, u).
Proof.
  intros Ha Hd Hd0 Hsp Hu Hb. unfold cut_units. rewrite trim_copy_pad by done.
  assert (Hd1 : forall c r, d = r ++ [c] -> is_alpha c = false).
  { intros c r E. apply digit_not_alpha. by apply (last_of is_digit d _ r). }
  destruct (list_snoc_cases u) as [->|(u' & uc & Eu)].
  - rewrite app_nil_r. pose proof (trim_copy_pad [] d sp ltac:(done) Hsp) as Ht. simpl in Ht.
    rewrite Ht, (trim_digits d Hd). pose proof (get_units_letters d [] ltac:(done) Hd1) as Hg.
    rewrite app_nil_r in Hg. rewrite Hg. simpl. rewrite Nat.sub_0_r, firstn_all. by rewrite (trim_digits d Hd).
  - rewrite (trim_copy_id (d ++ sp ++ u)).
    + rewrite app_assoc, get_units_letters; [|done|].
      * rewrite (length_app (d ++ sp)). replace (_ + length u - length u)%nat with (length (d ++ sp)) by lia.
        rewrite take_app_length. pose proof (trim_copy_pad [] d sp ltac:(done) Hsp) as Ht. simpl in Ht.
        by rewrite Ht, trim_digits.
      * intros c r E. destruct (list_snoc_cases sp) as [->|(sp' & sc & ->)].
        -- rewrite app_nil_r in E. by eapply Hd1.
        -- rewrite app_assoc in E. apply app_inj_tail in E as [_ <-]. apply space_not_alpha.
           by apply (last_of is_space (sp' ++ [sc]) _ sp').
    + intros c r E. destruct d as [|e d]; [done|]. simpl in E. injection E as <- _.
      inversion Hd; subst. by apply digit_not_space.
    + intros c r E. rewrite Eu, !app_assoc in E. apply app_inj_tail in E as [_ <-].
      apply alpha_not_space. by apply (last_of is_alpha u _ u').
Qed.

Lemma digits_forallb d : digits d -> forallb is_digit d = true.
Proof. induction 1 as [|c d Hc _ IH]; simpl; [done|]. by rewrite Hc. Qed.

Lemma lexical_cast_digits d : digits d -> d <> [] -> dec_value d <= int64_max -> lexical_cast_int64 d = Some (dec_value d).
Proof.
  intros Hd Hne Hr. unfold lexical_cast_int64.
  assert (opt_sign d = (false, d)) as ->.
  { destruct d as [|c d]; [done|]. inversion Hd; subst. unfold opt_sign. by rewrite !(digit_not_special c). }
  rewrite bool_decide_false by done.
  rewrite digits_forallb by done.
  simpl. by rewrite (proj2 (Z.leb_le _ _)).
Qed.

Lemma scale_digits n k :
  0 <= n <= int64_max -> scale (dec_string n) k = Ok (wrap_u64 (n * k)) /\ dec_string n <> [] /\ digits (dec_string n).
Proof.
  intros Hn. destruct (dec_string_nonneg n) as (Hd & Hv & Hne); [lia|]. split; [|done]. unfold scale.
  rewrite digits_forallb by done.
  rewrite lexical_cast_digits by (done || lia). by rewrite Hv.
Qed.

(** ** Durations *)


(** ** Sizes *)

Lemma unit_bytes_spec power p b : unit_bytes power p (wrap_u64 b) = wrap_u64 (b * p ^ Z.of_nat power).
Proof.
  revert b. induction power as [|i IH]; intros b; cbn [unit_bytes]; [by rewrite Z.mul_1_r|].
  assert (wrap_u64 (wrap_u64 b * p) = wrap_u64 (b * p)) as ->.
  { unfold wrap_u64. by rewrite Zmult_mod_idemp_l. }
  rewrite IH, Nat2Z.inj_succ, Z.pow_succ_r by lia. f_equal. ring.
Qed.

Lemma new_unit_bytes p po pw : bytes (new_unit p po pw) = wrap_u64 (po ^ Z.of_nat pw).
Proof.
  unfold new_unit; cbn [bytes]. change 1 with (wrap_u64 1). rewrite (unit_bytes_spec pw po 1).
  f_equal. lia.
Qed.

(** Every key of a unit finds that unit: no later entry overwrites it. *)
Definition keys_ok (u : MemoryUnit) : bool :=
  match unit_keys u with
  | Some keys => forallb (fun k => match units_map !! k with
                                   | Some v => bool_decide (prefix v = prefix u) && (bytes v =? bytes u)
                                               && (power v =? power u) && (power_of v =? power_of u)
                                   | None => false
                                   end) keys
  | None => false
  end.

Lemma units_keys_ok : forallb keys_ok units = true.
Proof. vm_compute. reflexivity. Qed.

Lemma parse_unit_key u k keys :
  u ∈ units -> unit_keys u = Some keys -> k ∈ keys -> parse_unit k = u.
Proof.
  intros Hu Hk Hin. pose proof units_keys_ok as Hall. rewrite forallb_forall in Hall.
  specialize (Hall u ltac:(by apply list_elem_of_In)). unfold keys_ok in Hall. rewrite Hk in Hall.
  rewrite forallb_forall in Hall. specialize (Hall k ltac:(by apply list_elem_of_In)).
  unfold parse_unit. destruct (units_map !! k) as [v|]; [|done]. simpl.
  bool_to_prop. destruct u, v; simpl in *; congruence.
Qed.

(** A size written as a whole number and any of a unit's letter-only names is
    the number times the unit in 64-bit unsigned arithmetic.  The unit itself is
    already reduced, so up to exa and exbi it is the power it names, and zebi and
    yobi are zero bytes. *)
Theorem bytes_value a n sp u k keys b :
  spaces a -> 0 <= n <= int64_max -> spaces sp -> spaces b ->
  u ∈ units -> unit_keys u = Some keys -> k ∈ keys -> letters k ->
  parse_bytes (a ++ (dec_string n ++ sp ++ k) ++ b) = Ok (wrap_u64 (n * bytes u))
  /\ bytes u = wrap_u64 (power_of u ^ power u)
  /\ (power u <= 6 -> bytes u = power_of u ^ power u)
  /\ (power_of u = 1024 -> 6 < power u -> bytes u = 0).
Proof.
  intros Ha Hn Hsp Hb Hu Hk Hin Hl. destruct (scale_digits n (bytes u) Hn) as (Hs & Hne & Hd).
  assert (Htab : is_null u = false /\ bytes u = wrap_u64 (power_of u ^ power u)
    /\ (power u <= 6 -> bytes u = power_of u ^ power u) /\ (power_of u = 1024 -> 6 < power u -> bytes u = 0)).
  { unfold units in Hu. repeat (apply elem_of_cons in Hu as [->|Hu]; [by vm_compute; split_and!|]). set_solver. }
  destruct Htab as (Hnull & Htab). split; [|done]. unfold parse_bytes.
  rewrite cut_units_spec by done. rewrite bool_decide_false by done.
  by rewrite (parse_unit_key u k keys), Hnull.
Qed.
End Units.

(** ** Concrete runs *)


(** Half a million days do not fit: the value is silently reduced. *)
Example duration_wraps :
  parse_duration (H := whole_doubles) $"500000 days" = Ok (500000 * 86400000000000 - 2 * 2 ^ 64).
Proof. vm_compute. reflexivity. Qed.

Lemma bytes_value_witness :
  parse_bytes (H := whole_doubles) ([] ++ (dec_string 512 ++ $" " ++ $"Mi") ++ []) = Ok 536870912.
Proof.
  destruct (bytes_value (H := whole_doubles) [] 512 $" " (new_unit $"mebi" 1024 2) $"Mi"
    [$"mebibyte"; $"mebibytes"; $"m"; $"M"; $"Mi"; $"Mi_b"] []) as [E _];
    [| | | | | | | |rewrite E; vm_compute; reflexivity];
    try (apply (bool_decide_unpack _); vm_compute; exact I); try (vm_compute; reflexivity).
  unfold units. do 10 apply list_elem_of_further. apply list_elem_of_here.
Defined.

(** The keys with an underscore cannot be reached, since units are letters only;
    the spellings they stand for are rejected. *)
Example kilobyte_spellings :
  parse_bytes (H := whole_doubles) $"512kB" = Err BadUnit
  /\ parse_bytes (H := whole_doubles) $"512k_b" = Err BadNumber
  /\ parse_bytes (H := whole_doubles) $"512 kilobytes" = Ok 512000
  /\ parse_bytes (H := whole_doubles) $"1 zebibyte" = Ok 0.
Proof. vm_compute. done. Qed.
