(* ===== verification/Tokenizer.v ===== *)
(** * config/src/detail/tokenizer.cpp

    The HOCON/JSON tokenizer, method by method, in the state-and-exception monad
    of the prelude: the reader with its push-back buffer, the line number and the
    white-space saver are the state, and an exception keeps the state reached,
    because [next] turns a tokenizer problem into a token and goes on.  Code
    points are [int32_t]: what [StringReader] delivers, -1 at the end.  Loops and
    the recursion through substitutions carry fuel; [OutOfFuel] is proved
    unreachable for the fuel the stream itself supplies. *)

From S2P Require Import Prelude CLib Token.

Open Scope Z_scope.

Section Tokenizer.
Context `{DoubleLib}.

(** ** State *)

Record scan := mkScan {
  input : str;                       (* what the reader has left *)
  buffer : list Z;                   (* pushed-back code points, front first *)
  line_number : Z;
  allow_comments : bool;
  last_token_was_simple_value : bool; (* the current WhitespaceSaver *)
  whitespace : str }.

Definition with_input (i : str) (s : scan) : scan :=
  mkScan i (buffer s) (line_number s) (allow_comments s) (last_token_was_simple_value s) (whitespace s).
Definition with_buffer (b : list Z) (s : scan) : scan :=
  mkScan (input s) b (line_number s) (allow_comments s) (last_token_was_simple_value s) (whitespace s).
Definition with_line (l : Z) (s : scan) : scan :=
  mkScan (input s) (buffer s) l (allow_comments s) (last_token_was_simple_value s) (whitespace s).
Definition with_saver (simple : bool) (ws : str) (s : scan) : scan :=
  mkScan (input s) (buffer s) (line_number s) (allow_comments s) simple ws.

Inductive tok_exn :=
| Problem (t : token)     (* ConfigExceptionTokenizerProblem *)
| PutBackTwice            (* "bug: put_back() three times" *)
| CommentNotSeen          (* "called pull_comment but // not seen" *)
| OutOfFuel.

Abbreviation Tok A := (SE scan tok_exn A).

(** ** Characters *)

Definition hex_lower : str := $"0123456789abcdef".
Definition hex_digit_char (z : Z) : ascii := nth (Z.to_nat z) hex_lower "0"%char.

Definition as_string (codepoint : Z) : str :=
  if Ascii.eqb (chr codepoint) "010"%char then $"newline"
  else if Ascii.eqb (chr codepoint) "009"%char then $"tab"
  else if codepoint =? -1 then $"end of file"
  else if is_cntrl (chr codepoint) then
    $"control character 0x" ++ [hex_digit_char (codepoint / 16); hex_digit_char (codepoint mod 16)]
  else [chr codepoint].

Definition first_number_chars : str := $"0123456789-".
Definition number_chars : str := $"0123456789e_e+-.".
Definition not_in_unquoted_text : str :=
  $"$" ++ ["034"%char] ++ $"{}[]:=,+#`^?!@*&\".

(** [chars.find(c) != npos] with [c] converted to [char]. *)
Definition in_chars (chars : str) (c : Z) : bool := existsb (Ascii.eqb (chr c)) chars.

Definition code (a : ascii) : Z := schar a.

Definition is_whitespace (c : Z) : bool := isspace c.
Definition is_whitespace_not_newline (c : Z) : bool := negb (c =? 10) && isspace c.

Definition next_char_raw : Tok Z := fun s =>
  match buffer s with
  | [] => let '(c, i) := string_read (input s) in (Ok c, with_input i s)
  | c :: b => (Ok c, with_buffer b s)
  end.

Definition put_back (c : Z) : Tok unit := fun s =>
  if bool_decide (2 < length (buffer s))%nat then (Err PutBackTwice, s)
  else (Ok tt, with_buffer (c :: buffer s) s).

(** More iterations than any loop over the remaining characters can take. *)
Definition loop_fuel (s : scan) : nat := S (S (length (input s) + length (buffer s))).
Definition fuelled {A} (body : nat -> Tok A) : Tok A := fun s => body (loop_fuel s) s.

Definition start_of_comment (c : Z) : Tok bool :=
  if c =? -1 then se_ret false
  else
    let* s := se_get in
    if allow_comments s then
      if c =? 35 then se_ret true
      else if c =? 47 then
        let* maybe_second_slash := next_char_raw in
        put_back maybe_second_slash ;;*
        se_ret (maybe_second_slash =? 47)
      else se_ret false
    else se_ret false.

(** [WhitespaceSaver::add]. *)
Definition saver_add (c : Z) : Tok unit :=
  se_modify (fun s => if last_token_was_simple_value s
                      then with_saver true (whitespace s ++ [chr c]) s else s).

Fixpoint skip_whitespace (fuel : nat) : Tok Z :=
  match fuel with
  | O => se_throw OutOfFuel
  | S fuel' =>
      let* c := next_char_raw in
      if c =? -1 then se_ret (-1)
      else if is_whitespace_not_newline c then saver_add c ;;* skip_whitespace fuel'
      else se_ret c
  end.
Definition next_char_after_whitespace : Tok Z := fuelled skip_whitespace.

(** ** Problems: they carry the line origin of the current line *)

Definition problem {A} (what message : str) (suggest_quotes : bool) : Tok A :=
  let* s := se_get in se_throw (Problem (ProblemToken what message suggest_quotes (line_number s))).
Definition problem_msg {A} (message : str) : Tok A := problem [] message false.

(** ** Tokens of each kind *)

Fixpoint comment_loop (fuel : nat) (text : str) : Tok token :=
  match fuel with
  | O => se_throw OutOfFuel
  | S fuel' =>
      let* c := next_char_raw in
      if (c =? -1) || (c =? 10) then
        put_back c ;;*
        let* s := se_get in se_ret (CommentToken text (line_number s))
      else comment_loop fuel' (text ++ [chr c])
  end.

Definition pull_comment (first_char : Z) : Tok token :=
  (if first_char =? 47 then
     let* discard := next_char_raw in
     if discard =? 47 then se_ret tt else se_throw CommentNotSeen
   else se_ret tt) ;;*
  fuelled (fun fuel => comment_loop fuel []).

(** "we parse true/false/null tokens as such no matter what is after them". *)
Definition keyword (sb : str) : option scalar :=
  if bool_decide (length sb = 4)%nat then
    if bool_decide (sb = $"true") then Some (ConfigBoolean true)
    else if bool_decide (sb = $"null") then Some ConfigNull else None
  else if bool_decide (length sb = 5)%nat then
    if bool_decide (sb = $"false") then Some (ConfigBoolean false) else None
  else None.

Fixpoint unquoted_loop (fuel : nat) (origin : Z) (sb : str) (c : Z) : Tok token :=
  match fuel with
  | O => se_throw OutOfFuel
  | S fuel' =>
      let* ends := (if c =? -1 then se_ret true
                    else if in_chars not_in_unquoted_text c then se_ret true
                    else if is_whitespace c then se_ret true
                    else start_of_comment c) in
      if ends then put_back c ;;* se_ret (UnquotedTextToken sb origin)
      else
        let sb := sb ++ [chr c] in
        match keyword sb with
        | Some v => se_ret (ValueToken v origin)
        | None => let* c := next_char_raw in unquoted_loop fuel' origin sb c
        end
  end.

Definition pull_unquoted_text : Tok token :=
  let* s := se_get in
  fuelled (fun fuel => let* c := next_char_raw in unquoted_loop fuel (line_number s) [] c).

(** The text of a number and whether it has a point or an exponent; the source's
    third test compares with a multi-character constant. *)
Definition multichar_e : Z := 95 * 256 + 101.

Fixpoint number_loop (fuel : nat) (text : str) (dec : bool) (c : Z) : Tok (str * bool) :=
  match fuel with
  | O => se_throw OutOfFuel
  | S fuel' =>
      if negb (c =? -1) && in_chars number_chars c then
        let dec := dec || (c =? 46) || (c =? 101) || (c =? multichar_e) in
        let* c' := next_char_raw in number_loop fuel' (text ++ [chr c]) dec c'
      else put_back c ;;* se_ret (text, dec)
  end.

Definition pull_number (first_char : Z) : Tok token :=
  let* r := fuelled (fun fuel => let* c := next_char_raw in number_loop fuel [chr first_char] false c) in
  let '(text, dec) := r in
  let* s := se_get in
  let bad := problem text ($"_invalid number: '" ++ text ++ $"'") true in
  if (dec : bool) then
    match lexical_cast_double text with
    | Some d => se_ret (ValueToken (new_number_double d text) (line_number s))
    | None => bad
    end
  else
    match lexical_cast_int64 text with
    | Some n => se_ret (ValueToken (new_number_int64 n text) (line_number s))
    | None => bad
    end.

Fixpoint hex_digits (n : nat) (digits : str) : Tok str :=
  match n with
  | O => se_ret digits
  | S n' =>
      let* c := next_char_raw in
      if c =? -1 then problem_msg $"_end of input but expecting 4 hex digits for \u_x_x_x_x escape"
      else hex_digits n' (digits ++ [chr c])
  end.

Definition pull_escape_sequence (s : str) : Tok str :=
  let* escaped := next_char_raw in
  if escaped =? -1 then problem_msg $"_end of input but backslash in string had nothing after it"
  else if escaped =? 34 then se_ret (s ++ ["034"%char])
  else if escaped =? 92 then se_ret (s ++ ["092"%char])
  else if escaped =? 47 then se_ret (s ++ ["/"%char])
  else if escaped =? 98 then se_ret (s ++ ["008"%char])
  else if escaped =? 102 then se_ret (s ++ ["012"%char])
  else if escaped =? 110 then se_ret (s ++ ["010"%char])
  else if escaped =? 114 then se_ret (s ++ ["013"%char])
  else if escaped =? 116 then se_ret (s ++ ["009"%char])
  else if escaped =? 117 then
    let* digits := hex_digits 4 [] in
    se_ret (s ++ [chr (strtol16 digits)])
  else problem (as_string escaped)
         ($"backslash followed by '" ++ as_string escaped
          ++ $"', this is not a valid escape sequence (quoted strings use JSON escaping, so use double-backslash \\ for literal backslash)")
         false.

Fixpoint triple_loop (fuel : nat) (s : str) (consecutive_quotes : nat) : Tok str :=
  match fuel with
  | O => se_throw OutOfFuel
  | S fuel' =>
      let* c := next_char_raw in
      if c =? 34 then triple_loop fuel' (s ++ [chr c]) (S consecutive_quotes)
      else if bool_decide (3 <= consecutive_quotes)%nat then
        put_back c ;;* se_ret (take (length s - 3) s)
      else if c =? -1 then problem_msg $"_end of input but triple-quoted string was still open"
      else triple_loop fuel' (s ++ [chr c]) 0
  end.
Definition append_triple_quoted_string (s : str) : Tok str := fuelled (fun fuel => triple_loop fuel s 0).

Fixpoint quoted_loop (fuel : nat) (s : str) : Tok str :=
  match fuel with
  | O => se_throw OutOfFuel
  | S fuel' =>
      let* c := next_char_raw in
      if c =? -1 then problem_msg $"_end of input but string quote was still open"
      else if c =? 92 then let* s := pull_escape_sequence s in quoted_loop fuel' s
      else if c =? 34 then se_ret s
      else if is_cntrl (chr c) then
        problem (as_string c)
          ($"JSON does not allow unescaped " ++ as_string c ++ $" in quoted strings, use a backslash escape") false
      else quoted_loop fuel' (s ++ [chr c])
  end.

Definition pull_quoted_string : Tok token :=
  let* s := fuelled (fun fuel => quoted_loop fuel []) in
  let* s := (if bool_decide (s = []) then
               let* third := next_char_raw in
               if third =? 34 then append_triple_quoted_string s
               else put_back third ;;* se_ret s
             else se_ret s) in
  let* st := se_get in
  se_ret (ValueToken (ConfigString s) (line_number st)).

Definition pull_plus_equals : Tok token :=
  let* c := next_char_raw in
  if c =? 61 then se_ret T_PLUS_EQUALS
  else problem (as_string c) ($"'+' not followed by =, '" ++ as_string c ++ $"' not allowed after '+'") true.

(** ** The white-space saver *)

Definition is_simple_value (t : token) : bool := is_substitution t || is_unquoted_text t || is_value t.

(** [WhitespaceSaver::check(t, origin, line)]: the white-space token to put
    before [t], if any. *)
Definition saver_check (t : token) (line : Z) : Tok (option token) := fun s =>
  if is_simple_value t then
    if last_token_was_simple_value s then
      if bool_decide (whitespace s = []) then (Ok None, s)
      else (Ok (Some (UnquotedTextToken (whitespace s) line)), with_saver true [] s)
    else (Ok None, with_saver true [] s)
  else (Ok None, with_saver false [] s).

(** Run with a fresh saver; the outer one comes back, also after an exception. *)
Definition with_fresh_saver {A} (m : Tok A) : Tok A := fun s =>
  let '(r, s') := m (with_saver false [] s) in
  (r, with_saver (last_token_was_simple_value s) (whitespace s) s').

Definition append_ws (ws : option token) (l : list token) : list token :=
  match ws with Some w => l ++ [w] | None => l end.

(** ** pull_next_token and pull_substitution *)

Definition simple_token (c : Z) : option token :=
  if c =? 58 then Some T_COLON
  else if c =? 44 then Some T_COMMA
  else if c =? 61 then Some T_EQUALS
  else if c =? 123 then Some T_OPEN_CURLY
  else if c =? 125 then Some T_CLOSE_CURLY
  else if c =? 91 then Some T_OPEN_SQUARE
  else if c =? 93 then Some T_CLOSE_SQUARE
  else None.

(** The part of [pull_next_token] that depends on the first character, with the
    substitution puller as a parameter. *)
Definition token_from (substitution : Tok token) (c : Z) : Tok token :=
  let* comment := start_of_comment c in
  if (comment : bool) then pull_comment c
  else if c =? 34 then pull_quoted_string
  else if c =? 36 then substitution
  else if c =? 43 then pull_plus_equals
  else
    match simple_token c with
    | Some t => se_ret t
    | None =>
        if in_chars first_number_chars c then pull_number c
        else if in_chars not_in_unquoted_text c then
          problem (as_string c) ($"_reserved character '" ++ as_string c ++ $"' is not allowed outside quotes") true
        else put_back c ;;* pull_unquoted_text
    end.

(** [pull_substitution], with the loop that collects the expression as a
    parameter: the initial '$' has already been consumed. *)
Definition pull_substitution (collect : Z -> Tok (list token)) : Tok token :=
  let* s := se_get in
  let origin := line_number s in
  let* c := next_char_raw in
  if negb (c =? 123) then
    problem (as_string c) ($"'$' not followed by {, '" ++ as_string c ++ $"' not allowed after '$'") true
  else
    let* c := next_char_raw in
    let* optional := (if c =? 63 then se_ret true else put_back c ;;* se_ret false) in
    with_fresh_saver
      (let* expression := collect origin in
       se_ret (SubstitutionToken optional expression origin)).

Fixpoint pull_next_token (fuel : nat) : Tok token :=
  match fuel with
  | O => se_throw OutOfFuel
  | S fuel' =>
      let* c := next_char_after_whitespace in
      if c =? -1 then se_ret T_END
      else if c =? 10 then
        let* s := se_get in
        se_put (with_line (line_number s + 1) s) ;;*
        se_ret (LineToken (line_number s))
      else token_from (pull_substitution (fun origin => substitution_loop fuel' origin [])) c
  end
with substitution_loop (fuel : nat) (origin : Z) (expression : list token) : Tok (list token) :=
  match fuel with
  | O => se_throw OutOfFuel
  | S fuel' =>
      let* t := pull_next_token fuel' in
      match t with
      | T_CLOSE_CURLY => se_ret expression
      | T_END => se_throw (Problem (ProblemToken [] $"_substitution ${ was not closed with a }" false origin))
      | _ =>
          let* s := se_get in
          let* ws := saver_check t (line_number s) in
          substitution_loop fuel' origin (append_ws ws expression ++ [t])
      end
  end.

(** ** The stream *)

(** Enough for every token that can start here ([token_fuel_enough]). *)
Definition token_fuel (s : scan) : nat := (length (input s) + length (buffer s) + 3)%nat.

Definition next_token : Tok token := fun s => pull_next_token (token_fuel s) s.

Record TokenStream := mkStream { sc : scan; tokens : list token }.

Definition init_scan (text : str) (comments : bool) : scan := mkScan text [] 1 comments false [].

(** [Tokenizer::tokenize(origin, reader, flavor)]: comments except in JSON. *)
Definition tokenize (text : str) (json : bool) : TokenStream :=
  mkStream (init_scan text (negb json)) [T_START].

(** [queue_next_token]: the tokens it appends, or the exception. *)
Definition queue_next_token : Tok (list token) :=
  let* t := next_token in
  let* s := se_get in
  let* ws := saver_check t (line_number s) in
  se_ret (append_ws ws [] ++ [t]).

Definition has_next (st : TokenStream) : bool := negb (bool_decide (length (tokens st) = 0%nat)).

(** [next]: an exception other than a problem leaves the stream. *)
Definition next (st : TokenStream) : res tok_exn token * TokenStream :=
  match tokens st with
  | [] => (Err OutOfFuel, st)  (* [front()] of an empty queue: excluded by [has_next] *)
  | t :: rest =>
      if bool_decide (length rest = 0%nat) && negb (is_end t) then
        match queue_next_token (sc st) with
        | (Ok ts, s') => (Ok t, mkStream s' ts)
        | (Err (Problem p), s') => (Ok t, mkStream s' [p])
        | (Err e, s') => (Err e, mkStream s' [])
        end
      else (Ok t, mkStream (sc st) rest)
  end.

(** All tokens up to the end. *)
Fixpoint drain (fuel : nat) (st : TokenStream) : res tok_exn (list token) :=
  match fuel with
  | O => Err OutOfFuel
  | S fuel' =>
      if has_next st then
        match next st with
        | (Ok t, st') => ts ← drain fuel' st'; Ok (t :: ts)
        | (Err e, _) => Err e
        end
      else Ok []
  end.
End Tokenizer.

Abbreviation Tok A := (SE scan tok_exn A).
