(* ===== verification/TokenizerTotal.v ===== *)
(** * The tokenizer always delivers a finite stream

    Every method of [TokenStream] is given a bound on the push-back buffer and on
    the characters it may leave unread ([room]); from these follow that the
    "bug" exceptions of tokenizer.cpp are unreachable, that the fuel of the model
    never runs out, and that draining the stream of any text ends with one END. *)

From S2P Require Import Prelude CLib Token Tokenizer.

Open Scope Z_scope.

Section Total.
Context `{DoubleLib}.

(** ** What a method leaves behind *)

Definition real (c : Z) : nat := if c =? -1 then 0%nat else 1%nat.
Fixpoint reals (l : list Z) : nat := match l with [] => 0%nat | c :: l' => (real c + reals l')%nat end.

(** The characters still to come; a pushed-back end of file does not count. *)
Definition chars (s : scan) : nat := (length (input s) + reals (buffer s))%nat.

Definition room (k n : nat) (s : scan) : Prop := (length (buffer s) <= k)%nat /\ (chars s <= n)%nat.

(** [m] at [s] returns within [Q], or raises a tokenizer problem and leaves room
    for [n]; it raises nothing else. *)
Definition outcome {A} (n : nat) (m : Tok A) (s : scan) (Q : A -> scan -> Prop) : Prop :=
  match m s with
  | (Ok a, s') => Q a s'
  | (Err (Problem _), s') => room 2 n s'
  | (Err _, _) => False
  end.

Lemma room_le k n k' n' s : room k n s -> (k <= k')%nat -> (n <= n')%nat -> room k' n' s.
Proof. unfold room. lia. Qed.

Lemma reals_length l : (reals l <= length l)%nat.
Proof. induction l as [|c l IH]; simpl; [done|]. unfold real. destruct (c =? -1); lia. Qed.

Lemma room_full s : room (length (buffer s)) (length (input s) + length (buffer s)) s.
Proof. split; [done|]. unfold chars. pose proof (reals_length (buffer s)). lia. Qed.

Lemma room_saver k n b w s : room k n (with_saver b w s) <-> room k n s.
Proof. done. Qed.
Lemma room_line k n l s : room k n (with_line l s) <-> room k n s.
Proof. done. Qed.

(** ** Rules of the monad *)

Lemma outcome_ret {A} n (a : A) s Q : Q a s -> outcome n (se_ret a) s Q.
Proof. done. Qed.

Lemma outcome_bind {A B} n (m : Tok A) (k : A -> Tok B) s Q :
  outcome n m s (fun a s' => outcome n (k a) s' Q) -> outcome n (se_bind m k) s Q.
Proof. unfold outcome, se_bind. destruct (m s) as [[a|[| | |]] s']; done. Qed.

Lemma outcome_get n s Q : Q s s -> outcome n se_get s Q.
Proof. done. Qed.

Lemma outcome_weaken {A} n n' (m : Tok A) s (P Q : A -> scan -> Prop) :
  outcome n m s P -> (n <= n')%nat -> (forall a s', P a s' -> Q a s') -> outcome n' m s Q.
Proof.
  unfold outcome. destruct (m s) as [[a|[| | |]] s']; try done; intros HP Hn HQ; [by apply HQ|].
  eapply room_le; eauto.
Qed.

Lemma outcome_problem {A} n k what msg q s (Q : A -> scan -> Prop) :
  room k n s -> (k <= 2)%nat -> outcome n (problem what msg q) s Q.
Proof. intros Hr Hk. red. simpl. eapply room_le; eauto. Qed.

Lemma outcome_fuelled {A} n (body : nat -> Tok A) s Q :
  (forall fuel, (chars s + 1 < fuel)%nat -> outcome n (body fuel) s Q) -> outcome n (fuelled body) s Q.
Proof.
  intros Hb. unfold fuelled. red. apply Hb. unfold loop_fuel, chars.
  pose proof (reals_length (buffer s)). lia.
Qed.

(** ** The reader *)

Definition after_read (k n : nat) (c : Z) (s' : scan) : Prop :=
  if c =? -1 then room (pred k) n s' else (0 < n)%nat /\ room (pred k) (pred n) s'.

Lemma next_char_room n' k n s :
  room k n s -> outcome n' next_char_raw s (fun c s' => after_read k n c s').
Proof.
  unfold outcome, next_char_raw, after_read, room, chars. intros [Hk Hn].
  destruct (buffer s) as [|c b] eqn:Eb; simpl in *.
  - destruct (input s) as [|a i] eqn:Ei; simpl in *.
    + unfold with_input; simpl. rewrite Eb; simpl; lia.
    + destruct (schar a =? -1); simpl; rewrite Eb; simpl; lia.
  - unfold real in Hn. destruct (c =? -1) eqn:E; simpl; lia.
Qed.

Lemma put_back_room n' k n c s (Hk : (k <= 2)%nat) :
  room k n s -> outcome n' (put_back c) s (fun _ s' => room (S k) (real c + n) s').
Proof.
  intros [Hb Hn]. unfold outcome, put_back. rewrite bool_decide_false by lia.
  unfold room, chars in *; simpl. lia.
Qed.

(** A character that was read and is pushed back. *)
Lemma put_back_read n' k n c s (Hk : (k <= 3)%nat) (Hk0 : (0 < k)%nat) :
  after_read k n c s -> outcome n' (put_back c) s (fun _ s' => room k n s').
Proof.
  unfold after_read. intros Hr. destruct (c =? -1) eqn:E.
  - eapply outcome_weaken; [apply (put_back_room n' (pred k)); [lia|exact Hr]|done|].
    intros ? s' Hs'; cbv beta in Hs'. eapply room_le; [exact Hs'|lia|]. unfold real. by rewrite E.
  - destruct Hr as [Hn Hr]. eapply outcome_weaken; [apply (put_back_room n' (pred k)); [lia|exact Hr]|done|].
    intros ? s' Hs'; cbv beta in Hs'. eapply room_le; [exact Hs'|lia|]. unfold real. rewrite E. lia.
Qed.

Lemma after_read_room k n c s : after_read k n c s -> room (pred k) n s.
Proof. unfold after_read. destruct (c =? -1); [done|]. intros [? Hr]. eapply room_le; eauto; lia. Qed.

Lemma after_read_real k n c s : after_read k n c s -> c <> -1 -> (0 < n)%nat /\ room (pred k) (pred n) s.
Proof. unfold after_read. intros Hr Hc. apply Z.eqb_neq in Hc. by rewrite Hc in Hr. Qed.

(** The character [start_of_comment] peeks at, and the state it leaves. *)
Lemma peek_room k n s (Hk : (k <= 2)%nat) :
  room k n s ->
  exists x l s', next_char_raw s = (Ok x, with_buffer l s') /\ put_back x (with_buffer l s') = (Ok tt, s')
    /\ buffer s' = x :: l /\ allow_comments s' = allow_comments s
    /\ next_char_raw s' = (Ok x, with_buffer l s') /\ room (max k 1) n s'.
Proof.
  intros [Hb Hn]. unfold next_char_raw. destruct (buffer s) as [|x b] eqn:Eb.
  - destruct s as [i b ln ac lt ws]; simpl in *; subst b. destruct i as [|a i]; simpl.
    + exists (-1), [], (mkScan [] [-1] ln ac lt ws). unfold room, chars in *; simpl in *. split_and!; done || lia.
    + exists (schar a), [], (mkScan i [schar a] ln ac lt ws).
      unfold room, chars in *; simpl in *; unfold real. split_and!; try done; destruct (schar a =? -1); lia.
  - exists x, b, s. unfold put_back; simpl. rewrite bool_decide_false by (simpl in Hb; lia).
    destruct s; simpl in *; subst. unfold room, chars in *; simpl in *. split_and!; done || lia.
Qed.

(** Looking at the next character changes nothing a second look would see. *)
Lemma start_of_comment_room n' k n c s (Hk : (k <= 2)%nat) :
  room k n s ->
  outcome n' (start_of_comment c) s (fun b s' =>
    room (max k 1) n s' /\ start_of_comment c s' = (Ok b, s')
    /\ (b = true -> c = 47 -> exists l, buffer s' = 47 :: l)).
Proof.
  intros Hr. unfold start_of_comment.
  assert (Hmax : room (max k 1) n s) by (eapply room_le; eauto; lia).
  destruct (c =? -1) eqn:E1; [by apply outcome_ret|].
  destruct (peek_room k n s Hk Hr) as (x & l & s' & H1 & H2 & H3 & Ha & H4 & H5).
  unfold outcome, se_bind, se_get, se_ret. destruct (allow_comments s) eqn:Ea; [|by rewrite Ea].
  destruct (c =? 35) eqn:E2; [rewrite Ea; bool_to_prop; split_and!; done || lia|].
  destruct (c =? 47) eqn:E3; [|by rewrite Ea].
  rewrite H1, H2, Ha, H4, H2. split; [done|]. split; [done|].
  intros Hx _. apply Z.eqb_eq in Hx. subst. eauto.
Qed.

Lemma after_read_mono k n k' n' c s :
  after_read k n c s -> (k <= k')%nat -> (n <= n')%nat -> after_read k' n' c s.
Proof.
  unfold after_read. destruct (c =? -1); [intros; eapply room_le; eauto; lia|].
  intros [? ?] ? ?. split; [lia|]. eapply room_le; eauto; lia.
Qed.

Lemma start_of_comment_held n' n c s :
  after_read 2 n c s ->
  outcome n' (start_of_comment c) s (fun b s' =>
    after_read 2 n c s' /\ start_of_comment c s' = (Ok b, s')
    /\ (b = true -> c = 47 -> exists l, buffer s' = 47 :: l)).
Proof.
  unfold after_read. intros Hr. destruct (c =? -1).
  - eapply outcome_weaken; [apply (start_of_comment_room n' 1 n); [lia|done]|done|done].
  - destruct Hr as [Hn Hr].
    eapply outcome_weaken; [apply (start_of_comment_room n' 1 (pred n)); [lia|done]|done|].
    intros b s' (? & ? & ?). done.
Qed.

End Total.

(** Run one read of the goal's loop body: [c] is the character, [H] what is left. *)
Ltac read_as c s' H :=
  apply outcome_bind;
  eapply outcome_weaken; [apply next_char_room; eassumption|reflexivity|intros c s' H; cbv beta in H].

Section Loops.
Context `{DoubleLib}.
Implicit Types (s : scan) (n k : nat).

(** A call that leaves at most [n] characters and never yields END. *)
Definition token_room (n : nat) (t : token) (s' : scan) : Prop := room 2 n s' /\ t <> T_END.

Lemma token_room_mono n n' t s : token_room n t s -> (n <= n')%nat -> token_room n' t s.
Proof. intros [Hr Ht] Hn. split; [|done]. eapply room_le; eauto. Qed.

Lemma skip_whitespace_room n' n fuel s :
  room 2 n s -> (n < fuel)%nat ->
  outcome n' (skip_whitespace fuel) s (fun c s' =>
    after_read 2 n c s' /\ (c <> -1 -> c <> 10 -> is_whitespace c = false)).
Proof.
  revert n s. induction fuel as [|fuel IH]; intros n s Hr Hf; [lia|]. simpl.
  read_as c s' Hc. destruct (c =? -1) eqn:E1.
  { apply Z.eqb_eq in E1. subst. apply outcome_ret. split; [done|congruence]. }
  apply Z.eqb_neq in E1. destruct (is_whitespace_not_newline c) eqn:E2.
  - destruct (after_read_real _ _ _ _ Hc E1) as [Hn Hs']. apply outcome_bind. red. simpl.
    eapply (outcome_weaken n'); [apply (IH (pred n)); [|lia]|lia|].
    + destruct (last_token_was_simple_value s'); rewrite ?room_saver; eapply room_le; eauto; lia.
    + intros d s2 [Hd Hw]. split; [|done]. eapply after_read_mono; eauto; lia.
  - apply outcome_ret. split; [done|]. intros _ Hnl. unfold is_whitespace_not_newline in E2.
    apply Z.eqb_neq in Hnl. rewrite Hnl in E2. done.
Qed.

Lemma comment_loop_room n fuel text s :
  room 2 n s -> (n < fuel)%nat -> outcome n (comment_loop fuel text) s (token_room n).
Proof.
  revert n text s. induction fuel as [|fuel IH]; intros n text s Hr Hf; [lia|]. simpl.
  read_as c s' Hc. destruct ((c =? -1) || (c =? 10))%bool eqn:E.
  - apply outcome_bind. eapply outcome_weaken; [apply (put_back_read n 2 n); [lia|lia|done]|done|].
    intros ? s2 Hs2. apply outcome_bind, outcome_get, outcome_ret. by split.
  - bool_to_prop. destruct (after_read_real _ _ _ _ Hc ltac:(done)) as [Hn Hs'].
    eapply (outcome_weaken (pred n)); [apply IH; [eapply room_le; eauto; lia|lia]|lia|].
    intros; eapply token_room_mono; eauto; lia.
Qed.

(** A loop gets fuel for all the characters that are left. *)
Lemma outcome_loop {A} k n (body : nat -> Tok A) s (P : nat -> A -> scan -> Prop) Q :
  (forall m fuel, room k m s -> (m + 1 < fuel)%nat -> outcome m (body fuel) s (P m)) ->
  room k n s -> (forall m a s', (m <= n)%nat -> P m a s' -> Q a s') -> outcome n (fuelled body) s Q.
Proof.
  intros Hb [Hk Hn] HQ. apply outcome_fuelled. intros fuel Hf.
  eapply (outcome_weaken (chars s)); [apply Hb; [by split|lia]|done|]. eauto.
Qed.

Lemma pull_comment_room n c s :
  room 1 n s -> (c = 47 -> exists l, buffer s = 47 :: l) -> outcome n (pull_comment c) s (token_room n).
Proof.
  intros Hr Hl. unfold pull_comment. apply outcome_bind.
  assert (Hgo : forall s', room 2 n s' -> outcome n (fuelled (fun fuel => comment_loop fuel [])) s' (token_room n)).
  { intros s' Hs'. eapply outcome_loop; [|exact Hs'|].
    - intros m fuel Hm Hf. apply comment_loop_room; [done|lia].
    - intros; eapply token_room_mono; eauto. }
  destruct (c =? 47) eqn:E; [|apply outcome_ret, Hgo; eapply room_le; eauto].
  apply Z.eqb_eq in E. destruct (Hl E) as [l El].
  pose proof (next_char_room n _ _ _ Hr) as Hd. apply outcome_bind.
  unfold outcome in Hd |- *. unfold next_char_raw in *. rewrite El in *. cbn.
  apply Hgo. eapply room_le; [apply (after_read_room _ _ _ _ Hd)|lia|lia].
Qed.

(** ** Unquoted text *)

Definition ends_unquoted (c : Z) : Tok bool :=
  if c =? -1 then se_ret true
  else if in_chars not_in_unquoted_text c then se_ret true
  else if is_whitespace c then se_ret true
  else start_of_comment c.

Lemma unquoted_step fuel origin sb c :
  unquoted_loop (S fuel) origin sb c =
  (let* ends := ends_unquoted c in
   if ends then put_back c ;;* se_ret (UnquotedTextToken sb origin)
   else match keyword (sb ++ [chr c]) with
        | Some v => se_ret (ValueToken v origin)
        | None => let* c' := next_char_raw in unquoted_loop fuel origin (sb ++ [chr c]) c'
        end).
Proof. done. Qed.

Lemma unquoted_loop_room n fuel origin sb c s :
  after_read 2 n c s -> (n < fuel)%nat ->
  outcome n (unquoted_loop fuel origin sb c) s (token_room n).
Proof.
  revert n sb c s. induction fuel as [|fuel IH]; intros n sb c s Hc Hf; [lia|].
  rewrite unquoted_step. apply outcome_bind.
  assert (Hends : outcome n (ends_unquoted c) s (fun b s' => after_read 2 n c s' /\ (b = false -> c <> -1))).
  { unfold ends_unquoted. destruct (c =? -1) eqn:E1; [by apply outcome_ret|]. apply Z.eqb_neq in E1.
    destruct (in_chars _ c); [by apply outcome_ret|]. destruct (is_whitespace c); [by apply outcome_ret|].
    eapply outcome_weaken; [by apply start_of_comment_held|done|]. naive_solver. }
  eapply outcome_weaken; [exact Hends|done|]. intros [] s' [Hc' Hreal].
  - apply outcome_bind. eapply outcome_weaken; [apply (put_back_read n 2 n); [lia|lia|done]|done|].
    intros ? s2 Hs2. by apply outcome_ret.
  - destruct (after_read_real _ _ _ _ Hc' (Hreal eq_refl)) as [Hn Hs'].
    destruct (keyword _); [apply outcome_ret; split; [eapply room_le; eauto; lia|done]|].
    read_as d s2 Hd. eapply (outcome_weaken (pred n)); [apply IH; [|lia]|lia|].
    + eapply after_read_mono; [exact Hd|lia|lia].
    + intros; eapply token_room_mono; eauto; lia.
Qed.

(** The character that starts an unquoted text is consumed. *)
Lemma pull_unquoted_progress n c s :
  after_read 2 n c s -> c <> -1 -> in_chars not_in_unquoted_text c = false -> is_whitespace c = false ->
  start_of_comment c s = (Ok false, s) ->
  outcome (pred n) (put_back c ;;* pull_unquoted_text) s (token_room (pred n)).
Proof.
  intros Hc Hreal Hin Hws Hcom. destruct (after_read_real _ _ _ _ Hc Hreal) as [Hn Hr].
  apply outcome_bind. unfold put_back. red.
  rewrite bool_decide_false by (destruct Hr; lia).
  unfold pull_unquoted_text. apply outcome_bind, outcome_get.
  apply outcome_fuelled. intros fuel Hf. destruct fuel as [|fuel]; [lia|].
  apply outcome_bind. unfold next_char_raw. red. simpl buffer. cbv iota.
  replace (with_buffer (buffer s) (with_buffer (c :: buffer s) s)) with s by (by destruct s).
  rewrite unquoted_step. apply outcome_bind. unfold ends_unquoted.
  apply Z.eqb_neq in Hreal as Hreal'. rewrite Hreal', Hin, Hws. red. rewrite Hcom.
  destruct (keyword _); [apply outcome_ret; split; [eapply room_le; eauto|done]|].
  assert (Hrs : room 1 (chars s) s) by (destruct Hr; by split).
  read_as d s2 Hd. eapply (outcome_weaken (chars s)); [apply unquoted_loop_room| |].
  - eapply after_read_mono; [exact Hd|lia|lia].
  - unfold chars in Hf |- *. simpl in Hf. unfold real in Hf. rewrite Hreal' in Hf. lia.
  - by destruct Hr.
  - intros; eapply token_room_mono; eauto. by destruct Hr.
Qed.

(** ** Numbers and strings *)

Lemma number_loop_room n fuel text dec c s :
  after_read 2 n c s -> (n < fuel)%nat ->
  outcome n (number_loop fuel text dec c) s (fun _ s' => room 2 n s').
Proof.
  revert n text dec c s. induction fuel as [|fuel IH]; intros n text dec c s Hc Hf; [lia|]. cbn [number_loop].
  destruct (negb (c =? -1) && in_chars number_chars c)%bool eqn:E.
  - bool_to_prop. destruct (after_read_real _ _ _ _ Hc ltac:(done)) as [Hn Hs'].
    read_as d s2 Hd. eapply (outcome_weaken (pred n)); [apply IH; [|lia]|lia|].
    + eapply after_read_mono; [exact Hd|lia|lia].
    + intros ? s3 H3; cbv beta in H3. eapply room_le; eauto; lia.
  - apply outcome_bind. eapply outcome_weaken; [apply (put_back_read n 2 n); [lia|lia|done]|done|].
    intros ? s2 Hs2. by apply outcome_ret.
Qed.

Lemma pull_number_room n c s : room 1 n s -> outcome n (pull_number c) s (token_room n).
Proof.
  intros Hr. unfold pull_number. apply outcome_bind.
  apply (outcome_loop 1 n _ s (fun m _ s' => room 2 m s')); [|done|].
  - intros m fuel Hm Hf. read_as d s2 Hd. apply number_loop_room; [|lia].
    eapply after_read_mono; [exact Hd|lia|lia].
  - intros m [text dec] s' Hm Hs'. apply outcome_bind, outcome_get.
    assert (Hs2 : room 2 n s') by (eapply room_le; eauto).
    destruct dec; case_match; try (by apply outcome_ret); by eapply outcome_problem.
Qed.

Lemma hex_digits_room n i digits s : room 2 n s -> outcome n (hex_digits i digits) s (fun _ s' => room 2 n s').
Proof.
  revert n digits s. induction i as [|i IH]; intros n digits s Hr; [by apply outcome_ret|]. simpl.
  read_as c s' Hc. apply after_read_room in Hc.
  destruct (c =? -1); [by eapply outcome_problem; eauto; lia|].
  apply IH. eapply room_le; eauto.
Qed.

Lemma pull_escape_room n acc s : room 2 n s -> outcome n (pull_escape_sequence acc) s (fun _ s' => room 2 n s').
Proof.
  intros Hr. unfold pull_escape_sequence. read_as c s' Hc. apply after_read_room in Hc. simpl in Hc.
  assert (Hs' : room 2 n s') by (eapply room_le; eauto).
  repeat match goal with
  | |- context [if ?b then _ else _] => destruct b; [first [by apply outcome_ret | by eapply outcome_problem | idtac]|]
  end.
  - apply outcome_bind. eapply outcome_weaken; [by apply hex_digits_room|done|]. intros; by apply outcome_ret.
  - by eapply outcome_problem.
Qed.

Lemma triple_loop_room n fuel acc q s :
  room 2 n s -> (n < fuel)%nat -> outcome n (triple_loop fuel acc q) s (fun _ s' => room 2 n s').
Proof.
  revert n acc q s. induction fuel as [|fuel IH]; intros n acc q s Hr Hf; [lia|]. simpl.
  read_as c s' Hc.
  assert (Hnext : forall acc' q', c <> -1 -> outcome n (triple_loop fuel acc' q') s' (fun _ s2 => room 2 n s2)).
  { intros acc' q' Hreal. destruct (after_read_real _ _ _ _ Hc Hreal) as [Hn Hs'].
    eapply (outcome_weaken (pred n)); [apply IH; [eapply room_le; eauto; lia|lia]|lia|].
    intros ? s9 H9; cbv beta in H9. eapply room_le; eauto; lia. }
  destruct (c =? 34) eqn:E1; [apply Hnext; bool_to_prop; lia|].
  case_bool_decide.
  - apply outcome_bind. eapply outcome_weaken; [apply (put_back_read n 2 n); [lia|lia|done]|done|].
    intros ? s2 Hs2. by apply outcome_ret.
  - destruct (c =? -1) eqn:E2; [|apply Hnext; by bool_to_prop].
    apply after_read_room in Hc. eapply outcome_problem; eauto; lia.
Qed.

Lemma quoted_loop_room n fuel acc s :
  room 2 n s -> (n < fuel)%nat -> outcome n (quoted_loop fuel acc) s (fun _ s' => room 2 n s').
Proof.
  revert n acc s. induction fuel as [|fuel IH]; intros n acc s Hr Hf; [lia|]. simpl.
  read_as c s' Hc. pose proof (after_read_room _ _ _ _ Hc) as Hs'. simpl in Hs'.
  destruct (c =? -1) eqn:E1; [by eapply outcome_problem; eauto; lia|]. apply Z.eqb_neq in E1.
  destruct (after_read_real _ _ _ _ Hc E1) as [Hn Hp].
  assert (Hnext : forall acc' s2, room 2 (pred n) s2 -> outcome n (quoted_loop fuel acc') s2 (fun _ s3 => room 2 n s3)).
  { intros acc' s2 Hs2. eapply (outcome_weaken (pred n)); [apply IH; [done|lia]|lia|].
    intros ? s9 H9; cbv beta in H9. eapply room_le; eauto; lia. }
  assert (Hp2 : room 2 (pred n) s') by (eapply room_le; eauto; simpl; lia).
  destruct (c =? 92).
  { apply outcome_bind. eapply (outcome_weaken (pred n)); [by apply pull_escape_room|lia|]. intros; by apply Hnext. }
  destruct (c =? 34); [apply outcome_ret; eapply room_le; eauto; lia|].
  destruct (is_cntrl _); [by eapply outcome_problem; eauto; lia|]. by apply Hnext.
Qed.

Lemma pull_quoted_room n s : room 2 n s -> outcome n pull_quoted_string s (token_room n).
Proof.
  intros Hr. unfold pull_quoted_string. apply outcome_bind.
  apply (outcome_loop 2 n _ s (fun m _ s' => room 2 m s')); [|done|].
  { intros m fuel Hm Hf. apply quoted_loop_room; [done|lia]. }
  intros m acc s' Hm Hs'. apply outcome_bind.
  assert (Hs2 : room 2 n s') by (eapply room_le; eauto).
  assert (Hfin : forall (acc' : str) s2, room 2 n s2 ->
    outcome n (let* st := se_get in se_ret (ValueToken (ConfigString acc') (line_number st))) s2 (token_room n)).
  { intros acc' s2 H2. apply outcome_bind, outcome_get, outcome_ret. by split. }
  case_bool_decide; [|by apply outcome_ret, Hfin].
  read_as third s2 Ht. destruct (third =? 34).
  - apply (outcome_loop 2 n _ s2 (fun m _ s' => room 2 m s')).
    + intros m' fuel Hm' Hf'. apply triple_loop_room; [done|lia].
    + apply after_read_room in Ht. eapply room_le; eauto.
    + intros m' acc' s3 Hm' Hs3. apply Hfin. eapply room_le; eauto.
  - apply outcome_bind. eapply outcome_weaken; [apply (put_back_read n 2 n); [lia|lia|done]|done|].
    intros ? s3 Hs3. by apply outcome_ret, Hfin.
Qed.

Lemma pull_plus_equals_room n s : room 2 n s -> outcome n pull_plus_equals s (token_room n).
Proof.
  intros Hr. unfold pull_plus_equals. read_as c s' Hc. apply after_read_room in Hc.
  destruct (c =? 61); [apply outcome_ret; split; [eapply room_le; eauto|done]|].
  eapply outcome_problem; eauto.
Qed.

(** ** One token *)

Lemma next_char_whitespace_room n' n s :
  room 2 n s ->
  outcome n' next_char_after_whitespace s (fun c s' =>
    after_read 2 n c s' /\ (c <> -1 -> c <> 10 -> is_whitespace c = false)).
Proof.
  intros [Hk Hn]. apply outcome_fuelled. intros fuel Hf.
  eapply outcome_weaken; [apply (skip_whitespace_room n' (chars s)); [by split|lia]|done|].
  intros c s' [Hc Hw]. split; [|done]. eapply after_read_mono; eauto.
Qed.

Lemma token_from_room n c s (ps : Tok token) :
  after_read 2 n c s -> c <> -1 -> is_whitespace c = false ->
  (forall s', room 1 (pred n) s' -> outcome (pred n) ps s' (token_room (pred n))) ->
  outcome (pred n) (token_from ps c) s (token_room (pred n)).
Proof.
  intros Hc Hreal Hws Hps. unfold token_from. apply outcome_bind.
  eapply outcome_weaken; [by apply start_of_comment_held|done|]. intros b s' (Hc' & Hst & Hl).
  destruct (after_read_real _ _ _ _ Hc' Hreal) as [Hn Hr]. simpl in Hr.
  assert (Hr2 : room 2 (pred n) s') by (eapply room_le; eauto).
  destruct b; [apply pull_comment_room; auto|].
  destruct (c =? 34); [by apply pull_quoted_room|].
  destruct (c =? 36); [by apply Hps|].
  destruct (c =? 43); [by apply pull_plus_equals_room|].
  destruct (simple_token c) as [t|] eqn:Et.
  { apply outcome_ret. split; [done|]. unfold simple_token in Et. repeat case_match; simplify_eq; done. }
  destruct (in_chars first_number_chars c); [by apply pull_number_room|].
  destruct (in_chars not_in_unquoted_text c) eqn:Ei; [by eapply outcome_problem|].
  by apply pull_unquoted_progress.
Qed.

Lemma fresh_saver_room n k (m : Tok token) s :
  room k n s -> (forall s', room k n s' -> outcome n m s' (token_room n)) ->
  outcome n (with_fresh_saver m) s (token_room n).
Proof.
  intros Hr Hm. specialize (Hm (with_saver false [] s) Hr). unfold outcome, with_fresh_saver in *.
  destruct (m _) as [[t|[| | |]] s']; done.
Qed.

Lemma saver_check_room n' k n t l s :
  room k n s -> outcome n' (saver_check t l) s (fun _ s' => room k n s').
Proof. intros Hr. unfold outcome, saver_check. repeat case_match; simplify_eq; done. Qed.

(** END, or a token that took at least one character. *)
Definition token_or_end (n : nat) (t : token) (s' : scan) : Prop :=
  room 2 n s' /\ (t <> T_END -> (0 < n)%nat /\ room 2 (pred n) s').

Lemma no_chars_end fuel s : room 2 0 s -> (0 < fuel)%nat ->
  exists s', pull_next_token fuel s = (Ok T_END, s') /\ room 2 0 s'.
Proof.
  intros Hr Hf. destruct fuel as [|fuel]; [lia|]. cbn [pull_next_token].
  unfold next_char_after_whitespace, fuelled, loop_fuel, se_bind at 1. cbn [skip_whitespace].
  pose proof (next_char_room 0 _ _ _ Hr) as Hc. unfold outcome, se_bind in *.
  destruct (next_char_raw s) as [[c|[| | |]] s'] eqn:E; try done.
  - unfold after_read in Hc. destruct (c =? -1) eqn:E1; [|destruct Hc; lia].
    simpl. eexists. split; [done|]. eapply room_le; eauto.
  - unfold next_char_raw in E. repeat case_match; simplify_eq.
Qed.

Lemma pull_substitution_room n s (collect : Z -> Tok (list token)) :
  room 1 n s ->
  (forall origin s', (0 < n)%nat -> room 2 (pred n) s' -> outcome (pred n) (collect origin) s' (fun _ s2 => room 2 (pred n) s2)) ->
  outcome n (pull_substitution collect) s (token_room n).
Proof.
  intros Hs2 Hcol. apply outcome_bind, outcome_get. read_as d s3 Hd.
  destruct (negb (d =? 123)) eqn:E3; [apply after_read_room in Hd; eapply outcome_problem; eauto|].
  assert (Hd1 : d <> -1) by (bool_to_prop; lia).
  destruct (after_read_real _ _ _ _ Hd Hd1) as [Hn2 Hs3].
  read_as e s4 He. apply outcome_bind.
  assert (Hopt : outcome n (if e =? 63 then se_ret true else put_back e ;;* se_ret false) s4
                   (fun _ s5 => room 2 (pred n) s5)).
  { destruct (e =? 63).
    - apply outcome_ret. apply after_read_room in He. eapply room_le; eauto; simpl; lia.
    - apply outcome_bind. eapply outcome_weaken; [apply (put_back_read n 2 (pred n))|done|];
        [lia|lia|eapply after_read_mono; [exact He|simpl; lia|lia]|]. intros ? s5 H5. by apply outcome_ret. }
  eapply outcome_weaken; [exact Hopt|done|]. intros b s5 H5. cbv beta in H5.
  apply (outcome_weaken (pred n) _ _ _ (token_room (pred n)));
    [|lia|intros t s6 H6; apply (token_room_mono _ _ _ _ H6); lia].
  eapply fresh_saver_room; [exact H5|]. intros s6 H6. apply outcome_bind.
  eapply outcome_weaken; [by apply Hcol|done|]. intros ex s7 H7. apply outcome_ret. by split.
Qed.

Lemma token_fuel_enough fuel :
  (forall n s, room 2 n s -> (0 < n < fuel)%nat ->
     outcome (pred n) (pull_next_token fuel) s (token_or_end n))
  /\ (forall n s origin expression, room 2 n s -> (n + 1 < fuel)%nat ->
     outcome n (substitution_loop fuel origin expression) s (fun _ s' => room 2 n s')).
Proof.
  induction fuel as [|fuel [IHp IHs]]; split; intros n s; [lia|lia| |].
  - intros Hr Hf. cbn [pull_next_token]. apply outcome_bind.
    eapply outcome_weaken; [by apply next_char_whitespace_room|done|]. intros c s' [Hc Hw].
    destruct (c =? -1) eqn:E1.
    { apply outcome_ret. split; [|done]. apply after_read_room in Hc. eapply room_le; eauto. }
    apply Z.eqb_neq in E1. destruct (after_read_real _ _ _ _ Hc E1) as [Hn Hr']. simpl in Hr'.
    assert (Hdone : forall t s2, token_room (pred n) t s2 -> token_or_end n t s2).
    { intros t s2 [H2 _]. split; [eapply room_le; eauto; lia|done]. }
    destruct (c =? 10) eqn:E2.
    { apply outcome_bind, outcome_get, outcome_bind. red; simpl. apply outcome_ret, Hdone.
      split; [|done]. apply room_line. eapply room_le; eauto. }
    apply Z.eqb_neq in E2. eapply outcome_weaken; [apply (token_from_room n); auto|done|done].
    intros s2 Hs2. apply pull_substitution_room; [done|]. intros origin s3 Hn3 Hs3. apply IHs; [done|lia].
  - intros origin expression Hr Hf. cbn [substitution_loop]. apply outcome_bind.
    assert (Hgo : forall t, t <> T_END -> forall s', (0 < n)%nat /\ room 2 (pred n) s' ->
      outcome n (let* st := se_get in let* ws := saver_check t (line_number st) in
                 substitution_loop fuel origin (append_ws ws expression ++ [t])) s' (fun _ s2 => room 2 n s2)).
    { intros t _ s' [Hn Hs']. apply outcome_bind, outcome_get, outcome_bind.
      eapply outcome_weaken; [by apply saver_check_room|done|]. intros ws s2 Hs2.
      eapply (outcome_weaken (pred n)); [apply IHs; [done|lia]|lia|].
      intros ? s3 H3; cbv beta in H3. eapply room_le; eauto; lia. }
    destruct (decide (n = 0%nat)) as [->|Hn0].
    { destruct (no_chars_end fuel s) as (s' & E & Hs'); [done|lia|]. red. rewrite E. done. }
    eapply (outcome_weaken (pred n)); [apply IHp; [done|lia]|lia|]. intros t s' [Hs' Hp].
    destruct t; try (apply Hgo; [done|by apply Hp]).
    + exact Hs'.
    + by apply outcome_ret.
Qed.

(** ** The stream *)

(** What one refill of the queue brings: END alone, or one or two other tokens
    and fewer characters. *)
Lemma queue_next_progress n s :
  room 2 n s ->
  match queue_next_token s with
  | (Ok ts, s') => (ts = [T_END] /\ room 2 n s')
      \/ ((0 < n)%nat /\ room 2 (pred n) s' /\ (1 <= length ts <= 2)%nat /\ Forall (fun t => t <> T_END) ts)
  | (Err (Problem _), s') => (0 < n)%nat /\ room 2 (pred n) s'
  | (Err _, _) => False
  end.
Proof.
  intros Hr. unfold queue_next_token, next_token, se_bind, se_get, se_ret.
  assert (Hr' : room 2 (chars s) s) by (destruct Hr; by split).
  assert (Hn : (chars s <= n)%nat) by (by destruct Hr).
  assert (Hfuel : (chars s < token_fuel s)%nat).
  { unfold token_fuel, chars. pose proof (reals_length (buffer s)). lia. }
  destruct (decide (chars s = 0%nat)) as [E0|E0].
  - destruct (no_chars_end (token_fuel s) s) as (s' & E & Hs'); [by rewrite E0 in Hr'|lia|]. rewrite E. simpl.
    left. split; [done|]. eapply room_le; eauto; lia.
  - destruct (token_fuel_enough (token_fuel s)) as [Hp _].
    specialize (Hp (chars s) s Hr' ltac:(lia)). unfold outcome in Hp.
    destruct (pull_next_token (token_fuel s) s) as [[t|[| | |]] s']; try done.
    + destruct Hp as [Hs' Ht].
      destruct (decide (is_end t = true)) as [He|Hne].
      { destruct t; try done. left. split; [done|eapply room_le; eauto]. }
      destruct Ht as [_ Hs2]; [by intros ->|].
      pose proof (saver_check_room 0 _ _ t (line_number s') _ Hs2) as Hc2.
      unfold outcome in Hc2. unfold saver_check in *. clear Hs' Hr' Hr.
      assert (Hnt : t <> T_END) by (by intros ->).
      repeat case_match; simplify_eq; simpl; right; (split; [lia|]); (split; [eapply room_le; eauto; lia|]);
        (split; [lia|]); repeat constructor; done.
    + split; [lia|]. eapply room_le; eauto; lia.
Qed.

Definition stream_ok (n : nat) (st : TokenStream) : Prop :=
  room 2 n (sc st) /\ tokens st <> [] /\ Forall (fun t => t <> T_END) (tokens st).

Lemma drain_end fuel s : (2 <= fuel)%nat -> drain fuel (mkStream s [T_END]) = Ok [T_END].
Proof. intros Hf. do 2 (destruct fuel as [|fuel]; [lia|]). done. Qed.

Lemma drain_stream fuel n st :
  stream_ok n st -> (2 * n + length (tokens st) + 2 <= fuel)%nat ->
  exists ts, drain fuel st = Ok (tokens st ++ ts ++ [T_END]) /\ Forall (fun t => t <> T_END) ts.
Proof.
  revert n st. induction fuel as [|fuel IH]; intros n [s [|t rest]] (Hr & Hne & Hends) Hf; try done; [simpl in Hf; lia|].
  simpl in *. inversion Hends as [|? ? Ht Hrest]; subst.
  unfold has_next, next; simpl.
  assert (Hnend : is_end t = false) by (by destruct t).
  destruct rest as [|t2 rest]; simpl.
  - rewrite Hnend. simpl. pose proof (queue_next_progress n s Hr) as Hq.
    destruct (queue_next_token s) as [[ts|[p| | |]] s']; try done.
    + destruct Hq as [[-> Hs']|(Hn & Hs' & Hlen & Hts)].
      * exists []. rewrite drain_end by lia. done.
      * destruct (IH (pred n) (mkStream s' ts)) as (us & E & Hus); [|simpl; lia|].
        { split; [done|]. split; [|done]. simpl. destruct ts; simpl in *; [lia|done]. }
        rewrite E. simpl. exists (ts ++ us). split; [|by apply Forall_app_2]. by rewrite <- app_assoc.
    + destruct Hq as [Hn Hs']. destruct (decide (is_end p = true)) as [He|Hp].
      * destruct p; try done. exists []. rewrite drain_end by lia. done.
      * assert (Hpn : p <> T_END) by (by intros ->).
        destruct (IH (pred n) (mkStream s' [p])) as (us & E & Hus); [|simpl; lia|].
        { split; [done|]. split; [done|]. by repeat constructor. }
        rewrite E. simpl. exists (p :: us). split; [done|]. by constructor.
  - destruct (IH n (mkStream s (t2 :: rest))) as (us & E & Hus); [|simpl in *; lia|].
    { split; [done|]. split; done. }
    rewrite E. simpl. eauto.
Qed.

(** C9: for every text, in either syntax, iterating [has_next]/[next] ends after a
    number of steps linear in the text and yields START, tokens other than END,
    and END: no input makes the tokenizer loop, run into its "bug" exceptions
    (three push-backs, a comment without its slashes, an empty queue) or deliver
    tokens after the end. *)
Theorem tokenize_total text json :
  exists ts, drain (2 * length text + 3) (tokenize text json) = Ok (T_START :: ts ++ [T_END])
    /\ Forall (fun t => t <> T_END) ts.
Proof.
  apply (drain_stream _ (length text)); [|simpl; lia].
  split; [|split; [done|by repeat constructor]]. unfold room, chars; simpl. lia.
Qed.
End Loops.
