(* ===== verification/Path.v ===== *)
(** * config/src/detail/{path,path_builder,config_impl_util}.cpp

    Paths of keys, the builder that assembles them and the rendering of paths and
    strings.  A [PathPtr] is an [option Path]; [Path] itself is never empty.  The
    operations are proved against the list of a path's elements. *)

From S2P Require Import Prelude CLib.

(** ** Data *)

Inductive Path :=
| One (first_ : str)
| More (first_ : str) (remainder_ : Path).

#[export] Instance Path_eq_dec : EqDecision Path.
Proof. solve_decision. Defined.

Definition first (p : Path) : str := match p with One f | More f _ => f end.
Definition remainder (p : Path) : option Path := match p with One _ => None | More _ r => Some r end.

(** [Path::make_instance(first, remainder)]. *)
Definition make_path (f : str) (r : option Path) : Path :=
  match r with None => One f | Some p => More f p end.

(** [ConfigExceptionBugOrBroken], or a null [PathPtr] dereferenced. *)
Inductive path_exn := BugOrBroken | NullPath.
#[export] Instance path_exn_eq_dec : EqDecision path_exn.
Proof. solve_decision. Defined.

(** ** PathBuilder: [_keys] is a stack, the last key on top *)

Record PathBuilder := mkBuilder { _keys : list str; _result : option Path }.

Definition new_builder : PathBuilder := mkBuilder [] None.

Definition check_can_append (pb : PathBuilder) : res path_exn unit :=
  match _result pb with Some _ => Err BugOrBroken | None => Ok tt end.

Definition append_key (key : str) (pb : PathBuilder) : res path_exn PathBuilder :=
  _ ← check_can_append pb; Ok (mkBuilder (key :: _keys pb) (_result pb)).

Fixpoint push_path (p : Path) (keys : list str) : list str :=
  match p with
  | One f => f :: keys
  | More f r => push_path r (f :: keys)
  end.

(** A null path is dereferenced. *)
Definition append_path (path : option Path) (pb : PathBuilder) : res path_exn PathBuilder :=
  _ ← check_can_append pb;
  match path with
  | None => Err NullPath
  | Some p => Ok (mkBuilder (push_path p (_keys pb)) (_result pb))
  end.

Fixpoint pop_keys (keys : list str) (r : option Path) : option Path :=
  match keys with
  | [] => r
  | k :: keys' => pop_keys keys' (Some (make_path k r))
  end.

Definition result (pb : PathBuilder) : option Path * PathBuilder :=
  match _result pb with
  | Some p => (Some p, pb)
  | None => let r := pop_keys (_keys pb) None in (r, mkBuilder [] r)
  end.

Fixpoint append_keys (keys : list str) (pb : PathBuilder) : res path_exn PathBuilder :=
  match keys with
  | [] => Ok pb
  | k :: keys' => pb ← append_key k pb; append_keys keys' pb
  end.

Fixpoint append_paths (paths : list Path) (pb : PathBuilder) : res path_exn PathBuilder :=
  match paths with
  | [] => Ok pb
  | p :: paths' => pb ← append_path (Some p) pb; append_paths paths' pb
  end.

(** ** Path *)

(** [Path(VectorString)] and [Path(VectorPath)]. *)
Definition path_of_keys (keys : list str) : res path_exn Path :=
  match keys with
  | [] => Err BugOrBroken
  | [f] => Ok (make_path f None)
  | f :: es => pb ← append_keys es new_builder; Ok (make_path f (result pb).1)
  end.

Definition path_of_paths (paths_to_concat : list Path) : res path_exn Path :=
  match paths_to_concat with
  | [] => Err BugOrBroken
  | first_path :: ps =>
      pb ← (match remainder first_path with
            | Some r => append_path (Some r) new_builder
            | None => Ok new_builder
            end);
      pb ← append_paths ps pb;
      Ok (make_path (first first_path) (result pb).1)
  end.

Fixpoint parent_loop (p : Path) (pb : PathBuilder) : res path_exn PathBuilder :=
  match p with
  | One _ => Ok pb
  | More f r => pb ← append_key f pb; parent_loop r pb
  end.

Definition parent (p : Path) : res path_exn (option Path) :=
  match remainder p with
  | None => Ok None
  | Some _ => pb ← parent_loop p new_builder; Ok (result pb).1
  end.

Fixpoint path_last (p : Path) : str := match p with One f => f | More _ r => path_last r end.

Definition prepend (to_prepend : option Path) (p : Path) : res path_exn (option Path) :=
  pb ← append_path to_prepend new_builder;
  pb ← append_path (Some p) pb;
  Ok (result pb).1.

(** [uint32_t Path::length]: a counter that wraps. *)
Fixpoint length_loop (p : option Path) (fuel : nat) (count : Z) : Z :=
  match fuel, p with
  | S fuel', Some p' => length_loop (remainder p') fuel' (wrap_u32 (count + 1))
  | _, _ => count
  end.
Fixpoint path_size (p : Path) : nat := match p with One _ => 1 | More _ r => S (path_size r) end.
Definition path_length (p : Path) : Z := length_loop (remainder p) (path_size p) 1.

Fixpoint sub_path_from (remove_from_front : nat) (p : option Path) : option Path :=
  match remove_from_front, p with
  | S n, Some p' => sub_path_from n (remainder p')
  | _, _ => p
  end.

Fixpoint sub_path_loop (count : nat) (from : option Path) (pb : PathBuilder) : res path_exn PathBuilder :=
  match count with
  | O => Ok pb
  | S count' =>
      match from with
      | None => Err NullPath
      | Some f =>
          pb ← append_key (first f) pb;
          match remainder f with
          | None => Err BugOrBroken
          | Some r => sub_path_loop count' (Some r) pb
          end
      end
  end.

Definition sub_path (first_index last_index : nat) (p : Path) : res path_exn (option Path) :=
  if bool_decide (last_index < first_index)%nat then Err BugOrBroken
  else
    pb ← sub_path_loop (last_index - first_index) (sub_path_from first_index (Some p)) new_builder;
    Ok (result pb).1.

(** ** Rendering *)

(** [std::hex << std::setfill('0') << std::setw(4)] of a small number. *)
Definition hex4 (z : Z) : str :=
  let d n := List.nth (Z.to_nat n) $"0123456789abcdef" "0"%char in
  [d (Z.shiftr z 12 mod 16); d (Z.shiftr z 8 mod 16); d (Z.shiftr z 4 mod 16); d (z mod 16)]%Z.

Definition bs : ascii := "092"%char.
Definition dquote : ascii := "034"%char.

Definition json_char (c : ascii) : str :=
  if Ascii.eqb c dquote then [bs; dquote]
  else if Ascii.eqb c bs then [bs; bs]
  else if Ascii.eqb c "010"%char then [bs; "n"%char]
  else if Ascii.eqb c "008"%char then [bs; "b"%char]
  else if Ascii.eqb c "012"%char then [bs; "f"%char]
  else if Ascii.eqb c "013"%char then [bs; "r"%char]
  else if Ascii.eqb c "009"%char then [bs; "t"%char]
  else if is_cntrl c then bs :: "u"%char :: hex4 (schar c)
  else [c].

Definition render_json_string (s : str) : str :=
  [dquote] ++ concat (map json_char s) ++ [dquote].

Definition render_string_unquoted_if_possible (s : str) : str :=
  match s with
  | [] => render_json_string s
  | c :: _ =>
      if negb (is_digit c) then render_json_string s
      else if starts_with $"include" s || ends_with $"true" s || ends_with $"false" s
              || ends_with $"null" s || contains s $"//" then render_json_string s
      else if existsb (fun c => is_alpha c || is_digit c) s then render_json_string s
      else s
  end.

(** Its tests are inverted: nothing is ever left unquoted. *)
Lemma always_quoted s : render_string_unquoted_if_possible s = render_json_string s.
Proof.
  destruct s as [|c s]; [done|]. unfold render_string_unquoted_if_possible.
  destruct (is_digit c) eqn:E; [|done]. cbn [negb]. case_match; [done|]. cbn [existsb].
  by rewrite E, orb_true_r.
Qed.

Definition has_funky_chars (s : str) : bool :=
  match s with
  | [] => false
  | first :: rest =>
      if negb (is_alpha first) then true
      else existsb (fun c => negb (is_alnum c || Ascii.eqb c "-"%char || Ascii.eqb c "_"%char)) rest
  end.

Definition render_element (f : str) : str :=
  if has_funky_chars f || bool_decide (f = []) then render_json_string f else f.

Fixpoint append_to_stream (p : Path) (s : str) : str :=
  match p with
  | One f => s ++ render_element f
  | More f r => append_to_stream r ((s ++ render_element f) ++ $".")
  end.

Definition render (p : Path) : str := append_to_stream p [].
Definition path_to_string (p : Path) : str := append_to_stream p $"Path(" ++ $")".

(** [ConfigImplUtil::join_path]. *)
Definition join_path (keys : list str) : res path_exn str :=
  p ← path_of_keys keys; Ok (render p).

(** ** The elements of a path *)

Fixpoint path_elements (p : Path) : list str :=
  match p with One f => [f] | More f r => f :: path_elements r end.

Definition ptr_elements (p : option Path) : list str := from_option path_elements [] p.

Fixpoint of_elements (l : list str) : option Path :=
  match l with [] => None | f :: l' => Some (make_path f (of_elements l')) end.

Lemma elements_make f r : path_elements (make_path f r) = f :: ptr_elements r.
Proof. by destruct r. Qed.

Lemma elements_first p : path_elements p = first p :: ptr_elements (remainder p).
Proof. by destruct p. Qed.

Lemma ptr_elements_inj p q : ptr_elements p = ptr_elements q -> p = q.
Proof.
  assert (Hp : forall p q, path_elements p = path_elements q -> p = q).
  { clear. intros p. induction p as [f|f r IH]; intros [g|g q]; simpl; intros E; simplify_eq; try done.
    - by destruct q.
    - by destruct r.
    - f_equal. by apply IH. }
  destruct p as [p|], q as [q|]; simpl; intros E; [f_equal; auto| | |done];
    [destruct p; done|destruct q; done].
Qed.

Lemma of_elements_spec l : ptr_elements (of_elements l) = l.
Proof. induction l as [|f l IH]; simpl; [done|]. by rewrite elements_make, IH. Qed.

Lemma ptr_of_elements p l : ptr_elements p = l -> p = of_elements l.
Proof. intros E. apply ptr_elements_inj. by rewrite of_elements_spec. Qed.

Lemma pop_keys_elements keys r :
  ptr_elements (pop_keys keys r) = reverse keys ++ ptr_elements r.
Proof.
  revert r. induction keys as [|k keys IH]; intros r; simpl; [done|].
  rewrite IH, reverse_cons, <- app_assoc. simpl. by rewrite elements_make.
Qed.

Lemma push_path_keys p keys : push_path p keys = reverse (path_elements p) ++ keys.
Proof.
  revert keys. induction p as [f|f r IH]; intros keys; simpl; [done|].
  rewrite IH, reverse_cons, <- app_assoc. done.
Qed.

(** An open builder holds [l] when its stack is [l] reversed. *)
Definition holds (pb : PathBuilder) (l : list str) : Prop := _result pb = None /\ _keys pb = reverse l.

Lemma holds_new : holds new_builder [].
Proof. done. Qed.

Lemma append_key_holds pb l k : holds pb l -> exists pb', append_key k pb = Ok pb' /\ holds pb' (l ++ [k]).
Proof.
  intros [Hr Hk]. unfold append_key, check_can_append. rewrite Hr. simpl. eexists. split; [done|].
  split; simpl; [done|]. by rewrite reverse_app, Hk.
Qed.

Lemma append_path_holds pb l p :
  holds pb l -> exists pb', append_path (Some p) pb = Ok pb' /\ holds pb' (l ++ path_elements p).
Proof.
  intros [Hr Hk]. unfold append_path, check_can_append. rewrite Hr. simpl. eexists. split; [done|].
  split; simpl; [done|]. by rewrite push_path_keys, reverse_app, Hk.
Qed.

Lemma append_keys_holds keys pb l :
  holds pb l -> exists pb', append_keys keys pb = Ok pb' /\ holds pb' (l ++ keys).
Proof.
  revert pb l. induction keys as [|k keys IH]; intros pb l Hp; simpl.
  - exists pb. by rewrite app_nil_r.
  - destruct (append_key_holds pb l k Hp) as (pb' & -> & Hp'). simpl.
    destruct (IH _ _ Hp') as (pb2 & -> & Hp2). exists pb2. by rewrite <- app_assoc in Hp2.
Qed.

Lemma append_paths_holds ps pb l :
  holds pb l -> exists pb', append_paths ps pb = Ok pb' /\ holds pb' (l ++ concat (map path_elements ps)).
Proof.
  revert pb l. induction ps as [|p ps IH]; intros pb l Hp; simpl.
  - exists pb. by rewrite app_nil_r.
  - destruct (append_path_holds pb l p Hp) as (pb' & E & Hp').
    rewrite E. simpl. destruct (IH _ _ Hp') as (pb2 & -> & Hp2). exists pb2. by rewrite <- app_assoc in Hp2.
Qed.

Lemma result_holds pb l : holds pb l -> (result pb).1 = of_elements l.
Proof.
  intros [Hr Hk]. apply ptr_of_elements. unfold result. rewrite Hr, Hk. simpl.
  rewrite pop_keys_elements, reverse_involutive. simpl. by rewrite app_nil_r.
Qed.

(** ** The operations, by the elements *)

Lemma path_of_keys_spec l : l <> [] -> path_of_keys l = Ok (make_path (hd [] l) (of_elements (tl l))).
Proof.
  destruct l as [|f [|g l]]; [done|done|]. intros _. unfold path_of_keys.
  destruct (append_keys_holds (g :: l) new_builder [] holds_new) as (pb & -> & Hp).
  simpl mbind. by rewrite (result_holds _ _ Hp).
Qed.

Lemma parent_loop_holds p pb l :
  holds pb l -> exists pb', parent_loop p pb = Ok pb' /\ holds pb' (l ++ removelast (path_elements p)).
Proof.
  revert pb l. induction p as [f|f r IH]; intros pb l Hp; simpl.
  - exists pb. by rewrite app_nil_r.
  - destruct (append_key_holds pb l f Hp) as (pb' & -> & Hp'). simpl.
    destruct (IH _ _ Hp') as (pb2 & -> & Hp2). exists pb2. split; [done|].
    rewrite <- app_assoc in Hp2. destruct (path_elements r) eqn:E; [by destruct r|done].
Qed.

Lemma path_size_elements p : path_size p = length (path_elements p).
Proof. induction p; simpl; auto. Qed.

Lemma sub_path_from_elements n p : ptr_elements (sub_path_from n p) = drop n (ptr_elements p).
Proof.
  revert p. induction n as [|n IH]; intros p; [by rewrite drop_0|]. destruct p as [p|]; simpl; [|done].
  rewrite IH. by destruct p; simpl; rewrite ?drop_nil.
Qed.

Lemma sub_path_loop_spec count from pb l :
  holds pb l ->
  if bool_decide (count = 0)%nat then sub_path_loop count from pb = Ok pb
  else if bool_decide (count < length (ptr_elements from))%nat then
    exists pb', sub_path_loop count from pb = Ok pb' /\ holds pb' (l ++ take count (ptr_elements from))
  else sub_path_loop count from pb = Err (match from with None => NullPath | Some _ => BugOrBroken end).
Proof.
  revert from pb l. induction count as [|count IH]; intros from pb l Hp; [done|].
  rewrite bool_decide_false by lia. destruct from as [f|]; [|done].
  cbn [sub_path_loop ptr_elements from_option]. rewrite elements_first.
  destruct (append_key_holds pb l (first f) Hp) as (pb1 & -> & Hp1).
  destruct (remainder f) as [r|]; cbn [length ptr_elements from_option mbind res_bind]; [|by rewrite bool_decide_false by lia].
  specialize (IH (Some r) pb1 _ Hp1). cbn [ptr_elements from_option] in IH.
  assert (Hlen : (0 < length (path_elements r))%nat) by (destruct r; simpl; lia).
  destruct (decide (count = 0%nat)) as [->|Hc].
  - rewrite bool_decide_true by lia. exists pb1. by split.
  - rewrite bool_decide_false in IH by lia. repeat case_bool_decide; try lia; [|done].
    destruct IH as (pb2 & -> & Hp2). exists pb2. split; [done|]. by rewrite <- app_assoc in Hp2.
Qed.

Lemma sub_path_indices i j p :
  sub_path i j p =
  if bool_decide (j < i)%nat then Err BugOrBroken
  else if bool_decide (j = i) then Ok None
  else if bool_decide (j < length (path_elements p))%nat then Ok (of_elements (take (j - i) (drop i (path_elements p))))
  else if bool_decide (i < length (path_elements p))%nat then Err BugOrBroken
  else Err NullPath.
Proof.
  unfold sub_path. case_bool_decide as Hji; [done|].
  pose proof (sub_path_loop_spec (j - i) (sub_path_from i (Some p)) new_builder [] holds_new) as Hl.
  rewrite sub_path_from_elements in Hl. simpl ptr_elements in Hl. rewrite length_drop in Hl.
  pose proof (sub_path_from_elements i (Some p)) as Hf. simpl in Hf.
  destruct (decide (j = i)) as [->|Hne].
  { rewrite (bool_decide_true (i = i)) by done. rewrite (bool_decide_true (i - i = 0)%nat) in Hl by lia. by rewrite Hl. }
  rewrite (bool_decide_false (j = i)) by lia. rewrite (bool_decide_false (j - i = 0)%nat) in Hl by lia.
  repeat case_bool_decide; try lia.
  - destruct Hl as (pb & -> & Hp). simpl mbind. by rewrite (result_holds _ _ Hp).
  - rewrite Hl. simpl. destruct (sub_path_from i (Some p)); [done|]. simpl in Hf.
    apply (f_equal length) in Hf. rewrite length_drop in Hf. simpl in Hf. lia.
  - rewrite Hl. simpl. destruct (sub_path_from i (Some p)) as [q|] eqn:E; [|done]. simpl in Hf.
    apply (f_equal length) in Hf. rewrite length_drop in Hf. destruct q; simpl in Hf; lia.
Qed.

(** [Path::sub_path(first, last)] on every pair of indices: the slice of the
    elements between the indices, a null path when they are equal, and an error
    whenever the last index is not strictly inside the path: it never returns a
    slice that reaches the end. *)
Theorem sub_path_slice i j p :
  sub_path i j p =
  if bool_decide (j < i)%nat then Err BugOrBroken
  else if bool_decide (j = i) then Ok None
  else if bool_decide (j < length (path_elements p))%nat then Ok (of_elements (take (j - i) (drop i (path_elements p))))
  else if bool_decide (i < length (path_elements p))%nat then Err BugOrBroken
  else Err NullPath.
Proof. apply sub_path_indices. Qed.

Lemma wrap_u32_succ n : wrap_u32 (wrap_u32 n + 1) = wrap_u32 (n + 1).
Proof. unfold wrap_u32. by rewrite Zplus_mod_idemp_l. Qed.

Lemma length_loop_spec p fuel count :
  (length (ptr_elements p) <= fuel)%nat ->
  length_loop p fuel (wrap_u32 count) = wrap_u32 (count + Z.of_nat (length (ptr_elements p))).
Proof.
  revert p count. induction fuel as [|fuel IH]; intros [p|] count; simpl; intros Hl;
    rewrite ?Z.add_0_r; try done; [destruct p; simpl in Hl; lia|].
  rewrite elements_first in Hl |- *. simpl in Hl |- *. rewrite wrap_u32_succ, IH by lia.
  f_equal. lia.
Qed.

Lemma prepend_spec p q : prepend (Some q) p = Ok (of_elements (path_elements q ++ path_elements p)).
Proof.
  unfold prepend. destruct (append_path_holds new_builder [] q holds_new) as (pb & -> & Hp). simpl mbind.
  destruct (append_path_holds pb _ p Hp) as (pb2 & -> & Hp2). simpl mbind. by rewrite (result_holds _ _ Hp2).
Qed.

Lemma path_length_spec p : path_length p = wrap_u32 (Z.of_nat (length (path_elements p))).
Proof.
  unfold path_length. rewrite path_size_elements. change 1%Z with (wrap_u32 1) at 1.
  rewrite length_loop_spec by (rewrite elements_first; simpl; lia).
  rewrite elements_first. simpl. f_equal. lia.
Qed.

Lemma parent_spec p : parent p = Ok (of_elements (removelast (path_elements p))).
Proof.
  unfold parent. destruct p as [f|f r]; [done|]. simpl remainder.
  destruct (parent_loop_holds (More f r) new_builder [] holds_new) as (pb & -> & Hp).
  simpl mbind. by rewrite (result_holds _ _ Hp).
Qed.

Lemma last_spec p : last (path_elements p) = Some (path_last p).
Proof. induction p as [f|f r IH]; simpl; [done|]. rewrite <- IH. by destruct r. Qed.

Lemma path_of_paths_spec p ps :
  exists r, path_of_paths (p :: ps) = Ok r /\ path_elements r = path_elements p ++ concat (map path_elements ps).
Proof.
  unfold path_of_paths.
  assert (exists pb, (match remainder p with Some r => append_path (Some r) new_builder | None => Ok new_builder end) = Ok pb
    /\ holds pb (ptr_elements (remainder p))) as (pb & -> & Hp).
  { destruct (remainder p) as [r|]; [apply (append_path_holds _ []), holds_new|]. by exists new_builder. }
  simpl mbind. destruct (append_paths_holds ps pb _ Hp) as (pb2 & -> & Hp2). simpl mbind.
  eexists. split; [done|]. rewrite elements_make, (result_holds _ _ Hp2), of_elements_spec.
  by rewrite (elements_first p).
Qed.

(** The other path operations, by the elements of the path: construction from
    keys and from paths, parent (all but the last, null for a single key),
    prepend, last and the 32-bit length. *)
Theorem path_operations p q l ps :
  (l = [] \/ exists r, path_of_keys l = Ok r /\ path_elements r = l)
  /\ (exists r, path_of_paths (p :: ps) = Ok r /\ path_elements r = path_elements p ++ concat (map path_elements ps))
  /\ parent p = Ok (of_elements (removelast (path_elements p)))
  /\ prepend (Some q) p = Ok (of_elements (path_elements q ++ path_elements p))
  /\ last (path_elements p) = Some (path_last p)
  /\ path_length p = wrap_u32 (Z.of_nat (length (path_elements p))).
Proof.
  split_and!.
  - destruct (decide (l = [])) as [|Hl]; [by left|]. right.
    rewrite path_of_keys_spec by done. eexists. split; [done|].
    rewrite elements_make, of_elements_spec. by destruct l.
  - apply path_of_paths_spec.
  - apply parent_spec.
  - apply prepend_spec.
  - apply last_spec.
  - apply path_length_spec.
Qed.
