(* ===== verification/Lexing.v ===== *)
(** * What the tokenizer reads

    The tokenizer state seen as the text that is still to come ([sees]), and what
    [pull_next_token] makes of quoted strings, keywords and runs of plain text. *)

From S2P Require Import Prelude CLib Token Tokenizer TokenizerTotal Path.

Open Scope Z_scope.

Section Lexing.
Context `{DoubleLib}.
Implicit Types (s : scan) (w x : str) (c : ascii).

(** ** The text to come *)

(** No byte of the text reads as end of file. *)
Definition no_eof (w : str) : Prop := Forall (fun c => schar c <> -1) w.

(** At most [k] characters are pushed back, and the text to come is [w]; a
    pushed-back end of file may follow it. *)
Definition sees (k : nat) (s : scan) (w : str) : Prop :=
  (length (buffer s) <= k)%nat /\ exists n, buffer s ++ map schar (input s) = map schar w ++ replicate n (-1).

(** Everything but the characters is the same. *)
Definition same_context (s s' : scan) : Prop :=
  line_number s' = line_number s /\ allow_comments s' = allow_comments s
  /\ last_token_was_simple_value s' = last_token_was_simple_value s /\ whitespace s' = whitespace s.

#[export] Instance same_context_preorder : PreOrder same_context.
Proof. split; unfold same_context; [done|]. intros s1 s2 s3. naive_solver congruence. Qed.

Lemma sees_mono k k' s w : sees k s w -> (k <= k')%nat -> sees k' s w.
Proof. intros [Hb Hv] Hk. split; [lia|done]. Qed.

Lemma sees_init w json : sees 0 (init_scan w json) w.
Proof. split; [done|]. exists 0%nat. simpl. by rewrite app_nil_r. Qed.

Lemma read_cons k s c w :
  sees k s (c :: w) ->
  exists s', next_char_raw s = (Ok (schar c), s') /\ sees (pred k) s' w /\ same_context s s'.
Proof.
  intros [Hb [n Hv]]. unfold next_char_raw. destruct (buffer s) as [|b l] eqn:Eb; simpl in *.
  - destruct (input s) as [|a i] eqn:Ei; simpl in Hv; simplify_eq. simpl.
    match goal with E : schar a = schar c |- _ => apply schar_inj in E; subst a end.
    eexists. split; [done|]. split; [|done]. unfold sees; simpl. rewrite Eb. split; [simpl; lia|].
    exists n. done.
  - simplify_eq. eexists. split; [done|]. split; [|done]. unfold sees; simpl. split; [lia|]. by exists n.
Qed.

Lemma read_nil k s :
  sees k s [] ->
  exists s', next_char_raw s = (Ok (-1), s') /\ sees (pred k) s' [] /\ same_context s s'.
Proof.
  intros [Hb [n Hv]]. unfold next_char_raw. destruct (buffer s) as [|b l] eqn:Eb; simpl in *.
  - destruct (input s) as [|a i] eqn:Ei; simpl in *.
    + eexists. split; [done|]. split; [|done]. unfold sees; simpl. rewrite Eb. split; [simpl; lia|]. by exists 0%nat.
    + destruct n as [|n]; simpl in Hv; [done|]. injection Hv as Ha Hv. rewrite Ha.
      eexists. split; [done|]. split; [|done]. unfold sees; simpl. rewrite Eb. split; [simpl; lia|]. by exists n.
  - destruct n as [|n]; simpl in Hv; [done|]. injection Hv as Ha Hv. subst b.
    eexists. split; [done|]. split; [|done]. unfold sees; simpl. split; [lia|]. by exists n.
Qed.

Lemma unread_cons k s c w :
  sees k s w -> (k <= 2)%nat ->
  exists s', put_back (schar c) s = (Ok tt, s') /\ sees (S k) s' (c :: w) /\ same_context s s'.
Proof.
  intros [Hb [n Hv]] Hk. unfold put_back. rewrite bool_decide_false by lia. eexists. split; [done|].
  split; [|done]. unfold sees; simpl. split; [lia|]. exists n. by rewrite Hv.
Qed.

Lemma unread_nil k s :
  sees k s [] -> (k <= 2)%nat ->
  exists s', put_back (-1) s = (Ok tt, s') /\ sees (S k) s' [] /\ same_context s s'.
Proof.
  intros [Hb [n Hv]] Hk. unfold put_back. rewrite bool_decide_false by lia. eexists. split; [done|].
  split; [|done]. unfold sees; simpl. split; [lia|]. exists (S n). by rewrite Hv.
Qed.

(** Loop fuel suffices for the text to come. *)
Lemma sees_fuel k s w : sees k s w -> (length w + 1 < loop_fuel s)%nat.
Proof.
  intros [_ [n Hv]]. apply (f_equal length) in Hv. rewrite !length_app, !length_map, length_replicate in Hv.
  unfold loop_fuel. lia.
Qed.

(** ** Quoted strings *)

Definition simple_escapes : list (ascii * ascii) :=
  [(dquote, dquote); (bs, bs); ("n", "010"); ("b", "008"); ("f", "012"); ("r", "013"); ("t", "009")]%char.

Lemma escape_simple k s e out w :
  (e, out) ∈ simple_escapes -> sees k s (e :: w) ->
  exists s', (forall acc, pull_escape_sequence acc s = (Ok (acc ++ [out]), s')) /\ sees k s' w /\ same_context s s'.
Proof.
  intros Hin Hs. destruct (read_cons k s e w Hs) as (s' & Hr & Hs' & Hc). exists s'.
  split; [|split; [eapply sees_mono; eauto; lia|done]].
  intros acc. unfold pull_escape_sequence, se_bind. rewrite Hr. unfold simple_escapes in Hin.
  repeat (apply elem_of_cons in Hin as [[= -> ->]|Hin]; [done|]). set_solver.
Qed.

Lemma hex_digits_read n k s ds w :
  length ds = n -> no_eof ds -> sees k s (ds ++ w) ->
  exists s', (forall acc, hex_digits n acc s = (Ok (acc ++ ds), s')) /\ sees k s' w /\ same_context s s'.
Proof.
  revert k s ds. induction n as [|n IH]; intros k s [|d ds] Hl Hd Hs; simpl in Hl; try lia.
  - exists s. split; [intros acc; by rewrite app_nil_r|done].
  - inversion Hd; subst. destruct (read_cons k s d (ds ++ w) Hs) as (s1 & Hr & Hs1 & Hc1).
    destruct (IH (pred k) s1 ds) as (s2 & E & Hs2 & Hc2); [lia|done|done|].
    exists s2. split; [|split; [eapply sees_mono; eauto; lia|by etrans]].
    intros acc. cbn [hex_digits]. unfold se_bind. rewrite Hr.
    rewrite (proj2 (Z.eqb_neq _ _)) by done. by rewrite chr_schar, E, <- app_assoc.
Qed.

Definition hex4_ok (c : ascii) : bool :=
  negb (is_cntrl c) ||
  (Ascii.eqb (chr (strtol16 (hex4 (schar c)))) c && forallb (fun d => negb (schar d =? -1)) (hex4 (schar c))).

Lemma escape_unicode k s c w :
  is_cntrl c = true -> sees k s ("u"%char :: hex4 (schar c) ++ w) ->
  exists s', (forall acc, pull_escape_sequence acc s = (Ok (acc ++ [c]), s')) /\ sees k s' w /\ same_context s s'.
Proof.
  intros Hc Hs. by_ascii c hex4_ok. rename H0 into Hok. unfold hex4_ok in Hok. rewrite Hc in Hok. simpl negb in Hok.
  rewrite orb_false_l in Hok. apply andb_true_iff in Hok as [Hval Hdig]. apply Ascii.eqb_eq in Hval.
  destruct (read_cons k s _ _ Hs) as (s1 & Hr & Hs1 & Hc1).
  destruct (hex_digits_read 4 (pred k) s1 (hex4 (schar c)) w) as (s2 & E & Hs2 & Hc2); [done| |done|].
  { apply List.Forall_forall. intros d Hd. rewrite forallb_forall in Hdig. specialize (Hdig d Hd).
    by apply negb_true_iff, Z.eqb_neq in Hdig. }
  exists s2. split; [|split; [eapply sees_mono; eauto; lia|by etrans]].
  intros acc. unfold pull_escape_sequence, se_bind. rewrite Hr. change (schar "u") with 117.
  cbn [Z.eqb Pos.eqb]. rewrite E. rewrite app_nil_l, Hval. done.
Qed.

(** A state [s'] from which the quoted loop goes on after reading [c]. *)
Definition quoted_advance (k : nat) (s : scan) (c : ascii) (w : str) : Prop :=
  exists s', (forall fuel acc, quoted_loop (S fuel) acc s = quoted_loop fuel (acc ++ [c]) s')
    /\ sees k s' w /\ same_context s s'.

Lemma quoted_escape k s c w rest :
  sees k s (bs :: rest) ->
  (forall s1, sees (pred k) s1 rest ->
     exists s', (forall acc, pull_escape_sequence acc s1 = (Ok (acc ++ [c]), s')) /\ sees (pred k) s' w /\ same_context s1 s') ->
  quoted_advance k s c w.
Proof.
  intros Hs Hesc. destruct (read_cons k s bs _ Hs) as (s1 & Hr & Hs1 & Hc1).
  destruct (Hesc s1 Hs1) as (s2 & E & Hs2 & Hc2).
  exists s2. split; [|split; [eapply sees_mono; eauto; lia|by etrans]].
  intros fuel acc. cbn [quoted_loop]. unfold se_bind. rewrite Hr. change (schar bs) with 92.
  cbn [Z.eqb Pos.eqb]. by rewrite E.
Qed.

Lemma quoted_plain k s c w :
  schar c <> -1 -> schar c <> 92 -> schar c <> 34 -> is_cntrl c = false -> sees k s (c :: w) -> quoted_advance k s c w.
Proof.
  intros H1 H2 H3 H4 Hs. destruct (read_cons k s c w Hs) as (s1 & Hr & Hs1 & Hc1).
  exists s1. split; [|split; [eapply sees_mono; eauto; lia|done]].
  intros fuel acc. cbn [quoted_loop]. unfold se_bind. rewrite Hr.
  apply Z.eqb_neq in H1, H2, H3. by rewrite H1, H2, H3, chr_schar, H4.
Qed.

(** What the loop sees of one rendered character. *)
Lemma quoted_char k s c w :
  schar c <> -1 -> sees k s (json_char c ++ w) -> quoted_advance k s c w.
Proof.
  intros Hne Hs. unfold json_char in Hs.
  repeat match type of Hs with
  | sees _ _ ((if Ascii.eqb c ?d then [bs; ?e] else _) ++ _) =>
      let Hb := fresh "Hb" in destruct (Ascii.eqb c d) eqn:Hb;
      [apply Ascii.eqb_eq in Hb; subst c; eapply quoted_escape; [exact Hs|];
       intros s1 Hs1; apply (escape_simple _ _ e d w); [unfold simple_escapes; set_solver|exact Hs1]
      |apply Ascii.eqb_neq in Hb]
  end.
  destruct (is_cntrl c) eqn:Hctl.
  - eapply quoted_escape; [exact Hs|]. intros s1 Hs1. by apply escape_unicode.
  - apply quoted_plain; try done.
    + change 92 with (schar bs). intros E. by apply schar_inj in E.
    + change 34 with (schar dquote). intros E. by apply schar_inj in E.
Qed.

Lemma quoted_string_read k s e w acc fuel :
  no_eof e -> sees k s (concat (map json_char e) ++ dquote :: w) -> (length e < fuel)%nat ->
  exists s', quoted_loop fuel acc s = (Ok (acc ++ e), s') /\ sees k s' w /\ same_context s s'.
Proof.
  revert k s acc fuel. induction e as [|c e IH]; intros k s acc fuel He Hs Hf; destruct fuel as [|fuel]; simpl in Hf; try lia.
  - destruct (read_cons k s dquote w Hs) as (s1 & Hr & Hs1 & Hc1). exists s1.
    split; [|split; [eapply sees_mono; eauto; lia|done]].
    cbn [quoted_loop]. unfold se_bind. rewrite Hr. change (schar dquote) with 34. cbn [Z.eqb Pos.eqb].
    by rewrite app_nil_r.
  - inversion He; subst. simpl in Hs. rewrite <- app_assoc in Hs.
    destruct (quoted_char k s c _ ltac:(done) Hs) as (s1 & E & Hs1 & Hc1).
    destruct (IH k s1 (acc ++ [c]) fuel) as (s2 & E2 & Hs2 & Hc2); [done|done|lia|].
    exists s2. rewrite E, E2, <- app_assoc. split; [done|]. split; [done|by etrans].
Qed.

(** The first character after optional white space; here there is none. *)
Lemma no_whitespace k s c w :
  schar c <> -1 -> is_space c = false -> sees k s (c :: w) ->
  exists s', next_char_after_whitespace s = (Ok (schar c), s') /\ sees (pred k) s' w /\ same_context s s'.
Proof.
  intros Hne Hsp Hs. destruct (read_cons k s c w Hs) as (s1 & Hr & Hs1 & Hc1). exists s1. split; [|done].
  unfold next_char_after_whitespace, fuelled, loop_fuel. cbn [skip_whitespace]. unfold se_bind. rewrite Hr.
  apply Z.eqb_neq in Hne. rewrite Hne. unfold is_whitespace_not_newline.
  unfold is_space in Hsp. by rewrite Hsp, andb_false_r.
Qed.

(** Read one character and push it back. *)
Lemma peek_back k s w :
  sees k s w -> (k <= 2)%nat ->
  exists (z : Z) s1 s2, next_char_raw s = (Ok z, s1) /\ put_back z s1 = (Ok tt, s2) /\ sees 2 s2 w /\ same_context s s2
    /\ (forall d, z = schar d -> z <> -1 -> head w = Some d).
Proof.
  intros Hs Hk. destruct w as [|c w].
  - destruct (read_nil k s Hs) as (s1 & Hr & Hs1 & Hc1).
    destruct (unread_nil (pred k) s1 Hs1 ltac:(lia)) as (s2 & Hu & Hs2 & Hc2).
    exists (-1), s1, s2. split_and!; [done|done|eapply sees_mono; eauto; lia|by etrans|done].
  - destruct (read_cons k s c w Hs) as (s1 & Hr & Hs1 & Hc1).
    destruct (unread_cons (pred k) s1 c w Hs1 ltac:(lia)) as (s2 & Hu & Hs2 & Hc2).
    exists (schar c), s1, s2. split_and!; [done|done|eapply sees_mono; eauto; lia|by etrans|].
    intros d E _. apply schar_inj in E. by subst.
Qed.

Lemma json_chars_length e : (length e <= length (concat (map json_char e)))%nat.
Proof.
  induction e as [|c e IH]; simpl; [done|]. rewrite length_app.
  enough (1 <= length (json_char c))%nat by lia. unfold json_char. repeat case_match; simpl; lia.
Qed.

(** The tokenizer reads a rendered string back as one string token. *)
Lemma string_token k s e w :
  no_eof e -> (k <= 2)%nat -> (e = [] -> head w <> Some dquote) ->
  sees k s (render_json_string e ++ w) ->
  exists s', (forall fuel, pull_next_token (S fuel) s = (Ok (ValueToken (ConfigString e) (line_number s)), s'))
    /\ sees 2 s' w /\ same_context s s'.
Proof.
  intros He Hk Hnil Hs. unfold render_json_string in Hs. simpl in Hs. rewrite <- app_assoc in Hs. simpl in Hs.
  destruct (no_whitespace k s dquote _ ltac:(done) eq_refl Hs) as (s1 & Hr1 & Hs1 & Hc1).
  assert (Hq : forall fuel, pull_next_token (S fuel) s = pull_quoted_string s1).
  { intros fuel. cbn [pull_next_token]. unfold se_bind at 1. rewrite Hr1. change (schar dquote) with 34.
    cbn [Z.eqb Pos.eqb]. unfold token_from, se_bind at 1. unfold start_of_comment. cbn [Z.eqb Pos.eqb].
    unfold se_bind, se_get. by destruct (allow_comments s1). }
  destruct (quoted_string_read (pred k) s1 e w [] (loop_fuel s1)) as (s2 & E2 & Hs2 & Hc2); [done|done| |].
  { pose proof (sees_fuel _ _ _ Hs1) as Hf. rewrite length_app in Hf. simpl in Hf.
    pose proof (json_chars_length e). lia. }
  assert (Hline : line_number s2 = line_number s) by (destruct Hc1 as [L1 _], Hc2 as [L2 _]; congruence).
  rewrite app_nil_l in E2. destruct (decide (e = [])) as [Ee|Ee].
  - destruct (peek_back (pred k) s2 w Hs2 ltac:(lia)) as (x & s3 & s4 & Hr & Hu & Hs4 & Hc4 & Hx).
    exists s4. split; [|split; [done|by etrans; [etrans|]]].
    intros fuel. rewrite Hq. unfold pull_quoted_string, fuelled, se_bind, se_get. rewrite E2.
    rewrite bool_decide_true by done. rewrite Hr. destruct (x =? 34) eqn:E34.
    { apply Z.eqb_eq in E34. exfalso. apply (Hnil Ee). by apply Hx; [|lia]. }
    rewrite Hu. unfold se_ret. destruct Hc4 as [L4 _]. by rewrite L4, Hline.
  - exists s2. split; [|split; [eapply sees_mono; eauto; lia|by etrans]].
    intros fuel. rewrite Hq. unfold pull_quoted_string, fuelled, se_bind, se_get, se_ret. rewrite E2.
    rewrite bool_decide_false by done. by rewrite Hline.
Qed.

(** ** Plain text *)

Definition plain (c : ascii) : bool :=
  is_alnum c || Ascii.eqb c "-"%char || Ascii.eqb c "_"%char || Ascii.eqb c "."%char.

(** No number starts with [c]. *)
Definition no_number (c : ascii) : bool := negb (in_chars first_number_chars (schar c)).

Definition plain_facts (c : ascii) : bool :=
  negb (plain c) ||
  (negb (schar c =? -1) && negb (is_whitespace (schar c)) && negb (in_chars not_in_unquoted_text (schar c))
   && negb (schar c =? 35) && negb (schar c =? 47) && negb (schar c =? 34) && negb (schar c =? 36)
   && negb (schar c =? 43) && negb (schar c =? 10) && match simple_token (schar c) with None => true | Some _ => false end).

Lemma plain_char c : plain c = true ->
  (schar c =? -1) = false /\ is_whitespace (schar c) = false /\ in_chars not_in_unquoted_text (schar c) = false
  /\ (schar c =? 35) = false /\ (schar c =? 47) = false /\ (schar c =? 34) = false /\ (schar c =? 36) = false
  /\ (schar c =? 43) = false /\ (schar c =? 10) = false /\ simple_token (schar c) = None.
Proof.
  intros Hp. pose proof (forall_ascii_spec plain_facts ltac:(vm_compute; reflexivity) c) as Hf.
  unfold plain_facts in Hf. rewrite Hp in Hf. change (negb true) with false in Hf. rewrite orb_false_l in Hf.
  bool_to_prop. destruct (simple_token (schar c)); [done|].
  rewrite !Z.eqb_neq. split_and!; done.
Qed.

Lemma start_of_comment_plain (z : Z) s :
  (z =? -1) = false -> (z =? 35) = false -> (z =? 47) = false -> start_of_comment z s = (Ok false, s).
Proof.
  intros H1 H2 H3. unfold start_of_comment, se_bind, se_get. rewrite H1, H2, H3. by destruct (allow_comments s).
Qed.

(** The code point at the head of a text. *)
Definition head_code (w : str) : Z := match w with [] => -1 | c :: _ => schar c end.

(** A text after which unquoted text stops. *)
Definition stops (w : str) : Prop := w = [] \/ head w = Some dquote \/ exists c, head w = Some c /\ is_space c = true.

Lemma read_head k s w :
  sees k s w -> exists s', next_char_raw s = (Ok (head_code w), s') /\ sees (pred k) s' (tl w) /\ same_context s s'.
Proof. destruct w; [apply read_nil|apply read_cons]. Qed.

Lemma unread_head k s w :
  sees k s (tl w) -> (k <= 2)%nat ->
  exists s', put_back (head_code w) s = (Ok tt, s') /\ sees (S k) s' w /\ same_context s s'.
Proof. destruct w; [apply unread_nil|apply unread_cons]. Qed.

Lemma stops_end s w :
  stops w -> ends_unquoted (head_code w) s = (Ok true, s).
Proof.
  intros [->|[Hw|(c & Hw & Hc)]]; [done| |]; destruct w as [|d w]; try done; simpl in Hw; simplify_eq; simpl head_code.
  - done.
  - unfold ends_unquoted. destruct (schar c =? -1); [done|]. destruct (in_chars _ _); [done|].
    unfold is_whitespace, is_space in *. by rewrite Hc.
Qed.

Lemma plain_goes_on c s : plain c = true -> ends_unquoted (schar c) s = (Ok false, s).
Proof.
  intros Hp. destruct (plain_char c Hp) as (H1 & H2 & H3 & H4 & H5 & _). unfold ends_unquoted.
  rewrite H1, H3, H2. by apply start_of_comment_plain.
Qed.

(** The loop holds the head of [x ++ w] and takes all of [x]. *)
Lemma unquoted_run x w acc k s fuel origin :
  Forall (fun c => plain c = true) x -> stops w ->
  (forall n, (0 < n <= length x)%nat -> keyword (acc ++ take n x) = None) ->
  sees k s (tl (x ++ w)) -> (k <= 1)%nat -> (length x < fuel)%nat ->
  exists s', unquoted_loop fuel origin acc (head_code (x ++ w)) s = (Ok (UnquotedTextToken (acc ++ x) origin), s')
    /\ sees 2 s' w /\ same_context s s'.
Proof.
  revert acc k s fuel. induction x as [|c x IH]; intros acc k s fuel Hx Hw Hk Hs Hk1 Hf;
    destruct fuel as [|fuel]; simpl in Hf; try lia; rewrite unquoted_step; unfold se_bind.
  - rewrite app_nil_l in *. rewrite (stops_end s w Hw).
    destruct (unread_head k s w Hs ltac:(lia)) as (s1 & Hu & Hs1 & Hc1). rewrite Hu, app_nil_r.
    exists s1. split; [done|]. split; [eapply sees_mono; eauto; lia|done].
  - inversion Hx as [|? ? Hc Hx']; subst. cbn [head_code app]. rewrite plain_goes_on by done. rewrite chr_schar.
    pose proof (Hk 1%nat ltac:(simpl; lia)) as Hk0. simpl in Hk0. rewrite take_0 in Hk0. rewrite Hk0.
    simpl in Hs. destruct (read_head k s (x ++ w) Hs) as (s1 & Hr & Hs1 & Hc1). rewrite Hr.
    destruct (IH (acc ++ [c]) (pred k) s1 fuel) as (s2 & E & Hs2 & Hc2); [done|done| |done|lia|lia|].
    { intros n Hn. rewrite <- app_assoc. apply (Hk (S n)). simpl. lia. }
    rewrite E, <- app_assoc. exists s2. split; [done|]. split; [done|by etrans].
Qed.

(** ... or stops right after a keyword. *)
Lemma keyword_run u v y acc k s fuel origin :
  Forall (fun c => plain c = true) u -> u <> [] ->
  (forall n, (0 < n < length u)%nat -> keyword (acc ++ take n u) = None) -> keyword (acc ++ u) = Some v ->
  sees k s (tl (u ++ y)) -> (k <= 1)%nat -> (length u <= fuel)%nat ->
  exists s', unquoted_loop fuel origin acc (head_code (u ++ y)) s = (Ok (ValueToken v origin), s')
    /\ sees 1 s' y /\ same_context s s'.
Proof.
  revert acc k s fuel. induction u as [|c u IH]; intros acc k s fuel Hx Hne Hk Hv Hs Hk1 Hf; [done|].
  destruct fuel as [|fuel]; simpl in Hf; try lia; rewrite unquoted_step; unfold se_bind.
  inversion Hx as [|? ? Hc Hx']; subst. cbn [head_code app]. rewrite plain_goes_on by done. rewrite chr_schar.
  destruct u as [|d u].
  - rewrite Hv. exists s. split; [done|]. split; [eapply sees_mono; eauto|done].
  - pose proof (Hk 1%nat ltac:(simpl; lia)) as Hk0. simpl in Hk0. rewrite Hk0.
    simpl in Hs. destruct (read_head k s ((d :: u) ++ y) Hs) as (s1 & Hr & Hs1 & Hc1).
    cbn [head_code app] in Hr. rewrite Hr.
    destruct (IH (acc ++ [c]) (pred k) s1 fuel) as (s2 & E & Hs2 & Hc2); [done|done| | |done|lia|lia|].
    { intros n Hn. rewrite <- app_assoc. apply (Hk (S n)). simpl in *. lia. }
    { by rewrite <- app_assoc. }
    cbn [head_code app] in E. rewrite E. exists s2. split; [done|]. split; [done|by etrans].
Qed.

(** Plain text that no number starts is left to [pull_unquoted_text]. *)
Lemma plain_start s c x' :
  plain c = true -> no_number c = true -> sees 2 s (c :: x') ->
  exists s' f, (forall fuel, pull_next_token (S fuel) s = unquoted_loop f (line_number s) [] (schar c) s')
    /\ sees 1 s' x' /\ same_context s s' /\ (length (c :: x') < f)%nat.
Proof.
  intros Hp Hn Hs. destruct (plain_char c Hp) as (H1 & H2 & H3 & H4 & H5 & H6 & H7 & H8 & H9 & H10).
  destruct (no_whitespace 2 s c x') as (s1 & Hr1 & Hs1 & Hc1); [by apply Z.eqb_neq|done|done|].
  destruct (unread_cons 1 s1 c x' Hs1 ltac:(lia)) as (s2 & Hu2 & Hs2 & Hc2).
  destruct (read_cons 2 s2 c x' Hs2) as (s3 & Hr3 & Hs3 & Hc3).
  exists s3, (loop_fuel s2). split_and!; [|done|by etrans; [|etrans]|apply sees_fuel in Hs2; lia].
  intros fuel. cbn [pull_next_token]. unfold se_bind at 1. rewrite Hr1, H1, H9.
  unfold token_from. unfold se_bind at 1. rewrite start_of_comment_plain by done.
  rewrite H6, H7, H8, H10. unfold no_number in Hn. apply negb_true_iff in Hn. rewrite Hn, H3.
  unfold se_bind at 1. rewrite Hu2. unfold pull_unquoted_text, fuelled, se_bind, se_get. rewrite Hr3.
  destruct Hc1 as [L1 _], Hc2 as [L2 _]. by rewrite L2, L1.
Qed.

(** The keyword a text starts with, and what follows it. *)
Definition kw_prefix (x : str) : option (str * scalar) :=
  match keyword (take 4 x) with
  | Some v => Some (take 4 x, v)
  | None => match keyword (take 5 x) with Some v => Some (take 5 x, v) | None => None end
  end.

Lemma keyword_length u v : keyword u = Some v -> (length u = 4 \/ length u = 5)%nat.
Proof. unfold keyword. repeat case_bool_decide; simpl; auto; done. Qed.

Lemma keyword_text u v : keyword u = Some v -> transform_to_string v = u /\ scalar_type v <> STRING.
Proof. unfold keyword. repeat case_bool_decide; intros; simplify_eq; done. Qed.

Lemma kw_prefix_none x n : kw_prefix x = None -> keyword (take n x) = None.
Proof.
  unfold kw_prefix. destruct (keyword (take 4 x)) eqn:E4; [done|]. destruct (keyword (take 5 x)) eqn:E5; [done|].
  intros _. destruct (keyword (take n x)) eqn:E; [|done]. apply keyword_length in E as Hl.
  rewrite length_take in Hl.
  assert (take n x = take 4 x \/ take n x = take 5 x) as [Ht|Ht]; [|congruence|congruence].
  destruct Hl as [Hl|Hl]; [left|right]; (destruct (decide (n <= length x)%nat);
    [f_equal; lia|rewrite !take_ge by lia; done]).
Qed.

Lemma kw_prefix_some x u v : kw_prefix x = Some (u, v) ->
  keyword u = Some v /\ exists y, x = u ++ y /\ u <> [] /\ (forall n, (n < length u)%nat -> keyword (take n u) = None).
Proof.
  unfold kw_prefix. intros Hk.
  assert (Hshort : forall m, keyword (take m x) = Some v -> (m <= 5)%nat ->
    (forall n, (n < m)%nat -> keyword (take n x) = None) ->
    exists y, x = take m x ++ y /\ take m x <> [] /\ (forall n, (n < length (take m x))%nat -> keyword (take n (take m x)) = None)).
  { intros m Hm Hm5 Hlt. exists (drop m x). split; [by rewrite take_drop|]. split.
    - intros E. rewrite E in Hm. done.
    - intros n Hn. rewrite length_take in Hn. rewrite take_take, Nat.min_l by lia. apply Hlt. lia. }
  assert (Hlen : forall n, (n < 4)%nat -> keyword (take n x) = None).
  { intros n Hn. destruct (keyword (take n x)) eqn:E; [|done]. apply keyword_length in E. rewrite length_take in E. lia. }
  destruct (keyword (take 4 x)) eqn:E4; simplify_eq; [split; [done|by apply Hshort; [|lia|]]|].
  destruct (keyword (take 5 x)) eqn:E5; simplify_eq. split; [done|]. apply Hshort; [done|lia|].
  intros n Hn. destruct (decide (n = 4)%nat) as [->|]; [done|]. apply Hlen. lia.
Qed.

(** What a run of plain text becomes: a keyword, or one unquoted token. *)
Lemma plain_token s c x w :
  Forall (fun c => plain c = true) (c :: x) -> no_number c = true -> stops w -> sees 2 s ((c :: x) ++ w) ->
  match kw_prefix (c :: x) with
  | Some (u, v) => exists y s', c :: x = u ++ y /\ u <> [] /\ keyword u = Some v
      /\ (forall fuel, pull_next_token (S fuel) s = (Ok (ValueToken v (line_number s)), s'))
      /\ sees 2 s' (y ++ w) /\ same_context s s'
  | None => exists s', (forall fuel, pull_next_token (S fuel) s = (Ok (UnquotedTextToken (c :: x) (line_number s)), s'))
      /\ sees 2 s' w /\ same_context s s'
  end.
Proof.
  intros Hx Hn Hw Hs. inversion Hx as [|? ? Hc Hx']; subst.
  destruct (plain_start s c (x ++ w) Hc Hn Hs) as (s1 & f & E & Hs1 & Hc1 & Hf).
  change (schar c) with (head_code ((c :: x) ++ w)) in E. simpl in Hf. rewrite length_app in Hf.
  destruct (kw_prefix (c :: x)) as [[u v]|] eqn:Ek.
  - destruct (kw_prefix_some _ _ _ Ek) as (Hv & y & Ey & Hu & Hlt). exists y.
    assert (Hl : (length u <= S (length x))%nat) by (apply (f_equal length) in Ey; rewrite length_app in Ey; simpl in Ey; lia).
    rewrite Ey, <- app_assoc in E.
    destruct (keyword_run u v (y ++ w) [] 1 s1 f (line_number s)) as (s2 & E2 & Hs2 & Hc2); try done; [| | |lia|].
    + rewrite Ey in Hx. by apply Forall_app in Hx as [? _].
    + intros n Hn'. apply Hlt. lia.
    + rewrite app_assoc, <- Ey. done.
    + exists s2. split_and!; try done; [intros fuel; by rewrite E|eapply sees_mono; eauto|by etrans].
  - destruct (unquoted_run (c :: x) w [] 1 s1 f (line_number s)) as (s2 & E2 & Hs2 & Hc2); try done; [|simpl; lia|].
    + intros n Hn'. by apply kw_prefix_none.
    + exists s2. split_and!; try done; [intros fuel; by rewrite E|by etrans].
Qed.

(** ** The token list of a text *)

(** [queue_next_token] with the fuel as an argument. *)
Definition queue_with (fuel : nat) : Tok (list token) :=
  let* t := pull_next_token fuel in
  let* s := se_get in
  let* ws := saver_check t (line_number s) in
  se_ret (append_ws ws [] ++ [t]).

(** Refilling the queue brings [t], whatever the fuel. *)
Definition refills (s : scan) (t : token) (s' : scan) : Prop :=
  forall fuel, queue_with (S fuel) s = (Ok [t], s').

Lemma refills_queue s t s' : refills s t s' -> queue_next_token s = (Ok [t], s').
Proof.
  intros Hr. change (queue_next_token s) with (queue_with (token_fuel s) s). unfold token_fuel.
  rewrite Nat.add_comm. apply Hr.
Qed.

(** [ts] are the tokens that refilling the queue brings from [s] on. *)
Inductive lexes : scan -> list token -> Prop :=
| lexes_end s s' : refills s T_END s' -> lexes s [T_END]
| lexes_token s s' t ts : refills s t s' -> t <> T_END -> lexes s' ts -> lexes s (t :: ts).

(** Only what [pull_next_token] delivers matters. *)
Lemma lexes_same_pull s1 s2 ts :
  (forall fuel, pull_next_token (S fuel) s1 = pull_next_token (S fuel) s2) -> lexes s2 ts -> lexes s1 ts.
Proof.
  intros Hp Hl. assert (Hq : forall t s', refills s2 t s' -> refills s1 t s').
  { intros t s' Hr fuel. specialize (Hr fuel). unfold queue_with, se_bind in *. by rewrite Hp. }
  destruct Hl; [eapply lexes_end|eapply lexes_token]; eauto.
Qed.

(** Lexing ends in the state [s'] after the tokens [ts]. *)
Definition lexes_to (s : scan) (ts : list token) (s' : scan) : Prop :=
  forall rest, lexes s' rest -> lexes s (ts ++ rest).

Lemma lexes_to_app s1 s2 s3 ts us : lexes_to s1 ts s2 -> lexes_to s2 us s3 -> lexes_to s1 (ts ++ us) s3.
Proof. intros H1 H2 rest Hr. rewrite <- app_assoc. auto. Qed.

(** A state at the start of a token, nothing saved. *)
Definition ready (s : scan) (w : str) : Prop := sees 2 s w /\ whitespace s = [].

Lemma queue_simple s s' t w :
  (forall fuel, pull_next_token (S fuel) s = (Ok t, s')) -> is_simple_value t = true ->
  whitespace s' = [] -> sees 2 s' w ->
  exists s2, refills s t s2 /\ ready s2 w.
Proof.
  intros Hp Ht Hws Hs. exists (with_saver true [] s'). split; [|by split].
  intros fuel. unfold queue_with, se_bind, se_get, se_ret. rewrite Hp. unfold saver_check. rewrite Ht.
  destruct (last_token_was_simple_value s') eqn:El; [|done].
  rewrite bool_decide_true by done. simpl. destruct s'; simpl in *. by subst.
Qed.

Lemma lexes_to_one s s' t : refills s t s' -> t <> T_END -> lexes_to s [t] s'.
Proof. intros Hq Ht rest Hr. by eapply lexes_token. Qed.

(** A text token, never END and never a quoted string. *)
Definition text_of (t : token) : option str :=
  match t with
  | ValueToken v _ => if bool_decide (scalar_type v = STRING) then None else Some (transform_to_string v)
  | UnquotedTextToken x _ => Some x
  | _ => None
  end.

Definition texts (ts : list token) (x : str) : Prop :=
  exists l, map text_of ts = map Some l /\ concat l = x.

(** Text that is cut into keywords and text without running into a number. *)
Inductive number_free : str -> Prop :=
| nf_nil : number_free []
| nf_text c x : no_number c = true -> kw_prefix (c :: x) = None -> number_free (c :: x)
| nf_keyword u v y : kw_prefix (u ++ y) = Some (u, v) -> number_free y -> number_free (u ++ y).

Lemma keyword_head u v y : keyword u = Some v -> exists c x, u ++ y = c :: x /\ no_number c = true.
Proof. unfold keyword. repeat case_bool_decide; intros; simplify_eq; eexists _, _; done. Qed.

Lemma text_run x w s :
  number_free x -> Forall (fun c => plain c = true) x -> stops w -> ready s (x ++ w) ->
  exists ts s', lexes_to s ts s' /\ ready s' w /\ texts ts x.
Proof.
  intros Hnf. revert s. induction Hnf as [|c x Hn Hk|u v y Hk Hy IH]; intros s Hx Hw [Hs Hws].
  - exists [], s. split; [by intros rest|]. split; [done|]. by exists [].
  - pose proof (plain_token s c x w Hx Hn Hw Hs) as Ht. rewrite Hk in Ht.
    destruct Ht as (s1 & E & Hs1 & (_ & _ & _ & Hw1)).
    destruct (queue_simple s s1 _ w E) as (s2 & Hq & Hr2); [done|congruence|done|].
    exists [UnquotedTextToken (c :: x) (line_number s)], s2. split; [by apply lexes_to_one|].
    split; [done|]. exists [c :: x]. simpl. by rewrite app_nil_r.
  - destruct (kw_prefix_some _ _ _ Hk) as (Hv & _).
    destruct (keyword_head u v y Hv) as (c & x & Ex & Hn).
    rewrite Ex in Hx, Hs. pose proof (plain_token s c x w Hx Hn Hw Hs) as Ht.
    rewrite <- Ex, Hk in Ht. destruct Ht as (y' & s1 & Ey & _ & _ & E & Hs1 & (_ & _ & _ & Hw1)).
    apply app_inv_head in Ey. subst y'.
    destruct (queue_simple s s1 _ (y ++ w) E) as (s2 & Hq & Hr2); [done|congruence|done|].
    destruct (IH s2) as (ts & s3 & Hl & Hr3 & (l & Hm & Hcat)); [|done|done|].
    { rewrite <- Ex in Hx. by apply Forall_app in Hx as [_ ?]. }
    exists (ValueToken v (line_number s) :: ts), s3. split; [|split; [done|]].
    + change (ValueToken v (line_number s) :: ts) with ([ValueToken v (line_number s)] ++ ts).
      eapply lexes_to_app; [by apply lexes_to_one|done].
    + destruct (keyword_text u v Hv) as [Htx Hty]. exists (u :: l). simpl.
      rewrite bool_decide_false by done. by rewrite Htx, Hm, Hcat.
Qed.

Lemma string_run e w s :
  no_eof e -> (e = [] -> head w <> Some dquote) -> ready s (render_json_string e ++ w) ->
  exists s', lexes_to s [ValueToken (ConfigString e) (line_number s)] s' /\ ready s' w.
Proof.
  intros He Hd [Hs Hws]. destruct (string_token 2 s e w He ltac:(lia) Hd Hs) as (s1 & E & Hs1 & (_ & _ & _ & Hw1)).
  destruct (queue_simple s s1 _ w E) as (s2 & Hq & Hr2); [done|congruence|done|].
  exists s2. split; [by apply lexes_to_one|done].
Qed.

(** ** White space, the end, and the whole stream *)

Definition blank (c : ascii) : Prop := is_space c = true /\ c <> "010"%char.

Lemma blank_skipped c : blank c -> (schar c =? -1) = false /\ is_whitespace_not_newline (schar c) = true.
Proof.
  intros [Hs Hn]. unfold is_whitespace_not_newline, is_space in *. rewrite Hs.
  assert ((schar c =? 10) = false) as ->.
  { apply Z.eqb_neq. change 10 with (schar "010"). intros E. by apply schar_inj in E. }
  split; [|done]. apply Z.eqb_neq. intros E. rewrite E in Hs. done.
Qed.

(** Blanks are skipped; they are saved only after a simple value. *)
Lemma skip_blanks a w k s f :
  Forall blank a -> sees k s (a ++ w) -> (length a < f)%nat ->
  exists s0, skip_whitespace f s = skip_whitespace (f - length a) s0 /\ sees k s0 w
    /\ line_number s0 = line_number s /\ last_token_was_simple_value s0 = last_token_was_simple_value s
    /\ (last_token_was_simple_value s = false -> whitespace s0 = whitespace s).
Proof.
  intros Ha. revert k s f. induction Ha as [|c a Hc Ha IH]; intros k s f Hs Hf.
  - exists s. by rewrite Nat.sub_0_r.
  - destruct f as [|f]; simpl in Hf; [lia|].
    destruct (read_cons k s c (a ++ w) Hs) as (s1 & Hr & Hs1 & (L1 & _ & T1 & W1)).
    destruct (blank_skipped c Hc) as [Hne Hw].
    set (s2 := if last_token_was_simple_value s1 then with_saver true (whitespace s1 ++ [chr (schar c)]) s1 else s1).
    assert (Hs2 : sees (pred k) s2 (a ++ w)) by (unfold s2; by destruct (last_token_was_simple_value s1)).
    destruct (IH (pred k) s2 f Hs2 ltac:(lia)) as (s0 & E & Hs0 & L0 & T0 & W0). exists s0.
    assert (line_number s2 = line_number s1) as L2 by (unfold s2; by destruct (last_token_was_simple_value s1)).
    assert (last_token_was_simple_value s2 = last_token_was_simple_value s1) as T2.
    { unfold s2; destruct (last_token_was_simple_value s1) eqn:E1; by rewrite ?E1. }
    split_and!; [|eapply sees_mono; eauto; lia|congruence|congruence|].
    + cbn [skip_whitespace]. unfold se_bind at 1. rewrite Hr, Hne, Hw. unfold saver_add, se_bind, se_modify.
      fold s2. by rewrite E.
    + intros Hlast. rewrite W0 by congruence. unfold s2. rewrite T1, Hlast. done.
Qed.

Lemma skip_end f s k : sees k s [] -> (0 < f)%nat -> exists s', skip_whitespace f s = (Ok (-1), s').
Proof.
  intros Hs Hf. destruct f as [|f]; [lia|]. destruct (read_nil k s Hs) as (s1 & Hr & _).
  exists s1. cbn [skip_whitespace]. unfold se_bind. by rewrite Hr.
Qed.

Lemma lexes_blank_end a s : Forall blank a -> sees 2 s a -> lexes s [T_END].
Proof.
  intros Ha Hs. rewrite <- (app_nil_r a) in Hs. pose proof (sees_fuel _ _ _ Hs) as Hf. rewrite app_nil_r in Hf.
  destruct (skip_blanks a [] 2 s (loop_fuel s) Ha Hs ltac:(lia)) as (s0 & E & Hs0 & _).
  destruct (skip_end (loop_fuel s - length a) s0 2 Hs0 ltac:(lia)) as (s1 & E1).
  eapply lexes_end. intros fuel. unfold queue_with. cbn [pull_next_token].
  unfold se_bind, se_get, next_char_after_whitespace, fuelled. by rewrite E, E1.
Qed.

(** Leading blanks before a text change nothing. *)
Lemma lexes_leading_blanks a c w s :
  Forall blank a -> schar c <> -1 -> is_space c = false -> sees 2 s (a ++ c :: w) ->
  last_token_was_simple_value s = false -> whitespace s = [] ->
  exists s0, ready s0 (c :: w) /\ (forall fuel, pull_next_token (S fuel) s = pull_next_token (S fuel) s0).
Proof.
  intros Ha Hne Hsp Hs Hl Hws. pose proof (sees_fuel _ _ _ Hs) as Hf. rewrite length_app in Hf. simpl in Hf.
  destruct (skip_blanks a (c :: w) 2 s (loop_fuel s) Ha Hs ltac:(lia)) as (s0 & E & Hs0 & _ & _ & W0).
  exists s0. split; [split; [done|rewrite W0; done]|]. intros fuel.
  cbn [pull_next_token]. unfold se_bind. unfold next_char_after_whitespace at 1, fuelled at 1. rewrite E.
  replace (next_char_after_whitespace s0) with (skip_whitespace (loop_fuel s - length a) s0); [done|].
  destruct (no_whitespace 2 s0 c w Hne Hsp Hs0) as (s1 & E1 & _). rewrite E1.
  destruct (read_cons 2 s0 c w Hs0) as (s2 & Hr & _).
  assert (skip_whitespace (loop_fuel s - length a) s0 = (Ok (schar c), s2) /\ s2 = s1) as [-> ->]; [|done].
  destruct (loop_fuel s - length a)%nat as [|f] eqn:Ef; [lia|].
  assert (Hone : forall f, skip_whitespace (S f) s0 = (Ok (schar c), s2)).
  { intros f'. cbn [skip_whitespace]. unfold se_bind. rewrite Hr. apply Z.eqb_neq in Hne. rewrite Hne.
    unfold is_whitespace_not_newline, is_space in *. by rewrite Hsp, andb_false_r. }
  split; [apply Hone|]. unfold next_char_after_whitespace, fuelled, loop_fuel in E1. rewrite Hone in E1. congruence.
Qed.

Lemma drain_refill fuel s s' t ts :
  t <> T_END -> queue_next_token s = (Ok ts, s') ->
  drain (S fuel) (mkStream s [t]) = (us ← drain fuel (mkStream s' ts); Ok (t :: us)).
Proof.
  intros Ht Hq. assert (Hend : is_end t = false) by (by destruct t). cbn [drain]. unfold has_next, next.
  cbn [tokens sc]. rewrite Hend, Hq. done.
Qed.

Lemma drain_lexes s t ts fuel :
  lexes s ts -> t <> T_END -> (length ts + 2 <= fuel)%nat -> drain fuel (mkStream s [t]) = Ok (t :: ts).
Proof.
  intros Hl. revert t fuel. induction Hl as [s s' Hq|s s' u ts Hq Hu Hl IH]; intros t fuel Ht Hf;
    (destruct fuel as [|fuel]; [simpl in Hf; lia|]); simpl in Hf; rewrite (drain_refill _ _ _ _ _ Ht (refills_queue _ _ _ Hq)).
  - by rewrite drain_end by lia.
  - by rewrite IH by (done || lia).
Qed.

Lemma drain_mono fuel k st l : drain fuel st = Ok l -> drain (fuel + k) st = Ok l.
Proof.
  revert st l. induction fuel as [|fuel IH]; intros st l; [done|]. cbn [plus drain].
  destruct (has_next st); [|done]. destruct (next st) as [[t|e] st']; [|done].
  destruct (drain fuel st') as [us|e] eqn:E; [|done]. by rewrite (IH _ _ E).
Qed.

(** The stream of a text is what [lexes] says. *)
Lemma tokenize_lexes text json ts :
  lexes (init_scan text (negb json)) ts ->
  drain (2 * length text + 3) (tokenize text json) = Ok (T_START :: ts).
Proof.
  intros Hl. destruct (drain_stream (2 * length text + 3) (length text) (tokenize text json)) as (us & E & _).
  { split; [|split; [done|by repeat constructor]]. unfold room, chars; simpl. lia. }
  { simpl. lia. }
  pose proof (drain_mono _ (length ts + 2) _ _ E) as E1.
  pose proof (drain_lexes _ T_START ts (2 * length text + 3 + (length ts + 2)) Hl ltac:(done) ltac:(lia)) as E2.
  unfold tokenize in *. rewrite E2 in E1. injection E1 as ->. exact E.
Qed.
End Lexing.
