(* ===== verification/PathParse.v ===== *)
(** * config/src/detail/parser.cpp, path expressions

    [Parser::parse_path] with its fast path, the path-expression parser over the
    token stream, and [ConfigImplUtil::split_path].  The token iterator is the
    list the tokenizer delivers ([drain]); [tokenize_total] shows it always does.
    Proved: the fast path agrees with the full parser, and rendering a path and
    parsing it gives the path back. *)

From S2P Require Import Prelude CLib Token Tokenizer TokenizerTotal Path Lexing.

Section PathParse.
Context `{DoubleLib}.

(** ** Definitions *)

(** [ConfigExceptionBadPath], by the message it carries. *)
Inductive bad_path :=
| GotNothing
| TokenNotAllowed (t : token)
| AdjacentPeriods
| PathBug (e : path_exn)
| TokenizerBug (e : tok_exn).

Record Element := mkElement { element : str; can_be_empty : bool }.

(** [buf]: the back of the source's vector is the head of the list. *)
Definition on_back (f : Element -> Element) (buf : list Element) : list Element :=
  match buf with [] => [] | e :: buf' => f e :: buf' end.

Definition add_text (was_quoted : bool) (new_text : str) (e : Element) : Element :=
  let text := element e ++ new_text in
  mkElement text (can_be_empty e || (was_quoted && bool_decide (text = []))).

Fixpoint add_path_loop (fuel : nat) (buf : list Element) (was_quoted : bool) (new_text : str) : list Element :=
  match (if was_quoted then None else find_char "." new_text), fuel with
  | Some i, S fuel' =>
      add_path_loop fuel'
        (mkElement [] false :: on_back (add_text false (take i new_text)) buf)
        false (drop (S i) new_text)
  | _, _ => on_back (add_text was_quoted new_text) buf
  end.

(** [Parser::add_path_text]: the text gets shorter at every recursive call. *)
Definition add_path_text (buf : list Element) (was_quoted : bool) (new_text : str) : list Element :=
  add_path_loop (length new_text) buf was_quoted new_text.

(** The token loop of [parse_path_expression]. *)
Fixpoint path_tokens (ts : list token) (buf : list Element) : res bad_path (list Element) :=
  match ts with
  | [] => Ok buf
  | t :: ts' =>
      match t with
      | ValueToken v _ =>
          path_tokens ts' (add_path_text buf (is_value_with_type t STRING) (transform_to_string v))
      | T_END => path_tokens ts' buf
      | UnquotedTextToken text _ => path_tokens ts' (add_path_text buf false text)
      | _ => Err (TokenNotAllowed t)
      end
  end.

Fixpoint build_path (es : list Element) (pb : PathBuilder) : res bad_path PathBuilder :=
  match es with
  | [] => Ok pb
  | e :: es' =>
      if bool_decide (element e = []) && negb (can_be_empty e) then Err AdjacentPeriods
      else match append_key (element e) pb with
           | Ok pb' => build_path es' pb'
           | Err x => Err (PathBug x)
           end
  end.

Definition parse_path_expression (expression : list token) : res bad_path (option Path) :=
  match expression with
  | [] => Err GotNothing
  | _ =>
      buf ← path_tokens expression [mkElement [] false];
      pb ← build_path (reverse buf) new_builder;
      Ok (result pb).1
  end.

Definition has_unsafe_chars (s : str) : bool :=
  existsb (fun c => negb (is_alpha c || Ascii.eqb c "."%char)) s.

Fixpoint append_path_string (fuel : nat) (s : str) (pb : PathBuilder) : res path_exn PathBuilder :=
  match find_char "." s, fuel with
  | Some split_at, S fuel' =>
      pb ← append_key (take split_at s) pb;
      append_path_string fuel' (drop (S split_at) s) pb
  | _, _ => append_key s pb
  end.

Definition speculative_fast_parse_path (path : str) : res path_exn (option Path) :=
  let s := trim_copy path in
  if bool_decide (s = []) then Ok None
  else if has_unsafe_chars s then Ok None
  else if starts_with $"." s || ends_with $"." s || contains s $".." then Ok None
  else pb ← append_path_string (length s) s new_builder; Ok (result pb).1.

(** The part of [parse_path] after the fast path: tokenize, drop START, parse. *)
Definition full_parse_path (path : str) : res bad_path (option Path) :=
  match drain (2 * length path + 3) (tokenize path false) with
  | Ok ts => parse_path_expression (drop 1 ts)
  | Err e => Err (TokenizerBug e)
  end.

Definition parse_path (path : str) : res bad_path (option Path) :=
  match speculative_fast_parse_path path with
  | Ok (Some p) => Ok (Some p)
  | Ok None => full_parse_path path
  | Err e => Err (PathBug e)
  end.

(** [ConfigImplUtil::split_path]. *)
Definition split_path (path : str) : res bad_path (list str) :=
  p ← parse_path path; Ok (ptr_elements p).

(** ** Elements character by character *)

Definition dot : ascii := "."%char.

Definition path_char (buf : list Element) (c : ascii) : list Element :=
  if Ascii.eqb c dot then mkElement [] false :: buf else on_back (add_text false [c]) buf.

Lemma on_back_app buf x y : on_back (add_text false y) (on_back (add_text false x) buf) = on_back (add_text false (x ++ y)) buf.
Proof.
  destruct buf as [|[e b] buf]; [done|]. unfold on_back, add_text; simpl. rewrite <- app_assoc.
  by rewrite !orb_false_r.
Qed.

Lemma on_back_nil buf : on_back (add_text false []) buf = buf.
Proof.
  destruct buf as [|[e b] buf]; [done|]. unfold on_back, add_text; simpl. by rewrite app_nil_r, orb_false_r.
Qed.

Lemma path_char_plain text buf :
  dot ∉ text -> fold_left path_char text buf = on_back (add_text false text) buf.
Proof.
  revert buf. induction text as [|c text IH]; intros buf Hd; simpl; [by rewrite on_back_nil|].
  assert (Hc : Ascii.eqb c dot = false) by (apply Ascii.eqb_neq; set_solver).
  rewrite IH by set_solver. unfold path_char. by rewrite Hc, on_back_app.
Qed.

Lemma add_path_loop_chars fuel text buf :
  (length text <= fuel)%nat -> add_path_loop fuel buf false text = fold_left path_char text buf.
Proof.
  revert text buf. induction fuel as [|fuel IH]; intros text buf Hl.
  - destruct text; simpl in Hl; [|lia]. simpl. by rewrite on_back_nil.
  - cbn [add_path_loop]. destruct (find_char "." text) as [i|] eqn:E.
    + apply find_char_Some in E as (Ht & Hnot & Hi). rewrite IH by (rewrite length_drop; lia).
      transitivity (fold_left path_char (take i text ++ dot :: drop (S i) text) buf);
        [|by change dot with "."%char; rewrite <- Ht].
      by rewrite fold_left_app, (path_char_plain (take i text)) by done.
    + apply find_char_None in E. by rewrite path_char_plain.
Qed.

Lemma add_unquoted buf text : add_path_text buf false text = fold_left path_char text buf.
Proof. by apply add_path_loop_chars. Qed.

Lemma add_quoted buf text : add_path_text buf true text = on_back (add_text true text) buf.
Proof. unfold add_path_text. by destruct (length text). Qed.

(** The elements a text is split into. *)
Fixpoint split_dots (s : str) : str * list str :=
  match s with
  | [] => ([], [])
  | c :: s' => let '(e, es) := split_dots s' in
               if Ascii.eqb c dot then ([], e :: es) else (c :: e, es)
  end.

Definition plain_element (e : str) : Element := mkElement e false.

Lemma path_char_split text cur b buf :
  fold_left path_char text (mkElement cur b :: buf) =
  reverse (map plain_element (split_dots text).2) ++ mkElement (cur ++ (split_dots text).1) b :: buf.
Proof.
  revert cur b buf. induction text as [|c text IH]; intros cur b buf; simpl; [by rewrite app_nil_r|].
  destruct (split_dots text) as [e es] eqn:E. unfold path_char at 2. destruct (Ascii.eqb c dot); simpl.
  - rewrite IH. simpl. rewrite reverse_cons, <- app_assoc, app_nil_r. done.
  - unfold add_text; simpl. rewrite orb_false_r, IH, <- app_assoc. done.
Qed.

Lemma append_path_string_holds fuel s pb l :
  (length s <= fuel)%nat -> holds pb l ->
  exists pb', append_path_string fuel s pb = Ok pb' /\ holds pb' (l ++ (split_dots s).1 :: (split_dots s).2).
Proof.
  assert (Hnodot : forall x, dot ∉ x -> split_dots x = (x, [])).
  { clear. induction x as [|c x IH]; intros Hd; [done|]. simpl. rewrite IH by set_solver.
    assert (Ascii.eqb c dot = false) as -> by (apply Ascii.eqb_neq; set_solver). done. }
  assert (Hdot : forall x y, dot ∉ x -> split_dots (x ++ dot :: y) = (x, (split_dots y).1 :: (split_dots y).2)).
  { clear. induction x as [|c x IH]; intros y Hd; simpl; [by destruct (split_dots y)|].
    rewrite IH by set_solver. assert (Ascii.eqb c dot = false) as -> by (apply Ascii.eqb_neq; set_solver). done. }
  revert s pb l. induction fuel as [|fuel IH]; intros s pb l Hl Hp.
  - destruct s; simpl in Hl; [|lia]. simpl. by apply append_key_holds.
  - cbn [append_path_string]. destruct (find_char "." s) as [i|] eqn:E.
    + apply find_char_Some in E as (Hs & Hnot & Hi).
      destruct (append_key_holds pb l (take i s) Hp) as (pb1 & -> & Hp1). simpl mbind.
      destruct (IH (drop (S i) s) pb1 _ ltac:(rewrite length_drop; lia) Hp1) as (pb2 & -> & Hp2).
      exists pb2. split; [done|]. rewrite Hs, Hdot by done. simpl. by rewrite <- app_assoc in Hp2.
    + apply find_char_None in E. rewrite (Hnodot s E). by apply append_key_holds.
Qed.

Lemma build_path_holds es pb l :
  Forall (fun e => element e = [] -> can_be_empty e = true) es -> holds pb l ->
  exists pb', build_path es pb = Ok pb' /\ holds pb' (l ++ map element es).
Proof.
  intros Hes. revert pb l. induction Hes as [|e es He Hes IH]; intros pb l Hp; simpl.
  - exists pb. by rewrite app_nil_r.
  - assert (bool_decide (element e = []) && negb (can_be_empty e) = false) as ->.
    { case_bool_decide; [|done]. simpl. by rewrite He. }
    destruct (append_key_holds pb l (element e) Hp) as (pb1 & -> & Hp1).
    destruct (IH pb1 _ Hp1) as (pb2 & E & Hp2). exists pb2. split; [done|]. by rewrite <- app_assoc in Hp2.
Qed.

(** Tokens of unquoted text add their concatenation. *)
Lemma path_tokens_texts ts x rest buf :
  texts ts x -> path_tokens (ts ++ rest) buf = path_tokens rest (add_path_text buf false x).
Proof.
  intros (l & Hm & <-). revert l buf Hm. induction ts as [|t ts IH]; intros [|y l] buf Hm; simpl in Hm; simplify_eq.
  - simpl. rewrite add_unquoted. done.
  - simpl concat. assert (Hstep : path_tokens ((t :: ts) ++ rest) buf = path_tokens (ts ++ rest) (add_path_text buf false y)).
    { destruct t; simpl in *; simplify_eq; [|done]. case_bool_decide; simplify_eq. done. }
    rewrite Hstep, (IH l) by done. by rewrite !add_unquoted, fold_left_app.
Qed.

(** ** The fast path *)

Lemma split_dots_empty s :
  ((split_dots s).1 = [] -> s = [] \/ exists r, s = dot :: r)
  /\ ([] ∈ (split_dots s).2 -> (exists r, s = r ++ [dot]) \/ (exists a b, s = a ++ [dot; dot] ++ b)).
Proof.
  induction s as [|c s [IH1 IH2]]; simpl; [split; [auto|set_solver]|].
  destruct (split_dots s) as [e es]. simpl in *. destruct (Ascii.eqb_spec c dot) as [->|Hc]; simpl.
  - split; [eauto|]. intros [He|He]%elem_of_cons.
    + destruct (IH1 (eq_sym He)) as [->|[r ->]]; [left; by exists []|right; by exists [], r].
    + destruct (IH2 He) as [[r ->]|(a & b & ->)]; [left; by exists (dot :: r)|right; by exists (dot :: a), b].
  - split; [done|]. intros He.
    destruct (IH2 He) as [[r ->]|(a & b & ->)]; [left; by exists (c :: r)|right; by exists (c :: a), b].
Qed.

Lemma no_empty_elements s :
  s <> [] -> starts_with $"." s = false -> ends_with $"." s = false -> contains s $".." = false ->
  Forall (fun e => e <> []) ((split_dots s).1 :: (split_dots s).2).
Proof.
  intros Hne Hs He Hc. destruct (split_dots_empty s) as [H1 H2]. constructor.
  - intros E. destruct (H1 E) as [?|[r ->]]; [done|].
    assert (starts_with $"." (dot :: r) = true) by (apply starts_with_spec; by exists r). congruence.
  - apply list.Forall_forall. intros e Hin ->. destruct (H2 Hin) as [[r ->]|(a & b & ->)].
    + assert (ends_with $"." (r ++ [dot]) = true) by (apply ends_with_spec; by exists r). congruence.
    + assert (contains (a ++ [dot; dot] ++ b) $".." = true) by (apply contains_spec; by exists a, b). congruence.
Qed.

Definition safe_char (c : ascii) : bool := is_alpha c || Ascii.eqb c dot.

Lemma safe_plain c : safe_char c = true -> plain c = true /\ no_number c = true /\ is_space c = false.
Proof.
  intros Hs. by_ascii c (fun c => implb (safe_char c) (plain c && no_number c && negb (is_space c))).
  rewrite Hs in H0. simpl in H0. apply andb_true_iff in H0 as [H1 H2]. apply andb_true_iff in H1 as [? ?].
  by apply negb_true_iff in H2.
Qed.

Lemma safe_number_free x : Forall (fun c => safe_char c = true) x -> number_free x.
Proof.
  remember (length x) as n eqn:Hn. revert x Hn. induction n as [n IH] using lt_wf_ind. intros [|c x] -> Hx; [constructor|].
  destruct (kw_prefix (c :: x)) as [[u v]|] eqn:Ek.
  - destruct (kw_prefix_some _ _ _ Ek) as (_ & y & Ey & Hu & _). rewrite Ey in *.
    apply (nf_keyword u v y); [done|]. apply (IH (length y)); [|done|by apply Forall_app in Hx as [_ ?]].
    rewrite length_app. destruct u; [done|]. simpl. lia.
  - constructor; [|done]. inversion Hx; subst. by apply safe_plain.
Qed.

Lemma trim_copy_split path :
  exists a b, path = a ++ trim_copy path ++ b /\ Forall (fun c => is_space c = true) a /\ Forall (fun c => is_space c = true) b.
Proof.
  unfold trim_copy. destruct (drop_while_end_split is_space (drop_while is_space path)) as (b & Hb & Hfb).
  exists (take_while is_space path), b. rewrite <- Hb, take_drop_while. auto using take_while_Forall.
Qed.

(** A path expression that is one run of text. *)
Lemma parse_text_run ts x :
  texts ts x -> Forall (fun e => e <> []) ((split_dots x).1 :: (split_dots x).2) ->
  parse_path_expression (ts ++ [T_END]) = Ok (of_elements ((split_dots x).1 :: (split_dots x).2)).
Proof.
  intros Ht Hx. unfold parse_path_expression.
  replace (match ts ++ [T_END] with [] => Err GotNothing | _ :: _ => _ end)
    with (buf ← path_tokens (ts ++ [T_END]) [mkElement [] false];
          pb ← build_path (reverse buf) new_builder; Ok (result pb).1) by (by destruct ts).
  rewrite (path_tokens_texts ts x) by done. cbn [path_tokens mbind res_bind].
  rewrite add_unquoted, path_char_split, reverse_app, reverse_involutive. simpl app.
  destruct (build_path_holds (mkElement (split_dots x).1 false :: map plain_element (split_dots x).2) new_builder [])
    as (pb & E & Hp); [|done|].
  { inversion Hx as [|? ? H1 H2]; subst. constructor; [done|]. apply List.Forall_map.
    eapply Forall_impl; [exact H2|]. done. }
  rewrite E. cbn [mbind res_bind]. rewrite (result_holds _ _ Hp). simpl. do 4 f_equal.
  rewrite map_map. by rewrite map_id.
Qed.

Lemma safe_chars x : has_unsafe_chars x = false -> Forall (fun c => safe_char c = true) x.
Proof.
  unfold has_unsafe_chars. induction x as [|c x IH]; simpl; [done|].
  intros [Hc Hx]%orb_false_iff. constructor; [by apply negb_false_iff in Hc|auto].
Qed.

(** Blank, plain text, blank: the full parser splits the text at the dots. *)
Lemma full_parse_text a x b :
  Forall blank a -> Forall blank b -> x <> [] -> Forall (fun c => safe_char c = true) x ->
  Forall (fun e => e <> []) ((split_dots x).1 :: (split_dots x).2) ->
  full_parse_path (a ++ x ++ b) = Ok (of_elements ((split_dots x).1 :: (split_dots x).2)).
Proof.
  intros Ha Hb Hx Hsafe Hel. unfold full_parse_path. destruct x as [|c x]; [done|].
  assert (Hs0 : sees 2 (init_scan (a ++ (c :: x) ++ b) true) (a ++ c :: x ++ b)).
  { eapply sees_mono; [apply sees_init|lia]. }
  assert (Hc : plain c = true /\ no_number c = true /\ is_space c = false) by (inversion Hsafe; by apply safe_plain).
  destruct Hc as (Hpc & _ & Hsp). destruct (plain_char c Hpc) as [Hne _]. apply Z.eqb_neq in Hne.
  destruct (lexes_leading_blanks a c (x ++ b) _ Ha Hne Hsp Hs0 eq_refl eq_refl) as (s1 & Hr1 & Hsame).
  destruct (text_run (c :: x) b s1) as (ts & s2 & Hl & [Hs2 _] & Ht).
  - by apply safe_number_free.
  - eapply Forall_impl; [exact Hsafe|]. intros d Hd. by apply safe_plain.
  - destruct b as [|d b]; [by left|]. right. right. exists d. inversion Hb as [|? ? [Hd _]]. by split.
  - done.
  - rewrite (tokenize_lexes _ false (ts ++ [T_END])).
    + simpl drop. by apply parse_text_run.
    + eapply lexes_same_pull; [exact Hsame|]. apply Hl. by apply (lexes_blank_end b).
Qed.

Lemma fast_path_full path p :
  speculative_fast_parse_path path = Ok (Some p) -> "010"%char ∉ path ->
  full_parse_path path = Ok (Some p).
Proof.
  unfold speculative_fast_parse_path. intros Hf Hnl.
  destruct (trim_copy_split path) as (a & b & Hpath & Ha & Hb). set (x := trim_copy path) in *.
  case_bool_decide as Hx0; [done|]. destruct (has_unsafe_chars x) eqn:Hsafe; [done|].
  destruct (starts_with $"." x || ends_with $"." x || contains x $"..") eqn:Hdots; [done|].
  apply orb_false_iff in Hdots as [[Hst Hen]%orb_false_iff Hco].
  destruct (append_path_string_holds (length x) x new_builder [] ltac:(done) holds_new) as (pb & E & Hp).
  rewrite E in Hf. cbn [mbind res_bind] in Hf. rewrite (result_holds _ _ Hp) in Hf. injection Hf as Hf.
  assert (Hblank : forall l, Forall (fun c => is_space c = true) l -> (forall c, c ∈ l -> c ∈ path) -> Forall blank l).
  { intros l Hl Hin. apply list.Forall_forall. intros c Hc. rewrite list.Forall_forall in Hl.
    split; [by apply Hl|]. intros ->. by apply Hnl, Hin. }
  rewrite Hpath, <- Hf. apply full_parse_text; auto using safe_chars, no_empty_elements.
  - apply Hblank; [done|]. intros c Hc. rewrite Hpath. set_solver.
  - apply Hblank; [done|]. intros c Hc. rewrite Hpath. set_solver.
Qed.

(** C29: whenever the fast path of [Parser::parse_path] answers, the tokenizer and
    the full parser would have given the same path, for a path text without line
    feeds (the trim accepts them, the full parser does not). *)
Theorem fast_path_agrees path p :
  speculative_fast_parse_path path = Ok (Some p) -> "010"%char ∉ path ->
  full_parse_path path = Ok (Some p).
Proof. apply fast_path_full. Qed.

(** ** Rendering and parsing *)

Definition quoted (e : str) : bool := has_funky_chars e || bool_decide (e = []).

Fixpoint render_elements (es : list str) : str :=
  match es with
  | [] => []
  | [e] => render_element e
  | e :: es' => render_element e ++ dot :: render_elements es'
  end.

Lemma render_elements_cons e es : es <> [] -> render_elements (e :: es) = render_element e ++ dot :: render_elements es.
Proof. by destruct es. Qed.

Lemma path_elements_nonempty p : path_elements p <> [].
Proof. by destruct p. Qed.

Lemma render_spec p : render p = render_elements (path_elements p).
Proof.
  unfold render. rewrite <- (app_nil_l (render_elements _)). generalize (@nil ascii) as acc.
  induction p as [f|f r IH]; intros acc; [done|]. cbn [append_to_stream path_elements].
  rewrite render_elements_cons by apply path_elements_nonempty. rewrite IH.
  by rewrite <- !app_assoc.
Qed.

(** *** Unquoted elements *)

Lemma raw_chars e : quoted e = false -> Forall (fun c => plain c = true /\ c <> dot) e.
Proof.
  unfold quoted, has_funky_chars. intros [Hf _]%orb_false_iff.
  destruct e as [|c e]; [done|]. destruct (is_alpha c) eqn:Ha; [|done]. simpl in Hf.
  constructor.
  - by_ascii c (fun c => implb (is_alpha c) (plain c && negb (Ascii.eqb c dot))).
    rewrite Ha in H0. simpl in H0. apply andb_true_iff in H0 as [? Hd]. split; [done|].
    by apply negb_true_iff, Ascii.eqb_neq in Hd.
  - apply list.Forall_forall. intros d Hd.
    assert (Hok : negb (is_alnum d || Ascii.eqb d "-"%char || Ascii.eqb d "_"%char) = false).
    { destruct (negb _) eqn:E; [|done]. rewrite <- Hf. symmetry. apply existsb_exists.
      exists d. split; [by apply list_elem_of_In|done]. }
    apply negb_false_iff in Hok.
    by_ascii d (fun d => implb (is_alnum d || Ascii.eqb d "-"%char || Ascii.eqb d "_"%char) (plain d && negb (Ascii.eqb d dot))).
    rewrite Hok in H0. simpl in H0. apply andb_true_iff in H0 as [? Hn]. split; [done|].
    by apply negb_true_iff, Ascii.eqb_neq in Hn.
Qed.

Lemma raw_render e : quoted e = false -> render_element e = e.
Proof. unfold render_element, quoted. by intros ->. Qed.
Lemma quoted_render e : quoted e = true -> render_element e = render_json_string e.
Proof. unfold render_element, quoted. by intros ->. Qed.

(** *** Text that stays free of numbers however it goes on *)

Definition stable (x : str) : Prop := forall r, number_free (x ++ r).

Lemma keyword_no_dot u v : keyword u = Some v -> dot ∉ u.
Proof. unfold keyword. repeat case_bool_decide; intros; simplify_eq; by apply (bool_decide_unpack _). Qed.

Lemma keyword_dotted x r n : kw_prefix x = None -> keyword (take n (x ++ dot :: r)) = None.
Proof.
  intros Hk. destruct (decide (n <= length x)%nat) as [Hn|Hn].
  - rewrite take_app_le by lia. by apply kw_prefix_none.
  - destruct (keyword (take n (x ++ dot :: r))) eqn:E; [|done]. apply keyword_no_dot in E.
    exfalso. apply E. rewrite take_app_ge by lia. destruct (n - length x)%nat eqn:Em; [lia|]. simpl. set_solver.
Qed.

Lemma kw_prefix_dotted x r : kw_prefix x = None -> kw_prefix (x ++ dot :: r) = None.
Proof. intros Hk. unfold kw_prefix. by rewrite !keyword_dotted. Qed.

Lemma kw_prefix_extend u v y z : kw_prefix (u ++ y) = Some (u, v) -> kw_prefix (u ++ z) = Some (u, v).
Proof.
  intros Hk. destruct (kw_prefix_some _ _ _ Hk) as (Hv & _ & _ & _ & Hlt). unfold kw_prefix.
  destruct (keyword_length u v Hv) as [Hl|Hl].
  - rewrite take_app_length' by done. by rewrite Hv.
  - rewrite take_app_le by lia. rewrite Hlt by lia. rewrite take_app_length' by done. by rewrite Hv.
Qed.

Lemma number_free_dotted x : number_free x -> stable (x ++ [dot]).
Proof.
  intros Hx r. rewrite <- app_assoc. simpl. induction Hx as [|c x Hn Hk|u v y Hk Hy IH].
  - simpl. constructor; [done|]. by apply (kw_prefix_dotted []).
  - constructor; [done|]. by apply (kw_prefix_dotted (c :: x)).
  - rewrite <- app_assoc. econstructor; [by eapply kw_prefix_extend|done].
Qed.

(** *** The tokens of a rendered path *)

Definition add_element (e : str) (buf : list Element) : list Element := on_back (add_text (quoted e) e) buf.

Fixpoint add_elements (es : list str) (buf : list Element) : list Element :=
  match es with
  | [] => buf
  | [e] => add_element e buf
  | e :: es' => add_elements es' (mkElement [] false :: add_element e buf)
  end.

Lemma add_elements_cons e es buf :
  es <> [] -> add_elements (e :: es) buf = add_elements es (mkElement [] false :: add_element e buf).
Proof. by destruct es. Qed.

Lemma add_elements_fresh es buf :
  es <> [] -> add_elements es (mkElement [] false :: buf) =
  reverse (map (fun e => mkElement e (bool_decide (e = []))) es) ++ buf.
Proof.
  assert (Hone : forall e buf, add_element e (mkElement [] false :: buf) = mkElement e (bool_decide (e = [])) :: buf).
  { intros e b. unfold add_element, add_text; simpl. do 2 f_equal. unfold quoted.
    destruct e; [done|]. rewrite !(bool_decide_false (_ :: _ = [])) by done. by rewrite andb_false_r. }
  revert buf. induction es as [|e es IH]; intros buf Hne; [done|]. destruct (decide (es = [])) as [->|Hes].
  - cbn [add_elements map]. by rewrite Hone.
  - rewrite add_elements_cons, Hone, IH by done. simpl. by rewrite reverse_cons, <- app_assoc.
Qed.

Lemma quoted_head e w : head (render_json_string e ++ w) = Some dquote.
Proof. done. Qed.

Lemma path_tokens_string e l ts buf :
  quoted e = true -> path_tokens (ValueToken (ConfigString e) l :: ts) buf = path_tokens ts (add_element e buf).
Proof. intros Hq. cbn [path_tokens]. unfold add_element. rewrite Hq, <- add_quoted. done. Qed.

Lemma raw_dots e buf : quoted e = false -> fold_left path_char e buf = add_element e buf.
Proof.
  intros Hq. unfold add_element. rewrite Hq. apply path_char_plain. intros Hd.
  pose proof (raw_chars e Hq) as Hr. rewrite list.Forall_forall in Hr. by destruct (Hr _ Hd).
Qed.

(** With text [x] pending, lexing the rest of a rendered path and adding its
    tokens adds [x] and the elements. *)
Lemma rendered_tokens es x s :
  es <> [] -> Forall no_eof es -> Forall (fun c => plain c = true) x ->
  (if quoted (hd [] es) then number_free x else number_free (x ++ hd [] es)) ->
  ready s (x ++ render_elements es) ->
  exists ts, lexes s (ts ++ [T_END])
    /\ forall buf, path_tokens (ts ++ [T_END]) buf = Ok (add_elements es (fold_left path_char x buf)).
Proof.
  revert x s. induction es as [|e es IH]; intros x s Hne Heof Hx Hnf Hr; [done|].
  inversion Heof as [|? ? He Hes]; subst. cbn [hd] in Hnf.
  destruct (quoted e) eqn:Hq.
  - set (tail := if decide (es = []) then [] else dot :: render_elements es).
    assert (Htext : render_elements (e :: es) = render_json_string e ++ tail).
    { unfold tail. destruct (decide (es = [])) as [->|Hn]; [simpl; by rewrite app_nil_r, quoted_render|].
      by rewrite render_elements_cons, quoted_render. }
    rewrite Htext in Hr.
    destruct (text_run x (render_json_string e ++ tail) s Hnf Hx) as (ts1 & s1 & Hl1 & Hr1 & Ht1);
      [by right; left|done|].
    destruct (string_run e tail s1 He) as (s2 & Hl2 & Hr2); [|done|].
    { intros _. unfold tail. by destruct (decide (es = [])). }
    pose proof (lexes_to_app _ _ _ _ _ Hl1 Hl2) as Hl. unfold tail in Hr2.
    destruct (decide (es = [])) as [->|Hn].
    + exists (ts1 ++ [ValueToken (ConfigString e) (line_number s1)]). split.
      * apply Hl. destruct Hr2. by apply (lexes_blank_end []).
      * intros buf. rewrite <- app_assoc, (path_tokens_texts _ x), add_unquoted by done. simpl app.
        by rewrite path_tokens_string.
    + destruct (IH [dot] s2) as (ts & Hlt & Htok); [done|done|by repeat constructor| |done|].
      { pose proof (number_free_dotted [] nf_nil) as Hst. destruct (quoted (hd [] es)); [apply (Hst [])|apply Hst]. }
      exists (ts1 ++ [ValueToken (ConfigString e) (line_number s1)] ++ ts). split.
      * rewrite app_assoc, <- app_assoc. by apply Hl.
      * intros buf. rewrite <- !app_assoc, (path_tokens_texts _ x), add_unquoted by done. simpl app.
        rewrite path_tokens_string, Htok, add_elements_cons by done. done.
  - assert (Hraw : Forall (fun c => plain c = true) e).
    { eapply Forall_impl; [by apply raw_chars|]. by intros c [? _]. }
    destruct (decide (es = [])) as [->|Hn].
    + cbn [render_elements] in Hr. rewrite raw_render in Hr by done. rewrite <- (app_nil_r (x ++ e)) in Hr.
      destruct (text_run (x ++ e) [] s Hnf) as (ts1 & s1 & Hl1 & [Hs1 _] & Ht1); [by apply Forall_app|by left|done|].
      exists ts1. split; [apply Hl1; by apply (lexes_blank_end [])|].
      intros buf. rewrite (path_tokens_texts _ (x ++ e)), add_unquoted, fold_left_app, raw_dots by done. done.
    + rewrite render_elements_cons, raw_render in Hr by done.
      pose proof (number_free_dotted _ Hnf) as Hst.
      destruct (IH ((x ++ e) ++ [dot]) s) as (ts & Hlt & Htok); [done|done| | | |].
      { apply Forall_app. split; [by apply Forall_app|by repeat constructor]. }
      { destruct (quoted (hd [] es)); [rewrite <- (app_nil_r (_ ++ [dot]))|]; apply Hst. }
      { rewrite <- !app_assoc. done. }
      exists ts. split; [done|]. intros buf. rewrite Htok, add_elements_cons by done.
      rewrite !fold_left_app, (raw_dots e) by done. done.
Qed.

Lemma full_parse_rendered es :
  es <> [] -> Forall no_eof es -> (has_funky_chars (hd [] es) = false -> number_free (hd [] es)) ->
  full_parse_path (render_elements es) = Ok (of_elements es).
Proof.
  intros Hne Heof Hnf. unfold full_parse_path.
  destruct (rendered_tokens es [] (init_scan (render_elements es) true)) as (ts & Hl & Htok); try done.
  { destruct (quoted (hd [] es)) eqn:Hq; [constructor|]. apply Hnf. by apply orb_false_iff in Hq as [? _]. }
  { split; [|done]. eapply sees_mono; [apply sees_init|lia]. }
  rewrite (tokenize_lexes _ false (ts ++ [T_END])) by done. simpl drop. unfold parse_path_expression.
  replace (match ts ++ [T_END] with [] => Err GotNothing | _ :: _ => _ end)
    with (buf ← path_tokens (ts ++ [T_END]) [mkElement [] false];
          pb ← build_path (reverse buf) new_builder; Ok (result pb).1) by (by destruct ts).
  rewrite Htok. cbn [mbind res_bind fold_left]. rewrite add_elements_fresh, app_nil_r, reverse_involutive by done.
  destruct (build_path_holds (map (fun e => mkElement e (bool_decide (e = []))) es) new_builder [])
    as (pb & E & Hp); [|done|].
  { apply List.Forall_map, list.Forall_true. intros e. simpl. intros ->. done. }
  rewrite E. cbn [mbind res_bind]. rewrite (result_holds _ _ Hp), map_map, map_id. done.
Qed.

Lemma render_no_newline es : "010"%char ∉ render_elements es.
Proof.
  assert (Hc : forall c, "010"%char ∉ json_char c).
  { intros c Hin. by_ascii c (fun c => negb (bool_decide ("010"%char ∈ json_char c))).
    apply negb_true_iff, bool_decide_eq_false in H0. done. }
  assert (He : forall e, "010"%char ∉ render_element e).
  { intros e. destruct (quoted e) eqn:Hq.
    - rewrite quoted_render by done. unfold render_json_string. intros Hin.
      rewrite !elem_of_app in Hin. destruct Hin as [Hin|[Hin|Hin]]; [set_solver| |set_solver].
      apply list_elem_of_In, in_concat in Hin as (l & (c & <- & _)%in_map_iff & Hin%list_elem_of_In). by apply (Hc c).
    - rewrite raw_render by done. pose proof (raw_chars e Hq) as Hr. rewrite list.Forall_forall in Hr.
      intros Hin. destruct (Hr _ Hin) as [Hp _]. done. }
  induction es as [|e es IH]; [set_solver|]. destruct (decide (es = [])) as [->|Hes]; [apply He|].
  rewrite render_elements_cons by done. specialize (He e). intros Hin.
  apply elem_of_app in Hin as [Hin|Hin]; [done|]. apply elem_of_cons in Hin as [?|Hin]; done.
Qed.

Lemma fast_path_total path : exists q, speculative_fast_parse_path path = Ok q.
Proof.
  unfold speculative_fast_parse_path. repeat (case_match; [by eexists|]).
  destruct (append_path_string_holds (length (trim_copy path)) (trim_copy path) new_builder [] ltac:(done) holds_new)
    as (pb & E & _). rewrite E. by eexists.
Qed.

Lemma parse_path_full path p :
  "010"%char ∉ path -> full_parse_path path = Ok (Some p) -> parse_path path = Ok (Some p).
Proof.
  intros Hnl Hf. unfold parse_path. destruct (fast_path_total path) as [[q|] E]; rewrite E; [|done].
  apply fast_path_full in E; [|done]. congruence.
Qed.

Lemma parse_rendered p :
  Forall no_eof (path_elements p) -> (has_funky_chars (first p) = false -> number_free (first p)) ->
  parse_path (render p) = Ok (Some p).
Proof.
  intros Heof Hnf. rewrite render_spec. apply parse_path_full; [apply render_no_newline|].
  rewrite full_parse_rendered; [|by destruct p|done|by destruct p].
  do 2 f_equal. symmetry. by apply (ptr_of_elements (Some p)).
Qed.

(** C8: a rendered path parses back to itself: [Parser::parse_path(p->render())] is
    [p] for keys of any characters but 0xFF (which the reader takes for the end of
    file), provided an unquoted first key does not run from true/false/null into
    something that starts like a number. *)
Theorem path_roundtrip p :
  Forall no_eof (path_elements p) -> (has_funky_chars (first p) = false -> number_free (first p)) ->
  parse_path (render p) = Ok (Some p).
Proof. apply parse_rendered. Qed.

(** [ConfigImplUtil::split_path] takes apart what [join_path] put together, under
    the same conditions on the keys. *)
Theorem split_join_path keys :
  keys <> [] -> Forall no_eof keys -> (has_funky_chars (hd [] keys) = false -> number_free (hd [] keys)) ->
  exists text, join_path keys = Ok text /\ split_path text = Ok keys.
Proof.
  intros Hne Heof Hnf. unfold join_path. rewrite path_of_keys_spec by done. cbn [mbind res_bind].
  set (p := make_path (hd [] keys) (of_elements (tl keys))).
  assert (Hel : path_elements p = keys) by (unfold p; rewrite elements_make, of_elements_spec; by destruct keys).
  exists (render p). split; [done|]. unfold split_path.
  rewrite (parse_path_full _ p); [cbn; by rewrite Hel| |].
  - rewrite render_spec. apply render_no_newline.
  - rewrite render_spec, Hel, full_parse_rendered by done. do 2 f_equal.
    symmetry. by apply (ptr_of_elements (Some p)).
Qed.
End PathParse.

(** ** Concrete runs *)

Lemma fast_path_agrees_witness :
  speculative_fast_parse_path $" ab.true " = Ok (Some (More $"ab" (One $"true")))
  /\ full_parse_path (H := whole_doubles) $" ab.true " = Ok (Some (More $"ab" (One $"true"))).
Proof.
  split; [vm_compute; reflexivity|].
  apply (fast_path_agrees (H := whole_doubles)); [vm_compute; reflexivity|].
  apply (bool_decide_unpack _). vm_compute. exact I.
Defined.

Definition odd_path : Path := More $"trueish" (More $"a b.c" (More [] (One $"x-1"))).

Lemma path_roundtrip_witness :
  render odd_path = $"trueish." ++ render_json_string $"a b.c" ++ $"." ++ render_json_string [] ++ $".x-1"
  /\ parse_path (H := whole_doubles) (render odd_path) = Ok (Some odd_path).
Proof.
  split; [vm_compute; reflexivity|]. apply (path_roundtrip (H := whole_doubles)).
  - apply (bool_decide_unpack _). vm_compute. exact I.
  - intros _. replace (first odd_path) with ($"true" ++ $"ish") by (vm_compute; reflexivity).
    eapply nf_keyword; [vm_compute; reflexivity|].
    replace (lit "ish") with ("i"%char :: lit "sh") by (vm_compute; reflexivity). apply nf_text; vm_compute; reflexivity.
Defined.

Lemma split_join_path_witness :
  exists text, join_path [$"a b"; []; $"k"] = Ok text
    /\ split_path (H := whole_doubles) text = Ok [$"a b"; []; $"k"].
Proof.
  apply (split_join_path (H := whole_doubles)); [done| |].
  - apply (bool_decide_unpack _). vm_compute. exact I.
  - intros Hf. vm_compute in Hf. discriminate Hf.
Defined.

(** The condition on the first key is needed: "true-" renders unquoted and is
    then read as the keyword and an invalid number. *)
Example keyword_dash_rejected :
  render (One $"true-") = $"true-"
  /\ parse_path (H := whole_doubles) $"true-" =
     Err (TokenNotAllowed (ProblemToken (H := whole_doubles) $"-" $"_invalid number: '-'" true 1)).
Proof. split; vm_compute; reflexivity. Qed.

(** ... and so is the one on 0xFF: the quoted key ends the input. *)
Example byte_255_rejected :
  exists e, parse_path (H := whole_doubles) (render (One ["255"%char])) = Err e.
Proof. eexists. vm_compute. reflexivity. Qed.

(** The trim of the fast path accepts a line feed that the full parser rejects. *)
Example newline_only_fast :
  parse_path (H := whole_doubles) ($"a" ++ ["010"%char]) = Ok (Some (One $"a"))
  /\ full_parse_path (H := whole_doubles) ($"a" ++ ["010"%char]) =
     Err (TokenNotAllowed (LineToken (H := whole_doubles) 1)).
Proof. split; vm_compute; reflexivity. Qed.
