(* ===== verification/ConfigTree.v ===== *)
(** * config/src/detail/{simple_config,default_transformer}.cpp

    The typed view of a resolved configuration: looking a path up, converting
    values, the getters, the set of entries and validation against a reference.
    A value is a tree; an object is the list of its entries in the (unspecified)
    iteration order of the source's [unordered_map].  Unresolved values
    ([ConfigExceptionNotResolved]) do not occur in a resolved tree. *)

From S2P Require Import Prelude CLib Token Units Tokenizer TokenizerTotal Path Lexing PathParse.

Open Scope Z_scope.

Section ConfigTree.
Context `{DoubleLib}.

(** ** Data *)

Inductive cvalue :=
| VScalar (v : scalar)
| VList (l : list cvalue)
| VObject (m : list (str * cvalue)).

Abbreviation cobject := (list (str * cvalue)).

Definition value_type (v : cvalue) : ConfigValueType :=
  match v with VScalar s => scalar_type s | VList _ => LIST | VObject _ => OBJECT end.

(** [unordered_map::find]. *)
Fixpoint obj_find (key : str) (o : cobject) : option cvalue :=
  match o with
  | [] => None
  | (k, v) :: o' => if bool_decide (k = key) then Some v else obj_find key o'
  end.

Inductive config_exn :=
| Missing (path : str)
| NullValue (path expected : str)
| WrongType (path expected actual : str)
| BadPath (e : bad_path)
| BadValue (e : bad_value)
| Undefined            (* signed overflow *)
| Bug (e : path_exn).

(** ** DefaultTransformer *)

Definition transform (value : cvalue) (requested : ConfigValueType) : cvalue :=
  match value with
  | VScalar (ConfigString s) =>
      match requested with
      | NUMBER =>
          match lexical_cast_int64 s with
          | Some v => VScalar (ConfigInt64 v s)
          | None => match lexical_cast_double s with
                    | Some v => VScalar (ConfigDouble v s)
                    | None => value
                    end
          end
      | NONE_TYPE => if bool_decide (s = $"null") then VScalar ConfigNull else value
      | BOOLEAN =>
          if bool_decide (s = $"true") || bool_decide (s = $"yes") || bool_decide (s = $"on")
          then VScalar (ConfigBoolean true)
          else if bool_decide (s = $"false") || bool_decide (s = $"no") || bool_decide (s = $"off")
          then VScalar (ConfigBoolean false)
          else value
      | LIST | OBJECT | STRING => value
      end
  | _ =>
      match requested, value with
      | STRING, VScalar v =>
          match scalar_type v with
          | NUMBER | BOOLEAN => VScalar (ConfigString (transform_to_string v))
          | _ => value
          end
      | _, _ => value
      end
  end.

(** ** Looking up *)

Definition is_none (t : ConfigValueType) : bool := bool_decide (t = NONE_TYPE).

(** [original_path->render()]. *)
Definition render_ptr (p : option Path) : res config_exn str :=
  match p with Some p => Ok (render p) | None => Err (Bug NullPath) end.

Definition find_key (self : cobject) (key : str) (expected : ConfigValueType)
    (original_path : option Path) : res config_exn cvalue :=
  match obj_find key self with
  | None => t ← render_ptr original_path; Err (Missing t)
  | Some v =>
      let v := if is_none expected then v else transform v expected in
      if is_none (value_type v) then
        t ← render_ptr original_path;
        Err (NullValue t (if is_none expected then [] else type_name expected))
      else if negb (is_none expected) && negb (bool_decide (value_type v = expected)) then
        t ← render_ptr original_path;
        Err (WrongType t (type_name expected) (type_name (value_type v)))
      else Ok v
  end.

(** [SimpleConfig::find(self, path, expected, original_path)]. *)
Fixpoint find (self : cobject) (path : Path) (expected : ConfigValueType) (original_path : Path)
    : res config_exn cvalue :=
  match path with
  | One key => find_key self key expected (Some original_path)
  | More key next =>
      match sub_path 0 (Z.to_nat (wrap_u32 (path_length original_path - path_length next))) original_path with
      | Err e => Err (Bug e)
      | Ok sub =>
          o ← find_key self key OBJECT sub;
          match o with
          | VObject m => find m next expected original_path
          | _ => Err (Bug NullPath)
          end
      end
  end.

(** [SimpleConfig::find(path_expression, expected)]. *)
Definition find_text (self : cobject) (path_expression : str) (expected : ConfigValueType) : res config_exn cvalue :=
  match parse_path path_expression with
  | Ok (Some path) => find self path expected path
  | Ok None => Err (Bug NullPath)
  | Err e => Err (BadPath e)
  end.

(** [peek_path] without a resolve context. *)
Fixpoint peek_path (self : cobject) (path : Path) : option cvalue :=
  match path with
  | One key => obj_find key self
  | More key next =>
      match obj_find key self with
      | Some (VObject m) => peek_path m next
      | _ => None
      end
  end.

Definition has_path (self : cobject) (path_expression : str) : res config_exn bool :=
  match parse_path path_expression with
  | Ok (Some path) => Ok (match peek_path self path with Some v => negb (is_none (value_type v)) | None => false end)
  | Ok None => Err (Bug NullPath)
  | Err e => Err (BadPath e)
  end.

(** ** Getters *)

Definition get_value (self : cobject) (path : str) : res config_exn cvalue := find_text self path NONE_TYPE.

Definition get_boolean (self : cobject) (path : str) : res config_exn bool :=
  v ← find_text self path BOOLEAN;
  match v with VScalar (ConfigBoolean b) => Ok b | _ => Err (Bug NullPath) end.

Definition get_config_number (self : cobject) (path : str) : res config_exn scalar :=
  v ← find_text self path NUMBER;
  match v with VScalar s => Ok s | _ => Err (Bug NullPath) end.

Definition get_int (self : cobject) (path : str) : res config_exn Z :=
  n ← get_config_number self path;
  match int_value_range_checked n with
  | Some z => Ok z
  | None => Err (WrongType path $"32-bit integer" ($"out-of-range value " ++ dec_string (from_option id 0 (int64_value n))))
  end.

(** [variant_int64] of what [unwrapped] returns. *)
Definition variant_int64 (v : scalar) : Z :=
  match v with
  | ConfigInt n _ | ConfigInt64 n _ => n
  | ConfigDouble d _ => double_to_int64 d
  | ConfigBoolean b => if b then 1 else 0
  | _ => 0
  end.

Definition get_int64 (self : cobject) (path : str) : res config_exn Z :=
  n ← get_config_number self path; Ok (variant_int64 n).

Definition get_string (self : cobject) (path : str) : res config_exn str :=
  v ← find_text self path STRING;
  match v with VScalar (ConfigString s) => Ok s | _ => Err (Bug NullPath) end.

Definition get_list (self : cobject) (path : str) : res config_exn (list cvalue) :=
  v ← find_text self path LIST;
  match v with VList l => Ok l | _ => Err (Bug NullPath) end.

Definition get_object (self : cobject) (path : str) : res config_exn cobject :=
  v ← find_text self path OBJECT;
  match v with VObject m => Ok m | _ => Err (Bug NullPath) end.

Definition lift_bad (r : res bad_value Z) : res config_exn Z :=
  match r with Ok z => Ok z | Err e => Err (BadValue e) end.

(** The number, or the string under a [catch (ConfigExceptionWrongType&)]. *)
Definition number_or_string (n : res config_exn Z) (s : res config_exn Z) : res config_exn Z :=
  match n with
  | Err (WrongType _ _ _) => s
  | _ => n
  end.

Definition get_bytes (self : cobject) (path : str) : res config_exn Z :=
  number_or_string (n ← get_int64 self path; Ok (wrap_u64 n))
    (s ← get_string self path; lift_bad (parse_bytes s)).

(** [int64_t * int]: the product in range. *)
Definition times_million (n : Z) : res config_exn Z :=
  let p := n * 1000000 in
  if (int64_min <=? p) && (p <=? int64_max) then Ok (wrap_u64 p) else Err Undefined.

Definition get_nanoseconds (self : cobject) (path : str) : res config_exn Z :=
  number_or_string (n ← get_int64 self path; times_million n)
    (s ← get_string self path; lift_bad (parse_duration s)).

Definition get_milliseconds (self : cobject) (path : str) : res config_exn Z :=
  n ← get_nanoseconds self path; Ok (n / 1000000).

(** [get_homogeneous_wrapped_list]. *)
Fixpoint homogeneous (l : list cvalue) (path : str) (expected : ConfigValueType) : res config_exn (list cvalue) :=
  match l with
  | [] => Ok []
  | cv :: l' =>
      let v := if is_none expected then cv else transform cv expected in
      if negb (bool_decide (value_type v = expected)) then
        Err (WrongType path ($"list of " ++ type_name expected) ($"list of " ++ type_name (value_type v)))
      else vs ← homogeneous l' path expected; Ok (v :: vs)
  end.

Definition get_homogeneous_wrapped_list (self : cobject) (path : str) (expected : ConfigValueType)
    : res config_exn (list cvalue) :=
  l ← get_list self path; homogeneous l path expected.

(** ** Entries *)

Definition path_under (parent : option Path) (elem : str) : res config_exn Path :=
  let path := make_path elem None in
  match parent with
  | None => Ok path
  | Some _ => match prepend parent path with
              | Ok (Some p) => Ok p
              | Ok None => Err (Bug NullPath)
              | Err e => Err (Bug e)
              end
  end.

(** [find_paths]: what is inserted into the set, in order. *)
Fixpoint find_paths (parent : option Path) (v : cvalue) {struct v} : res config_exn (list (str * cvalue)) :=
  match v with
  | VObject m =>
      (fix entries (es : cobject) : res config_exn (list (str * cvalue)) :=
         match es with
         | [] => Ok []
         | (elem, w) :: es' =>
             path ← path_under parent elem;
             here ← (match w with
                     | VObject _ => find_paths (Some path) w
                     | VScalar ConfigNull => Ok []
                     | _ => Ok [(render path, w)]
                     end);
             rest ← entries es';
             Ok (here ++ rest)
         end) m
  | _ => Ok []
  end.

Definition entry_set (object : cobject) : res config_exn (list (str * cvalue)) := find_paths None (VObject object).

(** ** Validation *)

Record ValidationProblem := mkProblem { vp_path : str; vp_problem : str }.

Definition get_desc (ref_value : cvalue) : str :=
  match ref_value with
  | VObject [] => $"object"
  | VObject m =>
      $"object with keys " ++
      fold_left (fun key_set kv => (if bool_decide (key_set = []) then [] else key_set ++ $", ") ++ fst kv) m []
  | VList _ => $"list"
  | VScalar _ => map (fun c => chr (tolower (schar c))) (type_name (value_type ref_value))
  end.

Definition missing_problem (ref_value : cvalue) (path : Path) : ValidationProblem :=
  mkProblem (render path) ($"_no setting at '" ++ render path ++ $"', expecting: " ++ get_desc ref_value).
Definition wrong_type_problem (ref_value actual : cvalue) (path : Path) : ValidationProblem :=
  mkProblem (render path)
    ($"_wrong value type at '" ++ render path ++ $"', expecting: " ++ get_desc ref_value
     ++ $" but got: " ++ get_desc actual).
Definition list_problem (ref_element e : cvalue) (path : Path) : ValidationProblem :=
  mkProblem (render path)
    ($"_list at '" ++ render path ++ $"' contains wrong value type, expecting list of " ++ get_desc ref_element
     ++ $" but got element of type " ++ get_desc e).

Definition could_be_null (v : cvalue) : bool := is_none (value_type (transform v NONE_TYPE)).

Definition is_config_string (v : cvalue) : bool := match v with VScalar (ConfigString _) => true | _ => false end.

Definition have_compatible_types (reference value : cvalue) : bool :=
  if could_be_null reference || could_be_null value then true
  else match reference with
       | VObject _ => match value with VObject _ => true | _ => false end
       | VList _ => match value with VList _ => true | _ => false end
       | VScalar _ =>
           if is_config_string reference then true
           else if is_config_string value then true
           else bool_decide (value_type reference = value_type value)
       end.

(** The element loop: one problem at most. *)
Fixpoint check_elements (path : Path) (ref_element : cvalue) (l : list cvalue) : list ValidationProblem :=
  match l with
  | [] => []
  | e :: l' => if negb (have_compatible_types ref_element e) then [list_problem ref_element e path]
               else check_elements path ref_element l'
  end.

(** [check_valid] and [check_valid_object]: the problems added, in order. *)
Fixpoint check_valid (path : option Path) (reference : cvalue) (value : cvalue) {struct reference}
    : res config_exn (list ValidationProblem) :=
  if have_compatible_types reference value then
    match reference, value with
    | VObject r, VObject v =>
        (fix check_entries (es : cobject) : res config_exn (list ValidationProblem) :=
           match es with
           | [] => Ok []
           | (key, ref_value) :: es' =>
               child_path ← path_under path key;
               here ← (match obj_find key v with
                       | None => Ok [missing_problem ref_value child_path]
                       | Some w => check_valid (Some child_path) ref_value w
                       end);
               rest ← check_entries es';
               Ok (here ++ rest)
           end) r
    | VList (ref_element :: _), VList list_value =>
        match path with
        | Some p => Ok (check_elements p ref_element list_value)
        | None => Err (Bug NullPath)
        end
    | _, _ => Ok []
    end
  else match path with
       | Some p => Ok [wrong_type_problem reference value p]
       | None => Err (Bug NullPath)
       end.

(** [SimpleConfig::check_valid(reference, restrict_to_paths)]. *)
Fixpoint check_paths (reference value : cobject) (paths : list str) : res config_exn (list ValidationProblem) :=
  match paths with
  | [] => Ok []
  | p :: paths' =>
      path ← (match parse_path p with
              | Ok (Some path) => Ok path
              | Ok None => Err (Bug NullPath)
              | Err e => Err (BadPath e)
              end);
      here ← (match peek_path reference path with
              | None => Ok []
              | Some ref_value =>
                  match peek_path value path with
                  | Some child => check_valid (Some path) ref_value child
                  | None => Ok [missing_problem ref_value path]
                  end
              end);
      rest ← check_paths reference value paths';
      Ok (here ++ rest)
  end.

Definition check_config (reference value : cobject) (restrict_to_paths : list str)
    : res config_exn (list ValidationProblem) :=
  if bool_decide (restrict_to_paths = []) then check_valid None (VObject reference) (VObject value)
  else check_paths reference value restrict_to_paths.

(** ** Looking up, by the tree *)

Definition coerce (v : cvalue) (expected : ConfigValueType) : cvalue :=
  if is_none expected then v else transform v expected.

(** A value a getter of this type answers with. *)
Definition accepts (v : cvalue) (expected : ConfigValueType) : bool :=
  negb (is_none (value_type (coerce v expected)))
  && (is_none expected || bool_decide (value_type (coerce v expected) = expected)).

(** The errors a lookup may end in: they name the path of some prefix. *)
Definition lookup_error (p : Path) (e : config_exn) : Prop :=
  exists q, path_elements q `prefix_of` path_elements p /\
    match e with
    | Missing t | NullValue t _ | WrongType t _ _ => t = render q
    | _ => False
    end.

Lemma find_key_spec self key expected o :
  match find_key self key expected (Some o) with
  | Ok w => exists v, obj_find key self = Some v /\ accepts v expected = true /\ w = coerce v expected
  | Err e => (forall v, obj_find key self = Some v -> accepts v expected = false)
             /\ match e with Missing t | NullValue t _ | WrongType t _ _ => t = render o | _ => False end
  end.
Proof.
  unfold find_key. destruct (obj_find key self) as [v|] eqn:E; [|simpl; split; [by intros|done]].
  unfold accepts. fold (coerce v expected).
  destruct (is_none (value_type (coerce v expected))) eqn:E1; simpl.
  { split; [|done]. intros v' Hv. simplify_eq. by rewrite E1. }
  destruct (negb (is_none expected) && negb (bool_decide (value_type (coerce v expected) = expected))) eqn:E2; simpl.
  - split; [|done]. intros v' Hv. simplify_eq. rewrite E1. simpl.
    apply andb_true_iff in E2 as [E2 E3]. apply negb_true_iff in E2, E3. by rewrite E2, E3.
  - exists v. split; [done|]. split; [|done]. rewrite E1. simpl.
    destruct (is_none expected); [done|]. simpl in *. by apply negb_false_iff in E2.
Qed.

Lemma accepts_object v : accepts v OBJECT = true -> exists m, v = VObject m.
Proof.
  unfold accepts, coerce. simpl. intros [_ Ht]%andb_true_iff. apply bool_decide_eq_true in Ht.
  destruct v as [[]| |m]; try done. by exists m.
Qed.

Lemma transform_object m : transform (VObject m) OBJECT = VObject m.
Proof. done. Qed.

(** [find] at a suffix [p] of the original path. *)
Lemma find_suffix self p expected original pre :
  path_elements original = pre ++ path_elements p -> Z.of_nat (length (path_elements original)) < 2 ^ 32 ->
  match find self p expected original with
  | Ok w => exists v, peek_path self p = Some v /\ accepts v expected = true /\ w = coerce v expected
  | Err e => (forall v, peek_path self p = Some v -> accepts v expected = false) /\ lookup_error original e
  end.
Proof.
  revert self pre. induction p as [key|key next IH]; intros self pre Ho Hlen; cbn [find peek_path].
  - pose proof (find_key_spec self key expected original) as Hk.
    destruct (find_key _ _ _ _) as [w|e]; [done|]. destruct Hk as [Hk He]. split; [done|]. by exists original.
  - simpl in Ho. assert (Hl : length (path_elements original) = (length pre + S (length (path_elements next)))%nat).
    { by rewrite Ho, length_app. }
    assert (Hn : (1 <= length (path_elements next))%nat) by (destruct next; simpl; lia).
    rewrite !path_length_spec. unfold wrap_u32.
    rewrite (Z.mod_small (Z.of_nat (length (path_elements original)))) by lia.
    rewrite (Z.mod_small (Z.of_nat (length (path_elements next)))) by lia. rewrite Z.mod_small by lia.
    replace (Z.to_nat _) with (S (length pre)) by lia.
    rewrite sub_path_indices. do 2 (rewrite bool_decide_false by lia). rewrite bool_decide_true by lia.
    rewrite drop_0, Nat.sub_0_r, Ho, take_app_ge by lia.
    replace (S (length pre) - length pre)%nat with 1%nat by lia. cbn [take]. rewrite take_0.
    destruct (of_elements (pre ++ [key])) as [q|] eqn:Eq.
    2:{ apply (f_equal ptr_elements) in Eq. rewrite of_elements_spec in Eq. by destruct pre. }
    assert (Hq : path_elements q = pre ++ [key]).
    { apply (f_equal ptr_elements) in Eq. rewrite of_elements_spec in Eq. done. }
    pose proof (find_key_spec self key OBJECT q) as Hk. destruct (find_key self key OBJECT (Some q)) as [w|e].
    + destruct Hk as (v & Hv & Hacc & ->). destruct (accepts_object v Hacc) as [m ->]. rewrite Hv.
      apply (IH m (pre ++ [key])); [|done]. by rewrite <- app_assoc.
    + destruct Hk as [Hno He]. cbn [mbind res_bind]. split.
      * intros v Hv. destruct (obj_find key self) as [[| |m]|] eqn:Ef; try done.
        specialize (Hno _ eq_refl). done.
      * exists q. split; [|done]. rewrite Hq, Ho. exists (path_elements next). by rewrite <- app_assoc.
Qed.

(** C31: looking a path up in a resolved configuration.  It answers exactly when the
    tree has a value there that the requested type accepts (after the conversions
    of [DefaultTransformer]), and with that value; otherwise it reports a missing,
    null or wrongly typed setting, naming a prefix of the path, and never fails in
    its own path arithmetic. *)
Theorem find_correct self p expected :
  Z.of_nat (length (path_elements p)) < 2 ^ 32 ->
  match find self p expected p with
  | Ok w => exists v, peek_path self p = Some v /\ accepts v expected = true /\ w = coerce v expected
  | Err e => (forall v, peek_path self p = Some v -> accepts v expected = false) /\ lookup_error p e
  end.
Proof. intros Hl. by apply (find_suffix self p expected p []). Qed.

(** ** Entries *)

Lemma cvalue_tree_ind (P : cvalue -> Prop) :
  (forall v, P (VScalar v)) -> (forall l, Forall P l -> P (VList l)) ->
  (forall m, Forall (fun kv => P kv.2) m -> P (VObject m)) -> forall v, P v.
Proof.
  intros Hs Hl Hm. fix IH 1. intros [v|l|m]; [apply Hs|apply Hl|apply Hm].
  - induction l as [|v l IHl]; constructor; [apply IH|exact IHl].
  - induction m as [|kv m IHm]; constructor; [apply IH|exact IHm].
Qed.

(** Objects hold every key once, at all levels. *)
Inductive wf : cvalue -> Prop :=
| wf_scalar v : wf (VScalar v)
| wf_list l : wf (VList l)
| wf_object m : NoDup (map fst m) -> Forall (fun kv => wf kv.2) m -> wf (VObject m).

(** What [entry_set] lists: neither objects nor nulls. *)
Definition leaf (v : cvalue) : bool :=
  match v with VObject _ | VScalar ConfigNull => false | _ => true end.

Lemma find_paths_nil parent : find_paths parent (VObject []) = Ok [].
Proof. done. Qed.

Lemma find_paths_cons parent elem w m :
  find_paths parent (VObject ((elem, w) :: m)) =
  (path ← path_under parent elem;
   here ← (match w with
           | VObject _ => find_paths (Some path) w
           | VScalar ConfigNull => Ok []
           | _ => Ok [(render path, w)]
           end);
   rest ← find_paths parent (VObject m);
   Ok (here ++ rest)).
Proof. done. Qed.

Lemma path_under_spec parent elem :
  exists p, path_under parent elem = Ok p /\ path_elements p = ptr_elements parent ++ [elem].
Proof.
  unfold path_under. destruct parent as [q|]; [|by eexists]. rewrite prepend_spec. cbn [path_elements make_path].
  destruct (of_elements (path_elements q ++ [elem])) as [p|] eqn:E.
  - exists p. split; [done|]. apply (f_equal ptr_elements) in E. rewrite of_elements_spec in E. done.
  - apply (f_equal ptr_elements) in E. rewrite of_elements_spec in E. by destruct (path_elements q).
Qed.

Lemma obj_find_notin key m : key ∉ map fst m -> obj_find key m = None.
Proof.
  induction m as [|[k v] m IH]; simpl; [done|]. intros Hn. rewrite bool_decide_false by set_solver.
  apply IH. set_solver.
Qed.

Lemma peek_path_cons k w m q :
  peek_path ((k, w) :: m) q =
  if bool_decide (k = first q) then
    match q with
    | One _ => Some w
    | More _ next => match w with VObject mw => peek_path mw next | _ => None end
    end
  else peek_path m q.
Proof. destruct q as [f|f next]; simpl; case_bool_decide; done. Qed.

(** The entries below [parent] are the leaves of the tree, under their paths. *)
Definition lists_leaves (parent : option Path) (m : cobject) (es : list (str * cvalue)) : Prop :=
  forall text x, (text, x) ∈ es <->
    exists q, text = render_elements (ptr_elements parent ++ path_elements q)
      /\ peek_path m q = Some x /\ leaf x = true.

(** The entries one member contributes. *)
Lemma member_entries parent elem w p here :
  path_elements p = ptr_elements parent ++ [elem] ->
  (match w with
   | VObject mw => lists_leaves (Some p) mw here
   | VScalar ConfigNull => here = []
   | _ => here = [(render p, w)]
   end) ->
  forall text x, (text, x) ∈ here <->
    exists q, first q = elem /\ text = render_elements (ptr_elements parent ++ path_elements q) /\ leaf x = true
      /\ match q with
         | One _ => Some w
         | More _ next => match w with VObject mw => peek_path mw next | _ => None end
         end = Some x.
Proof.
  intros Hp Hhere text x.
  assert (Hone : here = [(render p, w)] -> leaf w = true -> (forall mw, w <> VObject mw) ->
    (text, x) ∈ here <-> exists q, first q = elem /\ text = render_elements (ptr_elements parent ++ path_elements q)
      /\ leaf x = true /\ match q with One _ => Some w
         | More _ next => match w with VObject mw => peek_path mw next | _ => None end end = Some x).
  { intros -> Hleaf Hno. rewrite list_elem_of_singleton. split.
    - intros [= -> ->]. exists (One elem). by rewrite render_spec, Hp.
    - intros ([f|f next] & Hf & Ht & Hx & Hv); simpl in Hf; subst f.
      + injection Hv as <-. by rewrite Ht, render_spec, Hp.
      + by destruct w as [[]| |mw]. }
  destruct w as [[]|l|mw]; try (by apply Hone).
  - subst here. split; [set_solver|]. intros ([f|f next] & Hf & Ht & Hx & Hv); [|done]. injection Hv as <-. done.
  - rewrite (Hhere text x). split.
    + intros (q & Ht & Hv & Hx). exists (More elem q). split_and!; try done.
      rewrite Ht. cbn [ptr_elements from_option path_elements]. by rewrite Hp, <- app_assoc.
    + intros ([f|f next] & Hf & Ht & Hx & Hv); simpl in Hf; subst f; [injection Hv as <-; done|].
      exists next. split_and!; try done. rewrite Ht. cbn [ptr_elements from_option path_elements].
      by rewrite Hp, <- app_assoc.
Qed.

Lemma find_paths_leaves v : wf v -> forall parent m, v = VObject m ->
  exists es, find_paths parent v = Ok es /\ lists_leaves parent m es.
Proof.
  induction v as [v|l _|m IH] using cvalue_tree_ind; [done|done|]. intros Hwf parent m' [= <-].
  inversion Hwf as [| |? Hnd Hall]; subst. clear Hwf.
  induction m as [|[elem w] m IHm].
  - exists []. split; [done|]. intros text x. split; [set_solver|]. intros (q & _ & Hv & _). by destruct q.
  - inversion IH as [|? ? IHw IHrest]; subst. inversion Hnd as [|? ? Hni Hnd']; subst.
    inversion Hall as [|? ? Hw Hall']; subst. cbn [fst snd] in IHw, Hw, Hni.
    destruct (IHm IHrest Hnd' Hall') as (rest & Er & Hrest).
    destruct (path_under_spec parent elem) as (p & Ep & Hp).
    assert (exists here, (match w with VObject _ => find_paths (Some p) w | VScalar ConfigNull => Ok []
              | _ => Ok [(render p, w)] end) = Ok here
      /\ match w with VObject mw => lists_leaves (Some p) mw here | VScalar ConfigNull => here = []
         | _ => here = [(render p, w)] end) as (here & Eh & Hh).
    { destruct w as [[]|l|mw]; try (by eexists). by apply IHw. }
    exists (here ++ rest). rewrite find_paths_cons, Ep. cbn [mbind res_bind]. rewrite Eh. cbn [mbind res_bind].
    rewrite Er. split; [done|]. intros text x.
    rewrite elem_of_app, (member_entries parent elem w p here Hp Hh text x), (Hrest text x).
    setoid_rewrite peek_path_cons. split.
    + intros [(q & Hf & Ht & Hx & Hv)|(q & Ht & Hv & Hx)]; exists q; (split; [done|]); (split; [|done]).
      * by rewrite bool_decide_true.
      * rewrite bool_decide_false; [done|]. intros E. subst elem. apply obj_find_notin in Hni.
        destruct q; simpl in *; by rewrite Hni in Hv.
    + intros (q & Ht & Hv & Hx). case_bool_decide as Hf; [left|right]; exists q; split_and!; done.
Qed.

(** [entry_set] of a resolved configuration always exists and lists exactly its
    leaves, every value that is neither an object nor null, each under the text of
    its path. *)
Theorem entry_set_exact m :
  wf (VObject m) ->
  exists es, entry_set m = Ok es /\
    forall text x, (text, x) ∈ es <-> exists q, text = render q /\ peek_path m q = Some x /\ leaf x = true.
Proof.
  intros Hwf. destruct (find_paths_leaves _ Hwf None m eq_refl) as (es & E & Hes). exists es. split; [done|].
  intros text x. rewrite (Hes text x). by setoid_rewrite render_spec.
Qed.

(** The keys of a path can be written and read back. *)
Definition readable (q : Path) : Prop :=
  Forall no_eof (path_elements q) /\ (has_funky_chars (first q) = false -> number_free (first q))
  /\ Z.of_nat (length (path_elements q)) < 2 ^ 32.

Lemma leaf_not_none x : leaf x = true -> is_none (value_type x) = false.
Proof. destruct x as [[]| |]; done. Qed.


(** ** Validation *)

(** A value has the shape of the reference. *)
Inductive conforms : cvalue -> cvalue -> Prop :=
| conforms_object r v :
    (forall k ref_value, (k, ref_value) ∈ r -> exists w, obj_find k v = Some w /\ conforms ref_value w) ->
    conforms (VObject r) (VObject v)
| conforms_empty_list l : conforms (VList []) (VList l)
| conforms_list e r l : Forall (fun w => have_compatible_types e w = true) l -> conforms (VList (e :: r)) (VList l)
| conforms_other r v :
    have_compatible_types r v = true -> (forall a b, ~ (r = VObject a /\ v = VObject b)) ->
    (forall a b, ~ (r = VList a /\ v = VList b)) -> conforms r v.

Lemma check_valid_object_cons path key rv es v :
  check_valid path (VObject ((key, rv) :: es)) (VObject v) =
  (child_path ← path_under path key;
   here ← (match obj_find key v with
           | None => Ok [missing_problem rv child_path]
           | Some w => check_valid (Some child_path) rv w
           end);
   rest ← check_valid path (VObject es) (VObject v);
   Ok (here ++ rest)).
Proof. done. Qed.

Lemma check_elements_nil path e l :
  check_elements path e l = [] <-> Forall (fun w => have_compatible_types e w = true) l.
Proof.
  induction l as [|w l IH]; simpl; [done|]. destruct (have_compatible_types e w) eqn:E; simpl.
  - rewrite IH. split; [by constructor|by inversion 1].
  - split; [done|]. inversion 1; congruence.
Qed.

(** The problems of an object are none exactly when every member is there and has none. *)
Lemma check_members v es :
  Forall (fun kv => forall p w, exists ps, check_valid (Some p) kv.2 w = Ok ps /\ (ps = [] <-> conforms kv.2 w)) es ->
  forall path, exists ps, check_valid path (VObject es) (VObject v) = Ok ps
    /\ (ps = [] <-> forall k rv, (k, rv) ∈ es -> exists w, obj_find k v = Some w /\ conforms rv w).
Proof.
  intros Hes path. induction Hes as [|[key rv] es Hkv Hes IH].
  - exists []. split; [done|]. split; [|done]. intros _ k rv Hin. set_solver.
  - cbn [snd] in Hkv. destruct IH as (rest & Er & Hr). destruct (path_under_spec path key) as (p & Ep & _).
    assert (exists here, (match obj_find key v with None => Ok [missing_problem rv p]
              | Some w => check_valid (Some p) rv w end) = Ok here
      /\ (here = [] <-> exists w, obj_find key v = Some w /\ conforms rv w)) as (here & Eh & Hh).
    { destruct (obj_find key v) as [w|].
      - destruct (Hkv p w) as (ps & -> & Hps). exists ps. split; [done|]. rewrite Hps. split; [by exists w|].
        intros (w' & [= <-] & Hc). done.
      - eexists. split; [done|]. split; [done|]. by intros (w & ? & _). }
    exists (here ++ rest). rewrite check_valid_object_cons, Ep. cbn [mbind res_bind]. rewrite Eh. cbn [mbind res_bind].
    rewrite Er. split; [done|]. rewrite app_nil, Hh, Hr. split.
    + intros [H1 H2] k rv' [[= -> ->]|Hin]%elem_of_cons; [done|by apply H2].
    + intros Hall. split; [apply Hall; left|intros k rv' Hin; apply Hall; by right].
Qed.

(** Other than two objects or two lists: one test of the types. *)
Lemma check_plain p r v :
  (forall a b, ~ (r = VObject a /\ v = VObject b)) -> (forall a b, ~ (r = VList a /\ v = VList b)) ->
  exists ps, check_valid (Some p) r v = Ok ps /\ (ps = [] <-> conforms r v).
Proof.
  intros Ho Hl.
  assert (Hc : conforms r v <-> have_compatible_types r v = true).
  { split; [|by intros; apply conforms_other].
    destruct 1; [by destruct (Ho r v)|by destruct (Hl [] l)|by destruct (Hl (e :: r) l)|done]. }
  exists (if have_compatible_types r v then [] else [wrong_type_problem r v p]). rewrite Hc. split.
  - destruct r as [|[|e r]|r]; cbn [check_valid]; destruct (have_compatible_types _ v); try done;
      destruct v as [| |]; try done; [by destruct (Hl (e :: r) l)|by destruct (Ho r m)].
  - by destruct (have_compatible_types r v).
Qed.

Lemma check_valid_conforms r : forall p v,
  exists ps, check_valid (Some p) r v = Ok ps /\ (ps = [] <-> conforms r v).
Proof.
  induction r as [sc|l _|m IH] using cvalue_tree_ind; intros p v.
  - by apply check_plain; intros a b [? _].
  - destruct v as [sv|lv|mv]; [by apply check_plain; intros a b [? ?]| |by apply check_plain; intros a b [? ?]].
    cbn [check_valid]. change (have_compatible_types (VList l) (VList lv)) with true. cbn iota.
    destruct l as [|e r]; eexists; (split; [done|]); [split; [constructor|done]|].
    rewrite check_elements_nil. split; [by constructor|]. inversion 1 as [| | |? ? ? ? Hno]; subst; [done|].
    by destruct (Hno (e :: r) lv).
  - destruct v as [sv|lv|mv]; [by apply check_plain; intros a b [? ?]|by apply check_plain; intros a b [? ?]|].
    destruct (check_members mv m IH (Some p)) as (ps & E & Hps). exists ps. split; [done|]. rewrite Hps.
    split; [by constructor|]. inversion 1 as [| | |? ? ? Hno]; subst; [done|]. by destruct (Hno m mv).
Qed.


(** ** Getters *)

Lemma find_number m text p n t :
  parse_path text = Ok (Some p) -> Z.of_nat (length (path_elements p)) < 2 ^ 32 ->
  peek_path m p = Some (VScalar (ConfigInt n t)) -> get_int64 m text = Ok n.
Proof.
  intros Hp Hlen Hv. unfold get_int64, get_config_number, find_text. rewrite Hp.
  pose proof (find_suffix m p NUMBER p [] eq_refl Hlen) as Hf. destruct (find m p NUMBER p) as [w|e].
  - destruct Hf as (v & Hv' & _ & ->). rewrite Hv in Hv'. by simplify_eq.
  - destruct Hf as [Hno _]. by specialize (Hno _ Hv).
Qed.

(** A 32-bit number read as a duration counts milliseconds: [get_milliseconds]
    gives it back, and [get_nanoseconds] a million times as much; a negative number
    is turned into a duration of more than five centuries, because the result is
    unsigned. *)
Theorem milliseconds_of_number m text p n t :
  parse_path text = Ok (Some p) -> Z.of_nat (length (path_elements p)) < 2 ^ 32 ->
  peek_path m p = Some (VScalar (ConfigInt n t)) -> int32_min <= n <= int32_max ->
  get_nanoseconds m text = Ok (wrap_u64 (n * 1000000))
  /\ (0 <= n -> get_milliseconds m text = Ok n)
  /\ (n < 0 -> exists ms, get_milliseconds m text = Ok ms /\ 500 * 365 * 86400000 < ms).
Proof.
  intros Hp Hlen Hv Hn. unfold int32_min, int32_max in Hn.
  assert (Hns : get_nanoseconds m text = Ok (wrap_u64 (n * 1000000))).
  { unfold get_nanoseconds. rewrite (find_number m text p n t) by done. cbn [mbind res_bind].
    unfold times_million, int64_min, int64_max.
    rewrite (proj2 (Z.leb_le _ _)), (proj2 (Z.leb_le _ _)) by lia. done. }
  unfold get_milliseconds. rewrite Hns. cbn [mbind res_bind]. unfold wrap_u64. split_and!; [done| |].
  - intros H0. rewrite Z.mod_small by lia. by rewrite Z.div_mul.
  - intros H0. eexists. split; [done|].
    replace ((n * 1000000) mod 2 ^ 64) with (n * 1000000 + 2 ^ 64)
      by (apply (Zmod_unique _ _ (-1)); lia).
    assert (500 * 365 * 86400000 + 1 <= (n * 1000000 + 2 ^ 64) / 1000000); [|lia].
    apply Z.div_le_lower_bound; lia.
Qed.
End ConfigTree.

(** ** Concrete runs *)

Definition sample : list (str * cvalue (H := whole_doubles)) :=
  [($"server", VObject [($"host", VScalar (ConfigString $"localhost"));
                        ($"time out", VScalar (ConfigInt 30 $"30"));
                        ($"proxy", VScalar ConfigNull)]);
   ($"verbose", VScalar (ConfigString $"yes"))].

Definition host_path : Path := More $"server" (One $"time out").

Lemma find_correct_witness :
  exists w, find (H := whole_doubles) sample host_path STRING host_path = Ok w
    /\ w = VScalar (ConfigString $"30").
Proof.
  pose proof (find_correct (H := whole_doubles) sample host_path STRING) as Hf.
  specialize (Hf ltac:(apply (bool_decide_unpack _); vm_compute; exact I)).
  destruct (find sample host_path STRING host_path) as [w|e] eqn:E.
  - exists w. split; [reflexivity|]. destruct Hf as (v & Hv & _ & ->).
    vm_compute in Hv. injection Hv as <-. vm_compute. reflexivity.
  - vm_compute in E. discriminate E.
Defined.

Lemma sample_wf : wf (VObject sample).
Proof.
  constructor; [apply (bool_decide_unpack _); vm_compute; exact I|].
  repeat constructor; apply (bool_decide_unpack _); vm_compute; exact I.
Qed.

Lemma entry_set_exact_witness :
  exists es, entry_set sample = Ok es /\ length es = 3%nat.
Proof.
  destruct (entry_set_exact sample sample_wf) as (es & E & _). exists es. split; [exact E|].
  vm_compute in E. injection E as <-. reflexivity.
Defined.


Lemma milliseconds_of_number_witness :
  get_milliseconds sample (render host_path) = Ok 30.
Proof.
  destruct (milliseconds_of_number sample (render host_path) host_path 30 $"30") as (_ & Hms & _);
    [vm_compute; reflexivity|apply (bool_decide_unpack _); vm_compute; exact I|vm_compute; reflexivity
    |apply (bool_decide_unpack _); vm_compute; exact I|]. by apply Hms.
Defined.

(** Conversions: a string answers as a boolean, a null as nothing. *)
Example sample_getters :
  get_boolean sample $"verbose" = Ok true
  /\ get_int sample (render host_path) = Ok 30
  /\ get_string sample $"server.proxy" = Err (NullValue $"server.proxy" $"STRING")
  /\ get_string sample $"server.port" = Err (Missing $"server.port")
  /\ get_object sample $"verbose" = Err (WrongType $"verbose" $"OBJECT" $"STRING").
Proof. vm_compute. split_and!; reflexivity. Qed.
