(* ===== verification/Origin.v ===== *)
(** * config/src/detail/simple_config_origin.cpp

    Origins of values and how they are merged for error messages. *)

From S2P Require Import Prelude CLib.

Open Scope Z_scope.

(** ** Definitions *)

Inductive OriginType := GENERIC | FILE.
#[export] Instance OriginType_eq_dec : EqDecision OriginType.
Proof. solve_decision. Defined.

Record SimpleConfigOrigin := mkOrigin {
  description_ : str;
  line_number_ : Z;
  end_line_number : Z;
  origin_type : OriginType;
  comments_or_null : list str }.

#[export] Instance SimpleConfigOrigin_eq_dec : EqDecision SimpleConfigOrigin.
Proof. solve_decision. Defined.

(** "description may not be empty", or "can't merge empty list of origins". *)
Inductive origin_exn := EmptyDescription | EmptyStack.

Definition make_origin (description : str) (line end_line : Z) (t : OriginType) (comments : list str)
    : res origin_exn SimpleConfigOrigin :=
  if bool_decide (description = []) then Err EmptyDescription
  else Ok (mkOrigin description line end_line t comments).

Definition new_simple (description : str) : res origin_exn SimpleConfigOrigin := make_origin description (-1) (-1) GENERIC [].
Definition new_file (filename : str) : res origin_exn SimpleConfigOrigin := make_origin filename (-1) (-1) FILE [].

Definition set_line_number (line_number : Z) (o : SimpleConfigOrigin) : res origin_exn SimpleConfigOrigin :=
  if (line_number =? line_number_ o) && (line_number =? end_line_number o) then Ok o
  else make_origin (description_ o) line_number line_number (origin_type o) (comments_or_null o).

Definition set_comments (comments : list str) (o : SimpleConfigOrigin) : res origin_exn SimpleConfigOrigin :=
  if bool_decide (comments = comments_or_null o) then Ok o
  else make_origin (description_ o) (line_number_ o) (end_line_number o) (origin_type o) comments.

Definition description (o : SimpleConfigOrigin) : str :=
  if line_number_ o <? 0 then description_ o
  else if end_line_number o =? line_number_ o then description_ o ++ $": " ++ dec_string (line_number_ o)
  else description_ o ++ $": " ++ dec_string (line_number_ o) ++ $"-" ++ dec_string (end_line_number o).

Definition origin_equals (a b : SimpleConfigOrigin) : bool :=
  bool_decide (description_ a = description_ b) && (line_number_ a =? line_number_ b)
  && (end_line_number a =? end_line_number b) && bool_decide (origin_type a = origin_type b).

Definition filename (o : SimpleConfigOrigin) : str :=
  if bool_decide (origin_type o = FILE) then description_ o else [].

Definition merge_of_prefix : str := $"merge of ".

Definition strip_merge (d : str) : str :=
  if starts_with merge_of_prefix d then drop (length merge_of_prefix) d else d.

Definition merge_start (a b : Z) : Z := if a <? 0 then b else if b <? 0 then a else Z.min a b.

Definition merge_type (a b : OriginType) : OriginType := if bool_decide (a = b) then a else GENERIC.

Definition merge_two (a b : SimpleConfigOrigin) : res origin_exn SimpleConfigOrigin :=
  let merged_type := merge_type (origin_type a) (origin_type b) in
  let a_desc := strip_merge (description_ a) in
  let b_desc := strip_merge (description_ b) in
  let '(merged_desc, merged_start_line, merged_end_line) :=
    if bool_decide (a_desc = b_desc) then
      (a_desc, merge_start (line_number_ a) (line_number_ b), Z.max (end_line_number a) (end_line_number b))
    else
      (merge_of_prefix ++ strip_merge (description a) ++ $"," ++ strip_merge (description b), -1, -1) in
  let merged_comments :=
    if bool_decide (comments_or_null a = comments_or_null b) then comments_or_null a
    else comments_or_null a ++ comments_or_null b in
  make_origin merged_desc merged_start_line merged_end_line merged_type merged_comments.

Definition similarity (a b : SimpleConfigOrigin) : Z :=
  (if bool_decide (origin_type a = origin_type b) then 1 else 0)
  + (if bool_decide (description_ a = description_ b) then
       1 + (if line_number_ a =? line_number_ b then 1 else 0)
         + (if end_line_number a =? end_line_number b then 1 else 0)
     else 0).

Definition merge_three (a b c : SimpleConfigOrigin) : res origin_exn SimpleConfigOrigin :=
  if similarity b c <=? similarity a b then
    ab ← merge_two a b; merge_two ab c
  else
    bc ← merge_two b c; merge_two a bc.

(** [merge_origins(stack)]; the back of [remaining] is the head of [rev]. *)
Fixpoint merge_loop (fuel : nat) (rev : list SimpleConfigOrigin) : res origin_exn SimpleConfigOrigin :=
  match rev with
  | [] => Err EmptyStack
  | [o] => Ok o
  | [b; a] => merge_two a b
  | c :: b :: a :: rest =>
      match fuel with
      | O => Err EmptyStack
      | S fuel' => m ← merge_three a b c; merge_loop fuel' (m :: rest)
      end
  end.

Definition merge_origins (stack : list SimpleConfigOrigin) : res origin_exn SimpleConfigOrigin :=
  merge_loop (length stack) (reverse stack).

(** ** Merging origins of one file *)

Lemma merge_start_assoc a b c : merge_start (merge_start a b) c = merge_start a (merge_start b c).
Proof.
  unfold merge_start. destruct (Z.ltb_spec a 0), (Z.ltb_spec b 0), (Z.ltb_spec c 0); try done;
    repeat match goal with |- context [?x <? 0] => destruct (Z.ltb_spec x 0) end; lia.
Qed.

Lemma merge_type_assoc a b c : merge_type (merge_type a b) c = merge_type a (merge_type b c).
Proof. by destruct a, b, c. Qed.

(** What stays of an origin when comments are forgotten. *)
Definition place (o : SimpleConfigOrigin) : str * Z * Z * OriginType :=
  (description_ o, line_number_ o, end_line_number o, origin_type o).

(** A description that is not itself a merge. *)
Definition simple_desc (d : str) : Prop := d <> [] /\ starts_with merge_of_prefix d = false.

Lemma merge_two_same d a b :
  simple_desc d -> description_ a = d -> description_ b = d ->
  exists o, merge_two a b = Ok o /\
    place o = (d, merge_start (line_number_ a) (line_number_ b),
               Z.max (end_line_number a) (end_line_number b), merge_type (origin_type a) (origin_type b)).
Proof.
  intros [Hne Hs] Ha Hb. unfold merge_two, strip_merge. rewrite Ha, Hb, Hs.
  rewrite (bool_decide_true (d = d)) by done. unfold make_origin. rewrite bool_decide_false by done.
  eexists. split; done.
Qed.

(** Either association gives the same place. *)
Lemma merge_three_same d a b c :
  simple_desc d -> description_ a = d -> description_ b = d -> description_ c = d ->
  exists o, merge_three a b c = Ok o /\
    place o = (d, merge_start (line_number_ a) (merge_start (line_number_ b) (line_number_ c)),
               Z.max (end_line_number a) (Z.max (end_line_number b) (end_line_number c)),
               merge_type (origin_type a) (merge_type (origin_type b) (origin_type c))).
Proof.
  intros Hd Ha Hb Hc. unfold merge_three. destruct (_ <=? _).
  - destruct (merge_two_same d a b Hd Ha Hb) as (ab & -> & Hp). injection Hp as Hd1 Hl1 He1 Ht1. cbn [mbind res_bind].
    destruct (merge_two_same d ab c Hd Hd1 Hc) as (o & -> & Ho). exists o. split; [done|].
    rewrite Ho, Hl1, He1, Ht1. by rewrite merge_start_assoc, merge_type_assoc, Z.max_assoc.
  - destruct (merge_two_same d b c Hd Hb Hc) as (bc & -> & Hp). injection Hp as Hd1 Hl1 He1 Ht1. cbn [mbind res_bind].
    destruct (merge_two_same d a bc Hd Ha Hd1) as (o & -> & Ho). exists o. split; [done|].
    by rewrite Ho, Hl1, He1, Ht1.
Qed.

(** The places of a stack, back first, folded together. *)
Fixpoint merge_lines (o : SimpleConfigOrigin) (rest : list SimpleConfigOrigin) : Z * Z * OriginType :=
  match rest with
  | [] => (line_number_ o, end_line_number o, origin_type o)
  | a :: rest' =>
      let '(l, e, t) := merge_lines a rest' in
      (merge_start l (line_number_ o), Z.max e (end_line_number o), merge_type t (origin_type o))
  end.

Lemma merge_lines_place o o' rest : place o = place o' -> merge_lines o rest = merge_lines o' rest.
Proof. intros E. injection E as _ E1 E2 E3. destruct rest as [|a rest]; simpl; rewrite E1, E2, E3; done. Qed.

Lemma merge_lines_merge m o b rest :
  place m = (description_ o, merge_start (line_number_ b) (line_number_ o),
             Z.max (end_line_number b) (end_line_number o), merge_type (origin_type b) (origin_type o)) ->
  merge_lines m rest = merge_lines o (b :: rest).
Proof.
  intros E. injection E as _ E1 E2 E3. destruct rest as [|a rest]; simpl; rewrite E1, E2, E3; [done|].
  destruct (merge_lines a rest) as [[l e] t]. by rewrite merge_start_assoc, merge_type_assoc, Z.max_assoc.
Qed.

Lemma merge_loop_same d fuel o rest :
  simple_desc d -> Forall (fun o => description_ o = d) (o :: rest) -> (length rest <= fuel)%nat ->
  exists r, merge_loop fuel (o :: rest) = Ok r /\ description_ r = d
    /\ (line_number_ r, end_line_number r, origin_type r) = merge_lines o rest.
Proof.
  intros Hd. revert o rest. induction fuel as [|fuel IH]; intros c rest Hall Hf;
    destruct rest as [|b [|a rest]]; simpl in Hf; try lia;
    inversion Hall as [|? ? Hc Hall1]; subst; try (by exists c);
    inversion Hall1 as [|? ? Hb Hall2]; subst.
  - destruct (merge_two_same (description_ c) b c Hd Hb eq_refl) as (o & E & Hp).
    injection Hp as Hd1 Hl1 He1 Ht1. exists o. cbn [merge_loop]. rewrite E. split; [done|]. split; [done|].
    simpl. by rewrite Hl1, He1, Ht1.
  - inversion Hall2 as [|? ? Ha Hall3]; subst.
    destruct (merge_three_same (description_ c) a b c Hd Ha Hb eq_refl) as (m & E & Hp).
    injection Hp as Hd1 Hl1 He1 Ht1. cbn [merge_loop]. rewrite E. cbn [mbind res_bind].
    destruct (IH m rest) as (r & Er & Hdr & Hlr); [by constructor|lia|]. exists r. split; [done|]. split; [done|].
    rewrite Hlr. destruct rest as [|x rest]; simpl; rewrite Hl1, He1, Ht1;
      [by rewrite merge_start_assoc, merge_type_assoc, Z.max_assoc|].
    destruct (merge_lines x rest) as [[l e] t].
    by rewrite !merge_start_assoc, !merge_type_assoc, !Z.max_assoc.
Qed.

(** ** What the merged lines are *)

Lemma merge_lines_bounds o rest :
  let '(l, e, t) := merge_lines o rest in
  Forall (fun x => end_line_number x <= e) (o :: rest) /\ e ∈ map end_line_number (o :: rest)
  /\ (0 <= l -> l ∈ map line_number_ (o :: rest) /\ Forall (fun x => 0 <= line_number_ x -> l <= line_number_ x) (o :: rest))
  /\ (l < 0 -> Forall (fun x => line_number_ x < 0) (o :: rest)).
Proof.
  revert o. induction rest as [|a rest IH]; intros o; simpl.
  - split_and!; [by repeat constructor|left|intros _; split; [left|by repeat constructor]|by repeat constructor].
  - specialize (IH a). destruct (merge_lines a rest) as [[l e] t]. destruct IH as (H1 & H2 & H3 & H4).
    split_and!.
    + constructor; [lia|]. eapply Forall_impl; [exact H1|]. simpl. lia.
    + destruct (Z.max_spec e (end_line_number o)) as [[_ ->]|[_ ->]]; [left|right; done].
    + unfold merge_start. destruct (Z.ltb_spec l 0) as [Hl|Hl].
      * intros Ho. split; [left|]. constructor; [lia|]. eapply Forall_impl; [exact (H4 Hl)|]. simpl. lia.
      * destruct (H3 Hl) as [Hin Hall]. destruct (Z.ltb_spec (line_number_ o) 0) as [Ho|Ho].
        -- intros _. split; [by right|]. constructor; [lia|done].
        -- intros _. split; [destruct (Z.min_spec l (line_number_ o)) as [[_ ->]|[_ ->]]; [right; done|left]|].
           constructor; [lia|]. eapply Forall_impl; [exact Hall|]. simpl. lia.
    + unfold merge_start. destruct (Z.ltb_spec l 0) as [Hl|Hl].
      * intros Ho. constructor; [done|by apply H4].
      * destruct (Z.ltb_spec (line_number_ o) 0); lia.
Qed.

(** Merging origins that name one file: whatever order the similarity test
    merges them in, the result names that file, starts at the least line any of
    them knows and ends at the greatest end line. *)
Theorem merge_origins_same_file d stack :
  simple_desc d -> stack <> [] -> Forall (fun o => description_ o = d) stack ->
  exists r, merge_origins stack = Ok r /\ description_ r = d
    /\ Forall (fun x => end_line_number x <= end_line_number r) stack /\ end_line_number r ∈ map end_line_number stack
    /\ (0 <= line_number_ r -> line_number_ r ∈ map line_number_ stack
        /\ Forall (fun x => 0 <= line_number_ x -> line_number_ r <= line_number_ x) stack)
    /\ (line_number_ r < 0 -> Forall (fun x => line_number_ x < 0) stack).
Proof.
  intros Hd Hne Hall. unfold merge_origins.
  destruct (reverse stack) as [|o rest] eqn:E.
  { apply (f_equal reverse) in E. by rewrite reverse_involutive in E. }
  assert (Hstack : forall P : SimpleConfigOrigin -> Prop, Forall P stack <-> Forall P (o :: rest)).
  { intros P. rewrite <- E. by rewrite Forall_reverse. }
  assert (Hmap : forall (f : SimpleConfigOrigin -> Z) z, z ∈ map f stack <-> z ∈ map f (o :: rest)).
  { intros f z. rewrite <- E. rewrite !list_elem_of_In, !in_map_iff. setoid_rewrite <- list_elem_of_In.
    by setoid_rewrite elem_of_reverse. }
  destruct (merge_loop_same d (length stack) o rest Hd) as (r & Er & Hdr & Hlr); [by apply Hstack| |].
  { apply (f_equal length) in E. rewrite length_reverse in E. simpl in E. lia. }
  exists r. split; [done|]. split; [done|]. pose proof (merge_lines_bounds o rest) as Hb. rewrite <- Hlr in Hb.
  by rewrite !Hstack, !Hmap.
Qed.

Lemma merge_origins_same_file_witness :
  exists r, merge_origins [mkOrigin $"a.conf" 7 9 FILE []; mkOrigin $"a.conf" (-1) (-1) FILE [];
                           mkOrigin $"a.conf" 3 4 FILE []] = Ok r
    /\ line_number_ r = 3 /\ end_line_number r = 9.
Proof.
  destruct (merge_origins_same_file $"a.conf"
    [mkOrigin $"a.conf" 7 9 FILE []; mkOrigin $"a.conf" (-1) (-1) FILE []; mkOrigin $"a.conf" 3 4 FILE []])
    as (r & E & _); [split; [done|reflexivity]|done|by repeat constructor|].
  exists r. split; [exact E|]. vm_compute in E. injection E as <-. split; reflexivity.
Defined.

(** Origins of different files keep only a text. *)
Example merge_two_files :
  place <$> merge_two (mkOrigin $"a" 1 1 FILE []) (mkOrigin $"b" 2 5 FILE [])
  = Ok ($"merge of a: 1,b: 2-5", -1, -1, FILE).
Proof. vm_compute. reflexivity. Qed.
