(* ===== verification/Exceptions.v ===== *)
(** * config/{include,src}/config_exception: classes and messages

    The classes of the library's exceptions as a tree, what a handler catches, and
    the text of each exception.  [ConfigTree]'s errors are placed in the tree. *)

From S2P Require Import Prelude CLib Token Units Path PathParse Origin ConfigTree.

Open Scope Z_scope.

(** ** The classes *)

Inductive exception_class :=
| ConfigException | ConfigExceptionWrongType | ConfigExceptionMissing | ConfigExceptionNull
| ConfigExceptionBadValue | ConfigExceptionBadPath | ConfigExceptionBugOrBroken | ConfigExceptionIO
| ConfigExceptionParse | ConfigExceptionUnresolvedSubstitution | ConfigExceptionNotResolved
| ConfigExceptionValidationFailed | ConfigExceptionUnsupportedOperation | ConfigExceptionFileNotFound
| ConfigExceptionTokenizerProblem | ConfigExceptionGeneric.
#[export] Instance exception_class_eq_dec : EqDecision exception_class.
Proof. solve_decision. Defined.

(** The base class. *)
Definition base (c : exception_class) : option exception_class :=
  match c with
  | ConfigException => None
  | ConfigExceptionNull => Some ConfigExceptionMissing
  | ConfigExceptionUnresolvedSubstitution => Some ConfigExceptionParse
  | ConfigExceptionNotResolved => Some ConfigExceptionBugOrBroken
  | ConfigExceptionFileNotFound => Some ConfigExceptionIO
  | _ => Some ConfigException
  end.

(** [catch (handler&)] catches [thrown]: two steps up are enough. *)
Definition caught_by (thrown handler : exception_class) : bool :=
  bool_decide (thrown = handler)
  || bool_decide (base thrown = Some handler) || bool_decide ((base thrown ≫= base) = Some handler).

(** ** The texts *)

(** [ConfigException(origin, message)]. *)
Definition at_origin (origin : SimpleConfigOrigin) (message : str) : str := description origin ++ $": " ++ message.

Definition wrong_type_message (origin : SimpleConfigOrigin) (path expected actual : str) : str :=
  at_origin origin (path ++ $" has type " ++ actual ++ $" rather than " ++ expected).

Definition missing_message (path : str) : str := $"_no configuration setting found for key '" ++ path ++ $"'".

(** [ConfigExceptionNull::make_message]. *)
Definition null_message (path expected : str) : str :=
  if negb (bool_decide (expected = [])) then
    $"_configuration key '" ++ path ++ $"' is set to null but expected " ++ expected
  else $"_configuration key '" ++ path ++ $"' is null".

Definition bad_value_message (path message : str) : str := $"_invalid value at '" ++ path ++ $"': " ++ message.

Definition bad_path_message (path message : str) : str :=
  if negb (bool_decide (path = [])) then $"_invalid path '" ++ path ++ $"': " ++ message else message.

Definition unresolved_message (origin : SimpleConfigOrigin) (detail : str) : str :=
  at_origin origin ($"_could not resolve substitution to a value: " ++ detail).

Definition not_found_message (file : str) : str := file ++ $" not found".

(** ** Validation *)

Record problem := mkProblemAt { path_of : str; origin_at_ : SimpleConfigOrigin; problem_of : str }.

Definition problem_line (p : problem) : str :=
  description (origin_at_ p) ++ $": " ++ path_of p ++ $": " ++ problem_of p ++ $", ".

(** [ConfigExceptionValidationFailed::make_message]; [None] is the exception it
    throws itself.  [substr(0, length - 2)]. *)
Definition make_message (problems : list problem) : option str :=
  let stream := concat (map problem_line problems) in
  if bool_decide (problems = []) then None else Some (take (length stream - 2) stream).

(** ** Handlers *)

Definition classes : list exception_class :=
  [ConfigException; ConfigExceptionWrongType; ConfigExceptionMissing; ConfigExceptionNull;
   ConfigExceptionBadValue; ConfigExceptionBadPath; ConfigExceptionBugOrBroken; ConfigExceptionIO;
   ConfigExceptionParse; ConfigExceptionUnresolvedSubstitution; ConfigExceptionNotResolved;
   ConfigExceptionValidationFailed; ConfigExceptionUnsupportedOperation; ConfigExceptionFileNotFound;
   ConfigExceptionTokenizerProblem; ConfigExceptionGeneric].

Lemma classes_all c : c ∈ classes.
Proof. apply (bool_decide_unpack _). by destruct c. Qed.

(** Walking up the base classes any number of times. *)
Inductive derives : exception_class -> exception_class -> Prop :=
| derives_same c : derives c c
| derives_base c b d : base c = Some b -> derives b d -> derives c d.

(** Two steps up reach every class that a class derives from. *)
Theorem caught_iff_derives thrown handler : caught_by thrown handler = true <-> derives thrown handler.
Proof.
  split.
  - unfold caught_by. intros [[->%bool_decide_eq_true|Hb%bool_decide_eq_true]%orb_true_iff|Hb%bool_decide_eq_true]%orb_true_iff.
    + constructor.
    + by eapply derives_base; [|constructor].
    + destruct (base thrown) as [b|] eqn:E; [|done]. simpl in Hb. eapply derives_base; [done|].
      by eapply derives_base; [|constructor].
  - induction 1 as [c|c b d Hb _ IH]; [by destruct c|]. destruct c; simplify_eq/=; by destruct d.
Qed.

(** ** Messages *)

Definition join_lines (ls : list str) : str :=
  match ls with [] => [] | l :: ls' => l ++ concat (map (fun x => $", " ++ x) ls') end.

Definition problem_text (p : problem) : str := description (origin_at_ p) ++ $": " ++ path_of p ++ $": " ++ problem_of p.

Lemma concat_lines ps q :
  concat (map problem_line (ps ++ [q])) = join_lines (map problem_text (ps ++ [q])) ++ $", ".
Proof.
  assert (Hl : forall p, problem_line p = problem_text p ++ $", ").
  { intros p. unfold problem_line, problem_text. by rewrite <- !app_assoc. }
  assert (Hrest : forall ps, $", " ++ concat (map problem_line (ps ++ [q]))
                             = concat (map (fun x => $", " ++ x) (map problem_text (ps ++ [q]))) ++ $", ").
  { clear ps. intros ps. induction ps as [|p ps IH]; cbn [app map concat]; rewrite Hl.
    - by rewrite !app_nil_r, <- app_assoc.
    - rewrite <- !app_assoc. by rewrite IH. }
  destruct ps as [|p ps]; cbn [app map concat join_lines]; rewrite Hl; [by rewrite !app_nil_r|].
  rewrite <- !app_assoc. by rewrite Hrest.
Qed.

(** The message of a failed validation is the problems in order, separated by a
    comma and a space; without a problem there is no message. *)
Theorem validation_message ps :
  make_message ps = match ps with [] => None | _ => Some (join_lines (map problem_text ps)) end.
Proof.
  destruct ps as [|p ps] using rev_ind; [done|]. unfold make_message.
  rewrite bool_decide_eq_false_2 by (by destruct ps). rewrite concat_lines, length_app, take_app_le by (simpl; lia).
  rewrite take_ge by (simpl; lia). by destruct ps.
Qed.

(** ** The errors of the typed view *)

Section Texts.
Context `{DoubleLib}.

Definition class_of (e : config_exn) : option exception_class :=
  match e with
  | Missing _ => Some ConfigExceptionMissing
  | NullValue _ _ => Some ConfigExceptionNull
  | WrongType _ _ _ => Some ConfigExceptionWrongType
  | BadPath _ => Some ConfigExceptionBadPath
  | BadValue _ => Some ConfigExceptionBadValue
  | Bug BugOrBroken => Some ConfigExceptionBugOrBroken
  | Bug NullPath | Undefined => None
  end.

(** [what()] of a failed lookup, for the origin of the value found. *)
Definition lookup_text (origin : SimpleConfigOrigin) (e : config_exn) : option str :=
  match e with
  | Missing path => Some (missing_message path)
  | NullValue path expected => Some (at_origin origin (null_message path expected))
  | WrongType path expected actual => Some (wrong_type_message origin path expected actual)
  | _ => None
  end.

(** A lookup that fails names in its text the prefix of the path at which it
    failed, and a handler for missing settings catches nulls too, but not values of
    a wrong type. *)
Theorem lookup_failure_text self p expected origin e :
  Z.of_nat (length (path_elements p)) < 2 ^ 32 -> find self p expected p = Err e ->
  (exists q text, path_elements q `prefix_of` path_elements p
     /\ lookup_text origin e = Some text /\ contains text (render q) = true)
  /\ exists c, class_of e = Some c
     /\ caught_by c ConfigExceptionMissing = negb (caught_by c ConfigExceptionWrongType).
Proof.
  intros Hl E. pose proof (find_suffix self p expected p [] eq_refl Hl) as Hf. rewrite E in Hf.
  destruct Hf as [_ (q & Hq & He)]. destruct e as [t|t x|t x a| | | |]; try done; subst t; (split; [|by eexists]);
    exists q; eexists; (split; [done|]); (split; [done|]); apply contains_spec.
  - eexists _, _. done.
  - unfold at_origin, null_message. case_bool_decide; simpl; eexists (description origin ++ $": " ++ $"_configuration key '"), _;
      rewrite <- !app_assoc; done.
  - unfold wrong_type_message, at_origin. eexists (description origin ++ $": "), _. rewrite <- !app_assoc. done.
Qed.
End Texts.

(** ** Concrete runs *)

Example two_problems :
  let o := mkOrigin $"a.conf" 3 3 FILE [] in
  make_message [mkProblemAt $"x" o $"bad"; mkProblemAt $"y.z" o $"worse"]
  = Some $"a.conf: 3: x: bad, a.conf: 3: y.z: worse".
Proof. vm_compute. reflexivity. Qed.
