(* ===== verification/Value.v ===== *)
(** * config/src/detail/{abstract_config_value,abstract_config_object,simple_config_object,
    simple_config_list,config_concatenation,config_delayed_merge,config_delayed_merge_object,
    config_reference,resolve_status,substitution_expression}.cpp

    Configuration values, resolved or not, with the operations that do not need a
    resolver: merging ([with_fallback]), concatenation, moving under a prefix and
    editing by path.  The source shares immutable values and compares pointers
    ([first != kept]); a value therefore carries its address, and operations that
    create objects run in a monad whose state is the next free address.  A map
    keeps the order of insertion; the source's [unordered_map] has an unspecified
    order, and what is proved does not depend on it. *)

From S2P Require Import Prelude CLib Token Path Origin.

Open Scope Z_scope.

(** The path is never null: the parser makes one from at least one key. *)
Record SubstitutionExpression := mkSubst { path_ : Path; optional_ : bool }.

(** [SubstitutionExpression::change_path]: a new object with the same contents
    unless the path is a different one. *)
Definition change_path (e : SubstitutionExpression) (new_path : Path) : SubstitutionExpression :=
  mkSubst new_path (optional_ e).

(** Exceptions, by class; [Undefined] is undefined behaviour. *)
Inductive value_exn :=
| Bug (what : str)
| NotResolved
| CannotJoin
| BadOrigin (e : origin_exn)
| BadPtr (e : path_exn)
| Undefined.

Section Values.
Context `{DoubleLib}.

(** ** Data *)

Inductive value :=
| Scalar (addr : nat) (origin : SimpleConfigOrigin) (s : scalar)
| SimpleConfigList (addr : nat) (origin : SimpleConfigOrigin) (value_ : list value)
| SimpleConfigObject (addr : nat) (origin : SimpleConfigOrigin) (value_ : list (str * value))
    (ignores_fallbacks_ : bool)
| ConfigConcatenation (addr : nat) (origin : SimpleConfigOrigin) (pieces : list value)
| ConfigReference (addr : nat) (origin : SimpleConfigOrigin) (expr : SubstitutionExpression) (prefix_length : Z)
| ConfigDelayedMerge (addr : nat) (origin : SimpleConfigOrigin) (stack : list value)
| ConfigDelayedMergeObject (addr : nat) (origin : SimpleConfigOrigin) (stack : list value).

Abbreviation vmap := (list (str * value)).

Definition addr_of (v : value) : nat :=
  match v with
  | Scalar a _ _ | SimpleConfigList a _ _ | SimpleConfigObject a _ _ _ | ConfigConcatenation a _ _
  | ConfigReference a _ _ _ | ConfigDelayedMerge a _ _ | ConfigDelayedMergeObject a _ _ => a
  end.

Definition origin_of (v : value) : SimpleConfigOrigin :=
  match v with
  | Scalar _ o _ | SimpleConfigList _ o _ | SimpleConfigObject _ o _ _ | ConfigConcatenation _ o _
  | ConfigReference _ o _ _ | ConfigDelayedMerge _ o _ | ConfigDelayedMergeObject _ o _ => o
  end.

(** [instanceof]. *)
Definition is_object (v : value) : bool :=
  match v with SimpleConfigObject _ _ _ _ | ConfigDelayedMergeObject _ _ _ => true | _ => false end.
Definition is_list (v : value) : bool := match v with SimpleConfigList _ _ _ => true | _ => false end.
Definition is_concatenation (v : value) : bool := match v with ConfigConcatenation _ _ _ => true | _ => false end.
Definition is_delayed (v : value) : bool :=
  match v with ConfigDelayedMerge _ _ _ | ConfigDelayedMergeObject _ _ _ => true | _ => false end.
Definition is_unmergeable (v : value) : bool :=
  match v with
  | ConfigConcatenation _ _ _ | ConfigReference _ _ _ _ | ConfigDelayedMerge _ _ _
  | ConfigDelayedMergeObject _ _ _ => true
  | _ => false
  end.

(** [resolve_status() == RESOLVED].  Objects and lists keep the answer in a field
    that their constructors check against [from_values]. *)
Fixpoint is_resolved (v : value) : bool :=
  match v with
  | Scalar _ _ _ => true
  | SimpleConfigList _ _ l => forallb is_resolved l
  | SimpleConfigObject _ _ m _ => forallb (fun kv => is_resolved kv.2) m
  | _ => false
  end.

(** [ResolveStatusEnum::from_values]. *)
Definition from_values (l : list value) : bool := forallb is_resolved l.
Definition from_map (m : vmap) : bool := forallb (fun kv => is_resolved kv.2) m.

(** [ignores_fallbacks]; [stack.back()] of a delayed merge. *)
Fixpoint ignores_fallbacks (v : value) : bool :=
  match v with
  | Scalar _ _ _ => true
  | SimpleConfigList _ _ l => from_values l
  | SimpleConfigObject _ _ _ b => b
  | ConfigConcatenation _ _ _ | ConfigReference _ _ _ _ => false
  | ConfigDelayedMerge _ _ stack | ConfigDelayedMergeObject _ _ stack =>
      (fix back (l : list value) : bool :=
         match l with [] => false | [x] => ignores_fallbacks x | _ :: l' => back l' end) stack
  end.

(** [unmerged_values]. *)
Definition unmerged_values (v : value) : list value :=
  match v with
  | ConfigDelayedMerge _ _ stack | ConfigDelayedMergeObject _ _ stack => stack
  | _ => [v]
  end.

(** [transform_to_string]: the empty string for everything but scalars. *)
Definition value_to_string (v : value) : str :=
  match v with Scalar _ _ s => transform_to_string s | _ => [] end.

(** [value_type]: unresolved values throw. *)
Definition type_of (v : value) : res value_exn ConfigValueType :=
  match v with
  | Scalar _ _ s => Ok (scalar_type s)
  | SimpleConfigList _ _ _ => Ok LIST
  | SimpleConfigObject _ _ _ _ | ConfigDelayedMergeObject _ _ _ => Ok OBJECT
  | _ => Err NotResolved
  end.

(** ** Maps *)

Fixpoint map_find (k : str) (m : vmap) : option value :=
  match m with
  | [] => None
  | (k', v) :: m' => if bool_decide (k' = k) then Some v else map_find k m'
  end.

(** [m[k] = v]. *)
Fixpoint map_put (k : str) (v : value) (m : vmap) : vmap :=
  match m with
  | [] => [(k, v)]
  | (k', w) :: m' => if bool_decide (k' = k) then (k, v) :: m' else (k', w) :: map_put k v m'
  end.

Definition map_erase (k : str) (m : vmap) : vmap := List.filter (fun kv => negb (bool_decide (kv.1 = k))) m.

(** ** Allocation *)

Abbreviation M A := (SE nat value_exn A).

Definition new (f : nat -> value) : M value := fun n => (Ok (f n), S n).

Definition lift_origin (r : res origin_exn SimpleConfigOrigin) : M SimpleConfigOrigin :=
  match r with Ok o => se_ret o | Err e => se_throw (BadOrigin e) end.
Definition lift_path {A} (r : res path_exn A) : M A :=
  match r with Ok p => se_ret p | Err e => se_throw (BadPtr e) end.

Section MapM.
Context {A B : Type} (f : A -> M B).
Fixpoint mapM (l : list A) : M (list B) :=
  match l with
  | [] => se_ret []
  | x :: l' => let* y := f x in let* ys := mapM l' in se_ret (y :: ys)
  end.
End MapM.

(** ** Constructors *)

Definition make_object (o : SimpleConfigOrigin) (m : vmap) (status ignores : bool) : M value :=
  if negb (eqb status (from_map m)) then se_throw (Bug $"SimpleConfigObject created with wrong resolve status")
  else new (fun a => SimpleConfigObject a o m ignores).
Definition simple_object (o : SimpleConfigOrigin) (m : vmap) : M value := make_object o m (from_map m) false.

Definition make_list (o : SimpleConfigOrigin) (l : list value) (status : bool) : M value :=
  if negb (eqb status (from_values l)) then se_throw (Bug $"SimpleConfigList created with wrong resolve status")
  else new (fun a => SimpleConfigList a o l).
Definition simple_list (o : SimpleConfigOrigin) (l : list value) : M value := make_list o l (from_values l).

Definition make_concatenation (o : SimpleConfigOrigin) (pieces : list value) : M value :=
  if bool_decide (length pieces < 2)%nat then se_throw (Bug $"_created concatenation with less than 2 items")
  else if existsb is_concatenation pieces then se_throw (Bug $"ConfigConcatenation should never be nested")
  else if negb (existsb is_unmergeable pieces) then
    se_throw (Bug $"_created concatenation without an unmergeable in it")
  else new (fun a => ConfigConcatenation a o pieces).

Definition make_delayed_merge (o : SimpleConfigOrigin) (stack : list value) : M value :=
  match stack with
  | [] => se_throw (Bug $"creating empty delayed merge value")
  | _ => if existsb is_delayed stack then se_throw (Bug $"placed nested _delayed_merge in a ConfigDelayedMerge")
         else new (fun a => ConfigDelayedMerge a o stack)
  end.

Definition make_delayed_merge_object (o : SimpleConfigOrigin) (stack : list value) : M value :=
  match stack with
  | [] => se_throw (Bug $"creating empty delayed merge object")
  | front :: _ =>
      if negb (is_object front) then se_throw (Bug $"created a delayed merge object not guaranteed to be an object")
      else if existsb is_delayed stack then
        se_throw (Bug $"placed nested _delayed_merge in a ConfigDelayedMergeObject")
      else new (fun a => ConfigDelayedMergeObject a o stack)
  end.

(** [new_copy(origin)] of each class. *)
Definition new_copy (v : value) (o : SimpleConfigOrigin) : M value :=
  match v with
  | Scalar _ _ s => new (fun a => Scalar a o s)
  | SimpleConfigList _ _ l => simple_list o l
  | SimpleConfigObject _ _ m b => make_object o m (is_resolved v) b
  | ConfigConcatenation _ _ pieces => make_concatenation o pieces
  | ConfigReference _ _ e n => new (fun a => ConfigReference a o e n)
  | ConfigDelayedMerge _ _ stack => make_delayed_merge o stack
  | ConfigDelayedMergeObject _ _ stack => make_delayed_merge_object o stack
  end.

(** [with_origin]: two origins are the same pointer only when they are equal. *)
Definition with_origin (v : value) (o : SimpleConfigOrigin) : M value :=
  if bool_decide (origin_of v = o) then se_ret v else new_copy v o.

(** ** Merging *)

(** [AbstractConfigObject::merge_origins]: empty resolved objects are left out
    unless there is nothing else. *)
Definition is_empty_object (v : value) : bool :=
  match v with SimpleConfigObject _ _ [] _ => true | _ => false end.

Definition merge_value_origins (stack : list value) : M SimpleConfigOrigin :=
  match stack with
  | [] => se_throw (Bug $"can't merge origins on empty list")
  | first :: _ =>
      let origins := map origin_of (List.filter (fun v => negb (is_empty_object v)) stack) in
      lift_origin (merge_origins (if bool_decide (origins = []) then [origin_of first] else origins))
  end.

(** [construct_delayed_merge], virtual: objects make delayed merge objects. *)
Definition construct_delayed_merge (self : value) (o : SimpleConfigOrigin) (stack : list value) : M value :=
  if is_object self then make_delayed_merge_object o stack else make_delayed_merge o stack.

Definition require_not_ignoring_fallbacks (self : value) : M unit :=
  if ignores_fallbacks self then se_throw (Bug $"_method should not have been called with ignores_fallbacks=true")
  else se_ret tt.

Definition delay_merge (self : value) (stack : list value) (fallback : value) : M value :=
  let new_stack := stack ++ [fallback] in
  let* o := merge_value_origins new_stack in
  construct_delayed_merge self o new_stack.

Definition merged_with_the_unmergeable (self fallback : value) : M value :=
  require_not_ignoring_fallbacks self ;;*
  let new_stack := unmerged_values self ++ unmerged_values fallback in
  let* o := merge_value_origins new_stack in
  construct_delayed_merge self o new_stack.

Definition with_fallbacks_ignored (self : value) : M value :=
  match self with
  | SimpleConfigObject _ o m b => if b then se_ret self else make_object o m (is_resolved self) true
  | _ => if ignores_fallbacks self then se_ret self
         else se_throw (Bug $"_value class doesn't implement forced fallback-ignoring")
  end.

(** Every class goes through [merged_with_non_object(stack, fallback)], where the
    stack is [{this}] or the delayed merge's own. *)
Definition merged_with_non_object (self fallback : value) : M value :=
  require_not_ignoring_fallbacks self ;;*
  if is_resolved self then with_fallbacks_ignored self
  else delay_merge self (unmerged_values self) fallback.

(** The end of [SimpleConfigObject::merged_with_object], once every key has its
    value: [changed] tells whether some value is not the one [self] had. *)
Definition merged_object (self fallback : value) (o : SimpleConfigOrigin) (m merged : vmap)
    (self_ignores new_ignores changed : bool) : M value :=
  let new_status := from_map merged in
  if changed then
    let* origin := merge_value_origins [self; fallback] in
    make_object origin merged new_status new_ignores
  else if negb (eqb new_status (is_resolved self)) || negb (eqb new_ignores self_ignores) then
    make_object o m new_status new_ignores
  else se_ret self.

Definition fresh_keys (m fb : vmap) : vmap :=
  List.filter (fun kv => match map_find kv.1 m with None => true | Some _ => false end) fb.

(** The loop over the keys of [self]; the keys only [fallback] has come after. *)
Section MergeKeys.
Variables (merge : value -> value -> M value) (fb : vmap).
Fixpoint merge_keys (es : vmap) : M vmap :=
  match es with
  | [] => se_ret []
  | (k, first) :: es' =>
      let* kept := (match map_find k fb with None => se_ret first | Some second => merge first second end) in
      let* rest := merge_keys es' in
      se_ret ((k, kept) :: rest)
  end.
End MergeKeys.

(** [first != kept] for some key of [self]. *)
Fixpoint any_changed (m kept : vmap) : bool :=
  match m, kept with
  | (_, v) :: m', (_, w) :: kept' => negb (bool_decide (addr_of v = addr_of w)) || any_changed m' kept'
  | _, _ => false
  end.

(** [AbstractConfigValue::with_fallback] with the virtual [merged_with_*]. *)
Fixpoint with_fallback (self other : value) {struct self} : M value :=
  if ignores_fallbacks self then se_ret self
  else if is_unmergeable other then merged_with_the_unmergeable self other
  else if is_object other then
    match self with
    | SimpleConfigObject _ o m b =>
        match other with
        | SimpleConfigObject _ _ fb fb_ignores =>
            let* kept := merge_keys with_fallback fb m in
            let extra := fresh_keys m fb in
            merged_object self other o m (kept ++ extra) b fb_ignores
              (any_changed m kept || negb (bool_decide (extra = [])))
        | _ => se_throw (Bug $"should not be reached (merging non-SimpleConfigObject)")
        end
    | _ => merged_with_non_object self other
    end
  else merged_with_non_object self other.

(** ** Concatenation *)

(** [SimpleConfigList::concatenate]. *)
Definition concatenate_lists (o1 o2 : SimpleConfigOrigin) (l1 l2 : list value) : M value :=
  let* o := lift_origin (merge_two o1 o2) in simple_list o (l1 ++ l2).

(** Neither two objects nor two lists: substitutions wait, scalars become text. *)
Definition join_others (lhs rhs : value) : M (option value) :=
  if is_concatenation lhs || is_concatenation rhs then se_throw (Bug $"unflattened ConfigConcatenation")
  else if is_unmergeable lhs || is_unmergeable rhs then se_ret None
  else
    let s1 := value_to_string lhs in
    let s2 := value_to_string rhs in
    if bool_decide (s1 = []) || bool_decide (s2 = []) then se_throw CannotJoin
    else
      let* o := lift_origin (merge_two (origin_of lhs) (origin_of rhs)) in
      let* v := new (fun a => Scalar a o (ConfigString (s1 ++ s2))) in
      se_ret (Some v).

(** [ConfigConcatenation::join] of the last value of the builder and the next
    one: one value, or [None] when both are kept. *)
Definition join_two (lhs rhs : value) : M (option value) :=
  if is_object lhs && is_object rhs then let* v := with_fallback rhs lhs in se_ret (Some v)
  else match lhs, rhs with
  | SimpleConfigList _ o1 l1, SimpleConfigList _ o2 l2 => let* v := concatenate_lists o1 o2 l1 l2 in se_ret (Some v)
  | _, _ => join_others lhs rhs
  end.

(** The builder with its back first. *)
Fixpoint join_loop (builder : list value) (pieces : list value) : M (list value) :=
  match pieces with
  | [] => se_ret (reverse builder)
  | rhs :: pieces' =>
      match builder with
      | [] => join_loop [rhs] pieces'
      | lhs :: builder' =>
          let* j := join_two lhs rhs in
          match j with
          | None => join_loop (rhs :: builder) pieces'
          | Some v => join_loop (v :: builder') pieces'
          end
      end
  end.

Definition flatten (pieces : list value) : list value :=
  concat (map (fun v => match v with ConfigConcatenation _ _ ps => ps | _ => [v] end) pieces).

Definition consolidate (pieces : list value) : M (list value) :=
  if bool_decide (length pieces < 2)%nat then se_ret pieces else join_loop [] (flatten pieces).

(** [concatenate]: [None] is the null pointer. *)
Definition concatenate (pieces : list value) : M (option value) :=
  let* consolidated := consolidate pieces in
  match consolidated with
  | [] => se_ret None
  | [v] => se_ret (Some v)
  | _ =>
      let* o := lift_origin (merge_origins (map origin_of consolidated)) in
      let* v := make_concatenation o consolidated in
      se_ret (Some v)
  end.
End Values.

Abbreviation M A := (SE nat value_exn A).
Abbreviation vmap := (list (str * value)).
