(* ===== verification/ValueMerge.v ===== *)
(** * Merging of configuration values

    [with_fallback] of Value.v against a specification without addresses, origins
    or pointer comparisons: [shape] is what a value means, [merge] is how two
    shapes combine.  Proved: on well-formed values (those the constructors
    accept) [with_fallback] always returns, with a well-formed value of the
    merged shape; merging is associative on resolved values. *)

From S2P Require Import Prelude CLib Token Path Origin Value.

Open Scope Z_scope.

(** ** Origins that can be merged for ever *)

(** Stripping the prefix over and over ends in nothing. *)
Inductive only_merges : str -> Prop :=
| only_nil : only_merges []
| only_more d : only_merges d -> only_merges (merge_of_prefix ++ d).

Definition good_origin (o : SimpleConfigOrigin) : Prop := ~ only_merges (description_ o).

Lemma only_merges_chars d c : only_merges d -> c ∈ d -> c ∈ merge_of_prefix.
Proof. induction 1 as [|d _ IH]; [set_solver|]. intros [Hc|Hc]%elem_of_app; auto. Qed.

Lemma starts_with_split p s : starts_with p s = true -> s = p ++ drop (length p) s.
Proof. intros [r ->]%starts_with_spec. by rewrite drop_app_length. Qed.

Lemma strip_merge_good d : ~ only_merges d -> ~ only_merges (strip_merge d).
Proof.
  unfold strip_merge. destruct (starts_with merge_of_prefix d) eqn:E; [|done].
  intros Hd Hs. apply Hd. rewrite (starts_with_split _ _ E). by constructor.
Qed.

Lemma merge_two_good a b : good_origin a -> good_origin b -> exists o, merge_two a b = Ok o /\ good_origin o.
Proof.
  intros Ha Hb. unfold merge_two.
  assert (Hmk : forall d l e t cs, ~ only_merges d -> exists o, make_origin d l e t cs = Ok o /\ good_origin o).
  { intros d l e t cs Hd. unfold make_origin. rewrite bool_decide_false; [by eexists|].
    intros ->. apply Hd. constructor. }
  destruct (bool_decide (strip_merge (description_ a) = strip_merge (description_ b))).
  - apply Hmk. by apply strip_merge_good.
  - apply Hmk. intros Ho. assert (Hc : ","%char ∈ merge_of_prefix).
    { eapply only_merges_chars; [exact Ho|]. rewrite !elem_of_app. right. right. left. simpl. left. }
    revert Hc. apply (bool_decide_unpack _). vm_compute. exact I.
Qed.

Lemma merge_three_good a b c :
  good_origin a -> good_origin b -> good_origin c -> exists o, merge_three a b c = Ok o /\ good_origin o.
Proof.
  intros Ha Hb Hc. unfold merge_three. destruct (_ <=? _).
  - destruct (merge_two_good a b Ha Hb) as (o & -> & Ho). by apply merge_two_good.
  - destruct (merge_two_good b c Hb Hc) as (o & -> & Ho). by apply merge_two_good.
Qed.

Lemma merge_loop_good fuel o rest :
  Forall good_origin (o :: rest) -> (length rest <= fuel)%nat ->
  exists r, merge_loop fuel (o :: rest) = Ok r /\ good_origin r.
Proof.
  revert o rest. induction fuel as [|fuel IH]; intros c rest Hall Hf;
    destruct rest as [|b [|a rest]]; simpl in Hf; try lia; inversion_clear Hall as [|? ? Hc Hall1];
    try (by exists c); inversion_clear Hall1 as [|? ? Hb Hall2].
  - by apply merge_two_good.
  - inversion_clear Hall2 as [|? ? Ha Hall3]. destruct (merge_three_good a b c Ha Hb Hc) as (m & E & Hm).
    cbn [merge_loop]. rewrite E. apply IH; [by constructor|lia].
Qed.

Lemma merge_origins_good stack :
  stack <> [] -> Forall good_origin stack -> exists r, merge_origins stack = Ok r /\ good_origin r.
Proof.
  intros Hne Hall. unfold merge_origins. destruct (reverse stack) as [|o rest] eqn:E.
  { apply (f_equal reverse) in E. by rewrite reverse_involutive in E. }
  apply merge_loop_good; [rewrite <- E; by apply Forall_reverse|].
  apply (f_equal length) in E. rewrite length_reverse in E. simpl in E. lia.
Qed.

Section ValueMerge.
Context `{DoubleLib}.

(** ** Induction over values *)

Lemma value_tree_ind (P : value -> Prop)
  (Hs : forall a o s, P (Scalar a o s))
  (Hl : forall a o l, Forall P l -> P (SimpleConfigList a o l))
  (Hm : forall a o m b, Forall (fun kv => P kv.2) m -> P (SimpleConfigObject a o m b))
  (Hc : forall a o l, Forall P l -> P (ConfigConcatenation a o l))
  (Hr : forall a o e n, P (ConfigReference a o e n))
  (Hd : forall a o l, Forall P l -> P (ConfigDelayedMerge a o l))
  (Ho : forall a o l, Forall P l -> P (ConfigDelayedMergeObject a o l)) :
  forall v, P v.
Proof.
  fix IH 1.
  assert (Hall : forall l, (forall x, P x) -> Forall P l) by (intros l Hx; induction l; constructor; auto).
  intros [a o s|a o l|a o m b|a o l|a o e n|a o l|a o l]; [apply Hs|apply Hl|apply Hm|apply Hc|apply Hr|apply Hd|apply Ho];
    try (clear Hall; induction l as [|x l IHl]; constructor; [apply IH|apply IHl]).
  clear Hall. induction m as [|[k v] m IHm]; constructor; [apply IH|apply IHm].
Qed.

(** ** Well-formed values: what the constructors accept, below address [n] *)

Inductive wf (n : nat) : value -> Prop :=
| wf_scalar a o s : (a < n)%nat -> good_origin o -> wf n (Scalar a o s)
| wf_list a o l : (a < n)%nat -> good_origin o -> Forall (wf n) l -> wf n (SimpleConfigList a o l)
| wf_object a o m b :
    (a < n)%nat -> good_origin o -> NoDup m.*1 -> Forall (fun kv => wf n kv.2) m ->
    wf n (SimpleConfigObject a o m b)
| wf_concatenation a o l :
    (a < n)%nat -> good_origin o -> (2 <= length l)%nat -> existsb is_concatenation l = false ->
    existsb is_unmergeable l = true -> Forall (wf n) l -> wf n (ConfigConcatenation a o l)
| wf_reference a o e k : (a < n)%nat -> good_origin o -> wf n (ConfigReference a o e k)
| wf_delayed a o l :
    (a < n)%nat -> good_origin o -> l <> [] -> existsb is_delayed l = false -> Forall (wf n) l ->
    wf n (ConfigDelayedMerge a o l)
| wf_delayed_object a o x l :
    (a < n)%nat -> good_origin o -> is_object x = true -> existsb is_delayed (x :: l) = false ->
    Forall (wf n) (x :: l) -> wf n (ConfigDelayedMergeObject a o (x :: l)).

Lemma wf_addr n v : wf n v -> (addr_of v < n)%nat.
Proof. by destruct 1. Qed.

Lemma wf_origin n v : wf n v -> good_origin (origin_of v).
Proof. by destruct 1. Qed.

Lemma wf_mono n n' v : (n <= n')%nat -> wf n v -> wf n' v.
Proof.
  intros Hn. revert v. induction v as [a o s|a o l IH|a o m b IH|a o l IH|a o e k|a o l IH|a o l IH] using value_tree_ind;
    inversion 1; subst; constructor; try lia; try done;
    rewrite Forall_forall in *; naive_solver.
Qed.

Lemma wf_all_mono n n' l : (n <= n')%nat -> Forall (wf n) l -> Forall (wf n') l.
Proof. intros Hn Hl. eapply Forall_impl; [exact Hl|]. intros. by apply wf_mono with n. Qed.

(** ** Shapes *)

Inductive shape :=
| HScalar (s : scalar)
| HList (l : list shape)
| HObject (m : list (str * shape)) (ignores : bool)
| HConcat (pieces : list shape)
| HRef (e : SubstitutionExpression) (prefix_length : Z)
| HDelayed (object : bool) (stack : list shape).

Fixpoint shape_of (v : value) : shape :=
  match v with
  | Scalar _ _ s => HScalar s
  | SimpleConfigList _ _ l => HList (map shape_of l)
  | SimpleConfigObject _ _ m b => HObject (map (fun kv => (kv.1, shape_of kv.2)) m) b
  | ConfigConcatenation _ _ l => HConcat (map shape_of l)
  | ConfigReference _ _ e n => HRef e n
  | ConfigDelayedMerge _ _ l => HDelayed false (map shape_of l)
  | ConfigDelayedMergeObject _ _ l => HDelayed true (map shape_of l)
  end.

Fixpoint settled (h : shape) : bool :=
  match h with
  | HScalar _ => true
  | HList l => forallb settled l
  | HObject m _ => forallb (fun kv => settled kv.2) m
  | _ => false
  end.

(** Nothing merged into it changes it. *)
Fixpoint final (h : shape) : bool :=
  match h with
  | HScalar _ => true
  | HList l => forallb settled l
  | HObject _ b => b
  | HConcat _ | HRef _ _ => false
  | HDelayed _ l =>
      (fix back (l : list shape) : bool := match l with [] => false | [x] => final x | _ :: l' => back l' end) l
  end.

Definition object_shape (h : shape) : bool := match h with HObject _ _ | HDelayed true _ => true | _ => false end.
Definition open_shape (h : shape) : bool := match h with HConcat _ | HRef _ _ | HDelayed _ _ => true | _ => false end.
Definition layers (h : shape) : list shape := match h with HDelayed _ l => l | _ => [h] end.

Fixpoint lookup_key {A} (k : str) (m : list (str * A)) : option A :=
  match m with [] => None | (k', v) :: m' => if bool_decide (k' = k) then Some v else lookup_key k m' end.

Definition only_in {A B} (m : list (str * A)) (fb : list (str * B)) : list (str * B) :=
  List.filter (fun kv => match lookup_key kv.1 m with None => true | Some _ => false end) fb.

(** Every key with its value over the fallback's. *)
Section Over.
Variables (f : shape -> shape -> shape) (fb : list (str * shape)).
Fixpoint over (es : list (str * shape)) : list (str * shape) :=
  match es with
  | [] => []
  | (k, x) :: es' => (k, match lookup_key k fb with None => x | Some y => f x y end) :: over es'
  end.
End Over.

(** The specification: [a] over [b].  Two objects merge key by key; what may
    still turn out to be an object is put off; anything else hides what is below,
    which for an object means that it takes no more fallbacks. *)
Fixpoint merge (a b : shape) {struct a} : shape :=
  if final a then a
  else if open_shape b then HDelayed (object_shape a) (layers a ++ layers b)
  else match a, b with
       | HObject m _, HObject fb fb_final =>
           HObject (over merge fb m ++ only_in m fb) fb_final
       | HObject m _, _ => if settled a then HObject m true else HDelayed true [a; b]
       | _, _ => HDelayed (object_shape a) (layers a ++ [b])
       end.

Lemma merge_final a b : final a = true -> merge a b = a.
Proof. intros Hf. destruct a; cbn [merge]; by rewrite Hf. Qed.

Lemma merge_open a b :
  final a = false -> open_shape b = true -> merge a b = HDelayed (object_shape a) (layers a ++ layers b).
Proof. intros Hf Ho. destruct a; cbn [merge]; by rewrite Hf, Ho. Qed.

(** A plain value under one that is not a settled object. *)
Lemma merge_delay a b :
  final a = false -> open_shape b = false -> (forall m x, a <> HObject m x) ->
  merge a b = HDelayed (object_shape a) (layers a ++ [b]).
Proof. intros Hf Ho Ha. destruct a; cbn [merge]; rewrite Hf, Ho; try done. by destruct (Ha m ignores). Qed.

Lemma merge_hidden m b :
  open_shape b = false -> object_shape b = false ->
  merge (HObject m false) b = if settled (HObject m false) then HObject m true else HDelayed true [HObject m false; b].
Proof. intros Ho Hb. cbn [merge final]. rewrite Ho. by destruct b. Qed.

(** ** Shapes of values *)

Lemma shape_settled v : settled (shape_of v) = is_resolved v.
Proof.
  induction v as [a o s|a o l IH|a o m b IH|a o l IH|a o e k|a o l IH|a o l IH] using value_tree_ind; try done; simpl.
  - induction IH as [|x l Hx _ IHl]; [done|]. simpl. by rewrite Hx, IHl.
  - induction IH as [|[k x] m Hx _ IHm]; [done|]. simpl in *. by rewrite Hx, IHm.
Qed.

Lemma shape_final v : final (shape_of v) = ignores_fallbacks v.
Proof.
  induction v as [a o s|a o l IH|a o m b IH|a o l IH|a o e k|a o l IH|a o l IH] using value_tree_ind; try done; simpl.
  - unfold from_values. clear IH. induction l as [|x l IHl]; [done|]. simpl. by rewrite shape_settled, IHl.
  - induction IH as [|x l Hx _ IHl]; [done|]. destruct l as [|y l]; [done|]. exact IHl.
  - induction IH as [|x l Hx _ IHl]; [done|]. destruct l as [|y l]; [done|]. exact IHl.
Qed.

Lemma shape_open v : open_shape (shape_of v) = is_unmergeable v.
Proof. by destruct v. Qed.

Lemma shape_object v : object_shape (shape_of v) = is_object v.
Proof. by destruct v. Qed.

Lemma shape_layers v : layers (shape_of v) = map shape_of (unmerged_values v).
Proof. by destruct v. Qed.

Lemma shape_find k m : lookup_key k (map (fun kv => (kv.1, shape_of kv.2)) m) = shape_of <$> map_find k m.
Proof. induction m as [|[k' v] m IH]; [done|]. simpl. by case_bool_decide. Qed.

Lemma shape_fresh m fb :
  map (fun kv => (kv.1, shape_of kv.2)) (fresh_keys m fb)
  = only_in (map (fun kv => (kv.1, shape_of kv.2)) m) (map (fun kv => (kv.1, shape_of kv.2)) fb).
Proof.
  unfold fresh_keys, only_in. induction fb as [|[k v] fb IH]; [done|]. simpl. rewrite shape_find.
  destruct (map_find k m); simpl; [exact IH|]. by rewrite IH.
Qed.

(** ** The implementation *)

(** [r] is the outcome of merging [a] over [b] from address [n]. *)
Definition merged_to (n : nat) (a b : value) (r : res value_exn value * nat) : Prop :=
  exists v n', r = (Ok v, n') /\ (n <= n')%nat /\ wf n' v /\ (v = a \/ (n <= addr_of v)%nat)
    /\ shape_of v = merge (shape_of a) (shape_of b).

Lemma merge_value_origins_ok n k stack :
  stack <> [] -> Forall (wf k) stack -> exists o, merge_value_origins stack n = (Ok o, n) /\ good_origin o.
Proof.
  intros Hne Hall. unfold merge_value_origins. destruct stack as [|x stack]; [done|].
  set (os := map origin_of _).
  assert (Hos : Forall good_origin os).
  { unfold os. apply Forall_fmap, List.Forall_forall. intros v [Hv _]%filter_In.
    rewrite List.Forall_forall in Hall. by apply wf_origin with k, Hall. }
  destruct (merge_origins_good (if bool_decide (os = []) then [origin_of x] else os)) as (o & -> & Ho);
    [by case_bool_decide| |by exists o].
  case_bool_decide; [|done]. constructor; [|done]. inversion_clear Hall. by apply wf_origin with k.
Qed.

Lemma unmerged_wf n v :
  wf n v -> unmerged_values v <> [] /\ Forall (wf n) (unmerged_values v) /\ existsb is_delayed (unmerged_values v) = false
  /\ (is_object v = true -> exists x l, unmerged_values v = x :: l /\ is_object x = true).
Proof.
  intros Hv. inversion Hv; subst; simpl; (split; [done|]); split_and!; try done; try (by repeat constructor);
    try (by intros; eexists _, []).
  intros _. eauto.
Qed.

(** A delayed merge of one layer over others. *)
Lemma construct_delayed_ok n self o ls :
  wf n self -> good_origin o -> Forall (wf n) ls -> existsb is_delayed ls = false ->
  exists v, construct_delayed_merge self o (unmerged_values self ++ ls) n = (Ok v, S n) /\ wf (S n) v
    /\ addr_of v = n /\ shape_of v = HDelayed (is_object self) (layers (shape_of self) ++ map shape_of ls).
Proof.
  intros Hself Ho Hls Hd. destruct (unmerged_wf n self Hself) as (Hne & Hall & Hnd & Hobj).
  assert (Hall' : Forall (wf (S n)) (unmerged_values self ++ ls)).
  { apply Forall_app. split; (apply wf_all_mono with n; [lia|done]). }
  assert (Hnd' : existsb is_delayed (unmerged_values self ++ ls) = false) by (by rewrite existsb_app, Hnd, Hd).
  rewrite shape_layers, <- map_app. unfold construct_delayed_merge. destruct (is_object self) eqn:E.
  - destruct (Hobj eq_refl) as (x & l & El & Hx). rewrite El in *. simpl app in *. unfold make_delayed_merge_object.
    rewrite Hx, Hnd'. eexists. split; [done|]. split; [|done]. constructor; auto.
  - destruct (unmerged_values self) as [|x l]; [done|]. simpl app in *. unfold make_delayed_merge. rewrite Hnd'.
    eexists. split; [done|]. split; [|done]. constructor; auto.
Qed.

Lemma merge_open_ok n self other :
  wf n self -> wf n other -> ignores_fallbacks self = false -> is_unmergeable other = true ->
  merged_to n self other (merged_with_the_unmergeable self other n).
Proof.
  intros Hs Ho Hi Hu. unfold merged_with_the_unmergeable, require_not_ignoring_fallbacks. rewrite Hi.
  unfold se_bind at 1. cbn [se_ret]. destruct (unmerged_wf n self Hs) as (Hne & Hall & Hnd & _).
  destruct (unmerged_wf n other Ho) as (_ & Hall' & Hnd' & _).
  destruct (merge_value_origins_ok n n (unmerged_values self ++ unmerged_values other)) as (o & Eo & Hgo);
    [by destruct (unmerged_values self)|by apply Forall_app|].
  unfold se_bind. rewrite Eo.
  destruct (construct_delayed_ok n self o (unmerged_values other)) as (v & -> & Hv & Ha & Hsh); try done.
  exists v, (S n). split_and!; [done|lia|done|right; lia|]. rewrite Hsh.
  rewrite merge_open, shape_layers, shape_layers, shape_object; [done|by rewrite shape_final|by rewrite shape_open].
Qed.

Lemma delay_ok n self other :
  wf n self -> wf n other -> is_unmergeable other = false ->
  exists v, delay_merge self (unmerged_values self) other n = (Ok v, S n) /\ wf (S n) v /\ addr_of v = n
    /\ shape_of v = HDelayed (is_object self) (layers (shape_of self) ++ [shape_of other]).
Proof.
  intros Hs Ho Hu. unfold delay_merge. destruct (unmerged_wf n self Hs) as (Hne & Hall & _).
  destruct (merge_value_origins_ok n n (unmerged_values self ++ [other])) as (o & Eo & Hgo);
    [by destruct (unmerged_values self)|apply Forall_app; split; [done|by repeat constructor]|].
  unfold se_bind. rewrite Eo. apply construct_delayed_ok; [done|done|by repeat constructor|].
  by destruct other.
Qed.

Abbreviation shapes := (map (fun kv : str * value => (kv.1, shape_of kv.2))).

Lemma map_find_wf n k m v : Forall (fun kv => wf n kv.2) m -> map_find k m = Some v -> wf n v.
Proof.
  induction 1 as [|[k' w] m Hw _ IH]; [done|]. simpl. case_bool_decide; [by intros [= <-]|done].
Qed.

Lemma entries_mono n n' (m : list (str * value)) :
  (n <= n')%nat -> Forall (fun kv => wf n kv.2) m -> Forall (fun kv => wf n' kv.2) m.
Proof. intros Hn Hm. eapply Forall_impl; [exact Hm|]. intros. by apply wf_mono with n. Qed.

Lemma merge_keys_ok fb es n :
  Forall (fun kv => forall n b, wf n kv.2 -> wf n b -> merged_to n kv.2 b (with_fallback kv.2 b n)) es ->
  Forall (fun kv => wf n kv.2) es -> Forall (fun kv => wf n kv.2) fb ->
  exists kept n', merge_keys with_fallback fb es n = (Ok kept, n') /\ (n <= n')%nat /\ kept.*1 = es.*1
    /\ Forall (fun kv => wf n' kv.2) kept /\ shapes kept = over merge (shapes fb) (shapes es)
    /\ (any_changed es kept = false -> kept = es).
Proof.
  intros Hes. revert n. induction Hes as [|[k first] es Hm Hes IH]; intros n Hwf Hfb.
  { exists [], n. split_and!; try done. }
  inversion_clear Hwf as [|? ? Hf Hwf']. cbn [snd] in *. cbn [merge_keys]. unfold se_bind.
  assert (Hk : exists kept n1, (match map_find k fb with None => se_ret first | Some second => with_fallback first second end) n
      = (Ok kept, n1) /\ (n <= n1)%nat /\ wf n1 kept /\ (kept = first \/ (n <= addr_of kept)%nat)
      /\ shape_of kept = match lookup_key k (shapes fb) with None => shape_of first | Some y => merge (shape_of first) y end).
  { rewrite shape_find. destruct (map_find k fb) as [second|] eqn:E; simpl.
    - destruct (Hm n second Hf (map_find_wf n k fb second Hfb E)) as (v & n1 & -> & ? & ? & ? & ?).
      by exists v, n1.
    - exists first, n. split_and!; try done; by left. }
  destruct Hk as (kept & n1 & -> & Hn1 & Hkept & Hor & Hsh).
  destruct (IH n1) as (rest & n2 & -> & Hn2 & Hkeys & Hrest & Hshr & Hch); [by apply entries_mono with n..|].
  exists ((k, kept) :: rest), n2. split_and!; [done|lia|by rewrite !fmap_cons, Hkeys| | |].
  - constructor; [by apply wf_mono with n1|done].
  - simpl. by rewrite Hsh, Hshr.
  - simpl. rewrite orb_false_iff, negb_false_iff, bool_decide_eq_true. intros [Ha Hr].
    rewrite Hch by done. f_equal. f_equal. destruct Hor as [->|Hge]; [done|].
    apply wf_addr in Hf. lia.
Qed.

Lemma fresh_keys_spec m fb : Forall (fun kv => kv.1 ∉ m.*1) (fresh_keys m fb).
Proof.
  assert (Hnone : forall k, map_find k m = None -> k ∉ m.*1).
  { intros k. induction m as [|[k' v] m IH]; simpl; [set_solver|]. case_bool_decide; set_solver. }
  unfold fresh_keys. apply List.Forall_forall. intros [k v] [_ Hk]%filter_In. simpl in *.
  apply Hnone. by destruct (map_find k m).
Qed.

Lemma filter_keys {A} (f : str * A -> bool) (l : list (str * A)) :
  NoDup l.*1 -> NoDup (List.filter f l).*1.
Proof.
  induction l as [|x l IH]; [done|]. rewrite fmap_cons. intros [Hx Hl]%NoDup_cons. simpl. destruct (f x); [|by apply IH].
  rewrite fmap_cons. apply NoDup_cons. split; [|by apply IH]. intros (y & Ey & Hy)%list_elem_of_fmap.
  apply Hx. rewrite Ey. apply list_elem_of_fmap. exists y. split; [done|]. apply list_elem_of_In, filter_In in Hy as [Hy _].
  by apply list_elem_of_In.
Qed.

Lemma filter_all {A} (f : A -> bool) (P : A -> Prop) l : Forall P l -> Forall P (List.filter f l).
Proof. induction 1; simpl; [done|]. destruct (f x); auto. Qed.

Lemma merged_wf n (m fb kept : list (str * value)) :
  NoDup m.*1 -> NoDup fb.*1 -> kept.*1 = m.*1 -> Forall (fun kv => wf n kv.2) kept -> Forall (fun kv => wf n kv.2) fb ->
  NoDup (kept ++ fresh_keys m fb).*1 /\ Forall (fun kv => wf n kv.2) (kept ++ fresh_keys m fb).
Proof.
  intros Hm Hfb Hk Hwk Hwf. split.
  - rewrite fmap_app, Hk. apply NoDup_app. split; [done|]. split.
    + intros k Hin (kv & Ek & Hkv)%list_elem_of_fmap. subst k. pose proof (fresh_keys_spec m fb) as Hf.
      rewrite Forall_forall in Hf. by apply (Hf kv).
    + by apply filter_keys.
  - apply Forall_app. split; [done|]. by apply filter_all.
Qed.

Lemma eqb_refl_neg b : negb (eqb b b) = false.
Proof. by destruct b. Qed.

Lemma make_object_ok n o m b :
  good_origin o -> NoDup m.*1 -> Forall (fun kv => wf n kv.2) m ->
  make_object o m (from_map m) b n = (Ok (SimpleConfigObject n o m b), S n) /\ wf (S n) (SimpleConfigObject n o m b).
Proof.
  intros Ho Hm Hwf. unfold make_object. rewrite eqb_refl_neg. split; [done|].
  constructor; [lia|done|done|]. apply entries_mono with n; [lia|done].
Qed.

(** Under a plain value that is no object, or for a value that is no object. *)
Lemma merge_plain_ok n a b :
  wf n a -> wf n b -> ignores_fallbacks a = false -> is_unmergeable b = false ->
  ((forall x o m f, a <> SimpleConfigObject x o m f) \/ is_object b = false) ->
  merged_to n a b (merged_with_non_object a b n).
Proof.
  intros Ha Hb Hi Hu Hor. unfold merged_with_non_object, require_not_ignoring_fallbacks. rewrite Hi.
  unfold se_bind at 1. cbn [se_ret]. rewrite <- shape_final in Hi. destruct (is_resolved a) eqn:Hr.
  - destruct a as [| |x o m f| | | |]; try done; try (simpl in Hi; rewrite shape_settled in *; congruence).
    + pose proof (shape_settled (SimpleConfigList addr origin value_)) as Hs. rewrite Hr in Hs. simpl in Hs, Hi. congruence.
    + simpl in Hi. subst f. cbn [with_fallbacks_ignored]. rewrite Hr. inversion Ha; subst.
      destruct (make_object_ok n o m true) as [E Hw]; [done..|]. replace true with (from_map m) at 1 by exact Hr.
      rewrite E. exists (SimpleConfigObject n o m true), (S n). split_and!; [done|lia|done|right; simpl; lia|].
      change (shape_of (SimpleConfigObject x o m false)) with (HObject (shapes m) false). rewrite merge_hidden; [|by rewrite shape_open|rewrite shape_object; by destruct Hor as [Hx|]; [destruct (Hx x o m false)|]].
      pose proof (shape_settled (SimpleConfigObject x o m false)) as Hs. simpl shape_of in Hs. by rewrite Hs, Hr.
  - destruct (delay_ok n a b Ha Hb Hu) as (v & -> & Hv & Hx & Hsh). exists v, (S n).
    split_and!; [done|lia|done|right; lia|]. rewrite Hsh. destruct a as [| |x o m f| | | |];
      try (rewrite merge_delay; [by rewrite shape_object|done|by rewrite shape_open|done]).
    simpl in Hi. subst f. change (shape_of (SimpleConfigObject x o m false)) with (HObject (shapes m) false). rewrite merge_hidden;
      [|by rewrite shape_open|rewrite shape_object; by destruct Hor as [Hx'|]; [destruct (Hx' x o m false)|]].
    pose proof (shape_settled (SimpleConfigObject x o m false)) as Hs. simpl shape_of in Hs. by rewrite Hs, Hr.
Qed.

Lemma merge_objects m fb f :
  merge (HObject m false) (HObject fb f) = HObject (over merge fb m ++ only_in m fb) f.
Proof. done. Qed.

(** Two objects. *)
Lemma merge_objects_ok n x o m y p fb f :
  Forall (fun kv => forall n b, wf n kv.2 -> wf n b -> merged_to n kv.2 b (with_fallback kv.2 b n)) m ->
  wf n (SimpleConfigObject x o m false) -> wf n (SimpleConfigObject y p fb f) ->
  merged_to n (SimpleConfigObject x o m false) (SimpleConfigObject y p fb f)
    (with_fallback (SimpleConfigObject x o m false) (SimpleConfigObject y p fb f) n).
Proof.
  intros IH Ha Hb. inversion Ha; subst. inversion Hb; subst. cbn [with_fallback ignores_fallbacks is_unmergeable is_object].
  destruct (merge_keys_ok fb m n IH) as (kept & n1 & E & Hn1 & Hkeys & Hk & Hsh & Hch); [done..|].
  unfold se_bind. rewrite E. set (extra := fresh_keys m fb).
  assert (Hshape : shapes (kept ++ extra) = over merge (shapes fb) (shapes m) ++ only_in (shapes m) (shapes fb)).
  { rewrite map_app, Hsh. f_equal. apply shape_fresh. }
  destruct (merged_wf n1 m fb kept) as [Hnd Hwf]; [done..|by apply entries_mono with n|]. fold extra in Hnd, Hwf.
  unfold merged_object. destruct (any_changed m kept || negb (bool_decide (extra = []))) eqn:Ech.
  - destruct (merge_value_origins_ok n1 n [SimpleConfigObject x o m false; SimpleConfigObject y p fb f])
      as (og & Eo & Hog); [done|by repeat constructor|]. unfold se_bind. rewrite Eo.
    destruct (make_object_ok n1 og (kept ++ extra) f) as [-> Hw]; [done..|].
    eexists _, _. split_and!; [done|lia|done|right; simpl; lia|]. cbn [shape_of]. rewrite merge_objects. by f_equal.
  - apply orb_false_iff in Ech as [Hc He]. apply negb_false_iff, bool_decide_eq_true in He.
    specialize (Hch Hc). subst kept. rewrite He in *. rewrite app_nil_r in *.
    assert (Hres : is_resolved (SimpleConfigObject x o m false) = from_map m) by done. rewrite Hres, eqb_refl_neg.
    destruct f; cbn [orb negb eqb].
    + destruct (make_object_ok n1 o m true) as [-> Hw]; [done..|].
      eexists _, _. split_and!; [done|lia|done|right; simpl; lia|]. cbn [shape_of]. rewrite merge_objects. by f_equal.
    + eexists _, _. split_and!; [done|lia|by apply wf_mono with n|by left|]. cbn [shape_of]. rewrite merge_objects. by f_equal.
Qed.

(** The implementation returns a value of the specified shape. *)
Lemma with_fallback_ok a : forall n b, wf n a -> wf n b -> merged_to n a b (with_fallback a b n).
Proof.
  assert (Hfinal : forall a n b, wf n a -> ignores_fallbacks a = true -> merged_to n a b (Ok a, n)).
  { intros v n b Hv Hi. exists v, n. split_and!; [done|lia|done|by left|]. by rewrite merge_final by (by rewrite shape_final). }
  induction a as [x o s|x o l IH|x o m f IH|x o l IH|x o e k|x o l IH|x o l IH] using value_tree_ind; intros n b Ha Hb;
    match goal with |- merged_to n ?a b _ => destruct (ignores_fallbacks a) eqn:Hi end;
    cbn [with_fallback]; rewrite Hi; try (by apply Hfinal);
    (destruct (is_unmergeable b) eqn:Hu; [by apply merge_open_ok|]);
    try (by destruct (is_object b); apply merge_plain_ok; auto).
  destruct (is_object b) eqn:Ho; [|by apply merge_plain_ok; auto].
  destruct b as [| |y p fb g| | | |]; try done. simpl in Hi. subst f. by apply merge_objects_ok.
Qed.

(** C7: [with_fallback] does what [merge] says, on every pair of well-formed
    values, resolved or not: it always returns (none of the "bug" exceptions of
    the merging code can occur, also not the ones for a wrong resolve status or
    for nested delayed merges), the result is well-formed again, and it has the
    merged shape, whatever the pointer comparisons decide to share. *)
Theorem with_fallback_refines n a b :
  wf n a -> wf n b ->
  exists v n', with_fallback a b n = (Ok v, n') /\ (n <= n')%nat /\ wf n' v
    /\ shape_of v = merge (shape_of a) (shape_of b).
Proof.
  intros Ha Hb. destruct (with_fallback_ok a n b Ha Hb) as (v & n' & E & Hn & Hv & _ & Hs). by exists v, n'.
Qed.

(** ** Associativity *)

Lemma shape_tree_ind (P : shape -> Prop)
  (Hs : forall s, P (HScalar s)) (Hl : forall l, Forall P l -> P (HList l))
  (Hm : forall m b, Forall (fun kv => P kv.2) m -> P (HObject m b))
  (Hc : forall l, Forall P l -> P (HConcat l)) (Hr : forall e n, P (HRef e n))
  (Hd : forall b l, Forall P l -> P (HDelayed b l)) : forall h, P h.
Proof.
  fix IH 1. intros [s|l|m b|l|e n|b l]; [apply Hs|apply Hl|apply Hm|apply Hc|apply Hr|apply Hd];
    try (induction l as [|x l IHl]; constructor; [apply IH|apply IHl]).
  induction m as [|[k v] m IHm]; constructor; [apply IH|apply IHm].
Qed.

Lemma over_app f fb x y : over f fb (x ++ y) = over f fb x ++ over f fb y.
Proof. induction x as [|[k v] x IH]; [done|]. simpl. by rewrite IH. Qed.

Lemma lookup_app {A} k (x y : list (str * A)) :
  lookup_key k (x ++ y) = match lookup_key k x with None => lookup_key k y | r => r end.
Proof. induction x as [|[k' v] x IH]; [done|]. simpl. by case_bool_decide. Qed.

Lemma lookup_over f fb k m :
  lookup_key k (over f fb m) = (fun x => match lookup_key k fb with None => x | Some y => f x y end) <$> lookup_key k m.
Proof. induction m as [|[k' v] m IH]; [done|]. simpl. case_bool_decide as E; [by subst|done]. Qed.

Lemma lookup_only_in {A B} k (m : list (str * A)) (fb : list (str * B)) :
  lookup_key k (only_in m fb) = match lookup_key k m with None => lookup_key k fb | Some _ => None end.
Proof.
  unfold only_in. induction fb as [|[k' v] fb IH]; simpl; [by destruct (lookup_key k m)|].
  destruct (lookup_key k' m) eqn:E; simpl; case_bool_decide as Ek; subst; rewrite ?E in *; try done.
Qed.

Lemma over_only_in f fc (m mb : list (str * shape)) : over f fc (only_in m mb) = only_in m (over f fc mb).
Proof.
  unfold only_in. induction mb as [|[k v] mb IH]; [done|]. simpl. destruct (lookup_key k m); simpl; [exact IH|].
  by rewrite IH.
Qed.

Lemma only_in_app {A B} (m : list (str * A)) (x y : list (str * B)) : only_in m (x ++ y) = only_in m x ++ only_in m y.
Proof. apply List.filter_app. Qed.

Lemma only_in_union f (m mb mc : list (str * shape)) :
  only_in (over f mb m ++ only_in m mb) mc = only_in m (only_in mb mc).
Proof.
  unfold only_in at 1 3. induction mc as [|[k v] mc IH]; [done|]. unfold only_in at 2. simpl.
  rewrite lookup_app, lookup_over, lookup_only_in.
  destruct (lookup_key k m) eqn:E; simpl; destruct (lookup_key k mb) eqn:E2; simpl; rewrite ?E; try exact IH.
  by rewrite IH.
Qed.

Lemma over_assoc m mb mc :
  Forall (fun kv => forall b c, settled kv.2 = true -> settled b = true -> settled c = true ->
            merge (merge kv.2 b) c = merge kv.2 (merge b c)) m ->
  forallb (fun kv => settled kv.2) m = true -> forallb (fun kv => settled kv.2) mb = true ->
  forallb (fun kv => settled kv.2) mc = true ->
  over merge mc (over merge mb m) = over merge (over merge mc mb ++ only_in mb mc) m.
Proof.
  intros Hm Hs Hsb Hsc.
  assert (Hget : forall (x : list (str * shape)) k v, forallb (fun kv => settled kv.2) x = true ->
            lookup_key k x = Some v -> settled v = true).
  { intros x k v. induction x as [|[k' w] x IH]; simpl; [done|]. intros [Hw Hx]%andb_true_iff.
    case_bool_decide; [by intros [= <-]|by apply IH]. }
  induction Hm as [|[k x] m Hx Hm IH]; [done|]. simpl in *. apply andb_true_iff in Hs as [Hsx Hs].
  rewrite IH by done. f_equal. f_equal. rewrite lookup_app, lookup_over, lookup_only_in.
  destruct (lookup_key k mb) as [y|] eqn:Ey; simpl; [|by destruct (lookup_key k mc)].
  destruct (lookup_key k mc) as [z|] eqn:Ez; [|done]. apply Hx; [done|by apply (Hget mb k)|by apply (Hget mc k)].
Qed.

Lemma settled_merge a b : settled a = true -> settled b = true -> settled (merge a b) = true.
Proof.
  revert b. induction a as [s|l _|m f IH|l _|e k|o l _] using shape_tree_ind; intros b Ha Hb; try done.
  { by rewrite merge_final. }
  destruct f; [by rewrite merge_final|].
  destruct b as [s|l|mb g|l|e k|o l]; try done; try (rewrite merge_hidden by done; rewrite Ha; exact Ha).
  rewrite merge_objects. simpl in *. rewrite forallb_app. apply andb_true_iff. split.
  - induction IH as [|[k x] m Hx Hm IHm]; [done|]. simpl in *. apply andb_true_iff in Ha as [Hsx Ha].
    apply andb_true_iff. split; [|by apply IHm]. destruct (lookup_key k mb) as [y|] eqn:E; [|done].
    apply Hx; [done|]. clear -Hb E. induction mb as [|[k' w] mb IH]; simpl in *; [done|].
    apply andb_true_iff in Hb as [Hw Hb]. case_bool_decide; [by simplify_eq|by apply IH].
  - unfold only_in. clear -Hb. induction mb as [|[k' w] mb IH]; simpl in *; [done|].
    apply andb_true_iff in Hb as [Hw Hb]. destruct (lookup_key k' m); simpl; [by apply IH|]. by rewrite Hw, IH.
Qed.

Lemma merge_assoc a : forall b c, settled a = true -> settled b = true -> settled c = true ->
  merge (merge a b) c = merge a (merge b c).
Proof.
  induction a as [s|l _|m f IH|l _|e k|o l _] using shape_tree_ind; intros b c Ha Hb Hc; try done.
  { by rewrite !(merge_final (HList l)). }
  destruct f; [by rewrite !(merge_final (HObject m true))|].
  assert (Hb' : (exists mb g, b = HObject mb g) \/ (final b = true /\ open_shape b = false /\ object_shape b = false)).
  { destruct b; try done; [by right|by right|left; eauto]. }
  destruct Hb' as [(mb & g & ->)|(Hf & Ho & Hobj)].
  2:{ rewrite (merge_final b) by done. rewrite merge_hidden by done. rewrite Ha. by apply merge_final. }
  destruct g; [by rewrite (merge_final (HObject mb true)) by done; rewrite merge_objects, merge_final|].
  assert (Hc' : (exists mc h, c = HObject mc h) \/ (open_shape c = false /\ object_shape c = false)).
  { destruct c; try done; [by right|by right|left; eauto]. }
  destruct Hc' as [(mc & h & ->)|(Ho & Hobj)].
  - rewrite !merge_objects. f_equal. rewrite over_app, over_only_in, only_in_union, over_assoc, only_in_app by done.
    by rewrite <- app_assoc.
  - rewrite (merge_hidden mb) by done. rewrite Hb, !merge_objects, merge_hidden by done.
    pose proof (settled_merge (HObject m false) (HObject mb false) Ha Hb) as Hs. rewrite merge_objects in Hs.
    by rewrite Hs.
Qed.

(** C11: merging is associative on resolved values: stacking configurations from
    either end gives values of the same shape (keys, scalars, and the mark that a
    merged object takes no more fallbacks), although the implementation allocates
    and shares differently, and the result is resolved. *)
Theorem with_fallback_assoc n a b c :
  wf n a -> wf n b -> wf n c -> is_resolved a = true -> is_resolved b = true -> is_resolved c = true ->
  exists l r nl nr,
    (let* ab := with_fallback a b in with_fallback ab c) n = (Ok l, nl)
    /\ (let* bc := with_fallback b c in with_fallback a bc) n = (Ok r, nr)
    /\ shape_of l = shape_of r /\ is_resolved l = true.
Proof.
  intros Ha Hb Hc Ra Rb Rc. rewrite <- shape_settled in Ra, Rb, Rc. unfold se_bind.
  destruct (with_fallback_ok a n b Ha Hb) as (ab & n1 & -> & Hn1 & Hab & _ & Sab).
  destruct (with_fallback_ok b n c Hb Hc) as (bc & n2 & -> & Hn2 & Hbc & _ & Sbc).
  destruct (with_fallback_ok ab n1 c Hab) as (l & nl & -> & _ & Hl & _ & Sl); [by apply wf_mono with n|].
  destruct (with_fallback_ok a n2 bc) as (r & nr & -> & _ & Hr & _ & Sr); [by apply wf_mono with n|done|].
  exists l, r, nl, nr. rewrite Sl, Sr, Sab, Sbc, <- shape_settled, Sl, Sab. split_and!; [done|done|by apply merge_assoc|].
  apply settled_merge; [by apply settled_merge|done].
Qed.
End ValueMerge.

Abbreviation shapes := (map (fun kv : str * value => (kv.1, shape_of kv.2))).

(** ** Concrete runs *)

Lemma good_by_char c o : c ∈ description_ o -> c ∉ merge_of_prefix -> good_origin o.
Proof. intros Hc Hn Ho. apply Hn. by eapply only_merges_chars. Qed.

Definition app_origin : SimpleConfigOrigin := mkOrigin $"app.conf" 1 1 FILE [].

Lemma app_origin_good : good_origin app_origin.
Proof. apply (good_by_char "p"%char); apply (bool_decide_unpack _); vm_compute; exact I. Qed.

(** [{x : 1, sub : {p : on}}], [{sub : {q : 2}, y : ${x}}] and [{sub : 3}]. *)
Definition over_layer : value (H := whole_doubles) :=
  SimpleConfigObject 0 app_origin
    [($"x", Scalar 1 app_origin (ConfigInt 1 $"1"));
     ($"sub", SimpleConfigObject 2 app_origin [($"p", Scalar 3 app_origin (ConfigString $"on"))] false)] false.
Definition under_layer : value (H := whole_doubles) :=
  SimpleConfigObject 4 app_origin
    [($"sub", SimpleConfigObject 5 app_origin [($"q", Scalar 6 app_origin (ConfigInt 2 $"2"))] false);
     ($"y", ConfigReference 7 app_origin (mkSubst (One $"x") false) 0)] false.
Definition settled_layer : value (H := whole_doubles) :=
  SimpleConfigObject 8 app_origin
    [($"sub", SimpleConfigObject 9 app_origin [($"q", Scalar 10 app_origin (ConfigInt 2 $"2"))] false)] false.
Definition flat_layer : value (H := whole_doubles) :=
  SimpleConfigObject 11 app_origin [($"sub", Scalar 12 app_origin (ConfigInt 3 $"3"))] false.

(** The well-formedness of a concrete value. *)
Ltac concrete_wf :=
  repeat first [apply app_origin_good | lia | constructor
               | apply (bool_decide_unpack _); vm_compute; exact I].

Lemma with_fallback_refines_witness :
  exists v n', with_fallback over_layer under_layer 20%nat = (Ok v, n')
    /\ shape_of v = HObject [($"x", HScalar (ConfigInt 1 $"1"));
                             ($"sub", HObject [($"p", HScalar (ConfigString $"on")); ($"q", HScalar (ConfigInt 2 $"2"))] false);
                             ($"y", HRef (mkSubst (One $"x") false) 0)] false.
Proof.
  destruct (with_fallback_refines 20 over_layer under_layer) as (v & n' & E & _ & _ & Hs); [concrete_wf|concrete_wf|].
  exists v, n'. split; [exact E|]. rewrite Hs. vm_compute. reflexivity.
Defined.

(** The scalar hides the objects below it, from either end. *)
Lemma with_fallback_assoc_witness :
  exists l r nl nr,
    (let* ab := with_fallback over_layer flat_layer in with_fallback ab settled_layer) 20%nat = (Ok l, nl)
    /\ (let* bc := with_fallback flat_layer settled_layer in with_fallback over_layer bc) 20%nat = (Ok r, nr)
    /\ shape_of l = shape_of r.
Proof.
  destruct (with_fallback_assoc 20 over_layer flat_layer settled_layer) as (l & r & nl & nr & E1 & E2 & Hs & _);
    [concrete_wf|concrete_wf|concrete_wf|reflexivity|reflexivity|reflexivity|].
  exists l, r, nl, nr. split; [exact E1|]. split; [exact E2|exact Hs].
Defined.
