(* ===== verification/ValueEdit.v ===== *)
(** * config/src/detail/{simple_config_object,config_delayed_merge_object,abstract_config_value,
    config_reference}.cpp: editing by path, looking up, moving under a prefix

    [with_only_path], [without_path], [with_value], [at_path], the lookup that an
    unresolved object can answer, and [relativized], which puts a prefix before
    the path of every substitution.  What they do is stated on shapes. *)

From S2P Require Import Prelude CLib Token Path Origin Value ValueMerge.

Open Scope Z_scope.

Section ValueEdit.
Context `{DoubleLib}.

(** ** Lookup *)

(** [attempt_peek_with_partial_resolve]: a delayed merge object answers from the
    layers above the first one that may still turn out to be an object. *)
Fixpoint attempt_peek (self : value) (key : str) {struct self} : res value_exn (option value) :=
  match self with
  | SimpleConfigObject _ _ m _ => Ok (map_find key m)
  | ConfigDelayedMergeObject _ _ stack =>
      (fix layer_loop (l : list value) : res value_exn (option value) :=
         match l with
         | [] => Err (Bug $"_delayed merge stack does not contain any unmergeable values")
         | layer :: l' =>
             if is_object layer then
               v ← attempt_peek layer key;
               match v with
               | Some w => if ignores_fallbacks w then Ok (Some w) else layer_loop l'
               | None => if is_unmergeable layer
                         then Err (Bug $"should not be reached: unmergeable object returned null value")
                         else layer_loop l'
               end
             else if is_unmergeable layer then Err NotResolved
             else if negb (is_resolved layer) then
               if is_list layer then Ok None else Err (Bug $"_expecting a list here")
             else if negb (ignores_fallbacks layer) then Err (Bug $"resolved non-object should ignore fallbacks")
             else Ok None
         end) stack
  | _ => Err Undefined
  end.

(** [AbstractConfigObject::peek_path] without a resolve context. *)
Fixpoint peek_value (self : value) (path : Path) {struct path} : res value_exn (option value) :=
  match path with
  | One key => attempt_peek self key
  | More key next =>
      v ← attempt_peek self key;
      match v with
      | Some w => if is_object w then peek_value w next else Ok None
      | None => Ok None
      end
  end.

(** ** Editing *)

Fixpoint with_only_path_or_null (self : value) (path : Path) {struct path} : M (option value) :=
  match self with
  | SimpleConfigObject _ o m b =>
      let* v := (match path with
                 | One key => se_ret (map_find key m)
                 | More key next =>
                     match map_find key m with
                     | Some w => if is_object w then with_only_path_or_null w next else se_ret None
                     | None => se_ret None
                     end
                 end) in
      match v with
      | None => se_ret None
      | Some w => let* r := make_object o [(first path, w)] (is_resolved w) b in se_ret (Some r)
      end
  | ConfigDelayedMergeObject _ _ _ => se_throw NotResolved
  | _ => se_throw Undefined
  end.

Definition with_only_path (self : value) (path : Path) : M value :=
  let* r := with_only_path_or_null self path in
  match r, self with
  | Some v, _ => se_ret v
  | None, SimpleConfigObject _ o _ b => make_object o [] true b
  | None, _ => se_throw Undefined
  end.

Fixpoint without_path (self : value) (path : Path) {struct path} : M value :=
  match self with
  | SimpleConfigObject _ o m b =>
      match path with
      | More key next =>
          match map_find key m with
          | Some w => if is_object w then
                        let* v := without_path w next in
                        let updated := map_put key v m in
                        make_object o updated (from_map updated) b
                      else se_ret self
          | None => se_ret self
          end
      | One key =>
          match map_find key m with
          | None => se_ret self
          | Some _ => let smaller := map_erase key m in make_object o smaller (from_map smaller) b
          end
      end
  | ConfigDelayedMergeObject _ _ _ => se_throw NotResolved
  | _ => se_throw Undefined
  end.

Definition with_key (self : value) (key : str) (v : value) : M value :=
  match self with
  | SimpleConfigObject _ o m b => let new_map := map_put key v m in make_object o new_map (from_map new_map) b
  | ConfigDelayedMergeObject _ _ _ => se_throw NotResolved
  | _ => se_throw Undefined
  end.

(** [at_key(origin, key)] and [at_path(origin, path)]. *)
Definition at_key (v : value) (o : SimpleConfigOrigin) (key : str) : M value := simple_object o [(key, v)].

Fixpoint at_path_loop (fuel : nat) (o : SimpleConfigOrigin) (parent_ : option Path) (result : value) : M value :=
  match parent_ with
  | None => se_ret result
  | Some p =>
      match fuel with
      | O => se_throw Undefined
      | S fuel' =>
          let* result := at_key result o (path_last p) in
          let* parent_ := lift_path (parent p) in
          at_path_loop fuel' o parent_ result
      end
  end.

Definition at_path (v : value) (o : SimpleConfigOrigin) (path : Path) : M value :=
  let* parent_ := lift_path (parent path) in
  let* result := at_key v o (path_last path) in
  at_path_loop (path_size path) o parent_ result.

(** [with_value(path, v)]: "as soon as we have a non-object, replace it entirely". *)
Fixpoint with_value (self : value) (path : Path) (v : value) {struct path} : M value :=
  match self with
  | SimpleConfigObject _ _ m _ =>
      match path with
      | One key => with_key self key v
      | More key next =>
          match map_find key m with
          | Some child =>
              if is_object child then
                let* child := with_value child next v in with_key self key child
              else
                let* o := lift_origin (new_simple ($"with_value(" ++ render next ++ $")")) in
                let* subtree := at_path v o next in
                with_key self key subtree
          | None =>
              let* o := lift_origin (new_simple ($"with_value(" ++ render next ++ $")")) in
              let* subtree := at_path v o next in
              with_key self key subtree
          end
      end
  | ConfigDelayedMergeObject _ _ _ => se_throw NotResolved
  | _ => se_throw Undefined
  end.

(** ** relativized *)

(** The end of [modify_may_throw] of an object whose children became [new]. *)
Definition modify_object (self : value) (o : SimpleConfigOrigin) (m new : list (str * value)) (b : bool) : M value :=
  if any_changed m new then make_object o new (from_map new) b else se_ret self.

(** The same for a list. *)
Definition modify_list (self : value) (o : SimpleConfigOrigin) (l new : list value) (status : bool) : M value :=
  if bool_decide (map addr_of l = map addr_of new) then se_ret self else make_list o new status.

Fixpoint relativized (prefix : Path) (v : value) {struct v} : M value :=
  match v with
  | Scalar _ _ _ => se_ret v
  | SimpleConfigList _ o l =>
      let* new := mapM (relativized prefix) l in
      modify_list v o l new (is_resolved v)
  | SimpleConfigObject _ o m b =>
      let* new := mapM (fun kv => let* w := relativized prefix kv.2 in se_ret (kv.1, w)) m in
      modify_object v o m new b
  | ConfigConcatenation _ o pieces =>
      let* new_pieces := mapM (relativized prefix) pieces in make_concatenation o new_pieces
  | ConfigReference _ o e n =>
      let* p := lift_path (prepend (Some prefix) (path_ e)) in
      match p with
      | Some p => new (fun a => ConfigReference a o (change_path e p) (wrap_u32 (n + path_length prefix)))
      | None => se_throw (BadPtr NullPath)
      end
  | ConfigDelayedMerge _ o stack =>
      let* new_stack := mapM (relativized prefix) stack in make_delayed_merge o new_stack
  | ConfigDelayedMergeObject _ o stack =>
      let* new_stack := mapM (relativized prefix) stack in make_delayed_merge_object o new_stack
  end.

(** ** Shapes under paths *)

Fixpoint shape_at (h : shape) (ks : list str) : option shape :=
  match ks with
  | [] => Some h
  | k :: ks' => match h with HObject m _ => x ← lookup_key k m; shape_at x ks' | _ => None end
  end.

(** Two key lists that part: neither leads through the other. *)
Inductive diverge : list str -> list str -> Prop :=
| diverge_here a b p q : a <> b -> diverge (a :: p) (b :: q)
| diverge_there k p q : diverge p q -> diverge (k :: p) (k :: q).

Definition is_simple_object (v : value) : bool := match v with SimpleConfigObject _ _ _ _ => true | _ => false end.

Lemma resolved_simple v : is_resolved v = true -> is_object v = true -> is_simple_object v = true.
Proof. by destruct v. Qed.

Lemma lookup_map_put k k' v m :
  lookup_key k' (shapes (map_put k v m)) = if bool_decide (k' = k) then Some (shape_of v) else lookup_key k' (shapes m).
Proof.
  induction m as [|[k1 w] m IH]; simpl; [repeat case_bool_decide; congruence|].
  destruct (bool_decide (k1 = k)) eqn:E; bool_to_prop; subst; simpl; [repeat case_bool_decide; congruence|].
  rewrite IH. repeat case_bool_decide; congruence.
Qed.

Lemma lookup_map_erase k k' m :
  lookup_key k' (shapes (map_erase k m)) = if bool_decide (k' = k) then None else lookup_key k' (shapes m).
Proof.
  unfold map_erase. induction m as [|[k1 w] m IH]; simpl; [by case_bool_decide|].
  destruct (bool_decide (k1 = k)) eqn:E; bool_to_prop; subst; simpl; rewrite IH; repeat case_bool_decide; congruence.
Qed.

Lemma map_put_elem k v (m : list (str * value)) k' : k' ∈ (map_put k v m).*1 <-> k' = k \/ k' ∈ m.*1.
Proof.
  induction m as [|[k1 w] m IH]; cbn [map_put].
  - rewrite fmap_cons, elem_of_cons. simpl. tauto.
  - case_bool_decide; subst; rewrite !fmap_cons, !elem_of_cons; simpl; [tauto|]. rewrite IH. tauto.
Qed.

Lemma map_put_keys k v (m : list (str * value)) : NoDup m.*1 -> NoDup (map_put k v m).*1.
Proof.
  induction m as [|[k1 w] m IH]; cbn [map_put]; [intros _; apply NoDup_singleton|].
  rewrite fmap_cons. intros [Hk Hm]%NoDup_cons. case_bool_decide; subst; rewrite fmap_cons; apply NoDup_cons; [done|].
  split; [|by apply IH]. rewrite map_put_elem. simpl in *. intros [->|Hin]; done.
Qed.

Lemma map_put_wf n k v m : wf n v -> Forall (fun kv => wf n kv.2) m -> Forall (fun kv => wf n kv.2) (map_put k v m).
Proof.
  intros Hv. induction 1 as [|[k1 w] m Hw Hm IH]; simpl; [by repeat constructor|].
  case_bool_decide; constructor; auto.
Qed.

(** Replacing the value of one key. *)
Lemma put_ok n a o m b k v :
  wf n (SimpleConfigObject a o m b) -> wf n v ->
  make_object o (map_put k v m) (from_map (map_put k v m)) b n
    = (Ok (SimpleConfigObject n o (map_put k v m) b), S n)
  /\ wf (S n) (SimpleConfigObject n o (map_put k v m) b).
Proof.
  intros Hs Hv. inversion Hs; subst. apply make_object_ok; [done|by apply map_put_keys|by apply map_put_wf].
Qed.

Lemma shape_at_put n o k v m b ks :
  shape_at (shape_of (SimpleConfigObject n o (map_put k v m) b)) (k :: ks) = shape_at (shape_of v) ks.
Proof. cbn [shape_of shape_at]. by rewrite lookup_map_put, bool_decide_true. Qed.

Lemma shape_at_put_other n o a k k' v m b ks :
  k <> k' ->
  shape_at (shape_of (SimpleConfigObject n o (map_put k v m) b)) (k' :: ks)
  = shape_at (shape_of (SimpleConfigObject a o m b)) (k' :: ks).
Proof. intros. cbn [shape_of shape_at]. by rewrite lookup_map_put, bool_decide_false by done. Qed.

Lemma shape_at_child a o m b k w ks :
  map_find k m = Some w -> shape_at (shape_of (SimpleConfigObject a o m b)) (k :: ks) = shape_at (shape_of w) ks.
Proof. intros E. cbn [shape_of shape_at]. by rewrite shape_find, E. Qed.

Lemma shape_at_missing a o m b k ks :
  map_find k m = None -> shape_at (shape_of (SimpleConfigObject a o m b)) (k :: ks) = None.
Proof. intros E. cbn [shape_of shape_at]. by rewrite shape_find, E. Qed.

Lemma shape_at_plain v k ks : is_resolved v = true -> is_object v = false -> shape_at (shape_of v) (k :: ks) = None.
Proof. by destruct v. Qed.

Lemma resolved_child a o m b k w : is_resolved (SimpleConfigObject a o m b) = true -> map_find k m = Some w -> is_resolved w = true.
Proof.
  simpl. induction m as [|[k' x] m IH]; simpl; [done|]. intros [Hx Hm]%andb_true_iff.
  case_bool_decide; [by intros [= <-]|by apply IH].
Qed.

Lemma wf_child n a o m b k w : wf n (SimpleConfigObject a o m b) -> map_find k m = Some w -> wf n w.
Proof. inversion 1; subst. by apply map_find_wf. Qed.

(** ** at_path *)

Definition nested (ks : list str) (h : shape) : shape := foldr (fun k h => HObject [(k, h)] false) h ks.

Lemma at_key_ok n v o k :
  wf n v -> good_origin o ->
  at_key v o k n = (Ok (SimpleConfigObject n o [(k, v)] false), S n) /\ wf (S n) (SimpleConfigObject n o [(k, v)] false).
Proof. intros Hv Ho. apply make_object_ok; [done|apply NoDup_singleton|by repeat constructor]. Qed.

Lemma at_path_loop_ok o ks : good_origin o -> forall fuel n v,
  wf n v -> (length ks <= fuel)%nat ->
  exists r n', at_path_loop fuel o (of_elements ks) v n = (Ok r, n') /\ (n <= n')%nat /\ wf n' r
    /\ shape_of r = nested ks (shape_of v) /\ (is_object v = true -> is_object r = true).
Proof.
  intros Ho. induction ks as [|k ks IH] using rev_ind; intros fuel n v Hv Hf.
  { exists v, n. split_and!; try done. by destruct fuel. }
  rewrite length_app in Hf. simpl in Hf. destruct fuel as [|fuel]; [lia|].
  destruct (of_elements (ks ++ [k])) as [p|] eqn:Ep.
  2:{ apply (f_equal ptr_elements) in Ep. rewrite of_elements_spec in Ep. by destruct ks. }
  assert (Hel : path_elements p = ks ++ [k]).
  { apply (f_equal ptr_elements) in Ep. by rewrite of_elements_spec in Ep. }
  assert (Hlast : path_last p = k).
  { pose proof (last_spec p) as Hl. rewrite Hel, last_snoc in Hl. by simplify_eq. }
  cbn [at_path_loop]. rewrite Hlast, parent_spec, Hel, removelast_last. unfold se_bind.
  destruct (at_key_ok n v o k Hv Ho) as [-> Hw]. cbn [lift_path se_ret].
  destruct (IH fuel (S n) _ Hw ltac:(lia)) as (r & n' & -> & Hn & Hr & Hs & Hobj).
  exists r, n'. split_and!; [done|lia|done| |by auto]. rewrite Hs. unfold nested. by rewrite foldr_app.
Qed.

Lemma at_path_ok n v o p :
  wf n v -> good_origin o ->
  exists r n', at_path v o p n = (Ok r, n') /\ (n <= n')%nat /\ wf n' r
    /\ shape_of r = nested (path_elements p) (shape_of v) /\ is_object r = true.
Proof.
  intros Hv Ho. unfold at_path. rewrite parent_spec. unfold se_bind. cbn [lift_path se_ret].
  assert (exists ks, path_elements p = ks ++ [path_last p]) as (ks & Hel).
  { pose proof (last_spec p) as Hl. apply last_Some in Hl. done. }
  rewrite Hel, removelast_last. destruct (at_key_ok n v o (path_last p) Hv Ho) as [-> Hw].
  destruct (at_path_loop_ok o ks Ho (path_size p) (S n) _ Hw) as (r & n' & -> & Hn & Hr & Hs & Hobj).
  { rewrite path_size_elements, Hel, length_app. simpl. lia. }
  exists r, n'. split_and!; [done|lia|done| |by auto]. rewrite Hs. unfold nested. by rewrite foldr_app.
Qed.

Lemma shape_at_nested ks h : shape_at (nested ks h) ks = Some h.
Proof. induction ks as [|k ks IH]; [done|]. simpl. by rewrite bool_decide_true. Qed.

Lemma shape_at_nested_other ks h q : diverge ks q -> shape_at (nested ks h) q = None.
Proof. induction 1 as [a b p q Hab|k p q _ IH]; simpl; [by rewrite bool_decide_false|]. by rewrite bool_decide_true. Qed.

(** ** with_value *)

Lemma named_origin_good s : good_origin (mkOrigin ($"with_value(" ++ s) (-1) (-1) GENERIC []).
Proof.
  apply (good_by_char "_"%char); [|apply (bool_decide_unpack _); vm_compute; exact I].
  unfold description_. rewrite elem_of_app. left. apply (bool_decide_unpack _). vm_compute. exact I.
Qed.

(** What holds of a resolved object's edits, by the path edited. *)
Definition edited (n : nat) (self : value) (ks : list str) (found : option shape)
    (r : res value_exn value * nat) : Prop :=
  exists v n', r = (Ok v, n') /\ (n <= n')%nat /\ wf n' v /\ is_object v = true
    /\ shape_at (shape_of v) ks = found
    /\ forall q, diverge ks q -> shape_at (shape_of v) q = shape_at (shape_of self) q.

(** Putting a value under a key, once the value has the edited shape. *)
Lemma edited_put n n1 a o m b k w ks found :
  wf n (SimpleConfigObject a o m b) -> (n <= n1)%nat -> wf n1 w ->
  shape_at (shape_of w) ks = found ->
  (forall q, diverge ks q -> shape_at (shape_of w) q = shape_at (shape_of (SimpleConfigObject a o m b)) (k :: q)) ->
  edited n (SimpleConfigObject a o m b) (k :: ks) found (with_key (SimpleConfigObject a o m b) k w n1).
Proof.
  intros Hs Hn Hw Hat Hq. cbn [with_key].
  destruct (put_ok n1 a o m b k w) as [-> Hr]; [by apply wf_mono with n|done|].
  eexists _, _. split_and!; [done|lia|done|done|by rewrite shape_at_put|].
  intros q Hd. inversion Hd; subst; [by apply shape_at_put_other|]. rewrite shape_at_put. by apply Hq.
Qed.

(** A key without an object under it gets a new chain of objects. *)
Definition with_subtree (self : value) (k : str) (next : Path) (v : value) : M value :=
  let* o := lift_origin (new_simple ($"with_value(" ++ render next ++ $")")) in
  let* subtree := at_path v o next in
  with_key self k subtree.

Lemma with_subtree_ok n a o m b k next v :
  wf n (SimpleConfigObject a o m b) -> wf n v ->
  (forall q, diverge (path_elements next) q -> shape_at (shape_of (SimpleConfigObject a o m b)) (k :: q) = None) ->
  edited n (SimpleConfigObject a o m b) (k :: path_elements next) (Some (shape_of v))
    (with_subtree (SimpleConfigObject a o m b) k next v n).
Proof.
  intros Hs Hv Hnone. unfold with_subtree, new_simple, make_origin. rewrite bool_decide_false by done.
  unfold se_bind. cbn [lift_origin se_ret].
  destruct (at_path_ok n v _ next Hv (named_origin_good (render next ++ $")"))) as (w & n1 & -> & Hn & Hw & Hsh & _).
  apply edited_put; try done; [by rewrite Hsh, shape_at_nested|].
  intros q Hd. rewrite Hnone, Hsh by done. by apply shape_at_nested_other.
Qed.

Lemma with_value_ok path : forall n self v,
  wf n self -> is_resolved self = true -> is_object self = true -> wf n v ->
  edited n self (path_elements path) (Some (shape_of v)) (with_value self path v n).
Proof.
  induction path as [k|k next IH]; intros n self v Hs Hr Ho Hv;
    (destruct self as [| |a o m b| | | |]; try done); cbn [with_value path_elements].
  - apply edited_put; [done|lia|done|done|]. intros q Hd. inversion Hd.
  - fold (with_subtree (SimpleConfigObject a o m b) k next v). destruct (map_find k m) as [child|] eqn:Ef.
    + destruct (is_object child) eqn:Eo.
      * unfold se_bind. destruct (IH n child v) as (w & n1 & -> & Hn & Hw & _ & Hat & Hq);
          [by eapply wf_child|by eapply resolved_child|done|done|].
        apply edited_put; try done. intros q Hd. rewrite Hq by done. by rewrite (shape_at_child a o m b k child).
      * apply with_subtree_ok; try done. intros q Hd. rewrite (shape_at_child a o m b k child) by done.
        inversion Hd; subst; apply shape_at_plain; [by eapply resolved_child|done|by eapply resolved_child|done].
    + apply with_subtree_ok; try done. intros q Hd. by apply shape_at_missing.
Qed.

(** ** without_path *)

Lemma map_erase_wf n k a o m b :
  wf n (SimpleConfigObject a o m b) ->
  make_object o (map_erase k m) (from_map (map_erase k m)) b n = (Ok (SimpleConfigObject n o (map_erase k m) b), S n)
  /\ wf (S n) (SimpleConfigObject n o (map_erase k m) b).
Proof. inversion 1; subst. apply make_object_ok; [done|by apply filter_keys|by apply filter_all]. Qed.

Lemma edited_same n self ks :
  wf n self -> is_object self = true -> shape_at (shape_of self) ks = None ->
  edited n self ks None (Ok self, n).
Proof. intros Hs Ho Hat. exists self, n. split_and!; try done. Qed.

Lemma without_path_ok path : forall n self,
  wf n self -> is_resolved self = true -> is_object self = true ->
  edited n self (path_elements path) None (without_path self path n).
Proof.
  induction path as [k|k next IH]; intros n self Hs Hr Ho;
    (destruct self as [| |a o m b| | | |]; try done); cbn [without_path path_elements].
  - destruct (map_find k m) as [w|] eqn:Ef; [|by apply edited_same; [..|apply shape_at_missing]].
    destruct (map_erase_wf n k a o m b Hs) as [-> Hw]. eexists _, _. split_and!; [done|lia|done|done| |].
    + cbn [shape_of shape_at]. by rewrite lookup_map_erase, bool_decide_true.
    + intros q Hd. inversion Hd as [? b' ? ? Hne|? ? ? Hd']; subst; [|inversion Hd'].
      cbn [shape_of shape_at]. by rewrite lookup_map_erase, bool_decide_false by done.
  - destruct (map_find k m) as [w|] eqn:Ef; [|by apply edited_same; [..|apply shape_at_missing]].
    destruct (is_object w) eqn:Eo.
    + unfold se_bind. destruct (IH n w) as (v & n1 & -> & Hn & Hv & _ & Hat & Hq);
        [by eapply wf_child|by eapply resolved_child|done|].
      apply (edited_put n n1 a o m b k v); try done. intros q Hd. rewrite Hq by done. by rewrite (shape_at_child a o m b k w).
    + apply edited_same; [done|done|]. rewrite (shape_at_child a o m b k w) by done.
      rewrite elements_first. apply shape_at_plain; [by eapply resolved_child|done].
Qed.

(** ** with_only_path *)

Lemma make_single_ok n o k w b :
  good_origin o -> wf n w ->
  make_object o [(k, w)] (is_resolved w) b n = (Ok (SimpleConfigObject n o [(k, w)] b), S n)
  /\ wf (S n) (SimpleConfigObject n o [(k, w)] b).
Proof.
  intros Ho Hw. assert (Er : is_resolved w = from_map [(k, w)]) by (unfold from_map; simpl; by rewrite andb_true_r).
  rewrite Er. apply make_object_ok; [done|apply NoDup_singleton|by repeat constructor].
Qed.

Lemma with_only_path_or_null_ok path : forall n self,
  wf n self -> is_resolved self = true -> is_object self = true ->
  exists r n', with_only_path_or_null self path n = (Ok r, n') /\ (n <= n')%nat
    /\ match r with
       | None => shape_at (shape_of self) (path_elements path) = None
       | Some v => wf n' v /\ is_object v = true
                   /\ shape_at (shape_of v) (path_elements path) = shape_at (shape_of self) (path_elements path)
                   /\ forall q, diverge (path_elements path) q -> shape_at (shape_of v) q = None
       end.
Proof.
  induction path as [k|k next IH]; intros n self Hs Hr Ho;
    (destruct self as [| |a o m b| | | |]; try done); cbn [with_only_path_or_null path_elements first]; unfold se_bind.
  - cbn [se_ret]. destruct (map_find k m) as [w|] eqn:Ef.
    + destruct (make_single_ok n o k w b) as [-> Hw]; [by apply wf_origin in Hs|by eapply wf_child|].
      eexists _, _. split; [done|]. split; [lia|]. split_and!; [done|done| |].
      * rewrite (shape_at_child a o m b k w) by done. simpl. by rewrite bool_decide_true.
      * intros q Hd. inversion Hd as [? b' ? ? Hne|? ? ? Hd']; subst; [|inversion Hd']. simpl. by rewrite bool_decide_false.
    + exists None, n. split; [done|]. split; [lia|]. by apply shape_at_missing.
  - destruct (map_find k m) as [w|] eqn:Ef.
    2:{ exists None, n. split; [done|]. split; [lia|]. by apply shape_at_missing. }
    destruct (is_object w) eqn:Eo.
    2:{ exists None, n. split; [done|]. split; [lia|]. rewrite (shape_at_child a o m b k w) by done.
        rewrite elements_first. apply shape_at_plain; [by eapply resolved_child|done]. }
    destruct (IH n w) as (r & n1 & -> & Hn & Hor); [by eapply wf_child|by eapply resolved_child|done|].
    destruct r as [v|]; [|exists None, n1; split; [done|]; split; [done|]; by rewrite (shape_at_child a o m b k w)].
    destruct Hor as (Hv & _ & Hat & Hq).
    destruct (make_single_ok n1 o k v b) as [-> Hw]; [by apply wf_origin in Hs|done|].
    eexists _, _. split; [done|]. split; [lia|]. split_and!; [done|done| |].
    + rewrite (shape_at_child a o m b k w) by done. simpl. by rewrite bool_decide_true.
    + intros q Hd. inversion Hd as [? b' ? ? Hne|? ? q' Hd']; subst; simpl; [by rewrite bool_decide_false|].
      rewrite bool_decide_true by done. by apply Hq.
Qed.

(** Editing a resolved object by path.  [with_value] puts the value at the path
    (creating or replacing what is in the way), [without_path] removes what is at
    the path, [with_only_path] keeps it; in the first two everything that is not
    on the path stays as it was, in the last everything else is gone.  All three
    always return, with a well-formed object. *)
Theorem path_editing n self path v :
  wf n self -> is_resolved self = true -> is_object self = true -> wf n v ->
  (exists r n', with_value self path v n = (Ok r, n') /\ wf n' r /\ is_object r = true
     /\ shape_at (shape_of r) (path_elements path) = Some (shape_of v)
     /\ forall q, diverge (path_elements path) q -> shape_at (shape_of r) q = shape_at (shape_of self) q)
  /\ (exists r n', without_path self path n = (Ok r, n') /\ wf n' r /\ is_object r = true
     /\ shape_at (shape_of r) (path_elements path) = None
     /\ forall q, diverge (path_elements path) q -> shape_at (shape_of r) q = shape_at (shape_of self) q)
  /\ (exists r n', with_only_path self path n = (Ok r, n') /\ wf n' r /\ is_object r = true
     /\ shape_at (shape_of r) (path_elements path) = shape_at (shape_of self) (path_elements path)
     /\ forall q, diverge (path_elements path) q -> shape_at (shape_of r) q = None).
Proof.
  intros Hs Hr Ho Hv. split_and!.
  - destruct (with_value_ok path n self v Hs Hr Ho Hv) as (r & n' & ? & ? & ? & ? & ? & ?). by exists r, n'.
  - destruct (without_path_ok path n self Hs Hr Ho) as (r & n' & ? & ? & ? & ? & ? & ?). by exists r, n'.
  - unfold with_only_path, se_bind. destruct (with_only_path_or_null_ok path n self Hs Hr Ho) as (r & n' & -> & Hn & Hor).
    destruct r as [r|]; [destruct Hor as (? & ? & ? & ?); by exists r, n'|].
    destruct self as [| |a o m b| | | |]; try done. apply wf_origin in Hs.
    destruct (make_object_ok n' o [] b Hs) as [E Hw]; [constructor|constructor|]. change (from_map []) with true in E. rewrite E.
    eexists _, _. split_and!; [done|done|done| |].
    + rewrite Hor, elements_first. done.
    + intros q Hd. by inversion Hd.
Qed.

(** ** relativized *)

Definition prefixed (prefix p : Path) : Path := from_option id p (of_elements (path_elements prefix ++ path_elements p)).

Fixpoint relocate (prefix : Path) (h : shape) : shape :=
  match h with
  | HScalar _ => h
  | HList l => HList (map (relocate prefix) l)
  | HObject m b => HObject (map (fun kv => (kv.1, relocate prefix kv.2)) m) b
  | HConcat l => HConcat (map (relocate prefix) l)
  | HRef e n => HRef (mkSubst (prefixed prefix (path_ e)) (optional_ e)) (wrap_u32 (n + path_length prefix))
  | HDelayed b l => HDelayed b (map (relocate prefix) l)
  end.

Definition relocated (prefix : Path) (n : nat) (v : value) (r : res value_exn value * nat) : Prop :=
  exists v' n', r = (Ok v', n') /\ (n <= n')%nat /\ wf n' v' /\ (v' = v \/ (n <= addr_of v')%nat)
    /\ shape_of v' = relocate prefix (shape_of v).

Lemma mapM_relocated prefix l :
  Forall (fun v => forall n, wf n v -> relocated prefix n v (relativized prefix v n)) l ->
  forall n, Forall (wf n) l ->
  exists l' n', mapM (relativized prefix) l n = (Ok l', n') /\ (n <= n')%nat /\ Forall (wf n') l'
    /\ map shape_of l' = map (relocate prefix) (map shape_of l) /\ (map addr_of l = map addr_of l' -> l' = l).
Proof.
  induction 1 as [|v l Hv Hl IH]; intros n Hwf; [by exists [], n|]. inversion_clear Hwf as [|? ? Hw Hwf'].
  cbn [mapM]. unfold se_bind. destruct (Hv n Hw) as (v' & n1 & -> & Hn & Hv' & Hor & Hs).
  destruct (IH n1) as (l' & n2 & -> & Hn2 & Hl' & Hsl & Hsame); [by apply wf_all_mono with n|].
  exists (v' :: l'), n2. split_and!; [done|lia|constructor; [by apply wf_mono with n1|done]|by simpl; rewrite Hs, Hsl|].
  simpl. intros [= Ha El]. rewrite Hsame by done. f_equal. destruct Hor as [|Hge]; [done|]. apply wf_addr in Hw. lia.
Qed.

Lemma mapM_entries prefix m :
  Forall (fun kv => forall n, wf n kv.2 -> relocated prefix n kv.2 (relativized prefix kv.2 n)) m ->
  forall n, Forall (fun kv => wf n kv.2) m ->
  exists m' n', mapM (fun kv => let* w := relativized prefix kv.2 in se_ret (kv.1, w)) m n = (Ok m', n')
    /\ (n <= n')%nat /\ Forall (fun kv => wf n' kv.2) m' /\ m'.*1 = m.*1
    /\ shapes m' = map (fun kv => (kv.1, relocate prefix kv.2)) (shapes m) /\ (any_changed m m' = false -> m' = m).
Proof.
  induction 1 as [|[k v] m Hv Hm IH]; intros n Hwf; [by exists [], n|]. inversion_clear Hwf as [|? ? Hw Hwf'].
  cbn [mapM fst snd] in *. unfold se_bind at 1 2. destruct (Hv n Hw) as (v' & n1 & -> & Hn & Hv' & Hor & Hs).
  cbn [se_ret]. unfold se_bind at 1.
  destruct (IH n1) as (m' & n2 & -> & Hn2 & Hm' & Hk & Hsm & Hsame); [by apply entries_mono with n|].
  exists ((k, v') :: m'), n2. split_and!; [done|lia|constructor; [by apply wf_mono with n1|done]|by rewrite !fmap_cons, Hk|
    by simpl; rewrite Hs, Hsm|].
  simpl. rewrite orb_false_iff, negb_false_iff, bool_decide_eq_true. intros [Ha El]. rewrite Hsame by done. f_equal. f_equal.
  destruct Hor as [|Hge]; [done|]. apply wf_addr in Hw. lia.
Qed.

Lemma settled_relocate prefix h : settled (relocate prefix h) = settled h.
Proof.
  induction h as [s|l IH|m f IH|l IH|e k|o l IH] using shape_tree_ind; try done; simpl.
  - induction IH as [|x l Hx _ IHl]; [done|]. simpl. by rewrite Hx, IHl.
  - induction IH as [|[k x] m Hx _ IHm]; [done|]. simpl in *. by rewrite Hx, IHm.
Qed.

Definition concat_shape (h : shape) : bool := match h with HConcat _ => true | _ => false end.
Definition delayed_shape (h : shape) : bool := match h with HDelayed _ _ => true | _ => false end.

(** A property of values that their shape tells and that stays. *)
Lemma existsb_relocated prefix (f : value -> bool) (g : shape -> bool) l l' :
  (forall v, f v = g (shape_of v)) -> (forall h, g (relocate prefix h) = g h) ->
  map shape_of l' = map (relocate prefix) (map shape_of l) -> existsb f l' = existsb f l.
Proof.
  intros Hf Hg. revert l'. induction l as [|v l IH]; intros [|v' l'] E; try done. simpl in *. injection E as E1 E2.
  rewrite (IH l' E2). f_equal. rewrite !Hf, E1. apply Hg.
Qed.

Lemma is_concatenation_shape v : is_concatenation v = concat_shape (shape_of v).
Proof. by destruct v. Qed.
Lemma is_delayed_shape v : is_delayed v = delayed_shape (shape_of v).
Proof. by destruct v. Qed.

Lemma relativized_ok prefix v : forall n, wf n v -> relocated prefix n v (relativized prefix v n).
Proof.
  induction v as [a o s|a o l IH|a o m b IH|a o l IH|a o e k|a o l IH|a o l IH] using value_tree_ind; intros n Hv;
    inversion Hv; subst; cbn [relativized]; try (unfold se_bind at 1).
  - exists (Scalar a o s), n. split_and!; try done. by left.
  - destruct (mapM_relocated prefix l IH n) as (l' & n' & -> & Hn & Hl' & Hs & Hsame); [done|].
    unfold modify_list. case_bool_decide as E.
    + rewrite Hsame in Hs by done. eexists _, _. split_and!; [done|done|by apply wf_mono with n|by left|].
      cbn [shape_of relocate]. by rewrite <- Hs.
    + assert (Hst : is_resolved (SimpleConfigList a o l) = from_values l').
      { rewrite <- (shape_settled (SimpleConfigList a o l)), <- (settled_relocate prefix). cbn [shape_of relocate].
        rewrite <- Hs. exact (shape_settled (SimpleConfigList a o l')). }
      rewrite Hst. unfold make_list. rewrite eqb_refl_neg. eexists _, _. split_and!; [done|lia| |right; simpl; lia|].
      * constructor; [lia|done|]. apply wf_all_mono with n'; [lia|done].
      * cbn [shape_of relocate]. by rewrite Hs.
  - destruct (mapM_entries prefix m IH n) as (m' & n' & -> & Hn & Hm' & Hk & Hs & Hsame); [done|].
    unfold modify_object. destruct (any_changed m m') eqn:E.
    + destruct (make_object_ok n' o m' b) as [-> Hw]; [done|by rewrite Hk|done|].
      eexists _, _. split_and!; [done|lia|done|right; simpl; lia|]. cbn [shape_of relocate]. by rewrite Hs.
    + rewrite Hsame in Hs by done. eexists _, _. split_and!; [done|done|by apply wf_mono with n|by left|].
      cbn [shape_of relocate]. by rewrite <- Hs.
  - destruct (mapM_relocated prefix l IH n) as (l' & n' & -> & Hn & Hl' & Hs & Hsame); [done|].
    assert (Hlen : length l' = length l) by (apply (f_equal length) in Hs; by rewrite !length_map in Hs).
    assert (Ec : existsb is_concatenation l' = false).
    { rewrite (existsb_relocated prefix is_concatenation concat_shape l l'); [done|apply is_concatenation_shape|by intros []|done]. }
    assert (Eu : existsb is_unmergeable l' = true).
    { rewrite (existsb_relocated prefix is_unmergeable open_shape l l'); [done|by intros; rewrite shape_open|by intros []|done]. }
    unfold make_concatenation. rewrite bool_decide_false, Ec, Eu by lia. eexists _, _.
    split_and!; [done|lia| |right; simpl; lia|by cbn [shape_of relocate]; rewrite Hs].
    constructor; [lia|done|lia|done|done|]. apply wf_all_mono with n'; [lia|done].
  - rewrite prepend_spec. cbn [lift_path se_ret]. unfold prefixed.
    destruct (of_elements (path_elements prefix ++ path_elements (path_ e))) as [p|] eqn:Ep.
    2:{ apply (f_equal ptr_elements) in Ep. rewrite of_elements_spec in Ep. by destruct prefix. }
    eexists _, _. split_and!; [done|lia|by constructor; [lia|]|right; simpl; lia|].
    cbn [shape_of relocate]. unfold prefixed, change_path. by rewrite Ep.
  - destruct (mapM_relocated prefix l IH n) as (l' & n' & -> & Hn & Hl' & Hs & Hsame); [done|].
    assert (Ed : existsb is_delayed l' = false).
    { rewrite (existsb_relocated prefix is_delayed delayed_shape l l'); [done|apply is_delayed_shape|by intros []|done]. }
    unfold make_delayed_merge. destruct l' as [|x l']; [by destruct l|]. rewrite Ed. eexists _, _.
    split_and!; [done|lia| |right; simpl; lia|by cbn [shape_of relocate]; rewrite Hs].
    constructor; [lia|done|done|done|]. apply wf_all_mono with n'; [lia|done].
  - match goal with Hx : is_object ?x = true |- _ => rename x into x0; rename Hx into Hobj end.
    destruct (mapM_relocated prefix (x0 :: l0) IH n) as (l' & n' & -> & Hn & Hl' & Hs & Hsame); [done|].
    assert (Ed : existsb is_delayed l' = false).
    { rewrite (existsb_relocated prefix is_delayed delayed_shape (x0 :: l0) l'); [done|apply is_delayed_shape|by intros []|done]. }
    unfold make_delayed_merge_object. destruct l' as [|x l']; [done|].
    assert (Hx : is_object x = true).
    { simpl in Hs. injection Hs as Hs _. rewrite <- shape_object, Hs. rewrite <- shape_object in Hobj. by destruct (shape_of x0). }
    rewrite Hx, Ed. eexists _, _. split_and!; [done|lia| |right; simpl; lia|by cbn [shape_of relocate]; rewrite Hs].
    constructor; [lia|done|done|done|]. apply wf_all_mono with n'; [lia|done].
Qed.

(** C12: [relativized] puts the prefix before the path of every substitution in a
    value, at any depth and in every kind of unresolved value, adds its length to
    their prefix length, and changes nothing else; it always returns a
    well-formed value. *)
Theorem relativized_refines prefix n v :
  wf n v -> exists v' n', relativized prefix v n = (Ok v', n') /\ wf n' v' /\ shape_of v' = relocate prefix (shape_of v).
Proof. intros Hv. destruct (relativized_ok prefix v n Hv) as (v' & n' & ? & ? & ? & ? & ?). by exists v', n'. Qed.
End ValueEdit.

(** ** Concrete runs *)

Definition deep_path : Path := More $"sub" (More $"p" (One $"z")).

Lemma path_editing_witness :
  exists r n', with_value over_layer deep_path flat_layer 20%nat = (Ok r, n')
    /\ shape_at (shape_of r) [$"sub"; $"p"; $"z"; $"sub"] = Some (HScalar (ConfigInt 3 $"3"))
    /\ shape_at (shape_of r) [$"x"] = Some (HScalar (ConfigInt 1 $"1")).
Proof.
  destruct (path_editing 20 over_layer deep_path flat_layer) as ((r & n' & E & _ & _ & _ & Hq) & _);
    [concrete_wf|reflexivity|reflexivity|concrete_wf|].
  exists r, n'. split; [exact E|]. split.
  - vm_compute in E. injection E as <- _. vm_compute. reflexivity.
  - rewrite Hq; [vm_compute; reflexivity|]. constructor. apply (bool_decide_unpack _). vm_compute. exact I.
Defined.

Lemma relativized_refines_witness :
  exists v' n', relativized (One $"inc") under_layer 20%nat = (Ok v', n')
    /\ shape_at (shape_of v') [$"y"] = Some (HRef (mkSubst (More $"inc" (One $"x")) false) 1).
Proof.
  destruct (relativized_refines (One $"inc") 20 under_layer) as (v' & n' & E & _ & Hs); [concrete_wf|].
  exists v', n'. split; [exact E|]. rewrite Hs. vm_compute. reflexivity.
Defined.

(** A delayed merge object answers for a key that no substitution below can
    touch, and refuses for one that it might still change. *)
Example delayed_peek :
  let d : value (H := whole_doubles) :=
    ConfigDelayedMergeObject 20 app_origin [over_layer; ConfigReference 21 app_origin (mkSubst (One $"r") false) 0] in
  peek_value d (One $"x") = Ok (Some (Scalar 1 app_origin (ConfigInt 1 $"1")))
  /\ peek_value d (One $"sub") = Err NotResolved /\ peek_value d (One $"nope") = Err NotResolved.
Proof. vm_compute. split_and!; reflexivity. Qed.
