(* ===== verification/Containers.v ===== *)
(** * config/: lists and objects as collections

    [ConfigList] and [ConfigObject] are standard containers with every operation
    made virtual; [SimpleConfigList] and [SimpleConfigObject] answer from their
    own [value], [ConfigDelayedMergeObject] throws, and what would change a value
    throws.  A virtual call on an object of each class is an operation here, on
    the elements that class answers from.  An iterator is a position. *)

From S2P Require Import Prelude CLib StdMap Token Origin Path PathParse Value ValueEdit.

Open Scope Z_scope.

(** The exceptions the operations throw; [Undefined_] is undefined behaviour of
    the standard container. *)
Inductive container_exn :=
| UnsupportedOperation (what : str)
| NotResolved_ (what : str)
| Out_of_range
| Undefined_.

(** Visit the positions from [b] up to [e]. *)
Definition visit {A} (b e : nat) (get : nat -> option A) : list (option A) := map get (List.seq b (e - b)).

(** ** config_list.cpp: what a class inherits that overrides nothing

    [l] is the inherited vector. *)
Module ConfigList.
Section List.
Context {A : Type}.
Implicit Types (l : list A).

Definition begin_ l : nat := 0.
Definition end_ l : nat := 0.                       (* VectorConfigValue::begin() *)
Definition at_ l (n : nat) : res container_exn A :=
  match l !! n with Some x => Ok x | None => Err Out_of_range end.
Definition front l : res container_exn A := match l with x :: _ => Ok x | [] => Err Undefined_ end.
Definition back l : res container_exn A := match last l with Some x => Ok x | None => Err Undefined_ end.
Definition index l (n : nat) : res container_exn A := at_ l n.
Definition empty_ l : bool := bool_decide (l = []).
Definition size l : nat := length l.
Definition clear l : list A := [].
Definition pop_back l : res container_exn (list A) :=
  match l with [] => Err Undefined_ | _ => Ok (take (length l - 1) l) end.
Definition resize l (n : nat) (val : A) : list A := take n l ++ replicate (n - length l) val.
Definition erase l (pos : nat) : res container_exn (nat * list A) :=
  if bool_decide (pos < length l)%nat then Ok (pos, take pos l ++ drop (S pos) l) else Err Undefined_.
Definition insert_ l (pos : nat) (val : A) : res container_exn (nat * list A) :=
  if bool_decide (pos <= length l)%nat then Ok (pos, take pos l ++ val :: drop pos l) else Err Undefined_.
End List.
End ConfigList.

(** ** simple_config_list.cpp: the same operations over [value] *)
Module SimpleList.
Section List.
Context {A : Type}.
Implicit Types (elems : list A).

Definition we_are_immutable (method : str) : container_exn :=
  UnsupportedOperation ($" ConfigList is immutable, you can't call _list.'" ++ method ++ $"'").

Definition begin_ elems : nat := 0.
Definition end_ elems : nat := length elems.
Definition at_ elems (n : nat) : res container_exn A :=
  match elems !! n with Some x => Ok x | None => Err Out_of_range end.
Definition front elems : res container_exn A := match elems with x :: _ => Ok x | [] => Err Undefined_ end.
Definition back elems : res container_exn A := match last elems with Some x => Ok x | None => Err Undefined_ end.
Definition index elems (n : nat) : res container_exn A := at_ elems n.
Definition empty_ elems : bool := bool_decide (elems = []).
Definition size elems : nat := length elems.

(** The operations that change a vector. *)
Inductive mutator := Clear | PopBack | Resize (n : nat) (val : A) | Erase (pos : nat) | Insert (pos : nat) (val : A).

Definition mutate elems (m : mutator) : res container_exn (list A) :=
  match m with
  | Clear => Err (we_are_immutable $"clear")
  | PopBack => Err (we_are_immutable $"pop_back")
  | Resize _ _ => Err (we_are_immutable $"resize")
  | Erase _ => Err (we_are_immutable $"erase")
  | Insert _ _ => Err (we_are_immutable $"insert")
  end.
End List.
End SimpleList.

(** ** config_object.cpp: the inherited map *)
Module ConfigObject.
Section Map.
Context {A : Type}.
Implicit Types (m : list (str * A)).

Definition begin_ m : nat := 0.
Definition end_ m : nat := length m.
(** The position of a key; [end_] when it is not there. *)
Fixpoint find m (key : str) : nat :=
  match m with
  | [] => 0
  | (k, _) :: m' => if bool_decide (k = key) then 0%nat else S (find m' key)
  end.
Definition index m (key : str) : option A := snd <$> m !! find m key.
Definition empty_ m : bool := bool_decide (m = []).
Definition size m : nat := length m.
Definition count m (key : str) : nat := if bool_decide (find m key = end_ m) then 0 else 1.
Definition clear m : list (str * A) := [].
Definition erase_key m (key : str) : nat * list (str * A) :=
  (count m key, take (find m key) m ++ drop (S (find m key)) m).
Definition erase_at m (pos : nat) : res container_exn (list (str * A)) :=
  if bool_decide (pos < length m)%nat then Ok (take pos m ++ drop (S pos) m) else Err Undefined_.
(** A key that is there keeps its value; where a new one goes is up to the map. *)
Definition insert_ m (val : str * A) : list (str * A) :=
  if bool_decide (find m val.1 = end_ m) then m ++ [val] else m.
End Map.
End ConfigObject.

(** ** abstract_config_object.cpp: what an object class inherits *)
Module AbstractObject.
Section Map.
Context {A : Type}.
Implicit Types (m : list (str * A)).

Definition begin_ m : nat := ConfigObject.begin_ m.
Definition end_ m : nat := ConfigObject.end_ m.
Definition index m (key : str) : option A :=
  let val := ConfigObject.find m key in
  if bool_decide (val = ConfigObject.end_ m) then None else snd <$> m !! val.
Definition empty_ m : bool := ConfigObject.empty_ m.
Definition size m : nat := ConfigObject.size m.
Definition count m (key : str) : nat := ConfigObject.count m key.
Definition find m (key : str) : nat := ConfigObject.find m key.

Definition we_are_immutable (method : str) : container_exn :=
  UnsupportedOperation ($"ConfigObject is immutable, you can't call _map." ++ method).

Inductive mutator := Clear | EraseKey (key : str) | EraseAt (pos : nat) | Insert (key : str) (val : A).

Definition mutate m (x : mutator) : res container_exn (list (str * A)) :=
  match x with
  | Clear => Err (we_are_immutable $"clear")
  | EraseKey _ => Err (we_are_immutable $"erase")
  | EraseAt _ => Err (we_are_immutable $"erase")
  | Insert _ _ => Err (we_are_immutable $"insert")
  end.
End Map.
End AbstractObject.

(** ** simple_config_object.cpp: the reading operations over [value]; the changing
    ones are those of [AbstractConfigObject] *)
Module SimpleObject.
Section Map.
Context {A : Type}.
Implicit Types (elems : list (str * A)).

Definition begin_ elems : nat := ConfigObject.begin_ elems.
Definition end_ elems : nat := ConfigObject.end_ elems.
Definition find elems (key : str) : nat := ConfigObject.find elems key.
Definition index elems (key : str) : option A :=
  let v := find elems key in
  if bool_decide (v = end_ elems) then None else snd <$> elems !! v.
Definition get elems (key : str) : option A :=
  let v := find elems key in
  if bool_decide (v = end_ elems) then None else snd <$> elems !! v.
Definition empty_ elems : bool := ConfigObject.empty_ elems.
Definition size elems : nat := ConfigObject.size elems.
Definition count elems (key : str) : nat := ConfigObject.count elems key.
End Map.
End SimpleObject.

(** ** config_delayed_merge_object.cpp: nothing is known before it is resolved *)
Module DelayedMergeObject.
Section Map.
Context {A : Type}.

Definition not_resolved : container_exn :=
  NotResolved_ $"need to Config#resolve() before using this object, see the API docs for Config::resolve()".

Definition unwrapped : res container_exn A := Err not_resolved.
Definition get (key : str) : res container_exn (option A) := Err not_resolved.
Definition begin_ : res container_exn nat := Err not_resolved.
Definition end_ : res container_exn nat := Err not_resolved.
Definition index (key : str) : res container_exn (option A) := Err not_resolved.
Definition empty_ : res container_exn bool := Err not_resolved.
Definition size : res container_exn nat := Err not_resolved.
Definition count (key : str) : res container_exn nat := Err not_resolved.
Definition find (key : str) : res container_exn nat := Err not_resolved.

Definition with_only_key (key : str) : res container_exn A := Err not_resolved.
Definition without_key (key : str) : res container_exn A := Err not_resolved.
Definition with_only_path_or_null (path : Path) : res container_exn A := Err not_resolved.
Definition with_only_path (path : Path) : res container_exn A := Err not_resolved.
Definition without_path (path : Path) : res container_exn A := Err not_resolved.
Definition with_value_key (key : str) (v : A) : res container_exn A := Err not_resolved.
Definition with_value (path : Path) (v : A) : res container_exn A := Err not_resolved.
End Map.
End DelayedMergeObject.

(** ** The virtual calls, by the class of the object *)

Section Calls.
Context `{DoubleLib}.

Definition on_object {B} (v : value) (simple : vmap -> B) (delayed : res container_exn B) : res container_exn B :=
  match v with
  | SimpleConfigObject _ _ m _ => Ok (simple m)
  | ConfigDelayedMergeObject _ _ _ => delayed
  | _ => Err Undefined_
  end.

Definition object_get (v : value) (key : str) := on_object v (fun m => SimpleObject.get m key) (DelayedMergeObject.get key).
Definition object_index (v : value) (key : str) := on_object v (fun m => SimpleObject.index m key) (DelayedMergeObject.index key).
Definition object_begin (v : value) := on_object v SimpleObject.begin_ DelayedMergeObject.begin_.
Definition object_end (v : value) := on_object v SimpleObject.end_ DelayedMergeObject.end_.
Definition object_empty (v : value) := on_object v SimpleObject.empty_ DelayedMergeObject.empty_.
Definition object_size (v : value) := on_object v SimpleObject.size DelayedMergeObject.size.
Definition object_count (v : value) (key : str) := on_object v (fun m => SimpleObject.count m key) (DelayedMergeObject.count key).
Definition object_find (v : value) (key : str) := on_object v (fun m => SimpleObject.find m key) (DelayedMergeObject.find key).

(** [ConfigObject::entry_set]: the entries from [begin] to [end]. *)
Definition object_entries (v : value) : res container_exn (list (option (str * value))) :=
  b ← object_begin v; e ← object_end v;
  match v with
  | SimpleConfigObject _ _ m _ => Ok (visit b e (fun i => m !! i))
  | _ => Err Undefined_
  end.
End Calls.

(** ** Theorems *)

Lemma visit_all {A} (l : list A) : visit 0 (length l) (fun i => l !! i) = map Some l.
Proof.
  unfold visit. rewrite Nat.sub_0_r. apply list_eq. intros i. rewrite !list_lookup_fmap.
  destruct (decide (i < length l)%nat) as [Hi|Hi].
  - rewrite lookup_seq_lt by done. simpl. destruct (lookup_lt_is_Some_2 l i Hi) as [x E]. by rewrite E.
  - rewrite lookup_seq_ge by lia. simpl. by rewrite lookup_ge_None_2 by lia.
Qed.

(** A list is a read-only sequence: visiting it from [begin] to [end] gives its
    elements in order, [at] and the subscript give the element of that position and
    throw [out_of_range] past the end, [front] and [back] are the first and the last
    one where there is one, and every operation that would change it throws. *)
Theorem list_is_sequence {A} (l : list A) :
  visit (SimpleList.begin_ l) (SimpleList.end_ l) (fun i => l !! i) = map Some l
  /\ (forall n, SimpleList.index l n = SimpleList.at_ l n
        /\ (is_ok (SimpleList.at_ l n) = true <-> (n < SimpleList.size l)%nat)
        /\ forall x, SimpleList.at_ l n = Ok x <-> l !! n = Some x)
  /\ (SimpleList.empty_ l = false -> SimpleList.front l = SimpleList.at_ l 0
        /\ SimpleList.back l = SimpleList.at_ l (SimpleList.size l - 1))
  /\ (forall m, exists e, SimpleList.mutate l m = Err (UnsupportedOperation e)).
Proof.
  split; [apply visit_all|]. split; [|split].
  - intros n. split; [done|]. unfold SimpleList.at_, SimpleList.size. split.
    + destruct (l !! n) eqn:E; simpl; [|apply lookup_ge_None in E; split; [done|intros; lia]].
      split; [|done]. intros _. by apply lookup_lt_Some in E.
    + intros x. destruct (l !! n); split; congruence.
  - unfold SimpleList.empty_. intros He. bool_to_prop. destruct l as [|x l]; [done|]. split; [done|].
    unfold SimpleList.back, SimpleList.at_, SimpleList.size. rewrite last_lookup, <- Nat.sub_1_r.
    destruct (lookup_lt_is_Some_2 (x :: l) (length (x :: l) - 1)) as [y ->]; [simpl; lia|done].
  - intros []; eexists; reflexivity.
Qed.

Section Objects.
Context `{DoubleLib}.

(** What a key of an object stands for. *)
Lemma get_map_find (m : vmap) key :
  SimpleObject.get m key = Value.map_find key m /\ SimpleObject.index m key = Value.map_find key m
  /\ SimpleObject.count m key = (match Value.map_find key m with Some _ => 1 | None => 0 end)%nat
  /\ (SimpleObject.find m key = SimpleObject.end_ m <-> Value.map_find key m = None).
Proof.
  assert (Hf : match Value.map_find key m with
    | Some v => exists k, m !! ConfigObject.find m key = Some (k, v) /\ k = key /\ ConfigObject.find m key <> length m
    | None => ConfigObject.find m key = length m
    end).
  { induction m as [|[k x] m IH]; simpl; [done|]. case_bool_decide as E; [subst; eexists; by repeat split|].
    destruct (Value.map_find key m); simpl; [|by rewrite IH]. destruct IH as (k' & ? & ? & ?). exists k'. repeat split; auto. }
  unfold SimpleObject.get, SimpleObject.index, SimpleObject.count, ConfigObject.count, SimpleObject.find, SimpleObject.end_, ConfigObject.end_.
  destruct (Value.map_find key m) as [v|].
  - destruct Hf as (k & -> & _ & Hne). rewrite !bool_decide_eq_false_2 by done. by repeat split.
  - rewrite !bool_decide_eq_true_2 by done. by repeat split.
Qed.

(** An object is a read-only map, or throws: on a [SimpleConfigObject] the
    entries from [begin] to [end] are its members, [get], the subscript, [count] and
    [find] agree with each other and with the value its merging and path operations
    see for that key, and what would change it throws; on a
    [ConfigDelayedMergeObject], whose members are not known yet, every reading
    operation throws [ConfigExceptionNotResolved]. *)
Theorem object_is_map v :
  is_object v = true ->
  match v with
  | SimpleConfigObject _ _ m _ =>
      object_entries v = Ok (map Some m) /\ object_size v = Ok (length m) /\ object_empty v = Ok (bool_decide (m = []))
      /\ (forall key, object_get v key = Ok (Value.map_find key m) /\ object_index v key = Ok (Value.map_find key m)
            /\ object_count v key = Ok (match Value.map_find key m with Some _ => 1 | None => 0 end)%nat
            /\ (object_find v key = object_end v <-> Value.map_find key m = None))
      /\ (forall x, exists e, AbstractObject.mutate m x = Err (UnsupportedOperation e))
  | _ =>
      exists e, object_entries v = Err (NotResolved_ e) /\ object_size v = Err (NotResolved_ e)
      /\ object_empty v = Err (NotResolved_ e)
      /\ forall key, object_get v key = Err (NotResolved_ e) /\ object_index v key = Err (NotResolved_ e)
           /\ object_count v key = Err (NotResolved_ e) /\ object_find v key = Err (NotResolved_ e)
  end.
Proof.
  intros Hv. destruct v as [| |a o m b| | | |a o st]; try done.
  - split; [|split; [done|split; [done|split]]].
    + unfold object_entries. simpl. f_equal. apply visit_all.
    + intros key. destruct (get_map_find m key) as (E1 & E2 & E3 & E4). unfold object_get, object_index, object_count, object_find, object_end, on_object.
      rewrite E1, E2, E3, <- E4. do 3 (split; [done|]). split; congruence.
    + intros []; eexists; reflexivity.
  - eexists. by repeat split.
Qed.

Lemma find_snoc k v (m : vmap) : Value.map_find k m = None -> Value.map_find k (m ++ [(k, v)]) = Some v.
Proof.
  induction m as [|[k' x] m IH]; simpl; [by rewrite bool_decide_eq_true_2|]. case_bool_decide; [done|]. apply IH.
Qed.

Lemma find_absent k (m : vmap) : k ∉ map fst m -> Value.map_find k m = None.
Proof.
  induction m as [|[k' x] m IH]; simpl; [done|]. intros Hk. rewrite bool_decide_eq_false_2 by set_solver.
  apply IH. set_solver.
Qed.

Lemma find_erased k (m : vmap) :
  NoDup (map fst m) -> Value.map_find k (snd (ConfigObject.erase_key m k)) = None.
Proof.
  unfold ConfigObject.erase_key. simpl. induction m as [|[k' x] m IH]; simpl; [done|].
  intros [Hk Hnd]%NoDup_cons. case_bool_decide as E; simpl.
  - subst. by rewrite drop_0; apply find_absent.
  - rewrite bool_decide_eq_false_2 by done. by apply IH.
Qed.

(** What the inherited map does with a key: after [insert] it has a value, the old
    one if there was one, and after [erase] it has none. *)
Theorem inherited_map_keys (m : vmap) k v :
  NoDup (map fst m) ->
  Value.map_find k (ConfigObject.insert_ m (k, v)) = Some (default v (Value.map_find k m))
  /\ Value.map_find k (snd (ConfigObject.erase_key m k)) = None
  /\ fst (ConfigObject.erase_key m k) = ConfigObject.count m k.
Proof.
  intros Hnd. split; [|split; [by apply find_erased|done]].
  unfold ConfigObject.insert_. simpl. destruct (get_map_find m k) as (_ & _ & _ & E).
  unfold SimpleObject.find, SimpleObject.end_ in E. case_bool_decide as F.
  - apply E in F as F'. rewrite F'. by apply find_snoc.
  - destruct (Value.map_find k m); [done|]. destruct F. by apply E.
Qed.
End Objects.

(** A [ConfigList] that overrides nothing visits nothing, whatever it holds: its
    [end] is the vector's [begin]. *)
Theorem base_list_visits_nothing {A} (l : list A) :
  visit (ConfigList.begin_ l) (ConfigList.end_ l) (fun i => l !! i) = [] /\ ConfigList.size l = length l.
Proof. done. Qed.
