(* ===== verification/ValueConcat.v ===== *)
(** * Concatenation of adjacent values

    [ConfigConcatenation::concatenate] on what the parser collects: it returns a
    well-formed value or refuses to join, and never trips over the checks of its
    own constructor. *)

From S2P Require Import Prelude CLib Token Path Origin Value ValueMerge.

Open Scope Z_scope.

Section ValueConcat.
Context `{DoubleLib}.

(** What a method that creates values leaves: more addresses, and a result that
    satisfies [Q] or an exception that satisfies [E]. *)
Definition vout {X A} (E : X -> Prop) (m : SE nat X A) (n : nat) (Q : A -> nat -> Prop) : Prop :=
  match m n with
  | (Ok a, n') => (n <= n')%nat /\ Q a n'
  | (Err e, _) => E e
  end.

Lemma vout_ret {X A} (E : X -> Prop) (a : A) n (Q : A -> nat -> Prop) : Q a n -> vout E (se_ret a) n Q.
Proof. by split. Qed.

Lemma vout_bind {X A B} (E : X -> Prop) (m : SE nat X A) (k : A -> SE nat X B) n P Q :
  vout E m n P -> (forall a n', (n <= n')%nat -> P a n' -> vout E (k a) n' Q) -> vout E (se_bind m k) n Q.
Proof.
  unfold vout, se_bind. destruct (m n) as [[a|e] n']; [|done]. intros [Hn HP] Hk. specialize (Hk a n' Hn HP).
  destruct (k a n') as [[b|e] n'']; [|done]. destruct Hk. split; [lia|done].
Qed.

Lemma vout_weaken {X A} (E E' : X -> Prop) (m : SE nat X A) n (P Q : A -> nat -> Prop) :
  vout E m n P -> (forall e, E e -> E' e) -> (forall a n', (n <= n')%nat -> P a n' -> Q a n') -> vout E' m n Q.
Proof. unfold vout. destruct (m n) as [[a|e] n']; [|by auto]. intros [Hn HP] _ HQ. auto. Qed.

Lemma vout_new E (f : nat -> value) n (Q : value -> nat -> Prop) : Q (f n) (S n) -> vout E (new f) n Q.
Proof. intros HQ. split; [lia|done]. Qed.

Lemma vout_ok {X A} (E : X -> Prop) (m : SE nat X A) n (Q : A -> nat -> Prop) a n' : m n = (Ok a, n') -> (n <= n')%nat -> Q a n' -> vout E m n Q.
Proof. unfold vout. by intros ->. Qed.

Lemma vout_origin E r n o (Q : SimpleConfigOrigin -> nat -> Prop) : r = Ok o -> Q o n -> vout E (lift_origin r) n Q.
Proof. intros -> HQ. by apply vout_ret. Qed.

(** ** Values as the parser collects them *)

(** No delayed merge; the empty string only where it is expected. *)
Variable empties : bool.

Definition is_blank (v : value) : bool := match v with Scalar _ _ (ConfigString []) => true | _ => false end.

Definition plain_piece (v : value) : Prop := is_delayed v = false /\ (is_blank v = true -> empties = true).

Definition inner_pieces (v : value) : list value := match v with ConfigConcatenation _ _ l => l | _ => [] end.

Record piece (n : nat) (v : value) : Prop := mkPiece {
  piece_wf : wf n v;
  piece_plain : plain_piece v;
  piece_inner : Forall plain_piece (inner_pieces v) }.

Definition solid (n : nat) (v : value) : Prop := piece n v /\ is_concatenation v = false.

Lemma piece_mono n n' v : (n <= n')%nat -> piece n v -> piece n' v.
Proof. intros Hn [Hv Hp Hi]. split; [by apply wf_mono with n|done..]. Qed.

Lemma pieces_mono n n' l : (n <= n')%nat -> Forall (piece n) l -> Forall (piece n') l.
Proof. intros Hn Hl. eapply Forall_impl; [exact Hl|]. intros. by apply piece_mono with n. Qed.

Lemma solid_mono n n' v : (n <= n')%nat -> solid n v -> solid n' v.
Proof. intros Hn [Hv Hd]. split; [by apply piece_mono with n|done]. Qed.

Lemma solids_mono n n' l : (n <= n')%nat -> Forall (solid n) l -> Forall (solid n') l.
Proof. intros Hn Hl. eapply Forall_impl; [exact Hl|]. intros. by apply solid_mono with n. Qed.

Lemma solid_intro n v : wf n v -> plain_piece v -> is_concatenation v = false -> solid n v.
Proof. intros Hv Hp Hc. split; [|done]. split; [done..|]. by destruct v. Qed.

(** ** Joining two values *)

(** An object piece is a plain object, and so is what two of them merge to. *)
Lemma object_piece n v : piece n v -> is_object v = true -> exists a o m b, v = SimpleConfigObject a o m b.
Proof. intros [_ [Hd _] _] Ho. destruct v; try done; eauto. Qed.

Lemma merge_object_pieces n a b :
  piece n a -> piece n b -> is_object a = true -> is_object b = true ->
  vout (fun _ => False) (with_fallback a b) n (fun v n' => solid n' v /\ is_object v = true).
Proof.
  intros Ha Hb Hoa Hob. destruct (object_piece n a Ha Hoa) as (x & o & m & f & ->).
  destruct (object_piece n b Hb Hob) as (y & p & fb & g & ->). destruct Ha as [Ha _ _], Hb as [Hb _ _].
  destruct (with_fallback_ok _ n _ Ha Hb) as (v & n' & E & Hn & Hv & _ & Hs).
  apply (vout_ok _ _ _ _ v n' E Hn).
  assert (exists hm hf, shape_of v = HObject hm hf) as (hm & hf & Hh).
  { rewrite Hs. destruct f; [rewrite merge_final by done; cbn; eauto|]. cbn [shape_of]. rewrite merge_objects. eauto. }
  by destruct v.
Qed.

(** What a joined value is; a pair that is kept has a substitution in it. *)
Definition joined (n : nat) (lhs rhs : value) (j : option value) : Prop :=
  match j with
  | None => is_unmergeable lhs || is_unmergeable rhs = true
  | Some v => solid n v /\ is_unmergeable lhs = false
  end.

Lemma join_others_ok n lhs rhs :
  solid n lhs -> solid n rhs ->
  vout (fun e => e = CannotJoin) (join_others lhs rhs) n (fun j n' => joined n' lhs rhs j).
Proof.
  intros [[Hl _ _] Hcl] [[Hr _ _] Hcr]. unfold join_others. rewrite Hcl, Hcr. simpl.
  destruct (is_unmergeable lhs || is_unmergeable rhs) eqn:Eu; [by apply vout_ret|].
  case_bool_decide as E1; [done|]. cbn [orb]. case_bool_decide; [done|].
  destruct (merge_two_good _ _ (wf_origin _ _ Hl) (wf_origin _ _ Hr)) as (o & -> & Ho).
  apply (vout_bind _ _ _ _ (fun o' n' => o' = o)); [by apply vout_ret|]. intros ? n1 Hn ->.
  eapply vout_bind; [by apply (vout_new _ _ _ (fun v n' => v = Scalar n1 o (ConfigString (value_to_string lhs ++ value_to_string rhs)) /\ n' = S n1))|].
  intros v n2 _ [-> ->]. apply vout_ret. split; [|by apply orb_false_iff in Eu as [? _]].
  apply solid_intro; [by constructor; [lia|]| |done]. split; [done|]. simpl. destruct (value_to_string lhs); done.
Qed.

Lemma concatenate_lists_ok n x o1 l1 y o2 l2 :
  wf n (SimpleConfigList x o1 l1) -> wf n (SimpleConfigList y o2 l2) ->
  vout (fun _ => False) (concatenate_lists o1 o2 l1 l2) n (fun v n' => solid n' v /\ shape_of v = HList (map shape_of (l1 ++ l2))).
Proof.
  intros H1 H2. inversion H1; subst. inversion H2; subst. unfold concatenate_lists.
  destruct (merge_two_good o1 o2) as (o & -> & Ho); [done..|].
  apply (vout_bind _ _ _ _ (fun o' n' => o' = o)); [by apply vout_ret|]. intros ? n1 Hn ->.
  unfold simple_list, make_list. rewrite eqb_refl_neg. apply vout_new. split; [|done].
  apply solid_intro; [|done|done]. constructor; [lia|done|]. apply Forall_app. split; by apply wf_all_mono with n; [lia|].
Qed.

Lemma join_two_ok n lhs rhs :
  solid n lhs -> solid n rhs ->
  vout (fun e => e = CannotJoin) (join_two lhs rhs) n (fun j n' => joined n' lhs rhs j).
Proof.
  intros Hl Hr. unfold join_two. destruct (is_object lhs && is_object rhs) eqn:Eo.
  { apply andb_true_iff in Eo as [Hol Hor]. eapply vout_bind.
    - eapply vout_weaken; [apply merge_object_pieces; [apply Hr|apply Hl|done..]|done|]. intros v n' _ Hv. exact Hv.
    - intros v n' Hn [Hv Hov]. apply vout_ret. split; [done|]. destruct Hl as [[_ [Hd _] _] _]. by destruct lhs. }
  pose proof (join_others_ok n lhs rhs Hl Hr) as Hrest.
  destruct lhs; try exact Hrest. destruct rhs; try exact Hrest.
  eapply vout_bind; [eapply vout_weaken; [eapply concatenate_lists_ok; [apply Hl|apply Hr]|done|intros v n' _ Hv; exact Hv]|].
  intros v n' _ [Hv _]. by apply vout_ret.
Qed.

(** ** Joining all *)

(** Of two neighbours that stay apart, one is a substitution. *)
Fixpoint apart (l : list value) : Prop :=
  match l with
  | x :: (y :: _) as l' => is_unmergeable y || is_unmergeable x = true /\ apart l'
  | _ => True
  end.

Lemma apart_unmergeable l : apart l -> (2 <= length l)%nat -> existsb is_unmergeable l = true.
Proof.
  destruct l as [|x [|y l]]; simpl; try lia. intros [Hu _] _. destruct (is_unmergeable x); [done|].
  by rewrite orb_false_r in Hu; rewrite Hu.
Qed.

Lemma join_loop_ok pieces : forall n builder,
  Forall (solid n) pieces -> Forall (solid n) builder -> apart builder -> (0 < length (builder ++ pieces))%nat ->
  vout (fun e => e = CannotJoin) (join_loop builder pieces) n (fun l n' =>
    Forall (solid n') l /\ apart (reverse l) /\ l <> []).
Proof.
  induction pieces as [|rhs pieces IH]; intros n builder Hp Hb Ha Hl; cbn [join_loop].
  - apply vout_ret. rewrite reverse_involutive. split_and!; [by apply Forall_reverse|done|].
    intros E. apply (f_equal length) in E. rewrite length_reverse in E. rewrite length_app in Hl. simpl in *. lia.
  - inversion_clear Hp as [|? ? Hr Hp']. destruct builder as [|lhs builder].
    { apply IH; [done|by apply Forall_singleton|done|simpl; lia]. }
    inversion_clear Hb as [|? ? Hlhs Hb']. eapply vout_bind; [by apply join_two_ok|]. intros j n' Hn Hj.
    assert (Hmono : Forall (solid n') pieces /\ Forall (solid n') builder /\ solid n' lhs /\ solid n' rhs).
    { split_and!; [by apply solids_mono with n..|by apply solid_mono with n|by apply solid_mono with n]. }
    destruct Hmono as (Hp1 & Hb1 & Hl1 & Hr1). destruct j as [v|]; simpl in Hj.
    + destruct Hj as [Hv Hu]. apply IH; [done|by constructor| |simpl; lia]. destruct builder as [|w builder]; [done|].
      destruct Ha as [Hw Ha']. split; [|done]. rewrite Hu, orb_false_r in Hw. by rewrite Hw.
    + apply IH; [done|by rewrite !Forall_cons| |simpl; lia]. by split.
Qed.

Lemma flatten_ok n pieces :
  Forall (piece n) pieces -> Forall (solid n) (flatten pieces) /\ (length pieces <= length (flatten pieces))%nat.
Proof.
  unfold flatten. induction 1 as [|v pieces Hv _ [IH1 IH2]]; [done|]. simpl. rewrite length_app. destruct Hv as [Hwf Hp Hi].
  assert (Hone : is_concatenation v = false -> Forall (solid n) [v]).
  { intros Hc. apply Forall_singleton. by apply solid_intro. }
  rewrite Forall_app. destruct v; try (split; [split; [by apply Hone|done]|simpl; lia]).
  inversion Hwf as [| | |? ? ? ? ? Hlen Hnest ? Hall| | |]; subst. split; [|simpl in *; lia]. split; [|done].
  simpl in Hi. apply Forall_forall. intros x Hx. rewrite Forall_forall in Hi, Hall.
  apply solid_intro; [by apply Hall|by apply Hi|]. apply not_true_iff_false. intros Hc.
  assert (existsb is_concatenation pieces0 = true); [|congruence].
  apply existsb_exists. exists x. by rewrite <- list_elem_of_In.
Qed.

Lemma concatenate_ok n pieces :
  Forall (piece n) pieces -> pieces <> [] ->
  vout (fun e => e = CannotJoin) (concatenate pieces) n (fun r n' => exists v, r = Some v /\ piece n' v).
Proof.
  intros Hp Hne. unfold concatenate, consolidate. case_bool_decide as Hl.
  { destruct pieces as [|v [|w pieces]]; [done| |simpl in Hl; lia]. inversion_clear Hp.
    apply (vout_bind _ _ _ _ (fun l _ => l = [v])); [by apply vout_ret|].
    intros ? n' Hn ->. apply vout_ret. exists v. split; [done|]. by apply piece_mono with n. }
  destruct (flatten_ok n pieces Hp) as [Hf Hlen]. eapply vout_bind; [apply join_loop_ok; [done|done|done|simpl; lia]|].
  intros l n' Hn (Hs & Ha & Hnil). destruct l as [|v [|w l]]; [done| |].
  { apply vout_ret. exists v. split; [done|]. by inversion_clear Hs as [|? ? [? _]]. }
  assert (Hgood : Forall good_origin (map origin_of (v :: w :: l))).
  { apply Forall_fmap. eapply Forall_impl; [exact Hs|]. intros x [[Hx _ _] _]. by eapply wf_origin. }
  destruct (merge_origins_good (map origin_of (v :: w :: l))) as (o & Eo & Ho); [done|done|]. rewrite Eo.
  apply (vout_bind _ _ _ _ (fun o' _ => o' = o)); [by apply vout_ret|]. intros ? n1 Hn1 ->.
  assert (Hc : existsb is_concatenation (v :: w :: l) = false).
  { apply not_true_iff_false. intros (x & Hx & Ec)%existsb_exists. rewrite Forall_forall in Hs.
    apply list_elem_of_In, Hs in Hx as [_ Hx]. congruence. }
  assert (Hu : existsb is_unmergeable (v :: w :: l) = true).
  { apply apart_unmergeable in Ha; [|rewrite length_reverse; simpl; lia]. apply existsb_exists in Ha as (x & Hx & Eu).
    apply existsb_exists. exists x. split; [|done]. by apply list_elem_of_In, elem_of_reverse, list_elem_of_In. }
  unfold make_concatenation. rewrite bool_decide_false by (simpl; lia). rewrite Hc, Hu. cbn [negb].
  eapply vout_bind; [by apply (vout_new _ _ _ (fun x k => x = ConfigConcatenation n1 o (v :: w :: l) /\ k = S n1))|].
  intros ? ? _ [-> ->]. apply vout_ret. eexists. split; [done|]. split; [|done|].
  - constructor; try done; [lia|simpl; lia|]. apply (wf_all_mono n'); [lia|].
    eapply Forall_impl; [exact Hs|]. by intros x [[? _ _] _].
  - eapply Forall_impl; [exact Hs|]. by intros x [[_ ? _] _].
Qed.

(** ** Scalars become one string *)

Definition text_piece (n : nat) (v : value) : Prop := wf n v /\ exists a o x, v = Scalar a o x /\ transform_to_string x <> [].

Lemma text_pieces_mono n l : Forall (text_piece n) l -> Forall (text_piece (S n)) l.
Proof. intros Hl. eapply Forall_impl; [exact Hl|]. intros y [Hy ?]. split; [|done]. by apply wf_mono with n; [lia|]. Qed.

Lemma join_text n a o x b p y pieces :
  good_origin o -> good_origin p -> transform_to_string x <> [] -> transform_to_string y <> [] ->
  exists o', good_origin o' /\ join_loop [Scalar a o x] (Scalar b p y :: pieces) n
    = join_loop [Scalar n o' (ConfigString (transform_to_string x ++ transform_to_string y))] pieces (S n).
Proof.
  intros Ho Hp Hx Hy. cbn [join_loop]. unfold se_bind at 1, join_two, join_others.
  cbn [is_object andb is_concatenation is_unmergeable orb value_to_string origin_of].
  rewrite !bool_decide_false by done. destruct (merge_two_good o p) as (o' & -> & Ho'); [done..|]. by exists o'.
Qed.

Lemma join_loop_texts pieces : forall n a o s,
  good_origin o -> s <> [] -> Forall (text_piece n) pieces ->
  exists a' o' n', join_loop [Scalar a o (ConfigString s)] pieces n
    = (Ok [Scalar a' o' (ConfigString (s ++ concat (map value_to_string pieces)))], n').
Proof.
  induction pieces as [|v pieces IH]; intros n a o s Ho Hs Hp; [eexists _, _, _; simpl; by rewrite app_nil_r|].
  inversion_clear Hp as [|? ? [Hv (b & p & x & -> & Hx)] Hp']. inversion Hv; subst.
  destruct (join_text n a o (ConfigString s) b p x pieces) as (o2 & Ho2 & ->); [done..|].
  destruct (IH (S n) n o2 (s ++ transform_to_string x)) as (a' & o' & n' & E); [done|by destruct s|by apply text_pieces_mono|].
  exists a', o', n'. cbn [transform_to_string]. rewrite E. simpl. by rewrite app_assoc.
Qed.

Lemma flatten_texts n pieces : Forall (text_piece n) pieces -> flatten pieces = pieces.
Proof. unfold flatten. induction 1 as [|v pieces [_ (a & o & x & -> & _)] _ IH]; [done|]. simpl. by rewrite IH. Qed.

(** Adjacent scalars whose text is not empty become one string, their texts
    one after the other as they were written. *)
Theorem concatenate_texts n pieces :
  Forall (text_piece n) pieces -> (2 <= length pieces)%nat ->
  exists a o n', concatenate pieces n
    = (Ok (Some (Scalar a o (ConfigString (concat (map value_to_string pieces))))), n').
Proof.
  intros Hp Hl. unfold concatenate, consolidate. rewrite bool_decide_false by lia. rewrite (flatten_texts n) by done.
  destruct pieces as [|v [|w pieces]]; [simpl in Hl; lia..|].
  inversion_clear Hp as [|? ? [Hv (a & o & x & -> & Hx)] Hp1]. inversion_clear Hp1 as [|? ? [Hw (b & p & y & -> & Hy)] Hp2].
  inversion Hv; subst. inversion Hw; subst. change (join_loop [] (Scalar a o x :: ?r)) with (join_loop [Scalar a o x] r).
  destruct (join_text n a o x b p y pieces) as (o2 & Ho2 & E2); [done..|]. unfold se_bind at 1. cbn [join_loop] in E2 |- *. rewrite E2.
  destruct (join_loop_texts pieces (S n) n o2 (transform_to_string x ++ transform_to_string y)) as (a' & o' & n' & ->);
    [done|by destruct (transform_to_string x)|by apply text_pieces_mono|].
  exists a', o', n'. simpl. by rewrite <- app_assoc.
Qed.
End ValueConcat.

(** A value with no delayed merge at its top or among the pieces of a concatenation. *)
Definition undelayed `{DoubleLib} (v : value) : bool := forallb (fun x => negb (is_delayed x)) (v :: inner_pieces v).

Lemma undelayed_piece `{DoubleLib} n v : wf n v -> undelayed v = true -> piece true n v.
Proof.
  intros Hv [Hd Hi]%andb_true_iff. split; [done|by split; [apply negb_true_iff|]|].
  apply Forall_forall. intros x Hx. split; [|done]. apply list_elem_of_In in Hx.
  apply negb_true_iff. exact (proj1 (forallb_forall _ _) Hi x Hx).
Qed.

Lemma piece_undelayed `{DoubleLib} n v : piece true n v -> undelayed v = true.
Proof.
  intros [_ [Hd _] Hi]. unfold undelayed. cbn [forallb]. rewrite Hd. apply forallb_forall. intros x Hx.
  rewrite Forall_forall in Hi. destruct (Hi x) as [-> _]; [by apply list_elem_of_In|done].
Qed.

(** C14: concatenating any non-empty list of well-formed values without delayed merges
    either refuses (two neighbours that cannot be joined) or returns a value,
    well-formed again and without delayed merges.  The checks of the
    constructor of concatenations (at least two pieces, none of them a
    concatenation, one of them unresolved) and of lists and objects (the resolve
    status fits the elements) never fail, whatever the values are. *)
Theorem concatenate_typed `{DoubleLib} n pieces :
  Forall (wf n) pieces -> forallb undelayed pieces = true -> pieces <> [] ->
  match concatenate pieces n with
  | (Ok (Some v), n') => (n <= n')%nat /\ wf n' v /\ undelayed v = true
  | (Ok None, _) => False
  | (Err e, _) => e = CannotJoin
  end.
Proof.
  intros Hw Hu Hne. rewrite forallb_forall in Hu. assert (Hp : Forall (piece true n) pieces).
  { rewrite Forall_forall in Hw |- *. intros v Hv. apply undelayed_piece; [by apply Hw|by apply Hu, list_elem_of_In]. }
  pose proof (concatenate_ok true n pieces Hp Hne) as Hc. unfold vout in Hc.
  destruct (concatenate pieces n) as [[r|e] n']; [|done]. destruct Hc as (Hn & v & -> & Hv).
  split_and!; [done|apply Hv|by eapply piece_undelayed].
Qed.

(** A substitution between two lists keeps all three apart. *)
Lemma concatenate_typed_witness :
  exists v n', concatenate (H := whole_doubles)
    [SimpleConfigList 0 app_origin []; ConfigReference 1 app_origin (mkSubst (One $"x") false) 0; SimpleConfigList 2 app_origin []] 9%nat
    = (Ok (Some v), n') /\ wf n' v /\ is_concatenation v = true.
Proof.
  pose proof (concatenate_typed (H := whole_doubles) 9%nat
    [SimpleConfigList 0 app_origin []; ConfigReference 1 app_origin (mkSubst (One $"x") false) 0; SimpleConfigList 2 app_origin []]) as Hc.
  destruct Hc as (Hn & Hv & _); [repeat (apply Forall_cons; split); [concrete_wf..|constructor]|reflexivity|done|].
  eexists _, _. split; [reflexivity|]. split; [exact Hv|reflexivity].
Defined.

Lemma concatenate_texts_witness :
  exists a o n', concatenate (H := whole_doubles)
    [Scalar 0 app_origin (ConfigInt 3 $"3"); Scalar 1 app_origin (ConfigString $" x ");
     Scalar 2 app_origin (ConfigBoolean true)] 9%nat = (Ok (Some (Scalar a o (ConfigString $"3 x true"))), n').
Proof.
  apply (concatenate_texts (H := whole_doubles) 9%nat
    [Scalar 0 app_origin (ConfigInt 3 $"3"); Scalar 1 app_origin (ConfigString $" x ");
     Scalar 2 app_origin (ConfigBoolean true)]); [|simpl; lia].
  repeat (apply Forall_cons; split); [..|constructor]; (split; [concrete_wf|eexists _, _, _; split; [reflexivity|done]]).
Defined.

(** An empty quoted string is taken for something that is not a primitive. *)
Example empty_string_refused :
  (concatenate (H := whole_doubles) [Scalar 0 app_origin (ConfigString []); Scalar 1 app_origin (ConfigString $"x")] 9%nat).1
  = Err CannotJoin.
Proof. reflexivity. Qed.
