(* ===== verification/ValueHeap.v ===== *)
(** * Values as a shared heap

    The source shares values and compares pointers.  A heap says which value each
    address holds; a value is in a heap when the heap holds each of its nodes
    under the node's address, so two values in one heap with the same address are
    the same value.  The operations that create values extend the heap. *)

From S2P Require Import Prelude CLib Token Path Origin Value ValueMerge.

Open Scope Z_scope.

Section ValueHeap.
Context `{DoubleLib}.

(** ** Nodes *)

Definition children (v : value) : list value :=
  match v with
  | Scalar _ _ _ | ConfigReference _ _ _ _ => []
  | SimpleConfigList _ _ l | ConfigConcatenation _ _ l | ConfigDelayedMerge _ _ l | ConfigDelayedMergeObject _ _ l => l
  | SimpleConfigObject _ _ m _ => m.*2
  end.

Inductive every (P : value -> Prop) : value -> Prop :=
| every_node v : P v -> Forall (every P) (children v) -> every P v.

Lemma every_top P v : every P v -> P v.
Proof. by destruct 1. Qed.

Lemma every_children P v : every P v -> Forall (every P) (children v).
Proof. by destruct 1. Qed.

Lemma every_child P v u : every P v -> u ∈ children v -> every P u.
Proof. intros Hv Hu. apply every_children in Hv. rewrite Forall_forall in Hv. by apply Hv. Qed.

Lemma value_child_ind (P : value -> Prop) : (forall v, Forall P (children v) -> P v) -> forall v, P v.
Proof.
  intros IH v. induction v as [a o s|a o l Hl|a o m b Hm|a o l Hl|a o e k|a o l Hl|a o l Hl] using value_tree_ind;
    apply IH; simpl; try done. by apply Forall_fmap.
Qed.

Lemma wf_children n v : wf n v -> Forall (wf n) (children v).
Proof. destruct 1; simpl; try done. by apply Forall_fmap. Qed.

Lemma entry_child k (v : value) a o m b : map_find k m = Some v -> v ∈ children (SimpleConfigObject a o m b).
Proof.
  simpl. induction m as [|[k' w] m IH]; [done|]. simpl. case_bool_decide; [intros [= <-]; by left|]. right. auto.
Qed.

Lemma unmerged_every P v : every P v -> Forall (every P) (unmerged_values v).
Proof. intros Hv. destruct v; try (by apply Forall_singleton); by apply every_children in Hv. Qed.

(** ** Heaps *)

Abbreviation heap := (nat -> value).

(** What is required of the substitutions in the heap. *)
Variable subst_ok : nat -> SubstitutionExpression -> Z -> Prop.

Definition stored (g : heap) (u : value) : Prop :=
  g (addr_of u) = u /\ match u with ConfigReference a _ e k => subst_ok a e k | _ => True end.

Definition good (n : nat) (g : heap) (v : value) : Prop := wf n v /\ every (stored g) v.

(** The same below [n]. *)
Definition agree (n : nat) (g g' : heap) : Prop := forall a, (a < n)%nat -> g' a = g a.

Lemma agree_refl n g : agree n g g.
Proof. done. Qed.

Lemma agree_trans n n' g g' g'' : (n <= n')%nat -> agree n g g' -> agree n' g' g'' -> agree n g g''.
Proof. intros Hn H1 H2 a Ha. rewrite H2 by lia. by apply H1. Qed.

Lemma every_agree n g g' v : agree n g g' -> wf n v -> every (stored g) v -> every (stored g') v.
Proof.
  intros Hg. revert v. refine (value_child_ind _ _). intros v IH Hw Hv. destruct (every_top _ _ Hv) as [Hs Hr].
  apply every_children in Hv. constructor.
  - split; [|done]. rewrite Hg; [done|]. by apply wf_addr.
  - apply wf_children in Hw. rewrite Forall_forall in *. auto.
Qed.

Lemma good_mono n n' g g' v : (n <= n')%nat -> agree n g g' -> good n g v -> good n' g' v.
Proof. intros Hn Hg [Hw Hv]. split; [by apply wf_mono with n|]. by apply every_agree with n g. Qed.

Lemma goods_mono n n' g g' l : (n <= n')%nat -> agree n g g' -> Forall (good n g) l -> Forall (good n' g') l.
Proof. intros Hn Hg Hl. eapply Forall_impl; [exact Hl|]. intros v. by apply good_mono. Qed.

Lemma good_children n g v : good n g v -> Forall (good n g) (children v).
Proof. intros [Hw%wf_children Hv%every_children]. rewrite Forall_forall in *. split; auto. Qed.

Lemma good_child n g v u : good n g v -> u ∈ children v -> good n g u.
Proof. intros Hv%good_children Hu. rewrite Forall_forall in Hv. auto. Qed.

Lemma good_same n g u v : good n g u -> good n g v -> addr_of u = addr_of v -> u = v.
Proof. intros [_ [Hu _]%every_top] [_ [Hv _]%every_top] E. by rewrite <- Hu, <- Hv, E. Qed.

Lemma goods_wf n g l : Forall (good n g) l -> Forall (wf n) l.
Proof. intros Hl. eapply Forall_impl; [exact Hl|]. by intros v []. Qed.

Lemma goods_every n g l : Forall (good n g) l -> Forall (every (stored g)) l.
Proof. intros Hl. eapply Forall_impl; [exact Hl|]. by intros v []. Qed.

(** The heap with one more value. *)
Definition store (n : nat) (v : value) (g : heap) : heap := fun a => if bool_decide (a = n) then v else g a.

Lemma store_agree n v g : agree n g (store n v g).
Proof. intros a Ha. unfold store. by rewrite bool_decide_false by lia. Qed.

Lemma store_every n v g :
  addr_of v = n -> match v with ConfigReference _ _ _ _ => False | _ => True end -> Forall (good n g) (children v) ->
  every (stored (store n v g)) v.
Proof.
  intros <- Hv Hc. constructor.
  - split; [by unfold store; rewrite bool_decide_true|by destruct v].
  - eapply Forall_impl; [exact Hc|]. intros u [Hw Hu]. eapply every_agree; [apply store_agree|exact Hw|exact Hu].
Qed.

(** ** Computations that extend the heap *)

Definition builds {A} (g : heap) (n : nat) (m : M A) (Q : A -> nat -> heap -> Prop) : Prop :=
  forall a n', m n = (Ok a, n') -> exists g', (n <= n')%nat /\ agree n g g' /\ Q a n' g'.

Lemma builds_ret {A} g n (a : A) (Q : A -> nat -> heap -> Prop) : Q a n g -> builds g n (se_ret a) Q.
Proof. intros HQ ? ? [= <- <-]. by exists g. Qed.

Lemma builds_throw {A} g n e (Q : A -> nat -> heap -> Prop) : builds g n (se_throw e) Q.
Proof. by intros ? ?. Qed.

Lemma builds_bind {A B} g n (m : M A) (k : A -> M B) P Q :
  builds g n m P ->
  (forall a n' g', (n <= n')%nat -> agree n g g' -> P a n' g' -> builds g' n' (k a) Q) -> builds g n (se_bind m k) Q.
Proof.
  intros Hm Hk b n2 E. unfold se_bind in E. destruct (m n) as [[a|e] n1] eqn:E1; [|done].
  destruct (Hm a n1 E1) as (g1 & Hn1 & Hg1 & HP). destruct (Hk a n1 g1 Hn1 Hg1 HP b n2 E) as (g2 & Hn2 & Hg2 & HQ).
  exists g2. split_and!; [lia|by apply agree_trans with n1 g1|done].
Qed.

Lemma builds_weaken {A} g n (m : M A) (P Q : A -> nat -> heap -> Prop) :
  builds g n m P -> (forall a n' g', (n <= n')%nat -> agree n g g' -> P a n' g' -> Q a n' g') -> builds g n m Q.
Proof. intros Hm HQ a n' E. destruct (Hm a n' E) as (g' & Hn & Hg & HP). exists g'. auto. Qed.

Lemma builds_new g n (f : nat -> value) :
  addr_of (f n) = n -> match f n with ConfigReference _ _ _ _ => False | _ => True end -> Forall (good n g) (children (f n)) ->
  builds g n (new f) (fun v _ g' => v = f n /\ every (stored g') v).
Proof.
  intros Ha Hr Hc ? ? [= <- <-]. exists (store n (f n) g). split_and!; [lia|apply store_agree|done|by apply store_every].
Qed.

(** Computations that leave the addresses alone. *)
Definition still {A} (m : M A) : Prop := forall n, exists r, m n = (r, n).

Lemma builds_still {A} g n (m : M A) : still m -> builds g n m (fun _ n' g' => n' = n /\ g' = g).
Proof. intros Hm a n' E. destruct (Hm n) as [r Er]. rewrite Er in E. injection E as _ <-. exists g. by split. Qed.

Lemma still_origin r : still (lift_origin r).
Proof. intros n. destruct r; by eexists. Qed.

Lemma still_origins stack : still (merge_value_origins stack).
Proof. unfold merge_value_origins. destruct stack; [by intros n; eexists|apply still_origin]. Qed.

Lemma still_not_ignoring v : still (require_not_ignoring_fallbacks v).
Proof. intros n. unfold require_not_ignoring_fallbacks. destruct (ignores_fallbacks v); by eexists. Qed.

(** ** Constructors and merging *)

Abbreviation tree := (fun (v : value) (_ : nat) (g : heap) => every (stored g) v).

Lemma builds_node g n (f : nat -> value) :
  addr_of (f n) = n -> match f n with ConfigReference _ _ _ _ => False | _ => True end -> Forall (good n g) (children (f n)) ->
  builds g n (new f) tree.
Proof. intros Ha Hr Hc. eapply builds_weaken; [by apply builds_new|]. by intros v n' g' _ _ []. Qed.

Lemma builds_delayed g n self o stack : Forall (good n g) stack -> builds g n (construct_delayed_merge self o stack) tree.
Proof.
  intros Hs. unfold construct_delayed_merge, make_delayed_merge_object, make_delayed_merge.
  destruct (is_object self), stack as [|x stack]; try apply builds_throw;
    repeat (case_match; try apply builds_throw); by apply builds_node.
Qed.

Lemma builds_object g n o m st b : Forall (good n g) m.*2 -> builds g n (make_object o m st b) tree.
Proof. intros Hm. unfold make_object. case_match; [apply builds_throw|]. by apply builds_node. Qed.

Lemma builds_list g n o l st : Forall (good n g) l -> builds g n (make_list o l st) tree.
Proof. intros Hl. unfold make_list. case_match; [apply builds_throw|]. by apply builds_node. Qed.

Lemma unmerged_good n g v : good n g v -> Forall (good n g) (unmerged_values v).
Proof. intros Hv. destruct v; try (by apply Forall_singleton); by apply good_children in Hv. Qed.

Lemma builds_after_still {A B} g n (m : M A) (k : A -> M B) Q :
  still m -> (forall a, builds g n (k a) Q) -> builds g n (se_bind m k) Q.
Proof. intros Hm Hk. eapply builds_bind; [by apply builds_still|]. by intros a n' g' _ _ [-> ->]. Qed.

Lemma builds_open g n self other : good n g self -> good n g other -> builds g n (merged_with_the_unmergeable self other) tree.
Proof.
  intros Hs Ho. apply builds_after_still; [apply still_not_ignoring|]. intros _.
  apply builds_after_still; [apply still_origins|]. intros o. apply builds_delayed. apply Forall_app.
  split; by apply unmerged_good.
Qed.

Lemma builds_non_object g n self other : good n g self -> good n g other -> builds g n (merged_with_non_object self other) tree.
Proof.
  intros Hs Ho. apply builds_after_still; [apply still_not_ignoring|]. intros _. destruct (is_resolved self).
  - destruct self; unfold with_fallbacks_ignored; repeat case_match; try apply builds_throw;
      try (apply builds_ret, Hs). apply builds_object. by apply good_children in Hs.
  - apply builds_after_still; [apply still_origins|]. intros o. apply builds_delayed. apply Forall_app.
    split; [by apply unmerged_good|by apply Forall_singleton].
Qed.

Lemma find_good n g k m v : Forall (good n g) m.*2 -> map_find k m = Some v -> good n g v.
Proof.
  induction m as [|[k' w] m IH]; [done|]. rewrite fmap_cons. intros [Hw Hm]%Forall_cons. simpl.
  case_bool_decide; [by intros [= <-]|auto].
Qed.

Lemma builds_keys fb es : forall n g,
  Forall (fun v => forall n g b, good n g v -> good n g b -> builds g n (with_fallback v b) tree) es.*2 ->
  Forall (good n g) es.*2 -> Forall (good n g) fb.*2 ->
  builds g n (merge_keys with_fallback fb es) (fun kept n' g' => Forall (good n' g') kept.*2).
Proof.
  induction es as [|[k v] es IH]; intros n g Hind Hes Hfb; [by apply builds_ret|]. rewrite fmap_cons in Hind, Hes.
  apply Forall_cons in Hind as [Hv Hind]. apply Forall_cons in Hes as [Hg Hes]. cbn [merge_keys].
  eapply (builds_bind _ _ _ _ (fun w n' g' => good n' g' w)).
  - destruct (map_find k fb) as [w|] eqn:E; [|by apply builds_ret]. pose proof (find_good n g k fb w Hfb E) as Hw.
    intros r n' Er. destruct (Hv n g w Hg Hw r n' Er) as (g' & Hn & Ha & Ht). exists g'. split_and!; [done..|].
    destruct (with_fallback_ok v n w) as (r' & n'' & Er' & _ & Hwf & _); [apply Hg|apply Hw|].
    simpl in Er, Er'. rewrite Er in Er'. injection Er' as <- <-. by split.
  - intros w n' g' Hn Ha Hw. eapply builds_bind; [apply IH; [done|by eapply goods_mono..]|].
    intros kept n2 g2 Hn2 Ha2 Hk. apply builds_ret. rewrite fmap_cons. constructor; [|done]. by apply good_mono with n' g'.
Qed.

Lemma fresh_good n g m fb : Forall (good n g) fb.*2 -> Forall (good n g) (fresh_keys m fb).*2.
Proof. intros Hf. apply (Forall_fmap snd) in Hf. apply (Forall_fmap snd). exact (filter_all _ _ _ Hf). Qed.

Lemma builds_fallback a : forall n g b, good n g a -> good n g b -> builds g n (with_fallback a b) tree.
Proof.
  induction a as [a IH] using value_child_ind. intros n g b Ha Hb.
  assert (Heq : with_fallback a b = if ignores_fallbacks a then se_ret a
    else if is_unmergeable b then merged_with_the_unmergeable a b
    else match a, b with
         | SimpleConfigObject _ o m f, SimpleConfigObject _ _ fb fb_ignores =>
             let* kept := merge_keys with_fallback fb m in
             merged_object a b o m (kept ++ fresh_keys m fb) f fb_ignores
               (any_changed m kept || negb (bool_decide (fresh_keys m fb = [])))
         | _, _ => merged_with_non_object a b
         end).
  { destruct a; cbn [with_fallback]; destruct b; try done; by destruct (ignores_fallbacks _). }
  rewrite Heq. clear Heq. case_match; [apply builds_ret, Ha|]. case_match; [by apply builds_open|].
  destruct a as [| |x o m f| | | |]; try (by apply builds_non_object).
  destruct b as [| |y p fb q| | | |]; try (by apply builds_non_object).
  pose proof (good_children _ _ _ Ha) as Hm. pose proof (good_children _ _ _ Hb) as Hf.
  eapply builds_bind; [by apply builds_keys|]. intros kept n' g' Hn Hg Hk. unfold merged_object.
  assert (Hall : Forall (good n' g') (kept ++ fresh_keys m fb).*2).
  { rewrite fmap_app. apply Forall_app. split; [done|]. apply fresh_good. by apply goods_mono with n g. }
  case_match; [apply builds_after_still; [apply still_origins|]; intros ?; by apply builds_object|].
  case_match; [apply builds_object; by apply goods_mono with n g|]. apply builds_ret, (good_mono n n' g g'); done.
Qed.

Lemma fallback_good n g a b : good n g a -> good n g b ->
  exists v n' g', with_fallback a b n = (Ok v, n') /\ (n <= n')%nat /\ agree n g g' /\ good n' g' v
    /\ shape_of v = merge (shape_of a) (shape_of b).
Proof.
  intros Ha Hb. destruct (with_fallback_ok a n b) as (v & n' & E & Hn & Hv & _ & Hs); [apply Ha|apply Hb|].
  destruct (builds_fallback a n g b Ha Hb v n' E) as (g' & _ & Hg & Ht). by exists v, n', g'.
Qed.

(** ** Sizes *)

(** An entry of an object counts on its own, so that merging two objects does not
    make them larger. *)
Fixpoint hsize (h : shape) : nat :=
  match h with
  | HScalar _ | HRef _ _ => 1
  | HList l | HConcat l | HDelayed _ l => S (list_sum (map hsize l))
  | HObject m _ => S (list_sum (map (fun kv => S (hsize kv.2)) m))
  end.

Definition size_of (v : value) : nat := hsize (shape_of v).
Definition weight (h : shape) : nat := list_sum (map hsize (layers h)).
Definition cost (m : list (str * shape)) : nat := list_sum (map (fun kv => S (hsize kv.2)) m).

Lemma hsize_pos h : (1 <= hsize h)%nat.
Proof. destruct h; simpl; lia. Qed.

Lemma weight_bounds h : (weight h <= hsize h <= S (weight h))%nat.
Proof. destruct h; unfold weight; simpl; lia. Qed.

Lemma list_sum_elem {A} (f : A -> nat) x l : x ∈ l -> (f x <= list_sum (map f l))%nat.
Proof. induction 1; simpl; lia. Qed.

Lemma child_size v u : u ∈ children v -> (size_of u < size_of v)%nat.
Proof.
  unfold size_of. destruct v as [a o s|a o l|a o m b|a o l|a o e k|a o l|a o l]; simpl; try set_solver;
    try (intros Hu; apply (list_sum_elem (fun x => hsize (shape_of x))) in Hu; rewrite map_map; lia).
  intros ([k w] & -> & Hw)%list_elem_of_fmap. apply (list_sum_elem (fun kv => S (hsize (shape_of kv.2)))) in Hw.
  rewrite map_map. simpl in *. lia.
Qed.

Inductive distinct : shape -> Prop :=
| distinct_object m b : NoDup m.*1 -> Forall (fun kv => distinct kv.2) m -> distinct (HObject m b)
| distinct_other h : (forall m b, h <> HObject m b) -> distinct h.

Lemma shape_keys (m : list (str * value)) : (map (fun kv => (kv.1, shape_of kv.2)) m).*1 = m.*1.
Proof. induction m as [|[k v] m IH]; [done|]. simpl. f_equal. exact IH. Qed.

Lemma wf_distinct n v : wf n v -> distinct (shape_of v).
Proof.
  induction v as [a o s|a o l Hl|a o m b Hm|a o l Hl|a o e k|a o l Hl|a o l Hl] using value_tree_ind;
    try (by constructor 2).
  intros Hv. assert (Hnd : NoDup m.*1) by (by inversion Hv). pose proof (wf_children _ _ Hv) as Hc. cbn [children] in Hc.
  cbn [shape_of]. constructor; [by rewrite shape_keys|]. apply Forall_forall.
  intros kv (x & <- & Hx)%list_elem_of_In%in_map_iff. apply list_elem_of_In in Hx. simpl.
  rewrite Forall_forall in Hm. apply Hm; [done|]. eapply Forall_forall; [exact Hc|]. apply list_elem_of_fmap. by exists x.
Qed.

Lemma cost_app x y : cost (x ++ y) = (cost x + cost y)%nat.
Proof. unfold cost. by rewrite map_app, list_sum_app. Qed.

Lemma only_in_step k (x : shape) m fb :
  k ∉ m.*1 ->
  (cost (only_in ((k, x) :: m) fb) + match lookup_key k fb with Some y => S (hsize y) | None => 0 end
   <= cost (only_in m fb))%nat.
Proof.
  intros Hk. assert (Hm : lookup_key k m = None).
  { clear -Hk. induction m as [|[k' v] m IH]; [done|]. simpl in *. apply not_elem_of_cons in Hk as [? ?].
    case_bool_decide; [done|auto]. }
  unfold only_in, cost. induction fb as [|[k' y] fb IH]; [done|]. simpl in *. case_bool_decide as E; subst.
  - rewrite bool_decide_true, Hm by done. simpl.
    destruct (lookup_key k' fb); simpl in *; lia.
  - rewrite bool_decide_false by done. destruct (lookup_key k' m); simpl in *; lia.
Qed.

Lemma cost_over m fb :
  NoDup m.*1 -> Forall (fun kv => forall b, (weight (merge kv.2 b) <= weight kv.2 + weight b)%nat) m ->
  (cost (over merge fb m) + cost (only_in m fb) <= cost m + cost fb)%nat.
Proof.
  induction m as [|[k x] m IH]; intros Hnd Hm.
  { assert (only_in (A := shape) [] fb = fb) as ->; [|simpl; lia]. unfold only_in. induction fb as [|[k y] fb IH]; [done|].
    simpl. f_equal. exact IH. }
  rewrite fmap_cons in Hnd. apply NoDup_cons in Hnd as [Hk Hnd]. apply Forall_cons in Hm as [Hx Hm].
  specialize (IH Hnd Hm). pose proof (only_in_step k x m fb Hk) as Hs. simpl in Hx.
  unfold cost in *. simpl. destruct (lookup_key k fb) as [y|]; simpl in *; [|lia].
  specialize (Hx y). pose proof (weight_bounds (merge x y)). pose proof (weight_bounds x). pose proof (weight_bounds y). lia.
Qed.

Lemma weight_object m f : weight (HObject m f) = S (cost m).
Proof. unfold weight, cost. simpl. lia. Qed.

Lemma merge_weight a : distinct a -> forall b, (weight (merge a b) <= weight a + weight b)%nat.
Proof.
  induction a as [s|l _|m f IH|l _|e k|o l _] using shape_tree_ind; intros Hd b;
    match goal with |- context [merge ?a b] => destruct (final a) eqn:Hf end; try (rewrite merge_final by done; lia);
    (destruct (open_shape b) eqn:Ho; [rewrite merge_open by done; unfold weight; cbn [layers]; rewrite map_app, list_sum_app; simpl; lia|]).
  2: { destruct f; [done|]. destruct (object_shape b) eqn:Hb.
    - destruct b as [| |fb g| | |]; try done. rewrite merge_objects.
      assert (Hm : Forall (fun kv => forall b, (weight (merge kv.2 b) <= weight kv.2 + weight b)%nat) m /\ NoDup m.*1).
      { inversion Hd as [? ? Hnd Hall|? Hne]; subst; [|by destruct (Hne m false)]. split; [|done].
        rewrite Forall_forall in *. intros kv Hkv. apply IH; [done|]. exact (Hall kv Hkv). }
      destruct Hm as [Hm Hnd]. pose proof (cost_over m fb Hnd Hm) as Hc. rewrite !weight_object, cost_app. lia.
    - rewrite merge_hidden by done. case_match; unfold weight; destruct b; simpl in *; lia. }
  all: rewrite merge_delay by done; unfold weight; cbn [layers]; rewrite map_app, list_sum_app; destruct b; simpl in *; try done; lia.
Qed.
End ValueHeap.
