(* ===== verification/Parser.v ===== *)
(** * config/src/detail/parser.cpp, documents

    [ParseContext], method by method: the token buffer with the comments that go
    with a token, values made of adjacent tokens, keys, fields, arrays, includes
    and the document.  Tokens are the list the tokenizer delivers ([drain]).  A
    value token holds a value object; it is allocated when the token is taken
    from the stream.  The includer is an argument.  Loops and the recursion of
    [parse_value] carry fuel, which ParserTotal.v shows to be enough. *)

From S2P Require Import Prelude CLib Token Tokenizer Path PathParse Origin Value ValueEdit.

Open Scope Z_scope.

(** ** Data *)

Inductive ConfigSyntax := NONE | JSON | CONF.
#[export] Instance ConfigSyntax_eq_dec : EqDecision ConfigSyntax.
Proof. solve_decision. Defined.

Section Parser.
Context `{DoubleLib}.

Inductive parse_exn :=
| ParseError (origin : SimpleConfigOrigin) (message : str)
| BadPathError (origin : SimpleConfigOrigin) (e : bad_path)
| ValueError (e : value_exn)
| WrongType (origin : SimpleConfigOrigin) (path expected actual : str)
| IOError (what : str)        (* [ConfigExceptionIO], with its text *)
| TokenizerError (e : tok_exn)
| PastEnd                     (* [next()] of an exhausted token iterator *)
| OutOfFuel.

(** A token: a [ValueToken] with its value object, or one of the others. *)
Inductive ptoken := PTok (t : token) | PVal (v : value).

(** [comments]: the texts of the comment tokens. *)
Record TokenWithComments := mkTWC { twc_token : ptoken; comments : list str }.

Record ParseContext := mkContext {
  line_number : Z;
  buffer : list TokenWithComments;
  toks : list token;               (* what the token iterator has left *)
  path_stack : list Path;
  equals_count : Z;
  next_addr : nat }.

Definition with_line (l : Z) (s : ParseContext) : ParseContext :=
  mkContext l (buffer s) (toks s) (path_stack s) (equals_count s) (next_addr s).
Definition with_buffer (b : list TokenWithComments) (s : ParseContext) : ParseContext :=
  mkContext (line_number s) b (toks s) (path_stack s) (equals_count s) (next_addr s).
Definition with_toks (ts : list token) (s : ParseContext) : ParseContext :=
  mkContext (line_number s) (buffer s) ts (path_stack s) (equals_count s) (next_addr s).
Definition with_paths (ps : list Path) (s : ParseContext) : ParseContext :=
  mkContext (line_number s) (buffer s) (toks s) ps (equals_count s) (next_addr s).
Definition with_equals (n : Z) (s : ParseContext) : ParseContext :=
  mkContext (line_number s) (buffer s) (toks s) (path_stack s) n (next_addr s).
Definition with_addr (n : nat) (s : ParseContext) : ParseContext :=
  mkContext (line_number s) (buffer s) (toks s) (path_stack s) (equals_count s) n.

Abbreviation P A := (SE ParseContext parse_exn A).

(** Creating values. *)
Definition liftV {A} (m : M A) : P A := fun s =>
  let '(r, n) := m (next_addr s) in
  (match r with Ok a => Ok a | Err e => Err (ValueError e) end, with_addr n s).

Variable flavor : ConfigSyntax.
Variable base_origin : SimpleConfigOrigin.
(** [includer->include(context, name)] and [include_file], in the state of addresses. *)
Variables include include_file : str -> SE nat parse_exn value.
(** [boost::lexical_cast] of the address of a map or vector, in error messages. *)
Variable pointer_text : value -> str.

Definition is_json : bool := bool_decide (flavor = JSON).

(** The tokens left: every loop takes one at least. *)
Definition remaining (s : ParseContext) : nat := (length (buffer s) + length (toks s))%nat.
Definition fuelled {A} (body : nat -> P A) : P A := fun s => body (S (remaining s)) s.

(** ** Tokens *)

Definition origin_at (line : Z) : P SimpleConfigOrigin := liftV (lift_origin (set_line_number line base_origin)).

Definition tokens_next : P ptoken :=
  let* s := se_get in
  match toks s with
  | [] => se_throw PastEnd
  | t :: ts =>
      se_put (with_toks ts s) ;;*
      match t with
      | ValueToken v l =>
          let* o := origin_at l in
          let* x := liftV (new (fun a => Scalar a o v)) in
          se_ret (PVal x)
      | _ => se_ret (PTok t)
      end
  end.

(** [TokenWithComments::prepend]. *)
Definition prepend_comments (earlier : list str) (t : TokenWithComments) : TokenWithComments :=
  match comments t with
  | [] => mkTWC (twc_token t) earlier
  | _ => mkTWC (twc_token t) (earlier ++ comments t)
  end.

(** [TokenWithComments::set_comments]. *)
Definition twc_set_comments (t : TokenWithComments) (o : SimpleConfigOrigin) : P SimpleConfigOrigin :=
  match comments t with
  | [] => se_ret o
  | cs => liftV (lift_origin (set_comments cs o))
  end.

(** The loop of [consolidate_comment_block]: a blank line drops the comments
    before it. *)
Fixpoint comment_block (fuel : nat) (next : ptoken) (previous_newline : bool) (newlines : list ptoken)
    (cs : list str) : P (ptoken * list ptoken * list str) :=
  match fuel with
  | O => se_throw OutOfFuel
  | S fuel' =>
      match next with
      | PTok (LineToken _) =>
          let* next' := tokens_next in
          comment_block fuel' next' true (newlines ++ [next]) (if previous_newline then [] else cs)
      | PTok (CommentToken text _) =>
          let* next' := tokens_next in comment_block fuel' next' false newlines (cs ++ [text])
      | _ => se_ret (next, newlines, cs)
      end
  end.

Definition put_back (t : TokenWithComments) : P unit := se_modify (fun s => with_buffer (t :: buffer s) s).

Definition consolidate_comment_block (comment_token : ptoken) : P unit :=
  let* r := fuelled (fun fuel => comment_block fuel comment_token false [] []) in
  let '(next, newlines, cs) := r in
  put_back (mkTWC next cs) ;;*
  se_modify (fun s => with_buffer (map (fun t => mkTWC t []) newlines ++ buffer s) s).

Definition pop_buffer : P TokenWithComments :=
  let* s := se_get in
  match buffer s with
  | [] => se_throw PastEnd
  | t :: b => se_put (with_buffer b s) ;;* se_ret t
  end.

Definition pop_token : P TokenWithComments :=
  let* s := se_get in
  match buffer s with
  | [] =>
      let* t := tokens_next in
      match t with
      | PTok (CommentToken _ _) => consolidate_comment_block t ;;* pop_buffer
      | _ => se_ret (mkTWC t [])
      end
  | _ => pop_buffer
  end.

(** ** Messages *)

(** [ValueToken::to_string] prints what [unwrapped] returns: an unresolved value
    throws, a map or vector is printed as an address. *)
Definition ptoken_to_string (t : ptoken) : P str :=
  match t with
  | PTok t => se_ret (token_to_string t)
  | PVal (Scalar _ _ v) => se_ret ($"'" ++ unwrapped_string v ++ $"' (" ++ type_name (scalar_type v) ++ $")")
  | PVal v =>
      if is_resolved v then
        let* vt := liftV (match type_of v with Ok x => se_ret x | Err e => se_throw e end) in
        se_ret ($"'" ++ pointer_text v ++ $"' (" ++ type_name vt ++ $")")
      else se_throw (ValueError NotResolved)
  end.

Definition line_origin : P SimpleConfigOrigin := let* s := se_get in origin_at (line_number s).

Definition parse_error {A} (message : str) : P A :=
  let* o := line_origin in se_throw (ParseError o message).

Definition previous_field_name (last_path : option Path) : P str :=
  let* s := se_get in
  se_ret (match last_path with
          | Some p => render p
          | None => match path_stack s with [] => [] | p :: _ => render p end
          end).

(** The test is the wrong way round: the key is named only when there is none. *)
Definition add_key_name (message : str) : P str :=
  let* name := previous_field_name None in
  se_ret (if bool_decide (name = []) then $"in value for key '" ++ name ++ $"': " ++ message else message).

Definition quote_suggestion (name : str) (inside_equals : bool) (bad_token message : str) : str :=
  let finish part :=
    if inside_equals then part ++ $", or you may be able to rename the file .properties rather than .conf)"
    else part ++ $")" in
  if bool_decide (bad_token = token_to_string T_END) then
    if bool_decide (name = []) then message
    else finish (message ++ $" (if you intended '" ++ name ++ $"' to be part of a value, instead of a key, "
                 ++ $"try adding double quotes around the whole value")
  else if bool_decide (name = []) then
    finish (message ++ $" (if you intended " ++ bad_token ++ $" to be part of a key or string value, "
            ++ $"try enclosing the key or value in double quotes")
  else finish (message ++ $" (if you intended " ++ bad_token ++ $" to be part of the value for '" ++ name
               ++ $"', try enclosing the value in double quotes").

Definition add_quote_suggestion_for (last_path : option Path) (inside_equals : bool) (bad_token message : str) : P str :=
  let* name := previous_field_name last_path in se_ret (quote_suggestion name inside_equals bad_token message).

Definition add_quote_suggestion (bad_token message : str) : P str :=
  let* s := se_get in add_quote_suggestion_for None (0 <? equals_count s) bad_token message.

(** [throw parse_error(add_key_name(message))], and with a quote suggestion. *)
Definition key_error {A} (message : str) : P A := let* m := add_key_name message in parse_error m.
Definition quote_error {A} (bad_token message : str) : P A :=
  let* m := add_quote_suggestion bad_token message in parse_error m.
Definition quote_error_for {A} (last_path : option Path) (inside_equals : bool) (bad_token message : str) : P A :=
  let* m := add_quote_suggestion_for last_path inside_equals bad_token message in parse_error m.

(** ** Reading tokens *)

Definition next_token : P TokenWithComments :=
  let* t := pop_token in
  match twc_token t with
  | PTok (ProblemToken what message suggest_quotes line as p) =>
      let* message :=
        (if suggest_quotes then add_quote_suggestion (token_to_string p) message else add_key_name message) in
      let* o := origin_at line in
      se_throw (ParseError o message)
  | PTok (UnquotedTextToken text _) =>
      if is_json then key_error ($"_token not allowed in valid JSON: '" ++ text ++ $"'") else se_ret t
  | PTok (SubstitutionToken _ _ _) =>
      if is_json then key_error $"_substitutions (${} syntax) not allowed in JSON" else se_ret t
  | _ => se_ret t
  end.

(** The line a newline token carries is the one it ended. *)
Definition set_line (l : Z) : P unit := se_modify (with_line (l + 1)).

Fixpoint skip_newlines (fuel : nat) : P TokenWithComments :=
  match fuel with
  | O => se_throw OutOfFuel
  | S fuel' =>
      let* t := next_token in
      match twc_token t with
      | PTok (LineToken l) => set_line l ;;* skip_newlines fuel'
      | _ => se_ret t
      end
  end.
Definition next_token_ignoring_newline : P TokenWithComments := fuelled skip_newlines.

Fixpoint separator_loop (fuel : nat) (saw_separator_or_newline : bool) : P bool :=
  match fuel with
  | O => se_throw OutOfFuel
  | S fuel' =>
      let* t := next_token in
      match twc_token t with
      | PTok (LineToken l) => set_line l ;;* separator_loop fuel' true
      | PTok T_COMMA => se_ret true
      | _ => put_back t ;;* se_ret saw_separator_or_newline
      end
  end.

Definition check_element_separator : P bool :=
  if is_json then
    let* t := next_token_ignoring_newline in
    match twc_token t with
    | PTok T_COMMA => se_ret true
    | _ => put_back t ;;* se_ret false
    end
  else fuelled (fun fuel => separator_loop fuel false).

(** ** Values *)

(** [parse_path_expression(tokens, origin)]; a path is never null. *)
Definition parse_expression (expression : list token) (o : SimpleConfigOrigin) : P Path :=
  match parse_path_expression expression with
  | Ok (Some p) => se_ret p
  | Ok None => se_throw (ValueError Undefined)
  | Err e => se_throw (BadPathError o e)
  end.

Definition token_to_substitution_expression (expression : list token) (optional : bool) (line : Z)
    : P SubstitutionExpression :=
  let* o := origin_at line in
  let* p := parse_expression expression o in
  se_ret (mkSubst p optional).

Definition full_current_path (stack : list Path) : res path_exn (option Path) :=
  fold_left (fun full p =>
    full ← full; match full with None => Ok (Some p) | Some f => prepend (Some p) f end) stack (Ok None).

(** [while (!key.empty())]: an empty key ends the path. *)
Fixpoint path_keys (p : Path) : list str :=
  if bool_decide (first p = []) then []
  else match p with One k => [k] | More k r => k :: path_keys r end.

Fixpoint nest (o : SimpleConfigOrigin) (rev_keys : list str) (v : value) : M value :=
  match rev_keys with
  | [] => se_ret v
  | k :: ks => let* x := simple_object o [(k, v)] in nest o ks x
  end.

(** [*keys.rbegin()] of an empty vector is undefined. *)
Definition create_value_under_path (p : Path) (v : value) : M value :=
  match reverse (path_keys p) with
  | [] => se_throw Undefined
  | ks => let* o := lift_origin (set_comments [] (origin_of v)) in nest o ks v
  end.

(** [is_value_with_type(t, STRING)] and the string. *)
Definition quoted_string (t : ptoken) : P (option str) :=
  match t with
  | PVal (Scalar _ _ (ConfigString s)) => se_ret (Some s)
  | PVal v => match type_of v with Ok _ => se_ret None | Err e => se_throw (ValueError e) end
  | PTok _ => se_ret None
  end.

(** A token of a key as the path parser sees it: a value that is not a scalar
    adds no text. *)
Definition key_token (t : ptoken) : P token :=
  match t with
  | PTok t => se_ret t
  | PVal (Scalar _ o v) => se_ret (ValueToken v (line_number_ o))
  | PVal v => match type_of v with
              | Ok _ => se_ret (UnquotedTextToken [] (line_number_ (origin_of v)))
              | Err e => se_throw (ValueError e)
              end
  end.

Definition is_key_part (t : ptoken) : bool :=
  match t with PVal _ | PTok (UnquotedTextToken _ _) => true | _ => false end.

(** The loop of [parse_key]: the tokens of the key and the one after it. *)
Fixpoint key_loop (fuel : nat) (t : TokenWithComments) (expression : list ptoken)
    : P (list ptoken * TokenWithComments) :=
  match fuel with
  | O => se_throw OutOfFuel
  | S fuel' =>
      if is_key_part (twc_token t) then
        let* t' := next_token in key_loop fuel' t' (expression ++ [twc_token t])
      else se_ret (expression, t)
  end.

Fixpoint key_tokens (l : list ptoken) : P (list token) :=
  match l with
  | [] => se_ret []
  | t :: l' => let* x := key_token t in let* xs := key_tokens l' in se_ret (x :: xs)
  end.

Definition parse_key (token : TokenWithComments) : P Path :=
  if is_json then
    let* key := quoted_string (twc_token token) in
    match key with
    | Some key => se_ret (One key)
    | None =>
        let* text := ptoken_to_string (twc_token token) in
        key_error ($"_expecting close brace } or a field name here, got " ++ text)
    end
  else
    let* r := fuelled (fun fuel => key_loop fuel token []) in
    let '(expression, t) := r in
    match expression with
    | [] =>
        let* text := ptoken_to_string (twc_token t) in
        key_error ($"expecting a close brace or a field name here, got " ++ text)
    | _ =>
        put_back t ;;*
        let* o := line_origin in
        let* ts := key_tokens expression in
        parse_expression ts o
    end.

Definition is_include_keyword (t : ptoken) : bool :=
  match t with PTok (UnquotedTextToken text _) => bool_decide (text = $"include") | _ => false end.

Definition is_unquoted_whitespace (t : ptoken) : bool :=
  match t with PTok (UnquotedTextToken text _) => forallb is_space text | _ => false end.

Definition is_key_value_separator_token (t : ptoken) : bool :=
  match t with
  | PTok T_COLON => true
  | PTok T_EQUALS | PTok T_PLUS_EQUALS => negb is_json
  | _ => false
  end.

(** ** Includes *)

Fixpoint skip_blank (fuel : nat) : P TokenWithComments :=
  match fuel with
  | O => se_throw OutOfFuel
  | S fuel' =>
      let* t := next_token_ignoring_newline in
      if is_unquoted_whitespace (twc_token t) then skip_blank fuel' else se_ret t
  end.
Definition next_token_not_blank : P TokenWithComments := fuelled skip_blank.

Definition run_includer (i : SE nat parse_exn value) : P value := fun s =>
  let '(r, n) := i (next_addr s) in (r, with_addr n s).

(** The rest of [file( "name" )]. *)
Definition parse_include_file : P value :=
  let* t := next_token_not_blank in
  let* name := quoted_string (twc_token t) in
  match name with
  | None =>
      let* text := ptoken_to_string (twc_token t) in
      parse_error ($"expecting a quoted string inside file(), rather than: " ++ text)
  | Some name =>
      let* t := next_token_not_blank in
      match twc_token t with
      | PTok (UnquotedTextToken text _) =>
          if bool_decide (text = $")") then run_includer (include_file name)
          else let* text := ptoken_to_string (twc_token t) in
               parse_error ($"expecting a close parentheses ')' here, not: " ++ text)
      | _ => let* text := ptoken_to_string (twc_token t) in
             parse_error ($"expecting a close parentheses ')' here, not: " ++ text)
      end
  end.

Definition included_object : P value :=
  let* t := next_token_not_blank in
  match twc_token t with
  | PTok (UnquotedTextToken kind _) =>
      if bool_decide (kind = $"file(") then parse_include_file
      else
        let* text := ptoken_to_string (twc_token t) in
        parse_error ($"expecting include parameter to be quoted filename, "
                     ++ $"or file(). _no spaces are allowed before the open "
                     ++ $"paren. _not expecting: " ++ text)
  | _ =>
      let* name := quoted_string (twc_token t) in
      match name with
      | Some name => run_includer (include name)
      | None =>
          let* text := ptoken_to_string (twc_token t) in
          parse_error ($"include keyword is not followed by a quoted string, but by: " ++ text)
      end
  end.

(** The included fields over the ones already there. *)
Fixpoint include_fields (fields : vmap) (values : vmap) : M vmap :=
  match fields with
  | [] => se_ret values
  | (k, v) :: fields' =>
      let* v := (match map_find k values with None => se_ret v | Some existing => with_fallback v existing end) in
      include_fields fields' (map_put k v values)
  end.

(** The prefix is made of the stack as it is, innermost path first. *)
Definition parse_include (values : vmap) : P vmap :=
  let* obj := included_object in
  let* s := se_get in
  let* obj := (match path_stack s with
               | [] => se_ret obj
               | ps => liftV (let* prefix := lift_path (path_of_paths ps) in relativized prefix obj)
               end) in
  match obj with
  | SimpleConfigObject _ _ m _ => liftV (include_fields m values)
  | ConfigDelayedMergeObject _ _ _ => se_throw (ValueError NotResolved)
  | _ => se_throw (ValueError Undefined)
  end.

(** ** Objects and arrays, given [parse_value] *)

Section Recursion.
Variable parse_value : TokenWithComments -> P value.

(** A token that can be part of a value: its value, or [None]. *)
Definition piece_of (t : TokenWithComments) : P (option value) :=
  match twc_token t with
  | PVal v => se_ret (Some v)
  | PTok (UnquotedTextToken text line) =>
      let* o := origin_at line in
      let* v := liftV (new (fun a => Scalar a o (ConfigString text))) in
      se_ret (Some v)
  | PTok (SubstitutionToken optional expression line) =>
      let* o := origin_at line in
      let* e := token_to_substitution_expression expression optional line in
      let* v := liftV (new (fun a => ConfigReference a o e 0)) in
      se_ret (Some v)
  | PTok T_OPEN_CURLY | PTok T_OPEN_SQUARE => let* v := parse_value t in se_ret (Some v)
  | _ => se_ret None
  end.

(** The values up to the first other token, which is the result's last part. *)
Fixpoint collect_values (fuel : nat) (t : TokenWithComments) (values : list value)
    : P (list value * TokenWithComments) :=
  match fuel with
  | O => se_throw OutOfFuel
  | S fuel' =>
      let* v := piece_of t in
      match v with
      | None => se_ret (values, t)
      | Some v => let* t' := next_token in collect_values fuel' t' (values ++ [v])
      end
  end.

Definition consolidate_value_tokens : P unit :=
  if is_json then se_ret tt
  else
    let* t := next_token_ignoring_newline in
    let* r := fuelled (fun fuel => collect_values fuel t []) in
    let '(values, t') := r in
    put_back t' ;;*
    match values with
    | [] => se_ret tt
    | _ =>
        let* consolidated := liftV (concatenate values) in
        match consolidated with
        | Some v => put_back (mkTWC (PVal v) (comments t))
        | None => se_throw (ValueError Undefined)
        end
    end.

(** [path += value] is [path = ${?path} [value]]. *)
Definition append_value (v : value) : P value :=
  let* s := se_get in
  match full_current_path (path_stack s) with
  | Ok (Some p) =>
      let* r := liftV (let* previous_ref := new (fun a => ConfigReference a (origin_of v) (mkSubst p true) 0) in
                       let* l := simple_list (origin_of v) [v] in
                       concatenate [previous_ref; l]) in
      match r with Some x => se_ret x | None => se_throw (ValueError Undefined) end
  | Ok None => se_throw (ValueError Undefined)
  | Err e => se_throw (ValueError (BadPtr e))
  end.

(** The new value under its path, merged with what the key already has. *)
Definition add_field (path : Path) (new_value : value) (values : vmap) : P vmap :=
  let key := first path in
  match remainder path with
  | None =>
      match map_find key values with
      | None => se_ret (map_put key new_value values)
      | Some existing =>
          if is_json then
            parse_error ($"JSON does not allow duplicate fields: '" ++ key ++ $"' was already seen at "
                         ++ description (origin_of existing))
          else
            let* v := liftV (with_fallback new_value existing) in
            se_ret (map_put key v values)
      end
  | Some rest =>
      if is_json then se_throw (ValueError (Bug $"somehow got multi-element path in JSON mode"))
      else
        let* obj := liftV (create_value_under_path rest new_value) in
        let* obj := (match map_find key values with
                     | None => se_ret obj
                     | Some existing => liftV (with_fallback obj existing)
                     end) in
        se_ret (map_put key obj values)
  end.

Definition is_open_curly (t : ptoken) : bool := match t with PTok T_OPEN_CURLY => true | _ => false end.
Definition is_equals (t : ptoken) : bool := match t with PTok T_EQUALS => true | _ => false end.
Definition is_plus_equals (t : ptoken) : bool := match t with PTok T_PLUS_EQUALS => true | _ => false end.

(** [path_stack.front()] and [pop_front()]. *)
Definition pop_path : P Path :=
  let* s := se_get in
  match path_stack s with
  | [] => se_throw (ValueError Undefined)
  | p :: ps => se_put (with_paths ps s) ;;* se_ret p
  end.

(** The token of the value: "can omit the ':' or '=' before an object value". *)
Definition field_value_token (path : Path) (after_key : TokenWithComments) : P TokenWithComments :=
  if bool_decide (flavor = CONF) && is_open_curly (twc_token after_key) then se_ret after_key
  else if negb (is_key_value_separator_token (twc_token after_key)) then
    let* text := ptoken_to_string (twc_token after_key) in
    quote_error text ($"_key '" ++ render path ++ $"' may not be followed by token: " ++ text)
  else
    (if is_equals (twc_token after_key) then se_modify (fun s => with_equals (equals_count s + 1) s) else se_ret tt) ;;*
    consolidate_value_tokens ;;*
    next_token_ignoring_newline.

(** One field, from its first token: the values, [last_path] and
    [last_inside_equals]. *)
Definition parse_field (t : TokenWithComments) (values : vmap) : P (vmap * Path * bool) :=
  let* path := parse_key t in
  let* after_key := next_token_ignoring_newline in
  se_modify (fun s => with_paths (path :: path_stack s) s) ;;*
  let inside_equals := is_equals (twc_token after_key) in
  let* value_token := field_value_token path after_key in
  let* new_value := parse_value (prepend_comments (comments t) value_token) in
  let* new_value := (if is_plus_equals (twc_token after_key) then append_value new_value else se_ret new_value) in
  let* last_path := pop_path in
  (if inside_equals then se_modify (fun s => with_equals (equals_count s - 1) s) else se_ret tt) ;;*
  let* values := add_field path new_value values in
  se_ret (values, last_path, inside_equals).

(** The end of the loop body when no separator follows: the closing brace, or the
    end of a document without braces. *)
Definition close_object (had_open_curly : bool) (last_path : option Path) (last_inside_equals : bool) : P unit :=
  let* t := next_token_ignoring_newline in
  match twc_token t with
  | PTok T_CLOSE_CURLY =>
      if had_open_curly then se_ret tt
      else let* text := ptoken_to_string (twc_token t) in
           quote_error_for last_path last_inside_equals text $"unbalanced close brace '}' with no open brace"
  | p =>
      if had_open_curly then
        let* text := ptoken_to_string p in
        quote_error_for last_path last_inside_equals text ($"_expecting close brace } or a comma, got " ++ text)
      else
        match p with
        | PTok T_END => put_back t
        | _ => let* text := ptoken_to_string p in
               quote_error_for last_path last_inside_equals text
                 ($"_expecting end of input or a comma, got " ++ text)
        end
  end.

(** After a field: [continue] after a separator, otherwise the object ends. *)
Definition after_field (continue : vmap -> option Path -> bool -> P vmap) (had_open_curly : bool)
    (values : vmap) (last_path : option Path) (last_inside_equals : bool) : P vmap :=
  let* separated := check_element_separator in
  if (separated : bool) then continue values last_path last_inside_equals
  else close_object had_open_curly last_path last_inside_equals ;;* se_ret values.

Definition field_or_include (continue : vmap -> option Path -> bool -> P vmap) (had_open_curly : bool)
    (t : TokenWithComments) (values : vmap) (last_path : option Path) (last_inside_equals : bool) : P vmap :=
  if negb is_json && is_include_keyword (twc_token t) then
    let* values := parse_include values in
    after_field continue had_open_curly values last_path last_inside_equals
  else
    let* r := parse_field t values in
    let '(values, path, inside_equals) := r in
    after_field continue had_open_curly values (Some path) inside_equals.

Fixpoint object_loop (fuel : nat) (had_open_curly : bool) (values : vmap) (after_comma : bool)
    (last_path : option Path) (last_inside_equals : bool) : P vmap :=
  match fuel with
  | O => se_throw OutOfFuel
  | S fuel' =>
      let field (t : TokenWithComments) : P vmap :=
        field_or_include (fun values => object_loop fuel' had_open_curly values true)
          had_open_curly t values last_path last_inside_equals in
      let* t := next_token_ignoring_newline in
      match twc_token t with
      | PTok T_CLOSE_CURLY =>
          if is_json && after_comma then
            quote_error (token_to_string T_CLOSE_CURLY) $"expecting a field name after a comma, got a close brace } instead"
          else if negb had_open_curly then
            quote_error (token_to_string T_CLOSE_CURLY) $"unbalanced close brace '}' with no open brace"
          else se_ret values
      | PTok T_END => if negb had_open_curly then put_back t ;;* se_ret values else field t
      | _ => field t
      end
  end.

Definition parse_object (had_open_curly : bool) : P value :=
  let* object_origin := line_origin in
  let* values := fuelled (fun fuel => object_loop fuel had_open_curly [] false None false) in
  liftV (simple_object object_origin values).

Definition starts_value (t : ptoken) : bool :=
  match t with PVal _ | PTok T_OPEN_CURLY | PTok T_OPEN_SQUARE => true | _ => false end.

(** The elements after the first one. *)
Fixpoint array_loop (fuel : nat) (values : list value) : P (list value) :=
  match fuel with
  | O => se_throw OutOfFuel
  | S fuel' =>
      let* separated := check_element_separator in
      if negb separated then
        let* t := next_token_ignoring_newline in
        match twc_token t with
        | PTok T_CLOSE_SQUARE => se_ret values
        | _ =>
            let* text := ptoken_to_string (twc_token t) in
            key_error ($"_list should have ended with ] or had a comma, instead had token: " ++ text
                       ++ $" (if you want " ++ text ++ $" to be part of a string value, then double-quote it)")
        end
      else
        consolidate_value_tokens ;;*
        let* t := next_token_ignoring_newline in
        if starts_value (twc_token t) then
          let* v := parse_value t in array_loop fuel' (values ++ [v])
        else
          match twc_token t, is_json with
          | PTok T_CLOSE_SQUARE, false => put_back t ;;* array_loop fuel' values
          | _, _ =>
              let* text := ptoken_to_string (twc_token t) in
              key_error ($"_list should have had new element after a comma, instead had token: " ++ text
                         ++ $" (if you want the comma or " ++ text
                         ++ $" to be part of a string value, then double-quote it)")
          end
  end.

Definition parse_array : P value :=
  let* array_origin := line_origin in
  consolidate_value_tokens ;;*
  let* t := next_token_ignoring_newline in
  match twc_token t with
  | PTok T_CLOSE_SQUARE => liftV (simple_list array_origin [])
  | _ =>
      if starts_value (twc_token t) then
        let* v := parse_value t in
        let* values := fuelled (fun fuel => array_loop fuel [v]) in
        liftV (simple_list array_origin values)
      else
        let* text := ptoken_to_string (twc_token t) in
        key_error ($"_list should have ] or a first element after the open [, instead had token: " ++ text
                   ++ $" (if you want " ++ text ++ $" to be part of a string value, then double-quote it)")
  end.
End Recursion.

(** ** Values and documents *)

Fixpoint parse_value (fuel : nat) (t : TokenWithComments) : P value :=
  match fuel with
  | O => se_throw OutOfFuel
  | S fuel' =>
      let* v := (match twc_token t with
                 | PVal v => se_ret v
                 | PTok T_OPEN_CURLY => parse_object (parse_value fuel') true
                 | PTok T_OPEN_SQUARE => parse_array (parse_value fuel')
                 | p =>
                     let* text := ptoken_to_string p in
                     quote_error text ($"_expecting a value but got wrong token: " ++ text)
                 end) in
      let* o := twc_set_comments t (origin_of v) in
      liftV (with_origin v o)
  end.

(** The recursion opens a brace or bracket each time. *)
Definition value_fuel (s : ParseContext) : nat := S (remaining s).

Definition parse : P value :=
  let* s := se_get in
  let fuel := value_fuel s in
  let* t := next_token_ignoring_newline in
  match twc_token t with
  | PTok T_START =>
      let* t := next_token_ignoring_newline in
      let* result :=
        (match twc_token t with
         | PTok T_OPEN_CURLY | PTok T_OPEN_SQUARE => parse_value fuel t
         | p =>
             if is_json then
               match p with
               | PTok T_END => parse_error $"_empty document"
               | _ => let* text := ptoken_to_string p in
                      parse_error ($"_document must have an object or array at root, unexpected token: " ++ text)
               end
             else put_back t ;;* parse_object (parse_value fuel) false
         end) in
      let* t := next_token_ignoring_newline in
      match twc_token t with
      | PTok T_END => se_ret result
      | p => let* text := ptoken_to_string p in
             parse_error ($"_document has trailing tokens after first object or array: " ++ text)
      end
  | p => let* text := ptoken_to_string p in
         se_throw (ValueError (Bug ($"token stream did not begin with start, had " ++ text)))
  end.

(** [Parser::parse]. *)
Definition initial_context (ts : list token) (n : nat) : ParseContext := mkContext 1 [] ts [] 0 n.
Definition parse_tokens (ts : list token) (n : nat) : res parse_exn value * nat :=
  let '(r, s) := parse (initial_context ts n) in (r, next_addr s).

(** [Parseable::raw_parse_value(reader, origin, options)]: tokenize and parse,
    comments except in JSON. *)
Definition raw_parse_value (text : str) (n : nat) : res parse_exn value * nat :=
  match drain (2 * length text + 3) (tokenize text is_json) with
  | Ok ts => parse_tokens ts n
  | Err e => (Err (TokenizerError e), n)
  end.
End Parser.

Abbreviation P A := (SE ParseContext parse_exn A).
