(* ===== verification/ParserTotal.v ===== *)
(** * The document parser always ends with a value or a documented error

    Every method of [ParseContext] is given a bound on the tokens it may leave
    ([inv], [got]); from these follow that the fuel of the model never runs out,
    that the token iterator is never asked for a token past the end, that the
    checks of the value constructors never fail, and that a parsed document is a
    well-formed value. *)

From S2P Require Import Prelude CLib Token Tokenizer TokenizerTotal Path PathParse Origin Value ValueMerge ValueEdit ValueConcat Parser.

Open Scope Z_scope.

Lemma set_line_number_good l o : good_origin o -> exists o', set_line_number l o = Ok o' /\ good_origin o'.
Proof.
  intros Ho. unfold set_line_number. destruct (_ && _); [by eexists|]. unfold make_origin.
  rewrite bool_decide_false; [by eexists|]. intros E. apply Ho. rewrite E. constructor.
Qed.

Lemma set_comments_good cs o : good_origin o -> exists o', set_comments cs o = Ok o' /\ good_origin o'.
Proof.
  intros Ho. unfold set_comments. case_bool_decide; [by eexists|]. unfold make_origin.
  rewrite bool_decide_false; [by eexists|]. intros E. apply Ho. rewrite E. constructor.
Qed.

Section Total.
Context `{DoubleLib}.

(** Whether the document has an empty quoted string: only then the undefined
    behaviour of [create_value_under_path] can be reached, and an include of the
    empty name. *)
Variable empties : bool.

(** Whether an includer may throw an I/O error. *)
Variable io : bool.

(** What the parser may throw: an error in the document, or one of an includer. *)
Definition document_error (e : parse_exn) : Prop :=
  match e with
  | ParseError _ _ | WrongType _ _ _ _ => True
  | IOError _ => io = true
  | BadPathError _ GotNothing | BadPathError _ (TokenNotAllowed _) | BadPathError _ AdjacentPeriods => True
  | ValueError CannotJoin | ValueError NotResolved => True
  | ValueError Undefined | ValueError (BadOrigin EmptyDescription) => empties = true
  | _ => False
  end.

(** What an includer answers with: an object that is no delayed merge.  The origin of
    an empty one is never used. *)
Definition answer (n : nat) (v : value) : Prop :=
  match v with
  | SimpleConfigObject a _ [] _ => (a < n)%nat
  | SimpleConfigObject _ _ _ _ => wf n v
  | _ => False
  end.

Definition includer_ok (i : str -> SE nat parse_exn value) : Prop :=
  forall name n, (name = [] -> empties = true) ->
                 match i name n with
                 | (Ok v, n') => (n <= n')%nat /\ answer n' v
                 | (Err e, _) => document_error e
                 end.

Variable flavor : ConfigSyntax.
Variable base_origin : SimpleConfigOrigin.
Variables include include_file : str -> SE nat parse_exn value.
Variable pointer_text : value -> str.
Hypothesis base_good : good_origin base_origin.
Hypothesis include_ok : includer_ok include.
Hypothesis include_file_ok : includer_ok include_file.

(** ** Outcomes *)

Definition outcome {A} (m : P A) (s : ParseContext) (Q : A -> ParseContext -> Prop) : Prop :=
  match m s with
  | (Ok a, s') => (next_addr s <= next_addr s')%nat /\ Q a s'
  | (Err e, _) => document_error e
  end.

Lemma parsed_ret {A} (a : A) s Q : Q a s -> outcome (se_ret a) s Q.
Proof. by split. Qed.

Lemma parsed_throw {A} e s (Q : A -> ParseContext -> Prop) : document_error e -> outcome (se_throw e) s Q.
Proof. done. Qed.

Lemma parsed_bind {A B} (m : P A) (k : A -> P B) s R Q :
  outcome m s R -> (forall a s', (next_addr s <= next_addr s')%nat -> R a s' -> outcome (k a) s' Q) ->
  outcome (se_bind m k) s Q.
Proof.
  unfold outcome, se_bind. destruct (m s) as [[a|e] s']; [|done]. intros [Hn HR] Hk. specialize (Hk a s' Hn HR).
  destruct (k a s') as [[b|e] s'']; [|done]. destruct Hk. split; [lia|done].
Qed.

Lemma parsed_get {B} (k : ParseContext -> P B) s Q : outcome (k s) s Q -> outcome (se_bind se_get k) s Q.
Proof. done. Qed.

Lemma parsed_modify {B} f (k : unit -> P B) s Q :
  next_addr (f s) = next_addr s -> outcome (k tt) (f s) Q -> outcome (se_bind (se_modify f) k) s Q.
Proof. unfold outcome, se_bind, se_modify. by intros ->. Qed.

Lemma parsed_put {B} s1 (k : unit -> P B) s Q :
  next_addr s1 = next_addr s -> outcome (k tt) s1 Q -> outcome (se_bind (se_put s1) k) s Q.
Proof. unfold outcome, se_bind, se_put. by intros ->. Qed.

Lemma parsed_weaken {A} (m : P A) s (R Q : A -> ParseContext -> Prop) :
  outcome m s R -> (forall a s', (next_addr s <= next_addr s')%nat -> R a s' -> Q a s') -> outcome m s Q.
Proof. unfold outcome. destruct (m s) as [[a|e] s']; [|done]. intros [Hn HR] HQ. auto. Qed.

(** ** Lifted operations *)

Lemma with_addr_id s : with_addr (next_addr s) s = s.
Proof. by destruct s. Qed.

Lemma parsed_liftV {A} (m : M A) s (R : A -> nat -> Prop) (E : value_exn -> Prop) Q :
  vout E m (next_addr s) R -> (forall e, E e -> document_error (ValueError e)) ->
  (forall a n, (next_addr s <= n)%nat -> R a n -> Q a (with_addr n s)) -> outcome (liftV m) s Q.
Proof. unfold vout, outcome, liftV. destruct (m (next_addr s)) as [[a|e] n']; [|auto]. intros [Hn HR] _ HQ. split; auto. Qed.

Lemma bind_liftV {A B} (m : M A) (k : A -> P B) s (R : A -> nat -> Prop) (E : value_exn -> Prop) Q :
  vout E m (next_addr s) R -> (forall e, E e -> document_error (ValueError e)) ->
  (forall a n, (next_addr s <= n)%nat -> R a n -> outcome (k a) (with_addr n s) Q) -> outcome (se_bind (liftV m) k) s Q.
Proof.
  intros Hm HE Hk. eapply parsed_bind with (R := fun a s' => exists n, s' = with_addr n s /\ (next_addr s <= n)%nat /\ R a n).
  - eapply parsed_liftV; [exact Hm|done|]. simpl. eauto.
  - intros a s' _ (n & -> & Hn & HR). auto.
Qed.

Lemma bind_new {B} f (k : value -> P B) s Q :
  outcome (k (f (next_addr s))) (with_addr (S (next_addr s)) s) Q -> outcome (se_bind (liftV (new f)) k) s Q.
Proof.
  intros Hk. eapply bind_liftV with (E := fun _ => False) (R := fun v n => v = f (next_addr s) /\ n = S (next_addr s));
    [by apply vout_new|done|]. by intros a n _ [-> ->].
Qed.

Lemma parsed_origin r o s : r = Ok o -> outcome (liftV (lift_origin r)) s (fun o' s' => o' = o /\ s' = s).
Proof. intros ->. unfold outcome, liftV. simpl. rewrite with_addr_id. done. Qed.

Lemma origin_at_ok l s : outcome (origin_at base_origin l) s (fun o s' => good_origin o /\ s' = s).
Proof.
  destruct (set_line_number_good l base_origin base_good) as (o & E & Ho). unfold origin_at. rewrite E.
  eapply parsed_weaken; [by apply parsed_origin|]. by intros ? s' _ [-> ->].
Qed.

(** ** Errors *)

Abbreviation outcome_any m s := (forall Q, outcome m s Q).

Lemma parse_error_ok {A} msg s : outcome_any (parse_error (A := A) base_origin msg) s.
Proof.
  intros Q. unfold parse_error, line_origin. eapply parsed_bind; [apply parsed_get, origin_at_ok|]. intros o s' _ _. done.
Qed.

Lemma key_error_ok {A} msg s : outcome_any (key_error (A := A) base_origin msg) s.
Proof. intros Q. apply parse_error_ok. Qed.

Lemma quote_error_ok {A} bad msg s : outcome_any (quote_error (A := A) base_origin bad msg) s.
Proof. intros Q. apply parse_error_ok. Qed.

Lemma quote_error_for_ok {A} p b bad msg s : outcome_any (quote_error_for (A := A) base_origin p b bad msg) s.
Proof. intros Q. apply parse_error_ok. Qed.

Lemma ptoken_text_ok {B} t s (k : str -> P B) Q :
  (forall text, outcome (k text) s Q) -> outcome (se_bind (ptoken_to_string pointer_text t) k) s Q.
Proof.
  intros Hk. eapply parsed_bind with (R := fun _ s' => s' = s); [|intros text ? _ ->; apply Hk].
  destruct t as [t|v]; [by apply parsed_ret|]. unfold ptoken_to_string.
  destruct v; try (destruct (is_resolved _) eqn:E; [|done]); try done; try (by apply parsed_ret);
    unfold outcome, liftV, se_bind; simpl; by rewrite with_addr_id.
Qed.

(** ** The token stream *)

Definition ends (t : ptoken) : bool := match t with PTok T_END => true | _ => false end.

(** One END, at the end. *)
Definition flags (s : ParseContext) : list bool :=
  map (fun t => ends (twc_token t)) (buffer s) ++ map is_end (toks s).

Definition live (s : ParseContext) : Prop := exists k, flags s = replicate k false ++ [true].

Definition calm (t : token) : Prop :=
  match t with ValueToken (ConfigString []) _ | UnquotedTextToken [] _ => empties = true | _ => True end.

Definition tok_good (n : nat) (t : ptoken) : Prop :=
  match t with PVal v => piece empties n v | PTok t => calm t end.

Record inv (ps : list Path) (m : nat) (s : ParseContext) : Prop := mkInv {
  i_live : live s;
  i_remaining : (remaining s <= m)%nat;
  i_buffer : Forall (fun t => tok_good (next_addr s) (twc_token t)) (buffer s);
  i_toks : Forall calm (toks s);
  i_paths : path_stack s = ps }.

(** A token has been taken, out of [m] that were left. *)
Record got (ps : list Path) (m : nat) (t : TokenWithComments) (s : ParseContext) : Prop := mkGot {
  g_pos : (0 < m)%nat;
  g_token : tok_good (next_addr s) (twc_token t);
  g_rest : if ends (twc_token t) then flags s = [] /\ path_stack s = ps else inv ps (pred m) s }.

Lemma tok_good_mono n n' t : (n <= n')%nat -> tok_good n t -> tok_good n' t.
Proof. intros Hn. destruct t; [done|]. by apply piece_mono. Qed.

Lemma inv_mono ps m m' s : inv ps m s -> (m <= m')%nat -> inv ps m' s.
Proof. intros [] Hm. split; try done. lia. Qed.

Lemma inv_addr ps m s n : inv ps m s -> (next_addr s <= n)%nat -> inv ps m (with_addr n s).
Proof.
  intros [] Hn. split; try done. eapply Forall_impl; [done|]. intros t Ht. by eapply tok_good_mono; [|exact Ht].
Qed.

Lemma inv_line ps m s l : inv ps m s -> inv ps m (Parser.with_line l s).
Proof. by intros []. Qed.

Lemma inv_tight ps m s : inv ps m s -> inv ps (remaining s) s /\ (remaining s <= m)%nat.
Proof. intros []. by split. Qed.

Lemma flags_nil s : flags s = [] -> buffer s = [] /\ toks s = [].
Proof. unfold flags. intros [Hb Ht]%app_eq_nil. split; by eapply map_eq_nil. Qed.

Lemma got_mono ps m m' t s : got ps m t s -> (m <= m')%nat -> got ps m' t s.
Proof. intros [Hp Ht Hr] Hm. split; [lia|done|]. destruct (ends _); [done|]. eapply inv_mono; [done|lia]. Qed.

Lemma got_tight ps m t s : got ps m t s -> got ps (S (remaining s)) t s /\ (S (remaining s) <= m)%nat.
Proof.
  intros [Hp Ht Hr]. destruct (ends _) eqn:E.
  - destruct Hr as [Hf Hps]. split; [split; [lia|done|by rewrite E]|].
    destruct (flags_nil s Hf) as [Hb Hts]. unfold remaining. rewrite Hb, Hts. simpl. lia.
  - destruct (inv_tight _ _ _ Hr) as [Hr' Hm]. split; [split; [lia|done|by rewrite E]|lia].
Qed.

Lemma got_live ps m t s : got ps m t s -> ends (twc_token t) = false -> inv ps (pred m) s.
Proof. by intros [_ _ Hr] E; rewrite E in Hr. Qed.

Lemma put_back_inv ps m t s : got ps m t s -> inv ps m (Parser.with_buffer (t :: buffer s) s).
Proof.
  intros [Hp Ht Hr]. destruct (ends (twc_token t)) eqn:E.
  - destruct Hr as [Hf Hps]. destruct (flags_nil s Hf) as [Hb Hts].
    split; unfold live, flags, remaining; simpl; rewrite ?Hb, ?Hts, ?E; simpl; try done; [by exists 0%nat|by constructor].
  - destruct Hr as [[k Hl] Hm Hb Hts Hps]. split; unfold live, remaining in *; simpl; try done; [|lia|by constructor].
    exists (S k). unfold flags in *. simpl. by rewrite E, Hl.
Qed.

Lemma put_back_ok {B} ps m t s (k : unit -> P B) Q :
  got ps m t s -> (forall s', (next_addr s <= next_addr s')%nat -> inv ps m s' -> outcome (k tt) s' Q) ->
  outcome (se_bind (Parser.put_back t) k) s Q.
Proof. intros Hg Hk. apply parsed_modify; [done|]. apply Hk; [done|]. by apply put_back_inv. Qed.

(** Taking the first of the tokens that are left. *)
Lemma live_cons b l : (exists k, b :: l = replicate k false ++ [true]) ->
  if b then l = [] else exists k, l = replicate k false ++ [true].
Proof. intros [[|k] E]; simplify_eq/=; [done|by exists k]. Qed.

Lemma pop_buffer_ok ps m s : inv ps m s -> buffer s <> [] -> outcome pop_buffer s (got ps m).
Proof.
  intros [Hl Hm Hb Ht Hps] Hne. unfold pop_buffer. apply parsed_get. destruct (buffer s) as [|t b] eqn:E; [done|].
  apply parsed_put; [done|]. apply parsed_ret. inversion_clear Hb as [|? ? Ht1 Hb1].
  unfold live, flags, remaining in *. rewrite E in *. simpl in Hl, Hm. apply live_cons in Hl.
  split; [lia|done|]. destruct (ends (twc_token t)); [by split|].
  split; unfold live, flags, remaining; simpl; try done. lia.
Qed.

Lemma tokens_next_ok ps m s cs :
  inv ps m s -> buffer s = [] ->
  outcome (tokens_next base_origin) s (fun t s' => got ps m (mkTWC t cs) s' /\ buffer s' = []
    /\ (length (toks s') < length (toks s))%nat).
Proof.
  intros [Hl Hm Hb Ht Hps] E. unfold tokens_next. apply parsed_get.
  unfold live, flags, remaining in *. rewrite E in *. simpl in Hm.
  change (exists k, map is_end (toks s) = replicate k false ++ [true]) in Hl.
  destruct (toks s) as [|t ts] eqn:Ets; [destruct Hl as [[|k] ?]; done|]. rewrite map_cons in Hl. apply parsed_put; [done|].
  inversion_clear Ht as [|? ? Ht1 Ht2]. apply live_cons in Hl. simpl in Hm.
  assert (Hinv : is_end t = false -> inv ps (pred m) (with_toks ts s)).
  { intros Et. rewrite Et in Hl. split; unfold live, flags, remaining; simpl; rewrite ?E; simpl; try done. lia. }
  assert (Hother : is_value t = false -> outcome (se_ret (PTok t)) (with_toks ts s)
    (fun p s' => got ps m (mkTWC p cs) s' /\ buffer s' = [] /\ (length (toks s') < length (t :: ts))%nat)).
  { intros Hv. apply parsed_ret. split; [|split; [done|simpl; lia]]. split; [lia|by destruct t|].
    destruct t; try (by apply Hinv). simpl in Hl |- *. unfold flags. simpl. by rewrite E, Hl. }
  destruct t; try (by apply Hother). clear Hother.
  eapply parsed_bind; [apply origin_at_ok|]. intros o s1 _ [Ho ->].
  apply bind_new, parsed_ret. split; [|split; [done|simpl; lia]]. split; [lia| |].
  - simpl. split; [constructor; [lia|done]| |done]. split; [done|]. by destruct value as [[]| | | | |].
  - simpl. apply inv_addr; [by apply Hinv|simpl; lia].
Qed.

(** ** Reading tokens *)

Definition is_line (t : ptoken) : Prop := match t with PTok (LineToken _) => True | _ => False end.

Lemma line_got ps m l cs s : got ps m (mkTWC (PTok (LineToken l)) cs) s -> inv ps (pred m) s.
Proof. intros Hg. by apply (got_live _ _ _ _ Hg). Qed.

Lemma comment_block_ok fuel : forall ps m next pn nls cs s cs0,
  got ps m (mkTWC next cs0) s -> buffer s = [] -> (length (toks s) < fuel)%nat -> Forall is_line nls ->
  outcome (comment_block base_origin fuel next pn nls cs) s (fun r s' =>
    exists m', got ps m' (mkTWC r.1.1 r.2) s' /\ buffer s' = [] /\ Forall is_line r.1.2
      /\ (m' + length r.1.2 <= m + length nls)%nat).
Proof.
  induction fuel as [|fuel IH]; intros ps m next pn nls cs s cs0 Hg Hb Hf Hn; [lia|]. cbn [comment_block].
  assert (Hstop : forall r, r = (next, nls, cs) -> outcome (se_ret r) s (fun r s' =>
    exists m', got ps m' (mkTWC r.1.1 r.2) s' /\ buffer s' = [] /\ Forall is_line r.1.2
      /\ (m' + length r.1.2 <= m + length nls)%nat)).
  { intros r ->. apply parsed_ret. exists m. split_and!; [|done|done|simpl; lia]. destruct Hg. by split. }
  destruct next as [t|v]; [destruct t|]; try (by apply Hstop);
    (eapply parsed_bind; [apply (tokens_next_ok ps (pred m) s []); [by apply (got_live _ _ _ _ Hg)|done]|];
     intros t' s' _ (Hg' & Hb' & Hl)); pose proof (g_pos _ _ _ _ Hg).
  - eapply parsed_weaken; [eapply (IH ps (pred m)); [exact Hg'|done|lia|]|].
    { apply Forall_app. split; [done|]. by repeat constructor. }
    intros r s2 _ (m' & ? & ? & ? & Hm). exists m'. split_and!; try done. rewrite length_app in Hm. simpl in Hm. lia.
  - eapply parsed_weaken; [eapply (IH ps (pred m)); [exact Hg'|done|lia|done]|].
    intros r s2 _ (m' & ? & ? & ? & Hm). exists m'. split_and!; try done. lia.
Qed.

Lemma lines_before ps m nls s :
  Forall is_line nls -> inv ps m s ->
  inv ps (m + length nls) (Parser.with_buffer (map (fun t => mkTWC t []) nls ++ buffer s) s).
Proof.
  induction 1 as [|t nls Ht _ IH]; intros Hi; [rewrite Nat.add_0_r; by destruct s, Hi|].
  destruct (IH Hi) as [[k Hl] Hm Hb Hts Hps]. split; try done.
  - exists (S k). unfold flags in *. simpl in *. rewrite Hl. destruct t as [[]|]; done.
  - unfold remaining in *. simpl in *. lia.
  - simpl in *. constructor; [|done]. by destruct t as [[]|].
Qed.

Lemma pop_token_ok ps m s : inv ps m s -> outcome (pop_token base_origin) s (got ps m).
Proof.
  intros Hi. unfold pop_token. apply parsed_get. destruct (buffer s) as [|t b] eqn:Eb; [|by apply pop_buffer_ok; rewrite ?Eb].
  eapply parsed_bind; [by apply (tokens_next_ok ps m s [])|]. intros t s1 _ (Hg & Hb & Hl).
  assert (Hret : outcome (se_ret (mkTWC t [])) s1 (got ps m)) by (by apply parsed_ret).
  destruct t as [t|v]; [destruct t|]; try exact Hret. clear Hret. unfold consolidate_comment_block.
  eapply parsed_bind with (R := fun _ s' => inv ps m s' /\ buffer s' <> []); [|intros _ s2 _ [??]; by apply pop_buffer_ok].
  eapply parsed_bind.
  { unfold Parser.fuelled. eapply (comment_block_ok _ ps m); [exact Hg|done| |done]. unfold remaining. lia. }
  intros [[next nls] cs] s2 _ (m' & Hg' & Hb' & Hn & Hm). simpl in *.
  apply parsed_modify; [done|]. red. simpl. split; [done|]. split; [|by destruct nls].
  eapply inv_mono; [apply lines_before; [done|by eapply put_back_inv]|lia].
Qed.

Lemma next_token_ok ps m s : inv ps m s -> outcome (Parser.next_token flavor base_origin) s (got ps m).
Proof.
  intros Hi. unfold Parser.next_token. eapply parsed_bind; [by apply pop_token_ok|]. intros t s1 _ Hg.
  assert (Hret : outcome (se_ret t) s1 (got ps m)) by (by apply parsed_ret).
  destruct (twc_token t) as [x|v]; [destruct x|]; try exact Hret.
  - destruct (is_json flavor); [apply key_error_ok|exact Hret].
  - eapply parsed_bind with (R := fun _ _ => True).
    { destruct suggest_quotes; by split. }
    intros msg s2 _ _. eapply parsed_bind; [apply origin_at_ok|]. done.
  - destruct (is_json flavor); [apply key_error_ok|exact Hret].
Qed.

Lemma fuelled_inv {A} ps m (body : nat -> P A) s Q :
  inv ps m s -> (forall m', inv ps m' s -> (m' <= m)%nat -> outcome (body (S m')) s Q) -> outcome (Parser.fuelled body) s Q.
Proof. intros Hi Hb. unfold Parser.fuelled. destruct (inv_tight _ _ _ Hi). by apply Hb. Qed.

Lemma set_line_ok {B} ps m l s (k : unit -> P B) Q :
  inv ps m s -> (forall s', next_addr s' = next_addr s -> inv ps m s' -> outcome (k tt) s' Q) ->
  outcome (se_bind (set_line l) k) s Q.
Proof. intros Hi Hk. apply parsed_modify; [done|]. apply Hk; [done|]. by apply inv_line. Qed.

Lemma skip_newlines_ok fuel : forall ps m s,
  inv ps m s -> (m < fuel)%nat -> outcome (skip_newlines flavor base_origin fuel) s (got ps m).
Proof.
  induction fuel as [|fuel IH]; intros ps m s Hi Hf; [lia|]. cbn [skip_newlines].
  eapply parsed_bind; [by apply next_token_ok|]. intros t s1 _ Hg.
  assert (Hret : outcome (se_ret t) s1 (got ps m)) by (by apply parsed_ret).
  destruct t as [[x|v] cs]; [destruct x|]; try exact Hret. pose proof (g_pos _ _ _ _ Hg). apply line_got in Hg.
  eapply set_line_ok; [exact Hg|]. intros s2 _ Hi2. eapply parsed_weaken; [apply (IH ps (pred m)); [done|lia]|].
  intros t s3 _ Hg3. eapply got_mono; [exact Hg3|lia].
Qed.

Lemma next_ok ps m s :
  inv ps m s -> outcome (next_token_ignoring_newline flavor base_origin) s (got ps m).
Proof.
  intros Hi. eapply fuelled_inv; [exact Hi|]. intros m' Hi' Hm.
  eapply parsed_weaken; [apply (skip_newlines_ok _ ps m'); [done|lia]|]. intros t s1 _ Hg. by eapply got_mono.
Qed.

Definition separated (ps : list Path) (m : nat) (b : bool) (s : ParseContext) : Prop :=
  if b then (0 < m)%nat /\ inv ps (pred m) s else inv ps m s.

Lemma separator_loop_ok fuel : forall ps m saw s,
  inv ps m s -> (m < fuel)%nat ->
  outcome (separator_loop flavor base_origin fuel saw) s (fun b s' => separated ps m b s' \/ saw = true /\ b = true /\ inv ps m s').
Proof.
  induction fuel as [|fuel IH]; intros ps m saw s Hi Hf; [lia|]. cbn [separator_loop].
  eapply parsed_bind; [by apply next_token_ok|]. intros t s1 _ Hg. pose proof (g_pos _ _ _ _ Hg) as Hpos.
  assert (Hback : outcome (Parser.put_back t ;;* se_ret saw) s1 (fun b s' => separated ps m b s' \/ saw = true /\ b = true /\ inv ps m s')).
  { eapply put_back_ok; [exact Hg|]. intros s2 _ Hi2. apply parsed_ret. destruct saw; [by right|by left]. }
  destruct t as [[x|v] cs]; [destruct x|]; try exact Hback; clear Hback.
  - apply parsed_ret. left. split; [done|]. by apply (got_live _ _ _ _ Hg).
  - apply line_got in Hg. eapply set_line_ok; [exact Hg|]. intros s2 _ Hi2.
    eapply parsed_weaken; [apply (IH ps (pred m)); [done|lia]|]. intros b s3 _ [Hs|(_ & -> & Hs)]; left; [|done].
    destruct b; simpl in *; [destruct Hs as [? Hs]; split; [done|]|]; (eapply inv_mono; [exact Hs|lia]).
Qed.

Lemma check_separator_ok ps m s :
  inv ps m s -> outcome (check_element_separator flavor base_origin) s (separated ps m).
Proof.
  intros Hi. unfold check_element_separator. destruct (is_json flavor).
  - eapply parsed_bind; [by apply next_ok|]. intros t s1 _ Hg.
    assert (Hback : outcome (Parser.put_back t ;;* se_ret false) s1 (separated ps m)).
    { eapply put_back_ok; [exact Hg|]. intros s2 _ Hi2. by apply parsed_ret. }
    destruct t as [[x|v] cs]; [destruct x|]; try exact Hback. apply parsed_ret.
    split; [by destruct Hg|]. by apply (got_live _ _ _ _ Hg).
  - eapply fuelled_inv; [exact Hi|]. intros m' Hi' Hm.
    eapply parsed_weaken; [apply (separator_loop_ok _ ps m'); [done|lia]|]. intros b s1 _ [Hs|[? _]]; [|done].
    destruct b; simpl in *; [destruct Hs as [? Hs]; split; [lia|]|]; (eapply inv_mono; [exact Hs|lia]).
Qed.

(** ** Keys *)

(** A path that [create_value_under_path] can follow. *)
Definition named (p : Path) : Prop := empties = false -> Forall (fun k => k <> []) (path_elements p).

Definition named_token (t : token) : Prop :=
  match t with ValueToken (ConfigString []) _ => empties = true | _ => True end.

Definition strict (buf : list Element) : Prop := Forall (fun e => can_be_empty e = false) buf.

Lemma path_char_strict text : forall buf, buf <> [] ->
  fold_left path_char text buf <> [] /\ (strict buf -> strict (fold_left path_char text buf)).
Proof.
  induction text as [|c text IH]; intros buf Hb; [done|]. simpl. destruct buf as [|e buf]; [done|].
  destruct (IH (path_char (e :: buf) c)) as [Hn Hs]; [unfold path_char; by destruct (Ascii.eqb _ _)|].
  split; [done|]. intros Hst. apply Hs. unfold path_char. destruct (Ascii.eqb _ _); [by constructor|].
  inversion_clear Hst as [|? ? He Hst']. constructor; [|done]. simpl. by rewrite He.
Qed.

Lemma add_path_text_strict q text buf :
  buf <> [] ->
  add_path_text buf q text <> []
  /\ ((q = true -> text = [] -> empties = true) -> empties = false -> strict buf -> strict (add_path_text buf q text)).
Proof.
  intros Hb. destruct q.
  - rewrite add_quoted. destruct buf as [|e buf]; [done|]. split; [done|]. intros Hq He Hst.
    inversion_clear Hst as [|? ? Hf Hst']. constructor; [|done]. simpl. rewrite Hf. simpl. apply bool_decide_eq_false.
    intros [_ Ht]%app_eq_nil. rewrite Hq in He; done.
  - rewrite add_unquoted. destruct (path_char_strict text buf Hb) as [? ?]. split; [done|]. by intros _ _.
Qed.

Lemma path_tokens_any ts : forall buf,
  buf <> [] ->
  match path_tokens ts buf with
  | Ok buf' => buf' <> [] /\ (empties = false -> Forall named_token ts -> strict buf -> strict buf')
  | Err e => exists t, e = TokenNotAllowed t
  end.
Proof.
  induction ts as [|t ts IH]; intros buf Hb; [done|]. cbn [path_tokens].
  assert (Hadd : forall q text, (named_token t -> q = true -> text = [] -> empties = true) ->
    match path_tokens ts (add_path_text buf q text) with
    | Ok buf' => buf' <> [] /\ (empties = false -> Forall named_token (t :: ts) -> strict buf -> strict buf')
    | Err e => exists t, e = TokenNotAllowed t
    end).
  { intros q text Hq. destruct (add_path_text_strict q text buf Hb) as [Hn Hs].
    specialize (IH _ Hn). destruct (path_tokens _ _); [|done]. destruct IH as [? IH]. split; [done|].
    intros He [Ht Hts]%Forall_cons Hst. auto. }
  destruct t; try (by eexists); [|apply Hadd|by apply Hadd].
  - specialize (IH buf Hb). destruct (path_tokens ts buf); [|done]. destruct IH as [? IH]. split; [done|].
    intros He [_ Hts]%Forall_cons. by apply IH.
  - destruct value as [[]| | | | |]; by simpl.
Qed.

Lemma build_path_any es : forall pb l, holds pb l ->
  match build_path es pb with
  | Ok pb' => holds pb' (l ++ map element es) /\ Forall (fun e => element e = [] -> can_be_empty e = true) es
  | Err e => e = AdjacentPeriods
  end.
Proof.
  induction es as [|e es IH]; intros pb l Hp; simpl; [by rewrite app_nil_r|].
  destruct (bool_decide (element e = [])) eqn:Ee, (can_be_empty e) eqn:Ec; simpl; try done;
    destruct (append_key_holds pb l (element e) Hp) as (pb1 & -> & Hp1);
    specialize (IH _ _ Hp1); destruct (build_path es pb1); try done;
    rewrite <- app_assoc in IH; destruct IH; (split; [done|]; constructor; [|done]);
    (apply bool_decide_eq_false in Ee || idtac); done.
Qed.

Lemma parse_expression_ok ts o s :
  outcome (parse_expression ts o) s (fun p s' => s' = s /\ (Forall named_token ts -> named p)).
Proof.
  unfold parse_expression, parse_path_expression. destruct ts as [|t ts]; [done|].
  pose proof (path_tokens_any (t :: ts) [mkElement [] false] ltac:(done)) as Hp.
  destruct (path_tokens _ _) as [buf|e]; [|by destruct Hp as [? ->]]. cbn [mbind res_bind].
  pose proof (build_path_any (reverse buf) new_builder [] holds_new) as Hb.
  destruct (build_path _ _) as [pb|e]; [|by subst]. cbn [mbind res_bind]. destruct Hb as [Hh He], Hp as [Hn Hst].
  rewrite (result_holds _ _ Hh). simpl app. destruct (of_elements (map element (reverse buf))) as [p|] eqn:Ep.
  - apply parsed_ret. split; [done|]. intros Hts Hem. pose proof (of_elements_spec (map element (reverse buf))) as Hel.
    rewrite Ep in Hel. simpl in Hel. rewrite Hel. apply Forall_fmap, Forall_reverse.
    specialize (Hst Hem Hts ltac:(by repeat constructor)). rewrite Forall_reverse in He. unfold strict in Hst.
    rewrite Forall_forall in *. intros e Hin Hnil. specialize (He e Hin Hnil). specialize (Hst e Hin). congruence.
  - exfalso. destruct buf as [|e buf]; [done|]. rewrite reverse_cons, map_app in Ep. by destruct (map element (reverse buf)).
Qed.

Lemma key_tokens_ok l s :
  Forall (tok_good (next_addr s)) l ->
  outcome (key_tokens l) s (fun ts s' => s' = s
    /\ Forall named_token ts).
Proof.
  induction 1 as [|t l Ht _ IH]; [by apply parsed_ret|]. cbn [key_tokens].
  eapply parsed_bind with (R := fun x s' => s' = s /\ named_token x).
  - destruct t as [t|v]; [apply parsed_ret; by destruct t as [| | | | | | | | | |[[]| | | | |]| | | | |]|]. cbn [key_token].
    destruct v as [a o [[]| | | | |]| | | | | |]; try done; try (by apply parsed_ret).
    apply parsed_ret. split; [done|]. destruct Ht as [_ [_ Hb] _]. by apply Hb.
  - intros x ? _ [-> Hx]. eapply parsed_bind; [exact IH|]. intros xs ? _ [-> Hxs]. apply parsed_ret.
    split; [done|]. by constructor.
Qed.

Lemma key_loop_ok fuel : forall ps m t expr s,
  got ps m t s -> (m <= fuel)%nat -> Forall (tok_good (next_addr s)) expr ->
  outcome (key_loop flavor base_origin fuel t expr) s (fun r s' =>
    Forall (tok_good (next_addr s')) r.1 /\ exists m', got ps m' r.2 s' /\ (r.1 = expr /\ m' = m \/ m' < m)%nat).
Proof.
  induction fuel as [|fuel IH]; intros ps m t expr s Hg Hf He; pose proof (g_pos _ _ _ _ Hg); [lia|]. cbn [key_loop].
  destruct (is_key_part (twc_token t)) eqn:Ek.
  - eapply parsed_bind; [apply (next_token_ok ps (pred m)); apply (got_live _ _ _ _ Hg); by destruct (twc_token t) as [[]|]|].
    intros t' s' Hn Hg'. eapply parsed_weaken; [apply (IH ps (pred m)); [done|lia|]|].
    { apply Forall_app. split; [|apply Forall_singleton].
      - eapply Forall_impl; [exact He|]. intros. by eapply tok_good_mono.
      - eapply tok_good_mono; [exact Hn|]. apply Hg. }
    intros r s2 _ (Hr & m' & Hg2 & Hm). split; [done|]. exists m'. split; [done|]. right. destruct Hm as [[_ ->]|Hm]; lia.
  - apply parsed_ret. split; [done|]. exists m. split; [done|]. by left.
Qed.

(** JSON keys are single; a key takes a token at least. *)
Definition keyed (p : Path) : Prop := if is_json flavor then remainder p = None else named p.

Lemma quoted_string_ok t s n :
  tok_good n t -> outcome (quoted_string t) s (fun r s' => s' = s /\ (r <> None -> ends t = false) /\ (r = Some [] -> empties = true)).
Proof.
  intros Ht. destruct t as [t|v]; [by apply parsed_ret|]. unfold quoted_string.
  destruct v as [a o [| | | | |]| | | | | |]; try done; apply parsed_ret; split_and!; try done.
  intros [= ->]. by apply (piece_plain _ _ _ Ht).
Qed.

Lemma parse_key_ok ps m t s :
  got ps m t s -> outcome (parse_key flavor base_origin pointer_text t) s (fun p s' => keyed p /\ inv ps (pred m) s').
Proof.
  intros Hg. unfold parse_key, keyed. destruct (is_json flavor).
  - eapply parsed_bind; [eapply quoted_string_ok, Hg|]. intros [key|] ? _ (-> & He & _).
    + apply parsed_ret. split; [done|]. by apply (got_live _ _ _ _ Hg), He.
    + apply ptoken_text_ok. intros ?. apply key_error_ok.
  - destruct (got_tight _ _ _ _ Hg) as [Hgt Hm]. eapply parsed_bind; [unfold Parser.fuelled; by apply (key_loop_ok _ ps (S (remaining s)))|].
    intros [expr t'] s' Hn (Hex & m' & Hg' & Hm'). simpl in *. destruct expr as [|x expr].
    + apply ptoken_text_ok. intros ?. apply key_error_ok.
    + destruct Hm' as [[? _]|Hm']; [done|]. eapply put_back_ok; [exact Hg'|]. intros s2 Hn2 Hi2.
      eapply parsed_bind; [apply parsed_get, origin_at_ok|]. intros o ? _ [_ ->].
      eapply parsed_bind; [apply key_tokens_ok; eapply Forall_impl; [exact Hex|]; intros; by eapply tok_good_mono|].
      intros ts ? _ [-> Hts]. eapply parsed_weaken; [apply parse_expression_ok|].
      intros p ? _ [-> Hp]. split; [by apply Hp|]. eapply inv_mono; [exact Hi2|lia].
Qed.

(** ** Includes *)

Definition fields_ok (n : nat) (m : vmap) : Prop := NoDup m.*1 /\ Forall (fun kv => wf n kv.2) m.

Lemma fields_mono n n' m : (n <= n')%nat -> fields_ok n m -> fields_ok n' m.
Proof. intros Hn [? ?]. split; [done|]. by apply entries_mono with n. Qed.

Lemma fields_put n k v m : wf n v -> fields_ok n m -> fields_ok n (map_put k v m).
Proof. intros Hv [? ?]. split; [by apply map_put_keys|by apply map_put_wf]. Qed.

Lemma fallback_vout n a b :
  wf n a -> wf n b -> vout (fun _ => False) (with_fallback a b) n (fun v n' => wf n' v).
Proof. intros Ha Hb. destruct (with_fallback_ok a n b Ha Hb) as (v & n' & E & Hn & Hv & _). by apply (vout_ok _ _ _ _ v n'). Qed.

Lemma include_fields_ok fields : forall n values,
  Forall (fun kv => wf n kv.2) fields -> fields_ok n values ->
  vout (fun _ => False) (include_fields fields values) n (fun r n' => fields_ok n' r).
Proof.
  induction fields as [|[k v] fields IH]; intros n values Hf Hv; [by apply vout_ret|]. cbn [include_fields].
  inversion_clear Hf as [|? ? Hw Hf']. simpl in Hw. eapply vout_bind with (P := fun w n' => wf n' w).
  - destruct (map_find k values) eqn:E; [|by apply vout_ret]. apply fallback_vout; [done|].
    eapply map_find_wf; [apply Hv|exact E].
  - intros w n' Hn Hw'. apply IH; [by apply entries_mono with n|]. apply fields_put; [done|]. by apply fields_mono with n.
Qed.

Lemma skip_blank_ok fuel : forall ps m s,
  inv ps m s -> (m < fuel)%nat -> outcome (skip_blank flavor base_origin fuel) s (got ps m).
Proof.
  induction fuel as [|fuel IH]; intros ps m s Hi Hf; [lia|]. cbn [skip_blank].
  eapply parsed_bind; [by apply next_ok|]. intros t s1 _ Hg. pose proof (g_pos _ _ _ _ Hg).
  destruct (is_unquoted_whitespace (twc_token t)) eqn:E; [|by apply parsed_ret].
  eapply parsed_weaken; [apply (IH ps (pred m)); [|lia]|].
  - apply (got_live _ _ _ _ Hg). by destruct (twc_token t) as [[]|].
  - intros t' s2 _ Hg2. eapply got_mono; [exact Hg2|lia].
Qed.

Lemma not_blank_ok ps m s : inv ps m s -> outcome (next_token_not_blank flavor base_origin) s (got ps m).
Proof.
  intros Hi. eapply fuelled_inv; [exact Hi|]. intros m' Hi' Hm.
  eapply parsed_weaken; [apply (skip_blank_ok _ ps m'); [done|lia]|]. intros t s1 _ Hg. by eapply got_mono.
Qed.

Lemma run_includer_ok ps m i name s :
  includer_ok i -> (Some name = Some [] -> empties = true) -> inv ps m s ->
  outcome (run_includer (i name)) s (fun v s' => inv ps m s' /\ answer (next_addr s') v).
Proof.
  intros Hi Hname Hinv. specialize (Hi name (next_addr s) ltac:(intros ->; by apply Hname)). unfold outcome, run_includer.
  destruct (i name (next_addr s)) as [[v|e] n]; [|done]. destruct Hi as [Hn Hv]. split; [done|].
  split; [by apply inv_addr|done].
Qed.

(** What an include reads. *)
Definition included (ps : list Path) (m : nat) (v : value) (s : ParseContext) : Prop :=
  inv ps m s /\ answer (next_addr s) v.

Lemma parse_include_file_ok ps m s :
  inv ps m s -> outcome (parse_include_file flavor base_origin include_file pointer_text) s (included ps m).
Proof.
  intros Hi. unfold parse_include_file. eapply parsed_bind; [by apply not_blank_ok|]. intros t s1 _ Hg.
  eapply parsed_bind; [eapply quoted_string_ok, Hg|]. intros [name|] ? _ (-> & He & Hempty);
    [|apply ptoken_text_ok; intros ?; apply parse_error_ok].
  assert (Hi1 : inv ps (pred m) s1) by (by apply (got_live _ _ _ _ Hg), He).
  eapply parsed_bind; [by apply (not_blank_ok ps (pred m))|]. intros t2 s2 _ Hg2.
  destruct t2 as [[[]|] cs]; cbn [twc_token]; try (apply ptoken_text_ok; intros ?; apply parse_error_ok).
  case_bool_decide; [|apply ptoken_text_ok; intros ?; apply parse_error_ok].
  eapply run_includer_ok; [done|done|]. eapply inv_mono; [by apply (got_live _ _ _ _ Hg2)|lia].
Qed.

Lemma included_object_ok ps m s :
  inv ps m s -> outcome (included_object flavor base_origin include include_file pointer_text) s (included ps m).
Proof.
  intros Hi. unfold included_object. eapply parsed_bind; [by apply not_blank_ok|]. intros t s1 _ Hg.
  assert (Hrest : outcome (let* name := quoted_string (twc_token t) in
      match name with
      | Some name => run_includer (include name)
      | None =>
          let* text := ptoken_to_string pointer_text (twc_token t) in
          parse_error base_origin ($"include keyword is not followed by a quoted string, but by: " ++ text)
      end) s1 (included ps m)).
  { eapply parsed_bind; [eapply quoted_string_ok, Hg|]. intros [name|] ? _ (-> & He & Hempty);
      [|apply ptoken_text_ok; intros ?; apply parse_error_ok].
    eapply run_includer_ok; [done|done|]. eapply inv_mono; [by apply (got_live _ _ _ _ Hg), He|lia]. }
  destruct t as [[[]|] cs]; try exact Hrest. cbn [twc_token]. case_bool_decide;
    [|apply ptoken_text_ok; intros ?; apply parse_error_ok].
  apply parse_include_file_ok. eapply inv_mono; [by apply (got_live _ _ _ _ Hg)|lia].
Qed.

Lemma relativized_answer prefix n v :
  answer n v -> vout (fun _ => False) (relativized prefix v) n (fun w n' => answer n' w).
Proof.
  intros Hv. destruct v as [| |a o m b| | | |]; try done. destruct m as [|e m].
  { apply (vout_ok _ _ _ _ (SimpleConfigObject a o [] b) n); done. }
  destruct (relativized_ok prefix _ n Hv) as (w & n' & E & Hn & Hw & _ & Hs).
  apply (vout_ok _ _ _ _ w n'); [done|done|]. simpl in Hs. destruct e. by destruct w as [| |? ? []| | | |].
Qed.

Lemma parse_include_ok ps m s values :
  inv ps m s -> fields_ok (next_addr s) values ->
  outcome (parse_include flavor base_origin include include_file pointer_text values) s
    (fun r s' => inv ps m s' /\ fields_ok (next_addr s') r).
Proof.
  intros Hi Hv. unfold parse_include. eapply parsed_bind; [by apply included_object_ok|].
  intros obj s1 Hn (Hi1 & Hobj). apply parsed_get.
  eapply parsed_bind with (R := included ps m).
  - destruct (path_stack s1) as [|p stack]; [by apply parsed_ret|].
    destruct (path_of_paths_spec p stack) as (prefix & Ep & _). rewrite Ep.
    eapply parsed_liftV with (E := fun _ => False); [by apply relativized_answer|done|].
    intros v n Hle Hans. split; [by apply inv_addr|done].
  - intros v s2 Hn2 (Hi2 & Hv2). assert (Hvals : fields_ok (next_addr s2) values) by (eapply fields_mono; [|exact Hv]; lia).
    destruct v as [| |a o fs b| | | |]; try done.
    eapply parsed_liftV with (E := fun _ => False); [apply include_fields_ok; [|done]|done|].
    + destruct fs; [done|]. by inversion Hv2.
    + intros r n Hle Hr. split; [by apply inv_addr|done].
Qed.

(** ** Values from tokens, given what [parse_value] does *)

Abbreviation good_piece s v := (piece empties (next_addr s) v).

Definition parses (pv : TokenWithComments -> P value) (d : nat) : Prop :=
  forall ps m t s, got ps m t s -> (m <= d)%nat ->
    outcome (pv t) s (fun v s' => inv ps (pred m) s' /\ good_piece s' v).

Lemma scalar_piece n o x : good_origin o -> (x = ConfigString [] -> empties = true) -> piece empties (S n) (Scalar n o x).
Proof.
  intros Ho Hx. split; [constructor; [lia|done]| |done]. split; [done|]. simpl. destruct x as [[]| | | | |]; naive_solver.
Qed.

Lemma cannot_join_error e : e = CannotJoin -> document_error (ValueError e).
Proof. by intros ->. Qed.

(** Objects that hold a value under a path. *)
Lemma nest_ok o ks : forall n v, good_origin o -> wf n v ->
  vout (fun _ => False) (nest o ks v) n (fun x n' => wf n' x).
Proof.
  induction ks as [|k ks IH]; intros n v Ho Hv; [by apply vout_ret|]. cbn [nest].
  destruct (make_object_ok n o [(k, v)] false Ho) as [E Hw]; [apply NoDup_singleton|by apply Forall_singleton|].
  eapply vout_bind; [apply (vout_ok _ _ _ (fun x n' => wf n' x) _ _ E); [lia|done]|].
  intros x n' _ Hx. by apply IH.
Qed.

Lemma under_path_ok n p v :
  named p -> wf n v ->
  vout (fun e => e = Undefined /\ empties = true) (create_value_under_path p v) n (fun x n' => wf n' x).
Proof.
  intros Hp Hv. unfold create_value_under_path. destruct (reverse (path_keys p)) as [|k ks] eqn:E.
  - split; [done|]. apply not_false_iff_true. intros He. specialize (Hp He).
    apply (f_equal reverse) in E. rewrite reverse_involutive in E.
    destruct p as [f|f r]; simpl in *; inversion_clear Hp; rewrite bool_decide_false in E; done.
  - destruct (set_comments_good [] (origin_of v)) as (o & Eo & Ho); [by eapply wf_origin|]. rewrite Eo.
    apply (vout_bind _ _ _ _ (fun o' _ => o' = o)); [by apply vout_ret|]. intros ? n' Hn ->.
    eapply vout_weaken; [apply nest_ok; [done|by eapply wf_mono]|done|done].
Qed.

Lemma full_path_ok p ps : exists q, full_current_path (p :: ps) = Ok (Some q).
Proof.
  unfold full_current_path. simpl. generalize p as f. clear p. induction ps as [|p ps IH]; intros f; simpl; [by eexists|].
  rewrite prepend_spec. destruct (of_elements (path_elements p ++ path_elements f)) as [q|] eqn:E; [apply IH|].
  apply (f_equal ptr_elements) in E. rewrite of_elements_spec in E. by destruct p.
Qed.

Lemma append_value_ok p ps m v s :
  inv (p :: ps) m s -> good_piece s v ->
  outcome (append_value v) s (fun x s' => inv (p :: ps) m s' /\ good_piece s' x).
Proof.
  intros Hi Hv. unfold append_value. apply parsed_get. rewrite (i_paths _ _ _ Hi).
  destruct (full_path_ok p ps) as [q ->]. pose proof (wf_origin _ _ (piece_wf _ _ _ Hv)) as Ho.
  eapply bind_liftV with (E := fun e => e = CannotJoin) (R := fun r n => exists x, r = Some x /\ piece empties n x).
  - set (n := next_addr s) in *.
    eapply vout_bind; [by apply (vout_new _ _ _ (fun r k => r = ConfigReference n (origin_of v) (mkSubst q true) 0 /\ k = S n))|].
    intros ? ? _ [-> ->]. unfold simple_list, make_list. rewrite eqb_refl_neg.
    eapply vout_bind; [by apply (vout_new _ _ _ (fun r k => r = SimpleConfigList (S n) (origin_of v) [v] /\ k = S (S n)))|].
    intros ? ? _ [-> ->]. apply concatenate_ok; [|done]. repeat (apply Forall_cons; split); [..|done].
    + split; [constructor; [lia|done]|done|done].
    + split; [|done|done]. constructor; [lia|done|]. apply Forall_singleton. eapply wf_mono; [|apply Hv]. lia.
  - apply cannot_join_error.
  - intros r n Hn (x & -> & Hx). apply parsed_ret. split; [by apply inv_addr|done].
Qed.

Lemma add_field_ok ps m p v values s :
  inv ps m s -> keyed p -> good_piece s v -> fields_ok (next_addr s) values ->
  outcome (add_field flavor base_origin p v values) s (fun r s' => inv ps m s' /\ fields_ok (next_addr s') r).
Proof.
  intros Hi Hk Hv Hf. pose proof (piece_wf _ _ _ Hv) as Hw. unfold add_field, keyed in *.
  assert (Hfind : forall x, map_find (first p) values = Some x -> wf (next_addr s) x).
  { intros x. apply map_find_wf, Hf. }
  destruct (remainder p) as [rest|] eqn:Er.
  - destruct (is_json flavor) eqn:Ej; [done|].
    eapply bind_liftV with (E := fun e => e = Undefined /\ empties = true); [apply (under_path_ok (next_addr s) rest v); [|done]| |].
    { intros He. specialize (Hk He). rewrite elements_first, Er in Hk. by inversion_clear Hk. }
    { by intros e [-> He]. }
    intros obj n Hn Hobj. destruct (map_find (first p) values) as [x|] eqn:Ex.
    + specialize (Hfind x eq_refl).
      eapply bind_liftV with (E := fun _ => False); [apply fallback_vout; [exact Hobj|by eapply wf_mono]|done|].
      simpl. intros w n2 Hn2 Hw2. apply parsed_ret. split; [do 2 (apply inv_addr; [|done]); done|].
      apply fields_put; [done|]. eapply fields_mono; [|exact Hf]. simpl in *. lia.
    + apply parsed_bind with (R := fun x s' => x = obj /\ s' = with_addr n s); [by apply parsed_ret|].
      intros ? ? _ [-> ->]. apply parsed_ret. split; [by apply inv_addr|].
      apply fields_put; [done|]. by eapply fields_mono.
  - destruct (map_find (first p) values) as [x|] eqn:Ex.
    + destruct (is_json flavor); [apply parse_error_ok|]. specialize (Hfind x eq_refl).
      eapply bind_liftV with (E := fun _ => False); [by apply fallback_vout|done|]. intros w n Hn Hw2.
      apply parsed_ret. split; [by apply inv_addr|]. apply fields_put; [done|]. by eapply fields_mono.
    + apply parsed_ret. split; [done|]. by apply fields_put.
Qed.

Section Recursion.
Variable pv : TokenWithComments -> P value.
Variable d : nat.
Hypothesis pv_ok : parses pv d.

Definition pieced (ps : list Path) (m : nat) (t : TokenWithComments) (v : option value) (s : ParseContext) : Prop :=
  match v with
  | None => got ps m t s
  | Some v => inv ps (pred m) s /\ good_piece s v
  end.

Lemma piece_of_ok ps m t s : got ps m t s -> (m <= d)%nat -> outcome (piece_of base_origin pv t) s (pieced ps m t).
Proof.
  intros Hg Hm. unfold piece_of.
  assert (Hnone : outcome (se_ret None) s (pieced ps m t)) by (by apply parsed_ret).
  assert (Hrec : outcome (let* v := pv t in se_ret (Some v)) s (pieced ps m t)).
  { eapply parsed_bind; [by apply (pv_ok ps m)|]. intros v s1 _ Hv. by apply parsed_ret. }
  destruct t as [[x|v] cs]; [destruct x|]; try exact Hnone; try exact Hrec; clear Hnone Hrec; cbn [twc_token].
  - eapply parsed_bind; [apply origin_at_ok|]. intros o ? _ [Ho ->]. apply bind_new, parsed_ret.
    split; [apply inv_addr; [by apply (got_live _ _ _ _ Hg)|lia]|]. apply scalar_piece; [done|].
    intros [= ->]. apply Hg.
  - eapply parsed_bind; [apply origin_at_ok|]. intros o ? _ [Ho ->]. unfold token_to_substitution_expression.
    eapply parsed_bind with (R := fun _ s' => s' = s).
    { eapply parsed_bind; [apply origin_at_ok|]. intros o2 ? _ [_ ->].
      eapply parsed_bind; [apply parse_expression_ok|]. intros p ? _ [-> _]. by apply parsed_ret. }
    intros e ? _ ->. apply bind_new, parsed_ret. split; [apply inv_addr; [by apply (got_live _ _ _ _ Hg)|lia]|].
    split; [constructor; [simpl; lia|done]|done|done].
  - apply parsed_ret. split; [by apply (got_live _ _ _ _ Hg)|apply Hg].
Qed.

Lemma collect_values_ok fuel : forall ps m t values s,
  got ps m t s -> (m <= fuel)%nat -> (m <= d)%nat -> Forall (piece empties (next_addr s)) values ->
  outcome (collect_values flavor base_origin pv fuel t values) s (fun r s' =>
    Forall (piece empties (next_addr s')) r.1
    /\ exists m', got ps m' r.2 s' /\ (r.1 = values /\ m' = m \/ m' < m)%nat).
Proof.
  induction fuel as [|fuel IH]; intros ps m t values s Hg Hf Hm Hv; pose proof (g_pos _ _ _ _ Hg); [lia|]. cbn [collect_values].
  eapply parsed_bind; [by apply (piece_of_ok ps m)|]. intros [v|] s1 Hn Hp; simpl in Hp.
  - destruct Hp as [Hi Hp]. eapply parsed_bind; [by apply (next_token_ok ps (pred m))|]. intros t' s2 Hn2 Hg2.
    eapply parsed_weaken; [apply (IH ps (pred m)); [done|lia|lia|]|].
    { apply Forall_app. split; [|apply Forall_singleton]; [eapply pieces_mono; [|exact Hv]; lia|by eapply piece_mono]. }
    intros r s3 _ (Hr & m' & Hg3 & Hm3). split; [done|]. exists m'. split; [done|]. right. lia.
  - apply parsed_ret. split; [by eapply pieces_mono|]. exists m. split; [done|]. by left.
Qed.

Lemma consolidate_ok ps m s :
  inv ps m s -> (m <= d)%nat -> outcome (consolidate_value_tokens flavor base_origin pv) s (fun _ s' => inv ps m s').
Proof.
  intros Hi Hm. unfold consolidate_value_tokens. destruct (is_json flavor); [by apply parsed_ret|].
  eapply parsed_bind; [by apply next_ok|]. intros t s1 _ Hg. destruct (got_tight _ _ _ _ Hg) as [Hgt Hle].
  eapply parsed_bind; [unfold Parser.fuelled; apply (collect_values_ok _ ps (S (remaining s1))); [done|done|lia|done]|].
  intros [values t'] s2 _ (Hv & m' & Hg2 & Hm'). simpl in *.
  assert (Hm2 : (m' <= m)%nat) by (destruct Hm' as [[_ ->]|?]; lia).
  eapply put_back_ok; [exact Hg2|]. intros s3 Hn3 Hi3. destruct values as [|v values].
  { apply parsed_ret. by eapply inv_mono. }
  destruct Hm' as [[? _]|Hm']; [done|].
  eapply bind_liftV; [apply concatenate_ok; [|done]; eapply pieces_mono; [|exact Hv]; lia|apply cannot_join_error|].
  intros r n Hn (x & -> & Hx). red. simpl. split; [done|].
  apply (put_back_inv ps m (mkTWC (PVal x) (comments t)) (with_addr n s3)). split; [lia|done|]. simpl.
  eapply inv_mono; [by apply inv_addr|]. lia.
Qed.

(** ** Fields, objects and arrays *)

Lemma value_token_ok ps m after_key path s :
  got ps m after_key s -> (m <= d)%nat ->
  outcome (field_value_token flavor base_origin pointer_text pv path after_key) s (got ps m).
Proof.
  unfold field_value_token.
  intros Hg Hm. destruct (_ && _) eqn:Ec; [by apply parsed_ret|].
  destruct (is_key_value_separator_token _ _) eqn:Ek; simpl; [|apply ptoken_text_ok; intros ?; apply quote_error_ok].
  assert (Hi : inv ps (pred m) s) by (apply (got_live _ _ _ _ Hg); by destruct (twc_token after_key) as [[]|]).
  eapply parsed_bind with (R := fun _ s' => inv ps (pred m) s').
  { destruct (is_equals _); [|by apply parsed_ret]. split; [done|]. by destruct Hi. }
  intros _ s1 _ Hi1. eapply parsed_bind; [apply (consolidate_ok ps (pred m)); [done|lia]|]. intros [] s2 _ Hi2.
  eapply parsed_weaken; [by apply next_ok|]. intros t s3 _ Hg3. eapply got_mono; [exact Hg3|lia].
Qed.

Lemma push_path_inv ps m t s p : got ps m t s -> got (p :: ps) m t (with_paths (p :: path_stack s) s).
Proof.
  intros [Hp Ht Hr]. split; [done..|]. destruct (ends _); [destruct Hr as [? <-]; done|].
  destruct Hr as [? ? ? ? <-]. by split.
Qed.

Lemma pop_path_ok p ps m s : inv (p :: ps) m s -> outcome pop_path s (fun q s' => inv ps m s' /\ next_addr s' = next_addr s).
Proof.
  intros Hi. unfold pop_path. apply parsed_get. rewrite (i_paths _ _ _ Hi). apply parsed_put; [done|].
  apply parsed_ret. split; [|done]. by destruct Hi.
Qed.

Lemma prepend_got ps m t s cs : got ps m t s -> got ps m (prepend_comments cs t) s.
Proof. intros []. unfold prepend_comments. by destruct (comments t). Qed.

Lemma parse_field_ok ps m t values s :
  got ps m t s -> (m <= S d)%nat -> fields_ok (next_addr s) values ->
  outcome (parse_field flavor base_origin pointer_text pv t values) s (fun r s' =>
    inv ps (pred m) s' /\ fields_ok (next_addr s') r.1.1).
Proof.
  intros Hg Hm Hf. unfold parse_field. eapply parsed_bind; [by apply parse_key_ok|]. intros path s1 Hn1 [Hk Hi1].
  eapply parsed_bind; [by apply next_ok|]. intros after_key s2 Hn2 Hg2. apply parsed_modify; [done|].
  eapply parsed_bind; [apply value_token_ok; [by apply push_path_inv|lia]|]. intros vt s3 Hn3 Hg3. simpl in Hn3.
  eapply parsed_bind; [apply (pv_ok (path :: ps) (pred m)); [by apply prepend_got|lia]|]. intros v s4 Hn4 [Hi4 Hv4].
  eapply parsed_bind with (R := fun x s' => inv (path :: ps) (pred m) s' /\ good_piece s' x).
  { destruct (is_plus_equals _); [apply append_value_ok|apply parsed_ret; split]; try done; eapply inv_mono; try done; lia. }
  intros x s5 Hn5 [Hi5 Hx]. eapply parsed_bind; [by eapply pop_path_ok|]. intros last s6 _ [Hi6 En6].
  eapply parsed_bind with (R := fun _ s' => inv ps (pred m) s' /\ next_addr s' = next_addr s6).
  { destruct (is_equals _); [|by apply parsed_ret]. split; [done|]. split; [|done]. by destruct Hi6. }
  intros _ s7 _ [Hi7 En7]. eapply parsed_bind; [apply (add_field_ok ps (pred m)); try done|].
  - eapply piece_mono; [|exact Hx]. lia.
  - eapply fields_mono; [|exact Hf]. lia.
  - intros r s8 _ [Hi8 Hf8]. by apply parsed_ret.
Qed.

Lemma close_object_ok ps m curly p eq s :
  inv ps m s -> outcome (close_object flavor base_origin pointer_text curly p eq) s (fun _ s' => inv ps m s').
Proof.
  intros Hi. unfold close_object. eapply parsed_bind; [by apply next_ok|]. intros t s1 _ Hg.
  assert (Herr : forall msg, outcome (let* text := ptoken_to_string pointer_text (twc_token t) in
    quote_error_for (A := unit) base_origin p eq text (msg ++ text)) s1 (fun _ s' => inv ps m s')).
  { intros msg. apply ptoken_text_ok. intros ?. apply quote_error_for_ok. }
  destruct t as [[x|v] cs]; [destruct x|]; cbn [twc_token] in *;
    try (destruct curly; [by apply Herr|by apply Herr]).
  - destruct curly; [by apply Herr|]. red. simpl. split; [done|]. by eapply put_back_inv.
  - destruct curly; [|apply ptoken_text_ok; intros ?; apply quote_error_for_ok].
    apply parsed_ret. eapply inv_mono; [by apply (got_live _ _ _ _ Hg)|lia].
Qed.

(** What the rest of the loop does after a separator. *)
Definition continues (ps : list Path) (m : nat) (continue : vmap -> option Path -> bool -> P vmap) : Prop :=
  forall m' values p eq s, (m' < m)%nat -> inv ps m' s -> fields_ok (next_addr s) values ->
    outcome (continue values p eq) s (fun r s' => inv ps m' s' /\ fields_ok (next_addr s') r).

Lemma after_field_ok ps m k curly values p eq s :
  continues ps m k -> inv ps (pred m) s -> fields_ok (next_addr s) values ->
  outcome (after_field flavor base_origin pointer_text k curly values p eq) s
    (fun r s' => inv ps m s' /\ fields_ok (next_addr s') r).
Proof.
  intros Hk Hi Hv. unfold after_field. eapply parsed_bind; [by apply check_separator_ok|].
  intros [] s1 Hn1 Hs; simpl in Hs.
  - destruct Hs as [Hpos Hs]. eapply parsed_weaken; [apply (Hk (pred (pred m))); [lia|done|by eapply fields_mono]|].
    intros r s2 _ [Hi2 Hv2]. split; [|done]. eapply inv_mono; [exact Hi2|lia].
  - eapply parsed_bind; [by apply close_object_ok|]. intros [] s2 Hn2 Hi2. apply parsed_ret.
    split; [eapply inv_mono; [exact Hi2|lia]|]. eapply fields_mono; [|exact Hv]. lia.
Qed.

Lemma field_or_include_ok ps m k curly t values p eq s :
  continues ps m k -> got ps m t s -> (m <= S d)%nat -> fields_ok (next_addr s) values ->
  outcome (field_or_include flavor base_origin include include_file pointer_text pv k curly t values p eq) s
    (fun r s' => inv ps m s' /\ fields_ok (next_addr s') r).
Proof.
  intros Hk Hg Hm Hv. unfold field_or_include. destruct (negb (is_json flavor) && _) eqn:Einc.
  - apply andb_true_iff in Einc as [_ Einc]. eapply parsed_bind; [apply (parse_include_ok ps (pred m)); [|done]|].
    + apply (got_live _ _ _ _ Hg). by destruct (twc_token t) as [[]|].
    + intros r s2 _ [Hi2 Hv2]. by apply after_field_ok.
  - eapply parsed_bind; [by apply (parse_field_ok ps m)|]. intros [[r path] eq'] s2 _ [Hi2 Hv2]. by apply after_field_ok.
Qed.

Lemma object_loop_ok fuel : forall ps m curly values comma p eq s,
  inv ps m s -> (m < fuel)%nat -> (m <= S d)%nat -> fields_ok (next_addr s) values ->
  outcome (object_loop flavor base_origin include include_file pointer_text pv fuel curly values comma p eq) s
    (fun r s' => inv ps m s' /\ fields_ok (next_addr s') r).
Proof.
  induction fuel as [|fuel IH]; intros ps m curly values comma p eq s Hi Hf Hm Hv; [lia|]. cbn [object_loop].
  eapply parsed_bind; [by apply next_ok|]. intros t s1 Hn1 Hg.
  assert (Hv1 : fields_ok (next_addr s1) values) by (by eapply fields_mono).
  pose proof (field_or_include_ok ps m
    (fun values => object_loop flavor base_origin include include_file pointer_text pv fuel curly values true)
    curly t values p eq s1) as Hfield.
  specialize (Hfield ltac:(intros m' ? ? ? ? ? ? ?; apply IH; [done|lia|lia|done]) Hg Hm Hv1).
  destruct t as [[x|v] cs]; [destruct x|]; cbn [twc_token] in *; try exact Hfield.
  - destruct curly; [exact Hfield|]. eapply put_back_ok; [exact Hg|]. intros s2 Hn2 Hi2. apply parsed_ret.
    split; [done|]. by eapply fields_mono.
  - destruct (is_json flavor && comma); [apply quote_error_ok|]. destruct curly; [|apply quote_error_ok]. apply parsed_ret.
    split; [|done]. eapply inv_mono; [by apply (got_live _ _ _ _ Hg)|lia].
Qed.

Lemma parse_object_ok ps m curly s :
  inv ps m s -> (m <= S d)%nat ->
  outcome (parse_object flavor base_origin include include_file pointer_text pv curly) s
    (fun v s' => inv ps m s' /\ good_piece s' v /\ is_object v = true).
Proof.
  intros Hi Hm. unfold parse_object. eapply parsed_bind; [apply parsed_get, origin_at_ok|]. intros o ? _ [Ho ->].
  eapply parsed_bind with (R := fun r s' => inv ps m s' /\ fields_ok (next_addr s') r).
  { eapply fuelled_inv; [exact Hi|]. intros m' Hi' Hle.
    eapply parsed_weaken; [apply (object_loop_ok _ ps m'); [done|lia|lia|by split; [apply NoDup_nil_2|]]|].
    intros r s1 _ [? ?]. split; [by eapply inv_mono|done]. }
  intros r s1 _ [Hi1 [Hnd Hw]]. destruct (make_object_ok (next_addr s1) o r false Ho Hnd Hw) as [E Hv].
  eapply parsed_liftV with (E := fun _ => False);
    [apply (vout_ok _ _ _ (fun x k => x = SimpleConfigObject (next_addr s1) o r false /\ k = S (next_addr s1)) _ _ E); [lia|done]|done|].
  intros ? ? Hn [-> ->]. split; [by apply inv_addr|]. by repeat split.
Qed.

Lemma starts_value_live t : starts_value t = true -> ends t = false.
Proof. by destruct t as [[]|]. Qed.

Lemma array_loop_ok fuel : forall ps m values s,
  inv ps m s -> (m < fuel)%nat -> (m <= S d)%nat -> Forall (wf (next_addr s)) values ->
  outcome (array_loop flavor base_origin pointer_text pv fuel values) s
    (fun r s' => inv ps m s' /\ Forall (wf (next_addr s')) r).
Proof.
  induction fuel as [|fuel IH]; intros ps m values s Hi Hf Hm Hv; [lia|]. cbn [array_loop].
  eapply parsed_bind; [by apply check_separator_ok|]. intros [] s1 Hn1 Hs; simpl in Hs; cbn [negb].
  - destruct Hs as [Hpos Hs]. eapply parsed_bind; [apply (consolidate_ok ps (pred m)); [done|lia]|]. intros [] s2 Hn2 Hi2.
    eapply parsed_bind; [by apply next_ok|]. intros t s3 Hn3 Hg3. pose proof (g_pos _ _ _ _ Hg3) as Hpos3.
    destruct (starts_value (twc_token t)) eqn:Est.
    + eapply parsed_bind; [apply (pv_ok ps (pred m)); [done|lia]|]. intros v s4 Hn4 [Hi4 [Hv4 _ _]].
      eapply parsed_weaken; [apply (IH ps (pred (pred m))); [done|lia|lia|]|].
      { apply Forall_app. split; [eapply wf_all_mono; [|exact Hv]; lia|by apply Forall_singleton]. }
      intros r s5 _ [Hi5 Hr]. split; [|done]. eapply inv_mono; [exact Hi5|lia].
    + assert (Herr : forall msg, outcome (let* text := ptoken_to_string pointer_text (twc_token t) in
        key_error (A := list value) base_origin (msg text)) s3 (fun r s' => inv ps m s' /\ Forall (wf (next_addr s')) r)).
      { intros msg. apply ptoken_text_ok. intros ?. apply key_error_ok. }
      destruct t as [[x|v] cs]; [destruct x|]; cbn [twc_token] in *; try apply Herr.
      destruct (is_json flavor); [apply Herr|]. eapply put_back_ok; [exact Hg3|]. intros s4 Hn4 Hi4.
      eapply parsed_weaken; [apply (IH ps (pred m)); [done|lia|lia|eapply wf_all_mono; [|exact Hv]; lia]|].
      intros r s5 _ [Hi5 Hr]. split; [|done]. eapply inv_mono; [exact Hi5|lia].
  - eapply parsed_bind; [by apply next_ok|]. intros t s2 Hn2 Hg2.
    destruct t as [[x|v] cs]; [destruct x|]; cbn [twc_token]; try (apply ptoken_text_ok; intros ?; apply key_error_ok).
    apply parsed_ret. split; [eapply inv_mono; [by apply (got_live _ _ _ _ Hg2)|lia]|].
    eapply wf_all_mono; [|exact Hv]; lia.
Qed.

Lemma simple_list_ok ps m o l s :
  inv ps m s -> good_origin o -> Forall (wf (next_addr s)) l ->
  outcome (liftV (simple_list o l)) s (fun v s' => inv ps m s' /\ good_piece s' v).
Proof.
  intros Hi Ho Hl. unfold simple_list, make_list. rewrite eqb_refl_neg.
  eapply parsed_liftV with (E := fun _ => False) (R := fun v n => v = SimpleConfigList (next_addr s) o l /\ n = S (next_addr s));
    [by apply vout_new|done|]. intros ? ? Hn [-> ->]. split; [by apply inv_addr|]. split; [|done|done].
  constructor; [simpl; lia|done|]. eapply wf_all_mono; [|exact Hl]. simpl. lia.
Qed.

Lemma parse_array_ok ps m s :
  inv ps m s -> (m <= d)%nat ->
  outcome (parse_array flavor base_origin pointer_text pv) s (fun v s' => inv ps m s' /\ good_piece s' v).
Proof.
  intros Hi Hm. unfold parse_array. eapply parsed_bind; [apply parsed_get, origin_at_ok|]. intros o ? _ [Ho ->].
  eapply parsed_bind; [by apply (consolidate_ok ps m)|]. intros [] s1 _ Hi1.
  eapply parsed_bind; [by apply next_ok|]. intros t s2 _ Hg.
  assert (Hrest : outcome (if starts_value (twc_token t) then
        let* v := pv t in
        let* values := Parser.fuelled (fun fuel => array_loop flavor base_origin pointer_text pv fuel [v]) in
        liftV (simple_list o values)
      else
        let* text := ptoken_to_string pointer_text (twc_token t) in
        key_error base_origin ($"_list should have ] or a first element after the open [, instead had token: " ++ text
                   ++ $" (if you want " ++ text ++ $" to be part of a string value, then double-quote it)")) s2
      (fun v s' => inv ps m s' /\ good_piece s' v)).
  { destruct (starts_value _) eqn:Est; [|apply ptoken_text_ok; intros ?; apply key_error_ok].
    eapply parsed_bind; [by apply (pv_ok ps m)|]. intros v s3 _ [Hi3 [Hv _ _]].
    eapply parsed_bind with (R := fun r s' => inv ps m s' /\ Forall (wf (next_addr s')) r).
    - eapply fuelled_inv; [exact Hi3|]. intros m' Hi' Hle.
      eapply parsed_weaken; [apply (array_loop_ok _ ps m'); [done|lia|lia|by apply Forall_singleton]|].
      intros r s4 _ [? ?]. split; [eapply inv_mono; [done|lia]|done].
    - intros r s4 _ [Hi4 Hr]. by apply simple_list_ok. }
  destruct t as [[x|v] cs]; [destruct x|]; try exact Hrest. apply simple_list_ok; [|done|done].
  eapply inv_mono; [by apply (got_live _ _ _ _ Hg)|lia].
Qed.
End Recursion.

(** ** Values and documents *)

Lemma new_copy_piece n v o :
  piece empties n v -> good_origin o -> vout (fun _ => False) (new_copy v o) n (fun x n' => piece empties n' x).
Proof.
  intros [Hw Hp Hin] Ho.
  assert (Hnew : forall f, wf (S n) (f n) -> plain_piece empties (f n) -> Forall (plain_piece empties) (inner_pieces (f n)) ->
    vout (fun _ => False) (new f) n (fun x n' => piece empties n' x)).
  { intros f ? ? ?. apply vout_new. by split. }
  destruct Hw as [a p s Ha Hgo|a p l Ha Hgo Hl|a p m b Ha Hgo Hnd Hm|a p l Ha Hgo Hlen Hc Hu Hl|a p e k Ha Hgo| |];
    cbn [new_copy]; try (by destruct Hp).
  - apply Hnew; [constructor; [lia|done]|done|done].
  - unfold simple_list, make_list. rewrite eqb_refl_neg. apply Hnew; [|done|done].
    constructor; [lia|done|]. eapply wf_all_mono; [|exact Hl]; lia.
  - unfold make_object. cbn [is_resolved]. change (forallb _ m) with (from_map m). rewrite eqb_refl_neg. apply Hnew; [|done|done].
    constructor; [lia|done|done|]. eapply entries_mono; [|exact Hm]; lia.
  - unfold make_concatenation. rewrite bool_decide_false, Hc, Hu by lia. apply Hnew; [|done|done].
    constructor; [lia|done..|]. eapply wf_all_mono; [|exact Hl]; lia.
  - apply Hnew; [constructor; [lia|done]|done|done].
Qed.

Lemma with_comments_ok ps m t v s :
  inv ps m s -> good_piece s v ->
  outcome (let* o := twc_set_comments t (origin_of v) in liftV (with_origin v o)) s
    (fun x s' => inv ps m s' /\ good_piece s' x).
Proof.
  intros Hi Hv. eapply parsed_bind with (R := fun o s' => s' = s /\ good_origin o).
  - pose proof (wf_origin _ _ (piece_wf _ _ _ Hv)) as Ho. unfold twc_set_comments.
    destruct (comments t) as [|c cs]; [by apply parsed_ret|].
    destruct (set_comments_good (c :: cs) (origin_of v) Ho) as (o & E & Ho'). rewrite E.
    eapply parsed_weaken; [by apply parsed_origin|]. by intros ? ? _ [-> ->].
  - intros o ? _ [-> Ho]. unfold with_origin. eapply parsed_liftV with (E := fun _ => False) (R := fun x n => piece empties n x).
    + case_bool_decide; [by apply vout_ret|]. by apply new_copy_piece.
    + done.
    + intros x n Hn Hx. split; [by apply inv_addr|done].
Qed.

Lemma parse_value_ok fuel : parses (parse_value flavor base_origin include include_file pointer_text fuel) fuel.
Proof.
  induction fuel as [|fuel IH]; intros ps m t s Hg Hm; pose proof (g_pos _ _ _ _ Hg); [lia|]. cbn [parse_value].
  eapply parsed_bind with (R := fun v s' => inv ps (pred m) s' /\ good_piece s' v);
    [|intros v s1 _ [Hi Hv]; by apply with_comments_ok].
  pose proof (got_live _ _ _ _ Hg) as Hlive.
  destruct (twc_token t) as [x|v] eqn:Et; [destruct x|]; try (apply ptoken_text_ok; intros ?; apply quote_error_ok).
  - eapply parsed_weaken; [apply (parse_object_ok _ fuel IH ps (pred m)); [by apply Hlive|lia]|]. intros v s1 _ (? & ? & _). done.
  - apply (parse_array_ok _ fuel IH ps (pred m)); [by apply Hlive|lia].
  - apply parsed_ret. split; [by apply Hlive|]. pose proof (g_token _ _ _ _ Hg) as Hv. by rewrite Et in Hv.
Qed.

Lemma initial_inv ts n :
  Forall (fun t => t <> T_END) ts -> Forall calm ts ->
  inv [] (S (length ts)) (initial_context (ts ++ [T_END]) n).
Proof.
  intros Hne Hc. split; [|unfold remaining; simpl; rewrite length_app; simpl; lia|done| |done].
  - exists (length ts). unfold flags. simpl. induction Hne as [|t ts Ht _ IH]; [done|].
    simpl. inversion_clear Hc. rewrite IH by done. by destruct t.
  - simpl. apply Forall_app. split; [done|]. by repeat constructor.
Qed.

(** The root value, from its first token. *)
Lemma parse_root_ok m fuel t s :
  got [] m t s -> (m <= fuel)%nat ->
  outcome (match twc_token t with
           | PTok T_OPEN_CURLY | PTok T_OPEN_SQUARE =>
               parse_value flavor base_origin include include_file pointer_text fuel t
           | p =>
               if is_json flavor then
                 match p with
                 | PTok T_END => parse_error base_origin $"_empty document"
                 | _ => let* text := ptoken_to_string pointer_text p in
                        parse_error base_origin ($"_document must have an object or array at root, unexpected token: " ++ text)
                 end
               else
                 Parser.put_back t ;;*
                 parse_object flavor base_origin include include_file pointer_text
                   (parse_value flavor base_origin include include_file pointer_text fuel) false
           end) s (fun v s' => inv [] m s' /\ good_piece s' v).
Proof.
  intros Hg Hm. pose proof (parse_value_ok fuel) as Hpv.
  assert (Hval : outcome (parse_value flavor base_origin include include_file pointer_text fuel t) s
    (fun v s' => inv [] m s' /\ good_piece s' v)).
  { eapply parsed_weaken; [by apply (Hpv [] m)|]. intros v s1 _ [Hi Hv]. split; [|done]. eapply inv_mono; [exact Hi|lia]. }
  assert (Hobj : outcome (Parser.put_back t ;;*
      parse_object flavor base_origin include include_file pointer_text
        (parse_value flavor base_origin include include_file pointer_text fuel) false) s
    (fun v s' => inv [] m s' /\ good_piece s' v)).
  { eapply put_back_ok; [exact Hg|]. intros s1 _ Hi1.
    eapply parsed_weaken; [apply (parse_object_ok _ fuel Hpv [] m); [done|lia]|]. by intros v s2 _ (? & ? & _). }
  destruct t as [[x|v] cs]; [destruct x|]; cbn [twc_token]; try exact Hval;
    (destruct (is_json flavor); [|exact Hobj]); try apply parse_error_ok; apply ptoken_text_ok; intros ?; apply parse_error_ok.
Qed.

Lemma parse_ok ts n :
  Forall (fun t => t <> T_END) ts -> Forall calm ts ->
  outcome (parse flavor base_origin include include_file pointer_text) (initial_context (T_START :: ts ++ [T_END]) n)
    (fun v s' => wf (next_addr s') v).
Proof.
  intros Hne Hc. unfold parse. apply parsed_get. set (s0 := initial_context _ _).
  eapply parsed_bind with (R := fun t s' => t = mkTWC (PTok T_START) [] /\ s' = initial_context (ts ++ [T_END]) n).
  { by split. }
  intros t s1 _ [-> ->]. cbn [twc_token].
  eapply parsed_bind; [apply next_ok; by apply initial_inv|]. intros t s2 _ Hg.
  eapply parsed_bind; [apply parse_root_ok; [exact Hg|]|].
  { unfold value_fuel, remaining, s0. simpl. rewrite length_app. simpl. lia. }
  intros v s3 _ [Hi3 Hv]. eapply parsed_bind; [by apply next_ok|]. intros t4 s4 Hn4 Hg4.
  destruct t4 as [[x|w] cs]; [destruct x|]; cbn [twc_token]; try (apply ptoken_text_ok; intros ?; apply parse_error_ok).
  apply parsed_ret. eapply wf_mono; [exact Hn4|]. apply Hv.
Qed.
End Total.

(** ** Texts *)

Section Texts.
Context `{DoubleLib}.

(** A document is an object or a list. *)
Definition is_container (v : value) : bool := is_simple_object v || is_list v.

Definition yields {A} (m : P A) (Q : A -> Prop) : Prop := forall s a s', m s = (Ok a, s') -> Q a.

Lemma yields_bind {A B} (m : P A) (k : A -> P B) R Q :
  yields m R -> (forall a, R a -> yields (k a) Q) -> yields (se_bind m k) Q.
Proof.
  intros Hm Hk s b s'. unfold se_bind. destruct (m s) as [[a|e] s1] eqn:E; [|done]. apply Hk. by eapply Hm.
Qed.

Lemma yields_any {A} (m : P A) : yields m (fun _ => True).
Proof. done. Qed.

Lemma yields_parse_error {A} o msg (Q : A -> Prop) : yields (parse_error o msg) Q.
Proof.
  intros s a s'. unfold parse_error, line_origin, origin_at, se_bind, se_get, liftV, lift_origin.
  by destruct (set_line_number _ _).
Qed.

Lemma yields_next {A B} (m : P A) (k : A -> P B) Q : (forall a, yields (k a) Q) -> yields (se_bind m k) Q.
Proof. intros Hk. eapply yields_bind; [apply yields_any|]. intros a _. apply Hk. Qed.

Lemma simple_object_container o m : yields (liftV (simple_object o m)) (fun v => is_container v = true).
Proof. intros s v s'. unfold liftV, simple_object, make_object. rewrite eqb_refl_neg. by intros [= <- <-]. Qed.

Lemma simple_list_container o l : yields (liftV (simple_list o l)) (fun v => is_container v = true).
Proof. intros s v s'. unfold liftV, simple_list, make_list. rewrite eqb_refl_neg. by intros [= <- <-]. Qed.

Lemma copy_container v o : is_container v = true -> yields (liftV (with_origin v o)) (fun w => is_container w = true).
Proof.
  intros Hv. unfold with_origin. case_bool_decide; [by intros s w s' [= <- _]|]. unfold new_copy.
  destruct v as [|a o' l|a o' m b| | | |]; try done; [apply simple_list_container|].
  intros s w s'. unfold liftV, make_object. cbn [is_resolved]. change (forallb _ m) with (from_map m).
  rewrite eqb_refl_neg. by intros [= <- <-].
Qed.

Section Containers.
Variable flavor : ConfigSyntax.
Variable base_origin : SimpleConfigOrigin.
Variables include include_file : str -> SE nat parse_exn value.
Variable pointer_text : value -> str.

Lemma parse_object_container pv curly :
  yields (parse_object flavor base_origin include include_file pointer_text pv curly) (fun v => is_container v = true).
Proof. unfold parse_object. apply yields_next. intros o. apply yields_next. intros m. apply simple_object_container. Qed.

Lemma parse_array_container pv :
  yields (parse_array flavor base_origin pointer_text pv) (fun v => is_container v = true).
Proof.
  unfold parse_array. apply yields_next. intros o. apply yields_next. intros _. apply yields_next. intros t.
  assert (Hfirst : yields (let* v := pv t in
      let* values := Parser.fuelled (fun fuel => array_loop flavor base_origin pointer_text pv fuel [v]) in
      liftV (simple_list o values)) (fun v => is_container v = true)).
  { apply yields_next. intros v. apply yields_next. intros l. apply simple_list_container. }
  destruct (twc_token t) as [[]|]; try apply simple_list_container; cbn [starts_value]; try exact Hfirst;
    apply yields_next; intros ?; apply yields_next; intros ?; apply yields_parse_error.
Qed.

Lemma parse_container :
  yields (parse flavor base_origin include include_file pointer_text) (fun v => is_container v = true).
Proof.
  unfold parse. apply yields_next. intros s. apply yields_next. intros t.
  destruct (twc_token t) as [[]|]; try (apply yields_next; intros ?; done). apply yields_next. clear t. intros t.
  eapply (yields_bind _ _ (fun v => is_container v = true)).
  - assert (Hval : forall p, p = PTok T_OPEN_CURLY \/ p = PTok T_OPEN_SQUARE -> twc_token t = p ->
      yields (parse_value flavor base_origin include include_file pointer_text (value_fuel s) t) (fun v => is_container v = true)).
    { intros p Hp Ht. unfold value_fuel. cbn [parse_value]. rewrite Ht.
      eapply (yields_bind _ _ (fun v => is_container v = true)).
      - destruct Hp as [-> | ->]; [apply parse_object_container|apply parse_array_container].
      - intros v Hv. apply yields_next. intros o. by apply copy_container. }
    destruct (twc_token t) as [[]|]; try (by eapply Hval; [|done]; auto);
      (destruct (is_json flavor); [|apply yields_next; intros []; apply parse_object_container]);
      try (apply yields_next; intros ?; apply yields_parse_error); apply yields_parse_error.
  - intros v Hv. apply yields_next. intros t'. destruct (twc_token t') as [[]|]; try (apply yields_next; intros ?; apply yields_parse_error).
    by intros ? ? ? [= <- _].
Qed.
End Containers.

(** A token for an empty string. *)
Definition blank_token (t : token) : bool :=
  match t with ValueToken (ConfigString []) _ | UnquotedTextToken [] _ => true | _ => false end.

Definition has_empty_string (text : str) (json : bool) : bool :=
  match drain (2 * length text + 3) (tokenize text json) with Ok ts => existsb blank_token ts | Err _ => false end.

Lemma drained text json :
  exists ts, drain (2 * length text + 3) (tokenize text json) = Ok (T_START :: ts ++ [T_END])
    /\ Forall (fun t => t <> T_END) ts.
Proof.
  apply (drain_stream _ (length text) (tokenize text json)); [|simpl; lia].
  split; [|split; [done|by repeat constructor]]. unfold room, chars; simpl. lia.
Qed.

Lemma calm_tokens empties ts : (existsb blank_token ts = true -> empties = true) -> Forall (calm empties) ts.
Proof.
  intros He. apply Forall_forall. intros t Ht. unfold calm.
  assert (Hb : blank_token t = true -> empties = true).
  { intros. apply He, existsb_exists. exists t. by rewrite <- list_elem_of_In. }
  destruct t as [| | | | | | | | | |[[]| | | | |]| |[]| | |]; naive_solver.
Qed.

Lemma parse_text_ok empties io flavor base_origin include include_file pointer_text text n :
  (has_empty_string text (is_json flavor) = true -> empties = true) -> good_origin base_origin ->
  includer_ok empties io include -> includer_ok empties io include_file ->
  match raw_parse_value flavor base_origin include include_file pointer_text text n with
  | (Ok v, n') => (n <= n')%nat /\ wf n' v /\ is_container v = true
  | (Err e, _) => document_error empties io e
  end.
Proof.
  unfold has_empty_string, raw_parse_value. destruct (drained text (is_json flavor)) as (ts & -> & Hne).
  intros He Ho Hi Hf.
  pose proof (parse_ok empties io flavor base_origin include include_file pointer_text Ho Hi Hf ts n Hne) as Hp.
  assert (Hc : Forall (calm empties) ts).
  { pose proof (calm_tokens empties _ He) as Hall. inversion_clear Hall as [|? ? _ Hall']. by apply Forall_app in Hall' as [? _]. }
  specialize (Hp Hc). unfold outcome, parse_tokens in *.
  pose proof (parse_container flavor base_origin include include_file pointer_text
    (initial_context (T_START :: ts ++ [T_END]) n)) as Hv.
  destruct (parse _ _ _ _ _ _) as [[v|x] s]; [|done]. destruct Hp. split_and!; [done|done|by eapply Hv].
Qed.

(** C5: parsing any text, in any syntax, ends: with a well-formed object or list, or with an
    error in the document (a parse error, a bad path, values that cannot be
    concatenated, a misplaced value with substitutions, an include that fails).
    The token iterator is never read past its end, no "bug" exception is reached,
    undefined behaviour only when the text has an empty quoted string, and an I/O error only
    when an includer throws one. *)
Theorem parse_total flavor base_origin include include_file pointer_text io text n :
  good_origin base_origin ->
  includer_ok (has_empty_string text (is_json flavor)) io include ->
  includer_ok (has_empty_string text (is_json flavor)) io include_file ->
  match raw_parse_value flavor base_origin include include_file pointer_text text n with
  | (Ok v, n') => (n <= n')%nat /\ wf n' v /\ is_container v = true
  | (Err e, _) => document_error (has_empty_string text (is_json flavor)) io e
  end.
Proof. intros. by apply parse_text_ok. Qed.
End Texts.

(** ** Concrete runs *)

Definition newline : str := ["010"%char].
Definition quote (s : str) : str := ["034"%char] ++ s ++ ["034"%char].

#[local] Existing Instance whole_doubles.

(** An includer that finds [{r : ${t}}] everywhere. *)
Definition one_file (name : str) : SE nat parse_exn value := fun n =>
  (Ok (SimpleConfigObject n app_origin [($"r", ConfigReference (S n) app_origin (mkSubst (One $"t") false) 0)] false), S (S n)).

Lemma one_file_ok empties : includer_ok empties false one_file.
Proof.
  intros name n _. simpl. split; [lia|].
  constructor; [lia|apply app_origin_good|apply NoDup_singleton|].
  apply Forall_singleton. constructor; [simpl; lia|apply app_origin_good].
Qed.

Definition parse_conf (text : str) : res parse_exn value * nat :=
  raw_parse_value CONF app_origin one_file one_file (fun _ => $"0x0") text 0%nat.

Definition sample : str :=
  $"# layers" ++ newline ++ $"a.b = 1 x, list = [1, 2,]" ++ newline ++ $"a { include " ++ quote $"base" ++ $" }".

Lemma parse_total_witness :
  exists v n, parse_conf sample = (Ok v, n) /\ wf n v
    /\ shape_of v = HObject
         [($"a", HObject [($"r", HRef (mkSubst (More $"a" (One $"t")) false) 1); ($"b", HScalar (ConfigString $"1 x"))] false);
          ($"list", HList [HScalar (ConfigInt 1 $"1"); HScalar (ConfigInt 2 $"2")])] false.
Proof.
  pose proof (parse_total CONF app_origin one_file one_file (fun _ => $"0x0") false sample 0
    app_origin_good (one_file_ok _) (one_file_ok _)) as Hp.
  destruct (raw_parse_value _ _ _ _ _ _ _) as [[v|e] n] eqn:E.
  - exists v, n. split; [exact E|]. split; [apply Hp|]. vm_compute in E. injection E as <- <-. vm_compute. reflexivity.
  - exfalso. vm_compute in E. discriminate E.
Defined.

(** An include two levels down gets its prefix the wrong way round. *)
Example nested_include_prefix :
  exists v n, parse_conf ($"a { b { include " ++ quote $"x" ++ $" } }") = (Ok v, n)
    /\ shape_at (shape_of v) [$"a"; $"b"; $"r"] = Some (HRef (mkSubst (More $"b" (More $"a" (One $"t"))) false) 2).
Proof. eexists _, _. split; [vm_compute; reflexivity|]. vm_compute. reflexivity. Qed.

(** An empty element after the first ends in undefined behaviour, or cuts the path. *)
Example empty_key_undefined : (parse_conf ($"a." ++ quote [] ++ $" = 1")).1 = Err (ValueError Undefined).
Proof. vm_compute. reflexivity. Qed.

Example empty_key_cut :
  exists v n, parse_conf ($"a.b." ++ quote [] ++ $".c = 1") = (Ok v, n)
    /\ shape_of v = HObject [($"a", HObject [($"b", HScalar (ConfigInt 1 $"1"))] false)] false.
Proof. eexists _, _. split; [vm_compute; reflexivity|]. vm_compute. reflexivity. Qed.
