(* ===== verification/JsonText.v ===== *)
(** * The JSON text of a value and its tokens

    [json_text] is the concise JSON rendering of a resolved value, without the
    source's chopping of separators ([render_concise]); [json_tokens] is what the
    tokenizer makes of it ([json_lexed]). *)

From S2P Require Import Prelude CLib Token Tokenizer TokenizerTotal Path Lexing Units Origin Value ValueMerge Render.

Open Scope Z_scope.

#[local] Arguments render_json_string : simpl never.

(** Membership of a character in a literal. *)
Ltac char_in := apply (bool_decide_unpack _); vm_compute; exact I.

Section JsonText.
Context `{DoubleLib}.

(** ** Values with a JSON text *)

Definition json_scalar (x : scalar) : Prop :=
  match x with
  | ConfigString s => no_eof s
  | ConfigInt n _ | ConfigInt64 n _ => int64_min <= n <= int64_max
  | ConfigDouble _ _ => False
  | ConfigBoolean _ | ConfigNull => True
  end.

Inductive jsonable : value -> Prop :=
| jsonable_scalar a o x : json_scalar x -> jsonable (Scalar a o x)
| jsonable_list a o l : Forall jsonable l -> jsonable (SimpleConfigList a o l)
| jsonable_object a o m b :
    NoDup m.*1 -> Forall (fun kv => no_eof kv.1) m -> Forall (fun kv => jsonable kv.2) m ->
    jsonable (SimpleConfigObject a o m b).

(** What is left of a value in the text: numbers lose their original text. *)
Definition canonical_scalar (x : scalar) : scalar :=
  match x with
  | ConfigInt n _ | ConfigInt64 n _ => new_number_int64 n (dec_string n)
  | _ => x
  end.

Fixpoint canonical (h : shape) : shape :=
  match h with
  | HScalar x => HScalar (canonical_scalar x)
  | HList l => HList (map canonical l)
  | HObject m _ => HObject (map (fun kv => (kv.1, canonical kv.2)) m) false
  | _ => h
  end.

(** Parts with commas between them. *)
Definition commas {A} (comma : A) (parts : list (list A)) : list A :=
  match parts with
  | [] => []
  | x :: rest => x ++ concat (map (cons comma) rest)
  end.

Fixpoint json_text (v : value) : str :=
  match v with
  | Scalar _ _ x => render_scalar concise x
  | SimpleConfigList _ _ l => $"[" ++ commas ","%char (map json_text l) ++ $"]"
  | SimpleConfigObject _ _ m _ =>
      $"{" ++ commas ","%char (map (fun kv => render_json_string kv.1 ++ $":" ++ json_text kv.2) m) ++ $"}"
  | _ => []
  end.

Fixpoint json_tokens (v : value) : list token :=
  match v with
  | Scalar _ _ x => [ValueToken (canonical_scalar x) 1]
  | SimpleConfigList _ _ l => T_OPEN_SQUARE :: commas T_COMMA (map json_tokens l) ++ [T_CLOSE_SQUARE]
  | SimpleConfigObject _ _ m _ =>
      T_OPEN_CURLY
      :: commas T_COMMA (map (fun kv => ValueToken (ConfigString kv.1) 1 :: T_COLON :: json_tokens kv.2) m)
      ++ [T_CLOSE_CURLY]
  | _ => []
  end.

(** ** The rendering *)

Lemma chop_app (s : str) : chop 1 (s ++ $",") = s.
Proof. unfold chop. rewrite length_app. simpl. replace (length s + 1 - 1)%nat with (length s) by lia. apply take_app_length. Qed.

(** Every part with a comma after it. *)
Definition trailing (parts : list str) : str := concat (map (fun x => x ++ $",") parts).

Lemma trailing_commas parts : parts <> [] -> trailing parts = commas ","%char parts ++ $",".
Proof.
  destruct parts as [|x rest]; [done|]. intros _. revert x. induction rest as [|y rest IH]; intros x.
  - unfold trailing. simpl. by rewrite !app_nil_r.
  - change (trailing (x :: y :: rest)) with ((x ++ $",") ++ trailing (y :: rest)). rewrite IH. unfold commas. simpl.
    rewrite <- !app_assoc. simpl. f_equal. f_equal. by rewrite <- app_assoc.
Qed.

Definition call_text (v : value) (c : call) : str := match c with At (Some k) => render_json_string k ++ $":" | _ => [] end.

Lemma call_key v c s : match c with At (Some k) => s ++ render_key concise v k | _ => s end = s ++ call_text v c.
Proof. destruct c as [|[k|]]; simpl; by rewrite ?app_nil_r. Qed.

Lemma list_loop_text l ind : forall s,
  Forall (fun v => forall c s ind, render concise v c s ind = Ok (s ++ call_text v c ++ json_text v)) l ->
  list_loop concise (render concise) l s ind = Ok (s ++ trailing (map json_text l)).
Proof.
  induction l as [|v l IH]; intros s Hl; simpl; [by rewrite app_nil_r|]. inversion_clear Hl as [|? ? Hv Hl'].
  unfold render_comments, indent. simpl. rewrite app_nil_r, Hv. simpl. rewrite IH by done. unfold trailing. simpl.
  f_equal. by rewrite <- !app_assoc.
Qed.

Lemma object_fields_text m ind : forall s,
  Forall (fun kv => forall c s ind, render concise kv.2 c s ind = Ok (s ++ call_text kv.2 c ++ json_text kv.2)) m ->
  object_fields concise (render concise) m s ind
  = Ok (s ++ trailing (map (fun kv => render_json_string kv.1 ++ $":" ++ json_text kv.2) m)).
Proof.
  induction m as [|[k v] m IH]; intros s Hm; simpl; [by rewrite app_nil_r|]. inversion_clear Hm as [|? ? Hv Hm'].
  unfold render_comments, indent. simpl in *. rewrite app_nil_r, Hv. simpl. rewrite IH by done. unfold trailing. simpl.
  f_equal. by simplify_list_eq.
Qed.

Lemma render_concise v : jsonable v -> forall c s ind, render concise v c s ind = Ok (s ++ call_text v c ++ json_text v).
Proof.
  induction v as [a o x|a o l IH|a o m b IH|a o l IH|a o e k|a o l IH|a o l IH] using value_tree_ind;
    intros Hj c s ind; try (by inversion Hj); cbn [render]; rewrite (call_key _ c s).
  - by rewrite <- app_assoc.
  - unfold render_list. destruct l as [|v l]; [by rewrite <- app_assoc|]. inversion Hj as [|? ? ? Hl|]; subst.
    rewrite list_loop_text; [|rewrite Forall_forall in *; naive_solver].
    cbn [mbind res_bind get_formatted concise json_text]. rewrite trailing_commas by done.
    rewrite !app_assoc, chop_app, <- !app_assoc. done.
  - unfold render_object. destruct m as [|kv m]; [by rewrite <- app_assoc|]. inversion Hj as [| |? ? ? ? ? ? Hm]; subst.
    rewrite object_fields_text; [|rewrite Forall_forall in *; naive_solver].
    cbn [mbind res_bind get_formatted get_json concise json_text]. rewrite orb_true_r. unfold separator_count. simpl get_formatted. cbv iota.
    rewrite trailing_commas by done. rewrite !app_assoc, chop_app, <- !app_assoc. done.
Qed.

(** ** The tokens of a text *)

Definition at_text (s : scan) (w : str) : Prop := ready s w /\ line_number s = 1.

Definition lexed (s : scan) (ts : list token) (w : str) : Prop := exists s', lexes_to s ts s' /\ at_text s' w.

Lemma lexed_app s ts us w w' : lexed s ts w -> (forall s', at_text s' w -> lexed s' us w') -> lexed s (ts ++ us) w'.
Proof. intros (s1 & H1 & Ha) H2. destruct (H2 s1 Ha) as (s2 & H3 & Hb). exists s2. split; [by eapply lexes_to_app|done]. Qed.

Lemma lexed_cons s t us w w' : lexed s [t] w -> (forall s', at_text s' w -> lexed s' us w') -> lexed s (t :: us) w'.
Proof. intros H1 H2. by apply (lexed_app s [t] us w w'). Qed.

Lemma lexed_nil s w : at_text s w -> lexed s [] w.
Proof. intros Hs. exists s. by split; [intros rest|]. Qed.

(** One token, whatever the saver holds. *)
Lemma lexed_one s s' t w :
  (forall fuel, pull_next_token (S fuel) s = (Ok t, s')) -> t <> T_END -> sees 2 s' w -> same_context s s' ->
  whitespace s = [] -> line_number s = 1 -> lexed s [t] w.
Proof.
  intros Hp Ht Hs (Hl & _ & _ & Hw) Hws Hline.
  exists (with_saver (is_simple_value t) [] s'). split; [|split; [split; [exact Hs|done]|simpl; congruence]].
  apply lexes_to_one; [|done]. intros fuel. unfold queue_with, se_bind, se_get, se_ret. rewrite Hp. unfold saver_check.
  destruct (is_simple_value t); [|done]. destruct (last_token_was_simple_value s') eqn:El; [|done].
  rewrite bool_decide_true by congruence. simpl. rewrite Hws in Hw. destruct s'; simpl in *. by subst.
Qed.

Definition punctuation : str := $":,{}[]".

Lemma punctuation_token s c t w :
  c ∈ punctuation -> simple_token (schar c) = Some t -> at_text s (c :: w) -> lexed s [t] w.
Proof.
  intros Hc Ht [[Hs Hws] Hl].
  assert (Hch : schar c <> -1 /\ is_space c = false /\ t <> T_END /\ (schar c =? 10) = false /\ (schar c =? 34) = false
    /\ (schar c =? 36) = false /\ (schar c =? 43) = false /\ (schar c =? 35) = false /\ (schar c =? 47) = false).
  { unfold punctuation in Hc. simpl in Hc. repeat (apply elem_of_cons in Hc as [->|Hc]); [..|by apply not_elem_of_nil in Hc];
      vm_compute in Ht; simplify_eq; split_and!; done. }
  destruct Hch as (Hne & Hsp & Hend & H10 & H34 & H36 & H43 & H35 & H47).
  destruct (no_whitespace 2 s c w Hne Hsp Hs) as (s1 & Hr & Hs1 & Hc1).
  apply (lexed_one s s1); [|done|eapply sees_mono; [exact Hs1|simpl; lia]|done|done|done].
  intros fuel. apply Z.eqb_neq in Hne. cbn [pull_next_token]. unfold se_bind at 1. rewrite Hr, Hne, H10.
  unfold token_from, se_bind at 1. rewrite start_of_comment_plain by done. by rewrite H34, H36, H43, Ht.
Qed.

Lemma string_lexed s e w :
  no_eof e -> head w <> Some dquote -> at_text s (render_json_string e ++ w) ->
  lexed s [ValueToken (ConfigString e) 1] w.
Proof.
  intros He Hw [[Hs Hws] Hl]. destruct (string_token 2 s e w He ltac:(lia) ltac:(by intros _) Hs) as (s1 & E & Hs1 & Hc1).
  rewrite Hl in E. by apply (lexed_one s s1).
Qed.

Lemma keyword_lexed s u v w :
  keyword u = Some v -> u ∈ [$"true"; $"false"; $"null"] -> at_text s (u ++ w) -> lexed s [ValueToken v 1] w.
Proof.
  intros Hk Hu [[Hs Hws] Hl].
  assert (Hplain : Forall (fun c => plain c = true) u /\ (forall n, (0 < n < length u)%nat -> keyword (take n u) = None)
    /\ exists c x, u = c :: x /\ no_number c = true).
  { repeat (apply elem_of_cons in Hu as [->|Hu]); [..|by apply not_elem_of_nil in Hu];
      (split_and!; [by repeat constructor| |by eexists _, _]);
      intros n Hn; simpl in Hn; do 6 (destruct n as [|n]; [try lia; reflexivity|]); lia. }
  destruct Hplain as (Hp & Hlt & c & x & -> & Hn). inversion Hp as [|? ? Hc _]; subst.
  destruct (plain_start s c (x ++ w) Hc Hn Hs) as (s1 & f & E & Hs1 & Hc1 & Hf).
  destruct (keyword_run (c :: x) v w [] 1 s1 f (line_number s)) as (s2 & E2 & Hs2 & Hc2); try done.
  { simpl in Hf. rewrite length_app in Hf. simpl. lia. }
  rewrite Hl in *. apply (lexed_one s s2); [|done|eapply sees_mono; [exact Hs2|lia]|by etrans|done|done].
  intros fuel. rewrite E. exact E2.
Qed.

(** ** Numbers *)

(** What may follow a value in JSON. *)
Definition delimited (w : str) : Prop := w = [] \/ exists c w', w = c :: w' /\ c ∈ $",]}".

Definition number_tail (c : ascii) : bool := is_digit c || Ascii.eqb c "-"%char.

Lemma number_tail_char c : number_tail c = true ->
  (schar c =? -1) = false /\ in_chars number_chars (schar c) = true /\ (schar c =? 46) = false /\ (schar c =? 101) = false
  /\ (schar c =? multichar_e) = false /\ in_chars first_number_chars (schar c) = true /\ is_space c = false
  /\ (schar c =? 10) = false /\ (schar c =? 34) = false /\ (schar c =? 36) = false /\ (schar c =? 43) = false
  /\ (schar c =? 35) = false /\ (schar c =? 47) = false /\ simple_token (schar c) = None.
Proof.
  intros Hn. by_ascii c (fun c => implb (number_tail c)
    (negb (schar c =? -1) && in_chars number_chars (schar c) && negb (schar c =? 46) && negb (schar c =? 101)
     && negb (schar c =? multichar_e) && in_chars first_number_chars (schar c) && negb (is_space c)
     && negb (schar c =? 10) && negb (schar c =? 34) && negb (schar c =? 36) && negb (schar c =? 43)
     && negb (schar c =? 35) && negb (schar c =? 47)
     && match simple_token (schar c) with None => true | Some _ => false end)).
  rewrite Hn in H0. simpl in H0. repeat (apply andb_true_iff in H0 as [H0 ?]). rewrite ?negb_true_iff in *.
  split_and!; try done. by destruct (simple_token (schar c)).
Qed.

Lemma delimited_stops w : delimited w -> negb (head_code w =? -1) && in_chars number_chars (head_code w) = false.
Proof.
  intros [->|(c & w' & -> & Hc)]; [done|]. simpl in Hc.
  repeat (apply elem_of_cons in Hc as [->|Hc]); [..|by apply not_elem_of_nil in Hc]; reflexivity.
Qed.

(** The loop holds the head of [x ++ w] and takes all of [x]. *)
Lemma number_run x w acc k s fuel :
  Forall (fun c => number_tail c = true) x -> delimited w -> sees k s (tl (x ++ w)) -> (k <= 1)%nat -> (length x < fuel)%nat ->
  exists s', number_loop fuel acc false (head_code (x ++ w)) s = (Ok (acc ++ x, false), s') /\ sees 2 s' w /\ same_context s s'.
Proof.
  revert acc k s fuel. induction x as [|c x IH]; intros acc k s fuel Hx Hw Hs Hk Hf;
    destruct fuel as [|fuel]; simpl in Hf; try lia; cbn [number_loop].
  - rewrite app_nil_l in *. rewrite delimited_stops by done.
    destruct (unread_head k s w Hs ltac:(lia)) as (s1 & Hu & Hs1 & Hc1). unfold se_bind. rewrite Hu, app_nil_r.
    exists s1. split; [done|]. split; [eapply sees_mono; [exact Hs1|lia]|done].
  - inversion Hx as [|? ? Hc Hx']; subst. destruct (number_tail_char c Hc) as (H1 & H2 & H3 & H4 & H5 & _).
    cbn [head_code app]. rewrite H1, H2, H3, H4, H5. cbn [negb andb orb].
    simpl in Hs. destruct (read_head k s (x ++ w) Hs) as (s1 & Hr & Hs1 & Hc1). unfold se_bind. rewrite Hr, chr_schar.
    destruct (IH (acc ++ [c]) (pred k) s1 fuel) as (s2 & E & Hs2 & Hc2); [done|done|done|lia|lia|].
    rewrite E, <- app_assoc. exists s2. split; [done|]. split; [done|by etrans].
Qed.

Lemma dec_string_text n :
  int64_min <= n <= int64_max ->
  lexical_cast_int64 (dec_string n) = Some n
  /\ exists c x, dec_string n = c :: x /\ Forall (fun c => number_tail c = true) (c :: x).
Proof.
  intros Hn. assert (Hdig : forall z, 0 <= z -> Forall (fun c => number_tail c = true) (dec_string z)).
  { intros z Hz. destruct (dec_string_nonneg z Hz) as (Hd & _). eapply Forall_impl; [exact Hd|].
    intros c Hc. unfold number_tail. by rewrite Hc. }
  destruct (decide (0 <= n)) as [Hp|Hp].
  - destruct (dec_string_nonneg n Hp) as (Hd & Hv & Hne). split.
    + rewrite lexical_cast_digits by (done || lia). by rewrite Hv.
    + specialize (Hdig n Hp). destruct (dec_string n) as [|c x]; [done|]. by exists c, x.
  - destruct n as [|p|p]; try lia.
    assert (Hm : dec_string (Z.neg p) = "-"%char :: dec_string (Z.pos p)) by done.
    destruct (dec_string_nonneg (Z.pos p)) as (Hd & Hv & Hne); [lia|]. specialize (Hdig (Z.pos p) ltac:(lia)).
    rewrite Hm. clear Hm. revert Hd Hv Hne Hdig. generalize (dec_string (Z.pos p)) as r. intros r Hd Hv Hne Hdig. split.
    + change (lexical_cast_int64 ("-"%char :: r)) with (if bool_decide (r = []) || negb (forallb is_digit r) then None
        else if dec_value r <=? 2 ^ 63 then Some (- dec_value r) else None).
      rewrite bool_decide_false, digits_forallb, Hv by done. unfold int64_min in Hn.
      by rewrite (proj2 (Z.leb_le _ _)) by lia.
    + eexists _, _. split; [done|]. by constructor.
Qed.

Lemma number_lexed s n w :
  int64_min <= n <= int64_max -> delimited w -> at_text s (dec_string n ++ w) ->
  lexed s [ValueToken (new_number_int64 n (dec_string n)) 1] w.
Proof.
  intros Hn Hw [[Hs Hws] Hl]. destruct (dec_string_text n Hn) as (Hcast & c & x & Ed & Hx). rewrite Ed in *.
  inversion Hx as [|? ? Hc Hx']; subst.
  destruct (number_tail_char c Hc) as (H1 & _ & _ & _ & _ & Hf & Hsp & H10 & H34 & H36 & H43 & H35 & H47 & Hst).
  simpl in Hs. destruct (no_whitespace 2 s c (x ++ w)) as (s1 & Hr & Hs1 & Hc1); [by apply Z.eqb_neq|done|done|].
  destruct (read_head 1 s1 (x ++ w) Hs1) as (s2 & Hr2 & Hs2 & Hc2).
  destruct (number_run x w [c] 0 s2 (loop_fuel s1) Hx' Hw Hs2 ltac:(lia)) as (s3 & E & Hs3 & Hc3).
  { apply sees_fuel in Hs1. rewrite length_app in Hs1. lia. }
  assert (Hline : line_number s3 = 1) by (destruct Hc1 as [L1 _], Hc2 as [L2 _], Hc3 as [L3 _]; congruence).
  apply (lexed_one s s3); [|by destruct (new_number_int64 _ _)|done|by etrans; [|etrans]|done|done].
  intros fuel. cbn [pull_next_token]. unfold se_bind at 1. rewrite Hr, H1, H10. unfold token_from, se_bind at 1.
  rewrite start_of_comment_plain by done. rewrite H34, H36, H43, Hst, Hf.
  unfold pull_number, fuelled, se_bind, se_get. rewrite Hr2, chr_schar, E. cbn [app]. rewrite Hcast, Hline. done.
Qed.

(** ** Values *)

Definition lexes_as (x : str) (ts : list token) : Prop := forall s w, delimited w -> at_text s (x ++ w) -> lexed s ts w.

Lemma delimited_quote w : delimited w -> head w <> Some dquote.
Proof.
  intros [->|(c & w' & -> & Hc)]; [done|]. simpl in Hc.
  repeat (apply elem_of_cons in Hc as [->|Hc]); [..|by apply not_elem_of_nil in Hc]; done.
Qed.

Lemma scalar_lexes x : json_scalar x -> lexes_as (render_scalar concise x) [ValueToken (canonical_scalar x) 1].
Proof.
  intros Hx s w Hw Hs. destruct x as [e|n t|n t|d t|b|]; simpl in *; try done.
  - apply string_lexed; [done|by apply delimited_quote|done].
  - by apply number_lexed.
  - by apply number_lexed.
  - destruct b; [apply (keyword_lexed s $"true")|apply (keyword_lexed s $"false")]; try done; char_in.
  - apply (keyword_lexed s $"null"); try done; char_in.
Qed.

(** More parts, each after a comma. *)
Lemma more_lexes xs tss :
  Forall2 lexes_as xs tss -> lexes_as (concat (map (cons ","%char) xs)) (concat (map (cons T_COMMA) tss)).
Proof.
  induction 1 as [|x ts xs tss Hx _ IH]; intros s w Hw Hs; simpl in *; [by apply lexed_nil|].
  rewrite <- app_assoc in Hs.
  apply (lexed_cons s T_COMMA _ (x ++ concat (map (cons ","%char) xs) ++ w)); [by apply (punctuation_token s ","%char); [char_in|..]|].
  intros s1 Hs1. eapply lexed_app; [apply Hx; [|exact Hs1]|].
  - destruct xs; [done|]. right. eexists _, _. split; [done|]. char_in.
  - intros s2 Hs2. by apply IH.
Qed.

Lemma commas_lex xs tss : Forall2 lexes_as xs tss -> lexes_as (commas ","%char xs) (commas T_COMMA tss).
Proof.
  destruct 1 as [|x ts xs tss Hx Hxs]; intros s w Hw Hs; simpl in *; [by apply lexed_nil|].
  rewrite <- app_assoc in Hs. eapply lexed_app; [apply Hx; [|exact Hs]|].
  - destruct xs; [done|]. right. eexists _, _. split; [done|]. char_in.
  - intros s2 Hs2. by apply (more_lexes xs tss).
Qed.

Lemma close_delimits b : b ∈ $"]}" -> b ∈ $",]}" /\ b ∈ punctuation.
Proof.
  intros Hb. simpl in Hb. repeat (apply elem_of_cons in Hb as [->|Hb]); [..|by apply not_elem_of_nil in Hb]; split; char_in.
Qed.

(** Parts between brackets. *)
Lemma bracketed a b ta tb xs tss :
  a ∈ punctuation -> b ∈ $"]}" -> simple_token (schar a) = Some ta -> simple_token (schar b) = Some tb ->
  Forall2 lexes_as xs tss -> lexes_as ([a] ++ commas ","%char xs ++ [b]) (ta :: commas T_COMMA tss ++ [tb]).
Proof.
  intros Ha Hb Hta Htb Hx s w Hw Hs. simpl in Hs. rewrite <- app_assoc in Hs.
  apply (lexed_cons s ta _ (commas ","%char xs ++ [b] ++ w)); [by eapply punctuation_token|]. intros s1 Hs1.
  eapply lexed_app; [apply (commas_lex xs tss Hx); [|exact Hs1]|].
  - right. eexists _, _. split; [done|]. by apply close_delimits.
  - intros s2 Hs2. eapply punctuation_token; [|exact Htb|exact Hs2]. by apply close_delimits.
Qed.

Lemma field_lexes k x ts :
  no_eof k -> lexes_as x ts ->
  lexes_as (render_json_string k ++ $":" ++ x) (ValueToken (ConfigString k) 1 :: T_COLON :: ts).
Proof.
  intros Hk Hx s w Hw Hs. rewrite <- !app_assoc in Hs.
  apply (lexed_cons s _ _ ($":" ++ x ++ w)); [by apply string_lexed|]. intros s1 Hs1.
  apply (lexed_cons s1 _ _ (x ++ w)); [by apply (punctuation_token s1 ":"%char); [char_in|..]|]. intros s2 Hs2. by apply Hx.
Qed.

Lemma Forall2_maps {A B C} (R : B -> C -> Prop) (f : A -> B) (g : A -> C) l :
  Forall (fun x => R (f x) (g x)) l -> Forall2 R (map f l) (map g l).
Proof. induction 1; simpl; by constructor. Qed.

Lemma json_lexes v : jsonable v -> lexes_as (json_text v) (json_tokens v).
Proof.
  induction v as [a o x|a o l IH|a o m b IH|a o l IH|a o e k|a o l IH|a o l IH] using value_tree_ind;
    intros Hj; inversion Hj; subst; cbn [json_text json_tokens].
  - by apply scalar_lexes.
  - apply bracketed; [char_in|char_in|done|done|]. apply Forall2_maps. rewrite Forall_forall in *. naive_solver.
  - apply bracketed; [char_in|char_in|done|done|]. apply Forall2_maps. rewrite Forall_forall in *.
    intros kv Hkv. apply field_lexes; [auto|]. apply IH; auto.
Qed.

(** The tokens of the JSON text. *)
Lemma json_lexed v :
  jsonable v -> drain (2 * length (json_text v) + 3) (tokenize (json_text v) true) = Ok (T_START :: json_tokens v ++ [T_END]).
Proof.
  intros Hj. apply tokenize_lexes.
  destruct (json_lexes v Hj (init_scan (json_text v) (negb true)) []) as (s & Hl & [[Hs _] _]); [by left| |].
  - rewrite app_nil_r. split; [|done]. split; [|done]. eapply sees_mono; [apply sees_init|lia].
  - apply Hl. by apply (lexes_blank_end []).
Qed.
End JsonText.
