(* ===== verification/JsonRoundTrip.v ===== *)
(** * Rendering as JSON and parsing back

    The parser, in JSON syntax, on the tokens of a value's JSON text: it rebuilds
    the value, up to what the text does not carry. *)

From S2P Require Import Prelude CLib Token Tokenizer Path Lexing Origin Value ValueMerge ValueEdit Parser ParserTotal Render JsonText.

Open Scope Z_scope.

Section JsonRoundTrip.
Context `{DoubleLib}.
Variable base_origin o1 : SimpleConfigOrigin.
Variables include include_file : str -> SE nat parse_exn value.
Variable pointer_text : value -> str.
Hypothesis first_line : set_line_number 1 base_origin = Ok o1.

Abbreviation nextn := (next_token_ignoring_newline JSON base_origin).
Abbreviation pv fuel := (parse_value JSON base_origin include include_file pointer_text fuel).

(** On the first line, with the tokens [ts] to come. *)
Definition ctx (b : list TokenWithComments) (ts : list token) (ps : list Path) (n : nat) : ParseContext :=
  mkContext 1 b ts ps 0 n.

(** ** Reading *)

Definition constant (t : token) : bool :=
  match t with
  | T_COMMA | T_COLON | T_OPEN_CURLY | T_CLOSE_CURLY | T_OPEN_SQUARE | T_CLOSE_SQUARE | T_START | T_END => true
  | _ => false
  end.

Lemma next_constant t ts ps n : constant t = true -> nextn (ctx [] (t :: ts) ps n) = (Ok (mkTWC (PTok t) []), ctx [] ts ps n).
Proof. by destruct t. Qed.

Lemma next_held t ts ps n :
  constant t = true -> nextn (ctx [mkTWC (PTok t) []] ts ps n) = (Ok (mkTWC (PTok t) []), ctx [] ts ps n).
Proof. by destruct t. Qed.

Lemma origin_one s : origin_at base_origin 1 s = (Ok o1, s).
Proof. unfold origin_at, liftV. rewrite first_line. simpl. by rewrite with_addr_id. Qed.

Lemma next_scalar x ts ps n :
  nextn (ctx [] (ValueToken x 1 :: ts) ps n) = (Ok (mkTWC (PVal (Scalar n o1 x)) []), ctx [] ts ps (S n)).
Proof.
  unfold next_token_ignoring_newline, Parser.fuelled. cbn [skip_newlines]. unfold Parser.next_token, pop_token.
  unfold se_bind, se_get. cbn [ctx Parser.buffer]. unfold tokens_next, se_bind, se_get, se_put. cbn [ctx toks].
  by rewrite origin_one.
Qed.

Lemma separator_comma ts ps n :
  check_element_separator JSON base_origin (ctx [] (T_COMMA :: ts) ps n) = (Ok true, ctx [] ts ps n).
Proof. done. Qed.

Lemma separator_none t ts ps n :
  t = T_CLOSE_CURLY \/ t = T_CLOSE_SQUARE ->
  check_element_separator JSON base_origin (ctx [] (t :: ts) ps n) = (Ok false, ctx [mkTWC (PTok t) []] ts ps n).
Proof. by intros [->| ->]. Qed.

(** The first token of a value, as it is read. *)
Definition starts (t : token) : bool :=
  match t with ValueToken _ 1 | T_OPEN_CURLY | T_OPEN_SQUARE => true | _ => false end.

Definition taken (t : token) (n : nat) : ptoken := match t with ValueToken x _ => PVal (Scalar n o1 x) | _ => PTok t end.
Definition after (t : token) (n : nat) : nat := match t with ValueToken _ _ => S n | _ => n end.

Lemma next_start t ts ps n :
  starts t = true -> nextn (ctx [] (t :: ts) ps n) = (Ok (mkTWC (taken t n) []), ctx [] ts ps (after t n)).
Proof.
  destruct t as [| | | | | | | | | |x l| | | | |]; try done. intros Hl. destruct l as [|[]|]; try done. apply next_scalar.
Qed.

(** ** Values *)

(** [parse_value] on the tokens of [v] gives [v] back. *)
Definition rebuilds (fuel : nat) (v : value) : Prop :=
  exists t rest, json_tokens v = t :: rest /\ starts t = true /\ forall ps n ts,
    exists v' n', pv fuel (mkTWC (taken t n) []) (ctx [] (rest ++ ts) ps (after t n)) = (Ok v', ctx [] ts ps n')
      /\ shape_of v' = canonical (shape_of v).

(** Reading the first token of [v] and parsing it. *)
Lemma read_value fuel v :
  rebuilds fuel v -> forall ps n ts, exists t v' n' s,
    nextn (ctx [] (json_tokens v ++ ts) ps n) = (Ok t, s) /\ starts_value (twc_token t) = true /\ comments t = []
    /\ pv fuel t s = (Ok v', ctx [] ts ps n') /\ shape_of v' = canonical (shape_of v).
Proof.
  intros (t & rest & E & Ht & Hr) ps n ts. destruct (Hr ps n ts) as (v' & n' & Ep & Hs).
  exists (mkTWC (taken t n) []), v', n', (ctx [] (rest ++ ts) ps (after t n)). rewrite E. simpl app.
  rewrite (next_start t) by done. split; [done|]. split; [by destruct t|]. done.
Qed.

Lemma array_loop_rebuilds fuel l : forall k values ps n ts,
  Forall (rebuilds fuel) l -> (length l < k)%nat ->
  exists vs n', array_loop JSON base_origin pointer_text (pv fuel) k values
      (ctx [] (concat (map (cons T_COMMA) (map json_tokens l)) ++ T_CLOSE_SQUARE :: ts) ps n)
    = (Ok (values ++ vs), ctx [] ts ps n') /\ map shape_of vs = map canonical (map shape_of l).
Proof.
  induction l as [|v l IH]; intros k values ps n ts Hl Hk; (destruct k as [|k]; [simpl in Hk; lia|]); cbn [array_loop];
    unfold se_bind at 1.
  - simpl app. rewrite separator_none by auto. cbn [negb]. unfold se_bind at 1. rewrite next_held by done.
    exists [], n. by rewrite app_nil_r.
  - inversion_clear Hl as [|? ? Hv Hl']. simpl app. rewrite separator_comma. cbn [negb]. unfold consolidate_value_tokens at 1.
    cbn [is_json]. change (is_json JSON) with true. cbv iota. unfold se_bind at 1, se_ret at 1.
    rewrite <- app_assoc.
    destruct (read_value fuel v Hv ps n (concat (map (cons T_COMMA) (map json_tokens l)) ++ T_CLOSE_SQUARE :: ts))
      as (t & v' & n1 & s & En & Est & _ & Ep & Hs).
    unfold se_bind at 1. rewrite En, Est. unfold se_bind at 1. rewrite Ep.
    destruct (IH k (values ++ [v']) ps n1 ts Hl' ltac:(simpl in Hk; lia)) as (vs & n2 & E & Hvs).
    exists (v' :: vs), n2. rewrite E, <- app_assoc. split; [done|]. simpl. by rewrite Hs, Hvs.
Qed.

(** A value that needs no comments is returned as it is. *)
Lemma value_unchanged v s :
  (let* o := twc_set_comments (mkTWC (PTok T_START) []) (origin_of v) in liftV (with_origin v o)) s = (Ok v, s).
Proof.
  unfold twc_set_comments. simpl. unfold se_bind, se_ret, liftV, with_origin. rewrite bool_decide_true by done.
  simpl. by rewrite with_addr_id.
Qed.

Lemma parse_scalar fuel n o x s : pv (S fuel) (mkTWC (PVal (Scalar n o x)) []) s = (Ok (Scalar n o x), s).
Proof. apply (value_unchanged (Scalar n o x) s). Qed.

(** The value of an opening token is what the object or array parser makes. *)
Lemma parse_opened fuel (m : P value) t s v s' :
  (t = T_OPEN_SQUARE /\ m = parse_array JSON base_origin pointer_text (pv fuel)
   \/ t = T_OPEN_CURLY /\ m = parse_object JSON base_origin include include_file pointer_text (pv fuel) true) ->
  m s = (Ok v, s') -> pv (S fuel) (mkTWC (PTok t) []) s = (Ok v, s').
Proof.
  intros Ht Em. rewrite <- (value_unchanged v s').
  destruct Ht as [[-> ->]|[-> ->]]; cbn [parse_value twc_token]; unfold se_bind at 1; by rewrite Em.
Qed.

Lemma line_origin_one b ts ps n : line_origin base_origin (ctx b ts ps n) = (Ok o1, ctx b ts ps n).
Proof. apply origin_one. Qed.

Lemma make_simple_list l b ts ps n :
  liftV (simple_list o1 l) (ctx b ts ps n) = (Ok (SimpleConfigList n o1 l), ctx b ts ps (S n)).
Proof. unfold simple_list, make_list. by rewrite eqb_refl_neg. Qed.

Lemma make_simple_object m b ts ps n :
  liftV (simple_object o1 m) (ctx b ts ps n) = (Ok (SimpleConfigObject n o1 m false), ctx b ts ps (S n)).
Proof. unfold simple_object, make_object. by rewrite eqb_refl_neg. Qed.

Lemma parse_array_rebuilds fuel l ps n ts :
  Forall (rebuilds fuel) l ->
  exists vs n', parse_array JSON base_origin pointer_text (pv fuel)
      (ctx [] (commas T_COMMA (map json_tokens l) ++ T_CLOSE_SQUARE :: ts) ps n)
    = (Ok (SimpleConfigList n' o1 vs), ctx [] ts ps (S n')) /\ map shape_of vs = map canonical (map shape_of l).
Proof.
  intros Hl. unfold parse_array. unfold se_bind at 1. rewrite line_origin_one.
  unfold consolidate_value_tokens at 1. change (is_json JSON) with true. cbv iota. unfold se_bind at 1, se_ret at 1.
  destruct l as [|v l].
  - exists [], n. simpl app. unfold se_bind at 1. rewrite next_constant by done. cbn [twc_token]. by rewrite make_simple_list.
  - inversion_clear Hl as [|? ? Hv Hl']. simpl app. rewrite <- app_assoc.
    destruct (read_value fuel v Hv ps n (concat (map (cons T_COMMA) (map json_tokens l)) ++ T_CLOSE_SQUARE :: ts))
      as (t & v' & n1 & s & En & Est & _ & Ep & Hs).
    destruct (array_loop_rebuilds fuel l (S (remaining (ctx [] (concat (map (cons T_COMMA) (map json_tokens l)) ++ T_CLOSE_SQUARE :: ts) ps n1)))
      [v'] ps n1 ts Hl') as (vs & n2 & E & Hvs).
    { unfold remaining. simpl. rewrite length_app. clear. induction l as [|x l IH]; simpl in *; [lia|].
      rewrite length_app. lia. }
    exists (v' :: vs), n2. split; [|simpl; by rewrite Hs, Hvs]. unfold se_bind at 1. rewrite En.
    assert (Hrest : (if starts_value (twc_token t) then
        let* v := pv fuel t in
        let* values := Parser.fuelled (fun f => array_loop JSON base_origin pointer_text (pv fuel) f [v]) in
        liftV (simple_list o1 values)
      else
        let* text := ptoken_to_string pointer_text (twc_token t) in
        key_error base_origin ($"_list should have ] or a first element after the open [, instead had token: " ++ text
                   ++ $" (if you want " ++ text ++ $" to be part of a string value, then double-quote it)")) s
      = (Ok (SimpleConfigList n2 o1 (v' :: vs)), ctx [] ts ps (S n2))).
    { rewrite Est. unfold se_bind at 1. rewrite Ep. unfold se_bind, Parser.fuelled. rewrite E. apply make_simple_list. }
    destruct (twc_token t) as [x|x] eqn:Et; [destruct x|]; exact Hrest || done.
Qed.

(** ** Fields *)

Lemma map_put_fresh k v (m : vmap) : k ∉ m.*1 -> map_put k v m = m ++ [(k, v)].
Proof.
  induction m as [|[k' w] m IH]; [done|]. rewrite fmap_cons, not_elem_of_cons. intros [Hk Hm]. simpl in *.
  rewrite bool_decide_false by done. by rewrite IH.
Qed.

Lemma map_find_fresh k (m : vmap) : k ∉ m.*1 -> map_find k m = None.
Proof.
  induction m as [|[k' w] m IH]; [done|]. rewrite fmap_cons, not_elem_of_cons. intros [Hk Hm]. simpl in *.
  rewrite bool_decide_false by done. by apply IH.
Qed.

Lemma parse_field_rebuilds fuel k v values ps n n0 ts :
  rebuilds fuel v -> k ∉ values.*1 ->
  exists v' n', parse_field JSON base_origin pointer_text (pv fuel) (mkTWC (PVal (Scalar n0 o1 (ConfigString k))) []) values
      (ctx [] (T_COLON :: json_tokens v ++ ts) ps n)
    = (Ok (values ++ [(k, v')], One k, false), ctx [] ts ps n') /\ shape_of v' = canonical (shape_of v).
Proof.
  intros Hv Hk. destruct (read_value fuel v Hv (One k :: ps) n ts) as (t & v' & n' & s & En & Est & Ec & Ep & Hs).
  exists v', n'. split; [|done]. unfold parse_field. unfold se_bind at 1.
  change (parse_key JSON base_origin pointer_text (mkTWC (PVal (Scalar n0 o1 (ConfigString k))) []) ?s) with (@Ok parse_exn Path (One k), s).
  cbv iota. unfold se_bind at 1. rewrite next_constant by done. unfold se_bind at 1, se_modify at 1.
  unfold se_bind at 1, field_value_token. cbn [twc_token is_open_curly is_equals is_key_value_separator_token]. rewrite andb_false_r.
  cbn [negb]. unfold se_bind at 1, se_ret at 1. unfold consolidate_value_tokens at 1. change (is_json JSON) with true. cbv iota.
  unfold se_bind at 1, se_ret at 1. change (with_paths _ _) with (ctx [] (json_tokens v ++ ts) (One k :: ps) n). rewrite En.
  unfold se_bind at 1. cbn [comments]. replace (prepend_comments [] t) with t by (unfold prepend_comments; destruct t; simpl in *; by subst).
  rewrite Ep. cbn [is_plus_equals]. unfold se_bind at 1, se_ret at 1. unfold se_bind at 1, pop_path, se_bind at 1, se_get.
  cbn [ctx path_stack]. unfold se_put, se_ret, se_bind. cbn [with_paths].
  unfold add_field. cbn [first remainder]. rewrite map_find_fresh by done. unfold se_ret. by rewrite map_put_fresh by done.
Qed.

Definition field_tokens (kv : str * value) : list token := ValueToken (ConfigString kv.1) 1 :: T_COLON :: json_tokens kv.2.

Lemma object_step fuel k key v values comma p eq ps n rest :
  rebuilds fuel v -> key ∉ values.*1 ->
  exists v' n', object_loop JSON base_origin include include_file pointer_text (pv fuel) (S k) true values comma p eq
      (ctx [] (field_tokens (key, v) ++ rest) ps n)
    = after_field JSON base_origin pointer_text
        (fun values => object_loop JSON base_origin include include_file pointer_text (pv fuel) k true values true)
        true (values ++ [(key, v')]) (Some (One key)) false (ctx [] rest ps n')
    /\ shape_of v' = canonical (shape_of v).
Proof.
  intros Hv Hk. destruct (parse_field_rebuilds fuel key v values ps (S n) n rest Hv Hk) as (v' & n' & E & Hs).
  exists v', n'. split; [|done]. cbn [object_loop]. unfold se_bind at 1. cbn [field_tokens app fst snd].
  rewrite next_scalar. cbn [twc_token]. unfold field_or_include. simpl is_include_keyword. rewrite andb_false_r.
  unfold se_bind at 1. by rewrite E.
Qed.

Lemma object_loop_rebuilds fuel m : forall k kv values comma p eq ps n ts,
  rebuilds fuel kv.2 -> Forall (fun kv => rebuilds fuel kv.2) m -> (length m < k)%nat ->
  NoDup (values.*1 ++ kv.1 :: m.*1) ->
  exists vs n', object_loop JSON base_origin include include_file pointer_text (pv fuel) k true values comma p eq
      (ctx [] (field_tokens kv ++ concat (map (cons T_COMMA) (map field_tokens m)) ++ T_CLOSE_CURLY :: ts) ps n)
    = (Ok (values ++ vs), ctx [] ts ps n')
    /\ map (fun kv => (kv.1, shape_of kv.2)) vs = map (fun kv => (kv.1, canonical (shape_of kv.2))) (kv :: m).
Proof.
  induction m as [|kv2 m IH]; intros k [key v] values comma p eq ps n ts Hv Hm Hk Hnd;
    (destruct k as [|k]; [simpl in Hk; lia|]);
    (assert (Hkey : key ∉ values.*1) by (apply NoDup_app in Hnd as (_ & Hd & _); intros Hin; apply (Hd key Hin); left));
    match goal with |- context [ctx [] (field_tokens _ ++ ?rest)] =>
      destruct (object_step fuel k key v values comma p eq ps n rest Hv Hkey) as (v' & n1 & -> & Hs) end;
    unfold after_field, se_bind at 1.
  - simpl concat. rewrite app_nil_l, separator_none by auto. exists [(key, v')], n1.
    unfold se_bind at 1, close_object, se_bind at 1. rewrite next_held by done. simpl. by rewrite Hs.
  - inversion_clear Hm as [|? ? Hv2 Hm']. cbn [map concat app]. rewrite separator_comma, <- app_assoc.
    destruct (IH k kv2 (values ++ [(key, v')]) true (Some (One key)) false ps n1 ts Hv2 Hm') as (vs & n2 & E & Hvs).
    { simpl in Hk. lia. }
    { rewrite fmap_app, <- app_assoc. exact Hnd. }
    exists ((key, v') :: vs), n2. rewrite E, <- app_assoc. split; [done|]. simpl in *. by rewrite Hs, Hvs.
Qed.

Lemma parse_object_rebuilds fuel m ps n ts :
  Forall (fun kv => rebuilds fuel kv.2) m -> NoDup m.*1 ->
  exists vs n', parse_object JSON base_origin include include_file pointer_text (pv fuel) true
      (ctx [] (commas T_COMMA (map field_tokens m) ++ T_CLOSE_CURLY :: ts) ps n)
    = (Ok (SimpleConfigObject n' o1 vs false), ctx [] ts ps (S n'))
    /\ map (fun kv => (kv.1, shape_of kv.2)) vs = map (fun kv => (kv.1, canonical (shape_of kv.2))) m.
Proof.
  intros Hm Hnd. unfold parse_object. unfold se_bind at 1. rewrite line_origin_one. unfold se_bind at 1, Parser.fuelled.
  destruct m as [|kv m].
  - exists [], n. simpl app. cbn [object_loop]. unfold se_bind at 1. rewrite next_constant by done. cbn [twc_token].
    rewrite andb_false_r. cbn [negb]. unfold se_ret. by rewrite make_simple_object.
  - inversion_clear Hm as [|? ? Hv Hm']. cbn [map commas]. rewrite <- app_assoc.
    match goal with |- context [S (remaining ?s)] =>
      destruct (object_loop_rebuilds fuel m (S (remaining s)) kv [] false None false ps n ts Hv Hm') as (vs & n' & -> & Hvs) end.
    { unfold remaining. simpl. rewrite !length_app. clear. induction m as [|x m IH]; simpl in *; [lia|].
      rewrite length_app. lia. }
    { exact Hnd. }
    exists vs, n'. by rewrite app_nil_l, make_simple_object.
Qed.

(** ** All values *)

Lemma tokens_bound (l : list (list token)) x : x ∈ l -> (length x <= length (commas T_COMMA l))%nat.
Proof.
  destruct l as [|y l]; intros Hx; [by apply not_elem_of_nil in Hx|]. simpl. rewrite length_app.
  apply elem_of_cons in Hx as [->|Hx]; [lia|].
  induction l as [|z l IH]; [by apply not_elem_of_nil in Hx|]. simpl. rewrite length_app.
  apply elem_of_cons in Hx as [->|Hx]; [lia|]. specialize (IH Hx). lia.
Qed.

Lemma json_rebuilds v : jsonable v -> forall fuel, (length (json_tokens v) <= fuel)%nat -> rebuilds fuel v.
Proof.
  induction v as [a o x|a o l IH|a o m b IH|a o l IH|a o e k|a o l IH|a o l IH] using value_tree_ind;
    intros Hj fuel Hf; inversion Hj; subst; (destruct fuel as [|fuel]; [simpl in Hf; lia|]).
  - exists (ValueToken (canonical_scalar x) 1), []. split; [done|]. split; [done|]. intros ps n ts.
    exists (Scalar n o1 (canonical_scalar x)), (S n). split; [apply parse_scalar|done].
  - assert (Hl : Forall (rebuilds fuel) l).
    { rewrite Forall_forall in *. intros v Hv. apply IH; [done|auto|]. simpl in Hf. rewrite length_app in Hf.
      pose proof (tokens_bound (map json_tokens l) (json_tokens v)) as Hb. rewrite list_elem_of_fmap in Hb.
      specialize (Hb ltac:(eauto)). simpl in Hf. lia. }
    eexists T_OPEN_SQUARE, _. split; [done|]. split; [done|]. intros ps n ts. rewrite <- app_assoc.
    destruct (parse_array_rebuilds fuel l ps n ts Hl) as (vs & n' & E & Hvs).
    exists (SimpleConfigList n' o1 vs), (S n'). split; [|cbn [shape_of canonical]; by rewrite Hvs].
    eapply parse_opened; [by left|exact E].
  - assert (Hm : Forall (fun kv => rebuilds fuel kv.2) m).
    { change (json_tokens _) with (T_OPEN_CURLY :: commas T_COMMA (map field_tokens m) ++ [T_CLOSE_CURLY]) in Hf.
      cbn [length] in Hf. rewrite length_app in Hf. rewrite Forall_forall in *. intros kv Hkv. apply IH; [done|auto|].
      pose proof (tokens_bound (map field_tokens m) (field_tokens kv)) as Hb. rewrite list_elem_of_fmap in Hb.
      specialize (Hb ltac:(eauto)). change (length (field_tokens kv)) with (S (S (length (json_tokens kv.2)))) in Hb. lia. }
    eexists T_OPEN_CURLY, _. split; [done|]. split; [done|]. intros ps n ts. rewrite <- app_assoc.
    destruct (parse_object_rebuilds fuel m ps n ts Hm) as (vs & n' & E & Hvs); [done|].
    exists (SimpleConfigObject n' o1 vs false), (S n'). split; [|].
    + eapply parse_opened; [by right|exact E].
    + cbn [shape_of canonical]. rewrite Hvs, map_map. done.
Qed.

Lemma parse_rebuilds v n :
  jsonable v -> is_list v || is_object v = true ->
  exists v' n', parse_tokens JSON base_origin include include_file pointer_text (T_START :: json_tokens v ++ [T_END]) n = (Ok v', n')
    /\ shape_of v' = canonical (shape_of v).
Proof.
  intros Hj Hroot. set (fuel := value_fuel (initial_context (T_START :: json_tokens v ++ [T_END]) n)).
  destruct (json_rebuilds v Hj fuel) as (t & rest & Et & Hst & Hr).
  { unfold fuel, value_fuel, remaining. simpl. rewrite length_app. simpl. lia. }
  assert (Hopen : t = T_OPEN_CURLY \/ t = T_OPEN_SQUARE).
  { destruct Hj; simpl in Et, Hroot; try done; injection Et as <- _; auto. }
  destruct (Hr [] n [T_END]) as (v' & n' & E & Hs). exists v', n'. split; [|done].
  unfold parse_tokens, parse. unfold se_bind at 1, se_get. cbv beta iota zeta. fold fuel.
  change (initial_context ?ts n) with (ctx [] ts [] n). unfold se_bind at 1. rewrite next_constant by done. cbn [twc_token].
  rewrite Et. unfold se_bind at 1. simpl app. rewrite next_start by done. unfold se_bind at 1.
  destruct Hopen as [->| ->]; cbn [twc_token taken after] in *; rewrite E; unfold se_bind at 1;
    rewrite next_constant by done; done.
Qed.
End JsonRoundTrip.


(** ** A concrete value *)

#[local] Existing Instance whole_doubles.

Definition json_sample : value :=
  SimpleConfigObject 0 app_origin
    [(["034"%char; "092"%char; "010"%char], SimpleConfigList 1 app_origin
       [Scalar 2 app_origin (ConfigInt64 (-7) $"-07"); Scalar 3 app_origin ConfigNull; SimpleConfigList 4 app_origin []]);
     ([], Scalar 5 app_origin (ConfigString $"a: b"))] true.

