(* ===== verification/Resolve.v ===== *)
(** * config/src/detail/{resolve_context,resolve_source,resolve_memos,memo_key,resolve_replacer}.cpp
    and the [resolve_substitutions] of every value class

    Resolving the substitutions of a configuration.  A context carries the path a
    resolve is restricted to and the trace of the expressions being looked up; it
    is copied or restored around every use, so it is passed as an argument.  The
    source's table of replacements (what stands for a value while that value is
    being resolved) and the memos are shared and mutable: they are the state, with
    the next free address.  Both tables are keyed by pointers, here addresses.

    The methods call each other through [ResolveContext::resolve]; they are written
    over that call, and the recursion is tied with fuel. *)

From S2P Require Import Prelude CLib Token Path Origin Value ValueEdit Render.

Open Scope Z_scope.

(** ** ConfigResolveOptions *)

Record ConfigResolveOptions := mkResolveOptions { use_system_environment : bool }.
Definition defaults : ConfigResolveOptions := mkResolveOptions true.
Definition no_system : ConfigResolveOptions := mkResolveOptions false.
Definition set_use_system_environment (_ : ConfigResolveOptions) (value : bool) : ConfigResolveOptions :=
  mkResolveOptions value.

Section Resolve.
Context `{DoubleLib}.

(** ** Data *)

(** [ResolveReplacerCycle], or the rest of a merge stack, with the replacement once
    it has been made. *)
Inductive ResolveReplacer :=
| Cycle
| Remainder (stack : list value) (skipping : nat) (replacement_ : option value).

(** [MemoKey]: two keys are equal when the values are the same object and the
    paths are equal. *)
Abbreviation MemoKey := (nat * option Path)%type.

Record ResolveState := mkState {
  next_address : nat;
  replacements : gmap nat ResolveReplacer;
  memos : list (MemoKey * option value) }.

Definition with_address (n : nat) (s : ResolveState) : ResolveState := mkState n (replacements s) (memos s).
Definition with_replacements (r : gmap nat ResolveReplacer) (s : ResolveState) : ResolveState :=
  mkState (next_address s) r (memos s).

Inductive resolve_exn :=
| NotPossibleToResolve (trace_string : str)
| UnresolvedSubstitution (origin : SimpleConfigOrigin) (detail : str)
| ValueError (e : value_exn)
| OutOfFuel.

Abbreviation R A := (SE ResolveState resolve_exn A).

(** What was allocated before an exception is released. *)
Definition lift_value {A} (m : M A) : R A := fun s =>
  match m (next_address s) with
  | (Ok a, n) => (Ok a, with_address n s)
  | (Err e, _) => (Err (ValueError e), s)
  end.
Definition lift_res {A} (r : res value_exn A) : R A :=
  match r with Ok a => se_ret a | Err e => se_throw (ValueError e) end.
Definition bug {A} (what : str) : R A := se_throw (ValueError (Bug what)).

(** The saved exception of the source: [cleanup] runs in either case, then the
    exception goes on. *)
Definition finally {A} (m : R A) (cleanup : R unit) : R A := fun s =>
  let '(r, s') := m s in
  match cleanup s' with
  | (Ok _, s'') => (r, s'')
  | (Err e, s'') => (Err e, s'')
  end.

(** ** ResolveContext *)

Record ResolveContext := mkContext {
  restrict_to_child : option Path;
  expression_trace : list SubstitutionExpression }.

Definition restrict (c : ResolveContext) (restrict_to : option Path) : ResolveContext :=
  mkContext restrict_to (expression_trace c).
Definition unrestricted (c : ResolveContext) : ResolveContext := restrict c None.
Definition trace (c : ResolveContext) (e : SubstitutionExpression) : ResolveContext :=
  mkContext (restrict_to_child c) (expression_trace c ++ [e]).

(** Every expression followed by a separator, less the last separator. *)
Definition trace_string (c : ResolveContext) : str :=
  let separator := $", " in
  let trace := concat (map (fun e => substitution_to_string e ++ separator) (expression_trace c)) in
  take (length trace - length separator) trace.

(** ** ResolveMemos *)

Fixpoint memo_find (k : MemoKey) (m : list (MemoKey * option value)) : option value :=
  match m with
  | [] => None
  | (k', v) :: m' => if bool_decide (k' = k) then v else memo_find k m'
  end.

(** Null for a key that is not there, and for one that holds null. *)
Definition memo_get (k : MemoKey) : R (option value) := let* s := se_get in se_ret (memo_find k (memos s)).
Definition memo_put (k : MemoKey) (v : option value) : R unit :=
  se_modify (fun s => mkState (next_address s) (replacements s) ((k, v) :: memos s)).

(** ** ResolveSource: the replacements *)

Definition replace (v : value) (r : ResolveReplacer) : R unit :=
  let* s := se_get in
  match replacements s !! addr_of v with
  | Some _ => bug $"should not have replaced the same value twice"
  | None => se_put (with_replacements (<[addr_of v := r]> (replacements s)) s)
  end.

Definition unreplace (v : value) : R unit :=
  let* s := se_get in
  match replacements s !! addr_of v with
  | None => bug $"unreplace() without replace()"
  | Some _ => se_put (with_replacements (delete (addr_of v) (replacements s)) s)
  end.

(** [ConfigDelayedMerge::make_replacement]: the values merged one by one. *)
Fixpoint merge_down (merged : value) (l : list value) : M value :=
  match l with
  | [] => se_ret merged
  | v :: l' => let* merged := with_fallback merged v in merge_down merged l'
  end.

Definition make_replacement (c : ResolveContext) (stack : list value) (skipping : nat) : R value :=
  match drop skipping stack with
  | [] => se_throw (NotPossibleToResolve (trace_string c))
  | v :: l => lift_value (merge_down v l)
  end.

(** [ResolveSource::replacement] and [ResolveReplacer::replace]. *)
Definition replacement (c : ResolveContext) (v : value) : R value :=
  let* s := se_get in
  match replacements s !! addr_of v with
  | None => se_ret v
  | Some Cycle => se_throw (NotPossibleToResolve (trace_string c))
  | Some (Remainder _ _ (Some r)) => se_ret r
  | Some (Remainder stack skipping None) =>
      let* r := make_replacement c stack skipping in
      se_modify (fun s => with_replacements (<[addr_of v := Remainder stack skipping (Some r)]> (replacements s)) s) ;;*
      se_ret r
  end.

(** ** The environment *)

(** [boost::split] at every separator. *)
Fixpoint split_at (sep : ascii) (s : str) : list str :=
  match s with
  | [] => [[]]
  | c :: s' =>
      if Ascii.eqb c sep then [] :: split_at sep s'
      else match split_at sep s' with [] => [[c]] | w :: ws => (c :: w) :: ws end
  end.

Variable environ : list str.

Fixpoint string_put (k v : str) (m : list (str * str)) : list (str * str) :=
  match m with
  | [] => [(k, v)]
  | (k', w) :: m' => if bool_decide (k' = k) then (k, v) :: m' else (k', w) :: string_put k v m'
  end.

(** [ConfigImpl::load_env_variables]: only pairs with one equals sign. *)
Definition load_env_variables : list (str * str) :=
  fold_left (fun env s => match split_at "="%char s with [k; v] => string_put k v env | _ => env end) environ [].

Definition env_variables_as_config_object : M value :=
  let* m := mapM (fun kv : str * str =>
    let* o := lift_origin (new_simple ($"env var " ++ kv.1)) in
    let* v := new (fun a => Scalar a o (ConfigString kv.2)) in
    se_ret (kv.1, v)) load_env_variables in
  let* o := lift_origin (new_simple $"env variables") in
  make_object o m true false.

(** ** What resolving calls *)

Variable root : value.
Variable options : ConfigResolveOptions.

Section Step.
Variable resolve : ResolveContext -> value -> R (option value).

(** [AbstractConfigObject::peek_path] with a context ([find_in_object]): what lies
    on the path is resolved first, the value at its end is not. *)
Definition peek_path (self : value) (path : Path) (c : ResolveContext) : R (option value) :=
  let* partially_resolved := resolve (restrict c (Some path)) self in
  match partially_resolved with
  | None => lift_res (Err Undefined)
  | Some p =>
      if is_object p then lift_res (peek_value p path) else bug $"resolved object to non-object"
  end.

Definition resolve_found (c : ResolveContext) (result : option value) : R (option value) :=
  match result with Some v => resolve c v | None => se_ret None end.

Definition lookup_unprefixed (c : ResolveContext) (unprefixed : SubstitutionExpression) (prefix_length : Z)
    : R (option value) :=
  let* result := if 0 <? prefix_length then peek_path root (path_ unprefixed) c else se_ret None in
  match result with
  | Some v => se_ret (Some v)
  | None =>
      if use_system_environment options then
        let* env := lift_value env_variables_as_config_object in peek_path env (path_ unprefixed) c
      else se_ret None
  end.

(** [ResolveSource::lookup_subst]: the full path, then the path without the prefix
    of the including file, then the environment.  A path not longer than its
    prefix leaves a null path. *)
Definition lookup_subst (c : ResolveContext) (subst : SubstitutionExpression) (prefix_length : Z) : R (option value) :=
  let* result := peek_path root (path_ subst) (trace c subst) in
  match result with
  | Some v => resolve (trace c subst) v
  | None =>
      match sub_path_from (Z.to_nat prefix_length) (Some (path_ subst)) with
      | None => lift_res (Err (BadPtr NullPath))
      | Some p =>
          let unprefixed := change_path subst p in
          let* result := lookup_unprefixed (trace c unprefixed) unprefixed prefix_length in
          resolve_found (trace c unprefixed) result
      end
  end.

(** ** resolve_substitutions *)

(** A substitution that is part of a cycle is as good as undefined. *)
Definition catch_not_possible (o : SimpleConfigOrigin) (expr : SubstitutionExpression) (m : R (option value))
    : R (option value) := fun s =>
  match m s with
  | (Err (NotPossibleToResolve t), s') =>
      if optional_ expr then (Ok None, s')
      else (Err (UnresolvedSubstitution o
                   (substitution_to_string expr ++ $" was part of a cycle of substitutions involving " ++ t)), s')
  | r => r
  end.

(** [ConfigReference::resolve_substitutions]. *)
Definition resolve_reference (self : value) (o : SimpleConfigOrigin) (expr : SubstitutionExpression)
    (prefix_length : Z) (c : ResolveContext) : R (option value) :=
  replace self Cycle ;;*
  finally
    (let* v := catch_not_possible o expr (lookup_subst c expr prefix_length) in
     match v with
     | Some _ => se_ret v
     | None => if optional_ expr then se_ret None
               else se_throw (UnresolvedSubstitution o (substitution_to_string expr))
     end)
    (unreplace self).

(** The loop of [ConfigDelayedMerge::resolve_substitutions]. *)
Fixpoint resolve_layers (self : value) (stack : list value) (count : nat) (l : list value)
    (merged : option value) (c : ResolveContext) : R (option value) :=
  match l with
  | [] => se_ret merged
  | v :: l' =>
      if is_delayed v then bug $"_a delayed merge should not contain another one"
      else
        let* resolved :=
          (if is_unmergeable v then
             replace self (Remainder stack (S count) None) ;;* finally (resolve c v) (unreplace self)
           else resolve c v) in
        let* merged :=
          match resolved, merged with
          | None, _ => se_ret merged
          | Some r, None => se_ret (Some r)
          | Some r, Some m => let* m := lift_value (with_fallback m r) in se_ret (Some m)
          end in
        resolve_layers self stack (S count) l' merged c
  end.

Section Children.
Context {A B : Type} (f : A -> R B).
Fixpoint mapR (l : list A) : R (list B) :=
  match l with
  | [] => se_ret []
  | x :: l' => let* y := f x in let* ys := mapR l' in se_ret (y :: ys)
  end.
End Children.

(** [modified != v]: another object, or null. *)
Definition same_value (v : value) (modified : option value) : bool :=
  match modified with Some w => bool_decide (addr_of v = addr_of w) | None => false end.

(** [SimpleConfigList::modify_may_throw]: elements that became null are dropped. *)
Definition list_modified (self : value) (o : SimpleConfigOrigin) (l : list value) (new : list (option value)) : R value :=
  if forallb (fun p => same_value p.1 p.2) (combine l new) then se_ret self
  else lift_value (make_list o (omap id new) true).

(** [SimpleConfigObject::modify_may_throw]. *)
Definition keep_entry (e : str * option value) : option (str * value) := v ← e.2; Some (e.1, v).

Definition object_modified (self : value) (o : SimpleConfigOrigin) (m : list (str * value))
    (new : list (str * option value)) (b : bool) : R value :=
  if forallb (fun p => same_value p.1.2 p.2.2) (combine m new) then se_ret self
  else
    let modified := omap keep_entry new in
    lift_value (make_object o modified (from_map modified) b).

(** [SimpleConfigObjectModifier::modify_child_may_throw]. *)
Definition resolve_child (c : ResolveContext) (key : str) (v : value) : R (option value) :=
  match restrict_to_child c with
  | Some path =>
      if bool_decide (key = first path) then
        match remainder path with
        | Some rest => resolve (restrict c (Some rest)) v
        | None => se_ret (Some v)
        end
      else se_ret (Some v)
  | None => resolve (unrestricted c) v
  end.

Definition resolve_concatenation (pieces : list value) (c : ResolveContext) : R (option value) :=
  let* resolved := mapR (resolve (unrestricted c)) pieces in
  let* joined := lift_value (consolidate (omap id resolved)) in
  match joined with
  | [v] => se_ret (Some v)
  | _ => bug $"_resolved list should always join to exactly one value"
  end.

Definition resolve_substitutions (self : value) (c : ResolveContext) : R (option value) :=
  match self with
  | Scalar _ _ _ => se_ret (Some self)
  | SimpleConfigList _ o l =>
      if is_resolved self then se_ret (Some self)
      else match restrict_to_child c with
           | Some _ => se_ret (Some self)
           | None => let* new := mapR (resolve c) l in
                     let* v := list_modified self o l new in se_ret (Some v)
           end
  | SimpleConfigObject _ o m b =>
      if is_resolved self then se_ret (Some self)
      else
        let* new := mapR (fun kv => let* w := resolve_child c kv.1 kv.2 in se_ret (kv.1, w)) m in
        let* v := object_modified self o m new b in se_ret (Some v)
  | ConfigConcatenation _ _ pieces => resolve_concatenation pieces c
  | ConfigReference _ o e n => resolve_reference self o e n c
  | ConfigDelayedMerge _ _ stack => resolve_layers self stack 0 stack None c
  | ConfigDelayedMergeObject _ _ stack =>
      let* merged := resolve_layers self stack 0 stack None c in
      match merged with
      | Some v => if is_object v then se_ret (Some v)
                  else bug $"somehow brokenly merged an object and didn't get an object"
      | None => lift_res (Err Undefined)
      end
  end.

(** [ResolveSource::resolve_checking_replacement]. *)
Definition resolve_checking_replacement (c : ResolveContext) (original : value) : R (option value) :=
  let* r := replacement c original in
  if bool_decide (addr_of r = addr_of original) then resolve_substitutions original c
  else resolve c r.

(** [ResolveContext::resolve]. *)
Definition find_memo (c : ResolveContext) (original : value) : R (option value) :=
  let* cached := memo_get (addr_of original, None) in
  match cached, restrict_to_child c with
  | None, Some path => memo_get (addr_of original, Some path)
  | _, _ => se_ret cached
  end.

Definition resolved_or_null (v : option value) : bool := match v with Some v => is_resolved v | None => true end.

Definition put_memo (c : ResolveContext) (original : value) (resolved : option value) : R unit :=
  if resolved_or_null resolved then memo_put (addr_of original, None) resolved
  else match restrict_to_child c with
       | Some path => memo_put (addr_of original, Some path) resolved
       | None => bug $"resolve_substitutions() did not give us a resolved object"
       end.

Definition resolve_step (c : ResolveContext) (original : value) : R (option value) :=
  let* cached := find_memo c original in
  match cached with
  | Some v => se_ret (Some v)
  | None =>
      let* resolved := resolve_checking_replacement c original in
      put_memo c original resolved ;;*
      se_ret resolved
  end.
End Step.

Fixpoint resolve (fuel : nat) (c : ResolveContext) (original : value) : R (option value) :=
  match fuel with
  | O => se_throw OutOfFuel
  | S fuel' => resolve_step (resolve fuel') c original
  end.

(** The static [ResolveContext::resolve]; the restriction it is given is not used. *)
Definition resolve_value (fuel : nat) (v : value) : R (option value) := fun s =>
  match resolve fuel (mkContext None []) v s with
  | (Err (NotPossibleToResolve _), s') =>
      (Err (ValueError (Bug $"NotPossibleToResolve was thrown from an outermost resolve")), s')
  | r => r
  end.
End Resolve.

Abbreviation MemoKey := (nat * option Path)%type.
Abbreviation R A := (SE ResolveState resolve_exn A).

(** [SimpleConfig::resolve(options)] of the configuration with this root, with
    fresh tables. *)
Definition resolve_config `{DoubleLib} (environ : list str) (options : ConfigResolveOptions) (fuel : nat) (object : value)
    (n : nat) : res resolve_exn (option value) :=
  (resolve_value environ object options fuel object (mkState n ∅ [])).1.
