(* ===== verification/ResolveParts.v ===== *)
(** * Resolving: what it is made of

    Values as a restricted resolve leaves them ([ripe]): the lookup without a
    context cannot fail on them, and merging preserves it.  Joining resolved
    values.  The size of what replaces a merge stack. *)

From S2P Require Import Prelude CLib Token Path Origin Value ValueMerge ValueEdit ValueConcat ValueHeap Resolve.

Open Scope Z_scope.

Section ResolveParts.
Context `{DoubleLib}.

(** ** Ripe shapes *)

(** No substitution at the top; a merge that is still delayed is so because of a
    list, and has no substitution among its layers. *)
Definition top_ripe (h : shape) : Prop :=
  match h with
  | HScalar _ | HList _ | HObject _ _ => True
  | HDelayed _ l => existsb open_shape l = false /\ existsb (fun x => negb (object_shape x)) l = true
  | HConcat _ | HRef _ _ => False
  end.

(** Ripe along a path: what a lookup of the path goes through is ripe. *)
Fixpoint ripe (p : Path) (h : shape) : Prop :=
  top_ripe h /\
  match p with
  | One _ => True
  | More k next => forall m b x, HObject m b ∈ layers h -> lookup_key k m = Some x -> ripe next x
  end.

Lemma ripe_top p h : ripe p h -> top_ripe h.
Proof. by destruct p; intros []. Qed.

Lemma settled_lookup k m x : forallb (fun kv => settled kv.2) m = true -> lookup_key k m = Some x -> settled x = true.
Proof.
  induction m as [|[k' v] m IH]; [done|]. simpl. intros [Hv Hm]%andb_true_iff. case_bool_decide; [by intros [= <-]|auto].
Qed.

Lemma settled_ripe p : forall h, settled h = true -> ripe p h.
Proof.
  induction p as [k|k next IH]; intros h Hs; (split; [by destruct h|]); [done|].
  intros m b x Hm Hx. apply IH. destruct h; simpl in Hm; try done; apply list_elem_of_singleton in Hm; try done.
  injection Hm as -> ->. by eapply settled_lookup.
Qed.

Lemma ripe_layers h : top_ripe h -> existsb open_shape (layers h) = false.
Proof. destruct h; simpl; try done. by intros []. Qed.

Lemma merge_top_ripe a b : top_ripe a -> top_ripe b -> top_ripe (merge a b).
Proof.
  intros Ha Hb. destruct (final a) eqn:Hf; [by rewrite merge_final|].
  pose proof (ripe_layers a Ha) as La. pose proof (ripe_layers b Hb) as Lb.
  destruct (open_shape b) eqn:Ho.
  { rewrite merge_open by done. simpl. rewrite !existsb_app, La, Lb. split; [done|]. apply orb_true_iff. right.
    destruct b; try done. by destruct Hb. }
  assert (Hdelay : (forall m x, a <> HObject m x) -> top_ripe (merge a b)).
  { intros Hne. rewrite merge_delay by done. simpl. rewrite !existsb_app, La. simpl. rewrite Ho. split; [done|].
    apply orb_true_iff. left. destruct a; try done; [by destruct (Hne m ignores)|by destruct Ha]. }
  destruct a as [| |m f| | |]; try (by apply Hdelay). simpl in Hf. subst f. destruct (object_shape b) eqn:Eb.
  - by destruct b.
  - rewrite merge_hidden by done. case_match; [done|]. simpl. by rewrite Ho, Eb.
Qed.

Lemma merge_layers m f a b :
  HObject m f ∈ layers (merge a b) ->
  (exists f', HObject m f' ∈ layers a) \/ (exists f', HObject m f' ∈ layers b)
  \/ exists ma mb fa fb, a = HObject ma fa /\ b = HObject mb fb /\ m = over merge mb ma ++ only_in ma mb.
Proof.
  destruct (final a) eqn:Hf; [rewrite merge_final by done; eauto|].
  destruct (open_shape b) eqn:Ho; [rewrite merge_open by done; simpl; rewrite elem_of_app; naive_solver|].
  assert (Hdelay : (forall m x, a <> HObject m x) -> HObject m f ∈ layers (merge a b) ->
    (exists f', HObject m f' ∈ layers a) \/ (exists f', HObject m f' ∈ layers b)).
  { intros Hne. rewrite merge_delay by done. simpl. rewrite elem_of_app, list_elem_of_singleton.
    intros [Hl| <-]; [eauto|]. right. exists f. simpl. by apply list_elem_of_singleton. }
  destruct a as [| |ma fa| | |]; try (intros Hl; destruct Hdelay; [done|done|auto|auto]).
  simpl in Hf. subst fa. destruct (object_shape b) eqn:Eb.
  - destruct b as [| |mb g| | |]; try done. rewrite merge_objects. simpl.
    intros [= -> ->]%list_elem_of_singleton. right. right. by exists ma, mb, false, g.
  - rewrite merge_hidden by done. case_match; simpl; intros Hl; left; exists false; apply list_elem_of_singleton.
    + apply list_elem_of_singleton in Hl. by injection Hl as -> ->.
    + apply elem_of_cons in Hl as [Hl|Hl%list_elem_of_singleton]; [by injection Hl as -> ->|by subst b].
Qed.

Lemma merge_ripe p : forall a b, ripe p a -> ripe p b -> ripe p (merge a b).
Proof.
  induction p as [k|k next IH]; intros a b [Ha Ca] [Hb Cb]; (split; [by apply merge_top_ripe|]); [done|].
  intros m f x Hm Hx. destruct (merge_layers m f a b Hm) as [[f' Hl]|[[f' Hl]|(ma & mb & fa & fb & -> & -> & ->)]].
  - by eapply Ca. - by eapply Cb.
  - rewrite lookup_app, lookup_over, lookup_only_in in Hx.
    assert (Hone : forall m f, HObject m f ∈ layers (HObject m f)) by (intros; by apply list_elem_of_singleton).
    destruct (lookup_key k ma) as [y|] eqn:Ea; simpl in Hx; [|by eapply Cb].
    destruct (lookup_key k mb) as [z|] eqn:Eb; injection Hx as <-; [|by eapply Ca].
    apply IH; [by eapply Ca|by eapply Cb].
Qed.

Lemma merge_object_shape a b : object_shape a = true -> object_shape (merge a b) = true.
Proof.
  intros Ha. destruct (final a) eqn:Hf; [by rewrite merge_final|].
  destruct (open_shape b) eqn:Ho; [rewrite merge_open by done; simpl; by rewrite Ha|].
  destruct a as [| |m f| | |[] l]; try done; [|by rewrite merge_delay by done].
  simpl in Hf. subst f. destruct (object_shape b) eqn:Eb; [by destruct b as [| | | | |[]]|].
  rewrite merge_hidden by done. by case_match.
Qed.

(** ** Lookup in ripe values *)

(** A value that a lookup found in a layer of [v]. *)
Definition found_in (k : str) (v w : value) : Prop :=
  exists a o m b, SimpleConfigObject a o m b ∈ unmerged_values v /\ map_find k m = Some w.

Lemma open_layers l : existsb open_shape (map shape_of l) = existsb is_unmergeable l.
Proof. induction l as [|x l IH]; [done|]. simpl. by rewrite shape_open, IH. Qed.

Lemma plain_layers l : existsb (fun x => negb (object_shape x)) (map shape_of l) = existsb (fun x => negb (is_object x)) l.
Proof. induction l as [|x l IH]; [done|]. simpl. by rewrite shape_object, IH. Qed.

Lemma attempt_peek_ripe n v k :
  wf n v -> is_object v = true -> top_ripe (shape_of v) ->
  exists r, attempt_peek v k = Ok r /\ forall w, r = Some w -> found_in k v w.
Proof.
  intros Hv Ho Hr. destruct v as [| |a o m b| | | |a o stack]; try done.
  { exists (map_find k m). split; [done|]. intros w Hw. exists a, o, m, b. split; [by apply list_elem_of_singleton|done]. }
  simpl in Hr. rewrite open_layers, plain_layers in Hr. destruct Hr as [Hu Hp]. clear Hv Ho. cbn [attempt_peek].
  unfold found_in. cbn [unmerged_values]. induction stack as [|x l IH]; [done|]. simpl in Hu, Hp.
  apply orb_false_iff in Hu as [Hux Hul]. destruct (is_object x) eqn:Eo.
  - destruct x as [| |a' o' m' b'| | | |]; try done. cbn [attempt_peek mbind]. simpl in Hp.
    destruct (IH Hul Hp) as (r & E & Hr). simpl. destruct (map_find k m') as [w|] eqn:Ef.
    + destruct (ignores_fallbacks w).
      * exists (Some w). split; [done|]. intros ? [= <-]. exists a', o', m', b'. split; [by left|done].
      * exists r. split; [done|]. intros w' Hw'. destruct (Hr w' Hw') as (? & ? & ? & ? & ? & ?).
        do 4 eexists. split; [by right|done].
    + simpl. exists r. split; [done|]. intros w' Hw'. destruct (Hr w' Hw') as (? & ? & ? & ? & ? & ?).
      do 4 eexists. split; [by right|done].
  - rewrite Hux. exists None. split; [|done]. destruct x; try done. simpl. by destruct (from_values _) eqn:E; unfold from_values in E; rewrite E.
Qed.

Variable subst_ok : nat -> SubstitutionExpression -> Z -> Prop.
Abbreviation good := (good subst_ok).

Lemma found_good n g k v w : good n g v -> found_in k v w -> good n g w.
Proof.
  intros Hv (a & o & m & b & Hl & Hw). eapply good_child; [|by eapply entry_child].
  pose proof (unmerged_good _ _ _ _ Hv) as Hu. rewrite Forall_forall in Hu. exact (Hu _ Hl).
Qed.

Lemma found_ripe k next v w : ripe (More k next) (shape_of v) -> found_in k v w -> ripe next (shape_of w).
Proof.
  intros [_ Hc] (a & o & m & b & Hl & Hw). eapply Hc with (m := shapes m).
  - rewrite shape_layers. apply list_elem_of_In, in_map_iff. exists (SimpleConfigObject a o m b).
    split; [done|]. by apply list_elem_of_In.
  - by rewrite shape_find, Hw.
Qed.

Lemma peek_ripe n g p : forall v, good n g v -> is_object v = true -> ripe p (shape_of v) ->
  exists r, peek_value v p = Ok r /\ forall w, r = Some w -> good n g w.
Proof.
  induction p as [k|k next IH]; intros v Hv Ho Hr;
    (destruct (attempt_peek_ripe n v k) as (r & E & Hf); [apply Hv|done|by eapply ripe_top|]);
    cbn [peek_value]; rewrite E.
  - exists r. split; [done|]. intros w Hw. eapply found_good; [exact Hv|]. by apply Hf.
  - simpl. destruct r as [w|]; [|by exists None]. destruct (is_object w) eqn:Ew; [|by exists None].
    apply IH; [by eapply found_good; [|apply Hf]|done|]. eapply found_ripe; [exact Hr|by apply Hf].
Qed.

(** ** Joining resolved values *)

Lemma resolved_solid n g v : good n g v -> is_resolved v = true -> solid true n v.
Proof. intros [Hv _] Hr. apply solid_intro; [done| |by destruct v]. split; [by destruct v|done]. Qed.

(** One resolved value, in an extended heap. *)
Definition resolved_in (n : nat) (g : nat -> value) (v : value) (n' : nat) : Prop :=
  exists g', (n <= n')%nat /\ agree n g g' /\ good n' g' v /\ is_resolved v = true.

Lemma resolved_list n g v : good n g v -> is_resolved v = true -> forall a o l, v = SimpleConfigList a o l ->
  Forall (good n g) l /\ forallb is_resolved l = true.
Proof. intros Hv Hr a o l ->. split; [|done]. by apply good_children in Hv. Qed.

Lemma join_two_resolved n g x y :
  good n g x -> good n g y -> is_resolved x = true -> is_resolved y = true ->
  match join_two x y n with
  | (Ok r, n') => exists v, r = Some v /\ resolved_in n g v n'
  | (Err e, _) => e = CannotJoin
  end.
Proof.
  intros Hx Hy Rx Ry. pose proof (join_two_ok true n x y) as Hj. unfold vout in Hj.
  specialize (Hj (resolved_solid _ _ _ Hx Rx) (resolved_solid _ _ _ Hy Ry)).
  destruct (join_two x y n) as [[r|e] n'] eqn:E; [|done]. destruct Hj as [Hn Hj]. destruct r as [v|].
  2: { simpl in Hj. by destruct x, y. }
  exists v. split; [done|]. destruct Hj as [[[Hwf _ _] _] _].
  enough (exists g', agree n g g' /\ every (stored subst_ok g') v /\ is_resolved v = true) as (g' & ? & ? & ?) by (by exists g').
  unfold join_two in E. destruct (is_object x && is_object y) eqn:Eo.
  { destruct (fallback_good subst_ok n g y x Hy Hx) as (w & n1 & g1 & Ew & _ & Hg1 & Hw & Hs). unfold se_bind in E.
    rewrite Ew in E. injection E as <- <-. exists g1. split_and!; [done|apply Hw|].
    rewrite <- shape_settled, Hs. apply settled_merge; by rewrite shape_settled. }
  assert (Hothers : join_others x y n = (Ok (Some v), n') ->
    exists g', agree n g g' /\ every (stored subst_ok g') v /\ is_resolved v = true).
  { unfold join_others. assert (is_concatenation x || is_concatenation y = false) as -> by (by destruct x, y).
    assert (is_unmergeable x || is_unmergeable y = false) as -> by (by destruct x, y).
    destruct (bool_decide _ || bool_decide _); [discriminate|]. unfold se_bind.
    destruct (merge_two _ _) as [o|]; [|discriminate]. intros [= <- <-].
    eexists. split; [apply store_agree|]. split; [by apply store_every|done]. }
  destruct x as [|a o l| | | | |]; try (by apply Hothers). destruct y as [|b p k| | | | |]; try (by apply Hothers).
  unfold concatenate_lists, simple_list, make_list, se_bind in E. destruct (merge_two _ _) as [q|]; [|done]. cbn [lift_origin se_ret] in E.
  rewrite eqb_refl_neg in E. injection E as <- <-. eexists. split; [apply store_agree|]. split.
  - apply store_every; [done|done|]. apply Forall_app. split; [by eapply resolved_list in Hx as [? _]|by eapply resolved_list in Hy as [? _]].
  - simpl. rewrite forallb_app. by apply andb_true_iff.
Qed.

Lemma join_loop_resolved pieces : forall n g x,
  good n g x -> is_resolved x = true -> Forall (fun v => good n g v /\ is_resolved v = true) pieces ->
  match join_loop [x] pieces n with
  | (Ok l, n') => exists v, l = [v] /\ resolved_in n g v n'
  | (Err e, _) => e = CannotJoin
  end.
Proof.
  induction pieces as [|y pieces IH]; intros n g x Hx Rx Hp; cbn [join_loop].
  { exists x. split; [done|]. exists g. by split_and!. }
  apply Forall_cons in Hp as [[Hy Ry] Hp]. pose proof (join_two_resolved n g x y Hx Hy Rx Ry) as Hj. unfold se_bind.
  destruct (join_two x y n) as [[r|e] n']; [|done]. destruct Hj as (v & -> & g' & Hn & Hg & Hv & Rv).
  specialize (IH n' g' v Hv Rv). destruct (join_loop [v] pieces n') as [[l|e] n2].
  - destruct IH as (w & -> & g2 & Hn2 & Hg2 & Hw & Rw).
    { eapply Forall_impl; [exact Hp|]. intros u [Hu Ru]. split; [by apply good_mono with n g|done]. }
    exists w. split; [done|]. exists g2. split_and!; [lia|by apply agree_trans with n' g'|done|done].
  - apply IH. eapply Forall_impl; [exact Hp|]. intros u [Hu Ru]. split; [by apply good_mono with n g|done].
Qed.

Lemma flatten_resolved n g l : Forall (fun v => good n g v /\ is_resolved v = true) l -> flatten l = l.
Proof. unfold flatten. induction 1 as [|v l [_ Hv] _ IH]; [done|]. simpl. rewrite IH. by destruct v. Qed.

Lemma consolidate_resolved n g l :
  Forall (fun v => good n g v /\ is_resolved v = true) l ->
  match consolidate l n with
  | (Ok [v], n') => resolved_in n g v n'
  | (Ok r, n') => r = [] /\ l = [] /\ n' = n
  | (Err e, _) => e = CannotJoin
  end.
Proof.
  intros Hl. unfold consolidate. destruct l as [|x [|y l]].
  - done.
  - apply Forall_singleton in Hl as [Hx Rx]. simpl. exists g. by split_and!.
  - rewrite bool_decide_false by (simpl; lia). rewrite (flatten_resolved n g) by done.
    apply Forall_cons in Hl as [[Hx Rx] Hl]. pose proof (join_loop_resolved (y :: l) n g x Hx Rx Hl) as Hj.
    change (join_loop [] (x :: y :: l)) with (join_loop [x] (y :: l)).
    destruct (join_loop [x] (y :: l) n) as [[r|e] n']; [|done]. by destruct Hj as (v & -> & Hv).
Qed.

(** ** What replaces a merge stack *)

Lemma merge_down_good l : forall n g v, good n g v -> Forall (good n g) l ->
  exists r n' g', merge_down v l n = (Ok r, n') /\ (n <= n')%nat /\ agree n g g' /\ good n' g' r
    /\ (weight (shape_of r) <= weight (shape_of v) + list_sum (map size_of l))%nat.
Proof.
  induction l as [|x l IH]; intros n g v Hv Hl.
  { exists v, n, g. split_and!; try done. simpl. lia. }
  apply Forall_cons in Hl as [Hx Hl]. cbn [merge_down]. unfold se_bind.
  destruct (fallback_good subst_ok n g v x Hv Hx) as (w & n1 & g1 & -> & Hn1 & Hg1 & Hw & Hs).
  destruct (IH n1 g1 w Hw) as (r & n2 & g2 & -> & Hn2 & Hg2 & Hr & Hwt); [by apply goods_mono with n g|].
  exists r, n2, g2. split_and!; [done|lia|by apply agree_trans with n1 g1|done|]. rewrite Hs in Hwt.
  pose proof (merge_weight (shape_of v) (wf_distinct _ _ (proj1 Hv)) (shape_of x)) as Hm.
  pose proof (weight_bounds (shape_of x)). unfold size_of in *. simpl. lia.
Qed.

Lemma rest_size (stack rest : list value) v skip :
  (1 <= skip)%nat -> drop skip stack = v :: rest ->
  (S (size_of v + list_sum (map size_of rest)) < S (list_sum (map size_of stack)))%nat.
Proof.
  intros Hs E. rewrite <- (take_drop skip stack) at 1. rewrite E, map_app, list_sum_app. simpl.
  destruct skip as [|skip]; [lia|]. destruct stack as [|x stack]; [done|]. simpl.
  pose proof (hsize_pos (shape_of x)). unfold size_of at 3. lia.
Qed.

(** ** The environment *)

Lemma string_put_keys k v m : NoDup m.*1 -> NoDup (string_put k v m).*1.
Proof.
  assert (Hin : forall m, (string_put k v m).*1 ⊆ k :: m.*1).
  { induction m0 as [|[k' w] m' IH]; [done|]. simpl. case_bool_decide; [set_solver|]. simpl. set_solver. }
  induction m as [|[k' w] m IH]; simpl; [by intros; apply NoDup_singleton|]. intros [Hk Hm]%NoDup_cons. case_bool_decide as E.
  - subst. by apply NoDup_cons.
  - simpl. apply NoDup_cons. split; [|by apply IH]. intros Hk'%Hin. apply elem_of_cons in Hk' as [?|?]; [by subst|done].
Qed.

Lemma env_keys environ : NoDup (load_env_variables environ).*1.
Proof.
  unfold load_env_variables. assert (Hg : forall l m, NoDup m.*1 -> NoDup
    (fold_left (fun env s => match split_at "="%char s with [k; v] => string_put k v env | _ => env end) l m).*1).
  { induction l as [|s l IH]; intros m Hm; [done|]. simpl. apply IH.
    destruct (split_at _ s) as [|k [|v [|]]]; try done. by apply string_put_keys. }
  apply Hg. constructor.
Qed.

Lemma env_origin_good k : exists o, new_simple ($"env var " ++ k) = Ok o /\ good_origin o.
Proof.
  eexists. split; [reflexivity|]. apply (good_by_char "v"%char); [|by apply (bool_decide_unpack _)].
  apply elem_of_app. left. by apply (bool_decide_unpack _).
Qed.

Definition env_entry (kv : str * str) : M (str * value) :=
  let* o := lift_origin (new_simple ($"env var " ++ kv.1)) in
  let* v := new (fun a => Scalar a o (ConfigString kv.2)) in
  se_ret (kv.1, v).

Lemma env_entries_good env : forall n g,
  exists m n' g', mapM env_entry env n = (Ok m, n') /\ (n <= n')%nat /\ agree n g g' /\ m.*1 = env.*1
    /\ Forall (good n' g') m.*2 /\ from_map m = true.
Proof.
  induction env as [|[k v] env IH]; intros n g; [by exists [], n, g|]. cbn [mapM].
  destruct (env_origin_good k) as (o & Eo & Ho). unfold env_entry at 1. cbn [fst snd]. rewrite Eo. unfold se_bind, new, lift_origin, se_ret. simpl.
  destruct (IH (S n) (store n (Scalar n o (ConfigString v)) g)) as (m & n' & g' & -> & Hn & Hg & Hk & Hm & Hr).
  eexists _, n', g'. split; [done|]. split_and!; [lia| |by rewrite !fmap_cons, Hk| |done].
  - eapply agree_trans; [|apply store_agree|exact Hg]. lia.
  - rewrite fmap_cons. constructor; [|done]. eapply good_mono; [exact Hn|exact Hg|].
    split; [constructor; [lia|done]|]. by apply store_every.
Qed.

Lemma env_object_good environ n g :
  exists v n' g', env_variables_as_config_object environ n = (Ok v, n') /\ (n <= n')%nat /\ agree n g g'
    /\ good n' g' v /\ is_resolved v = true /\ (exists a o m b, v = SimpleConfigObject a o m b).
Proof.
  unfold env_variables_as_config_object. change (fun kv : str * str => _) with env_entry.
  destruct (env_entries_good (load_env_variables environ) n g) as (m & n1 & g1 & E & Hn & Hg & Hk & Hm & Hr).
  unfold se_bind. rewrite E. assert (exists o, new_simple $"env variables" = Ok o /\ good_origin o) as (o & -> & Ho).
  { eexists. split; [reflexivity|]. apply (good_by_char "v"%char); by apply (bool_decide_unpack _). }
  cbn [lift_origin se_ret]. destruct (make_object_ok n1 o m false Ho) as [Eo Hw].
  { rewrite Hk. apply env_keys. } { apply (Forall_fmap snd). by eapply goods_wf. }
  rewrite Hr in Eo. rewrite Eo. eexists _, _, (store n1 (SimpleConfigObject n1 o m false) g1). split; [done|]. split_and!.
  - lia. - eapply agree_trans; [exact Hn|exact Hg|apply store_agree].
  - split; [done|]. by apply store_every. - exact Hr. - eauto.
Qed.
End ResolveParts.
