(* ===== verification/ResolveTotal.v ===== *)
(** * Resolving ends

    Every reference that is being looked up is replaced by a cycle, and what
    replaces a merge stack is smaller than the stack: resolving a configuration
    ends, with a resolved configuration or an error in the document. *)

From S2P Require Import Prelude CLib Token Path Origin Value ValueMerge ValueEdit ValueConcat ValueHeap Resolve ResolveParts.

Open Scope Z_scope.

Section ResolveTotal.
Context `{DoubleLib}.
Variables (environ : list str) (root : value) (options : ConfigResolveOptions).

(** The references of the configuration. *)
Variable refs : gset nat.

Definition subst_ok (a : nat) (e : SubstitutionExpression) (k : Z) : Prop :=
  a ∈ refs /\ 0 <= k /\ (Z.to_nat k < length (path_elements (path_ e)))%nat.

Abbreviation good := (good subst_ok).
Abbreviation heap := (nat -> value).

(** ** The replacements without what they have made *)

Inductive skeleton := SCycle | SRest (total : nat) (exhausted : bool).

Definition skeleton_of (r : ResolveReplacer) : skeleton :=
  match r with
  | Cycle => SCycle
  | Remainder stack skipping _ =>
      SRest (S (list_sum (map size_of stack))) (match drop skipping stack with [] => true | _ => false end)
  end.

Definition table (s : ResolveState) : gmap nat skeleton := skeleton_of <$> replacements s.

(** The references that are not being looked up. *)
Definition free (t : gmap nat skeleton) : nat := size (filter (fun a => t !! a = None) refs).

Lemma free_insert t a x : a ∈ refs -> t !! a = None -> (free (<[a := x]> t) < free t)%nat.
Proof.
  intros Ha Ht. unfold free. apply subset_size. split.
  - intros b [Hb Hr]%elem_of_filter. apply elem_of_filter. split; [|done].
    destruct (decide (a = b)) as [->|Hne]; [done|]. by rewrite lookup_insert_ne in Hb.
  - intros Hsub. specialize (Hsub a). rewrite !elem_of_filter, lookup_insert_eq in Hsub. naive_solver.
Qed.

Lemma free_insert_le t a x : (free (<[a := x]> t) <= free t)%nat.
Proof.
  unfold free. apply subseteq_size. intros b [Hb Hr]%elem_of_filter. apply elem_of_filter. split; [|done].
  destruct (decide (a = b)) as [->|Hne]; [by rewrite lookup_insert_eq in Hb|by rewrite lookup_insert_ne in Hb].
Qed.

(** ** The invariant *)

Definition is_simple (v : value) : bool := match v with SimpleConfigObject _ _ _ _ => true | _ => false end.

Definition entry_ok (n : nat) (g : heap) (a : nat) (r : ResolveReplacer) : Prop :=
  match r with
  | Cycle => True
  | Remainder stack skip made =>
      (a < n)%nat /\ good n g (g a) /\ is_delayed (g a) = true /\ unmerged_values (g a) = stack /\ (1 <= skip)%nat
      /\ match made with
         | Some r => good n g r /\ (size_of r < size_of (g a))%nat
         | None => True
         end
  end.

Definition memo_ok (n : nat) (g : heap) (m : MemoKey * option value) : Prop :=
  (m.1.1 < n)%nat /\ forall w, m.2 = Some w ->
    good n g w
    /\ match m.1.2 with None => is_resolved w = true | Some p => ripe p (shape_of w) end
    /\ (is_simple (g m.1.1) = true -> is_object w = true).

Record inv (g : heap) (s : ResolveState) : Prop := mkInv {
  inv_entries : map_Forall (entry_ok (next_address s) g) (replacements s);
  inv_memos : Forall (memo_ok (next_address s) g) (memos s);
  inv_root : good (next_address s) g root }.

Lemma entry_mono n n' g g' a r : (n <= n')%nat -> agree n g g' -> entry_ok n g a r -> entry_ok n' g' a r.
Proof.
  intros Hn Hg. destruct r as [|stack skip made]; [done|]. intros (Ha & Hv & Hd & Hs & Hk & Hm). simpl. rewrite Hg by done.
  split_and!; try done; [lia|by apply good_mono with n g|]. destruct made as [r|]; [|done]. destruct Hm as [Hr Hz].
  split; [by apply good_mono with n g|done].
Qed.

Lemma memo_mono n n' g g' m : (n <= n')%nat -> agree n g g' -> memo_ok n g m -> memo_ok n' g' m.
Proof.
  intros Hn Hg [Ha Hm]. split; [lia|]. intros w Hw. destruct (Hm w Hw) as (Hgw & Hf & Hs). rewrite Hg by done.
  split; [by apply good_mono with n g|done].
Qed.

Lemma state_mono g s n' g' : (next_address s <= n')%nat -> agree (next_address s) g g' -> inv g s -> inv g' (with_address n' s).
Proof.
  intros Hn Hg [He Hm Hr]. split; simpl.
  - intros a r Hr'. by apply entry_mono with (next_address s) g; [..|apply He].
  - eapply Forall_impl; [exact Hm|]. intros m. by apply memo_mono.
  - by apply good_mono with (next_address s) g.
Qed.

(** ** Computations that end *)

Record step (s : ResolveState) (g : heap) (s' : ResolveState) (g' : heap) : Prop := mkStep {
  step_next : (next_address s <= next_address s')%nat;
  step_agree : agree (next_address s) g g';
  step_inv : inv g' s';
  step_table : table s' = table s }.

Lemma step_refl s g : inv g s -> step s g s g.
Proof. by split. Qed.

Lemma step_trans s g s1 g1 s2 g2 : step s g s1 g1 -> step s1 g1 s2 g2 -> step s g s2 g2.
Proof.
  intros [Hn Hg _ Ht] [Hn' Hg' Hi Ht']. split; [lia|by apply agree_trans with (next_address s1) g1|done|by rewrite Ht'].
Qed.

(** With enough fuel the computation gives the same answer, and that is [Q] or an
    exception that satisfies [E]. *)
Definition ends {A} (F : nat -> R A) (s : ResolveState) (g : heap) (E : resolve_exn -> Prop)
    (Q : A -> nat -> heap -> Prop) : Prop :=
  exists r s' g', (exists N, forall fuel, (N <= fuel)%nat -> F fuel s = (r, s')) /\ step s g s' g'
    /\ match r with Ok a => Q a (next_address s') g' | Err e => E e end.

Lemma ends_ret {A} (a : A) s g E (Q : A -> nat -> heap -> Prop) :
  inv g s -> Q a (next_address s) g -> ends (fun _ => se_ret a) s g E Q.
Proof. intros Hi HQ. exists (Ok a), s, g. split; [by exists 0%nat|]. split; [by apply step_refl|done]. Qed.

Lemma ends_throw {A} e s g (E : resolve_exn -> Prop) (Q : A -> nat -> heap -> Prop) :
  inv g s -> E e -> ends (fun _ => se_throw e) s g E Q.
Proof. intros Hi HE. exists (Err e), s, g. split; [by exists 0%nat|]. split; [by apply step_refl|done]. Qed.

Lemma ends_bind {A B} (F : nat -> R A) (K : A -> nat -> R B) s g E P Q :
  ends F s g E P ->
  (forall a s' g', step s g s' g' -> P a (next_address s') g' -> ends (K a) s' g' E Q) ->
  ends (fun fuel => se_bind (F fuel) (fun a => K a fuel)) s g E Q.
Proof.
  intros (r & s1 & g1 & [N HN] & Hs1 & Hr) HK. destruct r as [a|e].
  - destruct (HK a s1 g1 Hs1 Hr) as (r & s2 & g2 & [N' HN'] & Hs2 & Hr2). exists r, s2, g2.
    split; [|split; [by eapply step_trans|done]]. exists (N `max` N')%nat. intros fuel Hf. unfold se_bind.
    rewrite HN by lia. by apply HN'; lia.
  - exists (Err e), s1, g1. split; [|by split]. exists N. intros fuel Hf. unfold se_bind. by rewrite HN.
Qed.

Lemma ends_weaken {A} (F : nat -> R A) s g (E E' : resolve_exn -> Prop) (P Q : A -> nat -> heap -> Prop) :
  ends F s g E P -> (forall e, E e -> E' e) ->
  (forall a s' g', step s g s' g' -> P a (next_address s') g' -> Q a (next_address s') g') -> ends F s g E' Q.
Proof.
  intros (r & s1 & g1 & HN & Hs1 & Hr) HE HQ. exists r, s1, g1. split; [done|]. split; [done|]. destruct r; [|by auto]. by apply HQ.
Qed.

Lemma ends_ext {A} (F G : nat -> R A) s g E Q : (forall fuel, F fuel s = G fuel s) -> ends G s g E Q -> ends F s g E Q.
Proof.
  intros Heq (r & s1 & g1 & [N HN] & Hs). exists r, s1, g1. split; [|done]. exists N. intros fuel Hf. rewrite Heq. auto.
Qed.

Lemma ends_value {A} (m : M A) s g E a n' g' (Q : A -> nat -> heap -> Prop) :
  inv g s -> m (next_address s) = (Ok a, n') -> (next_address s <= n')%nat -> agree (next_address s) g g' -> Q a n' g' ->
  ends (fun _ => lift_value m) s g E Q.
Proof.
  intros Hi Em Hn Hg HQ. exists (Ok a), (with_address n' s), g'. split; [|split; [|done]].
  - exists 0%nat. intros fuel _. unfold lift_value. by rewrite Em.
  - split; [done|done|by apply state_mono with g|done].
Qed.

Lemma ends_value_error {A} (m : M A) s g (E : resolve_exn -> Prop) e n' (Q : A -> nat -> heap -> Prop) :
  inv g s -> m (next_address s) = (Err e, n') -> E (ValueError e) -> ends (fun _ => lift_value m) s g E Q.
Proof.
  intros Hi Em HE. exists (Err (ValueError e)), s, g. split; [|by split; [apply step_refl|]].
  exists 0%nat. intros fuel _. unfold lift_value. by rewrite Em.
Qed.

(** ** Errors and results *)

Definition no_pieces : value_exn := Bug $"_resolved list should always join to exactly one value".

(** [NotPossibleToResolve] only below a reference that is being looked up, or in
    the last layer of a stack that is larger than the value. *)
Definition danger (t : gmap nat skeleton) (b : nat) : Prop :=
  (exists a, t !! a = Some SCycle) \/ exists a total, t !! a = Some (SRest total true) /\ (total <= b)%nat.

Definition document_failure (e : resolve_exn) : Prop :=
  match e with
  | UnresolvedSubstitution _ _ => True
  | ValueError e => e = CannotJoin \/ e = no_pieces
  | _ => False
  end.

Definition failure (t : gmap nat skeleton) (b : nat) (e : resolve_exn) : Prop :=
  match e with NotPossibleToResolve _ => danger t b | _ => document_failure e end.

Lemma failure_mono t b b' e : (b <= b')%nat -> failure t b e -> failure t b' e.
Proof.
  intros Hb. destruct e; try done. intros [Hc|(a & total & Ha & Ht)]; [by left|]. right. exists a, total. split; [done|lia].
Qed.

Lemma failure_document t b e : document_failure e -> failure t b e.
Proof. by destruct e. Qed.

(** A stack that is larger than the value is no danger for it. *)
Lemma failure_insert t a total x b b' e :
  (b < total)%nat -> (b <= b')%nat -> t !! a = None -> failure (<[a := SRest total x]> t) b e -> failure t b' e.
Proof.
  intros Hb Hb' Ht. destruct e; try done. intros [(c & Hc)|(c & tot & Hc & Hle)].
  - left. exists c. destruct (decide (a = c)) as [->|Hne]; [by rewrite lookup_insert_eq in Hc|by rewrite lookup_insert_ne in Hc].
  - right. exists c, tot. destruct (decide (a = c)) as [->|Hne]; [rewrite lookup_insert_eq in Hc; injection Hc as <- _; lia|].
    rewrite lookup_insert_ne in Hc by done. split; [done|lia].
Qed.

Definition fits (c : ResolveContext) (w : value) : Prop :=
  match restrict_to_child c with None => is_resolved w = true | Some p => ripe p (shape_of w) end.

Definition result_ok (c : ResolveContext) (v : value) (r : option value) (n : nat) (g : heap) : Prop :=
  match r with
  | Some w => good n g w /\ fits c w /\ (is_simple v = true -> is_object w = true)
  | None => is_simple v = false
  end.

Lemma result_mono c v r n n' g g' : (n <= n')%nat -> agree n g g' -> result_ok c v r n g -> result_ok c v r n' g'.
Proof. intros Hn Hg. destruct r as [w|]; [|done]. intros [Hw Hrest]. split; [by apply good_mono with n g|done]. Qed.

Lemma resolved_fits c w : is_resolved w = true -> fits c w.
Proof. intros Hw. unfold fits. destruct (restrict_to_child c); [|done]. apply settled_ripe. by rewrite shape_settled. Qed.

Lemma fits_merge c a b v : fits c a -> fits c b -> shape_of v = merge (shape_of a) (shape_of b) -> fits c v.
Proof.
  unfold fits. destruct (restrict_to_child c) as [p|]; intros Ha Hb Hv.
  - rewrite Hv. by apply merge_ripe.
  - rewrite <- shape_settled in *. rewrite Hv. by apply settled_merge.
Qed.

(** ** Loops and replacements *)

Lemma ends_mapR {A B} (F : A -> nat -> R B) (P : A -> B -> nat -> heap -> Prop) (E : resolve_exn -> Prop) l : forall s g,
  inv g s -> (forall x y n n' g g', (n <= n')%nat -> agree n g g' -> P x y n g -> P x y n' g') ->
  (forall x s' g', x ∈ l -> step s g s' g' -> ends (F x) s' g' E (P x)) ->
  ends (fun fuel => mapR (fun x => F x fuel) l) s g E (fun ys n g => Forall2 (fun x y => P x y n g) l ys).
Proof.
  induction l as [|x l IH]; intros s g Hi Hmono HF; [by apply ends_ret|]. cbn [mapR].
  eapply ends_bind; [apply HF; [by left|by apply step_refl]|]. intros y s1 g1 Hs1 Hy.
  eapply ends_bind; [apply IH; [apply Hs1|done|]|].
  - intros x' s2 g2 Hx' Hs2. apply HF; [by right|by eapply step_trans].
  - intros ys s2 g2 Hs2 Hys. apply ends_ret; [apply Hs2|]. constructor; [|done]. eapply Hmono; [apply Hs2|apply Hs2|exact Hy].
Qed.

Definition replaced (a : nat) (r : ResolveReplacer) (s : ResolveState) : ResolveState :=
  with_replacements (<[a := r]> (replacements s)) s.

Lemma table_replaced a r s : table (replaced a r s) = <[a := skeleton_of r]> (table s).
Proof. unfold table. simpl. by rewrite fmap_insert. Qed.

Lemma inv_replaced g s a r : inv g s -> entry_ok (next_address s) g a r -> inv g (replaced a r s).
Proof. intros [He Hm Hr] Ha. split; simpl; [|done|done]. by apply map_Forall_insert_2. Qed.

Lemma table_None s a : table s !! a = None <-> replacements s !! a = None.
Proof. unfold table. by rewrite lookup_fmap, fmap_None. Qed.

(** [replace], the computation, and [unreplace] in either case. *)
Lemma ends_replaced {A} (F : nat -> R A) v r s g E Q :
  inv g s -> table s !! addr_of v = None -> entry_ok (next_address s) g (addr_of v) r ->
  (inv g (replaced (addr_of v) r s) -> ends F (replaced (addr_of v) r s) g E Q) ->
  ends (fun fuel => replace v r ;;* finally (F fuel) (unreplace v)) s g E Q.
Proof.
  intros Hi Hv He HF. destruct (HF (inv_replaced g s _ r Hi He)) as (x & s1 & g1 & [N HN] & [Hn Hg Hi1 Ht] & Hx).
  rewrite table_replaced in Ht.
  assert (Hin : is_Some (replacements s1 !! addr_of v)).
  { apply fmap_is_Some with (f := skeleton_of). rewrite <- lookup_fmap. fold (table s1). rewrite Ht, lookup_insert_eq. eauto. }
  destruct Hin as [r1 Er]. exists x, (with_replacements (delete (addr_of v) (replacements s1)) s1), g1. split; [|split].
  - exists N. intros fuel Hf. unfold replace, se_bind, se_get. apply table_None in Hv.
    rewrite Hv. cbn [se_put]. unfold finally. fold (replaced (addr_of v) r s). rewrite HN by done.
    unfold unreplace, se_bind, se_get. by rewrite Er.
  - split; simpl; [done|done| |].
    + destruct Hi1 as [He1 Hm1 Hr1]. split; simpl; [|done|done]. by apply map_Forall_delete.
    + unfold table in *. simpl. by rewrite fmap_delete, Ht, delete_insert_id.
  - by destruct x.
Qed.

(** ** One call of [resolve], given the calls below it *)

Abbreviation call := (resolve environ root options).

Definition ends_at (k b : nat) : Prop := forall c v s g,
  (free (table s) <= k)%nat -> (size_of v <= b)%nat -> inv g s -> good (next_address s) g v ->
  ends (fun fuel => call fuel c v) s g (failure (table s) (size_of v)) (result_ok c v).

Section Step.
Variables k b : nat.
Hypothesis IHk : forall k' b', (k' < k)%nat -> ends_at k' b'.
Hypothesis IHb : forall b', (b' < b)%nat -> ends_at k b'.

(** A smaller value, in a later state. *)
Lemma smaller_ends c v w s g s' g' :
  (free (table s) <= k)%nat -> (size_of v <= b)%nat -> (size_of w < size_of v)%nat -> good (next_address s) g w ->
  step s g s' g' ->
  ends (fun fuel => call fuel c w) s' g' (failure (table s) (size_of v)) (result_ok c w).
Proof.
  intros Hk Hb Hw Hgw Hs. eapply ends_weaken; [apply (IHb (size_of w)); [lia| |done|apply Hs|]| |done].
  - by rewrite (step_table _ _ _ _ Hs).
  - by apply good_mono with (next_address s) g; [apply Hs|apply Hs|].
  - intros e. rewrite (step_table _ _ _ _ Hs). apply failure_mono. lia.
Qed.

(** What a call starts from. *)
Record ready (v : value) (s : ResolveState) (g : heap) : Prop := mkReady {
  ready_free : (free (table s) <= k)%nat;
  ready_size : (size_of v <= b)%nat;
  ready_inv : inv g s;
  ready_good : good (next_address s) g v }.

Abbreviation substitutions fuel := (resolve_substitutions environ root options (call fuel)).

Lemma child_ends v s g c u s' g' : ready v s g -> u ∈ children v -> step s g s' g' ->
  ends (fun fuel => call fuel c u) s' g' (failure (table s) (size_of v)) (result_ok c u).
Proof. intros [Hk Hb Hi Hv] Hu Hs. apply smaller_ends with g; try done; [by apply child_size|by eapply good_child]. Qed.

(** ** Lists *)

Lemma kept_same n g' (l : list value) new :
  Forall (good n g') l -> Forall2 (fun u r => forall w, r = Some w -> good n g' w) l new ->
  forallb (fun p => same_value p.1 p.2) (combine l new) = true -> omap id new = l.
Proof.
  intros Hl H2. revert Hl. induction H2 as [|u r l new Hr _ IH]; [done|]. intros [Hu Hl]%Forall_cons.
  simpl. intros [Hs Hrest]%andb_true_iff. destruct r as [w|]; [|done]. apply bool_decide_eq_true in Hs.
  transitivity (w :: omap id new); [done|]. f_equal; [|by apply IH]. symmetry.
  eapply good_same; [exact Hu|by apply Hr|done].
Qed.

Lemma omap_good {A} n g' (l : list A) (new : list (option value)) (P : value -> Prop) :
  Forall2 (fun _ r => forall w, r = Some w -> good n g' w /\ P w) l new ->
  Forall (fun w => good n g' w /\ P w) (omap id new).
Proof. induction 1 as [|u r l new Hr _ IH]; [done|]. destruct r as [w|]; simpl; [|done]. constructor; auto. Qed.

Lemma list_ends c a o l s g : ready (SimpleConfigList a o l) s g ->
  ends (fun fuel => substitutions fuel (SimpleConfigList a o l) c) s g
    (failure (table s) (size_of (SimpleConfigList a o l))) (result_ok c (SimpleConfigList a o l)).
Proof.
  intros Hrd. pose proof (ready_inv _ _ _ Hrd) as Hi. pose proof (ready_good _ _ _ Hrd) as Hv. cbn [resolve_substitutions]. destruct (is_resolved _) eqn:Er.
  { apply ends_ret; [done|]. split_and!; [done|by apply resolved_fits|done]. }
  destruct (restrict_to_child c) as [p|] eqn:Ec.
  { apply ends_ret; [done|]. split_and!; [done| |done]. unfold fits. rewrite Ec.
    destruct p as [key|key next]; (split; [done|]); [done|]. intros m f x Hm. by apply list_elem_of_singleton in Hm. }
  eapply ends_bind.
  { apply (ends_mapR (fun u fuel => call fuel c u) (result_ok c)); [done| |intros; by eapply child_ends].
    intros x y n n' h h'. apply result_mono. }
  intros new s1 g1 Hs1 Hnew.
  assert (Hall : Forall2 (fun _ r => forall w, r = Some w -> good (next_address s1) g1 w /\ is_resolved w = true) l new).
  { eapply Forall2_impl; [exact Hnew|]. intros u r Hr w ->. destruct Hr as (Hg & Hf & _). unfold fits in Hf. by rewrite Ec in Hf. }
  pose proof (omap_good _ _ _ _ _ Hall) as Hom.
  assert (Hgl : Forall (good (next_address s1) g1) l).
  { eapply goods_mono; [apply Hs1|apply Hs1|]. by apply good_children in Hv. }
  eapply (ends_bind _ _ _ _ _ (fun r n' g' => good n' g' r /\ is_resolved r = true)).
  - unfold list_modified. destruct (forallb _ _) eqn:Esame.
    + exfalso. rewrite (kept_same (next_address s1) g1 l new) in Hom; [|done| |done].
      2: { eapply Forall2_impl; [exact Hall|]. intros ? r Hr w Hw. by apply Hr. }
      cbn [is_resolved] in Er. apply not_true_iff_false in Er. apply Er. apply forallb_forall.
      intros x Hx. rewrite Forall_forall in Hom. by apply Hom, list_elem_of_In.
    + assert (Hst : from_values (omap id new) = true).
      { apply forallb_forall. intros x Hx. rewrite Forall_forall in Hom. by apply Hom, list_elem_of_In. }
      eapply ends_value; [apply Hs1|unfold make_list; rewrite Hst; reflexivity|lia|apply store_agree|]. split; [|exact Hst]. split.
      * constructor; [lia|by apply (wf_origin _ _ (proj1 Hv))|]. eapply Forall_impl; [exact Hom|].
        intros w [[Hw _] _]. by apply wf_mono with (next_address s1); [lia|].
      * apply store_every; [done|done|]. eapply Forall_impl; [exact Hom|]. by intros w [].
  - intros r s2 g2 Hs2 [Hr Hrr]. apply ends_ret; [apply Hs2|]. split_and!; [done|by apply resolved_fits|done].
Qed.

(** ** Objects *)

(** What the child under a key becomes. *)
Definition child_fits (c : ResolveContext) (key : str) (w : value) : Prop :=
  match restrict_to_child c with
  | None => is_resolved w = true
  | Some (One _) => True
  | Some (More k' next) => key = k' -> ripe next (shape_of w)
  end.

Definition child_ok (c : ResolveContext) (kv : str * value) (e : str * option value) (n : nat) (g : heap) : Prop :=
  e.1 = kv.1 /\ forall w, e.2 = Some w -> good n g w /\ child_fits c kv.1 w.

Lemma resolve_child_ends v s g c kv s' g' :
  ready v s g -> kv.2 ∈ children v -> step s g s' g' ->
  ends (fun fuel => let* w := resolve_child (call fuel) c kv.1 kv.2 in se_ret (kv.1, w)) s' g'
    (failure (table s) (size_of v)) (child_ok c kv).
Proof.
  intros Hrd Hu Hs. destruct kv as [key u]. simpl in *.
  assert (Hg : good (next_address s') g' u).
  { eapply good_mono; [apply Hs|apply Hs|]. eapply good_child; [exact (ready_good _ _ _ Hrd)|done]. }
  eapply (ends_bind _ _ _ _ _ (fun r n h => forall w, r = Some w -> good n h w /\ child_fits c key w)).
  2: { intros w s2 g2 Hs2 Hw. apply ends_ret; [apply Hs2|]. by split. }
  unfold resolve_child, child_fits. destruct (restrict_to_child c) as [p|] eqn:Ec.
  - case_bool_decide as Ek.
    + destruct p as [k'|k' next]; simpl.
      * apply ends_ret; [apply Hs|]. by intros w [= ->].
      * eapply ends_weaken; [by eapply child_ends|done|]. intros r s2 g2 Hs2 Hr w ->. by destruct Hr as (? & ? & _).
    + apply ends_ret; [apply Hs|]. intros ? [= <-]. split; [done|]. by destruct p.
  - eapply ends_weaken; [by eapply child_ends|done|]. intros r s2 g2 Hs2 Hr w ->. by destruct Hr as (? & ? & _).
Qed.

Lemma child_ok_mono c kv e n n' g g' : (n <= n')%nat -> agree n g g' -> child_ok c kv e n g -> child_ok c kv e n' g'.
Proof. intros Hn Hg [He Hw]. split; [done|]. intros w Ew. destruct (Hw w Ew). split; [by apply good_mono with n g|done]. Qed.

Lemma keep_entry_cons e (new : list (str * option value)) :
  omap keep_entry (e :: new) = match e.2 with Some w => (e.1, w) :: omap keep_entry new | None => omap keep_entry new end.
Proof. destruct e as [key [w|]]; done. Qed.

Lemma entries_same c n g m new :
  Forall (good n g) m.*2 -> Forall2 (fun kv e => child_ok c kv e n g) m new ->
  forallb (fun p => same_value p.1.2 p.2.2) (combine m new) = true -> omap keep_entry new = m.
Proof.
  intros Hm H2. revert Hm. induction H2 as [|[key u] [key' r] m new [Hk Hr] _ IH]; [done|]. rewrite fmap_cons.
  intros [Hu Hm]%Forall_cons. simpl in Hk. subst key'. rewrite keep_entry_cons.
  cbn [combine forallb fst snd]. intros [Hs Hrest]%andb_true_iff. destruct r as [w|]; [|done].
  apply bool_decide_eq_true in Hs. f_equal; [|by apply IH]. f_equal. symmetry.
  eapply good_same; [exact Hu|by apply Hr|done].
Qed.

Lemma entries_ok c n g m new :
  Forall2 (fun kv e => child_ok c kv e n g) m new -> NoDup m.*1 ->
  NoDup (omap keep_entry new).*1 /\ (omap keep_entry new).*1 ⊆ m.*1
  /\ Forall (fun kv => good n g kv.2 /\ child_fits c kv.1 kv.2) (omap keep_entry new).
Proof.
  induction 1 as [|[key u] [key' r] m new [Hk Hr] _ IH]; [by intros; split_and!|]. rewrite fmap_cons. simpl in Hk. subst key'.
  intros [Hn Hm]%NoDup_cons. destruct (IH Hm) as (Hnd & Hsub & Hall). rewrite keep_entry_cons. cbn [fst snd]. destruct r as [w|].
  - rewrite fmap_cons. split_and!; [apply NoDup_cons; split; [set_solver|done]|set_solver|]. constructor; [by apply Hr|done].
  - split_and!; [done|set_solver|done].
Qed.

Lemma find_entry (P : str -> value -> Prop) key w m : Forall (fun kv => P kv.1 kv.2) m -> map_find key m = Some w -> P key w.
Proof.
  induction 1 as [|[k' u] m Hu _ IH]; [done|]. simpl. case_bool_decide as E; [|auto]. intros [= <-]. by subst.
Qed.

Lemma object_fits c a o m f n g :
  Forall (fun kv => good n g kv.2 /\ child_fits c kv.1 kv.2) m -> fits c (SimpleConfigObject a o m f).
Proof.
  intros Hm. unfold fits, child_fits in *. destruct (restrict_to_child c) as [[k'|k' next]|].
  - by split.
  - split; [done|]. cbn [shape_of layers]. intros m' f' x Hl%list_elem_of_singleton Hx. injection Hl as -> ->.
    rewrite shape_find in Hx. destruct (map_find k' m) as [w|] eqn:E; [|done]. injection Hx as <-.
    by eapply (find_entry (fun key w => good n g w /\ (key = k' -> ripe next (shape_of w)))) in E as [_ Hr]; [apply Hr|].
  - cbn [is_resolved]. apply forallb_forall. intros kv Hkv. rewrite Forall_forall in Hm. by apply Hm, list_elem_of_In.
Qed.

Lemma object_ends c a o m f s g : ready (SimpleConfigObject a o m f) s g ->
  ends (fun fuel => substitutions fuel (SimpleConfigObject a o m f) c) s g
    (failure (table s) (size_of (SimpleConfigObject a o m f))) (result_ok c (SimpleConfigObject a o m f)).
Proof.
  intros Hrd. pose proof (ready_inv _ _ _ Hrd) as Hi. pose proof (ready_good _ _ _ Hrd) as Hv. cbn [resolve_substitutions].
  destruct (is_resolved _) eqn:Er; [apply ends_ret; [done|]; by split_and!; [|apply resolved_fits|]|].
  eapply ends_bind.
  { apply (ends_mapR (fun kv fuel => let* w := resolve_child (call fuel) c kv.1 kv.2 in se_ret (kv.1, w)) (child_ok c)); [done| |].
    - intros x y n n' h h'. apply child_ok_mono.
    - intros kv s' g' Hkv Hs. eapply resolve_child_ends; [exact Hrd| |exact Hs]. apply list_elem_of_fmap. by exists kv. }
  intros new s1 g1 Hs1 Hnew.
  assert (Hgm : Forall (good (next_address s1) g1) m.*2).
  { eapply goods_mono; [apply Hs1|apply Hs1|]. by apply good_children in Hv. }
  assert (Hnd : NoDup m.*1) by (destruct Hv as [Hw _]; by inversion Hw).
  destruct (entries_ok c _ _ _ _ Hnew Hnd) as (Hnd' & _ & Hall).
  eapply (ends_bind _ _ _ _ _ (fun r n' g' => good n' g' r /\ fits c r /\ is_object r = true)).
  2: { intros r s2 g2 Hs2 (Hr & Hf & Ho). apply ends_ret; [apply Hs2|]. by split_and!. }
  unfold object_modified. destruct (forallb _ _) eqn:Esame.
  - apply ends_ret; [apply Hs1|]. split_and!; [by eapply good_mono; [apply Hs1|apply Hs1|]| |done].
    rewrite (entries_same c _ _ _ _ Hgm Hnew Esame) in Hall. by eapply object_fits.
  - assert (Hgood : Forall (good (next_address s1) g1) (omap keep_entry new).*2).
    { apply (Forall_fmap snd). eapply Forall_impl; [exact Hall|]. by intros kv []. }
    destruct (make_object_ok (next_address s1) o (omap keep_entry new) f) as [Eo Hw]; [by apply (wf_origin _ _ (proj1 Hv))|done| |].
    { apply (Forall_fmap snd). by eapply goods_wf. }
    eapply ends_value; [apply Hs1|exact Eo|lia|apply store_agree|]. split_and!; [|by eapply object_fits|done].
    split; [done|]. by apply store_every.
Qed.

(** ** Concatenations *)

Lemma concatenation_ends c a o l s g : ready (ConfigConcatenation a o l) s g ->
  ends (fun fuel => substitutions fuel (ConfigConcatenation a o l) c) s g
    (failure (table s) (size_of (ConfigConcatenation a o l))) (result_ok c (ConfigConcatenation a o l)).
Proof.
  intros Hrd. pose proof (ready_inv _ _ _ Hrd) as Hi. cbn [resolve_substitutions]. unfold resolve_concatenation.
  eapply ends_bind.
  { apply (ends_mapR (fun u fuel => call fuel (unrestricted c) u) (result_ok (unrestricted c))); [done| |].
    - intros x y n n' h h'. apply result_mono.
    - intros u s' g' Hu Hs. by eapply child_ends. }
  intros new s1 g1 Hs1 Hnew.
  assert (Hall : Forall (fun w => good (next_address s1) g1 w /\ is_resolved w = true) (omap id new)).
  { apply (omap_good _ _ l). eapply Forall2_impl; [exact Hnew|]. intros u r Hr w ->. by destruct Hr as (? & ? & _). }
  pose proof (consolidate_resolved subst_ok _ _ _ Hall) as Hc.
  eapply (ends_bind _ _ _ _ _ (fun r n' g' => r = [] \/ exists w, r = [w] /\ good n' g' w /\ is_resolved w = true)).
  - destruct (consolidate (omap id new) (next_address s1)) as [[r|e] n'] eqn:Ec.
    + destruct r as [|w [|]]; [destruct Hc as (_ & _ & ->)| |by destruct Hc].
      * eapply ends_value; [apply Hs1|exact Ec|lia|apply agree_refl|by left].
      * destruct Hc as (g' & Hn & Hg & Hw & Hr). eapply ends_value; [apply Hs1|exact Ec|done|exact Hg|]. right. by exists w.
    + subst e. eapply ends_value_error; [apply Hs1|exact Ec|]. by left.
  - intros r s2 g2 Hs2 [->|(w & -> & Hw & Hr)].
    + apply ends_throw; [apply Hs2|]. by right.
    + apply ends_ret; [apply Hs2|]. split_and!; [done|by apply resolved_fits|done].
Qed.

(** ** Merge stacks *)

Lemma stack_size v : is_delayed v = true -> size_of v = S (list_sum (map size_of (unmerged_values v))).
Proof. unfold size_of. destruct v; try done; intros _; simpl; by rewrite map_map. Qed.

Lemma stack_children v : is_delayed v = true -> children v = unmerged_values v.
Proof. by destruct v. Qed.

(** A layer, with the stack replaced by what is below it. *)
Lemma layer_ends c v s g s' g' count u :
  ready v s g -> is_delayed v = true -> table s !! addr_of v = None -> u ∈ unmerged_values v -> step s g s' g' ->
  ends (fun fuel => if is_unmergeable u
                    then replace v (Remainder (unmerged_values v) (S count) None) ;;* finally (call fuel c u) (unreplace v)
                    else call fuel c u) s' g' (failure (table s) (size_of v)) (result_ok c u).
Proof.
  intros Hrd Hd Ht Hu Hs. assert (Huc : u ∈ children v) by (by rewrite stack_children).
  destruct (is_unmergeable u); [|by eapply child_ends].
  assert (Hg' : good (next_address s') g' v) by (eapply good_mono; [apply Hs|apply Hs|exact (ready_good _ _ _ Hrd)]).
  assert (Hst : g' (addr_of v) = v) by (destruct Hg' as [_ [Hst _]%every_top]; exact Hst).
  pose proof (step_table _ _ _ _ Hs) as Et. pose proof (child_size v u Huc) as Hsz.
  eapply ends_weaken; [apply ends_replaced with (E := failure (table s) (size_of v)); [apply Hs|by rewrite Et| |]|done|intros ? ? ? _ Hr; exact Hr].
  - simpl. rewrite Hst. split_and!; [by eapply wf_addr, Hg'|done..|lia|done].
  - intros Hi. eapply ends_weaken; [apply (IHb (size_of u)); [| |done|exact Hi|]| |intros ? ? ? _ Hr; exact Hr].
    + pose proof (ready_size _ _ _ Hrd). lia.
    + rewrite table_replaced. etransitivity; [apply free_insert_le|]. rewrite Et. exact (ready_free _ _ _ Hrd).
    + by eapply good_child.
    + intros e. rewrite table_replaced, Et. simpl. rewrite <- stack_size by done. apply failure_insert; [lia|lia|done].
Qed.

Lemma layers_ends c v s g l : ready v s g -> is_delayed v = true -> table s !! addr_of v = None -> forall count merged s' g',
  Forall (fun u => u ∈ unmerged_values v /\ is_delayed u = false) l -> step s g s' g' ->
  (forall w, merged = Some w -> good (next_address s') g' w /\ fits c w) ->
  ends (fun fuel => resolve_layers (call fuel) v (unmerged_values v) count l merged c) s' g' (failure (table s) (size_of v))
    (fun r n h => (forall w, r = Some w -> good n h w /\ fits c w)
       /\ ((exists w, merged = Some w /\ is_object w = true) \/ (merged = None /\ exists u l', l = u :: l' /\ is_simple u = true) ->
           exists w, r = Some w /\ is_object w = true)).
Proof.
  intros Hrd Hd Ht. induction l as [|u l IH]; intros count merged s1 g1 Hl Hs Hm; cbn [resolve_layers].
  { apply ends_ret; [apply Hs|]. split; [done|]. intros [?|(_ & ? & ? & ? & _)]; done. }
  apply Forall_cons in Hl as [[Hu Hdu] Hl]. rewrite Hdu. eapply ends_bind; [by eapply layer_ends|].
  intros r s2 g2 Hs2 Hr. pose proof (step_trans _ _ _ _ _ _ Hs Hs2) as Hs02.
  eapply (ends_bind _ _ _ _ _ (fun x n h => (forall w, x = Some w -> good n h w /\ fits c w)
    /\ ((exists w, merged = Some w /\ is_object w = true) \/ (merged = None /\ is_simple u = true) ->
        exists w, x = Some w /\ is_object w = true))).
  - destruct r as [r|]; [destruct Hr as (Hgr & Hfr & Hor); destruct merged as [m|]|].
    + destruct (Hm m) as [Hgm Hfm]; [done|]. assert (Hgm2 : good (next_address s2) g2 m) by (eapply good_mono; [apply Hs2|apply Hs2|done]).
      destruct (fallback_good subst_ok _ _ _ _ Hgm2 Hgr) as (w & n' & g' & Ew & Hn & Hg & Hw & Hsh).
      eapply (ends_bind _ _ _ _ _ (fun w' n h => good n h w' /\ shape_of w' = shape_of w)).
      { eapply ends_value; [apply Hs2|exact Ew|done|exact Hg|done]. }
      intros w' s3 g3 Hs3 [Hgw' Ew']. apply ends_ret; [apply Hs3|]. split.
      * intros ? [= <-]. split; [done|]. eapply fits_merge; [exact Hfm|exact Hfr|]. by rewrite Ew'.
      * intros [(m' & [= <-] & Hom)|[? _]]; [|done]. exists w'. split; [done|]. rewrite <- shape_object, Ew', Hsh.
        apply merge_object_shape. by rewrite shape_object.
    + apply ends_ret; [apply Hs2|]. split; [by intros ? [= <-]|]. intros [(? & ? & _)|[_ Hsim]]; [done|]. exists r. auto.
    + apply ends_ret; [apply Hs2|]. simpl in Hr. split.
      * intros w Ew. destruct (Hm w Ew). split; [eapply good_mono; [apply Hs2|apply Hs2|done]|done].
      * intros [?|[_ ?]]; [done|congruence].
  - intros x s3 g3 Hs3 [Hx Hxo]. eapply ends_weaken; [apply IH; [done|by eapply step_trans|done]|done|].
    intros r' s4 g4 _ [Hr' Hro]. split; [done|]. intros Hcase. apply Hro. left. apply Hxo.
    destruct Hcase as [?|(? & ? & ? & [= <- <-] & ?)]; [by left|by right].
Qed.

Lemma delayed_ends c v s g : ready v s g -> is_delayed v = true -> table s !! addr_of v = None ->
  ends (fun fuel => substitutions fuel v c) s g (failure (table s) (size_of v)) (result_ok c v).
Proof.
  intros Hrd Hd Ht.
  assert (Hlay : Forall (fun u => u ∈ unmerged_values v /\ is_delayed u = false) (unmerged_values v)).
  { apply Forall_forall. intros u Hu. split; [done|]. apply not_true_iff_false. intros Hdu.
    destruct (unmerged_wf _ _ (proj1 (ready_good _ _ _ Hrd))) as (_ & _ & Hnd & _). apply not_true_iff_false in Hnd. apply Hnd.
    apply existsb_exists. exists u. split; [by apply list_elem_of_In|done]. }
  pose proof (layers_ends c v s g (unmerged_values v) Hrd Hd Ht 0 None s g Hlay (step_refl _ _ (ready_inv _ _ _ Hrd))) as Hl.
  destruct v as [| | | | |a o stack|a o stack]; try done; cbn [resolve_substitutions unmerged_values] in *.
  - eapply ends_weaken; [by apply Hl|done|]. intros r s1 g1 _ [Hr _]. destruct r as [w|]; [|done].
    destruct (Hr w); [done|]. by split_and!.
  - eapply ends_bind; [by apply Hl|]. intros r s1 g1 Hs1 [Hr Ho].
    assert (Hfirst : exists u l, stack = u :: l /\ is_simple u = true).
    { destruct (ready_good _ _ _ Hrd) as [Hw _]. inversion Hw as [| | | | | |? ? x l ? ? Hx Hn]; subst.
      exists x, l. split; [done|]. by destruct x. }
    destruct Ho as (w & -> & Hw); [by right|]. rewrite Hw. apply ends_ret; [apply Hs1|]. destruct (Hr w); [done|]. by split_and!.
Qed.

(** ** References *)

(** Everything below a reference, whatever its size. *)
Definition any_failure (e : resolve_exn) : Prop :=
  match e with NotPossibleToResolve _ => True | _ => document_failure e end.

Lemma failure_any t n e : failure t n e -> any_failure e.
Proof. by destruct e. Qed.

Lemma deeper_ends c v s g : (free (table s) < k)%nat -> inv g s -> good (next_address s) g v ->
  ends (fun fuel => call fuel c v) s g any_failure (result_ok c v).
Proof.
  intros Hf Hi Hv. eapply ends_weaken; [apply (IHk (free (table s)) (size_of v)); done| |intros ? ? ? _ Hr; exact Hr].
  intros e. apply failure_any.
Qed.

Lemma peek_ends self p c s g :
  (free (table s) < k)%nat -> inv g s -> good (next_address s) g self -> is_simple self = true ->
  ends (fun fuel => peek_path (call fuel) self p c) s g any_failure
    (fun r n h => forall w, r = Some w -> good n h w).
Proof.
  intros Hf Hi Hv Hsim. unfold peek_path. eapply ends_bind; [by apply deeper_ends|].
  intros r s1 g1 Hs1 Hr. destruct r as [q|]; simpl in Hr; [|congruence]. destruct Hr as (Hq & Hfit & Ho).
  rewrite (Ho Hsim). destruct (peek_ripe subst_ok _ _ p q Hq (Ho Hsim) Hfit) as (x & -> & Hx).
  by apply ends_ret; [apply Hs1|].
Qed.

Hypothesis root_simple : is_simple root = true.

Lemma found_ends c r s g :
  (free (table s) < k)%nat -> inv g s -> (forall w, r = Some w -> good (next_address s) g w) ->
  ends (fun fuel => resolve_found (call fuel) c r) s g any_failure
    (fun r n h => forall w, r = Some w -> good n h w /\ fits c w).
Proof.
  intros Hf Hi Hr. destruct r as [w|]; simpl; [|by apply ends_ret].
  eapply ends_weaken; [apply deeper_ends; [done|done|by apply Hr]|done|]. intros x s1 g1 _ Hx u ->. by destruct Hx as (? & ? & _).
Qed.

Lemma step_free s g s' g' : step s g s' g' -> (free (table s) < k)%nat -> (free (table s') < k)%nat.
Proof. intros Hs. by rewrite (step_table _ _ _ _ Hs). Qed.

Lemma unprefixed_ends c e pl s g : (free (table s) < k)%nat -> inv g s ->
  ends (fun fuel => lookup_unprefixed environ root options (call fuel) c e pl) s g any_failure
    (fun r n h => forall w, r = Some w -> good n h w).
Proof.
  intros Hf Hi. unfold lookup_unprefixed.
  eapply (ends_bind _ _ _ _ _ (fun r n h => forall w, r = Some w -> good n h w)).
  { destruct (0 <? pl); [|by apply ends_ret]. apply peek_ends; [done|done|apply Hi|done]. }
  intros r s1 g1 Hs1 Hr. destruct r as [w|]; [by apply ends_ret; [apply Hs1|]|].
  destruct (use_system_environment options); [|by apply ends_ret; [apply Hs1|]].
  destruct (env_object_good subst_ok environ (next_address s1) g1) as (env & n' & g' & Ee & Hn & Hg & Henv & _ & Hsim).
  eapply (ends_bind _ _ _ _ _ (fun x n h => good n h x /\ is_simple x = true)).
  { eapply ends_value; [apply Hs1|exact Ee|done|exact Hg|]. split; [done|]. by destruct Hsim as (? & ? & ? & ? & ->). }
  intros x s2 g2 Hs2 [Hx Hxs]. apply peek_ends; [|apply Hs2|done|done].
  eapply step_free; [exact Hs2|]. by eapply step_free.
Qed.

Lemma lookup_ends c e pl s g : (free (table s) < k)%nat -> inv g s ->
  0 <= pl -> (Z.to_nat pl < length (path_elements (path_ e)))%nat ->
  ends (fun fuel => lookup_subst environ root options (call fuel) c e pl) s g any_failure
    (fun r n h => forall w, r = Some w -> good n h w /\ fits c w).
Proof.
  intros Hf Hi Hpl Hlen. unfold lookup_subst. eapply ends_bind; [by apply peek_ends; [done|done|apply Hi|]|].
  intros r s1 g1 Hs1 Hr. pose proof (step_free _ _ _ _ Hs1 Hf) as Hf1. destruct r as [w|].
  { exact (found_ends (trace c e) (Some w) s1 g1 Hf1 (step_inv _ _ _ _ Hs1) Hr). }
  assert (exists p, sub_path_from (Z.to_nat pl) (Some (path_ e)) = Some p) as [p ->].
  { pose proof (sub_path_from_elements (Z.to_nat pl) (Some (path_ e))) as Hd.
    destruct (sub_path_from _ _) as [p|]; [by exists p|]. simpl in Hd. apply (f_equal length) in Hd.
    rewrite length_drop in Hd. simpl in Hd. lia. }
  eapply ends_bind; [apply unprefixed_ends; [done|apply Hs1]|].
  intros x s2 g2 Hs2 Hx. apply (found_ends (trace c (change_path e p))); [by eapply step_free|apply Hs2|done].
Qed.

Lemma ends_catch o e F s g (E : resolve_exn -> Prop) (Q : option value -> nat -> heap -> Prop) :
  (forall n h, Q None n h) -> (forall x, document_failure x -> E x) -> ends F s g any_failure Q ->
  ends (fun fuel => catch_not_possible o e (F fuel)) s g E Q.
Proof.
  intros HQ HE (r & s1 & g1 & [N HN] & Hs1 & Hr).
  set (r' := match r with
             | Err (NotPossibleToResolve t) =>
                 if optional_ e then Ok None
                 else Err (UnresolvedSubstitution o
                   (Render.substitution_to_string e ++ $" was part of a cycle of substitutions involving " ++ t))
             | _ => r
             end).
  exists r', s1, g1. split; [|split; [done|]].
  - exists N. intros fuel Hf. unfold catch_not_possible. rewrite HN by done. unfold r'. destruct r as [x|[]]; try done.
    by destruct (optional_ e).
  - unfold r'. destruct r as [x|[]]; try done; simpl in Hr; try (by apply HE). destruct (optional_ e); [done|by apply HE].
Qed.

Lemma reference_ends c a o e pl s g : ready (ConfigReference a o e pl) s g -> table s !! a = None ->
  ends (fun fuel => substitutions fuel (ConfigReference a o e pl) c) s g
    (failure (table s) (size_of (ConfigReference a o e pl))) (result_ok c (ConfigReference a o e pl)).
Proof.
  intros Hrd Ht. destruct (ready_good _ _ _ Hrd) as [Hw [_ (Hr & Hpl & Hlen)]%every_top].
  cbn [resolve_substitutions]. unfold resolve_reference. apply ends_replaced; [apply Hrd|done|done|]. intros Hi.
  eapply (ends_bind _ _ _ _ _ (fun r n h => forall w, r = Some w -> good n h w /\ fits c w)).
  - apply ends_catch; [done|by intros; apply failure_document|]. apply lookup_ends; [|done|done|done].
    rewrite table_replaced. pose proof (free_insert (table s) a SCycle Hr Ht). pose proof (ready_free _ _ _ Hrd). simpl. lia.
  - intros r s1 g1 Hs1 Hr1. destruct r as [w|].
    + apply ends_ret; [apply Hs1|]. destruct (Hr1 w); [done|]. by split_and!.
    + destruct (optional_ e); [by apply ends_ret; [apply Hs1|]|]. by apply ends_throw; [apply Hs1|].
Qed.

Lemma substitutions_ends c v s g : ready v s g -> table s !! addr_of v = None ->
  ends (fun fuel => substitutions fuel v c) s g (failure (table s) (size_of v)) (result_ok c v).
Proof.
  intros Hrd Ht. destruct v as [a o x|a o l|a o m f|a o l|a o e pl|a o l|a o l].
  - apply ends_ret; [apply Hrd|]. split_and!; [exact (ready_good _ _ _ Hrd)|by apply resolved_fits|done].
  - by apply list_ends. - by apply object_ends. - by apply concatenation_ends.
  - by apply reference_ends. - by apply delayed_ends. - by apply delayed_ends.
Qed.

(** ** Replacements *)

(** What stands for a value: itself, or something smaller. *)
Definition stand_in (v r : value) (n : nat) (g : heap) (t : gmap nat skeleton) : Prop :=
  good n g r /\ ((r = v /\ t !! addr_of v = None) \/ (is_simple v = false /\ (size_of r < size_of v)%nat)).

Lemma replacement_ends c v s g : ready v s g ->
  ends (fun _ => replacement c v) s g (failure (table s) (size_of v)) (fun r n h => stand_in v r n h (table s)).
Proof.
  intros Hrd. pose proof (ready_inv _ _ _ Hrd) as Hi. pose proof (ready_good _ _ _ Hrd) as Hv.
  assert (Hst : g (addr_of v) = v) by (destruct Hv as [_ [Hst _]%every_top]; exact Hst).
  destruct (replacements s !! addr_of v) as [rep|] eqn:Er.
  2: { apply (ends_ext _ (fun _ => se_ret v)); [intros _; unfold replacement, se_bind, se_get; by rewrite Er|].
       apply ends_ret; [done|]. split; [done|]. left. split; [done|]. by apply table_None. }
  assert (Htab : table s !! addr_of v = Some (skeleton_of rep)) by (unfold table; by rewrite lookup_fmap, Er).
  destruct rep as [|stack skip made].
  { apply (ends_ext _ (fun _ => se_throw (NotPossibleToResolve (trace_string c))));
      [intros _; unfold replacement, se_bind, se_get; by rewrite Er|].
    apply ends_throw; [done|]. left. by exists (addr_of v). }
  pose proof (inv_entries _ _ Hi _ _ Er) as (Ha & _ & Hd & Hs & Hskip & Hm). rewrite Hst in Hd, Hs, Hm.
  assert (Hsim : is_simple v = false) by (by destruct v). destruct made as [r|].
  { destruct Hm as [Hr Hz]. apply (ends_ext _ (fun _ => se_ret r)); [intros _; unfold replacement, se_bind, se_get; by rewrite Er|].
    apply ends_ret; [done|]. split; [done|by right]. }
  apply (ends_ext _ (fun _ => let* r := make_replacement c stack skip in
    se_modify (fun s => with_replacements (<[addr_of v := Remainder stack skip (Some r)]> (replacements s)) s) ;;* se_ret r));
    [intros _; unfold replacement, se_bind at 1, se_get; by rewrite Er|].
  assert (Hstack : Forall (good (next_address s) g) (drop skip stack)).
  { apply Forall_drop. rewrite <- Hs. by apply unmerged_good. }
  unfold make_replacement. destruct (drop skip stack) as [|x rest] eqn:Ed.
  { eapply (ends_bind _ _ _ _ _ (fun _ _ _ => False)); [|done]. apply ends_throw; [done|]. right.
    exists (addr_of v), (size_of v). split; [|lia]. rewrite Htab. simpl. rewrite Ed, stack_size, Hs by done. done. }
  apply Forall_cons in Hstack as [Hx Hrest].
  destruct (merge_down_good subst_ok rest _ _ x Hx Hrest) as (r & n' & g' & Em & Hn & Hg & Hr & Hwt).
  assert (Hz : (size_of r < size_of v)%nat).
  { pose proof (rest_size stack rest x skip Hskip Ed). rewrite (stack_size v Hd), Hs.
    pose proof (weight_bounds (shape_of r)). pose proof (weight_bounds (shape_of x)). unfold size_of in *. lia. }
  exists (Ok r), (replaced (addr_of v) (Remainder stack skip (Some r)) (with_address n' s)), g'. split; [|split].
  - exists 0%nat. intros _ _. unfold se_bind, lift_value. by rewrite Em.
  - pose proof (state_mono g s n' g' Hn Hg Hi) as Hi'. split; [done|done| |].
    + apply inv_replaced; [done|]. assert (Hv' : good n' g' v) by (by apply good_mono with (next_address s) g).
      simpl. rewrite (Hg _ Ha), Hst. split_and!; try done. lia.
    + rewrite table_replaced. change (table (with_address n' s)) with (table s). apply insert_id. exact Htab.
  - simpl. split; [done|by right].
Qed.

Lemma checking_ends c v s g : ready v s g ->
  ends (fun fuel => resolve_checking_replacement environ root options (call fuel) c v) s g
    (failure (table s) (size_of v)) (result_ok c v).
Proof.
  intros Hrd. unfold resolve_checking_replacement. eapply ends_bind; [by apply replacement_ends|].
  intros r s1 g1 Hs1 [Hr Hcase]. pose proof (step_table _ _ _ _ Hs1) as Et.
  assert (Hv1 : good (next_address s1) g1 v) by (eapply good_mono; [apply Hs1|apply Hs1|exact (ready_good _ _ _ Hrd)]).
  destruct Hcase as [[-> Ht]|[Hsim Hz]].
  - rewrite bool_decide_true by done. rewrite <- Et. apply substitutions_ends; [|by rewrite Et].
    split; [rewrite Et; exact (ready_free _ _ _ Hrd)|exact (ready_size _ _ _ Hrd)|apply Hs1|done].
  - rewrite bool_decide_false.
    2: { intros E. assert (r = v) as -> by (by eapply good_same). lia. }
    eapply ends_weaken; [apply (IHb (size_of r)); [|rewrite Et; exact (ready_free _ _ _ Hrd)|done|apply Hs1|done]| |].
    + pose proof (ready_size _ _ _ Hrd). lia.
    + intros e. rewrite Et. apply failure_mono. lia.
    + intros x s2 g2 _ Hx. destruct x as [w|]; [|done]. destruct Hx as (Hw & Hf & _). split_and!; [done|done|]. by rewrite Hsim.
Qed.

(** ** Memos *)

Lemma memo_found n g key ms w : Forall (memo_ok n g) ms -> memo_find key ms = Some w ->
  good n g w /\ match key.2 with None => is_resolved w = true | Some p => ripe p (shape_of w) end
  /\ (is_simple (g key.1) = true -> is_object w = true).
Proof.
  induction 1 as [|[key' x] ms [_ Hm] _ IH]; [done|]. simpl. case_bool_decide as E; [|done]. subst key'. intros ->. by apply Hm.
Qed.

Lemma memo_ends c v s g : ready v s g ->
  ends (fun _ => find_memo c v) s g (failure (table s) (size_of v)) (fun r n h => forall w, r = Some w -> result_ok c v r n h).
Proof.
  intros Hrd. pose proof (ready_inv _ _ _ Hrd) as Hi. destruct (ready_good _ _ _ Hrd) as [_ [Hst _]%every_top].
  set (full := memo_find (addr_of v, None) (memos s)).
  set (r := match full, restrict_to_child c with None, Some p => memo_find (addr_of v, Some p) (memos s) | _, _ => full end).
  apply (ends_ext _ (fun _ => se_ret r)).
  { intros _. unfold r, full, find_memo, memo_get, se_bind, se_get, se_ret.
    destruct (memo_find (addr_of v, None) (memos s)), (restrict_to_child c); done. }
  apply ends_ret; [done|]. intros w Hw. rewrite Hw. unfold r in Hw. destruct full as [x|] eqn:Ef.
  - injection Hw as <-. apply (memo_found _ _ _ _ _ (inv_memos _ _ Hi)) in Ef as (Hg & Hr & Ho). simpl in *. rewrite Hst in Ho.
    split_and!; [done|by apply resolved_fits|done].
  - destruct (restrict_to_child c) as [p|] eqn:Ec; [|done].
    apply (memo_found _ _ _ _ _ (inv_memos _ _ Hi)) in Hw as (Hg & Hr & Ho). simpl in *. rewrite Hst in Ho.
    split_and!; [done|unfold fits; by rewrite Ec|done].
Qed.

Lemma put_ends key x s g E : inv g s -> memo_ok (next_address s) g (key, x) ->
  ends (fun _ => memo_put key x) s g E (fun _ n h => n = next_address s /\ h = g).
Proof.
  intros [He Hm Hr] Hx. exists (Ok tt), (mkState (next_address s) (replacements s) ((key, x) :: memos s)), g.
  split; [by exists 0%nat|]. split; [|done]. split; [done|done| |done]. split; simpl; [done|by constructor|done].
Qed.

Lemma step_ends c v s g : ready v s g ->
  ends (fun fuel => resolve_step environ root options (call fuel) c v) s g (failure (table s) (size_of v)) (result_ok c v).
Proof.
  intros Hrd. unfold resolve_step. eapply ends_bind; [by apply memo_ends|]. intros cached s1 g1 Hs1 Hm.
  destruct cached as [w|]; [apply ends_ret; [apply Hs1|by eapply Hm]|].
  pose proof (step_table _ _ _ _ Hs1) as Et. rewrite <- Et.
  assert (Hrd1 : ready v s1 g1).
  { split; [rewrite Et; exact (ready_free _ _ _ Hrd)|exact (ready_size _ _ _ Hrd)|apply Hs1|].
    eapply good_mono; [apply Hs1|apply Hs1|exact (ready_good _ _ _ Hrd)]. }
  eapply ends_bind; [by apply checking_ends|]. intros x s2 g2 Hs2 Hx.
  assert (Hv2 : good (next_address s2) g2 v) by (eapply good_mono; [apply Hs2|apply Hs2|exact (ready_good _ _ _ Hrd1)]).
  pose proof Hv2 as [Hw2 [Hst _]%every_top]. apply wf_addr in Hw2.
  eapply (ends_bind _ _ _ _ _ (fun _ n h => n = next_address s2 /\ h = g2)).
  - unfold put_memo. destruct (resolved_or_null x) eqn:Er.
    + apply put_ends; [apply Hs2|]. split; [done|]. simpl. intros w ->. destruct Hx as (Hg & _ & Ho). by rewrite Hst.
    + destruct x as [w|]; [|done]. destruct Hx as (Hg & Hf & Ho). unfold fits in Hf. simpl in Er.
      destruct (restrict_to_child c) as [p|]; [|congruence]. apply put_ends; [apply Hs2|].
      split; [done|]. simpl. intros ? [= <-]. by rewrite Hst.
  - intros _ s3 g3 Hs3 [En ->]. apply ends_ret; [apply Hs3|]. by rewrite En.
Qed.

Lemma call_ends c v s g : ready v s g ->
  ends (fun fuel => call fuel c v) s g (failure (table s) (size_of v)) (result_ok c v).
Proof.
  intros Hrd. destruct (step_ends c v s g Hrd) as (r & s1 & g1 & [N HN] & Hs). exists r, s1, g1. split; [|done].
  exists (S N). intros [|fuel] Hf; [lia|]. cbn [resolve]. apply HN. lia.
Qed.
End Step.

Lemma resolve_ends k : is_simple root = true -> forall b, ends_at k b.
Proof.
  intros Hroot. induction k as [k IHk] using (well_founded_induction lt_wf). intros b.
  induction b as [b IHb] using (well_founded_induction lt_wf). intros c v s g Hk Hb Hi Hv.
  apply (call_ends k b); [intros; by apply IHk|intros; by apply IHb|done|by split].
Qed.
End ResolveTotal.

(** ** Whole configurations *)

Section Configurations.
Context `{DoubleLib}.

Fixpoint nodes (v : value) : list value :=
  v :: match v with
       | Scalar _ _ _ | ConfigReference _ _ _ _ => []
       | SimpleConfigList _ _ l | ConfigConcatenation _ _ l | ConfigDelayedMerge _ _ l | ConfigDelayedMergeObject _ _ l =>
           concat (map nodes l)
       | SimpleConfigObject _ _ m _ => concat (map (fun kv => nodes kv.2) m)
       end.

(** One object per address. *)
Definition coherent (v : value) : Prop := forall u w, u ∈ nodes v -> w ∈ nodes v -> addr_of u = addr_of w -> u = w.

(** A reference has a path that is longer than the prefix it was moved under. *)
Definition prefixes_ok (v : value) : Prop := forall a o e k, ConfigReference a o e k ∈ nodes v ->
  0 <= k /\ (Z.to_nat k < length (path_elements (path_ e)))%nat.

Lemma nodes_children v : nodes v = v :: concat (map nodes (children v)).
Proof. destruct v; try done. simpl. f_equal. f_equal. induction value_ as [|[k w] m IH]; [done|]. simpl. by rewrite IH. Qed.

Lemma every_nodes P v : (forall u, u ∈ nodes v -> P u) -> every P v.
Proof.
  revert v. refine (value_child_ind _ _). intros v IH Hv. rewrite nodes_children in Hv. constructor; [apply Hv; by left|].
  rewrite Forall_forall in *. intros u Hu. apply IH; [done|]. intros w Hw. apply Hv. right.
  apply list_elem_of_In, in_concat. exists (nodes u). split; [by apply in_map, list_elem_of_In|by apply list_elem_of_In].
Qed.

Definition references (v : value) : gset nat :=
  list_to_set (omap (fun u => match u with ConfigReference a _ _ _ => Some a | _ => None end) (nodes v)).

Lemma stored_nodes v : coherent v -> prefixes_ok v ->
  exists g, every (stored (subst_ok (references v)) g) v.
Proof.
  intros Hc Hp. exists (fun a => match list_find (fun u => addr_of u = a) (nodes v) with Some (_, u) => u | None => v end).
  apply every_nodes. intros u Hu. split.
  - destruct (list_find _ (nodes v)) as [[i w]|] eqn:E.
    + apply list_find_Some in E as (Hw & Ha & _). apply Hc; [by eapply list_elem_of_lookup_2|done|done].
    + apply list_find_None in E. rewrite Forall_forall in E. by destruct (E u Hu).
  - destruct u as [| | | |a o e k| |]; try done. split; [|by eapply Hp]. apply elem_of_list_to_set.
    apply list_elem_of_omap. by exists (ConfigReference a o e k).
Qed.

(** C2: resolving the substitutions of any configuration ends, whatever cycles there
    are in it: with enough fuel the answer does not change any more, and it is a
    resolved, well-formed object, or an error in the document: a substitution
    that is undefined or part of a cycle, values that cannot be concatenated, or
    a concatenation all of whose parts are undefined.  No other exception of the
    resolver can occur: nothing is replaced twice, nothing is left replaced, no
    lookup meets an unresolved value, and [NotPossibleToResolve] does not
    escape. *)
Theorem resolve_total environ options root n :
  wf n root -> coherent root -> prefixes_ok root -> is_simple root = true ->
  exists enough r, (forall fuel, (enough <= fuel)%nat -> resolve_config environ options fuel root n = r)
    /\ match r with
       | Ok (Some v) => is_resolved v = true /\ is_object v = true /\ exists n', wf n' v
       | Ok None => False
       | Err e => document_failure e
       end.
Proof.
  intros Hw Hc Hp Hroot. destruct (stored_nodes root Hc Hp) as [g Hg].
  assert (Hi : inv root (references root) g (mkState n ∅ [])) by (split; [apply map_Forall_empty|constructor|by split]).
  destruct (resolve_ends environ root options (references root) _ Hroot _ (mkContext None []) root _ g (le_n _) (le_n _) Hi)
    as (r & s' & g' & [N HN] & _ & Hr); [by split|].
  unfold resolve_config, resolve_value. exists N. destruct r as [r|e].
  - exists (Ok r). split; [intros fuel Hf; by rewrite HN|]. destruct r as [v|]; simpl in Hr; [|congruence].
    destruct Hr as ([Hwv _] & Hres & Ho). split_and!; [exact Hres|by apply Ho|by exists (next_address s')].
  - assert (Hd : document_failure e /\ forall t, e <> NotPossibleToResolve t).
    { destruct e; try done. simpl in Hr. unfold table in Hr. cbn [replacements] in Hr. rewrite fmap_empty in Hr.
      destruct Hr as [(a & Ha)|(a & t & Ha & _)]; by rewrite lookup_empty in Ha. }
    exists (Err e). split; [|apply Hd]. intros fuel Hf. rewrite HN by done. destruct e; try done. by destruct Hd as [_ Hd]; destruct (Hd trace_string).
Qed.
End Configurations.

(** ** A concrete configuration *)

#[local] Existing Instance whole_doubles.

Definition ref (a : nat) (p : Path) (optional : bool) : value := ConfigReference a app_origin (mkSubst p optional) 0.
Definition num (a : nat) (z : Z) : value := Scalar a app_origin (ConfigInt z (dec_string z)).

(** [d : {z : ${a.y}}, a : ${d}, a : {x : 1, y : ${b}}, b : ${a.x}, l : [${?missing},
    ${a.y}]]: a merge stack, and references into it and out of it. *)
Definition tangled : value :=
  SimpleConfigObject 0 app_origin
    [($"d", SimpleConfigObject 10 app_origin [($"z", ref 11 (More $"a" (One $"y")) false)] false);
     ($"a", ConfigDelayedMergeObject 1 app_origin
              [SimpleConfigObject 2 app_origin [($"x", num 3 1); ($"y", ref 4 (One $"b") false)] false; ref 5 (One $"d") false]);
     ($"b", ref 6 (More $"a" (One $"x")) false);
     ($"l", SimpleConfigList 7 app_origin [ref 8 (One $"missing") true; ref 9 (More $"a" (One $"y")) false])] false.

Lemma tangled_wf : wf 12 tangled.
Proof. concrete_wf. Qed.

Lemma distinct_coherent v : NoDup (map addr_of (nodes v)) -> coherent v.
Proof.
  intros Hnd u w Hu Hw Ha. apply list_elem_of_lookup_1 in Hu as [i Hi]. apply list_elem_of_lookup_1 in Hw as [j Hj].
  assert (i = j) as <-; [|congruence]. eapply NoDup_lookup; [exact Hnd| |]; rewrite list_lookup_fmap; [rewrite Hi|rewrite Hj]; simpl; by f_equal.
Qed.

Lemma resolve_total_witness :
  exists enough r, (forall fuel, (enough <= fuel)%nat -> resolve_config [] no_system fuel tangled 12 = r)
    /\ match r with Ok (Some v) => is_resolved v = true | Ok None => False | Err e => document_failure e end.
Proof.
  destruct (resolve_total [] no_system tangled 12) as (enough & r & Hr & Hp).
  - apply tangled_wf.
  - apply distinct_coherent. apply (bool_decide_unpack _). vm_compute. exact I.
  - intros a o e k Hk. unfold tangled, ref, num in Hk. simpl in Hk.
    repeat (apply elem_of_cons in Hk as [Hk|Hk]; [try discriminate Hk; injection Hk as -> -> -> ->; split; simpl; lia|]).
    by apply not_elem_of_nil in Hk.
  - reflexivity.
  - exists enough, r. split; [exact Hr|]. by destruct r as [[v|]|e]; [destruct Hp| |].
Defined.

(** What it resolves to; a cycle that nothing breaks; a self-reference that looks
    back; a concatenation of nothing. *)
Example tangled_resolved :
  exists v, resolve_config [] no_system 30 tangled 12 = Ok (Some v)
    /\ shape_of v = HObject
         [($"d", HObject [($"z", HScalar (ConfigInt 1 $"1"))] false);
          ($"a", HObject [($"x", HScalar (ConfigInt 1 $"1")); ($"y", HScalar (ConfigInt 1 $"1")); ($"z", HScalar (ConfigInt 1 $"1"))] false);
          ($"b", HScalar (ConfigInt 1 $"1")); ($"l", HList [HScalar (ConfigInt 1 $"1")])] false.
Proof. eexists. split; [vm_compute; reflexivity|]. vm_compute. reflexivity. Qed.

Example bare_cycle :
  exists o d, resolve_config [] no_system 30
    (SimpleConfigObject 0 app_origin [($"a", ref 1 (One $"b") false); ($"b", ref 2 (One $"a") false)] false) 3
  = Err (UnresolvedSubstitution o d).
Proof. eexists _, _. vm_compute. reflexivity. Qed.

Example look_back :
  exists v, resolve_config [] no_system 30
    (SimpleConfigObject 0 app_origin
       [($"p", ConfigDelayedMerge 1 app_origin
                 [ConfigConcatenation 2 app_origin [ref 3 (One $"p") false; Scalar 4 app_origin (ConfigString $":x")];
                  Scalar 5 app_origin (ConfigString $"y")])] false) 6 = Ok (Some v)
    /\ shape_of v = HObject [($"p", HScalar (ConfigString $"y:x"))] false.
Proof. eexists. split; [vm_compute; reflexivity|]. vm_compute. reflexivity. Qed.

Example nothing_to_join :
  resolve_config [] no_system 30
    (SimpleConfigObject 0 app_origin
       [($"a", ConfigConcatenation 1 app_origin [ref 2 (One $"x") true; ref 3 (One $"y") true])] false) 4
  = Err (ValueError no_pieces).
Proof. vm_compute. reflexivity. Qed.

(** What is resolved while a merge stack is replaced is remembered beyond it:
    [a = foo, a = ${c}bar, c = ${a}] gives [c] the value below the stack, and with
    the keys in the other order it is a cycle. *)
Definition looped (first_a : bool) : value :=
  let a := ($"a", ConfigDelayedMerge 1 app_origin
                    [ConfigConcatenation 2 app_origin [ref 3 (One $"c") false; Scalar 4 app_origin (ConfigString $"bar")];
                     Scalar 5 app_origin (ConfigString $"foo")]) in
  let c := ($"c", ref 6 (One $"a") false) in
  SimpleConfigObject 0 app_origin (if first_a then [a; c] else [c; a]) false.

Example memo_outlives_replacement :
  (exists v, resolve_config [] no_system 30 (looped true) 7 = Ok (Some v)
     /\ shape_of v = HObject [($"a", HScalar (ConfigString $"foobar")); ($"c", HScalar (ConfigString $"foo"))] false)
  /\ exists o d, resolve_config [] no_system 30 (looped false) 7 = Err (UnresolvedSubstitution o d).
Proof.
  split; [eexists; split; [vm_compute; reflexivity|]; vm_compute; reflexivity|]. eexists _, _. vm_compute. reflexivity.
Qed.

(** A variable whose value has an equals sign is not seen. *)
Example env_equals_sign : load_env_variables [$"HOME=/root"; $"OPTS=a=b"] = [($"HOME", $"/root")].
Proof. reflexivity. Qed.
