(* ===== verification/AnyRef.v ===== *)
(** * config/src/detail/config_impl.cpp: values from plain data

    [from_any_ref] and [from_path_map] make configuration values from variants
    (numbers, strings, lists, maps), and [unwrapped] turns values into variants.
    The sources compare the origin with a static one and share a few static
    values; their addresses are parameters. *)

From S2P Require Import Prelude CLib Token Path PathParse Origin Value ValueMerge ValueEdit.

Open Scope Z_scope.

Section AnyRef.
Context `{DoubleLib}.

(** ** ConfigVariant *)

(** A map has distinct keys; [VBase] is a pointer to an object of the library. *)
Inductive variant :=
| VNull
| VInt (z : Z)
| VInt64 (z : Z)
| VDouble (d : double)
| VBool (b : bool)
| VString (s : str)
| VBase (p : nat)
| VMap (m : list (str * variant))
| VList (l : list variant).

(** [unwrapped] of every class. *)
Definition unwrapped_scalar (x : scalar) : variant :=
  match x with
  | ConfigString s => VString s
  | ConfigInt z _ => VInt z
  | ConfigInt64 z _ => VInt64 z
  | ConfigDouble d _ => VDouble d
  | ConfigBoolean b => VBool b
  | ConfigNull => VNull
  end.

Section TraverseRes.
Context {E A B : Type} (f : A -> res E B).
Fixpoint traverse (l : list A) : res E (list B) :=
  match l with [] => Ok [] | x :: l' => y ← f x; ys ← traverse l'; Ok (y :: ys) end.
End TraverseRes.

Fixpoint unwrapped (v : value) : res value_exn variant :=
  match v with
  | Scalar _ _ x => Ok (unwrapped_scalar x)
  | SimpleConfigList _ _ l => xs ← traverse unwrapped l; Ok (VList xs)
  | SimpleConfigObject _ _ m _ =>
      es ← traverse (fun kv : str * value => x ← unwrapped kv.2; Ok (kv.1, x)) m; Ok (VMap es)
  | _ => Err NotResolved
  end.

(** ** Origins and static values *)

Inductive FromMapMode := KEYS_ARE_PATHS | KEYS_ARE_KEYS.

(** The pointer [default_value_origin()], or another one. *)
Inductive origin_ptr := DefaultOrigin | GivenOrigin (o : SimpleConfigOrigin).

Definition default_value_origin : SimpleConfigOrigin := mkOrigin $"hardcoded value" (-1) (-1) GENERIC [].
Definition origin_at (p : origin_ptr) : SimpleConfigOrigin :=
  match p with DefaultOrigin => default_value_origin | GivenOrigin o => o end.

Record static_values := mkStatics {
  true_address : nat; false_address : nat; null_address : nat; object_address : nat; list_address : nat }.
Variable statics : static_values.

Definition default_true_value : value := Scalar (true_address statics) default_value_origin (ConfigBoolean true).
Definition default_false_value : value := Scalar (false_address statics) default_value_origin (ConfigBoolean false).
Definition default_null_value : value := Scalar (null_address statics) default_value_origin ConfigNull.
Definition default_empty_object : value := SimpleConfigObject (object_address statics) default_value_origin [] false.
Definition default_empty_list : value := SimpleConfigList (list_address statics) default_value_origin [].

Inductive impl_exn := BadPathExpression (e : bad_path) | ImplError (e : value_exn).
Abbreviation I A := (SE nat impl_exn A).

Definition lift_impl {A} (m : M A) : I A := fun n =>
  match m n with (Ok a, n') => (Ok a, n') | (Err e, n') => (Err (ImplError e), n') end.

Definition value_origin (origin_description : str) : I origin_ptr :=
  if bool_decide (origin_description = []) then se_ret DefaultOrigin
  else let* o := lift_impl (lift_origin (new_simple origin_description)) in se_ret (GivenOrigin o).

Definition empty_object (p : origin_ptr) : I value :=
  match p with
  | DefaultOrigin => se_ret default_empty_object
  | GivenOrigin o => lift_impl (simple_object o [])
  end.

Definition empty_list (p : origin_ptr) : I value :=
  match p with
  | DefaultOrigin => se_ret default_empty_list
  | GivenOrigin o => lift_impl (simple_list o [])
  end.

Definition from_null (p : origin_ptr) : I value :=
  match p with
  | GivenOrigin o => lift_impl (new (fun a => Scalar a o ConfigNull))
  | DefaultOrigin => se_ret default_null_value
  end.

Definition from_bool (p : origin_ptr) (b : bool) : I value :=
  match p with
  | GivenOrigin o => lift_impl (new (fun a => Scalar a o (ConfigBoolean b)))
  | DefaultOrigin => se_ret (if b then default_true_value else default_false_value)
  end.

(** ** from_path_map *)

Section Loops.
Context {A B : Type} (f : A -> I B).
Fixpoint mapI (l : list A) : I (list B) :=
  match l with [] => se_ret [] | x :: l' => let* y := f x in let* ys := mapI l' in se_ret (y :: ys) end.
End Loops.

(** Maps keyed by paths: [m[p] = x], and [m[p]] for a path that is there. *)
Fixpoint path_put {A} (p : Path) (x : A) (m : list (Path * A)) : list (Path * A) :=
  match m with
  | [] => [(p, x)]
  | (q, y) :: m' => if bool_decide (q = p) then (q, x) :: m' else (q, y) :: path_put p x m'
  end.
Fixpoint path_find {A} (p : Path) (m : list (Path * A)) : option A :=
  match m with [] => None | (q, x) :: m' => if bool_decide (q = p) then Some x else path_find p m' end.

Definition set_insert (p : Path) (s : list Path) : list Path := if bool_decide (p ∈ s) then s else s ++ [p].

(** The parents of a path, all of them scopes. *)
Fixpoint insert_parents (fuel : nat) (next : option Path) (scopes : list Path) : res path_exn (list Path) :=
  match next with
  | None => Ok scopes
  | Some p =>
      match fuel with
      | O => Err NullPath
      | S fuel' => q ← parent p; insert_parents fuel' q (set_insert p scopes)
      end
  end.

Fixpoint scope_paths_of (paths : list Path) (scopes : list Path) : res path_exn (list Path) :=
  match paths with
  | [] => Ok scopes
  | p :: paths' =>
      q ← parent p;
      scopes ← insert_parents (path_size p) q scopes;
      scope_paths_of paths' scopes
  end.

Fixpoint parse_keys {X} (entries : list (str * X)) (path_map : list (Path * X)) : I (list (Path * X)) :=
  match entries with
  | [] => se_ret path_map
  | (k, x) :: entries' =>
      match parse_path k with
      | Ok (Some p) => parse_keys entries' (path_put p x path_map)
      | Ok None => se_throw (ImplError Undefined)
      | Err e => se_throw (BadPathExpression e)
      end
  end.

Fixpoint check_scopes (value_paths scope_paths : list Path) : I unit :=
  match value_paths with
  | [] => se_ret tt
  | p :: ps =>
      if bool_decide (p ∈ scope_paths) then
        se_throw (ImplError (Bug ($"_in the map, path '" ++ render p
          ++ $"' occurs as both the parent object of a value and as a value. "
          ++ $"_because _map has no defined ordering, this is a broken situation.")))
      else check_scopes ps scope_paths
  end.

(** [root] and [scopes]. *)
Abbreviation scopes_t := (vmap * list (Path * vmap))%type.

(** [parent[last] = v] in the scope of the path's parent. *)
Definition put_in_scope (p : Path) (v : value) (sc : scopes_t) : I scopes_t :=
  let* q := lift_impl (lift_path (parent p)) in
  let '(root, scopes) := sc in
  match q with
  | None => se_ret (map_put (path_last p) v root, scopes)
  | Some q =>
      let m := match path_find q scopes with Some m => m | None => [] end in
      se_ret (root, path_put q (map_put (path_last p) v m) scopes)
  end.

Fixpoint store_values (path_map : list (Path * I value)) (sc : scopes_t) : I scopes_t :=
  match path_map with
  | [] => se_ret sc
  | (p, make) :: rest =>
      let* v := make in
      let* sc := put_in_scope p v sc in
      store_values rest sc
  end.

(** [std::sort] from the longest to the shortest; which of two paths of the same
    length comes first does not matter. *)
Fixpoint sort_insert (p : Path) (l : list Path) : list Path :=
  match l with
  | [] => [p]
  | q :: l' => if path_length q <? path_length p then p :: l else q :: sort_insert p l'
  end.
Definition sort_paths (l : list Path) : list Path := foldr sort_insert [] l.

Fixpoint make_scopes (o : SimpleConfigOrigin) (sorted_scope_paths : list Path) (sc : scopes_t) : I scopes_t :=
  match sorted_scope_paths with
  | [] => se_ret sc
  | p :: rest =>
      let m := match path_find p sc.2 with Some m => m | None => [] end in
      let* obj := lift_impl (make_object o m true false) in
      let* sc := put_in_scope p obj sc in
      make_scopes o rest sc
  end.

(** Each value of the map comes as the computation that makes it. *)
Definition from_path_map (o : SimpleConfigOrigin) (path_expression_map : list (str * I value)) : I value :=
  let* path_map := parse_keys path_expression_map [] in
  let value_paths := path_map.*1 in
  let* scope_paths := lift_impl (lift_path (scope_paths_of value_paths [])) in
  check_scopes value_paths scope_paths ;;*
  let* sc := store_values path_map ([], map (fun p => (p, [])) scope_paths) in
  let* sc := make_scopes o (sort_paths scope_paths) sc in
  lift_impl (make_object o sc.1 true false).

(** ** from_any_ref *)

Fixpoint from_any_ref (origin : origin_ptr) (map_mode : FromMapMode) (object : variant) {struct object} : I value :=
  let o := origin_at origin in
  match object with
  | VNull => from_null origin
  | VBool b => from_bool origin b
  | VString s => lift_impl (new (fun a => Scalar a o (ConfigString s)))
  | VInt z => lift_impl (new (fun a => Scalar a o (ConfigInt z [])))
  | VInt64 z => lift_impl (new (fun a => Scalar a o (ConfigInt64 z [])))
  | VDouble d => lift_impl (new (fun a => Scalar a o (ConfigDouble d [])))
  | VMap m =>
      if bool_decide (length m = 0%nat) then empty_object origin
      else match map_mode with
           | KEYS_ARE_KEYS =>
               let* values := mapI (fun e : str * variant =>
                 let* v := from_any_ref origin map_mode e.2 in se_ret (e.1, v)) m in
               lift_impl (simple_object o values)
           | KEYS_ARE_PATHS => from_path_map o (map (fun e => (e.1, from_any_ref origin KEYS_ARE_PATHS e.2)) m)
           end
  | VList l =>
      if bool_decide (length l = 0%nat) then empty_list origin
      else
        let* values := mapI (from_any_ref origin map_mode) l in
        lift_impl (simple_list o values)
  | VBase _ => se_throw (ImplError (Bug $"bug in method caller: not valid to createConfigValue from: "))
  end.

(** The public entries. *)
Definition value_from_any_ref (object : variant) (origin_description : str) : I value :=
  let* origin := value_origin origin_description in from_any_ref origin KEYS_ARE_KEYS object.

Definition value_from_path_map (path_map : list (str * variant)) (origin_description : str) : I value :=
  let* origin := value_origin origin_description in from_any_ref origin KEYS_ARE_PATHS (VMap path_map).
End AnyRef.

Abbreviation I A := (SE nat impl_exn A).
