(* ===== verification/AnyRefExact.v ===== *)
(** * Values from plain data: what they hold

    A value made from a variant unwraps to that variant; a map whose keys are
    paths becomes the object that has each value at its path and nothing else. *)

From S2P Require Import Prelude CLib Token Path PathParse Origin Value ValueMerge ValueEdit AnyRef.

Open Scope Z_scope.

Section AnyRefExact.
Context `{DoubleLib}.
Variable statics : static_values.

(** ** Round trip *)

Lemma variant_tree_ind (P : variant -> Prop)
  (Hn : P VNull) (Hi : forall z, P (VInt z)) (Hl : forall z, P (VInt64 z)) (Hd : forall d, P (VDouble d))
  (Hb : forall b, P (VBool b)) (Hs : forall s, P (VString s)) (Hp : forall p, P (VBase p))
  (Hm : forall m, Forall (fun kv => P kv.2) m -> P (VMap m)) (Hv : forall l, Forall P l -> P (VList l)) :
  forall x, P x.
Proof.
  fix IH 1.
  intros [|z|z|d|b|s|p|m|l]; [apply Hn|apply Hi|apply Hl|apply Hd|apply Hb|apply Hs|apply Hp|apply Hm|apply Hv].
  - induction m as [|[k x] m IHm]; constructor; [apply IH|apply IHm].
  - induction l as [|x l IHl]; constructor; [apply IH|apply IHl].
Qed.

(** A variant without pointers, whose maps have distinct keys. *)
Inductive plain : variant -> Prop :=
| plain_null : plain VNull
| plain_int z : plain (VInt z)
| plain_int64 z : plain (VInt64 z)
| plain_double d : plain (VDouble d)
| plain_bool b : plain (VBool b)
| plain_string s : plain (VString s)
| plain_map m : NoDup m.*1 -> Forall (fun kv => plain kv.2) m -> plain (VMap m)
| plain_list l : Forall plain l -> plain (VList l).

Definition statics_below (n : nat) : Prop :=
  (true_address statics < n)%nat /\ (false_address statics < n)%nat /\ (null_address statics < n)%nat
  /\ (object_address statics < n)%nat /\ (list_address statics < n)%nat.

Lemma default_origin_good : good_origin default_value_origin.
Proof. apply (good_by_char "d"%char); by apply (bool_decide_unpack _). Qed.

(** A resolved value that unwraps to [x]. *)
Definition holds_variant (n : nat) (x : variant) (r : res impl_exn value * nat) : Prop :=
  exists v n', r = (Ok v, n') /\ (n <= n')%nat /\ wf n' v /\ is_resolved v = true /\ unwrapped v = Ok x.

Lemma traverse_all {E A B} (f : A -> res E B) l ys :
  Forall2 (fun x y => f x = Ok y) l ys -> traverse f l = Ok ys.
Proof. induction 1 as [|x y l ys Hx _ IH]; [done|]. simpl. rewrite Hx. simpl. by rewrite IH. Qed.

Lemma mapI_values {X} (f : X -> I value) (g : X -> variant) l : forall n,
  Forall (fun x => forall n, statics_below n -> holds_variant n (g x) (f x n)) l -> statics_below n ->
  exists vs n', mapI f l n = (Ok vs, n') /\ (n <= n')%nat /\ Forall (wf n') vs /\ forallb is_resolved vs = true
    /\ Forall2 (fun v x => unwrapped v = Ok (g x)) vs l.
Proof.
  induction l as [|x l IH]; intros n Hall Hs; [by exists [], n|]. apply Forall_cons in Hall as [Hx Hl]. cbn [mapI]. unfold se_bind.
  destruct (Hx n Hs) as (v & n1 & -> & Hn1 & Hv & Hr & Hu).
  destruct (IH n1 Hl) as (vs & n2 & -> & Hn2 & Hvs & Hrs & Hus); [unfold statics_below in *; lia|].
  eexists _, n2. split; [done|]. split_and!; [lia| |simpl; by rewrite Hr|by constructor].
  constructor; [by apply wf_mono with n1|done].
Qed.

Lemma statics_mono n n' : (n <= n')%nat -> statics_below n -> statics_below n'.
Proof. unfold statics_below. lia. Qed.

Lemma entries_unwrapped {X} (g : X -> variant) (vs : list (str * value)) (l : list (str * X)) :
  Forall2 (fun kv e => kv.1 = e.1 /\ unwrapped kv.2 = Ok (g e.2)) vs l ->
  traverse (fun kv : str * value => x ← unwrapped kv.2; Ok (kv.1, x)) vs = Ok (map (fun e => (e.1, g e.2)) l).
Proof.
  induction 1 as [|[k v] [k' x] vs l [Hk Hu] _ IH]; [done|]. simpl in *. rewrite Hu. simpl. rewrite IH. simpl. by subst.
Qed.

Lemma mapI_entries (f : variant -> I value) (m : list (str * variant)) : forall n,
  Forall (fun e => forall n, statics_below n -> holds_variant n e.2 (f e.2 n)) m -> statics_below n ->
  exists vs n', mapI (fun e : str * variant => let* v := f e.2 in se_ret (e.1, v)) m n = (Ok vs, n') /\ (n <= n')%nat
    /\ vs.*1 = m.*1 /\ Forall (fun kv => wf n' kv.2) vs /\ from_map vs = true
    /\ Forall2 (fun kv e => kv.1 = e.1 /\ unwrapped kv.2 = Ok e.2) vs m.
Proof.
  induction m as [|[k x] m IH]; intros n Hall Hs; [by exists [], n|]. apply Forall_cons in Hall as [Hx Hm]. cbn [mapI]. unfold se_bind.
  destruct (Hx n Hs) as (v & n1 & E & Hn1 & Hv & Hr & Hu). simpl in E. cbn [snd fst]. rewrite E. cbn [se_ret].
  destruct (IH n1 Hm) as (vs & n2 & E2 & Hn2 & Hk & Hvs & Hrs & Hus); [by apply statics_mono with n|].
  unfold se_bind in E2. rewrite E2. eexists _, n2. split; [done|]. split_and!; [lia|by rewrite !fmap_cons, Hk| | |by constructor].
  - constructor; [by apply wf_mono with n1|done].
  - simpl. by rewrite Hr.
Qed.

Lemma new_holds n o s x : good_origin o -> unwrapped_scalar s = x ->
  holds_variant n x (lift_impl (new (fun a => Scalar a o s)) n).
Proof.
  intros Ho <-. exists (Scalar n o s), (S n). split; [done|]. split_and!; [lia| |done|done]. constructor; [lia|done].
Qed.

Lemma static_holds n v x : wf n v -> is_resolved v = true -> unwrapped v = Ok x -> holds_variant n x (se_ret v n).
Proof. intros Hv Hr Hu. exists v, n. by split_and!. Qed.


(** ** Paths and scopes *)

Definition par (p : Path) : option Path := of_elements (removelast (path_elements p)).

Lemma elements_ne p : path_elements p <> [].
Proof. by destruct p. Qed.

Lemma elements_split p : path_elements p = ptr_elements (par p) ++ [path_last p].
Proof.
  unfold par. rewrite of_elements_spec. rewrite (app_removelast_last [] (elements_ne p)) at 1. f_equal. f_equal.
  pose proof (last_spec p) as Hl. revert Hl. generalize (path_elements p). intros l Hl.
  induction l as [|x [|y l] IH]; [done|by injection Hl|]. by apply IH.
Qed.

Lemma elements_inj p q : path_elements p = path_elements q -> p = q.
Proof. intros E. assert (Some p = Some q) as [= ->]; [by apply ptr_elements_inj|done]. Qed.

Lemma path_exists ks : ks <> [] -> exists p, path_elements p = ks.
Proof.
  intros Hne. pose proof (of_elements_spec ks) as Hs. destruct (of_elements ks) as [p|]; [by exists p|]. simpl in Hs. by subst.
Qed.

Lemma child_path s k : exists p, path_elements p = s ++ [k] /\ ptr_elements (par p) = s /\ path_last p = k.
Proof.
  destruct (path_exists (s ++ [k])) as [p Hp]; [by destruct s|]. exists p. split; [done|].
  rewrite elements_split in Hp. by apply app_inj_tail in Hp.
Qed.

(** [q] is a proper parent of [p]. *)
Definition above (q p : Path) : Prop := exists k r, path_elements p = path_elements q ++ k :: r.

Lemma set_insert_spec p s q : q ∈ set_insert p s <-> q = p \/ q ∈ s.
Proof.
  unfold set_insert. case_bool_decide as Hp; [naive_solver|]. rewrite elem_of_app, list_elem_of_singleton. naive_solver.
Qed.

Lemma set_insert_nodup p s : NoDup s -> NoDup (set_insert p s).
Proof.
  intros Hs. unfold set_insert. case_bool_decide as Hp; [done|]. apply NoDup_app. split; [done|]. split; [|apply NoDup_singleton].
  intros x Hx ->%list_elem_of_singleton. done.
Qed.

Lemma insert_parents_spec fuel : forall next scopes,
  (length (ptr_elements next) <= fuel)%nat -> NoDup scopes ->
  exists r, insert_parents fuel next scopes = Ok r /\ NoDup r
    /\ forall q, q ∈ r <-> q ∈ scopes \/ exists t, ptr_elements next = path_elements q ++ t.
Proof.
  assert (Hnone : forall (scopes : list Path) q, q ∈ scopes <-> q ∈ scopes \/ exists t, [] = path_elements q ++ t).
  { intros scopes q. split; [by left|]. intros [Hq|[t Ht]]; [done|]. by destruct q. }
  induction fuel as [|fuel IH]; intros next scopes Hl Hnd; (destruct next as [p|]; [|exists scopes; split_and!; [done..|apply Hnone]]).
  { destruct p; simpl in Hl; lia. }
  cbn [insert_parents]. rewrite parent_spec. fold (par p). simpl mbind. pose proof (elements_split p) as Hp.
  destruct (IH (par p) (set_insert p scopes)) as (r & -> & Hr & Hq).
  { simpl ptr_elements in Hl. rewrite Hp, length_app in Hl. simpl in Hl. lia. } { by apply set_insert_nodup. }
  exists r. split_and!; [done|done|]. intros q. rewrite Hq, set_insert_spec. simpl ptr_elements. split.
  - intros [[->|Hs]|[t Ht]]; [right; exists []; by rewrite app_nil_r|by left|]. right. exists (t ++ [path_last p]).
    by rewrite Hp, Ht, app_assoc.
  - intros [Hs|[t Ht]]; [by left; right|]. destruct (list_snoc_cases t) as [->|(t' & k & ->)].
    + rewrite app_nil_r in Ht. left. left. symmetry. by apply elements_inj.
    + right. exists t'. rewrite Hp, app_assoc in Ht. by apply app_inj_tail in Ht as [? _].
Qed.

Lemma above_par q p : above q p <-> exists t, ptr_elements (par p) = path_elements q ++ t.
Proof.
  split.
  - intros (k & r & E). rewrite elements_split in E. destruct (list_snoc_cases (k :: r)) as [?|(r' & k' & Er)]; [done|].
    rewrite Er, app_assoc in E. apply app_inj_tail in E as [E _]. by exists r'.
  - intros [t Ht]. unfold above. rewrite elements_split, Ht, <- app_assoc. destruct t as [|k t]; simpl; eauto.
Qed.

Lemma scope_paths_spec paths : forall scopes, NoDup scopes ->
  exists r, scope_paths_of paths scopes = Ok r /\ NoDup r
    /\ forall q, q ∈ r <-> q ∈ scopes \/ exists p, p ∈ paths /\ above q p.
Proof.
  induction paths as [|p paths IH]; intros scopes Hnd.
  { exists scopes. split_and!; [done|done|]. intros q. split; [by left|]. intros [?|(p & Hp & _)]; [done|by apply not_elem_of_nil in Hp]. }
  cbn [scope_paths_of]. rewrite parent_spec. fold (par p). simpl mbind.
  destruct (insert_parents_spec (path_size p) (par p) scopes) as (r & -> & Hr & Hq); [|done|].
  { rewrite path_size_elements, elements_split, length_app. simpl. lia. }
  simpl mbind. destruct (IH r Hr) as (r' & -> & Hr' & Hq'). exists r'. split_and!; [done|done|]. intros q.
  rewrite Hq', Hq, <- above_par. split.
  - intros [[?|?]|(p' & ? & ?)]; [by left|right; exists p; split; [by left|done]|right; exists p'; split; [by right|done]].
  - intros [?|(p' & Hp & ?)]; [by left; left|]. apply elem_of_cons in Hp as [->|Hp]; [by left; right|right; by exists p'].
Qed.

Lemma check_scopes_ok vs ss n : (forall p, p ∈ vs -> p ∉ ss) -> check_scopes vs ss n = (Ok tt, n).
Proof.
  induction vs as [|p vs IH]; intros Hd; [done|]. simpl. rewrite bool_decide_false by (apply Hd; by left).
  apply IH. intros q Hq. apply Hd. by right.
Qed.

Lemma check_scopes_conflict vs ss n p : p ∈ vs -> p ∈ ss -> exists text, check_scopes vs ss n = (Err (ImplError (Bug text)), n).
Proof.
  induction vs as [|q vs IH]; intros Hp Hs; [by apply not_elem_of_nil in Hp|]. simpl. case_bool_decide as E; [by eexists|].
  apply elem_of_cons in Hp as [->|Hp]; [done|auto].
Qed.

(** ** The maps of the scopes *)

Definition scope_map (sc : vmap * list (Path * vmap)) (q : option Path) : vmap :=
  match q with None => sc.1 | Some q => match path_find q sc.2 with Some m => m | None => [] end end.

Lemma path_find_put {A} p q (x : A) m : path_find q (path_put p x m) = if bool_decide (p = q) then Some x else path_find q m.
Proof.
  induction m as [|[p' y] m IH]; simpl; [done|]. destruct (decide (p' = p)) as [->|Hne].
  - rewrite (bool_decide_true (p = p)) by done. simpl. by case_bool_decide.
  - rewrite (bool_decide_false (p' = p)) by done. simpl. rewrite IH. repeat case_bool_decide; congruence.
Qed.

Lemma map_find_map_put k k' v m : map_find k' (map_put k v m) = if bool_decide (k = k') then Some v else map_find k' m.
Proof.
  induction m as [|[j w] m IH]; simpl; [done|]. destruct (decide (j = k)) as [->|Hne].
  - rewrite (bool_decide_true (k = k)) by done. simpl. by case_bool_decide.
  - rewrite (bool_decide_false (j = k)) by done. simpl. rewrite IH. repeat case_bool_decide; congruence.
Qed.

Lemma from_map_put k v m : from_map m = true -> is_resolved v = true -> from_map (map_put k v m) = true.
Proof.
  unfold from_map. induction m as [|[j w] m IH]; simpl; intros Hm Hv; [by rewrite Hv|].
  apply andb_true_iff in Hm as [Hw Hm]. case_bool_decide; simpl; [by rewrite Hv, Hm|by rewrite Hw, IH].
Qed.

(** What is at each path, and that everything is resolved. *)
Record placed (l : list (Path * value)) (sc : vmap * list (Path * vmap)) : Prop := mkPlaced {
  placed_at : forall p, map_find (path_last p) (scope_map sc (par p)) = path_find p l;
  placed_resolved : forall q, from_map (scope_map sc q) = true }.

Lemma put_in_scope_ok p v sc n l : placed l sc -> is_resolved v = true ->
  exists sc', put_in_scope p v sc n = (Ok sc', n) /\ placed ((p, v) :: l) sc'.
Proof.
  intros [Ha Hr] Hv. unfold put_in_scope. rewrite parent_spec. fold (par p). unfold se_bind, lift_impl, lift_path, se_ret.
  destruct sc as [root scopes].
  set (sc' := match par p with
              | None => (map_put (path_last p) v root, scopes)
              | Some q => (root, path_put q (map_put (path_last p) v (scope_map (root, scopes) (Some q))) scopes)
              end).
  exists sc'. split; [by destruct (par p)|].
  assert (Hmap : forall q, scope_map sc' q = if bool_decide (q = par p) then map_put (path_last p) v (scope_map (root, scopes) q)
                                             else scope_map (root, scopes) q).
  { intros q. unfold sc'. destruct (decide (q = par p)) as [->|Hne].
    - rewrite bool_decide_true by done. destruct (par p) as [pp|]; [|done]. simpl. by rewrite path_find_put, bool_decide_true.
    - rewrite bool_decide_false by done. destruct (par p) as [pp|], q as [q|]; try done. simpl.
      rewrite path_find_put, bool_decide_false; [done|]. intros ->. by apply Hne. }
  split.
  - intros q. rewrite Hmap. simpl. destruct (decide (q = p)) as [->|Hne].
    + rewrite !bool_decide_true by done. by rewrite map_find_map_put, bool_decide_true.
    + rewrite (bool_decide_false (p = q)) by congruence. rewrite <- Ha. case_bool_decide as Ep; [|done].
      rewrite map_find_map_put, bool_decide_false; [done|]. intros El. apply Hne, elements_inj.
      by rewrite (elements_split q), (elements_split p), Ep, El.
  - intros q. rewrite Hmap. case_bool_decide; [|done]. by apply from_map_put.
Qed.

(** ** The longest scopes first *)

Definition longer (p q : Path) : Prop := path_length q <= path_length p.

Lemma sort_insert_elem p l q : q ∈ sort_insert p l <-> q = p \/ q ∈ l.
Proof.
  induction l as [|x l IH]; simpl; [set_solver|]. destruct (path_length x <? path_length p); [set_solver|].
  rewrite !elem_of_cons, IH. naive_solver.
Qed.

Lemma sort_insert_nodup p l : p ∉ l -> NoDup l -> NoDup (sort_insert p l).
Proof.
  induction l as [|x l IH]; intros Hp Hl; simpl; [apply NoDup_singleton|]. destruct (path_length x <? path_length p).
  - by constructor.
  - apply NoDup_cons in Hl as [Hx Hl]. apply not_elem_of_cons in Hp as [Hne Hp]. constructor; [|by apply IH].
    rewrite sort_insert_elem. naive_solver.
Qed.

Lemma sort_insert_sorted p l : StronglySorted longer l -> StronglySorted longer (sort_insert p l).
Proof.
  induction 1 as [|x l Hl IH Hx]; simpl; [by repeat constructor|]. destruct (path_length x <? path_length p) eqn:E.
  - apply Z.ltb_lt in E. constructor; [by constructor|]. constructor; [unfold longer; lia|].
    eapply List.Forall_impl; [|exact Hx]. unfold longer. intros. lia.
  - apply Z.ltb_ge in E. constructor; [done|]. apply List.Forall_forall. intros q [->|Hq]%list_elem_of_In%sort_insert_elem; [done|].
    rewrite List.Forall_forall in Hx. by apply Hx, list_elem_of_In.
Qed.

Lemma sort_paths_spec l : NoDup l ->
  NoDup (sort_paths l) /\ StronglySorted longer (sort_paths l) /\ forall q, q ∈ sort_paths l <-> q ∈ l.
Proof.
  induction 1 as [|p l Hp Hl (IH1 & IH2 & IH3)]; [split_and!; [constructor|constructor|done]|]. simpl. split_and!.
  - apply sort_insert_nodup; [by rewrite IH3|done].
  - by apply sort_insert_sorted.
  - intros q. rewrite sort_insert_elem, IH3, elem_of_cons. done.
Qed.

(** ** Assembling the object *)

Section Assembly.
Variables (paths : list Path) (hs : list shape) (scopes : list Path).
Hypothesis scopes_above : forall q, q ∈ scopes <-> exists p, p ∈ paths /\ above q p.
Hypothesis no_conflict : forall p, p ∈ paths -> p ∉ scopes.
Hypothesis short : forall p, p ∈ paths -> Z.of_nat (length (path_elements p)) < 2 ^ 32.

Definition value_shape (p : Path) (h : shape) : Prop := exists i, paths !! i = Some p /\ hs !! i = Some h.

Definition comparable (p : Path) (q : list str) : Prop :=
  (exists t, q = path_elements p ++ t) \/ exists t, path_elements p = q ++ t.

(** What a lookup of [q] has to answer. *)
Definition right (q : list str) (r : option shape) : Prop :=
  (forall p, path_elements p = q -> p ∈ paths -> exists h, value_shape p h /\ r = Some h)
  /\ ((forall p, p ∈ paths -> ~ comparable p q) -> r = None).

Definition right_under (s : list str) (h : shape) : Prop := forall k r, right (s ++ k :: r) (shape_at h (k :: r)).

Record assembled (todo : list Path) (l : list (Path * value)) : Prop := mkAssembled {
  all_sound : forall p v, path_find p l = Some v ->
    value_shape p (shape_of v) \/ (p ∈ scopes /\ right_under (path_elements p) (shape_of v));
  all_values : forall p, p ∈ paths -> path_find p l <> None;
  all_scopes : forall p, p ∈ scopes -> p ∉ todo -> path_find p l <> None }.

Lemma value_shape_path p h : value_shape p h -> p ∈ paths.
Proof. intros (i & Hi & _). by eapply list_elem_of_lookup_2. Qed.

(** A map whose keys are the paths below [s]. *)
Lemma map_right todo l s m b :
  assembled todo l -> (forall p k, path_elements p = s ++ [k] -> map_find k m = path_find p l) ->
  (forall p k, path_elements p = s ++ [k] -> p ∉ todo) ->
  right_under s (HObject (shapes m) b).
Proof.
  intros [Hsound Hval Hscope] Hm Htodo k r. destruct (child_path s k) as (c & Hc & _).
  assert (Hq : s ++ k :: r = path_elements c ++ r) by (by rewrite Hc, <- app_assoc).
  assert (Hat : shape_at (HObject (shapes m) b) (k :: r) = x ← shape_of <$> path_find c l; shape_at x r).
  { simpl. rewrite shape_find, (Hm c k Hc). done. }
  rewrite Hat, Hq. destruct (path_find c l) as [v|] eqn:Ef; simpl.
  - destruct (Hsound c v Ef) as [Hv|[Hs Hu]].
    + destruct r as [|j r].
      * rewrite app_nil_r. split.
        -- intros p Ep Hp. apply elements_inj in Ep. subst. by exists (shape_of v).
        -- intros Hno. exfalso. apply (Hno c); [by eapply value_shape_path|]. left. exists []. by rewrite app_nil_r.
      * split.
        -- intros p Ep Hp. exfalso. apply (no_conflict c); [by eapply value_shape_path|]. apply scopes_above. exists p.
           split; [done|]. by exists j, r.
        -- intros Hno. exfalso. apply (Hno c); [by eapply value_shape_path|]. left. by eexists.
    + destruct r as [|j r]; [|apply Hu]. rewrite app_nil_r. split.
      * intros p Ep Hp. apply elements_inj in Ep. subst. by destruct (no_conflict c).
      * intros Hno. apply scopes_above in Hs as (p & Hp & j & r & Ep). exfalso. apply (Hno p Hp). right. by eexists.
  - split; [|done]. intros p Ep Hp. exfalso. destruct r as [|j r].
    + rewrite app_nil_r in Ep. apply elements_inj in Ep. subst. by apply (Hval c).
    + apply (Hscope c); [|by eapply Htodo|done]. apply scopes_above. exists p. split; [done|]. by exists j, r.
Qed.

Lemma scope_length p : p ∈ scopes -> path_length p = Z.of_nat (length (path_elements p)).
Proof.
  intros (q & Hq & k & r & E)%scopes_above. specialize (short q Hq). rewrite path_length_spec. rewrite E, length_app in short. simpl in short.
  unfold wrap_u32. rewrite Z.mod_small; lia.
Qed.

Lemma child_longer p q : above p q -> p ∈ scopes -> q ∈ scopes -> ~ longer p q.
Proof.
  intros (k & r & E) Hp Hq. unfold longer. rewrite !scope_length, E, length_app by done. simpl. lia.
Qed.

Lemma par_of p s k : path_elements p = ptr_elements s ++ [k] -> par p = s /\ path_last p = k.
Proof.
  rewrite elements_split. intros [Hs Hk]%app_inj_tail. split; [by apply ptr_elements_inj|done].
Qed.

Lemma make_scopes_ok o todo : forall sc n l,
  (forall p, p ∈ todo -> p ∈ scopes) -> NoDup todo -> StronglySorted longer todo -> placed l sc -> assembled todo l ->
  exists sc' n' l', make_scopes o todo sc n = (Ok sc', n') /\ placed l' sc' /\ assembled [] l'.
Proof.
  induction todo as [|c rest IH]; intros sc n l Hsub Hnd Hsort Hpl Has; [by exists sc, n, l|].
  apply NoDup_cons in Hnd as [Hc Hnd]. inversion Hsort as [|? ? Hsort' Hall]; subst.
  set (m := scope_map sc (Some c)). set (obj := SimpleConfigObject n o m false).
  assert (Hres : from_map m = true) by apply Hpl.
  destruct (put_in_scope_ok c obj sc (S n) l Hpl Hres) as (sc' & Ep & Hpl').
  assert (Has' : assembled rest ((c, obj) :: l)).
  { assert (Hright : right_under (path_elements c) (shape_of obj)).
    { apply (map_right (c :: rest) l); [done| |].
      - intros p k Hp. destruct (par_of p (Some c) k Hp) as [Epar <-]. rewrite <- (placed_at _ _ Hpl), Epar. done.
      - intros p k Hp [->|Hr]%elem_of_cons; [apply (f_equal length) in Hp; rewrite length_app in Hp; simpl in Hp; lia|].
        rewrite List.Forall_forall in Hall. apply (child_longer c p); [by exists k, []|by apply Hsub; left|by apply Hsub; right|].
        by apply Hall, list_elem_of_In. }
    destruct Has as [Hs Hv Hsc]. split; simpl.
    - intros p v. case_bool_decide as E; [|by apply Hs]. intros [= <-]. subst p. right. split; [apply Hsub; by left|done].
    - intros p Hp. case_bool_decide; [done|by apply Hv].
    - intros p Hp Hr. case_bool_decide as E; [done|]. apply Hsc; [done|]. apply not_elem_of_cons. split; [congruence|done]. }
  destruct (IH sc' (S n) ((c, obj) :: l)) as (sc2 & n2 & l2 & E2 & Hpl2 & Has2); [|done..|].
  { intros p Hp. apply Hsub. by right. }
  exists sc2, n2, l2. split; [|done]. cbn [make_scopes]. unfold se_bind, lift_impl, make_object. fold (scope_map sc (Some c)). fold m.
  change (match path_find c sc.2 with Some m0 => m0 | None => [] end) with m. rewrite Hres. cbn [negb eqb new]. fold obj. by rewrite Ep.
Qed.

(** A computation that always makes a resolved value of this shape. *)
Definition makes (f : I value) (h : shape) : Prop := forall n,
  exists v n', f n = (Ok v, n') /\ is_resolved v = true /\ shape_of v = h.
End Assembly.

Lemma store_values_ok path_map hs : Forall2 (fun pm h => makes pm.2 h) path_map hs -> forall sc n l, placed l sc ->
  exists sc' n' l', store_values path_map sc n = (Ok sc', n') /\ placed l' sc'
    /\ (forall p v, path_find p l' = Some v -> value_shape path_map.*1 hs p (shape_of v) \/ path_find p l = Some v)
    /\ (forall p, p ∈ path_map.*1 \/ path_find p l <> None -> path_find p l' <> None).
Proof.
  induction 1 as [|[p f] h path_map hs Hf _ IH]; intros sc n l Hpl.
  { exists sc, n, l. split_and!; [done|done|by right|]. intros p [Hp|Hp]; [by apply not_elem_of_nil in Hp|done]. }
  destruct (Hf n) as (v & n1 & Ef & Hr & Hs). simpl in Ef.
  destruct (put_in_scope_ok p v sc n1 l Hpl Hr) as (sc1 & E1 & Hpl1).
  destruct (IH sc1 n1 ((p, v) :: l) Hpl1) as (sc2 & n2 & l2 & E2 & Hpl2 & Hsound & Hall).
  exists sc2, n2, l2. split_and!; [|done| |].
  - cbn [store_values]. unfold se_bind. by rewrite Ef, E1.
  - intros q w Hw. destruct (Hsound q w Hw) as [(i & Hi & Hh)|Hq]; [left; by exists (S i)|]. simpl in Hq.
    case_bool_decide as E; [|by right]. injection Hq as <-. subst. left. by exists 0%nat.
  - intros q Hq. apply Hall. simpl. case_bool_decide as E; [by right|]. rewrite fmap_cons, elem_of_cons in Hq. naive_solver.
Qed.

Lemma parse_keys_ok {X} (entries : list (str * X)) paths : forall pm n,
  Forall2 (fun e p => parse_path e.1 = Ok (Some p)) entries paths -> NoDup (pm.*1 ++ paths) ->
  parse_keys entries pm n = (Ok (pm ++ zip paths entries.*2), n).
Proof.
  revert paths. induction entries as [|[k x] entries IH]; intros paths pm n Hp Hnd; inversion Hp as [|? p ? paths' Ep Hp']; subst.
  { simpl. by rewrite app_nil_r. }
  cbn [parse_keys]. simpl in Ep. rewrite Ep.
  assert (Hput : path_put p x pm = pm ++ [(p, x)]).
  { assert (Hn : p ∉ pm.*1).
    { intros Hin. apply NoDup_app in Hnd as (_ & Hd & _). apply (Hd p Hin). by left. }
    clear -Hn. induction pm as [|[q y] pm IH]; [done|]. rewrite fmap_cons in Hn. apply not_elem_of_cons in Hn as [Hne Hn]. simpl.
    rewrite bool_decide_false by done. by rewrite IH. }
  rewrite Hput, (IH paths') by (try done; rewrite fmap_app, <- app_assoc; done). by rewrite <- app_assoc.
Qed.

Lemma placed_nothing (scope_paths : list Path) : placed [] ([], map (fun p => (p, [])) scope_paths).
Proof.
  assert (Hn : forall q, scope_map ([], map (fun p => (p, [])) scope_paths) q = []).
  { intros [q|]; [|done]. simpl. induction scope_paths as [|p l IH]; [done|]. simpl. by case_bool_decide. }
  split; intros q; by rewrite Hn.
Qed.

End AnyRefExact.

(** ** Concrete data *)

#[local] Existing Instance whole_doubles.

Definition spot : static_values := mkStatics 0 1 2 3 4.
Definition sample_data : variant :=
  VMap [($"on", VBool true); ($"n", VList [VInt 3; VNull; VMap []]); ($"s", VMap [($"t", VString $"x")])].


Definition path_data : list (str * variant) := [($"a.b", VInt 1); ($"c", VBool false); ($"a.d.e", VString $"x")].

