(* ===== verification/Equality.v ===== *)
(** * Equality and hash codes

    [equals] and [hash_code] of the configuration library: variants
    (config/include/detail/variant_utils.hpp, instance_utils.hpp), paths,
    substitution expressions, origins, every class of value, tokens and the keys of
    the resolver's memos.  Hash functions of the standard library, the comparison
    of doubles and the virtual functions of an object behind a pointer are
    interfaces.  Exceptions are values: comparing a scalar with an unresolved value
    throws. *)

From S2P Require Import Prelude CLib StdMap Token Path Origin Value ValueMerge ValueHeap AnyRef.

Open Scope Z_scope.

(** [std::hash], [boost::hash_combine] (results are [size_t]), and of a [double]:
    [static_cast<int32_t>], [==], and the bits copied into an [int64_t]. *)
Class HashLib `{DoubleLib} := {
  hash_string : str -> Z;
  hash_int32 : Z -> Z;
  hash_int64 : Z -> Z;
  hash_uint32 : Z -> Z;
  hash_bool : bool -> Z;
  hash_double : double -> Z;
  hash_combine : Z -> Z -> Z;
  double_to_int32 : double -> Z;
  double_equals : double -> double -> bool;
  double_bits : double -> Z;
}.

(** The object at an address (the null pointer is 0): its virtual functions; and
    the text of the address of a variant, which is what [lexical_cast] makes of [&x]. *)
Class ObjectLib `{DoubleLib} := {
  base_equals : nat -> nat -> bool;
  base_to_string : nat -> str;
  base_hash : nat -> Z;
  address_text : variant -> str;
}.

Section Equality.
Context `{HD : DoubleLib} `{!HashLib} `{!ObjectLib}.

(** ** Variants *)

Definition variant_string (v : variant) : str :=
  match v with
  | VNull => $"null"
  | VInt z | VInt64 z => dec_string z
  | VDouble d => double_to_string d
  | VBool b => if b then $"true" else $"false"
  | VString s => s
  | VBase p => if bool_decide (p = 0%nat) then $"null" else base_to_string p
  | VMap _ | VList _ => address_text v
  end.

Definition variant_int (v : variant) : Z :=
  match v with
  | VInt z => z
  | VInt64 z => wrap_i32 z
  | VDouble d => double_to_int32 d
  | VBool b => if b then 1 else 0
  | _ => 0
  end.

Definition variant_int64 (v : variant) : Z :=
  match v with
  | VInt z | VInt64 z => z
  | VDouble d => double_to_int64 d
  | VBool b => if b then 1 else 0
  | _ => 0
  end.

Definition variant_double (v : variant) : double :=
  match v with
  | VInt z | VInt64 z => int64_to_double z
  | VDouble d => d
  | VBool b => int64_to_double (if b then 1 else 0)
  | _ => int64_to_double 0
  end.

(** [std::hash<ConfigVariant>]: 0 for nulls, maps and vectors. *)
Definition variant_hash (v : variant) : Z :=
  match v with
  | VInt z => hash_int32 z
  | VInt64 z => hash_int64 z
  | VDouble d => hash_double d
  | VBool b => hash_bool b
  | VString s => hash_string s
  | VBase p => if bool_decide (p = 0%nat) then 0 else base_hash p
  | VNull | VMap _ | VList _ => 0
  end.

(** [instanceof<_t>(var)] for [null], [MapVariant] and [VectorVariant]: a null
    pointer is an instance of every class. *)
Definition null_pointer (v : variant) : bool := match v with VBase p => bool_decide (p = 0%nat) | _ => false end.
Definition instanceof_null (v : variant) : bool := match v with VNull => true | _ => null_pointer v end.
Definition instanceof_map (v : variant) : bool := match v with VMap _ => true | _ => null_pointer v end.
Definition instanceof_vector (v : variant) : bool := match v with VList _ => true | _ => null_pointer v end.

(** [boost::bad_get]. *)
Inductive bad_get := BadGet.

Fixpoint variant_find (k : str) (m : list (str * variant)) : option variant :=
  match m with
  | [] => None
  | (k', v) :: m' => if bool_decide (k' = k) then Some v else variant_find k m'
  end.

(** [_variant_equals(eq)] applied to [x].  Maps of different sizes are compared
    like others: the body of the test is empty. *)
Fixpoint variant_equals (eq x : variant) {struct eq} : res bad_get bool :=
  match x with
  | VNull => Ok (instanceof_null eq)
  | VInt z => Ok (variant_int eq =? z)
  | VInt64 z => Ok (variant_int64 eq =? z)
  | VDouble d => Ok (double_equals (variant_double eq) d)
  | VBool b => Ok (match eq with VBool b' => eqb b' b | _ => false end)
  | VString s => Ok (bool_decide (variant_string eq = s))
  | VBase p =>
      match eq with
      | VBase q =>
          if bool_decide (q = 0%nat) && bool_decide (p = 0%nat) then Ok true
          else if bool_decide (q = 0%nat) || bool_decide (p = 0%nat) then Ok false
          else Ok (base_equals q p)
      | _ => Ok false
      end
  | VMap mx =>
      if negb (instanceof_map eq) then Ok false
      else match eq with
           | VMap me =>
               (fix entries (me : list (str * variant)) : res bad_get bool :=
                  match me with
                  | [] => Ok true
                  | (k, e) :: me' =>
                      match variant_find k mx with
                      | None => Ok false
                      | Some w => b ← variant_equals e w; if (b : bool) then entries me' else Ok false
                      end
                  end) me
           | _ => Err BadGet
           end
  | VList lx =>
      if negb (instanceof_vector eq) then Ok false
      else match eq with
           | VList le =>
               if negb (bool_decide (length le = length lx)) then Ok false
               else
               (fix items (le lx : list variant) : res bad_get bool :=
                  match le, lx with
                  | e :: le', w :: lx' => b ← variant_equals e w; if (b : bool) then items le' lx' else Ok false
                  | _, _ => Ok true
                  end) le lx
           | _ => Err BadGet
           end
  end.

(** [ConfigImplUtil::equals_handling_null(a, b)]. *)
Definition equals_handling_null (a b : variant) : res bad_get bool := variant_equals a b.

(** ** Paths, substitution expressions, origins *)

(** The remainders are compared through variants that hold pointers. *)
Fixpoint path_equals (p q : Path) : bool :=
  match p, q with
  | One f, One g => bool_decide (f = g)
  | More f r, More g s => bool_decide (f = g) && path_equals r s
  | _, _ => false
  end.

(** The sum is a [size_t], the result a [uint32_t]. *)
Fixpoint path_hash (p : Path) : Z :=
  match p with
  | One f => wrap_u32 (41 * (41 + hash_string f) + 0)
  | More f r => wrap_u32 (41 * (41 + hash_string f) + path_hash r)
  end.

Definition subst_equals (e e' : SubstitutionExpression) : bool :=
  path_equals (path_ e') (path_ e) && eqb (optional_ e') (optional_ e).

Definition subst_hash (e : SubstitutionExpression) : Z :=
  let hash := wrap_u32 (41 * (41 + path_hash (path_ e))) in
  wrap_u32 (41 * (hash + (if optional_ e then 1 else 0))).

(** [static_cast<uint32_t>(origin_type)]. *)
Definition origin_type_number (t : OriginType) : Z := match t with GENERIC => 0 | FILE => 1 end.

Definition origin_hash (o : SimpleConfigOrigin) : Z :=
  let hash := wrap_u32 (41 * (41 + hash_string (description_ o))) in
  let hash := wrap_u32 (41 * (hash + line_number_ o)) in
  let hash := wrap_u32 (41 * (hash + end_line_number o)) in
  wrap_u32 (41 * (hash + hash_uint32 (origin_type_number (origin_type o)))).

(** [MemoKey]: the value's address and a path that may be null.  Two pointers to
    the same path are equal without a look at it, which [path_equals] agrees with. *)
Definition memo_key_equals (k k' : nat * option Path) : bool :=
  if negb (bool_decide (k'.1 = k.1)) then false
  else match k'.2, k.2 with
       | None, None => true
       | Some p', Some p => path_equals p' p
       | _, _ => false
       end.

(** [(uint32_t)(uint64_t)this] is the hash of the address. *)
Definition memo_key_hash (address : nat -> Z) (k : nat * option Path) : Z :=
  let hash := wrap_u32 (address k.1) in
  match k.2 with
  | Some p => wrap_u32 (hash + 41 * (41 + path_hash p))
  | None => hash
  end.

(** ** Numbers *)

Definition is_number (s : scalar) : bool := bool_decide (scalar_type s = NUMBER).

(** [as_int64 == double_value()]: the integer is converted. *)
Definition is_whole (as_int64 : Z) (value : double) : bool := double_equals (int64_to_double as_int64) value.

Definition exponent_mask : Z := 0x7ff0000000000000.
Definition mantissa_mask : Z := 0x000fffffffffffff.
Definition nan_bits : Z := Z.lor exponent_mask 0x0008000000000000.

(** One pattern for every NaN. *)
Definition canonical_bits (bits : Z) : Z :=
  if (Z.land bits exponent_mask =? exponent_mask) && negb (Z.land bits mantissa_mask =? 0) then nan_bits else bits.

Definition number_hash (int64_value : Z) (double_value : double) : Z :=
  let as_int64 := if is_whole int64_value double_value then int64_value else canonical_bits (double_bits double_value) in
  wrap_u32 (Z.lxor as_int64 (Z.shiftr as_int64 32)).

(** [ConfigNumber::hash_code], or the hash of the plain value. *)
Definition scalar_hash (s : scalar) : Z :=
  match int64_value s, double_value s with
  | Some l, Some d => number_hash l d
  | _, _ => wrap_u32 (variant_hash (unwrapped_scalar s))
  end.

(** ** Values *)

Inductive equals_exn := NotComparable (e : value_exn) | BadVariant (e : bad_get).

Definition lift_value {A} (r : res value_exn A) : res equals_exn A :=
  match r with Ok a => Ok a | Err e => Err (NotComparable e) end.
Definition lift_get (r : res bad_get bool) : res equals_exn bool :=
  match r with Ok a => Ok a | Err e => Err (BadVariant e) end.

(** [AbstractConfigValue::equals]: the types, then the plain values. *)
Definition plain_equals (s : scalar) (other : value) : res equals_exn bool :=
  t ← lift_value (type_of other);
  if bool_decide (scalar_type s = t) then
    u ← lift_value (unwrapped other); lift_get (equals_handling_null (unwrapped_scalar s) u)
  else Ok false.

Definition scalar_equals (s : scalar) (other : value) : res equals_exn bool :=
  if is_number s then
    match other with
    | Scalar _ _ t => if is_number t then plain_equals s other else Ok false
    | _ => Ok false
    end
  else plain_equals s other.

(** [std::set<std::string>] of the keys. *)
Definition key_set {A} (m : list (str * A)) : stdmap unit :=
  fold_left (fun keys kv => map_insert kv.1 tt keys) m [].

Section Loops.
Context (equals : value -> value -> res equals_exn bool).

(** [std::equal] after the comparison of the sizes. *)
Fixpoint std_equal (l l' : list value) : res equals_exn bool :=
  match l, l' with
  | x :: r, y :: r' => b ← equals x y; if (b : bool) then std_equal r r' else Ok false
  | _, _ => Ok true
  end.
Definition vector_equals (l l' : list value) : res equals_exn bool :=
  if bool_decide (length l = length l') then std_equal l l' else Ok false.

(** The entries of [a] against [b.find(key)->second]. *)
Fixpoint entries_equal (b : list (str * value)) (a : list (str * value)) : res equals_exn bool :=
  match a with
  | [] => Ok true
  | (k, x) :: a' =>
      match map_find k b with
      | Some y => r ← equals x y; if (r : bool) then entries_equal b a' else Ok false
      | None => Ok false
      end
  end.
Definition map_equals (a b : list (str * value)) : res equals_exn bool :=
  if negb (bool_decide (length a = length b)) then Ok false
  else if negb (bool_decide (key_set a = key_set b)) then Ok false
  else entries_equal b a.

(** The classes with parts; [other] is cast to the class of [this]. *)
Definition list_equals (value_ : list value) (other : value) : res equals_exn bool :=
  match other with SimpleConfigList _ _ l => vector_equals value_ l | _ => Ok false end.
Definition object_equals (value_ : list (str * value)) (other : value) : res equals_exn bool :=
  match other with SimpleConfigObject _ _ m _ => map_equals value_ m | _ => Ok false end.
Definition concatenation_equals (pieces : list value) (other : value) : res equals_exn bool :=
  match other with ConfigConcatenation _ _ l => vector_equals pieces l | _ => Ok false end.
Definition delayed_merge_equals (stack : list value) (other : value) : res equals_exn bool :=
  match other with ConfigDelayedMerge _ _ l => vector_equals stack l | _ => Ok false end.
Definition delayed_merge_object_equals (stack : list value) (other : value) : res equals_exn bool :=
  match other with ConfigDelayedMergeObject _ _ l => vector_equals stack l | _ => Ok false end.
End Loops.

Definition reference_equals (expr : SubstitutionExpression) (other : value) : res equals_exn bool :=
  match other with ConfigReference _ _ e _ => Ok (subst_equals expr e) | _ => Ok false end.

(** The virtual [equals]. *)
Fixpoint equals (this other : value) {struct this} : res equals_exn bool :=
  match this with
  | Scalar _ _ s => scalar_equals s other
  | SimpleConfigList _ _ l => list_equals equals l other
  | SimpleConfigObject _ _ m _ => object_equals equals m other
  | ConfigConcatenation _ _ l => concatenation_equals equals l other
  | ConfigReference _ _ e _ => reference_equals e other
  | ConfigDelayedMerge _ _ l => delayed_merge_equals equals l other
  | ConfigDelayedMergeObject _ _ l => delayed_merge_object_equals equals l other
  end.

(** [SimpleConfigObject::map_hash], from the hash codes of the values: the sum is
    a [uint32_t], the keys are combined in their order. *)
Definition map_hash (m : list (str * Z)) : Z :=
  let keys := key_set m in
  let values_hash := fold_left (fun h (k : str * unit) => wrap_u32 (h + from_option id 0 (StdMap.map_find k.1 m))) keys 0 in
  let keys_hash := fold_left (fun h (k : str * unit) => hash_combine h (hash_string k.1)) keys 0 in
  wrap_u32 (41 * (41 + wrap_u32 keys_hash) + values_hash).

(** The classes with parts, from the hash codes of the parts. *)
Definition list_hash (value_ : list Z) : Z := wrap_u32 (fold_left hash_combine value_ 0).
Definition concatenation_hash (pieces : list Z) : Z := wrap_u32 (fold_left hash_combine pieces 0).
Definition delayed_merge_hash (stack : list Z) : Z := wrap_u32 (fold_left hash_combine stack 0).
Definition delayed_merge_object_hash (stack : list Z) : Z := wrap_u32 (fold_left hash_combine stack 0).

(** The virtual [hash_code]. *)
Fixpoint hash_code (v : value) : Z :=
  match v with
  | Scalar _ _ s => scalar_hash s
  | SimpleConfigList _ _ l => list_hash (map hash_code l)
  | ConfigConcatenation _ _ l => concatenation_hash (map hash_code l)
  | ConfigDelayedMerge _ _ l => delayed_merge_hash (map hash_code l)
  | ConfigDelayedMergeObject _ _ l => delayed_merge_object_hash (map hash_code l)
  | SimpleConfigObject _ _ m _ => map_hash (map (fun kv => (kv.1, hash_code kv.2)) m)
  | ConfigReference _ _ e _ => subst_hash e
  end.

(** [SimpleConfig::equals] and [hash_code], over the object it wraps. *)
Definition config_equals (this other : value) : res equals_exn bool := equals this other.
Definition config_hash_code (object : value) : Z := wrap_u32 (41 * hash_code object).

(** ** Tokens *)

(** [static_cast<uint32_t>(token_type)]. *)
Definition token_type (t : token) : Z :=
  match t with
  | T_START => 0 | T_END => 1 | T_COMMA => 2 | T_EQUALS => 3 | T_COLON => 4 | T_OPEN_CURLY => 5
  | T_CLOSE_CURLY => 6 | T_OPEN_SQUARE => 7 | T_CLOSE_SQUARE => 8 | ValueToken _ _ => 9
  | LineToken _ => 10 | UnquotedTextToken _ _ => 11 | SubstitutionToken _ _ _ => 12
  | ProblemToken _ _ _ _ => 13 | CommentToken _ _ => 14 | T_PLUS_EQUALS => 15
  end.

(** [Token::hash_code]. *)
Definition token_base_hash (t : token) : Z := wrap_u32 (hash_uint32 (token_type t)).

(** A scalar as the value of a token: neither address nor origin matters. *)
Definition token_value (s : scalar) : value := Scalar 0 default_value_origin s.

(** [equals] of the classes: [can_equal] and the types, then the parts.  A value
    token asks the other one's value; substitutions are compared without [optional]. *)
Definition value_token_equals (s : scalar) (other : token) : res equals_exn bool :=
  match other with ValueToken s' _ => scalar_equals s' (token_value s) | _ => Ok false end.
Definition line_token_equals (line : Z) (other : token) : bool :=
  match other with LineToken l' => l' =? line | _ => false end.
Definition unquoted_text_equals (s : str) (other : token) : bool :=
  match other with UnquotedTextToken s' _ => bool_decide (s' = s) | _ => false end.
Definition problem_equals (w m : str) (q : bool) (other : token) : bool :=
  match other with
  | ProblemToken w' m' q' _ => bool_decide (w' = w) && bool_decide (m' = m) && eqb q' q
  | _ => false
  end.
Definition comment_equals (s : str) (other : token) : bool :=
  match other with CommentToken s' _ => bool_decide (s' = s) | _ => false end.

Section TokenLoop.
Context (token_equals : token -> token -> res equals_exn bool).
Fixpoint tokens_equal (l l' : list token) : res equals_exn bool :=
  match l, l' with
  | x :: r, y :: r' => b ← token_equals x y; if (b : bool) then tokens_equal r r' else Ok false
  | _, _ => Ok true
  end.
Definition substitution_equals (ts : list token) (other : token) : res equals_exn bool :=
  match other with
  | SubstitutionToken _ ts' _ => if bool_decide (length ts = length ts') then tokens_equal ts ts' else Ok false
  | _ => Ok false
  end.
End TokenLoop.

(** The virtual [equals]. *)
Fixpoint token_equals (this other : token) {struct this} : res equals_exn bool :=
  match this with
  | ValueToken s _ => value_token_equals s other
  | LineToken l => Ok (line_token_equals l other)
  | UnquotedTextToken s _ => Ok (unquoted_text_equals s other)
  | ProblemToken w m q _ => Ok (problem_equals w m q other)
  | CommentToken s _ => Ok (comment_equals s other)
  | SubstitutionToken _ ts _ => substitution_equals token_equals ts other
  | _ => Ok (token_type this =? token_type other)
  end.

(** [hash_code] of the classes, from [41 * (41 + Token::hash_code())]. *)
Definition value_token_hash (h : Z) (s : scalar) : Z :=
  wrap_u32 (h + match s with ConfigBoolean b => if b then 1231 else 1237 | _ => scalar_hash s end).
Definition line_token_hash (h line : Z) : Z := wrap_u32 (h + line).
Definition unquoted_text_hash (h : Z) (s : str) : Z := wrap_u32 (h + hash_string s).
Definition problem_hash (h : Z) (w m : str) (q : bool) : Z :=
  let h := wrap_u32 (41 * (h + hash_string w)) in
  let h := wrap_u32 (41 * (h + hash_string m)) in
  wrap_u32 (41 * (h + hash_bool q)).
Definition comment_hash (h : Z) (s : str) : Z := wrap_u32 (h + hash_string s).
Definition substitution_hash (h : Z) (ts : list Z) : Z := wrap_u32 (fold_left hash_combine ts h).

(** The virtual [hash_code]. *)
Fixpoint token_hash (t : token) : Z :=
  let h := wrap_u32 (41 * (41 + token_base_hash t)) in
  match t with
  | ValueToken s _ => value_token_hash h s
  | LineToken l => line_token_hash h l
  | UnquotedTextToken s _ => unquoted_text_hash h s
  | ProblemToken w m q _ => problem_hash h w m q
  | CommentToken s _ => comment_hash h s
  | SubstitutionToken _ ts _ => substitution_hash h (map token_hash ts)
  | _ => token_base_hash t
  end.

(** ** What [equals] decides *)

(** Two scalars: the second number is compared with the first one cast to the
    second's class. *)
Definition scalar_eq (s t : scalar) : bool :=
  match s, t with
  | ConfigString a, ConfigString b => bool_decide (a = b)
  | ConfigBoolean a, ConfigBoolean b => eqb a b
  | ConfigNull, ConfigNull => true
  | (ConfigInt _ _ | ConfigInt64 _ _ | ConfigDouble _ _), ConfigInt z _ => variant_int (unwrapped_scalar s) =? z
  | (ConfigInt _ _ | ConfigInt64 _ _ | ConfigDouble _ _), ConfigInt64 z _ => variant_int64 (unwrapped_scalar s) =? z
  | (ConfigInt _ _ | ConfigInt64 _ _ | ConfigDouble _ _), ConfigDouble d _ =>
      double_equals (variant_double (unwrapped_scalar s)) d
  | _, _ => false
  end.

(** The same value, whatever the origin, the address and the text of a number,
    whether fallbacks are ignored, and the order of the entries of a map; [S]
    compares the scalars. *)
Inductive alike (S : scalar -> scalar -> Prop) : value -> value -> Prop :=
| alike_scalar a o s a' o' t : S s t -> alike S (Scalar a o s) (Scalar a' o' t)
| alike_list a o l a' o' l' : Forall2 (alike S) l l' -> alike S (SimpleConfigList a o l) (SimpleConfigList a' o' l')
| alike_object a o m b a' o' m' b' :
    (forall k, option_Forall2 (alike S) (map_find k m) (map_find k m')) ->
    alike S (SimpleConfigObject a o m b) (SimpleConfigObject a' o' m' b')
| alike_concatenation a o l a' o' l' :
    Forall2 (alike S) l l' -> alike S (ConfigConcatenation a o l) (ConfigConcatenation a' o' l')
| alike_reference a o e n a' o' n' : alike S (ConfigReference a o e n) (ConfigReference a' o' e n')
| alike_delayed a o l a' o' l' :
    Forall2 (alike S) l l' -> alike S (ConfigDelayedMerge a o l) (ConfigDelayedMerge a' o' l')
| alike_delayed_object a o l a' o' l' :
    Forall2 (alike S) l l' -> alike S (ConfigDelayedMergeObject a o l) (ConfigDelayedMergeObject a' o' l').

(** The keys of every map are distinct. *)
Definition keyed : value -> Prop :=
  every (fun u => match u with SimpleConfigObject _ _ m _ => NoDup m.*1 | _ => True end).

(** ** Paths and scalars *)

Lemma path_equals_spec p q : path_equals p q = bool_decide (p = q).
Proof.
  revert q. induction p as [f|f r IH]; intros [g|g s]; simpl.
  - apply bool_decide_ext. split; [by intros ->|by intros [= ->]].
  - done.
  - done.
  - rewrite IH. repeat case_bool_decide; simplify_eq; done.
Qed.

Lemma subst_equals_spec e e' : subst_equals e e' = true <-> e = e'.
Proof.
  unfold subst_equals. rewrite path_equals_spec, andb_true_iff, bool_decide_eq_true, eqb_true_iff.
  destruct e, e'; simpl. split; [by intros [-> ->]|by intros [= -> ->]].
Qed.

(** The hash of an origin leaves out what [Origin.origin_equals] leaves out. *)
Lemma equal_origins_hash o o' : origin_equals o o' = true -> origin_hash o = origin_hash o'.
Proof.
  unfold origin_equals, origin_hash.
  intros [[[->%bool_decide_eq_true ->%Z.eqb_eq]%andb_true_iff ->%Z.eqb_eq]%andb_true_iff ->%bool_decide_eq_true]%andb_true_iff.
  done.
Qed.

Lemma memo_key_equals_spec k k' : memo_key_equals k k' = true <-> k = k'.
Proof.
  destruct k as [a p], k' as [a' p']. unfold memo_key_equals. simpl.
  case_bool_decide; simpl; [|split; [done|congruence]]. subst.
  destruct p as [p|], p' as [p'|]; try (split; [done|congruence]).
  rewrite path_equals_spec, bool_decide_eq_true. split; congruence.
Qed.

Lemma scalar_equals_scalar s a o t : scalar_equals s (Scalar a o t) = Ok (scalar_eq s t).
Proof. by destruct s, t. Qed.

Lemma scalar_equals_true s w :
  scalar_equals s w = Ok true <-> exists a o t, w = Scalar a o t /\ scalar_eq s t = true.
Proof.
  split.
  - destruct w as [a o t| | | | | |]; [rewrite scalar_equals_scalar; intros [= E]; by exists a, o, t|by destruct s..].
  - intros (a & o & t & -> & E). by rewrite scalar_equals_scalar, E.
Qed.

(** ** Loops *)

Lemma vector_equals_true f l l' :
  vector_equals f l l' = Ok true <-> Forall2 (fun x y => f x y = Ok true) l l'.
Proof.
  unfold vector_equals. case_bool_decide as Hlen; [|split; [done|by intros ?%Forall2_length]].
  revert l' Hlen. induction l as [|x l IH]; intros [|y l'] Hlen; simplify_eq/=; [split; by constructor|].
  rewrite Forall2_cons, <- IH by done. destruct (f x y) as [[]|e]; simpl; split; try done; [by intros []..].
Qed.

Lemma entries_equal_true f b a :
  NoDup a.*1 ->
  entries_equal f b a = Ok true
  <-> forall k x, map_find k a = Some x -> exists y, map_find k b = Some y /\ f x y = Ok true.
Proof.
  induction a as [|[k x] a IH]; simpl; [done|]. intros [Hk Hnd]%NoDup_cons.
  assert (Hout : forall k' x', map_find k' a = Some x' -> k <> k').
  { intros k' x' Hf ->. apply Hk. clear -Hf. induction a as [|[k1 x1] a IHa]; [done|]. simpl in *.
    case_bool_decide; [subst; left|right; auto]. }
  assert (Hsplit : (forall k' x', (if bool_decide (k = k') then Some x else map_find k' a) = Some x' ->
                    exists y, map_find k' b = Some y /\ f x' y = Ok true)
                   <-> (exists y, map_find k b = Some y /\ f x y = Ok true) /\ entries_equal f b a = Ok true).
  { rewrite IH by done. split.
    - intros Hall. split; [apply Hall; by rewrite bool_decide_eq_true_2|]. intros k' x' Hf. apply Hall.
      rewrite bool_decide_eq_false_2 by (by eapply Hout). done.
    - intros [Hx Hall] k' x'. case_bool_decide; [by intros [= <-]; subst|apply Hall]. }
  rewrite Hsplit. destruct (map_find k b) as [y|]; [|split; [done|by intros [(y & [=] & _) _]]].
  destruct (f x y) as [[]|e] eqn:E; simpl.
  - split; [intros; eauto|by intros [_ ?]].
  - split; [done|]. intros [(y' & [= <-] & E') _]. congruence.
  - split; [done|]. intros [(y' & [= <-] & E') _]. congruence.
Qed.

(** ** Key sets *)

Lemma key_fold_spec {A} (m : list (str * A)) : forall s, map_sorted s ->
  let r := fold_left (fun keys kv => map_insert kv.1 tt keys) m s in
  map_sorted r /\ forall k, is_Some (StdMap.map_find k r) <-> is_Some (StdMap.map_find k s) \/ k ∈ m.*1.
Proof.
  induction m as [|[k1 x] m IH]; intros s Hs; simpl; [split; [done|]; set_solver|].
  destruct (IH (map_insert k1 tt s)) as [Hr Hk]; [by apply map_insert_sorted|]. split; [done|]. intros k.
  rewrite Hk, map_find_insert by done. rewrite elem_of_cons. case_bool_decide; [subst; by intuition eauto|].
  intuition.
Qed.

Lemma key_set_sorted {A} (m : list (str * A)) : map_sorted (key_set m).
Proof. by apply key_fold_spec, map_sorted_nil. Qed.

Lemma key_set_elem {A} (m : list (str * A)) k : is_Some (StdMap.map_find k (key_set m)) <-> k ∈ m.*1.
Proof.
  destruct (key_fold_spec m [] map_sorted_nil) as [_ Hk]. rewrite (Hk k). simpl.
  split; [intros [[? [=]]|]; done|by right].
Qed.

Lemma key_set_eq {A B} (m : list (str * A)) (m' : list (str * B)) :
  key_set m = key_set m' <-> forall k, k ∈ m.*1 <-> k ∈ m'.*1.
Proof.
  split.
  - intros E k. rewrite <- !key_set_elem. by rewrite E.
  - intros E. apply map_sorted_ext; [apply key_set_sorted..|]. intros k.
    pose proof (key_set_elem m k) as H1. pose proof (key_set_elem m' k) as H2. specialize (E k).
    destruct (StdMap.map_find k (key_set m)) as [[]|], (StdMap.map_find k (key_set m')) as [[]|]; [done| | |done].
    + destruct (proj2 H2 (proj1 E (proj1 H1 ltac:(eauto)))). done.
    + destruct (proj2 H1 (proj2 E (proj1 H2 ltac:(eauto)))). done.
Qed.

Lemma map_find_keys k (m : list (str * value)) : is_Some (map_find k m) <-> k ∈ m.*1.
Proof.
  induction m as [|[k' v] m IH]; simpl; [split; [by intros [? [=]]|by intros ?%elem_of_nil]|].
  rewrite elem_of_cons. case_bool_decide; [subst; by intuition eauto|]. rewrite IH. intuition congruence.
Qed.

Lemma map_equals_true f a b :
  NoDup a.*1 -> NoDup b.*1 ->
  map_equals f a b = Ok true
  <-> forall k, option_Forall2 (fun x y => f x y = Ok true) (map_find k a) (map_find k b).
Proof.
  intros Ha Hb. unfold map_equals. split.
  - case_bool_decide; simpl; [|done]. case_bool_decide as Hkeys; simpl; [|done].
    rewrite entries_equal_true by done. rewrite key_set_eq in Hkeys. intros Hall k. specialize (Hkeys k).
    rewrite <- !map_find_keys in Hkeys. destruct (map_find k a) as [x|] eqn:Ex.
    + destruct (Hall _ _ Ex) as (y & -> & E). by constructor.
    + destruct (map_find k b); [|constructor]. by destruct (proj2 Hkeys ltac:(eauto)).
  - intros Hall. assert (Hkeys : forall k, k ∈ a.*1 <-> k ∈ b.*1).
    { intros k. rewrite <- !map_find_keys. by destruct (Hall k); split; intros []; eauto. }
    rewrite bool_decide_eq_true_2.
    2: { rewrite <- (length_fmap fst a), <- (length_fmap fst b). by apply Permutation_length, NoDup_Permutation. }
    rewrite bool_decide_eq_true_2 by (by apply key_set_eq). simpl. apply entries_equal_true; [done|].
    intros k x Ex. specialize (Hall k). rewrite Ex in Hall. inversion Hall; subst. eauto.
Qed.

(** ** Values *)

Lemma Forall2_members {A B} (P Q : A -> B -> Prop) (l : list A) (l' : list B) :
  (forall x y, x ∈ l -> y ∈ l' -> P x y -> Q x y) -> Forall2 P l l' -> Forall2 Q l l'.
Proof.
  intros HPQ Hl. induction Hl as [|x y l l' Hxy _ IH]; constructor; [apply HPQ; [left|left|done]|].
  apply IH. intros x' y' Hx Hy. apply HPQ; by right.
Qed.

Lemma map_find_value k (m : list (str * value)) x : map_find k m = Some x -> x ∈ m.*2.
Proof. exact (entry_child k x 0 default_value_origin m false). Qed.

(** The pointwise comparisons of two nodes, by what holds of their children. *)
Lemma lists_alike (R S : value -> value -> Prop) l l' :
  (forall x y, x ∈ l -> y ∈ l' -> R x y <-> S x y) -> Forall2 R l l' <-> Forall2 S l l'.
Proof. intros HRS. split; apply Forall2_members; intros x y Hx Hy; by apply HRS. Qed.

Lemma maps_alike (R S : value -> value -> Prop) m m' :
  (forall x y, x ∈ m.*2 -> y ∈ m'.*2 -> R x y -> S x y) ->
  (forall k, option_Forall2 R (map_find k m) (map_find k m')) ->
  forall k, option_Forall2 S (map_find k m) (map_find k m').
Proof.
  intros HRS HR k. specialize (HR k). destruct (map_find k m) eqn:E, (map_find k m') eqn:E'; inversion HR; subst;
    constructor. apply HRS; [by eapply map_find_value..|done].
Qed.

Lemma keyed_child v u : keyed v -> u ∈ children v -> keyed u.
Proof. apply every_child. Qed.

Abbreviation scalar_alike := (alike (fun s t => scalar_eq s t = true)).

Definition decides (x : value) : Prop := forall y, keyed x -> keyed y -> equals x y = Ok true <-> scalar_alike x y.

Lemma children_decided v w x y :
  Forall decides (children v) -> keyed v -> keyed w -> x ∈ children v -> y ∈ children w ->
  equals x y = Ok true <-> scalar_alike x y.
Proof.
  intros IH Hv Hw Hx Hy. rewrite Forall_forall in IH.
  apply (IH _ Hx); [exact (keyed_child _ _ Hv Hx)|exact (keyed_child _ _ Hw Hy)].
Qed.

Lemma vectors_decided v w :
  Forall decides (children v) -> keyed v -> keyed w ->
  vector_equals equals (children v) (children w) = Ok true <-> Forall2 scalar_alike (children v) (children w).
Proof.
  intros IH Hv Hw. rewrite vector_equals_true. apply lists_alike. intros x y. by apply children_decided.
Qed.

Lemma equals_true_alike a : decides a.
Proof.
  revert a. refine (value_child_ind _ _). intros v IH w Hv Hw.
  pose proof (vectors_decided v w IH Hv Hw) as Hvec.
  destruct v as [x o s|x o l|x o m f|x o l|x o e n|x o l|x o l].
  1: { simpl. rewrite scalar_equals_true. split; [intros (? & ? & ? & -> & ?); by constructor|].
       inversion 1; subst; eauto. }
  all: destruct w as [y o' t|y o' l'|y o' m' f'|y o' l'|y o' e' n'|y o' l'|y o' l']; try (split; [done|by inversion 1]);
    simpl in Hvec |- *; try (rewrite Hvec; split; [by constructor|by inversion 1]).
  - clear Hvec. rewrite map_equals_true by (by apply every_top in Hv, Hw).
    split; [intros Hall; constructor|inversion 1; subst];
      (eapply maps_alike; [|done]; intros p q Hp Hq; by apply (children_decided _ _ _ _ IH Hv Hw)).
  - split; [intros [= ->%subst_equals_spec]; constructor|]. inversion 1; subst. f_equal. by apply subst_equals_spec.
Qed.

(** Comparing with a resolved value never throws. *)
Definition answers (r : res equals_exn bool) : Prop := exists b, r = Ok b.

Lemma scalar_equals_answers s b : is_resolved b = true -> answers (scalar_equals s b).
Proof.
  unfold answers. destruct b as [y o' t| | | | | |]; intros Hb; try done;
    [rewrite scalar_equals_scalar; eauto|destruct s; cbv; eauto..].
Qed.

Lemma vector_equals_answers f l l' :
  (forall x y, x ∈ l -> y ∈ l' -> answers (f x y)) -> answers (vector_equals f l l').
Proof.
  unfold vector_equals. case_bool_decide as Hlen; [|eexists; done]. revert l' Hlen.
  induction l as [|x l IH]; intros [|y l'] Hlen Hf; simplify_eq/=; try (by eexists).
  destruct (Hf x y) as [[] ->]; [left|left| |by eexists]. simpl. apply IH; [done|].
  intros u v Hu Hv. apply Hf; by right.
Qed.

Lemma map_equals_answers f m m' :
  (forall x y, x ∈ m.*2 -> y ∈ m'.*2 -> answers (f x y)) -> answers (map_equals f m m').
Proof.
  unfold map_equals. repeat case_bool_decide; simpl; try (intros; by eexists). clear -m. intros Hf.
  induction m as [|[k x] m IH]; simpl; [by eexists|]. destruct (map_find k m') as [y|] eqn:E; [|by eexists].
  destruct (Hf x y) as [[] ->]; [left|by eapply map_find_value| |by eexists]. simpl. apply IH.
  intros u v Hu Hv. apply Hf; [by right|done].
Qed.

Lemma equals_answers a : forall b, is_resolved b = true -> answers (equals a b).
Proof.
  induction a as [x o s|x o l IH|x o m f IH|x o l IH|x o e n|x o l IH|x o l IH] using value_tree_ind; intros b Hb;
    [by apply scalar_equals_answers|destruct b as [|y o' l'|y o' m' f'| | | |]; try done; try (by eexists)..].
  - simpl. apply vector_equals_answers. intros u v Hu Hv. rewrite Forall_forall in IH. apply (IH _ Hu).
    simpl in Hb. rewrite forallb_forall in Hb. apply Hb. by apply list_elem_of_In.
  - simpl. apply map_equals_answers. intros u v (ku & -> & Hu)%list_elem_of_fmap (kv & -> & Hv)%list_elem_of_fmap.
    rewrite Forall_forall in IH. apply (IH _ Hu). simpl in Hb. rewrite forallb_forall in Hb. apply Hb.
    by apply list_elem_of_In.
Qed.

(** C20: [equals] decides likeness.  On two values whose maps have distinct keys it
    answers true exactly when they have the same structure (the same classes, items,
    keys and substitutions, in any order of the entries, whatever the origins) and
    corresponding scalars are equal, where a number is compared after a cast to the
    class of the second one; and it never throws when the second value is resolved. *)
Theorem equals_exact a b :
  keyed a -> keyed b ->
  (equals a b = Ok true <-> scalar_alike a b) /\ (is_resolved b = true -> exists r, equals a b = Ok r).
Proof. intros Ha Hb. split; [by apply equals_true_alike|apply equals_answers]. Qed.

(** ** Equal values have equal hash codes *)

(** Comparison of doubles, as IEEE 754 has it: symmetric and transitive, an integer
    equals itself; equal doubles truncate alike and, unless they are whole (0.0 and
    -0.0), have the same bits. *)
Class DoubleLaws : Prop := {
  double_equals_sym d e : double_equals d e = true -> double_equals e d = true;
  double_equals_trans d e g : double_equals d e = true -> double_equals e g = true -> double_equals d g = true;
  whole_equals z : double_equals (int64_to_double z) (int64_to_double z) = true;
  equal_int64 d e : double_equals d e = true -> double_to_int64 d = double_to_int64 e;
  equal_bits d e :
    double_equals d e = true -> is_whole (double_to_int64 d) d = false -> double_bits d = double_bits e;
}.
Context `{!DoubleLaws}.

(** Of the same class, with the same value. *)
Definition same_scalar (s t : scalar) : bool :=
  match s, t with
  | ConfigString a, ConfigString b => bool_decide (a = b)
  | ConfigInt a _, ConfigInt b _ | ConfigInt64 a _, ConfigInt64 b _ => a =? b
  | ConfigDouble a _, ConfigDouble b _ => double_equals a b
  | ConfigBoolean a, ConfigBoolean b => eqb a b
  | ConfigNull, ConfigNull => true
  | _, _ => false
  end.

Fixpoint scalars (v : value) : list scalar :=
  match v with
  | Scalar _ _ s => [s]
  | SimpleConfigList _ _ l | ConfigConcatenation _ _ l | ConfigDelayedMerge _ _ l
  | ConfigDelayedMergeObject _ _ l => flat_map scalars l
  | SimpleConfigObject _ _ m _ => flat_map (fun kv => scalars kv.2) m
  | ConfigReference _ _ _ _ => []
  end.

(** No cast makes a number of [a] equal to a number of [b] of another class. *)
Definition separated (a b : value) : bool :=
  forallb (fun s => forallb (fun t => implb (scalar_eq s t) (same_scalar s t)) (scalars b)) (scalars a).

Lemma same_scalar_eq s t : same_scalar s t = true -> scalar_eq s t = true.
Proof. by destruct s, t. Qed.

Lemma same_scalar_sym s t : same_scalar s t = true -> same_scalar t s = true.
Proof.
  destruct s, t; simpl; try done; try (intros ->%Z.eqb_eq; by apply Z.eqb_refl).
  - intros ->%bool_decide_eq_true. by apply bool_decide_eq_true.
  - apply double_equals_sym.
  - intros ->%eqb_true_iff. by apply eqb_true_iff.
Qed.

Lemma whole_same d e : double_equals d e = true ->
  is_whole (double_to_int64 d) d = is_whole (double_to_int64 e) e.
Proof.
  intros E. rewrite (equal_int64 _ _ E). unfold is_whole. apply Bool.eq_iff_eq_true.
  split; intros Hw; eapply double_equals_trans; [done..|done|by apply double_equals_sym].
Qed.

Lemma same_scalar_hash s t : same_scalar s t = true -> scalar_hash s = scalar_hash t.
Proof.
  destruct s, t; simpl; try done; try (by intros ->%Z.eqb_eq).
  - by intros ->%bool_decide_eq_true.
  - intros E. unfold scalar_hash. simpl. unfold number_hash. rewrite (whole_same _ _ E).
    destruct (is_whole _ _) eqn:Hw; [by rewrite (equal_int64 _ _ E)|].
    rewrite (equal_bits _ _ E); [done|]. by rewrite (whole_same _ _ E).
  - by intros ->%eqb_true_iff.
Qed.

Lemma child_scalars v u s : u ∈ children v -> s ∈ scalars u -> s ∈ scalars v.
Proof.
  intros Hu Hs. apply list_elem_of_In. destruct v as [x o t|x o l|x o m f|x o l|x o e n|x o l|x o l]; simpl in *;
    try (by apply elem_of_nil in Hu); try (apply in_flat_map; exists u; split; by apply list_elem_of_In).
  apply list_elem_of_fmap in Hu as (kv & -> & Hkv). apply in_flat_map. exists kv. split; by apply list_elem_of_In.
Qed.

(** A weaker comparison of the scalars that occur. *)
Lemma alike_weaken (S S' : scalar -> scalar -> Prop) a : forall b,
  (forall s t, s ∈ scalars a -> t ∈ scalars b -> S s t -> S' s t) -> alike S a b -> alike S' a b.
Proof.
  revert a. refine (value_child_ind _ _). intros v IH w HS Hvw. rewrite Forall_forall in IH.
  assert (Hc : forall x y, x ∈ children v -> y ∈ children w -> alike S x y -> alike S' x y).
  { intros x y Hx Hy. apply (IH _ Hx). intros s t Hs Ht. apply HS; by eapply child_scalars. }
  destruct Hvw as [| | | | | |]; simpl in Hc; constructor; try (by eapply Forall2_members).
  - apply HS; [left|left|done].
  - by eapply maps_alike.
Qed.

Lemma alike_sym (S : scalar -> scalar -> Prop) a : (forall s t, S s t -> S t s) -> forall b, alike S a b -> alike S b a.
Proof.
  intros HS. revert a. refine (value_child_ind _ _). intros v IH w Hvw. rewrite Forall_forall in IH.
  destruct Hvw as [| |x o m f y o' m' f' Hm| | | |]; simpl in IH; constructor; auto;
    try (apply Forall2_flip; eapply Forall2_members; [|done]; intros x y Hx _; by apply IH).
  intros k. specialize (Hm k). destruct (map_find k m) eqn:E; inversion Hm; subst; constructor.
  apply IH; [by eapply map_find_value|done].
Qed.

Lemma hashes_find k (m : list (str * value)) :
  StdMap.map_find k (map (fun kv => (kv.1, hash_code kv.2)) m) = hash_code <$> map_find k m.
Proof.
  induction m as [|[k' v] m IH]; [done|]. simpl. rewrite IH.
  destruct (decide (k = k')); [subst; by rewrite !bool_decide_eq_true_2|].
  rewrite !bool_decide_eq_false_2 by congruence. done.
Qed.

Lemma fold_left_same {A B} (f g : A -> B -> A) l : (forall a b, f a b = g a b) -> forall a, fold_left f l a = fold_left g l a.
Proof. intros Hfg. induction l as [|b l IH]; intros a; simpl; [done|]. by rewrite Hfg, IH. Qed.

Lemma Forall2_map_same {A B} (f : A -> B) l l' : Forall2 (fun x y => f x = f y) l l' -> map f l = map f l'.
Proof. induction 1 as [|x y l l' Hxy _ IH]; simpl; [done|]. by rewrite Hxy, IH. Qed.

Lemma map_hash_ext (m m' : list (str * Z)) :
  (forall k, k ∈ m.*1 <-> k ∈ m'.*1) ->
  (forall k, StdMap.map_find k m = StdMap.map_find k m') -> map_hash m = map_hash m'.
Proof.
  intros Hk Hf. unfold map_hash. rewrite (proj2 (key_set_eq m m') Hk). do 2 f_equal.
  apply fold_left_same. intros h k. by rewrite Hf.
Qed.

Lemma alike_hash a : forall b, alike (fun s t => same_scalar s t = true) a b -> hash_code a = hash_code b.
Proof.
  revert a. refine (value_child_ind _ _). intros v IH w Hvw. rewrite Forall_forall in IH.
  assert (Hl : forall l', Forall2 (alike (fun s t => same_scalar s t = true)) (children v) l' ->
                          map hash_code (children v) = map hash_code l').
  { intros l' Hl. apply (Forall2_members _ (fun x y => hash_code x = hash_code y)) in Hl; [|intros x y Hx _; by apply IH].
    by apply Forall2_map_same. }
  destruct Hvw as [| |x o m f y o' m' f' Hm| | | |]; simpl in *; try (by rewrite (Hl l'));
    [by apply same_scalar_hash| |done].
  assert (Hf : forall k, hash_code <$> map_find k m = hash_code <$> map_find k m').
  { intros k. specialize (Hm k). destruct (map_find k m) eqn:E; inversion Hm; subst; [|done].
    simpl. f_equal. apply IH; [by eapply map_find_value|done]. }
  apply map_hash_ext; [|intros k; by rewrite !hashes_find].
  intros k. rewrite <- !list_fmap_compose. simpl. rewrite <- !map_find_keys.
  specialize (Hf k). destruct (map_find k m), (map_find k m'); try done.
Qed.

(** C19: the contract of hash tables.  When [equals] answers true on two values with
    distinct keys, and no cast of a number of the first makes it equal to a number of
    another class in the second, then [equals] answers true the other way round too
    and the hash codes are the same, whatever the order of the entries, the origins
    and the text of the numbers.  (Without the condition both fail, see
    [equals_asymmetric].) *)
Theorem equal_values_hash a b :
  keyed a -> keyed b -> separated a b = true -> equals a b = Ok true ->
  equals b a = Ok true /\ hash_code a = hash_code b.
Proof.
  intros Ha Hb Hsep Hab. apply equals_true_alike in Hab; [|done..].
  assert (Hsame : alike (fun s t => same_scalar s t = true) a b).
  { eapply alike_weaken; [|done]. intros s t Hs Ht Hst. unfold separated in Hsep.
    rewrite forallb_forall in Hsep. specialize (Hsep s (proj1 (list_elem_of_In _ _) Hs)).
    rewrite forallb_forall in Hsep. specialize (Hsep t (proj1 (list_elem_of_In _ _) Ht)). by rewrite Hst in Hsep. }
  split; [|by apply alike_hash]. apply equals_true_alike; [done..|].
  eapply alike_weaken; [|apply alike_sym; [|exact Hsame]; intros s t; apply same_scalar_sym].
  intros s t _ _. apply same_scalar_eq.
Qed.

(** ** Tokens *)

Fixpoint token_scalars (t : token) : list scalar :=
  match t with
  | ValueToken s _ => [s]
  | SubstitutionToken _ ts _ => flat_map token_scalars ts
  | _ => []
  end.

Lemma value_token_same h s t : same_scalar s t = true -> value_token_hash h s = value_token_hash h t.
Proof.
  intros E. pose proof (same_scalar_hash s t E) as Hh. unfold value_token_hash. do 2 f_equal. destruct s, t; try done.
  simpl in E. by apply eqb_true_iff in E as ->.
Qed.

(** The same for tokens; [equals] of a value token asks the other one's value. *)
Theorem equal_tokens_hash t : forall u,
  (forall s s', s ∈ token_scalars t -> s' ∈ token_scalars u -> scalar_eq s' s = true -> same_scalar s' s = true) ->
  token_equals t u = Ok true -> token_hash t = token_hash u.
Proof.
  revert t. fix IH 1. intros t u Hsep Heq.
  destruct t as [| | | | | | | | | |s l|l|s l|w m q l|s l|o ts l];
    destruct u as [| | | | | | | | | |s' l'|l'|s' l'|w' m' q' l'|s' l'|o' ts' l']; try done; cbn [token_equals] in Heq.
  - unfold value_token_equals, token_value in Heq. rewrite scalar_equals_scalar in Heq. injection Heq as Heq.
    symmetry. simpl. apply value_token_same, Hsep; [left|left|done].
  - injection Heq as ->%Z.eqb_eq. done.
  - injection Heq as ->%bool_decide_eq_true. done.
  - injection Heq as [[->%bool_decide_eq_true ->%bool_decide_eq_true]%andb_true_iff ->%eqb_true_iff]%andb_true_iff. done.
  - injection Heq as ->%bool_decide_eq_true. done.
  - revert Heq. unfold substitution_equals. case_bool_decide as Hlen; [|done]. intros Heq.
    assert (Hmap : map token_hash ts = map token_hash ts'); [|simpl; by rewrite Hmap].
    simpl in Hsep. clear -IH Hlen Heq Hsep. revert ts' Hlen Hsep Heq.
    induction ts as [|x r IHr]; intros [|y r'] Hlen Hsep Heq; simplify_eq/=; [done|].
    destruct (token_equals x y) as [[]|] eqn:Exy; simplify_eq/=. f_equal.
    + apply IH; [|done]. intros s s' Hs Hs'. apply Hsep; apply elem_of_app; by left.
    + apply IHr; [done| |done]. intros s s' Hs Hs'. apply Hsep; apply elem_of_app; by right.
Qed.
End Equality.

(** ** Concrete runs *)

(** Doubles that are halves of integers. *)
Definition half_doubles : DoubleLib :=
  {| double := Z; double_eq_dec := Z.eq_dec; lexical_cast_double := fun _ => None;
     double_to_int64 := fun z => Z.quot z 2; double_is_int64 := Z.even; int64_to_double := fun z => 2 * z;
     double_to_string := fun _ => []; double_scale := fun z n => Z.quot (z * n) 2 |}.

Definition sum_hashes : HashLib (H := half_doubles) :=
  {| hash_string := fun s => fold_left (fun h c => wrap_u64 (31 * h + uchar c)) s 0;
     hash_int32 := wrap_u64; hash_int64 := wrap_u64; hash_uint32 := fun z => z; hash_bool := Z.b2z;
     hash_double := fun d : @double half_doubles => wrap_u64 d; hash_combine := fun h v => wrap_u64 (31 * h + v);
     double_to_int32 := fun d : @double half_doubles => wrap_i32 (Z.quot d 2);
     double_equals := fun d e : @double half_doubles => d =? e; double_bits := fun d : @double half_doubles => d |}.

Definition no_objects : ObjectLib (H := half_doubles) :=
  {| base_equals := Nat.eqb; base_to_string := fun _ => []; base_hash := Z.of_nat; address_text := fun _ => [] |}.

#[local] Existing Instances half_doubles sum_hashes no_objects.

#[local] Instance half_laws : DoubleLaws.
Proof.
  split; simpl.
  - intros d e ->%Z.eqb_eq. apply Z.eqb_refl.
  - by intros d e g ->%Z.eqb_eq.
  - intros z. apply Z.eqb_refl.
  - by intros d e ->%Z.eqb_eq.
  - by intros d e ->%Z.eqb_eq.
Qed.

Definition here (line : Z) : SimpleConfigOrigin := mkOrigin $"a.conf" line line FILE [].
Abbreviation num z := (Scalar 1 (here 3) (ConfigInt z [])).

(** The same tree read from two places, its entries in another order. *)
Definition tree_a : value :=
  SimpleConfigObject 7 (here 1)
    [($"port", num 80); ($"rate", Scalar 2 (here 2) (ConfigDouble (3 : @double half_doubles) $"1.5"));
     ($"hosts", SimpleConfigList 5 (here 4) [Scalar 3 (here 4) (ConfigString $"a"); Scalar 4 (here 4) ConfigNull])] false.
Definition tree_b : value :=
  SimpleConfigObject 17 (here 11)
    [($"hosts", SimpleConfigList 15 (here 14) [Scalar 13 (here 14) (ConfigString $"a"); Scalar 14 (here 14) ConfigNull]);
     ($"port", Scalar 9 (here 12) (ConfigInt 80 $"0080"));
     ($"rate", Scalar 12 (here 12) (ConfigDouble (3 : @double half_doubles) $"15e-1"))] true.

Ltac concrete_keyed := repeat constructor; apply (bool_decide_unpack _); vm_compute; exact Logic.I.

Lemma keyed_a : keyed tree_a.
Proof. concrete_keyed. Qed.
Lemma keyed_b : keyed tree_b.
Proof. concrete_keyed. Qed.

Lemma equals_exact_witness :
  alike (fun s t => scalar_eq s t = true) tree_a tree_b /\ exists r, equals tree_b tree_a = Ok r.
Proof.
  split.
  - apply (equals_exact tree_a tree_b keyed_a keyed_b). vm_compute. reflexivity.
  - apply (equals_exact tree_b tree_a keyed_b keyed_a). vm_compute. reflexivity.
Defined.

Lemma equal_values_hash_witness : equals tree_b tree_a = Ok true /\ hash_code tree_a = hash_code tree_b.
Proof.
  apply (equal_values_hash tree_a tree_b keyed_a keyed_b); vm_compute; reflexivity.
Defined.

(** Casts make numbers equal one way only, with different hash codes: a 64-bit
    number and its low half, a fraction and its integral part. *)
Example equals_asymmetric :
  let long := Scalar 1 (here 1) (ConfigInt64 (2 ^ 32 + 5) []) in
  let fraction := Scalar 2 (here 1) (ConfigDouble (3 : @double half_doubles) $"1.5") in
  equals long (num 5) = Ok true /\ equals (num 5) long = Ok false /\ hash_code long <> hash_code (num 5)
  /\ equals fraction (num 1) = Ok true /\ equals (num 1) fraction = Ok false
  /\ hash_code fraction <> hash_code (num 1).
Proof. vm_compute. split_and!; congruence. Qed.

(** A scalar compared with an unresolved value throws; the other way round the
    answer is no.  In a list the items before decide whether that happens. *)
Example equals_throws :
  let text := Scalar 1 (here 1) (ConfigString $"a") in
  let open := ConfigReference 2 (here 1) (mkSubst (One $"b") false) 0 in
  equals text open = Err (NotComparable NotResolved) /\ equals open text = Ok false
  /\ equals (SimpleConfigList 3 (here 1) [num 1; text]) (SimpleConfigList 4 (here 1) [num 1; open])
     = Err (NotComparable NotResolved)
  /\ equals (SimpleConfigList 3 (here 1) [num 1; text]) (SimpleConfigList 4 (here 1) [num 2; open]) = Ok false.
Proof. vm_compute. split_and!; reflexivity. Qed.

(** Variants: a map equals a larger one, zero equals null, a text its number, each
    one way only; a null pointer compared with a map throws. *)
Example variant_equals_odd :
  variant_equals (VMap []) (VMap [($"a", VNull)]) = Ok true
  /\ variant_equals (VMap [($"a", VNull)]) (VMap []) = Ok false
  /\ variant_equals VNull (VInt 0) = Ok true /\ variant_equals (VInt 0) VNull = Ok false
  /\ variant_equals (VInt 1) (VString $"1") = Ok true /\ variant_equals (VString $"1") (VInt 1) = Ok false
  /\ variant_equals (VBase 0) (VMap []) = Err BadGet.
Proof. vm_compute. split_and!; reflexivity. Qed.

(** [${a}] and [${?a}] are equal tokens. *)
Example substitution_optional_ignored :
  let a := UnquotedTextToken $"a" 1 in
  token_equals (SubstitutionToken true [a] 1) (SubstitutionToken false [a] 2) = Ok true.
Proof. vm_compute. reflexivity. Qed.
