(* ===== verification/TypedLists.v ===== *)
(** * config/src/detail/simple_config.cpp, getters of lists and plain values

    [get_double], [get_variant], [get_config], the getters of lists and the two loops
    they share.  Each getter of a list answers what the getter of a single value
    would answer for every item, except [get_config_list]. *)

From S2P Require Import Prelude CLib Token Units Path PathParse Origin Value AnyRef Equality ConfigTree.

Open Scope Z_scope.

Section TypedLists.
Context `{DoubleLib}.

Abbreviation cobject := (list (str * cvalue)).

(** [boost::bad_get] besides the exceptions of the library. *)
Inductive getter_exn := Getter (e : config_exn) | BadVariantGet.

Definition lift_getter {A} (r : res config_exn A) : res getter_exn A :=
  match r with Ok a => Ok a | Err e => Err (Getter e) end.

(** [unwrapped] of a resolved tree. *)
Fixpoint plain_value (v : cvalue) : variant :=
  match v with
  | VScalar s => unwrapped_scalar s
  | VList l => AnyRef.VList (map plain_value l)
  | VObject m => VMap (map (fun kv => (kv.1, plain_value kv.2)) m)
  end.

(** [variant_get]. *)
Definition variant_get_bool (v : variant) : res getter_exn bool :=
  match v with VBool b => Ok b | _ => Err BadVariantGet end.
Definition variant_get_string (v : variant) : res getter_exn str :=
  match v with VString s => Ok s | _ => Err BadVariantGet end.
(** [dynamic_get<ConfigObject>(v)->to_config()]: only a pointer can be got. *)
Definition variant_get_config (v : variant) : res getter_exn nat :=
  match v with VBase p => Ok p | _ => Err BadVariantGet end.

(** ** Plain getters *)

Definition get_double (self : cobject) (path : str) : res config_exn double :=
  n ← get_config_number self path; Ok (variant_double (unwrapped_scalar n)).

Definition get_config (self : cobject) (path : str) : res config_exn cobject := get_object self path.

Definition get_variant (self : cobject) (path : str) : res config_exn variant :=
  v ← find_text self path NONE_TYPE; Ok (plain_value v).

(** ** Lists *)

Section Loop.
Context {E A B : Type} (f : A -> res E B).
(** A loop that pushes [f x] to a vector for every item. *)
Fixpoint push_all (l : list A) : res E (list B) :=
  match l with
  | [] => Ok []
  | x :: l' => y ← f x; ys ← push_all l'; Ok (y :: ys)
  end.
End Loop.

(** The body of [get_homogeneous_unwrapped_list]. *)
Definition unwrapped_item (path : str) (expected : ConfigValueType) (cv : cvalue) : res config_exn variant :=
  let v := if is_none expected then cv else transform cv expected in
  if negb (bool_decide (value_type v = expected)) then
    Err (WrongType path ($"list of " ++ type_name expected) ($"list of " ++ type_name (value_type v)))
  else Ok (plain_value v).

Definition get_homogeneous_unwrapped_list (self : cobject) (path : str) (expected : ConfigValueType)
    : res config_exn (list variant) :=
  l ← get_list self path; push_all (unwrapped_item path expected) l.

Definition get_boolean_list (self : cobject) (path : str) : res getter_exn (list bool) :=
  l ← lift_getter (get_homogeneous_unwrapped_list self path BOOLEAN); push_all variant_get_bool l.

(** [int_value_range_checked(path)]. *)
Definition int_item (path : str) (v : cvalue) : res config_exn Z :=
  match v with
  | VScalar n =>
      match int_value_range_checked n with
      | Some z => Ok z
      | None =>
          Err (WrongType path $"32-bit integer" ($"out-of-range value " ++ dec_string (from_option id 0 (int64_value n))))
      end
  | _ => Err (Bug NullPath)
  end.

Definition get_int_list (self : cobject) (path : str) : res getter_exn (list Z) :=
  l ← lift_getter (get_homogeneous_wrapped_list self path NUMBER); lift_getter (push_all (int_item path) l).

Definition get_int64_list (self : cobject) (path : str) : res getter_exn (list Z) :=
  l ← lift_getter (get_homogeneous_unwrapped_list self path NUMBER); push_all (fun v => Ok (Equality.variant_int64 v)) l.

Definition get_double_list (self : cobject) (path : str) : res getter_exn (list double) :=
  l ← lift_getter (get_homogeneous_unwrapped_list self path NUMBER); push_all (fun v => Ok (variant_double v)) l.

Definition get_string_list (self : cobject) (path : str) : res getter_exn (list str) :=
  l ← lift_getter (get_homogeneous_unwrapped_list self path STRING); push_all variant_get_string l.

(** [dynamic_pointer_cast<ConfigObject>]: null for another class. *)
Definition object_item (v : cvalue) : option cobject := match v with VObject m => Some m | _ => None end.

Definition get_object_list (self : cobject) (path : str) : res getter_exn (list (option cobject)) :=
  l ← lift_getter (get_homogeneous_wrapped_list self path OBJECT); push_all (fun v => Ok (object_item v)) l.

Definition get_config_list (self : cobject) (path : str) : res getter_exn (list nat) :=
  l ← lift_getter (get_homogeneous_unwrapped_list self path OBJECT); push_all variant_get_config l.

Definition get_variant_list (self : cobject) (path : str) : res config_exn (list variant) :=
  l ← get_list self path; push_all (fun v => Ok (plain_value v)) l.

(** A number, or a string that is parsed; the parsers' [uint64_t] becomes an
    [int64_t]. *)
Definition number_item (number : Z -> res config_exn Z) (parse : str -> res bad_value Z)
    (path expected : str) (v : cvalue) : res config_exn Z :=
  match v with
  | VScalar s =>
      match scalar_type s, s with
      | NUMBER, _ => number (Equality.variant_int64 (unwrapped_scalar s))
      | STRING, ConfigString t => n ← lift_bad (parse t); Ok (wrap_i64 n)
      | _, _ => Err (WrongType path expected (type_name (scalar_type s)))
      end
  | _ => Err (WrongType path expected (type_name (value_type v)))
  end.

Definition get_bytes_list (self : cobject) (path : str) : res config_exn (list Z) :=
  l ← get_list self path;
  push_all (number_item (fun n => Ok n) parse_bytes path $"memory size string or number of bytes") l.

(** [int64_t * 1000000LL]. *)
Definition signed_million (n : Z) : res config_exn Z :=
  let p := n * 1000000 in
  if (int64_min <=? p) && (p <=? int64_max) then Ok p else Err Undefined.

Definition get_nanoseconds_list (self : cobject) (path : str) : res config_exn (list Z) :=
  l ← get_list self path;
  push_all (number_item signed_million parse_duration path $"duration string or number of nanoseconds") l.

Definition get_milliseconds_list (self : cobject) (path : str) : res config_exn (list Z) :=
  nanos ← get_nanoseconds_list self path; push_all (fun nano => Ok (Z.quot nano 1000000)) nanos.

(** ** Items and single values *)

Lemma push_all_ok {E A B} (f : A -> res E B) l ys : push_all f l = Ok ys <-> Forall2 (fun x y => f x = Ok y) l ys.
Proof.
  revert ys. induction l as [|x l IH]; intros ys; simpl.
  - split; [intros [= <-]; constructor|]. by inversion 1.
  - destruct (f x) as [y|e] eqn:Ex; simpl.
    + destruct (push_all f l) as [r|e]; simpl.
      * split; [intros [= <-]; constructor; [done|by apply IH]|]. inversion 1 as [|? y' ? ys' Hy Hr]; subst.
        apply IH in Hr. congruence.
      * split; [done|]. inversion 1 as [|? y' ? ys' Hy Hr]; subst. by apply IH in Hr.
    + split; [done|]. inversion 1; subst. congruence.
Qed.

Lemma lift_getter_ok {A} (r : res config_exn A) a : lift_getter r = Ok a <-> r = Ok a.
Proof. by destruct r; simpl; split; intros [= ->]. Qed.

(** The configuration that holds one value, at the key [item]. *)
Definition only (v : cvalue) : cobject := [($"item", v)].

Lemma item_path : parse_path $"item" = Ok (Some (One $"item")).
Proof. vm_compute. reflexivity. Qed.

Lemma find_only v expected : expected <> NONE_TYPE ->
  forall w, find_text (only v) $"item" expected = Ok w <-> w = transform v expected /\ value_type w = expected.
Proof.
  intros He w. unfold find_text. rewrite item_path. cbn [find]. unfold find_key.
  replace (obj_find $"item" (only v)) with (Some v) by reflexivity.
  assert (Hn : is_none expected = false) by (by destruct expected). rewrite Hn. cbn [negb andb].
  destruct (is_none (value_type (transform v expected))) eqn:E1; simpl.
  - split; [done|]. intros [-> E]. rewrite E in E1. congruence.
  - case_bool_decide as E2; simpl; split; [by intros [= <-]|by intros [-> _]|done|by intros [-> ?]].
Qed.

Lemma homogeneous_ok l path expected vs : expected <> NONE_TYPE ->
  homogeneous l path expected = Ok vs
  <-> Forall2 (fun cv v => v = transform cv expected /\ value_type v = expected) l vs.
Proof.
  intros He. assert (Hn : is_none expected = false) by (by destruct expected).
  revert vs. induction l as [|x l IH]; intros vs; simpl.
  - split; [intros [= <-]; constructor|]. by inversion 1.
  - rewrite Hn. case_bool_decide as Et; simpl.
    + destruct (homogeneous l path expected) as [r|e]; simpl.
      * split; [intros [= <-]; constructor; [done|by apply IH]|]. inversion 1 as [|? y' ? ys' [-> _] Hr]; subst.
        apply IH in Hr. congruence.
      * split; [done|]. inversion 1 as [|? y' ? ys' Hy Hr]; subst. by apply IH in Hr.
    + split; [done|]. by inversion 1 as [|? y' ? ys' [-> ?] Hr].
Qed.

Lemma unwrapped_item_ok path expected cv u : expected <> NONE_TYPE ->
  unwrapped_item path expected cv = Ok u
  <-> exists v, find_text (only cv) $"item" expected = Ok v /\ u = plain_value v.
Proof.
  intros He. unfold unwrapped_item. assert (Hn : is_none expected = false) by (by destruct expected). rewrite Hn.
  setoid_rewrite find_only; [|done]. case_bool_decide as Et; simpl.
  - split; [intros [= <-]; by eexists|]. by intros (v & [-> _] & ->).
  - split; [done|]. by intros (v & [-> ?] & _).
Qed.

(** The two shapes of a getter of lists, item by item. *)
Lemma unwrapped_getter {B} self path expected l (f : variant -> res getter_exn B) ys :
  expected <> NONE_TYPE -> get_list self path = Ok l ->
  (us ← lift_getter (get_homogeneous_unwrapped_list self path expected); push_all f us) = Ok ys
  <-> Forall2 (fun cv y => exists v, find_text (only cv) $"item" expected = Ok v /\ f (plain_value v) = Ok y) l ys.
Proof.
  intros He Hl. unfold get_homogeneous_unwrapped_list. rewrite Hl. clear Hl. cbn [mbind res_bind].
  destruct (push_all (unwrapped_item path expected) l) as [us|e] eqn:Eu; cbn [lift_getter mbind res_bind].
  - apply push_all_ok in Eu. rewrite push_all_ok. split.
    + intros Hy. revert ys Hy. induction Eu as [|cv u l us Hu _ IH]; intros ys Hy; inversion Hy; subst; constructor; [|auto].
      apply unwrapped_item_ok in Hu as (v & Hv & ->); [by exists v|done].
    + intros Hy. revert ys Hy. induction Eu as [|cv u l us Hu _ IH]; intros ys Hy;
        inversion Hy as [|? y ? ys' (v & Hv & Hf) Hys]; subst; constructor; [|auto].
      apply unwrapped_item_ok in Hu as (v' & Hv' & ->); [congruence|done].
  - split; [done|]. intros Hy. assert (exists us, push_all (unwrapped_item path expected) l = Ok us) as [us Hus]; [|congruence].
    clear -Hy He. setoid_rewrite push_all_ok. induction Hy as [|cv y l ys (v & Hv & _) _ [us IH]]; [by exists []|].
    exists (plain_value v :: us). constructor; [|done]. apply unwrapped_item_ok; [done|]. eauto.
Qed.

(** Getters of a single value, by the value found. *)
Lemma getter_ok {A B E} (r : res E A) (f : A -> res E B) y :
  (v ← r; f v) = Ok y <-> exists v, r = Ok v /\ f v = Ok y.
Proof. destruct r as [v|e]; simpl; split; [by exists v|by intros (v' & [= <-] & ?)|done|by intros (v' & [=] & _)]. Qed.

Lemma item_getter {A} (expected : ConfigValueType) (f : variant -> res getter_exn A) (g : cvalue -> res config_exn A) cv y :
  expected <> NONE_TYPE ->
  (forall v, value_type v = expected -> f (plain_value v) = Ok y <-> g v = Ok y) ->
  (exists v, find_text (only cv) $"item" expected = Ok v /\ f (plain_value v) = Ok y)
  <-> (v ← find_text (only cv) $"item" expected; g v) = Ok y.
Proof.
  intros He Hfg. rewrite getter_ok. split; intros (v & Hv & Hy); exists v; (split; [done|]);
    apply find_only in Hv as [_ Ht]; try done; by apply Hfg.
Qed.

Lemma number_getter {A} (g : scalar -> res config_exn A) self path r :
  r = (n ← get_config_number self path; g n) ->
  r = (v ← find_text self path NUMBER; match v with VScalar s => g s | _ => Err (Bug NullPath) end).
Proof. intros ->. unfold get_config_number. by destruct (find_text self path NUMBER) as [[]|]. Qed.

Lemma Forall2_equiv {A B} (P Q : A -> B -> Prop) l k : (forall x y, P x y <-> Q x y) -> Forall2 P l k <-> Forall2 Q l k.
Proof. intros HPQ. split; intros HF; (eapply Forall2_impl; [exact HF|]); intros x y; apply HPQ. Qed.

Lemma int_items self path l zs :
  get_list self path = Ok l ->
  get_int_list self path = Ok zs <-> Forall2 (fun cv z => get_int (only cv) $"item" = Ok z) l zs.
Proof.
  intros Hl. unfold get_int_list, get_homogeneous_wrapped_list. rewrite Hl. clear Hl. cbn [mbind res_bind].
  rewrite getter_ok. setoid_rewrite lift_getter_ok. setoid_rewrite homogeneous_ok; [|done].
  setoid_rewrite push_all_ok.
  assert (Hone : forall cv z, get_int (only cv) $"item" = Ok z
    <-> exists v, (v = transform cv NUMBER /\ value_type v = NUMBER) /\ int_item path v = Ok z).
  { intros cv z. unfold get_int, get_config_number. rewrite getter_ok. setoid_rewrite getter_ok.
    setoid_rewrite find_only; [|done]. split.
    - intros (n & (v & Hv & Hn) & Hz). exists v. split; [done|]. destruct v; simplify_eq. simpl.
      by destruct (int_value_range_checked n).
    - intros (v & Hv & Hz). destruct v as [n| |]; try done. exists n. split; [by exists (VScalar n)|].
      simpl in Hz. by destruct (int_value_range_checked n). }
  split.
  - intros (vs & Hvs & Hzs). revert zs Hzs. induction Hvs as [|cv v l vs Hv _ IH]; intros zs Hzs;
      inversion Hzs; subst; constructor; [apply Hone; eauto|auto].
  - induction 1 as [|cv z l zs (v & Hv & Hz)%Hone _ (vs & Hvs & Hzs)]; [by exists []|].
    exists (v :: vs). split; by constructor.
Qed.

(** C33: the getters of lists against the getters of single values.  When there is a
    list at the path, the getter of booleans, 32-bit and 64-bit integers, doubles or
    strings answers with a list exactly when the getter of a single value answers
    with each member of it for the item at the same place (so it fails as soon as one
    item cannot be converted). *)
Theorem list_getters_agree self path l :
  get_list self path = Ok l ->
  (forall bs, get_boolean_list self path = Ok bs <-> Forall2 (fun v b => get_boolean (only v) $"item" = Ok b) l bs)
  /\ (forall zs, get_int_list self path = Ok zs <-> Forall2 (fun v z => get_int (only v) $"item" = Ok z) l zs)
  /\ (forall zs, get_int64_list self path = Ok zs <-> Forall2 (fun v z => get_int64 (only v) $"item" = Ok z) l zs)
  /\ (forall ds, get_double_list self path = Ok ds <-> Forall2 (fun v d => get_double (only v) $"item" = Ok d) l ds)
  /\ (forall ss, get_string_list self path = Ok ss <-> Forall2 (fun v s => get_string (only v) $"item" = Ok s) l ss).
Proof.
  intros Hl. split_and!; intros ys.
  - unfold get_boolean_list. rewrite unwrapped_getter by done. apply Forall2_equiv. intros cv y.
    apply item_getter; [done|]. intros [[]| |] Hv; try done. split; by intros [= ->].
  - by apply int_items.
  - unfold get_int64_list. rewrite unwrapped_getter by done. apply Forall2_equiv. intros cv y.
    rewrite (number_getter (fun n => Ok (ConfigTree.variant_int64 n)) _ _ (get_int64 (only cv) $"item")) by done.
    apply (item_getter NUMBER (fun v => Ok (Equality.variant_int64 v))); [done|]. intros [s| |] Hv; try done. destruct s; try done; split; by intros [= <-].
  - unfold get_double_list. rewrite unwrapped_getter by done. apply Forall2_equiv. intros cv y.
    rewrite (number_getter (fun n => Ok (variant_double (unwrapped_scalar n))) _ _ (get_double (only cv) $"item")) by done.
    apply (item_getter NUMBER (fun v => Ok (variant_double v))); [done|]. intros [s| |] Hv; try done. destruct s; try done; split; by intros [= <-].
  - unfold get_string_list. rewrite unwrapped_getter by done. apply Forall2_equiv. intros cv y.
    apply item_getter; [done|]. intros [[]| |] Hv; try done. split; by intros [= ->].
Qed.

(** A list of objects has no list of configurations: [unwrapped] makes maps of the
    objects, and the getter asks them for a pointer. *)
Theorem config_list_fails self path l cs :
  get_list self path = Ok l -> l <> [] -> get_config_list self path <> Ok cs.
Proof.
  intros Hl Hne Hcs. unfold get_config_list in Hcs. rewrite (unwrapped_getter _ _ _ l) in Hcs by done.
  destruct Hcs as [|cv c l cs (v & Hv & Hc) _]; [done|]. apply find_only in Hv as [_ Ht]; [|done]. by destruct v as [[]| |].
Qed.

(** Durations in lists are signed: 32-bit numbers of milliseconds come back, the
    negative ones too (compare [milliseconds_of_number]). *)
Theorem milliseconds_items self path ns :
  get_list self path = Ok (map (fun n => VScalar (ConfigInt n [])) ns) ->
  Forall (fun n => int32_min <= n <= int32_max) ns -> get_milliseconds_list self path = Ok ns.
Proof.
  intros Hl Hns. unfold get_milliseconds_list, get_nanoseconds_list. rewrite Hl. cbn [mbind res_bind].
  rewrite (proj2 (push_all_ok _ _ (map (fun n => n * 1000000) ns))); cbn [mbind res_bind].
  - apply push_all_ok. clear Hl Hns. induction ns as [|n ns IH]; constructor; [|done]. by rewrite Z.quot_mul.
  - clear Hl. induction Hns as [|n ns Hn _ IH]; constructor; [|done]. simpl. unfold signed_million.
    unfold int32_min, int32_max in Hn. unfold int64_min, int64_max.
    rewrite (proj2 (Z.leb_le _ _)), (proj2 (Z.leb_le _ _)) by lia. done.
Qed.
End TypedLists.

(** ** Concrete runs *)

Definition lists : list (str * cvalue (H := whole_doubles)) :=
  [($"flags", VList [VScalar (ConfigString $"yes"); VScalar (ConfigBoolean false); VScalar (ConfigString $"off")]);
   ($"ports", VList [VScalar (ConfigInt 80 $"80"); VScalar (ConfigString $"8080")]);
   ($"sizes", VList [VScalar (ConfigInt 5 $"5"); VScalar (ConfigString $"2K")]);
   ($"waits", VList [VScalar (ConfigInt (-5) $"-5"); VScalar (ConfigString $"2 s")]);
   ($"big", VList [VScalar (ConfigInt64 (2 ^ 40) [])]);
   ($"hosts", VList [VObject [($"name", VScalar (ConfigString $"a"))]])].

Lemma ports_list : get_list lists $"ports" = Ok [VScalar (ConfigInt 80 $"80"); VScalar (ConfigString $"8080")].
Proof. vm_compute. reflexivity. Qed.

Lemma ports_items : Forall2 (fun v z => get_int (only v) $"item" = Ok z)
  [VScalar (ConfigInt (H := whole_doubles) 80 $"80"); VScalar (ConfigString $"8080")] [80; 8080].
Proof. repeat constructor; vm_compute; reflexivity. Qed.

Lemma list_getters_agree_witness : get_int_list lists $"ports" = Ok [80; 8080].
Proof. exact (proj2 (proj1 (proj2 (list_getters_agree lists $"ports" _ ports_list)) [80; 8080]) ports_items). Defined.

(** Sizes and durations, numbers out of range, items of the wrong type; and the
    configurations that cannot be got. *)
Example lists_getters :
  get_bytes_list lists $"sizes" = Ok [5; 2048]
  /\ get_milliseconds_list lists $"waits" = Ok [-5; 2000]
  /\ get_int_list lists $"big"
     = Err (Getter (WrongType $"big" $"32-bit integer" $"out-of-range value 1099511627776"))
  /\ get_int64_list lists $"flags" = Err (Getter (WrongType $"flags" $"list of NUMBER" $"list of STRING"))
  /\ get_object_list lists $"hosts" = Ok [Some [($"name", VScalar (ConfigString $"a"))]]
  /\ get_config_list lists $"hosts" = Err BadVariantGet.
Proof. vm_compute. split_and!; reflexivity. Qed.
