(* ===== verification/ConfigView.v ===== *)
(** * config/src/detail/simple_config.cpp: a configuration over its object

    [SimpleConfig] wraps an object.  Its operations that make new configurations
    (merging, editing by a path expression, placing under a key or path) run on
    values; its getters read the resolved tree.  The theorems join the two: what a
    getter finds after an edit or a merge. *)

From S2P Require Import Prelude CLib Token Path PathParse Origin Value ValueMerge ValueEdit AnyRef ConfigTree.

Open Scope Z_scope.

Section ConfigView.
Context `{DoubleLib}.

Abbreviation M A := (SE nat value_exn A).
Abbreviation I A := (SE nat impl_exn A).

(** ** Operations *)

(** [Path::new_path], then the operation on [root()]; an empty path would be
    dereferenced. *)
Definition at_expression {A} (path_expression : str) (f : Path -> M A) : I A :=
  match parse_path path_expression with
  | Ok (Some path) => lift_impl (f path)
  | Ok None => se_throw (ImplError Value.Undefined)
  | Err e => se_throw (BadPathExpression e)
  end.

(** [dynamic_pointer_cast<AbstractConfigObject>(v)->to_config()]. *)
Definition to_config (v : value) : M value := if is_object v then se_ret v else se_throw Value.Undefined.

Definition config_with_only_path (object : value) (path_expression : str) : I value :=
  at_expression path_expression (with_only_path object).

Definition config_without_path (object : value) (path_expression : str) : I value :=
  at_expression path_expression (without_path object).

Definition config_with_value (object : value) (path_expression : str) (v : value) : I value :=
  at_expression path_expression (fun path => with_value object path v).

(** [to_fallback_value] of a configuration is its object. *)
Definition config_with_fallback (object other : value) : M value :=
  let* merged := with_fallback object other in to_config merged.

(** [AbstractConfigValue::at_key(key)] and [at_path(path)]. *)
Definition value_at_key (v : value) (key : str) : M value :=
  let* o := lift_origin (new_simple ($"at_key(" ++ key ++ $")")) in at_key v o key.

Definition value_at_path (v : value) (path : str) : I value :=
  let* o := lift_impl (lift_origin (new_simple ($"at_path(" ++ path ++ $")"))) in
  at_expression path (at_path v o).

(** [empty] of the object. *)
Definition config_empty (object : value) : res value_exn bool :=
  match object with
  | SimpleConfigObject _ _ m _ => Ok (bool_decide (m = []))
  | ConfigDelayedMergeObject _ _ _ => Err NotResolved
  | _ => Err Value.Undefined
  end.

(** ** The tree the getters read *)

Fixpoint tree_of (h : shape) : cvalue :=
  match h with
  | HScalar s => VScalar s
  | HList l => ConfigTree.VList (map tree_of l)
  | HObject m _ => VObject (map (fun kv => (kv.1, tree_of kv.2)) m)
  | HConcat _ | HRef _ _ | HDelayed _ _ => VScalar ConfigNull
  end.

Definition view (object : value) : list (str * cvalue) :=
  match tree_of (shape_of object) with VObject m => m | _ => [] end.

(** ** Reading by path *)

Lemma tree_find k (m : list (str * shape)) :
  obj_find k (map (fun kv => (kv.1, tree_of kv.2)) m) = tree_of <$> lookup_key k m.
Proof. induction m as [|[k' h] m IH]; [done|]. simpl. by case_bool_decide. Qed.

Lemma peek_tree p : forall m f,
  peek_path (map (fun kv => (kv.1, tree_of kv.2)) m) p = tree_of <$> shape_at (HObject m f) (path_elements p).
Proof.
  induction p as [k|k next IH]; intros m f; cbn [peek_path path_elements shape_at]; rewrite tree_find.
  - by destruct (lookup_key k m).
  - destruct (lookup_key k m) as [h|]; [|done]. simpl. destruct h as [s|l|m' f'|l|e n|o l]; simpl;
      try (rewrite elements_first; done). by apply IH.
Qed.

Lemma peek_view v p : is_simple_object v = true -> peek_path (view v) p = tree_of <$> shape_at (shape_of v) (path_elements p).
Proof. destruct v; try done. intros _. unfold view. cbn [shape_of tree_of]. apply peek_tree. Qed.

Definition short (p : Path) : Prop := Z.of_nat (length (path_elements p)) < 2 ^ 32.

Lemma get_value_view v text p h :
  parse_path text = Ok (Some p) -> short p -> peek_path (view v) p = Some h ->
  is_none (value_type h) = false -> get_value (view v) text = Ok h.
Proof.
  intros Hp Hs Hh Hn. unfold get_value, find_text. rewrite Hp.
  pose proof (find_suffix (view v) p NONE_TYPE p [] eq_refl Hs) as Hf.
  destruct (find (view v) p NONE_TYPE p) as [w|e].
  - destruct Hf as (u & Hu & _ & ->). rewrite Hh in Hu. by simplify_eq.
  - destruct Hf as [Hno _]. specialize (Hno _ Hh). unfold accepts, coerce in Hno. simpl in Hno. by rewrite Hn in Hno.
Qed.

Lemma has_path_view v text p :
  parse_path text = Ok (Some p) ->
  has_path (view v) text
  = Ok (match peek_path (view v) p with Some h => negb (is_none (value_type h)) | None => false end).
Proof. intros Hp. unfold has_path. by rewrite Hp. Qed.

(** ** Edits of a resolved object are resolved *)

Lemma resolved_put k v m : from_map m = true -> is_resolved v = true -> from_map (map_put k v m) = true.
Proof.
  unfold from_map. intros Hm Hv. induction m as [|[k' w] m IH]; simpl in *; [by rewrite Hv|].
  apply andb_true_iff in Hm as [Hw Hm]. case_bool_decide; simpl; [by rewrite Hv, Hm|by rewrite Hw, IH].
Qed.

Lemma resolved_erase k m : from_map m = true -> from_map (map_erase k m) = true.
Proof.
  unfold from_map, map_erase. rewrite !forallb_forall. intros Hm kv [Hkv _]%filter_In. by apply Hm.
Qed.

Lemma make_object_result o m b n r n' : make_object o m (from_map m) b n = (Ok r, n') -> r = SimpleConfigObject n o m b.
Proof. unfold make_object. rewrite eqb_refl_neg. by intros [= <- <-]. Qed.

Lemma with_key_resolved a o m b k w n r n' :
  from_map m = true -> is_resolved w = true ->
  with_key (SimpleConfigObject a o m b) k w n = (Ok r, n') -> is_resolved r = true.
Proof. intros Hm Hw ->%make_object_result. by apply resolved_put. Qed.

Lemma nested_settled ks h : settled h = true -> settled (nested ks h) = true.
Proof. intros Hh. induction ks as [|k ks IH]; [done|]. simpl. by rewrite IH. Qed.

Lemma with_value_resolved path : forall n self v r n',
  ValueMerge.wf n self -> ValueMerge.wf n v -> is_resolved self = true -> is_object self = true -> is_resolved v = true ->
  with_value self path v n = (Ok r, n') -> is_resolved r = true.
Proof.
  induction path as [k|k next IH]; intros n self v r n' Hs Hv Hr Ho Hrv E;
    (destruct self as [| |a o m b| | | |]; try done); cbn [with_value] in E; [by eapply with_key_resolved|].
  fold (with_subtree (SimpleConfigObject a o m b) k next v) in E.
  assert (Hsub : with_subtree (SimpleConfigObject a o m b) k next v n = (Ok r, n') -> is_resolved r = true).
  { unfold with_subtree, new_simple, make_origin. rewrite bool_decide_false by done. unfold se_bind.
    cbn [lift_origin se_ret].
    destruct (at_path_ok n v _ next Hv (named_origin_good (render next ++ $")"))) as (w & n1 & -> & _ & _ & Hsh & _).
    intros Ew. eapply with_key_resolved; [done| |done]. rewrite <- shape_settled, Hsh. apply nested_settled.
    by rewrite shape_settled. }
  destruct (map_find k m) as [child|] eqn:Ef; [|by apply Hsub]. destruct (is_object child) eqn:Eo; [|by apply Hsub].
  unfold se_bind in E. destruct (with_value child next v n) as [[w|e] n1] eqn:Ew; [|done].
  eapply with_key_resolved; [done| |done]. eapply IH; [| |by eapply resolved_child| | |done]; try done. by eapply wf_child.
Qed.

Lemma without_path_resolved path : forall n self r n',
  is_resolved self = true -> is_object self = true -> without_path self path n = (Ok r, n') -> is_resolved r = true.
Proof.
  induction path as [k|k next IH]; intros n self r n' Hr Ho E;
    (destruct self as [| |a o m b| | | |]; try done); cbn [without_path] in E.
  - destruct (map_find k m) as [w|]; [|by injection E as <- _]. apply make_object_result in E as ->. by apply resolved_erase.
  - destruct (map_find k m) as [w|] eqn:Ef; [|by injection E as <- _].
    destruct (is_object w) eqn:Eo; [|by injection E as <- _]. unfold se_bind in E.
    destruct (without_path w next n) as [[v|e] n1] eqn:Ew; [|done]. apply make_object_result in E as ->.
    apply resolved_put; [done|]. eapply IH; [by eapply resolved_child| |done]. done.
Qed.

(** ** Fallbacks *)

(** Along the path [a] has objects that take fallbacks, and then nothing. *)
Fixpoint lacks (a : shape) (ks : list str) : bool :=
  match ks, a with
  | k :: ks', HObject m false => match lookup_key k m with Some x => lacks x ks' | None => true end
  | _, _ => false
  end.

Lemma lookup_merge_objects m fb g k :
  lookup_key k (over merge fb m ++ only_in m fb)
  = match lookup_key k m, lookup_key k fb with
    | Some x, Some y => Some (merge x y)
    | Some x, None => Some x
    | None, y => y
    end :> option shape /\ merge (HObject m false) (HObject fb g) = HObject (over merge fb m ++ only_in m fb) g.
Proof.
  split; [|done]. rewrite lookup_app, lookup_over, lookup_only_in.
  destruct (lookup_key k m), (lookup_key k fb); done.
Qed.

Lemma merge_settled_hidden m b :
  settled (HObject m false) = true -> settled b = true -> object_shape b = false -> merge (HObject m false) b = HObject m true.
Proof. intros Hm Hb Ho. rewrite merge_hidden; [by rewrite Hm|by destruct b as [| | | | |[]]|done]. Qed.

Lemma settled_entry m f k x : settled (HObject m f) = true -> lookup_key k m = Some x -> settled x = true.
Proof.
  simpl. rewrite forallb_forall. intros Hm Hx. induction m as [|[k' y] m IH]; [done|]. simpl in *.
  case_bool_decide; simplify_eq; [exact (Hm _ (or_introl eq_refl))|]. apply IH; [|done]. intros kv Hkv. apply Hm. by right.
Qed.

Lemma settled_at ks : forall h x, settled h = true -> shape_at h ks = Some x -> settled x = true.
Proof.
  induction ks as [|k ks IH]; intros h x Hh Hx; simpl in Hx; [by simplify_eq|].
  destruct h as [| |m f| | |]; try done. destruct (lookup_key k m) as [y|] eqn:Ey; [|done].
  eapply IH; [|done]. by eapply (settled_entry m f).
Qed.

Lemma settled_object b : settled b = true -> object_shape b = true -> exists fb g, b = HObject fb g.
Proof. destruct b as [| |fb g| | |[]]; try done. by exists fb, g. Qed.

Lemma leaf_kept ks : forall a b x,
  settled a = true -> settled b = true -> shape_at a ks = Some x -> object_shape x = false ->
  shape_at (merge a b) ks = Some x.
Proof.
  induction ks as [|k ks IH]; intros a b x Ha Hb Hat Hx.
  - simpl in Hat. simplify_eq. rewrite merge_final; [done|]. by destruct x as [| | | | |[]].
  - destruct a as [| |m [] | | |]; try done. cbn [shape_at] in Hat.
    destruct (lookup_key k m) as [y|] eqn:Ey; [|done]. simpl in Hat. destruct (object_shape b) eqn:Ho.
    + destruct (settled_object b Hb Ho) as (fb & g & ->). destruct (lookup_merge_objects m fb g k) as [El ->].
      cbn [shape_at]. rewrite El, Ey. destruct (lookup_key k fb) as [z|] eqn:Ez; [|done].
      cbn [mbind option_bind]. apply IH; [by apply (settled_entry m false k)|by apply (settled_entry fb g k)|done|done].
    + rewrite merge_settled_hidden by done. cbn [shape_at]. by rewrite Ey.
Qed.

Lemma lacks_none ks : forall a, lacks a ks = true -> shape_at a ks = None.
Proof.
  induction ks as [|k ks IH]; [done|]. intros a Ha. destruct a as [| |m []| | |]; try done. simpl in *.
  destruct (lookup_key k m); [by apply IH|done].
Qed.

Lemma gap_filled ks : forall a b,
  settled a = true -> settled b = true -> lacks a ks = true -> shape_at (merge a b) ks = shape_at b ks.
Proof.
  induction ks as [|k ks IH]; [done|]. intros a b Ha Hb Hl. pose proof (lacks_none _ _ Hl) as Hnone.
  destruct a as [| |m []| | |]; try done. simpl in Hl. destruct (object_shape b) eqn:Ho.
  - destruct (settled_object b Hb Ho) as (fb & g & ->). destruct (lookup_merge_objects m fb g k) as [El ->].
    cbn [shape_at] in *. rewrite El. destruct (lookup_key k m) as [y|] eqn:Ey; [|done].
    destruct (lookup_key k fb) as [z|] eqn:Ez; [|done]. cbn [mbind option_bind].
    apply IH; [by apply (settled_entry m false k)|by apply (settled_entry fb g k)|done].
  - rewrite merge_settled_hidden by done. transitivity (@None shape); [exact Hnone|]. by destruct b as [| | | | |[]].
Qed.

(** ** Reading what was written *)

Lemma at_expression_ok {A} text p (f : Path -> M A) n a n' :
  parse_path text = Ok (Some p) -> f p n = (Ok a, n') -> at_expression text f n = (Ok a, n').
Proof. intros Hp Hf. unfold at_expression, lift_impl. by rewrite Hp, Hf. Qed.

Lemma resolved_view v p h :
  is_resolved v = true -> is_object v = true -> shape_at (shape_of v) (path_elements p) = h ->
  peek_path (view v) p = tree_of <$> h.
Proof. intros Hr Ho <-. apply peek_view. by apply resolved_simple. Qed.


(** C16: reading after a merge.  For two resolved configurations [with_fallback]
    returns a resolved configuration (the merged value is an object, so the cast back
    never gives a null pointer); a setting of the first one that is not an object
    keeps its value, and where the first one has only objects that take fallbacks and
    then nothing, the second one's setting is read. *)
Theorem config_fallback_read n a b :
  ValueMerge.wf n a -> is_resolved a = true -> is_object a = true ->
  ValueMerge.wf n b -> is_resolved b = true -> is_object b = true ->
  exists r n', config_with_fallback a b n = (Ok r, n') /\ is_object r = true /\ is_resolved r = true
    /\ (forall p t, peek_path (view a) p = Some t -> value_type t <> OBJECT -> peek_path (view r) p = Some t)
    /\ (forall p, lacks (shape_of a) (path_elements p) = true -> peek_path (view r) p = peek_path (view b) p).
Proof.
  intros Ha Hra Hoa Hb Hrb Hob. destruct (with_fallback_ok a n b Ha Hb) as (r & n' & E & _ & _ & _ & Hsh).
  assert (Hsa : settled (shape_of a) = true) by (by rewrite shape_settled).
  assert (Hsb : settled (shape_of b) = true) by (by rewrite shape_settled).
  assert (Hrr : is_resolved r = true) by (rewrite <- shape_settled, Hsh; by apply settled_merge).
  assert (Hor : is_object r = true).
  { destruct a as [| |x o m f| | | |]; try done. destruct b as [| |y o' m' f'| | | |]; try done.
    rewrite <- shape_object, Hsh. cbn [shape_of merge final]. by destruct f. }
  exists r, n'. split_and!; [|done|done| |].
  - unfold config_with_fallback, se_bind, to_config. by rewrite E, Hor.
  - intros p t Ht Hnot. rewrite (resolved_view a p _ Hra Hoa eq_refl) in Ht.
    destruct (shape_at (shape_of a) (path_elements p)) as [x|] eqn:Ex; [|done]. simpl in Ht. injection Ht as <-.
    rewrite (resolved_view r p (Some x) Hrr Hor); [done|]. rewrite Hsh. apply leaf_kept; try done.
    destruct (object_shape x) eqn:Eo; [|done].
    by destruct (settled_object x (settled_at _ _ _ Hsa Ex) Eo) as (fb & g & ->).
  - intros p Hl. rewrite (resolved_view b p _ Hrb Hob eq_refl). apply resolved_view; [done|done|].
    rewrite Hsh. by apply gap_filled.
Qed.

(** Placed at a path, a value is found there. *)
Theorem at_path_read n v text p :
  ValueMerge.wf n v -> is_resolved v = true -> parse_path text = Ok (Some p) ->
  exists r n', value_at_path v text n = (Ok r, n') /\ is_object r = true
    /\ peek_path (view r) p = Some (tree_of (shape_of v)).
Proof.
  intros Hv Hr Hp. unfold value_at_path, new_simple, make_origin. rewrite bool_decide_false by done.
  unfold se_bind, lift_impl. cbn [lift_origin se_ret].
  destruct (at_path_ok n v (mkOrigin ($"at_path(" ++ text ++ $")") (-1) (-1) GENERIC []) p Hv) as (r & n' & E & _ & _ & Hsh & Ho).
  { apply (good_by_char "_"%char); [|apply (bool_decide_unpack _); vm_compute; exact Logic.I].
    unfold description_. rewrite elem_of_app. left. apply (bool_decide_unpack _). vm_compute. exact Logic.I. }
  exists r, n'. split_and!; [by eapply at_expression_ok|done|].
  apply (resolved_view r p (Some (shape_of v))); [|done|].
  - rewrite <- shape_settled, Hsh. apply nested_settled. by rewrite shape_settled.
  - rewrite Hsh. apply shape_at_nested.
Qed.
End ConfigView.

(** ** Concrete runs *)

Definition sub_path_text : str := $"sub.p.z".
Definition three : value (H := whole_doubles) := Scalar 15 app_origin (ConfigInt 3 $"3").

Lemma deep_parses : parse_path (H := whole_doubles) sub_path_text = Ok (Some deep_path).
Proof. vm_compute. reflexivity. Qed.


Lemma config_fallback_read_witness :
  exists r n', config_with_fallback over_layer settled_layer 20%nat = (Ok r, n')
    /\ peek_path (view r) (One $"x") = Some (VScalar (ConfigInt (H := whole_doubles) 1 $"1"))
    /\ peek_path (view r) (More $"sub" (One $"q")) = Some (VScalar (ConfigInt 2 $"2")).
Proof.
  destruct (config_fallback_read 20 over_layer settled_layer) as (r & n' & E & _ & _ & Hkeep & Hfill);
    [concrete_wf|reflexivity|reflexivity|concrete_wf|reflexivity|reflexivity|].
  exists r, n'. split_and!; [exact E|by apply Hkeep|]. rewrite Hfill; vm_compute; reflexivity.
Defined.

(** Placed under a key or at a path; a bad expression is reported, and a delayed
    merge does not know whether it is empty. *)
Example placed_values :
  (exists r, value_at_key over_layer $"k" 20%nat = (Ok r, 21%nat) /\ peek_path (view r) (More $"k" (One $"x")) <> None)
  /\ (exists r n', value_at_path over_layer $"a.b" 20%nat = (Ok r, n') /\ peek_path (view r) (More $"a" (More $"b" (One $"x"))) <> None)
  /\ (exists e, config_without_path over_layer $"a..b" 20%nat = (Err (BadPathExpression e), 20%nat))
  /\ config_empty (ConfigDelayedMergeObject 20 app_origin [over_layer]) = Err NotResolved
  /\ config_empty over_layer = Ok false.
Proof.
  split_and!; [eexists|eexists; eexists|eexists|..]; vm_compute; try reflexivity; split; (reflexivity || discriminate).
Qed.
