(* ===== verification/Include.v ===== *)
(** * config/src/{config_parse_options,config}.cpp and
    config/src/detail/{parseable,simple_includer,simple_include_context,config_impl}.cpp

    Parse options, includers and parseables: where the text of a document comes
    from, which syntax it has, what an [include] finds and how what it finds is
    merged, and [Config::parse_*] and [Config::load] on top of them.  The file
    system, the path functions of boost and the includers an application provides
    are arguments.  Includers are compared by pointer: they carry an address.
    [parse_stack] is pushed before a document is parsed and popped after it in
    every outcome: what it holds during a call is an argument of the call. *)

From S2P Require Import Prelude CLib Token Origin Value Parser Resolve.

Open Scope Z_scope.

(** ** Includers and parse options *)

(** [Custom]: one of the application. *)
Inductive Includer :=
| SimpleIncluder (addr : nat) (fallback : option Includer)
| FullIncluderProxy (addr : nat) (delegate : Includer)
| Custom (addr : nat).

(** The same object. *)
Definition same_includer (i j : Includer) : bool :=
  match i, j with
  | SimpleIncluder a _, SimpleIncluder b _ | FullIncluderProxy a _, FullIncluderProxy b _ | Custom a, Custom b =>
      bool_decide (a = b)
  | _, _ => false
  end.

(** [ConfigImpl::default_includer], a static. *)
Definition default_includer : Includer := SimpleIncluder 0 None.

Record ConfigParseOptions := mkOptions {
  syntax_ : ConfigSyntax;
  origin_description_ : str;
  allow_missing_ : bool;
  includer_ : option Includer }.

Definition default_options : ConfigParseOptions := mkOptions NONE [] true None.

Definition set_syntax (s : ConfigSyntax) (o : ConfigParseOptions) : ConfigParseOptions :=
  if bool_decide (syntax_ o = s) then o else mkOptions s (origin_description_ o) (allow_missing_ o) (includer_ o).
Definition set_origin_description (d : str) (o : ConfigParseOptions) : ConfigParseOptions :=
  if bool_decide (origin_description_ o = d) then o else mkOptions (syntax_ o) d (allow_missing_ o) (includer_ o).
Definition with_fallback_origin_description (d : str) (o : ConfigParseOptions) : ConfigParseOptions :=
  if bool_decide (origin_description_ o = []) then set_origin_description d o else o.
Definition set_allow_missing (b : bool) (o : ConfigParseOptions) : ConfigParseOptions :=
  if eqb (allow_missing_ o) b then o else mkOptions (syntax_ o) (origin_description_ o) b (includer_ o).
Definition has_includer (i : Includer) (o : ConfigParseOptions) : bool :=
  match includer_ o with Some j => same_includer j i | None => false end.
Definition set_includer (i : Includer) (o : ConfigParseOptions) : ConfigParseOptions :=
  if has_includer i o then o else mkOptions (syntax_ o) (origin_description_ o) (allow_missing_ o) (Some i).

(** [SimpleIncluder::clear_for_include]. *)
Definition clear_for_include (o : ConfigParseOptions) : ConfigParseOptions :=
  set_allow_missing true (set_origin_description [] (set_syntax NONE o)).

(** ** Parseables *)

(** [ParseableReader] has the text its reader has left; it is parsed once. *)
Inductive ParseableKind :=
| ParseableNotFound (what message : str)
| ParseableReader (text : str)
| ParseableString (input : str)
| ParseableFile (input : str).

Record Parseable := mkParseable {
  kind : ParseableKind;
  initial_options : ConfigParseOptions;
  initial_origin : SimpleConfigOrigin }.

(** [Parseable::syntax_from_extension]. *)
Definition syntax_from_extension (name : str) : ConfigSyntax :=
  if ends_with $".json" name then JSON else if ends_with $".conf" name then CONF else NONE.

Definition guess_syntax (k : ParseableKind) : ConfigSyntax :=
  match k with ParseableFile input => syntax_from_extension input | _ => NONE end.

Definition create_origin (k : ParseableKind) : res origin_exn SimpleConfigOrigin :=
  match k with
  | ParseableNotFound what _ => new_simple what
  | ParseableReader _ => new_simple $"reader"
  | ParseableString _ => new_simple $"string"
  | ParseableFile input => new_file input
  end.

Definition parseable_to_string (p : Parseable) : str :=
  match kind p with
  | ParseableNotFound _ _ => $"ParseableNotFound"
  | ParseableReader _ => $"ParseableReader"
  | ParseableString input => $"ParseableString(" ++ input ++ $")"
  | ParseableFile input => $"ParseableFile(" ++ input ++ $")"
  end.

Definition MAX_INCLUDE_DEPTH : nat := 50.

(** ** What is outside *)

(** [contents]: what a stream reads from a file it can open; [file_exists]: [stat]
    succeeds; the others are of [boost::filesystem::path]: [has_root_directory],
    [parent_path] and [operator/=]. *)
Class Files := {
  contents : str -> option str;
  file_exists : str -> bool;
  has_root_directory : str -> bool;
  parent_path : str -> str;
  append_path : str -> str -> str }.

Section Including.
Context `{DoubleLib}.

Abbreviation I A := (SE nat parse_exn A).

(** The methods of the application's includers, given the parse stack and the
    parseable of the context; [custom_include_file] when it is a
    [ConfigIncluderFile], [custom_full] when it is a [FullIncluder], which is both. *)
Class Application := {
  custom_with_fallback : nat -> Includer -> Includer;
  custom_include : nat -> list Parseable -> Parseable -> str -> I value;
  custom_include_file : nat -> option (list Parseable -> Parseable -> str -> I value);
  custom_full : nat -> bool }.

Context `{Files} `{Application}.
(** [boost::lexical_cast] of the address of a map or vector, in error messages. *)
Variable pointer_text : value -> str.

Definition lift_values {A} (m : M A) : I A := fun n =>
  let '(r, n') := m n in (match r with Ok a => Ok a | Err e => Err (Parser.ValueError e) end, n').
Definition bug_or_broken {A} (what : str) : I A := se_throw (Parser.ValueError (Bug what)).

(** A new includer; the default one is at address 0. *)
Definition new_includer (f : nat -> Includer) : I Includer := fun n => (Ok (f (S n)), S n).

(** ** Chains of includers *)

(** [with_fallback] of each class. *)
Fixpoint includer_with_fallback (self fallback : Includer) : I Includer :=
  match self with
  | SimpleIncluder _ own =>
      if same_includer self fallback then bug_or_broken $"trying to create includer cycle"
      else match own with
           | Some f =>
               if same_includer f fallback then se_ret self
               else let* g := includer_with_fallback f fallback in new_includer (fun a => SimpleIncluder a (Some g))
           | None => new_includer (fun a => SimpleIncluder a (Some fallback))
           end
  | FullIncluderProxy _ _ => se_ret self
  | Custom a => se_ret (custom_with_fallback a fallback)
  end.

Definition prepend_includer (i : Includer) (o : ConfigParseOptions) : I ConfigParseOptions :=
  match includer_ o with
  | Some j => if same_includer j i then se_ret o else let* k := includer_with_fallback i j in se_ret (set_includer k o)
  | None => se_ret (set_includer i o)
  end.

Definition append_includer (i : Includer) (o : ConfigParseOptions) : I ConfigParseOptions :=
  match includer_ o with
  | Some j => if same_includer j i then se_ret o else let* k := includer_with_fallback j i in se_ret (set_includer k o)
  | None => se_ret (set_includer i o)
  end.

(** [instanceof<FullIncluder>] and [instanceof<ConfigIncluderFile>]. *)
Definition is_file_includer (i : Includer) : bool :=
  match i with Custom a => bool_decide (is_Some (custom_include_file a)) | _ => true end.
Definition is_full (i : Includer) : bool :=
  match i with Custom a => custom_full a && is_file_includer i | _ => true end.

(** [SimpleIncluder::make_full]. *)
Definition make_full (i : Includer) : I Includer :=
  if is_full i then se_ret i else new_includer (fun a => FullIncluderProxy a i).

(** [Parseable::fixup_options]. *)
Definition fixup_options (k : ParseableKind) (base_options : ConfigParseOptions) : I ConfigParseOptions :=
  let syntax := syntax_ base_options in
  let syntax := if bool_decide (syntax = NONE) then guess_syntax k else syntax in
  let syntax := if bool_decide (syntax = NONE) then CONF else syntax in
  let* modified := append_includer default_includer (set_syntax syntax base_options) in
  match includer_ modified with
  | None => se_throw (Parser.ValueError Undefined)
  | Some i => let* full := make_full i in se_ret (set_includer full modified)
  end.

(** [make_instance] of a parseable: its constructor, then [post_construct]. *)
Definition new_parseable (k : ParseableKind) (base_options : ConfigParseOptions) : I Parseable :=
  let* options := fixup_options k base_options in
  let description := origin_description_ options in
  let* origin := lift_values (lift_origin
    (if bool_decide (description = []) then create_origin k else new_simple description)) in
  se_ret (mkParseable k options origin).

(** [Parseable::relative_to(file, filename)]. *)
Definition relative_name (file filename : str) : str :=
  if has_root_directory filename then []
  else let parent := parent_path file in
       if bool_decide (parent = []) then [] else append_path parent filename.

Definition not_found_near (p : Parseable) (filename : str) : I Parseable :=
  new_parseable (ParseableNotFound filename ($"filename was not found: '" ++ filename ++ $"'")) (initial_options p).

(** [relative_to(filename)] of each class; [None] is null. *)
Definition relative_to (p : Parseable) (filename : str) : I (option Parseable) :=
  match kind p with
  | ParseableFile input =>
      let sibling := if has_root_directory filename then filename else relative_name input filename in
      if bool_decide (sibling = []) then se_ret None
      else if file_exists sibling then
        let* q := new_parseable (ParseableFile sibling) (set_origin_description [] (initial_options p)) in se_ret (Some q)
      else let* q := not_found_near p filename in se_ret (Some q)
  | _ => let* q := not_found_near p filename in se_ret (Some q)
  end.

(** [name_to_parseable] of a file name source, or of one relative to a context. *)
Inductive NameSource := FileNameSource | RelativeNameSource (context : Parseable).

Definition name_to_parseable (source : NameSource) (name : str) (options : ConfigParseOptions) : I Parseable :=
  match source with
  | FileNameSource => new_parseable (ParseableFile name) options
  | RelativeNameSource context =>
      let* p := relative_to context name in
      match p with
      | Some p => se_ret p
      | None => new_parseable (ParseableNotFound name ($"include was not found: '" ++ name ++ $"'")) options
      end
  end.

(** [reader()]: the text to be read. *)
Definition not_found {A} (file : str) : I A := se_throw (IOError (file ++ $" not found")).
Definition reader (k : ParseableKind) : I str :=
  match k with
  | ParseableNotFound _ message => not_found message
  | ParseableReader text => se_ret text
  | ParseableString input => se_ret input
  | ParseableFile input => match contents input with Some text => se_ret text | None => not_found input end
  end.

Definition make_empty (o : SimpleConfigOrigin) : I value := lift_values (simple_object o []).
Definition make_empty_missing (base_origin : SimpleConfigOrigin) : I value :=
  lift_values (let* o := lift_origin (new_simple (description base_origin ++ $" (not found)")) in simple_object o []).

(** [Parseable::force_parsed_to_object]. *)
Definition force_parsed_to_object (v : value) : I value :=
  if is_object v then se_ret v
  else match type_of v with
       | Ok t => se_throw (WrongType (origin_of v) [] $"object at file root" (type_name t))
       | Err e => se_throw (Parser.ValueError e)
       end.

(** ** Parsing, given [parse(options)] of a parseable on a stack *)

Section Step.
Variable parse : list Parseable -> Parseable -> ConfigParseOptions -> I value.
Variable parse_stack : list Parseable.

(** The handler of [ConfigExceptionIO].  What was allocated before the exception is
    released: its addresses are free again. *)
Definition catch_io {A} (m : I A) (handler : str -> I A) : I A := fun n =>
  match m n with
  | (Err (IOError what), _) => handler what n
  | r => r
  end.

(** What [from_basename] has so far: the object, whether a file was read, and the
    messages of the files that were not. *)
Record found := mkFound { obj : value; got_something : bool; fail_messages : list str }.

Definition search (wanted : bool) (f : found) (handle : Parseable) (s : ConfigSyntax) (use : value -> value -> I value)
    : I found :=
  if wanted then
    catch_io (let* parsed := parse parse_stack handle (set_syntax s (set_allow_missing false (initial_options handle))) in
              let* v := use (obj f) parsed in
              se_ret (mkFound v true (fail_messages f)))
      (fun what => se_ret (mkFound (obj f) (got_something f) (fail_messages f ++ [what])))
  else se_ret f.

Definition syntax_allows (options : ConfigParseOptions) (s : ConfigSyntax) : bool :=
  bool_decide (syntax_ options = NONE) || bool_decide (syntax_ options = s).

(** Every message with a separator after it, less the last separator. *)
Definition join_messages (l : list str) : str :=
  let joined := concat (map (fun m => m ++ $", ") l) in take (length joined - 2) joined.

Definition io_error {A} (o : SimpleConfigOrigin) (message : str) : I A :=
  se_throw (IOError (description o ++ $": " ++ message)).

(** The end of [from_basename]. *)
Definition search_result (name : str) (options : ConfigParseOptions) (f : found) : I value :=
  if negb (allow_missing_ options) && negb (got_something f) then
    match fail_messages f with
    | [] => bug_or_broken $"should not be reached: nothing found but no exceptions thrown"
    | l => let* o := lift_values (lift_origin (new_simple name)) in io_error o (join_messages l)
    end
  else se_ret (obj f).

Definition from_basename (source : NameSource) (name : str) (options : ConfigParseOptions) : I value :=
  if ends_with $".conf" name || ends_with $".json" name then
    let* p := name_to_parseable source name options in
    parse parse_stack p (set_allow_missing (allow_missing_ options) (initial_options p))
  else
    let* conf_handle := name_to_parseable source (name ++ $".conf") options in
    let* json_handle := name_to_parseable source (name ++ $".json") options in
    let* origin := lift_values (lift_origin (new_simple name)) in
    let* empty := make_empty origin in
    let* f := search (syntax_allows options CONF) (mkFound empty false []) conf_handle CONF (fun _ parsed => se_ret parsed) in
    let* f := search (syntax_allows options JSON) f json_handle JSON (fun v parsed => lift_values (with_fallback v parsed)) in
    search_result name options f.

(** [SimpleIncludeContext::parse_options] of the context of [p]. *)
Definition context_options (p : Parseable) : ConfigParseOptions := clear_for_include (initial_options p).

Definition include_without_fallback (context : Parseable) (name : str) : I value :=
  from_basename (RelativeNameSource context) name (context_options context).
Definition include_file_without_fallback (context : Parseable) (file : str) : I value :=
  from_basename FileNameSource file (context_options context).

Definition merged_with (first : value) (second : I value) : I value :=
  let* v := second in lift_values (with_fallback first v).

(** [include] and [include_file] of each class. *)
Fixpoint include (i : Includer) (context : Parseable) (name : str) : I value :=
  match i with
  | SimpleIncluder _ fallback =>
      let* obj := include_without_fallback context name in
      match fallback with Some f => merged_with obj (include f context name) | None => se_ret obj end
  | FullIncluderProxy _ delegate => include delegate context name
  | Custom a => custom_include a parse_stack context name
  end.

Fixpoint include_file (i : Includer) (context : Parseable) (file : str) : I value :=
  match i with
  | SimpleIncluder _ fallback =>
      let* obj := include_file_without_fallback context file in
      match fallback with
      | Some f => if is_file_includer f then merged_with obj (include_file f context file) else se_ret obj
      | None => se_ret obj
      end
  | FullIncluderProxy _ delegate =>
      if is_file_includer delegate then include_file delegate context file
      else include_file_without_fallback context file
  | Custom a =>
      match custom_include_file a with
      | Some f => f parse_stack context file
      | None => se_throw (Parser.ValueError Undefined)
      end
  end.

(** [Parser::parse] of the text of [p], with its includer and its context. *)
Definition parse_text (p : Parseable) (origin : SimpleConfigOrigin) (options : ConfigParseOptions) (text : str) : I value :=
  match includer_ options with
  | None => se_throw (Parser.ValueError Undefined)
  | Some i =>
      let* full := make_full i in
      raw_parse_value (syntax_ options) origin (include full p) (include_file full p) pointer_text text
  end.

(** [parse_value(origin, final_options)]. *)
Definition parse_value_at (p : Parseable) (origin : SimpleConfigOrigin) (final_options : ConfigParseOptions) : I value :=
  catch_io (let* text := reader (kind p) in parse_text p origin final_options text)
    (fun what => if allow_missing_ final_options then make_empty_missing origin else io_error origin what).

(** [parse_value(base_options)]. *)
Definition parse_value (p : Parseable) (base_options : ConfigParseOptions) : I value :=
  let* options := fixup_options (kind p) base_options in
  let description := origin_description_ options in
  let* origin := (if bool_decide (description = []) then se_ret (initial_origin p)
                  else lift_values (lift_origin (new_simple description))) in
  parse_value_at p origin options.

(** [Parseable::parse()]: the parseable is not on the stack. *)
Definition parse_outermost (p : Parseable) : I value :=
  let* v := parse_value p (initial_options p) in force_parsed_to_object v.
End Step.

(** The trace of a stack that is too deep, less its last separator. *)
Definition too_deep (parse_stack : list Parseable) : str :=
  let message := $"include statements nested more than " ++ dec_string (Z.of_nat MAX_INCLUDE_DEPTH)
    ++ $" times, you probably have a cycle in your includes. _trace: "
    ++ concat (map (fun p => parseable_to_string p ++ $"," ++ ["010"%char]) parse_stack) in
  take (length message - 2) message.

(** [Parseable::parse(options)].  The fuel is spent on documents inside documents. *)
Fixpoint parse_nested (fuel : nat) (parse_stack : list Parseable) (p : Parseable) (base_options : ConfigParseOptions)
    : I value :=
  match fuel with
  | O => se_throw Parser.OutOfFuel
  | S fuel' =>
      if bool_decide (MAX_INCLUDE_DEPTH <= length parse_stack)%nat then
        se_throw (ParseError (initial_origin p) (too_deep parse_stack))
      else
        let* v := parse_value (parse_nested fuel') (p :: parse_stack) p base_options in
        force_parsed_to_object v
  end.

Definition parse : list Parseable -> Parseable -> ConfigParseOptions -> I value := parse_nested (S MAX_INCLUDE_DEPTH).

(** ** Config *)

Definition or_defaults (options : option ConfigParseOptions) : ConfigParseOptions :=
  match options with Some o => o | None => default_options end.

Definition parse_kind (k : ParseableKind) (options : option ConfigParseOptions) : I value :=
  let* p := new_parseable k (or_defaults options) in parse_outermost parse [] p.
Definition parse_reader (text : str) := parse_kind (ParseableReader text).
Definition parse_file (file : str) := parse_kind (ParseableFile file).
Definition parse_string (s : str) := parse_kind (ParseableString s).

Definition parse_file_any_syntax (basename : str) (options : option ConfigParseOptions) : I value :=
  from_basename parse [] FileNameSource basename (or_defaults options).

(** ** Config::load *)

Inductive load_exn := LoadParse (e : parse_exn) | LoadResolve (e : resolve_exn).

Variable environ : list str.

(** The environment over the file, resolved. *)
Definition load_config (config : value) (resolve_options : ConfigResolveOptions) (fuel n : nat)
    : res load_exn (option value) :=
  match (let* overrides := env_variables_as_config_object environ in with_fallback overrides config) n with
  | (Ok merged, n') =>
      match resolve_config environ resolve_options fuel merged n' with Ok v => Ok v | Err e => Err (LoadResolve e) end
  | (Err e, _) => Err (LoadParse (Parser.ValueError e))
  end.

Definition load (basename : str) (parse_options : ConfigParseOptions) (resolve_options : ConfigResolveOptions)
    (fuel n : nat) : res load_exn (option value) :=
  match parse_file_any_syntax basename (Some parse_options) n with
  | (Ok config, n') => load_config config resolve_options fuel n'
  | (Err e, _) => Err (LoadParse e)
  end.
End Including.

Abbreviation I A := (SE nat parse_exn A).
