(* ===== verification/IncludeTotal.v ===== *)
(** * Reading documents with includes ends

    What Include.v finds and parses, for every file system: the includers of the
    library answer with an object for every name, nesting stops at
    [MAX_INCLUDE_DEPTH], missing files are told apart from broken ones. *)

From S2P Require Import Prelude CLib Token Tokenizer Path PathParse Origin Value ValueMerge ValueEdit ValueConcat Parser ParserTotal Resolve ResolveParts Include.

Open Scope Z_scope.

Section Answers.
Context `{DoubleLib}.

(** ** Merging answers *)

Lemma fresh_in_empty fb : fresh_keys [] fb = fb.
Proof. unfold fresh_keys. induction fb as [|e fb IH]; [done|]. cbn [map_find List.filter] in *. by f_equal. Qed.

Lemma only_in_empty {B} (fb : list (str * B)) : only_in ([] : list (str * shape)) fb = fb.
Proof. unfold only_in. induction fb as [|e fb IH]; [done|]. cbn [lookup_key List.filter] in *. by f_equal. Qed.

Lemma merge_over_empty n a o b y p fb f :
  (a < n)%nat -> answer n (SimpleConfigObject y p fb f) ->
  vout (fun _ => False) (with_fallback (SimpleConfigObject a o [] b) (SimpleConfigObject y p fb f)) n
    (fun v n' => answer n' v /\ shape_of v = merge (HObject [] b) (HObject (shapes fb) f)).
Proof.
  intros Ha Hb. destruct b; [by apply vout_ret|]. rewrite merge_objects. cbn [over app]. rewrite only_in_empty. unfold vout.
  cbn [with_fallback ignores_fallbacks is_unmergeable is_object merge_keys]. unfold se_bind at 1, se_ret at 1.
  rewrite fresh_in_empty. cbn [app any_changed orb]. unfold merged_object. destruct fb as [|e fb].
  - destruct f; simpl; [split; [lia|]; split; [simpl; lia|done]|by split].
  - inversion Hb as [| |? ? ? ? ? Ho Hnd Hf| | | |]; subst. rewrite bool_decide_false by done. cbn [negb].
    destruct (make_object_ok n p (e :: fb) f) as [E Hw]; [done..|].
    change (merge_value_origins _) with (se_ret (E := value_exn) (S := nat) p). unfold se_bind at 1, se_ret at 1. rewrite E.
    split; [lia|done].
Qed.

Lemma merge_keys_nothing g m n : merge_keys g [] m n = (Ok m, n).
Proof. induction m as [|[k v] m IH]; [done|]. cbn [merge_keys map_find]. unfold se_bind, se_ret in *. by rewrite IH. Qed.

Lemma any_changed_same m : any_changed m m = false.
Proof. induction m as [|[k v] m IH]; [done|]. simpl. by rewrite bool_decide_true by done. Qed.

Lemma over_nothing (m : list (str * shape)) : over merge [] m = m.
Proof. induction m as [|[k v] m IH]; [done|]. simpl. by rewrite IH. Qed.

Lemma merge_under_empty n a o m b y p f :
  wf n (SimpleConfigObject a o m b) ->
  vout (fun _ => False) (with_fallback (SimpleConfigObject a o m b) (SimpleConfigObject y p [] f)) n
    (fun v n' => (exists a o, v = SimpleConfigObject a o m (b || f)) /\ wf n' v
                 /\ shape_of v = merge (HObject (shapes m) b) (HObject [] f)).
Proof.
  intros Ha. destruct b; [apply vout_ret; by eauto|]. rewrite merge_objects, over_nothing. cbn [only_in List.filter].
  rewrite app_nil_r. unfold vout. cbn [with_fallback ignores_fallbacks is_unmergeable is_object]. unfold se_bind at 1.
  rewrite merge_keys_nothing. cbn [fresh_keys List.filter]. rewrite any_changed_same, app_nil_r. cbn [orb]. unfold merged_object.
  cbn [bool_decide decide negb]. cbn [is_resolved]. change (forallb _ m) with (from_map m). rewrite eqb_refl_neg. cbn [orb].
  inversion Ha as [| |? ? ? ? ? Ho Hnd Hf| | | |]; subst. destruct f; simpl.
  - destruct (make_object_ok n o m true) as [-> Hw]; [done..|]. split; [lia|]. by eauto.
  - split; [lia|]. by eauto.
Qed.

Lemma answer_cases n v : answer n v ->
  exists a o m b, v = SimpleConfigObject a o m b /\ (m = [] /\ (a < n)%nat \/ m <> [] /\ wf n v).
Proof. destruct v as [| |a o [|e m] b| | | |]; try done; intros Hv; eexists _, _, _, _; split; [done|by left|done|by right]. Qed.

Lemma answer_wf n a o m b : wf n (SimpleConfigObject a o m b) -> answer n (SimpleConfigObject a o m b).
Proof. intros Hw. destruct m; [|done]. by apply wf_addr in Hw. Qed.

Lemma answers_merge n a b :
  answer n a -> answer n b ->
  vout (fun _ => False) (with_fallback a b) n
    (fun v n' => answer n' v /\ shape_of v = merge (shape_of a) (shape_of b)).
Proof.
  intros Ha Hb. pose proof (answer_cases n a Ha) as (x & o & m & i & -> & [[-> Hx]|[Hm Hw]]).
  { destruct (answer_cases n b Hb) as (y & p & fb & j & -> & _). by apply merge_over_empty. }
  pose proof (answer_cases n b Hb) as (y & p & fb & j & -> & [[-> _]|[Hfb Hw']]).
  { eapply vout_weaken; [by apply merge_under_empty|done|]. intros v n' _ ((? & ? & ->) & Hv & Hs). split; [by apply answer_wf|done]. }
  destruct (with_fallback_ok _ n _ Hw Hw') as (v & n' & E & Hn & Hv & _ & Hs). apply (vout_ok _ _ _ _ v n'); [done|done|].
  split; [|done]. change (shape_of (SimpleConfigObject x o m i)) with (HObject (shapes m) i) in Hs.
  change (shape_of (SimpleConfigObject y p fb j)) with (HObject (shapes fb) j) in Hs.
  destruct i; [rewrite merge_final in Hs by done|rewrite merge_objects in Hs]; destruct v; try done; by apply answer_wf.
Qed.
End Answers.

Section IncludeTotal.
Context `{DoubleLib} {FS : Files} {App : Application}.
Variable pointer_text : value -> str.

(** Whether a document has an empty quoted string; whether the includers of the
    application throw no I/O errors. *)
Variables empties quiet : bool.

(** ** What is assumed *)

Definition documents_ok : Prop :=
  forall file text json, contents file = Some text -> has_empty_string text json = true -> empties = true.

(** [parent / name] ends with [name]. *)
Definition paths_ok : Prop := forall parent name, exists front, append_path parent name = front ++ name.

(** An origin or the name of a file that can be merged with others. *)
Definition good_name (s : str) : Prop := ~ only_merges s.

Definition good_kind (k : ParseableKind) : Prop :=
  match k with
  | ParseableNotFound what _ => good_name what
  | ParseableReader text | ParseableString text => forall json, has_empty_string text json = true -> empties = true
  | ParseableFile input => good_name input
  end.

Definition good_options (o : ConfigParseOptions) : Prop := origin_description_ o <> [] -> good_name (origin_description_ o).

Record good_parseable (p : Parseable) : Prop := mkGood {
  good_p_options : good_options (initial_options p);
  good_p_kind : good_kind (kind p);
  good_p_origin : good_origin (initial_origin p) }.

(** The application's includers answer as [includer_ok] asks. *)
Definition customs_ok : Prop := forall a stack p, good_parseable p ->
  includer_ok empties (negb quiet) (custom_include a stack p)
  /\ forall f, custom_include_file a = Some f -> includer_ok empties (negb quiet) (f stack p).

(** The outcome of reading something that may or may not be missing. *)
Abbreviation reads missing_ok m n Q := (vout (document_error empties (negb missing_ok)) m n Q).

Lemma reads_liftV b {A} (m : M A) n Q : vout (fun _ => False) m n Q -> reads b (lift_values m) n Q.
Proof. unfold vout, lift_values. by destruct (m n) as [[a|e] n']. Qed.

Lemma reads_any b {A} (m : I A) n Q : vout (fun _ => False) m n Q -> reads b m n Q.
Proof. intros Hm. by eapply vout_weaken; [exact Hm| |]. Qed.

(** Nothing throws an I/O error: fits anywhere. *)
Lemma reads_weaken b b' {A} (m : I A) n P Q :
  reads b m n P -> (b' = true -> b = true) -> (forall a n', (n <= n')%nat -> P a n' -> Q a n') -> reads b' m n Q.
Proof.
  intros Hm Hb HQ. eapply vout_weaken; [exact Hm| |exact HQ]. intros e He. destruct b, b'; try done;
    [by destruct e|by specialize (Hb eq_refl)].
Qed.

(** ** Options *)

Lemma includer_option_ind (P : Includer -> Prop) :
  (forall a own, (forall f, own = Some f -> P f) -> P (SimpleIncluder a own)) ->
  (forall a d, P d -> P (FullIncluderProxy a d)) -> (forall a, P (Custom a)) -> forall i, P i.
Proof.
  intros Hs Hp Hc. fix IH 1. intros [a own|a d|a]; [apply Hs|apply Hp, IH|apply Hc].
  destruct own as [f|]; intros g Hg; [|discriminate Hg]. injection Hg as <-. apply IH.
Qed.

Lemma with_default_ok i n :
  same_includer i default_includer = false -> vout (fun _ => False) (includer_with_fallback i default_includer) n (fun _ _ => True).
Proof.
  revert n. induction i as [a own IH|a d _|a] using includer_option_ind; intros n Hi; cbn [includer_with_fallback]; [|by apply vout_ret..].
  rewrite Hi. destruct own as [f|]; [|by split; [lia|]]. destruct (same_includer f default_includer) eqn:E; [by apply vout_ret|].
  eapply vout_bind; [by apply IH|]. intros g n' _ _. by split; [lia|].
Qed.

Lemma set_syntax_fields s o : set_syntax s o = mkOptions s (origin_description_ o) (allow_missing_ o) (includer_ o).
Proof. unfold set_syntax. case_bool_decide as E; [|done]. destruct o. by simpl in *; subst. Qed.

Lemma set_allow_missing_fields b o : set_allow_missing b o = mkOptions (syntax_ o) (origin_description_ o) b (includer_ o).
Proof. unfold set_allow_missing. destruct (eqb _ b) eqn:E; [|done]. apply eqb_prop in E. destruct o. by simpl in *; subst. Qed.

(** Options that are ready for parsing: a syntax, and an includer for names and files. *)
Definition ready_options (base o : ConfigParseOptions) : Prop :=
  syntax_ o <> NONE /\ allow_missing_ o = allow_missing_ base /\ origin_description_ o = origin_description_ base
  /\ exists i, includer_ o = Some i /\ is_full i = true.

Lemma append_default_ok o n :
  vout (fun _ => False) (append_includer default_includer o) n
    (fun o' _ => exists i, o' = mkOptions (syntax_ o) (origin_description_ o) (allow_missing_ o) (Some i)).
Proof.
  unfold append_includer, set_includer, has_includer. destruct o as [sx d b [i|]]; simpl; [|by apply vout_ret; eauto].
  destruct (same_includer i default_includer) eqn:E; [by apply vout_ret; eauto|].
  eapply vout_bind; [by apply with_default_ok|]. intros j n' _ _. apply vout_ret. destruct (same_includer i j); eauto.
Qed.

Lemma fixup_ok k base n : vout (fun _ => False) (fixup_options k base) n (fun o _ => ready_options base o).
Proof.
  unfold fixup_options. eapply vout_bind; [apply append_default_ok|]. intros o n' _ [i ->]. rewrite set_syntax_fields.
  cbn [includer_ syntax_ origin_description_ allow_missing_]. unfold make_full.
  assert (Hs : (if bool_decide ((if bool_decide (syntax_ base = NONE) then guess_syntax k else syntax_ base) = NONE)
                then CONF else if bool_decide (syntax_ base = NONE) then guess_syntax k else syntax_ base) <> NONE)
    by (case_bool_decide as E; [done|exact E]).
  destruct (is_full i) eqn:Ei.
  - unfold se_bind, se_ret. simpl. split; [done|]. unfold set_includer. destruct (has_includer _ _); by split_and!; eauto.
  - split; [lia|]. simpl. unfold set_includer, has_includer. destruct i; try done. by split_and!; eauto.
Qed.

(** ** Parseables *)

Lemma good_simple d : good_name d -> exists o, new_simple d = Ok o /\ good_origin o.
Proof.
  intros Hd. unfold new_simple, make_origin. rewrite bool_decide_false; [by eauto|]. intros ->. apply Hd. constructor.
Qed.

Lemma good_file d : good_name d -> exists o, new_file d = Ok o /\ good_origin o.
Proof.
  intros Hd. unfold new_file, make_origin. rewrite bool_decide_false; [by eauto|]. intros ->. apply Hd. constructor.
Qed.

Lemma good_char c d : c ∈ d -> c ∉ merge_of_prefix -> good_name d.
Proof. intros Hc Hn Ho. apply Hn. by eapply only_merges_chars. Qed.

Lemma dotted d : "."%char ∈ d -> good_name d.
Proof. intros Hd. eapply good_char; [exact Hd|]. by apply (bool_decide_unpack _). Qed.

Lemma good_created k : good_kind k -> exists o, create_origin k = Ok o /\ good_origin o.
Proof.
  destruct k; simpl; intros Hk; [by apply good_simple| | |by apply good_file]; apply good_simple.
  - apply (good_char "d"%char); by apply (bool_decide_unpack _).
  - apply (good_char "s"%char); by apply (bool_decide_unpack _).
Qed.

Lemma new_parseable_ok k base n : good_kind k -> good_options base ->
  vout (fun _ => False) (new_parseable k base) n (fun p _ => good_parseable p).
Proof.
  intros Hk Hb. unfold new_parseable. eapply vout_bind; [apply fixup_ok|]. intros o n' _ (_ & _ & Ed & _).
  eapply vout_bind with (P := fun og _ => good_origin og).
  - assert (Ho : exists og, (if bool_decide (origin_description_ o = []) then create_origin k
                             else new_simple (origin_description_ o)) = Ok og /\ good_origin og).
    { rewrite Ed. case_bool_decide; [by apply good_created|apply good_simple; auto]. }
    destruct Ho as (og & -> & Hg). by split.
  - intros og n2 _ Hg. apply vout_ret. split; simpl; [|done|done]. unfold good_options. by rewrite Ed.
Qed.

Lemma cleared o : clear_for_include o = mkOptions NONE [] true (includer_ o).
Proof.
  unfold clear_for_include. rewrite set_allow_missing_fields, set_syntax_fields. unfold set_origin_description.
  simpl. case_bool_decide as E; simpl; by rewrite ?E.
Qed.

Hypothesis Hpaths : paths_ok.

Lemma sibling_dotted file name : "."%char ∈ name ->
  (if has_root_directory name then name else relative_name file name) <> [] ->
  "."%char ∈ (if has_root_directory name then name else relative_name file name).
Proof.
  intros Hd. unfold relative_name. destruct (has_root_directory name); [done|]. case_bool_decide; [done|]. intros _.
  destruct (Hpaths (parent_path file) name) as [front ->]. apply elem_of_app. by right.
Qed.

Lemma not_found_near_ok p name n : good_parseable p -> "."%char ∈ name ->
  vout (fun _ => False) (not_found_near p name) n (fun q _ => good_parseable q).
Proof. intros Hp Hd. apply new_parseable_ok; [by apply dotted|apply Hp]. Qed.

Lemma relative_to_ok p name n : good_parseable p -> "."%char ∈ name ->
  vout (fun _ => False) (relative_to p name) n (fun q _ => forall x, q = Some x -> good_parseable x).
Proof.
  intros Hp Hd. unfold relative_to.
  assert (Hnear : vout (fun _ => False) (let* q := not_found_near p name in se_ret (Some q)) n
                    (fun q _ => forall x, q = Some x -> good_parseable x)).
  { eapply vout_bind; [by apply not_found_near_ok|]. intros q n' _ Hq. apply vout_ret. by intros ? [= <-]. }
  destruct (kind p); try exact Hnear. case_bool_decide as E; [by apply vout_ret|]. destruct (file_exists _); [|exact Hnear].
  eapply vout_bind; [apply new_parseable_ok; [apply dotted, sibling_dotted; done|]|].
  - unfold good_options, set_origin_description. by case_bool_decide as Eo; simpl; rewrite ?Eo.
  - intros q n' _ Hq. apply vout_ret. by intros ? [= <-].
Qed.

Definition good_source (s : NameSource) : Prop := match s with FileNameSource => True | RelativeNameSource p => good_parseable p end.

Lemma name_to_parseable_ok s name options n : good_source s -> good_options options -> "."%char ∈ name ->
  vout (fun _ => False) (name_to_parseable s name options) n (fun p _ => good_parseable p).
Proof.
  intros Hs Ho Hd. destruct s as [|p]; cbn [name_to_parseable]; [apply new_parseable_ok; [by apply dotted|done]|].
  eapply vout_bind; [by apply relative_to_ok|]. intros [q|] n' _ Hq; [apply vout_ret; by apply Hq|].
  apply new_parseable_ok; [by apply dotted|done].
Qed.

(** ** Includers, given what [parse] does *)

Lemma answer_mono n n' v : (n <= n')%nat -> answer n v -> answer n' v.
Proof. intros Hn. destruct v as [| |a o [|e m] b| | | |]; try done; simpl; [lia|]. by apply wf_mono. Qed.

(** There is something to read, and no includer fails. *)
Definition present (p : Parseable) : bool :=
  quiet && match kind p with
           | ParseableNotFound _ _ => false
           | ParseableFile input => bool_decide (is_Some (contents input))
           | _ => true
           end.

Definition parses_ok (parse : Parseable -> ConfigParseOptions -> I value) : Prop :=
  forall p options n, good_parseable p -> good_options options ->
    reads (allow_missing_ options || present p) (parse p options) n (fun v n' => answer n' v).

Lemma catch_io_ok b {A} (m : I A) handler n (Q : A -> nat -> Prop) :
  reads false m n Q -> (forall what, reads b (handler what) n Q) -> reads b (catch_io m handler) n Q.
Proof. unfold vout, catch_io. intros Hm Hh. destruct (m n) as [[a|e] n']; [done|]. destruct e; try done. apply Hh. Qed.

Lemma catch_nothing b {A} (m : I A) handler n (Q : A -> nat -> Prop) : reads true m n Q -> reads b (catch_io m handler) n Q.
Proof. unfold vout, catch_io. destruct (m n) as [[a|e] n']; [done|]. by destruct e. Qed.

Section Step.
Variable parse : list Parseable -> Parseable -> ConfigParseOptions -> I value.
Variable stack : list Parseable.
Hypothesis parse_ok : parses_ok (parse stack).

(** What [from_basename] has found so far. *)
Definition tried (f : found) : Prop := got_something f = true \/ fail_messages f <> [].

Lemma search_ok wanted f p s use n :
  good_parseable p -> answer n (obj f) ->
  (forall v parsed n, answer n v -> answer n parsed -> reads true (use v parsed) n (fun w n' => answer n' w)) ->
  reads true (search parse stack wanted f p s use) n
    (fun g n' => answer n' (obj g) /\ (wanted = true \/ tried f -> tried g)).
Proof.
  intros Hp Hf Huse. unfold search. destruct wanted; [|by apply vout_ret; naive_solver].
  rewrite set_syntax_fields, set_allow_missing_fields. cbn [syntax_ origin_description_ allow_missing_ includer_].
  apply catch_io_ok.
  - eapply vout_bind.
    + eapply reads_weaken; [apply (parse_ok p (mkOptions _ _ false _)); [done|]; apply Hp|done|intros ? ? _ HQ; exact HQ].
    + cbn beta. intros v n' Hn Hv. eapply vout_bind; [eapply reads_weaken; [apply Huse; [by eapply answer_mono|done]|done|]|].
      { intros w k _ Hw. exact Hw. }
      intros w k _ Hw. apply vout_ret. split; [done|]. by left.
  - intros what. apply vout_ret. split; [done|]. right. simpl. by destruct (fail_messages f).
Qed.

Lemma messages_error b name l n (Q : value -> nat -> Prop) : name <> [] -> b = false ->
  reads b (let* o := lift_values (lift_origin (new_simple name)) in io_error o (join_messages l)) n Q.
Proof. intros Hn ->. unfold new_simple, make_origin. by rewrite bool_decide_false. Qed.

Lemma some_allowed options : syntax_allows options CONF = true \/ syntax_allows options JSON = true.
Proof. unfold syntax_allows. destruct (syntax_ options); auto. Qed.

Lemma extension_dotted name : ends_with $".conf" name || ends_with $".json" name = true -> "."%char ∈ name.
Proof. intros [[r ->]%ends_with_spec|[r ->]%ends_with_spec]%orb_true_iff; apply elem_of_app; right; left. Qed.

Lemma from_basename_ok source name options n :
  good_source source -> good_options options -> (name = [] -> empties = true) ->
  reads (allow_missing_ options) (from_basename parse stack source name options) n (fun v n' => answer n' v).
Proof.
  intros Hs Ho Hname. unfold from_basename. destruct (ends_with $".conf" name || _) eqn:E.
  { apply extension_dotted in E. eapply vout_bind; [by apply reads_any, name_to_parseable_ok|]. intros p n' _ Hp.
    rewrite set_allow_missing_fields.
    eapply reads_weaken; [apply (parse_ok p (mkOptions _ _ (allow_missing_ options) _)); [done|apply Hp]| |done].
    by intros ->. }
  assert (Hext : forall x, "."%char ∈ name ++ "."%char :: x) by (intros; apply elem_of_app; right; left).
  eapply vout_bind; [apply reads_any, name_to_parseable_ok; [done|done|apply Hext]|]. intros conf n1 _ Hconf.
  eapply vout_bind; [apply reads_any, name_to_parseable_ok; [done|done|apply Hext]|]. intros json n2 _ Hjson.
  destruct (decide (name = [])) as [->|Hne]; [by apply Hname|].
  eapply (vout_bind _ _ _ _ (fun _ _ => True)); [unfold new_simple, make_origin; by rewrite bool_decide_false|]. intros o n3 _ _.
  eapply (vout_bind _ _ _ _ (fun v n => answer n v)); [by split; [lia|simpl; lia]|]. intros empty n4 _ He.
  eapply vout_bind; [eapply reads_weaken; [apply (search_ok _ (mkFound empty false [])); [exact Hconf|exact He|]|done|]|].
  { intros v w k _ Hw. by apply vout_ret. }
  { intros f k _ Hf. exact Hf. }
  intros f n5 _ [Hf Hft]. eapply vout_bind; [eapply reads_weaken; [apply (search_ok _ f); [exact Hjson|exact Hf|]|done|]|].
  { intros v w k Hv Hw. apply reads_liftV. eapply vout_weaken; [by apply answers_merge|done|]. by intros ? ? _ [? _]. }
  { intros g k _ Hg. exact Hg. }
  intros g n6 _ [Hg Hgt]. unfold search_result. destruct (allow_missing_ options) eqn:Em; [by apply vout_ret|].
  destruct (got_something g) eqn:Eg; [by apply vout_ret|]. cbn [negb andb].
  assert (Ht : tried g) by (apply Hgt; destruct (some_allowed options); auto).
  destruct Ht as [Ht|Ht]; [congruence|]. destruct (fail_messages g) as [|x l]; [done|]. by apply (messages_error false).
Qed.

Lemma merged_with_ok b v m n :
  answer n v -> reads b m n (fun w n' => answer n' w) -> reads b (merged_with v m) n (fun w n' => answer n' w).
Proof.
  intros Hv Hm. eapply vout_bind; [exact Hm|]. intros w n' Hn Hw. apply reads_liftV.
  eapply vout_weaken; [apply answers_merge; [by eapply answer_mono|exact Hw]|done|]. by intros ? ? _ [? _].
Qed.

Lemma context_basename_ok source p name n :
  good_source source -> (name = [] -> empties = true) ->
  reads true (from_basename parse stack source name (context_options p)) n (fun v n' => answer n' v).
Proof.
  intros Hs Hn. unfold context_options. rewrite cleared. apply (from_basename_ok source name (mkOptions NONE [] true _)); [done| |done].
  by intros [].
Qed.

Hypothesis Hcustoms : customs_ok.

Lemma include_ok i p : good_parseable p -> includer_ok empties (negb quiet) (include parse stack i p).
Proof.
  intros Hp. induction i as [a own IH|a d IH|a] using includer_option_ind; intros name n Hn; cbn [include].
  - change (reads quiet (let* obj := include_without_fallback parse stack p name in
      match own with Some f => merged_with obj (include parse stack f p name) | None => se_ret obj end) n (fun v n' => answer n' v)).
    eapply vout_bind; [eapply reads_weaken; [apply (context_basename_ok (RelativeNameSource p)); [exact Hp|done]|done|intros ? ? _ HQ; exact HQ]|].
    intros v n' Hle Hv. destruct own as [f|]; [|by apply vout_ret]. apply merged_with_ok; [done|]. by apply IH.
  - by apply IH.
  - by apply Hcustoms.
Qed.

Lemma include_file_ok i p : good_parseable p -> is_file_includer i = true -> includer_ok empties (negb quiet) (include_file parse stack i p).
Proof.
  intros Hp. induction i as [a own IH|a d IH|a] using includer_option_ind; intros Hi name n Hn; cbn [include_file].
  - change (reads quiet (let* obj := include_file_without_fallback parse stack p name in
      match own with
      | Some f => if is_file_includer f then merged_with obj (include_file parse stack f p name) else se_ret obj
      | None => se_ret obj end) n (fun v n' => answer n' v)).
    eapply vout_bind; [eapply reads_weaken; [by apply (context_basename_ok FileNameSource)|done|intros ? ? _ HQ; exact HQ]|].
    intros v n' Hle Hv. destruct own as [f|]; [|by apply vout_ret]. destruct (is_file_includer f) eqn:Ef; [|by apply vout_ret].
    apply merged_with_ok; [done|]. by apply IH.
  - destruct (is_file_includer d) eqn:Ed; [by apply IH|].
    change (reads quiet (include_file_without_fallback parse stack p name) n (fun v n' => answer n' v)).
    eapply reads_weaken; [by apply (context_basename_ok FileNameSource)|done|intros ? ? _ HQ; exact HQ].
  - simpl in Hi. apply bool_decide_eq_true in Hi as [f Ef]. rewrite Ef. by apply (proj2 (Hcustoms a stack p Hp)).
Qed.

Hypothesis Hdocuments : documents_ok.

(** The root of a document. *)
Abbreviation root_ok v n := (wf n v /\ is_container v = true).

Lemma make_full_ok i n : vout (fun _ : parse_exn => False) (make_full i) n (fun j _ => is_full j = true).
Proof. unfold make_full. destruct (is_full i) eqn:E; [by apply vout_ret|]. by split; [lia|]. Qed.

Lemma full_file i : is_full i = true -> is_file_includer i = true.
Proof. destruct i; try done. by intros [_ ?]%andb_true_iff. Qed.

Lemma parse_text_included p o options text n :
  good_parseable p -> good_origin o -> includer_ options <> None ->
  (forall json, has_empty_string text json = true -> empties = true) ->
  reads quiet (parse_text pointer_text parse stack p o options text) n (fun v n' => root_ok v n').
Proof.
  intros Hp Ho Hi Ht. unfold parse_text. destruct (includer_ options) as [i|]; [|done].
  eapply vout_bind; [apply reads_any, make_full_ok|]. intros full n' _ Hfull.
  apply parse_text_ok; [apply Ht|done|by apply include_ok|by apply include_file_ok, full_file].
Qed.

Lemma reader_ok p n : good_parseable p ->
  reads false (reader (kind p)) n (fun text _ => forall json, has_empty_string text json = true -> empties = true).
Proof.
  intros Hp. pose proof (good_p_kind _ Hp) as Hk. destruct (kind p); simpl in Hk |- *; try (by apply vout_ret); try done.
  destruct (contents input) as [text|] eqn:E; [apply vout_ret; intros json; by apply (Hdocuments input)|done].
Qed.

Lemma present_reader_ok p n : good_parseable p -> present p = true ->
  vout (fun _ => False) (reader (kind p)) n (fun text _ => forall json, has_empty_string text json = true -> empties = true).
Proof.
  intros Hp [_ Hs]%andb_true_iff. pose proof (reader_ok p n Hp) as Hr. destruct (kind p); try done. simpl in *.
  apply bool_decide_eq_true in Hs as [text E]. by rewrite E in *.
Qed.

Lemma root_empty o n : good_origin o -> vout (fun _ => False) (simple_object o []) n (fun v n' => root_ok v n').
Proof.
  intros Ho. destruct (make_object_ok n o [] false) as [E Hw]; [done|apply NoDup_nil_2|done|].
  apply (vout_ok _ _ _ _ _ _ E); [lia|done].
Qed.

Lemma empty_missing_ok b o n : reads b (make_empty_missing o) n (fun v n' => root_ok v n').
Proof.
  apply reads_liftV. destruct (good_simple (description o ++ $" (not found)")) as (og & -> & Hg).
  - apply (good_char "("%char); [|by apply (bool_decide_unpack _)]. apply elem_of_app. right. by apply (bool_decide_unpack _).
  - apply (vout_bind _ _ _ _ (fun x _ => x = og)); [by apply vout_ret|]. intros ? n' _ ->. by apply root_empty.
Qed.

Lemma parse_value_included p options n : good_parseable p -> good_options options ->
  reads (allow_missing_ options || present p) (Include.parse_value pointer_text parse stack p options) n (fun v n' => root_ok v n').
Proof.
  intros Hp Ho. unfold Include.parse_value. eapply vout_bind; [apply reads_any, fixup_ok|].
  intros o n' _ (_ & Em & Ed & i & Ei & _). eapply (vout_bind _ _ _ _ (fun og _ => good_origin og)).
  { rewrite Ed. case_bool_decide as E; [apply vout_ret, Hp|]. apply reads_liftV.
    destruct (good_simple (origin_description_ options)) as (og & -> & Hg); [by apply Ho|by apply vout_ret]. }
  intros og n2 _ Hog. unfold parse_value_at. rewrite Em. destruct (present p) eqn:Epresent.
  { apply catch_nothing. eapply vout_bind; [by apply reads_any, present_reader_ok|]. intros text n3 _ Ht.
    apply andb_true_iff in Epresent as [Hq _].
    eapply reads_weaken; [apply parse_text_included; [done|done|by rewrite Ei|done]|done|done]. }
  rewrite orb_false_r. apply catch_io_ok.
  - eapply vout_bind; [by apply reader_ok|]. intros text n3 _ Ht.
    eapply reads_weaken; [apply parse_text_included; [done|done|by rewrite Ei|done]|done|done].
  - intros what. destruct (allow_missing_ options); [apply empty_missing_ok|done].
Qed.

Lemma forced_ok b v n : root_ok v n -> reads b (force_parsed_to_object v) n (fun w n' => answer n' w).
Proof.
  intros [Hw Hc]. unfold force_parsed_to_object. destruct v as [| |a o m f| | | |]; try done. apply vout_ret. by apply answer_wf.
Qed.

Lemma parse_outermost_ok p n : good_parseable p ->
  reads (allow_missing_ (initial_options p)) (parse_outermost pointer_text parse stack p) n (fun v n' => answer n' v).
Proof.
  intros Hp. eapply vout_bind.
  - eapply reads_weaken; [apply parse_value_included; [done|apply Hp]|by intros ->|intros ? ? _ HQ; exact HQ].
  - intros v n' _ Hv. by apply forced_ok.
Qed.
End Step.

(** ** Nesting *)

Hypothesis Hcustoms : customs_ok.
Hypothesis Hdocuments : documents_ok.

Lemma parse_nested_ok fuel : forall stack,
  (MAX_INCLUDE_DEPTH - length stack < fuel)%nat -> parses_ok (parse_nested pointer_text fuel stack).
Proof.
  induction fuel as [|fuel IH]; intros stack Hd p options n Hp Ho; [lia|]. cbn [parse_nested]. case_bool_decide as E; [done|].
  eapply vout_bind; [apply parse_value_included; try done; apply IH; cbn [length]; lia|]. intros v n' _ Hv. by apply forced_ok.
Qed.

Lemma parse_top_ok : parses_ok (parse pointer_text []).
Proof. apply parse_nested_ok. cbn [length]. lia. Qed.

Lemma any_syntax_ok name options n :
  good_options (or_defaults options) -> (name = [] -> empties = true) ->
  reads (allow_missing_ (or_defaults options)) (parse_file_any_syntax pointer_text name options) n (fun v n' => answer n' v).
Proof. intros Ho Hn. by apply from_basename_ok; [apply parse_top_ok| | |]. Qed.

Lemma new_parseable_fields k base n :
  vout (fun _ => True) (new_parseable k base) n
    (fun p _ => kind p = k /\ allow_missing_ (initial_options p) = allow_missing_ base).
Proof.
  unfold new_parseable. eapply vout_bind; [eapply vout_weaken; [apply fixup_ok|done|intros ? ? _ HQ; exact HQ]|].
  intros o n' _ (_ & Em & _). eapply (vout_bind _ _ _ _ (fun _ _ => True)); [|by intros og n2 _ _; apply vout_ret].
  unfold lift_values, vout, lift_origin. destruct (if bool_decide _ then _ else _); by simpl.
Qed.

Lemma new_parseable_Ok k base n : good_kind k -> good_options base ->
  exists p n', new_parseable k base n = (Ok p, n') /\ (n <= n')%nat /\ good_parseable p /\ kind p = k
    /\ allow_missing_ (initial_options p) = allow_missing_ base.
Proof.
  intros Hk Ho. pose proof (new_parseable_ok k base n Hk Ho) as Hp. pose proof (new_parseable_fields k base n) as Hf.
  unfold vout in *. destruct (new_parseable _ _ n) as [[p|e] n']; [|done]. destruct Hp, Hf as (_ & ? & ?). by exists p, n'.
Qed.

Lemma parse_kind_ok k options n :
  good_kind k -> good_options (or_defaults options) ->
  reads (allow_missing_ (or_defaults options)) (parse_kind pointer_text k options) n (fun v n' => answer n' v).
Proof.
  intros Hk Ho. destruct (new_parseable_Ok k _ n Hk Ho) as (p & n' & E & Hn & Hp & _ & Hm).
  pose proof (parse_outermost_ok (parse pointer_text) [] parse_top_ok Hcustoms Hdocuments p n' Hp) as Hr.
  unfold parse_kind, vout, se_bind in *. rewrite E. rewrite Hm in Hr.
  destruct (parse_outermost _ _ _ _ _) as [[v|e] n2]; [|done]. destruct Hr. split; [lia|done].
Qed.

(** ** One file of two *)

(** A file that cannot be opened. *)
Lemma absent_parse p options input n :
  good_parseable p -> good_options options -> kind p = ParseableFile input -> contents input = None ->
  allow_missing_ options = false ->
  vout (fun e => exists what, e = IOError what) (parse pointer_text [] p options) n (fun _ _ => False).
Proof.
  intros Hp Ho Hk Hc Hm. unfold parse. cbn [parse_nested]. rewrite bool_decide_false by (cbn [length]; unfold MAX_INCLUDE_DEPTH; lia).
  apply (vout_bind _ _ _ _ (fun _ _ => False)); [|done]. unfold Include.parse_value.
  eapply vout_bind; [eapply vout_weaken; [apply fixup_ok|done|intros ? ? _ HQ; exact HQ]|].
  intros o n' _ (_ & Em & Ed & _). apply (vout_bind _ _ _ _ (fun _ _ => True)).
  - rewrite Ed. case_bool_decide as E; [by apply vout_ret|].
    destruct (good_simple (origin_description_ options)) as (og & -> & Hg); [by apply Ho|by split].
  - intros og n2 _ _. unfold parse_value_at, vout, catch_io, se_bind. rewrite Hk. cbn [reader]. rewrite Hc. simpl.
    rewrite Em, Hm. simpl. eauto.
Qed.

(** What a file alone is parsed to. *)
Definition alone (handle : Parseable) (s : ConfigSyntax) (n : nat) : res parse_exn value :=
  (parse pointer_text [] handle (set_syntax s (set_allow_missing false (initial_options handle))) n).1.

Definition not_io (r : res parse_exn value) : Prop := match r with Err (IOError _) => False | _ => True end.

Lemma present_alone p s input text n :
  quiet = true -> good_parseable p -> kind p = ParseableFile input -> contents input = Some text ->
  not_io (alone p s n) /\ forall v n', parse pointer_text [] p (set_syntax s (set_allow_missing false (initial_options p))) n = (Ok v, n') ->
    (n <= n')%nat /\ answer n' v.
Proof.
  intros Hq Hp Hk Hc. unfold alone. rewrite set_syntax_fields, set_allow_missing_fields.
  pose proof (parse_top_ok p (mkOptions s (origin_description_ (initial_options p)) false (includer_ (initial_options p))) n Hp
    (good_p_options _ Hp)) as Hr. unfold present in Hr. rewrite Hq, Hk, Hc in Hr. cbn [allow_missing_ orb andb] in Hr.
  rewrite bool_decide_true in Hr by (by eexists). unfold vout in Hr.
  cbn [syntax_ origin_description_ allow_missing_ includer_]. destruct (parse _ _ _ _ n) as [[v|e] n']; cbn [fst negb] in *.
  - split; [done|]. by intros ? ? [= <- <-].
  - split; [by destruct e|done].
Qed.

Lemma absent_alone p s input n :
  good_parseable p -> kind p = ParseableFile input -> contents input = None ->
  exists what n', parse pointer_text [] p (set_syntax s (set_allow_missing false (initial_options p))) n = (Err (IOError what), n').
Proof.
  intros Hp Hk Hc. rewrite set_syntax_fields, set_allow_missing_fields.
  pose proof (absent_parse p (mkOptions s (origin_description_ (initial_options p)) false (includer_ (initial_options p))) input n Hp
    (good_p_options _ Hp) Hk Hc eq_refl) as Hr. unfold vout in Hr.
  cbn [syntax_ origin_description_ allow_missing_ includer_]. destruct (parse _ _ _ _ n) as [[v|e] n']; [by destruct Hr|].
  destruct Hr as [what ->]. eauto.
Qed.

(** What the file gives, if it is there. *)
Definition found_alone (input : str) (handle : Parseable) (s : ConfigSyntax) (n : nat) : option (res parse_exn value) :=
  match contents input with Some _ => Some (alone handle s n) | None => None end.

Lemma found_answer input p s n v :
  quiet = true -> good_parseable p -> kind p = ParseableFile input -> found_alone input p s n = Some (Ok v) -> exists n', answer n' v.
Proof.
  unfold found_alone. destruct (contents input) as [text|] eqn:Ec; [|done]. intros Hq Hp Hk [= E].
  destruct (present_alone p s input text n Hq Hp Hk Ec) as [_ Hv]. unfold alone in E.
  destruct (parse _ _ _ _ n) as [r n'] eqn:Ep. simpl in E. subst r. exists n'. by apply Hv.
Qed.

(** The result, given what the [.conf] and the [.json] file are parsed to. *)
Definition both_outcome (allow_missing : bool) (conf json : option (res parse_exn value)) (r : res parse_exn value) : Prop :=
  match conf, json with
  | None, None =>
      if allow_missing then exists a o, r = Ok (SimpleConfigObject a o [] false) else exists what, r = Err (IOError what)
  | Some (Ok c), None | None, Some (Ok c) => exists v, r = Ok v /\ shape_of v = shape_of c
  | Some (Ok c), Some (Ok j) => exists v, r = Ok v /\ shape_of v = merge (shape_of c) (shape_of j)
  | Some (Err e), _ | _, Some (Err e) => r = Err e
  end.

(** The state of the search after one file, from what the file gives. *)
Definition search_outcome (f : found) (file : option (res parse_exn value)) (combine : shape -> shape -> shape)
    (r : res parse_exn found * nat) : Prop :=
  match file with
  | None => exists what n', r = (Ok (mkFound (obj f) (got_something f) (fail_messages f ++ [what])), n') /\ answer n' (obj f)
  | Some (Ok v) => exists w n', r = (Ok (mkFound w true (fail_messages f)), n') /\ answer n' w
                     /\ shape_of w = combine (shape_of (obj f)) (shape_of v)
  | Some (Err e) => r.1 = Err e
  end.

Lemma search_outcome_ok f p s input use combine n :
  quiet = true -> good_parseable p -> kind p = ParseableFile input -> answer n (obj f) ->
  (forall v w n, answer n v -> answer n w ->
     vout (fun _ => False) (use v w) n (fun x n' => answer n' x /\ shape_of x = combine (shape_of v) (shape_of w))) ->
  search_outcome f (found_alone input p s n) combine (search (parse pointer_text) [] true f p s use n).
Proof.
  intros Hq Hp Hk Hf Huse. unfold search_outcome, found_alone, search, catch_io, se_bind.
  destruct (contents input) as [text|] eqn:Ec.
  2: { destruct (absent_alone p s input n Hp Hk Ec) as (what & n' & ->). simpl. eauto. }
  destruct (present_alone p s input text n Hq Hp Hk Ec) as [Hio Hv]. unfold alone in *.
  destruct (parse pointer_text [] p _ n) as [[v|e] n']; cbn [fst] in *; [|by destruct e].
  destruct (Hv v n' eq_refl) as [Hn Ha]. specialize (Huse (obj f) v n' (answer_mono _ _ _ Hn Hf) Ha). unfold vout in Huse.
  destruct (use (obj f) v n') as [[w|e] n'']; [|done]. destruct Huse as (_ & ? & ?). unfold se_ret. eauto.
Qed.

(** The second file, and the end of the search. *)
Definition second_file (f : found) (name : str) (options : ConfigParseOptions) (json : Parseable) : I value :=
  let* f := search (parse pointer_text) [] true f json JSON (fun v parsed => lift_values (with_fallback v parsed)) in
  search_result name options f.

Lemma second_file_ok f name options json n :
  quiet = true -> good_parseable json -> kind json = ParseableFile (name ++ $".json") -> answer n (obj f) -> name <> [] ->
  match found_alone (name ++ $".json") json JSON n with
  | Some (Ok j) => exists v, (second_file f name options json n).1 = Ok v /\ shape_of v = merge (shape_of (obj f)) (shape_of j)
  | Some (Err e) => (second_file f name options json n).1 = Err e
  | None => if allow_missing_ options || got_something f then (second_file f name options json n).1 = Ok (obj f)
            else exists what, (second_file f name options json n).1 = Err (IOError what)
  end.
Proof.
  intros Hq Hj Kj Hf Hn.
  pose proof (search_outcome_ok f json JSON _ (fun v parsed => lift_values (with_fallback v parsed)) merge n Hq Hj Kj Hf) as Hs.
  specialize (Hs ltac:(intros v w k Hv Hw; unfold vout, lift_values; pose proof (answers_merge k v w Hv Hw) as Hm;
                       unfold vout in Hm; by destruct (with_fallback v w k) as [[]])).
  unfold search_outcome in Hs. unfold second_file, se_bind.
  destruct (found_alone _ _ _ _) as [[j|e]|].
  - destruct Hs as (w & n' & -> & _ & Hw). unfold search_result. simpl. rewrite andb_false_r. by exists w.
  - destruct (search _ _ _ _ _ _ _ _) as [[g|e'] n']; [done|]. by injection Hs as ->.
  - destruct Hs as (what & n' & -> & _). unfold search_result. cbn [got_something fail_messages obj].
    destruct (allow_missing_ options), (got_something f); cbn [negb andb orb]; try done.
    unfold new_simple, make_origin. rewrite bool_decide_false by done. destruct (fail_messages f); simpl; eauto.
Qed.

Lemma merge_nothing n v : answer n v -> merge (HObject [] false) (shape_of v) = shape_of v.
Proof.
  intros Hv. destruct (answer_cases n v Hv) as (a & o & m & b & -> & _).
  change (shape_of (SimpleConfigObject a o m b)) with (HObject (shapes m) b). by rewrite merge_objects, only_in_empty.
Qed.
End IncludeTotal.

Section Theorems.
Context `{DoubleLib} {FS : Files} {App : Application}.


End Theorems.

(** ** Concrete file systems *)

#[local] Existing Instance whole_doubles.

Fixpoint up_to_slash (rev : str) : str :=
  match rev with [] => [] | c :: rest => if Ascii.eqb c "/"%char then rest else up_to_slash rest end.

(** Files in a list; paths with slashes. *)
Definition disk (files : list (str * str)) : Files := {|
  contents file := lookup_key file files;
  file_exists file := bool_decide (is_Some (lookup_key file files));
  has_root_directory file := match file with c :: _ => Ascii.eqb c "/"%char | [] => false end;
  parent_path file := reverse (up_to_slash (reverse file));
  append_path parent name := parent ++ $"/" ++ name |}.

Lemma disk_paths files : paths_ok (FS := disk files).
Proof. intros parent name. exists (parent ++ $"/"). simpl. by rewrite <- app_assoc. Qed.

(** An application with one includer: it knows a single document, and that names
    that begin with a dash fail. *)
Definition one_includer : Application := {|
  custom_with_fallback a _ := Custom a;
  custom_include _ _ _ name n :=
    match name with
    | "-"%char :: _ => (Err (IOError name), n)
    | _ => (Ok (SimpleConfigObject n app_origin [($"from", Scalar (S n) app_origin (ConfigString name))] false), S (S n))
    end;
  custom_include_file _ := None;
  custom_full _ := false |}.

Lemma one_includer_ok empties : customs_ok (App := one_includer) empties false.
Proof.
  intros a stack p Hp. split; [|done]. intros name n _. simpl.
  assert (Hw : wf (S (S n)) (SimpleConfigObject n app_origin [($"from", Scalar (S n) app_origin (ConfigString name))] false)).
  { constructor; [lia|apply app_origin_good|apply NoDup_singleton|]. apply Forall_singleton. constructor; [simpl; lia|apply app_origin_good]. }
  destruct name as [|c name]; [split; [lia|done]|]. destruct c as [[] [] [] [] [] [] [] []]; first [done|split; [lia|exact Hw]].
Qed.

Definition read (files : list (str * str)) (name : str) (options : option ConfigParseOptions) : res parse_exn value * nat :=
  @parse_file_any_syntax _ (disk files) one_includer (fun _ => $"0x0") name options 0%nat.

Definition including (name : str) : str := $"include " ++ quote name.

(** Two documents that include each other. *)
Definition mutual : list (str * str) :=
  [($"/d/a.conf", including $"b" ++ newline ++ $"x = 1"); ($"/d/b.conf", including $"a")].

Lemma no_empties files :
  forallb (fun kv => negb (has_empty_string kv.2 true) && negb (has_empty_string kv.2 false)) files = true ->
  documents_ok (FS := disk files) false.
Proof.
  intros Hall file text json Hc Ht. cbn [contents disk] in Hc. exfalso.
  induction files as [|[k v] files IH]; [done|]. simpl in Hc, Hall. apply andb_true_iff in Hall as [Hv Hall].
  destruct (bool_decide (k = file)); [|by apply IH]. injection Hc as ->.
  apply andb_true_iff in Hv as [Hv1 Hv2]. by destruct json; rewrite Ht in *.
Qed.

Definition is_parse_error (r : res parse_exn value * nat) : bool := match r.1 with Err (ParseError _ _) => true | _ => false end.

Lemma parse_error_inv r : is_parse_error r = true -> exists o message n, r = (Err (ParseError o message), n).
Proof. destruct r as [[v|[]] n]; try done. by eauto. Qed.

Lemma mutual_error : is_parse_error (read mutual $"/d/a" None) = true.
Proof. vm_compute. reflexivity. Qed.


Definition layered : list (str * str) :=
  [($"/d/a.conf", including $"b" ++ newline ++ $"x = 1"); ($"/d/b.conf", $"w = 2");
   ($"/d/a.json", $"{" ++ quote $"x" ++ $" : 5, " ++ quote $"z" ++ $" : 3}")].

(** An application without includers of its own. *)
Definition no_includer : Application := {|
  custom_with_fallback a _ := Custom a;
  custom_include _ _ _ _ n := (Ok (SimpleConfigObject n app_origin [] false), S n);
  custom_include_file _ := None;
  custom_full _ := false |}.

Lemma no_includer_ok empties quiet : customs_ok (App := no_includer) empties quiet.
Proof. intros a stack p _. split; [|done]. intros name n _. split; simpl; lia. Qed.

Definition shape_read (r : res parse_exn value * nat) : option shape := match r.1 with Ok v => Some (shape_of v) | Err _ => None end.

Lemma shape_read_inv r h : shape_read r = Some h -> exists v n, r = (Ok v, n) /\ shape_of v = h.
Proof. destruct r as [[v|e] n]; [|done]. intros [= <-]. by eauto. Qed.

Abbreviation read_plain files name := (@parse_file_any_syntax _ (disk files) no_includer (fun _ => $"0x0") name None 0%nat).

Definition layered_shape : shape :=
  HObject [($"w", HScalar (ConfigInt 2 $"2")); ($"x", HScalar (ConfigInt 1 $"1")); ($"z", HScalar (ConfigInt 3 $"3"))] false.

Lemma layered_read : shape_read (read_plain layered $"/d/a") = Some layered_shape.
Proof. vm_compute. reflexivity. Qed.


(** The directory of a file given without one is not searched. *)
Example include_beside_bare_name :
  shape_read (read [($"a.conf", including $"b"); ($"b.conf", $"w = 2")] $"a" None) = Some (HObject [] false).
Proof. vm_compute. reflexivity. Qed.

(** An included [.json] file is read in the syntax of the including one. *)
Example included_json_is_conf :
  shape_read (read [($"/d/a.conf", including $"b.json"); ($"/d/b.json", $"w = 2")] $"/d/a" None)
  = Some (HObject [($"w", HScalar (ConfigInt 2 $"2"))] false)
  /\ (exists o m n, read [($"/d/b.json", $"w = 2")] $"/d/b.json" None = (Err (ParseError o m), n)).
Proof. split; [vm_compute; reflexivity|]. eexists _, _, _. vm_compute. reflexivity. Qed.

(** An include of nothing is a bug in the library. *)
Example include_nothing :
  (read [($"/d/a.conf", including [])] $"/d/a" None).1 = Err (Parser.ValueError (BadOrigin EmptyDescription)).
Proof. vm_compute. reflexivity. Qed.

(** An I/O error of an application's includer does not abort the parse: the document
    is taken for missing. *)
Example custom_io_swallowed :
  shape_read (read [($"/d/a.conf", $"x = 1" ++ newline ++ including $"-b")] $"/d/a"
    (Some (set_includer (Custom 1) default_options))) = Some (HObject [] false).
Proof. vm_compute. reflexivity. Qed.

(** From files and environment to a resolved configuration. *)
Example load_resolves :
  exists v, @load _ (disk [($"/d/a.conf", including $"b" ++ newline ++ $"home = ${HOME}/x"); ($"/d/b.conf", $"w = ${home}")])
      no_includer (fun _ => $"0x0") [$"HOME=/root"] $"/d/a" default_options defaults 40 0 = Ok (Some v)
    /\ shape_at (shape_of v) [$"w"] = Some (HScalar (ConfigString $"/root/x")).
Proof. eexists. split; [vm_compute; reflexivity|]. vm_compute. reflexivity. Qed.
